(* ===== verification/_CoqProject ===== *)
-Q . S2P
Prelude.v
GoStrings.v
GoStrconv.v
Float64.v
GoTime.v
RaftNode.v
KvStore.v
HttpApi.v
RaftKv.v
Cluster.v
RaftServe.v
Jojo.v
JojoRoute.v
JojoQueue.v
JojoServe.v
JojoProxy.v
JojoProbe.v
Dhcp.v
DhcpCli.v
Vanishling.v
VanishlingServer.v
VanishlingLife.v
Ldap.v
Kafka.v
Dockerfile.v
Hci.v
Gobpf.v
Vault.v
Statfs.v
Slices.v
Cgo.v
Tools.v
Bloom.v
Aes.v
LeakyBucket.v
Goroutines.v
Clients.v
