(* ===== verification/Prelude.v ===== *)
(** * go-experiments: a verification development

    The repository is a collection of independent Go programs.  This development
    models all of them that have logic of their own; each program, or each component
    of the larger ones, has a file, and the properties proved for it stand at the end
    of that file, with small concrete runs in a module [...Examples].

    ** The programs and their files

    goraft-explore, a key-value store replicated with etcd's raft library:
    - RaftNode.v models src/goraft-explore/raft.go, function by function: start-up
      and replay of the write-ahead log ([replayWAL], [startRaft]), the event loop
      ([eventLoop], [handleReady]), the goroutine that passes proposals on
      ([proposeLoop]), the application of committed entries ([entriesToApply],
      [publishEntries]), snapshots ([saveSnap], [publishSnapshot],
      [maybeTriggerSnapshot]) and the end ([stop], [stopHTTP], [writeError]).
    - KvStore.v models kvstore.go: the map, its proposals, the loop over the commit
      channel and snapshots.  gob and json are classes with their round-trip laws.
    - HttpApi.v models the handler of httpapi.go over the store.
    - RaftKv.v runs node and store in parallel, joined by the unbuffered commit
      channel.
    - Cluster.v composes node and store from start-up on, as main.go does, and compares
      several such replicas over one log.
    - RaftServe.v: [Accept] of listener.go as a transition system, the server of
      httpapi.go, main.go.

    jojo, a caching DNS proxy (src/jojo/):
    - Jojo.v: the table of upstream servers (failures, probes, choice by hash) and
      the pure functions on DNS messages.
    - JojoRoute.v: one query to an upstream server ([syncResolve]) and the request
      handler ([route]) with cache, slip and truncation, over a class [Resolver]
      that states what the handler needs of the resolver threads.
    - JojoQueue.v: the ring of queued requests, as a transition system of clients
      and resolver threads.
    - JojoServe.v: what a resolver thread does with a request, the vacuum thread, the
      local records, capabilities (jojo_cap.go) and main; it discharges [Resolver]
      and composes clients, threads, ring and handler.
    - JojoProxy.v: any number of requests at the same time, which share the cache.
    - JojoProbe.v: a probe of the upstream servers while others are marked as failed.

    opendhcpd, a DHCP server (src/opendhcpd/): Dhcp.v (dhcpv4/ and helper/), DhcpCli.v
    (the command line, with urfave/cli as a class).

    vanishling, a file store whose files expire (src/vanishling/): Vanishling.v
    (handlers, journal and a pass of the cleaner), VanishlingServer.v (the ticking
    cleaner, start, routes, and the uploads of several clients at the same time),
    VanishlingLife.v (requests and passes of the cleaner in any order).

    Single programs: Ldap.v (ldap-explore), Kafka.v (kafka-rolling-restarter),
    Dockerfile.v (dockerfile), Hci.v (hciscan), Gobpf.v (gobpf-explore, with the C
    probes it loads), Vault.v (vault-secrets), Statfs.v (statfs-explore), LeakyBucket.v
    (leakybucket), Bloom.v (bloomfilter-explore), Aes.v (aes-explore), Slices.v
    (slice-delete and list-intersect/fast, on slices with their backing array), Cgo.v
    (msanfoo, cgo-explore and list-intersect/cgo-list-intersect, on a memory of C blocks).
    Goroutines.v (atomic-counters, timer-explorer, recover-explore, runtime-foo) and
    Clients.v (backoff-exponential, tls-handshake-go, pebble-foo, cdoh,
    leakybucket-uber, interfaces-explore, io-explore1, tracing, tracing2) and Tools.v
    (sys-lock with its package singlefile, allocate-mem, leakybucket/test_server,
    dlv-testing, dyn-dispatch) hold a module for each of the smaller programs.

    Shared parts: this file (programs, weakest preconditions, invariants, machine
    integers), GoStrings.v (package strings, hex, bytes), GoStrconv.v ([ParseUint]),
    Float64.v (IEEE 754 arithmetic, durations and instants), GoTime.v (dates and
    durations as text).

    ** How Go is modelled

    A function without effects is a Rocq function.  A handler is a program in the
    monad [io S E] below: it threads the component's state [S], records every call
    to code outside of the component as an event of type [E], and ends by returning,
    panicking or ending the process ([outcome]).  The results of those calls come
    from an environment, a function of the history and the event, over which the
    theorems quantify: they hold whatever the network, the file system, the clock,
    the libraries and other goroutines answer, up to laws that are stated as
    hypotheses of a section or of a class where a property needs them, and that the
    examples show to be satisfiable.  Third-party functions without effects
    (miekg/dns, krolaw/dhcp4, siphash, murmur3, highwayhash, zxcvbn) are parameters,
    and so are [math.Pow], gob and json.
    Errors are values of [result].  Integers are [Z] with the wrap-around written
    out at the width the code uses; [int] has 64 bits.  float64 is computed by
    [SpecFloat].  Concurrency that matters is modelled by step relations (JojoQueue,
    JojoProbe, LeakyBucket, RaftKv, RaftServe, VanishlingServer, Goroutines, Tools) or, where
    handlers meet only in a library, by a family of handlers with an environment each
    (JojoProxy, Cluster); elsewhere a handler runs in one piece.  Memory that C may touch is
    a map of blocks with indeterminate cells (Cgo).

    ** What the theorems show

    - raft node: across overlapping batches every committed entry reaches the store
      exactly once and in order; [entriesToApply] is exact on unsigned 64-bit
      indices; a snapshot is recorded in the log before its file is written;
      snapshots are triggered in time; channels are closed once; proposals are
      numbered.  Store: it refines the fold of the committed updates; snapshots
      round-trip; node and store in parallel are at most one message apart, and a
      snapshot can miss the last entry.  Replicas: new, restarted or brought up to
      date by snapshots, at the same index of the log they hold the same map, and a PUT to
      one is read from all of them once it is committed.  HTTP: one response per request, a put that
      is committed is what get returns.  Listener: what [Accept] returns, and the
      connection that it can leak.
    - jojo: of any number of requests at the same time, each is answered exactly once, under
      its identifier, and with an answer of the proxy itself or of a configured server to
      a query with the same key, from the cache only within its lifetime or when the
      resolver fails; cache hits need no query; results are cached for one minute to a
      week; local records are answered without a query.  The table stays
      well-formed, a failing server is dropped after exactly the configured failures,
      hashes are spread evenly; a probe that races with failures leaves a list of
      configured servers, but possibly an empty one.  The ring never loses or duplicates a request; its one
      way to stall is characterised, and reached.
    - opendhcpd: leases are exclusive over any sequence of packets; the search for a
      free address is complete; discover and request fit together, except for
      expired leases of others.  The daemon is the server that was asked for.
    - vanishling: uploads come back as sent; downloads are confined; the journal
      round-trips; the cleaner removes what has expired and nothing else, after which
      it is no longer served.  Over any sequence of requests and passes, a file is served
      until its lifetime is over, and no file outlives the longest lifetime and the next
      pass.  Concurrent uploads: no request returns early, and
      lifetimes can be swapped, but not made up.
    - ldap-explore: no change without the current password.  Kafka restarter: no
      restart unless the metrics say so.  dockerfile: the instructions of a build are
      restored from its history, and what is printed belongs to the image asked for.
      hciscan: a listing is the latest report of every device.  gobpf-explore: the
      lines printed are the calls traced.  vault-secrets: every row is written once.
      statfs-explore: the unit fits.  leakybucket: the rate is bounded by the ticks.
      Bloom filter: no false negatives.  Slices: three removals agree, the intersection
      is sound.  aes-explore: decryption undoes encryption, up to padding.
      atomic-counters: the counter stays between the sums of its additions, and loses
      updates.  sys-lock: the lock excludes, the program from itself too.  cgo programs:
      which reads are defined, and which are not.  io-explore1: what a copy leaves behind.  Others are shown to do, event
      by event, what their run lemma says.

    ** Fuel

    Loops over data are structural.  Loops that wait for input are run on a list of
    inputs (RaftNode, KvStore, Hci, VanishlingServer) or for a number of rounds, after
    which the process is interrupted (Kafka, JojoServe, Clients), and the theorems hold
    for every list and every number.  [Aes.blocks] has fuel for its loop over blocks;
    the length of the input is enough, and the theorem proves that the result is
    returned.  [GoTime.decimalFuel] prints 21 digits, more than 64 bits need.
    [GoTime.parseParts] runs on the length of its text.  [Cgo.forBelow] needs one round more
    than the size of the set, which the theorem asks for.  The loop of
    [Goroutines.RuntimeFoo.fill] ends in its first round.

    ** What is not modelled

    The texts of log lines and pages, where no property depends on them, and vendored
    packages, but for singlefile.  In JojoServe.v the loop of a probe runs in one piece;
    JojoProbe.v has its interleavings with failures.  In VanishlingLife.v requests and passes
    do not interleave; VanishlingServer.v has the interleavings of requests, and the hash
    object they share is used under a lock.  Cluster.v leaves out replicas that are restarted
    with a snapshot on disk, whose replay KvStore.v shows to be lost.  [math.Pow] in hciscan's distance is a
    parameter. *)
From stdpp Require Import base gmap strings list numbers relations.

(** * Results of Go calls

    A Go call either returns, panics (a run-time panic or [log.Panic]) or ends
    the process ([log.Fatal], [os.Exit]).  What it changed before stays changed,
    so the state is threaded separately by the monad [io] below. *)
Inductive outcome (A : Type) :=
  | Ret (a : A)
  | Panic (msg : string)
  | Exit (msg : string).
Arguments Ret {A} a.
Arguments Panic {A} msg.
Arguments Exit {A} msg.

(** The error half of Go's [(value, error)] results. *)
Abbreviation error := string (only parsing).
Definition result (A : Type) : Type := A + error.

(** * Programs with state and calls to the outside

    [io S E A]: a program over the component state [S] which records every call
    to code outside of the component (a channel, a file, a library) as an event
    of type [E].  The answers come from an environment that sees the history of
    events, so quantifying over the environment quantifies over every behaviour
    of that code. *)
Definition io (S E A : Type) : Type := S → list E → outcome A * S * list E.

Section io_ops.
Context {S E : Type}.

#[global] Instance io_ret : MRet (io S E) := λ A a s h, (Ret a, s, h).
#[global] Instance io_bind : MBind (io S E) := λ A B f m s h,
  match m s h with
  | (Ret a, s', h') => f a s' h'
  | (Panic msg, s', h') => (Panic msg, s', h')
  | (Exit msg, s', h') => (Exit msg, s', h')
  end.

Definition get : io S E S := λ s h, (Ret s, s, h).
Definition modify (f : S → S) : io S E unit := λ s h, (Ret tt, f s, h).
Definition panic {A} (msg : string) : io S E A := λ s h, (Panic msg, s, h).
Definition fatal {A} (msg : string) : io S E A := λ s h, (Exit msg, s, h).

(** [call env e]: perform [e]; the environment answers from the history. *)
Definition call {R : E → Type} (env : list E → ∀ e : E, R e) (e : E) : io S E (R e) :=
  λ s h, (Ret (env h e), s, h ++ [e]).
(** [emit e]: perform [e], which has no result the program looks at. *)
Definition emit (e : E) : io S E unit := λ s h, (Ret tt, s, h ++ [e]).
(** [deferring d m]: run [m] with [defer d()]: [d] runs when [m] returns or
    panics, not when the process ends. *)
Definition deferring {A} (d : io S E unit) (m : io S E A) : io S E A := λ s h,
  match m s h with
  | (Exit msg, s', h') => (Exit msg, s', h')
  | (o, s', h') =>
      match d s' h' with
      | (Ret _, s2, h2) => (o, s2, h2)
      | (Panic msg, s2, h2) => (Panic msg, s2, h2)
      | (Exit msg, s2, h2) => (Exit msg, s2, h2)
      end
  end.
End io_ops.
Arguments get {S E} _ _ /.
Arguments modify {S E} _ _ _ /.
Arguments panic {S E A} _ _ _ /.
Arguments fatal {S E A} _ _ _ /.
Arguments call {S E R} _ _ _ _ /.
Arguments emit {S E} _ _ _ /.

(** [lift_io inj proj m]: a program of one component run inside of another, whose
    history holds the first one's events among its own. *)
Definition lift_io {S E F A} (inj : E → F) (proj : F → option E) (m : io S E A) : io S F A :=
  λ s h, match m s (omap proj h) with
         | (o, s', h') => (o, s', h ++ (inj <$> drop (length (omap proj h)) h'))
         end.

(** ** Weakest preconditions *)
Section wp.
Context {S E : Type}.

Definition wp {A} (m : io S E A) (Q : outcome A → S → list E → Prop)
    (s : S) (h : list E) : Prop :=
  match m s h with (o, s', h') => Q o s' h' end.

Lemma wp_ret {A} (a : A) Q s h : Q (Ret a) s h → wp (mret a) Q s h.
Proof. done. Qed.
Lemma wp_bind {A B} (m : io S E A) (f : A → io S E B) Q s h :
  wp m (λ o s' h', match o with
                   | Ret a => wp (f a) Q s' h'
                   | Panic msg => Q (Panic msg) s' h'
                   | Exit msg => Q (Exit msg) s' h'
                   end) s h →
  wp (m ≫= f) Q s h.
Proof.
  unfold wp, mbind, io_bind. destruct (m s h) as [[[a|msg|msg] s'] h']; auto.
Qed.
Lemma wp_mono {A} (m : io S E A) (Q Q' : outcome A → S → list E → Prop) s h :
  (∀ o s' h', Q o s' h' → Q' o s' h') → wp m Q s h → wp m Q' s h.
Proof. unfold wp. destruct (m s h) as [[o s'] h']. auto. Qed.
Lemma wp_and {A} (m : io S E A) (Q Q' : outcome A → S → list E → Prop) s h :
  wp m Q s h → wp m Q' s h → wp m (λ o s' h', Q o s' h' ∧ Q' o s' h') s h.
Proof. unfold wp. destruct (m s h) as [[o s'] h']. auto. Qed.
Lemma wp_get Q s h : Q (Ret s) s h → wp get Q s h.
Proof. done. Qed.
Lemma wp_modify f Q s h : Q (Ret tt) (f s) h → wp (modify f) Q s h.
Proof. done. Qed.
Lemma wp_panic {A} msg (Q : outcome A → _ → _ → Prop) s h :
  Q (Panic msg) s h → wp (panic msg) Q s h.
Proof. done. Qed.
Lemma wp_fatal {A} msg (Q : outcome A → _ → _ → Prop) s h :
  Q (Exit msg) s h → wp (fatal msg) Q s h.
Proof. done. Qed.
Lemma wp_call {R : E → Type} (env : list E → ∀ e, R e) e Q s h :
  Q (Ret (env h e)) s (h ++ [e]) → wp (call env e) Q s h.
Proof. done. Qed.
Lemma wp_emit e Q s h : Q (Ret tt) s (h ++ [e]) → wp (emit e) Q s h.
Proof. done. Qed.
Lemma wp_deferring {A} d (m : io S E A) Q s h :
  wp m (λ o s' h',
          match o with
          | Exit msg => Q (Exit msg) s' h'
          | _ => wp d (λ od s2 h2, match od with
                                   | Ret _ => Q o s2 h2
                                   | Panic msg => Q (Panic msg) s2 h2
                                   | Exit msg => Q (Exit msg) s2 h2
                                   end) s' h'
          end) s h →
  wp (deferring d m) Q s h.
Proof.
  unfold wp, deferring. destruct (m s h) as [[[a|msg|msg] s'] h']; [| |done];
    destruct (d s' h') as [[[?|?|?] ?] ?]; auto.
Qed.
(** The result of a run read off a proved postcondition. *)
Lemma wp_run {A} (m : io S E A) Q s h o s' h' :
  wp m Q s h → m s h = (o, s', h') → Q o s' h'.
Proof. unfold wp. intros HQ Hrun. by rewrite Hrun in HQ. Qed.
(** A run as an equation. *)
Lemma wp_eq {A} (m : io S E A) s h r :
  wp m (λ o s' h', (o, s', h') = r) s h → m s h = r.
Proof. unfold wp. by destruct (m s h) as [[o s'] h']. Qed.
(** A run that is known as an equation. *)
Lemma wp_of_run {A} (m : io S E A) (Q : outcome A → S → list E → Prop) s h o s' h' :
  m s h = (o, s', h') → Q o s' h' → wp m Q s h.
Proof. unfold wp. by intros ->. Qed.
(** Programs that begin alike go on alike. *)
Lemma io_bind_ext {A B} (m : io S E A) (f : A → io S E B) s h s' h' :
  m s h = m s' h' → (m ≫= f) s h = (m ≫= f) s' h'.
Proof. unfold mbind, io_bind. by intros ->. Qed.
End wp.

Create HintDb go.
#[export] Hint Resolve wp_ret wp_get wp_modify wp_panic wp_fatal wp_call wp_emit : go.

(** [wp_step] reduces one step of a program in a [wp] goal, [wp_steps] all of
    them; a test in the program is split with [wp_if]. *)
Ltac wp_step :=
  lazymatch goal with
  | |- wp (mbind _ _) _ _ _ => apply wp_bind
  | |- wp (deferring _ _) _ _ _ => apply wp_deferring
  | |- wp (mret ?a) ?Q ?s ?h => change (Q (Ret a) s h)
  | |- wp get ?Q ?s ?h => change (Q (Ret s) s h)
  | |- wp (modify ?f) ?Q ?s ?h => change (Q (Ret tt) (f s) h)
  | |- wp (panic ?msg) ?Q ?s ?h => change (Q (Panic msg) s h)
  | |- wp (fatal ?msg) ?Q ?s ?h => change (Q (Exit msg) s h)
  | |- wp (call ?env ?e) ?Q ?s ?h => change (Q (Ret (env h e)) s (h ++ [e]))
  | |- wp (emit ?e) ?Q ?s ?h => change (Q (Ret tt) s (h ++ [e]))
  end; cbv beta iota.
Ltac wp_steps := repeat wp_step.
Ltac wp_if :=
  lazymatch goal with
  | |- wp (if @decide ?P ?d then _ else _) _ _ _ =>
      let H := fresh "Hif" in destruct (@decide P d) as [H|H]
  | |- wp (if ?b then _ else _) _ _ _ => let H := fresh "Hif" in destruct b eqn:H
  | |- wp (match ?b with _ => _ end) _ _ _ => let H := fresh "Hcase" in destruct b eqn:H
  end.

(** [start_wp H]: the goal about the end of the run [H] as a [wp] goal. *)
Ltac start_wp H :=
  match type of H with
  | ?m ?s ?h = (?o, ?s1, ?h1) =>
      pattern o, s1, h1; refine (wp_run m _ s h o s1 h1 _ H); clear H; cbv beta
  end.

(** A program run inside of another: its own history grows by the lifted events. *)
Lemma wp_lift_io {S E F A} (inj : E → F) (proj : F → option E) (m : io S E A)
    (Q : outcome A → S → Prop) s h :
  wp m (λ o s' _, Q o s') s (omap proj h) →
  wp (lift_io inj proj m) (λ o s' h', Q o s' ∧ ∃ k, h' = h ++ (inj <$> k)) s h.
Proof. unfold wp, lift_io. destruct (m s _) as [[o s'] h']. eauto. Qed.

(** ** Invariants of programs

    [preserves I m]: whatever [m] does and however it ends, an invariant of the
    state and the history survives it. *)
Section preserves.
Context {S E : Type} (I : S → list E → Prop).

Definition preserves {A} (m : io S E A) : Prop :=
  ∀ s h, I s h → wp m (λ _ s' h', I s' h') s h.

Lemma preserves_ret {A} (a : A) : preserves (mret a).
Proof. by intros s h HI. Qed.
Lemma preserves_get : preserves get.
Proof. by intros s h HI. Qed.
Lemma preserves_panic {A} msg : preserves (panic (A:=A) msg).
Proof. by intros s h HI. Qed.
Lemma preserves_fatal {A} msg : preserves (fatal (A:=A) msg).
Proof. by intros s h HI. Qed.
Lemma preserves_modify f : (∀ s h, I s h → I (f s) h) → preserves (modify f).
Proof. intros Hf s h HI. by apply wp_modify, Hf. Qed.
Lemma preserves_call {R : E → Type} (env : list E → ∀ e, R e) e :
  (∀ s h, I s h → I s (h ++ [e])) → preserves (call env e).
Proof. intros He s h HI. by apply wp_call, He. Qed.
Lemma preserves_emit e : (∀ s h, I s h → I s (h ++ [e])) → preserves (emit e).
Proof. intros He s h HI. by apply wp_emit, He. Qed.
Lemma preserves_bind {A B} (m : io S E A) (f : A → io S E B) :
  preserves m → (∀ a, preserves (f a)) → preserves (m ≫= f).
Proof.
  intros Hm Hf s h HI. apply wp_bind. eapply wp_mono; [|by apply Hm].
  intros [a|msg|msg] s' h' HI'; [by apply Hf|done|done].
Qed.
Lemma preserves_deferring {A} d (m : io S E A) :
  preserves d → preserves m → preserves (deferring d m).
Proof.
  intros Hd Hm s h HI. apply wp_deferring. eapply wp_mono; [|by apply Hm].
  intros [a|msg|msg] s' h' HI'; [| |done];
    (eapply wp_mono; [|by apply Hd]); by intros [?|?|?].
Qed.
(** Running a first part that keeps the invariant, then the rest. *)
Lemma wp_bind_preserves {A B} (m : io S E A) (k : A → io S E B) Q s h :
  preserves m → I s h →
  (∀ a s' h', I s' h' → wp (k a) Q s' h') →
  (∀ msg s' h', I s' h' → Q (Panic msg) s' h' ∧ Q (Exit msg) s' h') →
  wp (m ≫= k) Q s h.
Proof.
  intros Hm HI Hk HQ. apply wp_bind. eapply wp_mono; [|by apply Hm].
  intros [a|msg|msg] s' h' HI'; [by apply Hk|by apply HQ..].
Qed.
(** A program that keeps the invariant on every run keeps it on a given one. *)
Lemma preserves_run {A} (m : io S E A) s h o s' h' :
  preserves m → I s h → m s h = (o, s', h') → I s' h'.
Proof. intros Hm HI Hrun. by eapply (wp_run _ _ _ _ _ _ _ (Hm _ _ HI)). Qed.
End preserves.

Create HintDb inv.
#[export] Hint Resolve preserves_ret preserves_get preserves_panic preserves_fatal : inv.

(** [inv_solve] walks through a program with a [preserves] goal; what is left
    are the steps that change the state or the history. *)
Ltac inv_step :=
  lazymatch goal with
  | |- ∀ _, _ => intro
  | |- preserves _ (mbind _ _) => apply preserves_bind
  | |- preserves _ (deferring _ _) => apply preserves_deferring
  | |- preserves _ (modify _) => apply preserves_modify
  | |- preserves ?I (call ?env ?e) => refine (preserves_call I env e _)
  | |- preserves ?I (emit ?e) => refine (preserves_emit I e _)
  | |- preserves _ (if ?b then _ else _) => destruct b
  | |- preserves _ (match ?b with _ => _ end) => destruct b
  | |- preserves _ (let '(_, _) := ?b in _) => destruct b
  | |- preserves _ _ => solve [eauto with inv]
  end.
Ltac inv_solve := repeat inv_step.

(** * Machine integers

    Go's sized integers are [Z] with the wrap-around written out.  [int] and
    [uint] are 64 bits wide (the programs are built for amd64). *)
Definition wrapU (w z : Z) : Z := (z `mod` 2 ^ w)%Z.
Definition wrapS (w z : Z) : Z := ((z + 2 ^ (w - 1)) `mod` 2 ^ w - 2 ^ (w - 1))%Z.
Abbreviation u64 := (wrapU 64).
Abbreviation u32 := (wrapU 32).
Abbreviation u16 := (wrapU 16).
Abbreviation i64 := (wrapS 64).

Definition inU (w z : Z) : Prop := (0 ≤ z < 2 ^ w)%Z.
Definition inS (w z : Z) : Prop := (- 2 ^ (w - 1) ≤ z < 2 ^ (w - 1))%Z.

Lemma wrapU_in w z : (0 ≤ w)%Z → inU w (wrapU w z).
Proof. intros Hw. apply Z.mod_pos_bound. lia. Qed.
Lemma wrapU_id w z : inU w z → wrapU w z = z.
Proof. intros Hz. by apply Z.mod_small. Qed.
Lemma wrapS_in w z : (1 ≤ w)%Z → inS w (wrapS w z).
Proof.
  intros Hw. unfold inS, wrapS.
  assert (2 ^ w = 2 * 2 ^ (w - 1))%Z as Hpow.
  { rewrite <- Z.pow_succ_r by lia. f_equal. lia. }
  pose proof (Z.mod_pos_bound (z + 2 ^ (w - 1)) (2 ^ w) ltac:(lia)). lia.
Qed.
Lemma wrapS_id w z : (1 ≤ w)%Z → inS w z → wrapS w z = z.
Proof.
  intros Hw Hz. unfold inS, wrapS in *.
  assert (2 ^ w = 2 * 2 ^ (w - 1))%Z as Hpow.
  { rewrite <- Z.pow_succ_r by lia. f_equal. lia. }
  rewrite Z.mod_small; lia.
Qed.
Lemma wrapU_add_l w a b : wrapU w (wrapU w a + b) = wrapU w (a + b).
Proof. unfold wrapU. by rewrite Zplus_mod_idemp_l. Qed.
#[export] Hint Resolve wrapU_in wrapU_id wrapS_in wrapS_id : go.

(** * Lists *)
Section list_lemmas.
Context {A : Type}.
Implicit Types l k : list A.

Lemma drop_app_le l k n : n ≤ length l → drop n (l ++ k) = drop n l ++ k.
Proof.
  intros Hn. rewrite drop_app. by replace (n - length l) with 0 by lia.
Qed.

Lemma Forall_snoc_2 (P : A → Prop) l x : Forall P l → P x → Forall P (l ++ [x]).
Proof. intros. by apply Forall_app_2, Forall_singleton. Qed.
End list_lemmas.
#[export] Hint Resolve Forall_snoc_2 : go.
