(* ===== verification/GoStrings.v ===== *)
(** * Strings of the Go standard library

    A Go string is a sequence of bytes, here a [string] of 8-bit characters.
    The functions of packages [strings] and [strconv] the programs use. *)
From stdpp Require Import base strings list numbers.
From Stdlib Require Import Ascii.
From S2P Require Import Prelude.
Local Open Scope Z_scope.

(** ** Bytes *)
Definition comma : ascii := ","%char.
Definition slash : ascii := "/"%char.
Definition newline : ascii := "010"%char.
Definition dot : ascii := "."%char.
Definition byteZ (c : ascii) : Z := Z.of_N (N_of_ascii c).
Fixpoint to_bytes (s : string) : list Z :=
  match s with
  | EmptyString => []
  | String c s' => byteZ c :: to_bytes s'
  end.
Definition chr (z : Z) : ascii := ascii_of_N (Z.to_N z).
Definition of_bytes (l : list Z) : string := foldr (λ z s, String (chr z) s) EmptyString l.

(** ** Package strings *)
Fixpoint strip_prefix (p s : string) : option string :=
  match p, s with
  | EmptyString, _ => Some s
  | String a p', String b s' => if decide (a = b) then strip_prefix p' s' else None
  | String _ _, EmptyString => None
  end.
Definition hasPrefix (p s : string) : bool := bool_decide (is_Some (strip_prefix p s)).

(** [strings.Contains(s, sub)] *)
Fixpoint contains (sub s : string) : bool :=
  hasPrefix sub s ||
  match s with
  | EmptyString => false
  | String _ s' => contains sub s'
  end.

(** [strings.Split(s, sep)] for a one-byte separator, also [SplitN(s, sep, -1)]. *)
Fixpoint split (sep : ascii) (s : string) : list string :=
  match s with
  | EmptyString => [EmptyString]
  | String c s' =>
      if decide (c = sep) then EmptyString :: split sep s'
      else match split sep s' with
           | w :: ws => String c w :: ws
           | [] => [String c EmptyString]
           end
  end.

(** [strings.Join] with a one-byte separator: the inverse of [split]. *)
Fixpoint join (sep : ascii) (ws : list string) : string :=
  match ws with
  | [] => EmptyString
  | [w] => w
  | w :: ws' => w +:+ String sep (join sep ws')
  end.

(** [strings.NewReplacer(pairs...).Replace(s)] for non-empty old strings: at each
    position the first pair that matches is taken, matches do not overlap.  [skip]
    counts the bytes of a match still to be passed over. *)
Fixpoint find_pair (pairs : list (string * string)) (s : string) : option (string * string) :=
  match pairs with
  | [] => None
  | (old, new) :: pairs' => if hasPrefix old s then Some (old, new) else find_pair pairs' s
  end.
Fixpoint replacer (pairs : list (string * string)) (skip : nat) (s : string) : string :=
  match s with
  | EmptyString => EmptyString
  | String c s' =>
      match skip with
      | S k => replacer pairs k s'
      | O =>
          match find_pair pairs s with
          | Some (old, new) => new +:+ replacer pairs (String.length old - 1) s'
          | None => String c (replacer pairs 0 s')
          end
      end
  end.
(** [strings.ReplaceAll(s, old, new)] for a non-empty [old]. *)
Definition replaceAll (s old new : string) : string := replacer [(old, new)] 0 s.

(** [strings.ToLower] and [strings.ToUpper] on ASCII; other bytes stay. *)
Definition lower_ascii (c : ascii) : ascii :=
  let z := byteZ c in if decide (65 ≤ z ≤ 90) then chr (z + 32) else c.
Definition upper_ascii (c : ascii) : ascii :=
  let z := byteZ c in if decide (97 ≤ z ≤ 122) then chr (z - 32) else c.
Fixpoint map_string (f : ascii → ascii) (s : string) : string :=
  match s with
  | EmptyString => EmptyString
  | String c s' => String (f c) (map_string f s')
  end.
Definition toLower : string → string := map_string lower_ascii.
Definition toUpper : string → string := map_string upper_ascii.

(** ** Lemmas *)
Lemma string_app_assoc (a b c : string) : (a +:+ b) +:+ c = a +:+ (b +:+ c).
Proof. induction a as [|x a IH]; [done|]. exact (f_equal (String x) IH). Qed.
Lemma string_app_nil (a : string) : a +:+ "" = a.
Proof. induction a as [|x a IH]; [done|]. exact (f_equal (String x) IH). Qed.
Lemma string_app_cons c (a b : string) : String c a +:+ b = String c (a +:+ b).
Proof. done. Qed.
Lemma string_length_app (a b : string) :
  String.length (a +:+ b) = (String.length a + String.length b)%nat.
Proof. induction a as [|c a IH]; [done|]. exact (f_equal S IH). Qed.
Lemma strip_prefix_app p s : strip_prefix p (p +:+ s) = Some s.
Proof. induction p as [|c p IH]; simpl; [done|]. by rewrite decide_True. Qed.
Lemma strip_prefix_Some p s r : strip_prefix p s = Some r → s = p +:+ r.
Proof.
  revert s. induction p as [|c p IH]; intros s; simpl; [by intros [= ->]|].
  destruct s as [|c' s]; [done|]. case_decide; [|done]. subst.
  intros ->%IH. done.
Qed.
Lemma hasPrefix_spec p s : hasPrefix p s = true ↔ ∃ r, s = p +:+ r.
Proof.
  unfold hasPrefix. rewrite bool_decide_eq_true. split.
  - intros [r ->%strip_prefix_Some]. by exists r.
  - intros [r ->]. rewrite strip_prefix_app. done.
Qed.

Lemma contains_spec sub s : contains sub s = true ↔ ∃ a b, s = a +:+ sub +:+ b.
Proof.
  split.
  - induction s as [|c s IH]; simpl; rewrite orb_true_iff.
    + intros [[r Hr]%hasPrefix_spec|]; [by exists "", r|done].
    + intros [[r Hr]%hasPrefix_spec|Hc]; [by exists "", r|].
      destruct (IH Hc) as (a&b&->). by exists (String c a), b.
  - intros (a&b&->). induction a as [|c a IH]; simpl.
    + destruct (sub +:+ b) eqn:E; simpl; apply orb_true_iff; left;
        apply hasPrefix_spec; exists b; by rewrite <- E.
    + rewrite IH. by rewrite orb_true_r.
Qed.

(** A byte that does not occur in a string. *)
Fixpoint lacks (sep : ascii) (s : string) : bool :=
  match s with
  | EmptyString => true
  | String c s' => negb (bool_decide (c = sep)) && lacks sep s'
  end.

Lemma split_lacks sep s : lacks sep s = true → split sep s = [s].
Proof.
  induction s as [|c s IH]; simpl; [done|]. rewrite andb_true_iff, negb_true_iff, bool_decide_eq_false.
  intros [Hc Hs]. rewrite decide_False by done. by rewrite IH.
Qed.
Lemma split_cons sep w s :
  lacks sep w = true → split sep (w +:+ String sep s) = w :: split sep s.
Proof.
  induction w as [|c w IH]; simpl.
  - intros _. by rewrite decide_True.
  - rewrite andb_true_iff, negb_true_iff, bool_decide_eq_false. intros [Hc Hw].
    rewrite decide_False by done. by rewrite IH.
Qed.
Lemma split_join sep ws :
  ws ≠ [] → Forall (λ w, lacks sep w = true) ws → split sep (join sep ws) = ws.
Proof.
  induction ws as [|w [|w' ws] IH]; intros Hne Hws; [done| |].
  - inversion Hws. by apply split_lacks.
  - inversion Hws as [|? ? Hw Hws']; subst. change (join sep (w :: w' :: ws)) with
      (w +:+ String sep (join sep (w' :: ws))).
    rewrite split_cons by done. f_equal. by apply IH.
Qed.
Lemma lacks_app sep a b : lacks sep (a +:+ b) = lacks sep a && lacks sep b.
Proof.
  induction a as [|c a IH]; simpl; [done|].
  by rewrite IH, andb_assoc.
Qed.

(** ** Package hex *)
Definition hexDigit (d : Z) : ascii := chr (if decide (d < 10) then 48 + d else 87 + d).
Definition hexEncode (bs : list Z) : string :=
  foldr (λ b s, String (hexDigit (b `div` 16)) (String (hexDigit (b `mod` 16)) s)) "" bs.
Definition isHexDigit (c : ascii) : bool :=
  let z := byteZ c in bool_decide (48 ≤ z ≤ 57 ∨ 97 ≤ z ≤ 102).

Lemma hexDigit_hex d : 0 ≤ d < 16 → isHexDigit (hexDigit d) = true.
Proof.
  intros Hd. assert (∃ n : nat, d = Z.of_nat n ∧ (n < 16)%nat) as (n&->&Hn)
    by (exists (Z.to_nat d); lia).
  do 16 (destruct n as [|n]; [by vm_compute|]). lia.
Qed.
Lemma hexEncode_lacks bs c :
  Forall (λ b, 0 ≤ b < 256) bs → isHexDigit c = false → lacks c (hexEncode bs) = true.
Proof.
  intros Hbs Hc. induction Hbs as [|b bs Hb _ IH]; [done|]. simpl. rewrite IH.
  assert (∀ d, 0 ≤ d < 16 → bool_decide (hexDigit d = c) = false) as Hd.
  { intros d Hd. apply bool_decide_eq_false. intros <-. by rewrite hexDigit_hex in Hc. }
  pose proof (Z.mod_pos_bound b 16 ltac:(lia)).
  rewrite !Hd; [done|lia|]. split; [apply Z.div_pos; lia|apply Z.div_lt_upper_bound; lia].
Qed.
Lemma lacks_contains c sub s : lacks c s = true → lacks c sub = false → contains sub s = false.
Proof.
  intros Hs Hsub. destruct (contains sub s) eqn:E; [|done].
  apply contains_spec in E as (a&b&->). rewrite !lacks_app, Hsub in Hs.
  by rewrite andb_false_r in Hs.
Qed.
Lemma contains_char c s : contains (String c "") s = false → lacks c s = true.
Proof.
  induction s as [|c' s IH]; simpl; [done|]. rewrite orb_false_iff. intros [Hp Hc].
  rewrite IH by done. rewrite andb_true_r, negb_true_iff. apply bool_decide_eq_false. intros ->.
  unfold hasPrefix in Hp. simpl in Hp. rewrite decide_True in Hp by done. by simpl in Hp.
Qed.

(** ** Searching and replacing in parts *)
Lemma hasPrefix_nil_r sub : sub ≠ "" → hasPrefix sub "" = false.
Proof. destruct sub; [done|]. intros _. by apply bool_decide_eq_false_2; intros []. Qed.
Lemma hasPrefix_cons c sub d s :
  hasPrefix (String c sub) (String d s) = bool_decide (c = d) && hasPrefix sub s.
Proof.
  unfold hasPrefix. simpl. case_decide as Hc.
  - by rewrite (bool_decide_eq_true_2 _ Hc).
  - by rewrite (bool_decide_eq_false_2 _ Hc).
Qed.
(** No match begins in a part without the first byte of the pattern. *)
Lemma contains_skip c sub w s :
  lacks c w = true → contains (String c sub) (w +:+ s) = contains (String c sub) s.
Proof.
  induction w as [|d w IH]; simpl; [done|].
  rewrite andb_true_iff, negb_true_iff, bool_decide_eq_false. intros [Hd Hw].
  rewrite hasPrefix_cons, bool_decide_eq_false_2 by congruence. by apply IH.
Qed.
(** A pattern without the byte [c] does not match across it. *)
Lemma hasPrefix_sep c sub a b :
  lacks c sub = true → hasPrefix sub (a +:+ String c b) = hasPrefix sub a.
Proof.
  revert a. induction sub as [|d sub IH]; intros a; simpl; [by destruct a|].
  rewrite andb_true_iff, negb_true_iff, bool_decide_eq_false. intros [Hd Hs].
  destruct a as [|e a]; [change ("" +:+ String c b) with (String c b)|rewrite string_app_cons];
    rewrite !hasPrefix_cons.
  - by rewrite bool_decide_eq_false_2.
  - by rewrite IH.
Qed.
Lemma contains_sep c sub a b :
  sub ≠ "" → lacks c sub = true →
  contains sub (a +:+ String c b) = contains sub a || contains sub b.
Proof.
  intros Hne Hc. induction a as [|d a IH]; simpl.
  - rewrite (hasPrefix_sep c sub "" b Hc : hasPrefix sub (String c b) = _).
    by rewrite hasPrefix_nil_r.
  - rewrite (hasPrefix_sep c sub (String d a) b Hc : hasPrefix sub (String d (a +:+ String c b)) = _).
    by rewrite IH, orb_assoc.
Qed.

(** A replacer leaves a string alone in which none of its patterns occurs. *)
Definition untouched (pairs : list (string * string)) (s : string) : Prop :=
  Forall (λ p, contains p.1 s = false) pairs.
Lemma find_pair_untouched pairs s : untouched pairs s → find_pair pairs s = None.
Proof.
  induction 1 as [|[old new] pairs Hp _ IH]; [done|]. simpl in *.
  assert (hasPrefix old s = false) as ->; [|done].
  destruct s; simpl in Hp; by apply orb_false_iff in Hp as [? _].
Qed.
Lemma replacer_untouched pairs s : untouched pairs s → replacer pairs 0 s = s.
Proof.
  induction s as [|c s IH]; intros Hu; [done|]. cbn [replacer].
  rewrite find_pair_untouched by done. f_equal. apply IH.
  refine (Forall_impl _ _ Hu). intros p Hp. simpl in Hp. by apply orb_false_iff in Hp as [_ ?].
Qed.
(** A match at the front is replaced, and the rest is worked on by itself. *)
Lemma replacer_skip pairs old s :
  replacer pairs (String.length old) (old +:+ s) = replacer pairs 0 s.
Proof. induction old as [|c old IH]; simpl; [done|exact IH]. Qed.
Lemma replacer_match pairs old new s :
  old ≠ "" → find_pair pairs (old +:+ s) = Some (old, new) →
  replacer pairs 0 (old +:+ s) = new +:+ replacer pairs 0 s.
Proof.
  destruct old as [|c old]; [done|]. intros _ Hf.
  change (String c old +:+ s) with (String c (old +:+ s)) in *. cbn [replacer]. rewrite Hf.
  change (String.length (String c old) - 1)%nat with (String.length old - 0)%nat.
  by rewrite Nat.sub_0_r, replacer_skip.
Qed.
(** Text without matches before a byte [c] that only begins patterns passes through. *)
Lemma replacer_pass pairs c a b :
  lacks c a = true →
  Forall (λ p, contains p.1 a = false ∧
               (lacks c p.1 = true ∨ ∃ old, p.1 = String c old)) pairs →
  replacer pairs 0 (a +:+ String c b) = a +:+ replacer pairs 0 (String c b).
Proof.
  induction a as [|d a IH]; intros Hc Hw; [done|].
  rewrite !string_app_cons. cbn [replacer].
  simpl in Hc. apply andb_true_iff in Hc as [Hd Hc].
  apply negb_true_iff, bool_decide_eq_false in Hd.
  assert (find_pair pairs (String d (a +:+ String c b)) = None) as ->.
  { clear IH. induction Hw as [|[old new] pairs [Hn Ho] _ IH]; [done|]. cbn [find_pair fst] in *.
    assert (hasPrefix old (String d (a +:+ String c b)) = false) as ->; [|exact IH].
    destruct Ho as [Ho|[o ->]].
    - rewrite (hasPrefix_sep c old (String d a) b Ho : hasPrefix old (String d (a +:+ String c b)) = _).
      simpl in Hn. by apply orb_false_iff in Hn as [? _].
    - by rewrite hasPrefix_cons, bool_decide_eq_false_2. }
  f_equal. apply IH; [done|]. refine (Forall_impl _ _ Hw).
  intros p [Hn Ho]. split; [|done]. simpl in Hn. by apply orb_false_iff in Hn as [_ ?].
Qed.

(** ** Package binary *)
Definition isByte (b : Z) : Prop := 0 ≤ b < 256.
(** The [n] little-endian bytes of a number, and the number of such bytes. *)
Fixpoint le_bytes (n : nat) (z : Z) : list Z :=
  match n with
  | O => []
  | S n' => z `mod` 256 :: le_bytes n' (z `div` 256)
  end.
Fixpoint le_value (bs : list Z) : Z :=
  match bs with
  | [] => 0
  | b :: bs' => b + 256 * le_value bs'
  end.
Lemma le_bytes_value n z : 0 ≤ z < 256 ^ Z.of_nat n → le_value (le_bytes n z) = z.
Proof.
  revert z. induction n as [|n IH]; intros z Hz; simpl in *; [lia|].
  rewrite IH; [rewrite (Z.div_mod z 256) at 3; lia|].
  rewrite Nat2Z.inj_succ, Z.pow_succ_r in Hz by lia.
  split; [apply Z.div_pos; lia|apply Z.div_lt_upper_bound; lia].
Qed.
Lemma le_bytes_length n z : length (le_bytes n z) = n.
Proof. revert z. induction n as [|n IH]; intros z; simpl; [done|]. by rewrite IH. Qed.
Lemma le_value_range bs : Forall isByte bs → 0 ≤ le_value bs < 256 ^ Z.of_nat (length bs).
Proof.
  unfold isByte. induction 1 as [|b bs Hb _ IH]; simpl; [lia|].
  rewrite Nat2Z.inj_succ, Z.pow_succ_r by lia. lia.
Qed.
