(* ===== verification/GoStrconv.v ===== *)
(** * strconv.ParseUint of the Go standard library

    [strconv.ParseUint(s, 0, 64)]: the base is taken from the prefix, underscores
    may separate digits, and the value is kept below 2^64.  The overflow tests are
    those of the library, on wrapped 64-bit values; [parseUint_decimal] relates
    them to the number a decimal numeral denotes. *)
From stdpp Require Import base strings list numbers.
From S2P Require Import Prelude GoStrings.
Local Open Scope Z_scope.

Inductive numError := ErrSyntax | ErrRange.
Definition maxUint64 : Z := 2 ^ 64 - 1.
(** [lower(c)] of package strconv. *)
Definition lower (c : Z) : Z := Z.lor c 32.

(** The value of a digit, whatever the base. *)
Definition digit (c : Z) : option Z :=
  if decide (48 ≤ c ≤ 57) then Some (c - 48)
  else if decide (97 ≤ lower c ≤ 122) then Some (lower c - 97 + 10)
  else None.

(** The loop over the digits; the flag tells whether an underscore was seen. *)
Fixpoint parseDigits (base : Z) (l : list Z) (n : Z) (underscores : bool) :
    (Z * bool) + numError :=
  match l with
  | [] => inl (n, underscores)
  | c :: l' =>
      if decide (c = 95) then parseDigits base l' n true
      else
        match digit c with
        | None => inr ErrSyntax
        | Some d =>
            if decide (base ≤ d) then inr ErrSyntax
            else if decide (maxUint64 `div` base + 1 ≤ n) then inr ErrRange
            else
              let n := u64 (n * base) in
              let n1 := u64 (n + d) in
              if decide (n1 < n ∨ n1 > maxUint64) then inr ErrRange
              else parseDigits base l' n1 underscores
        end
  end.

(** [underscoreOK]: underscores separate digits only; [saw] is the last kind of
    character ('0' a digit or a base prefix, '_' an underscore, '!' another). *)
Inductive saw := SawStart | SawDigit | SawUnderscore | SawOther.
Fixpoint underscoreScan (hex : bool) (i : saw) (l : list Z) : bool :=
  match l with
  | [] => match i with SawUnderscore => false | _ => true end
  | c :: l' =>
      if bool_decide (48 ≤ c ≤ 57) || (hex && bool_decide (97 ≤ lower c ≤ 102))
      then underscoreScan hex SawDigit l'
      else if decide (c = 95) then
        match i with SawDigit => underscoreScan hex SawUnderscore l' | _ => false end
      else match i with SawUnderscore => false | _ => underscoreScan hex SawOther l' end
  end.
Definition underscoreOK (l : list Z) : bool :=
  let l := match l with c :: l' => if decide (c = 45 ∨ c = 43) then l' else l | [] => l end in
  match l with
  | 48 :: c :: l' =>
      if decide (lower c = 98 ∨ lower c = 111 ∨ lower c = 120)
      then underscoreScan (bool_decide (lower c = 120)) SawDigit l'
      else underscoreScan false SawStart l
  | _ => underscoreScan false SawStart l
  end.

(** The base and the digits of a numeral: 0b, 0o, 0x, a leading 0, or decimal. *)
Definition basePrefix (l : list Z) : Z * list Z :=
  match l with
  | 48 :: l' =>
      match l' with
      | c :: ((_ :: _) as l'') =>
          if decide (lower c = 98) then (2, l'')
          else if decide (lower c = 111) then (8, l'')
          else if decide (lower c = 120) then (16, l'')
          else (8, l')
      | _ => (8, l')
      end
  | _ => (10, l)
  end.

(** [strconv.ParseUint(s, 0, 64)] *)
Definition parseUint (s : string) : Z + numError :=
  match to_bytes s with
  | [] => inr ErrSyntax
  | l =>
      let '(base, ds) := basePrefix l in
      match parseDigits base ds 0 false with
      | inr e => inr e
      | inl (n, underscores) =>
          if underscores && negb (underscoreOK l) then inr ErrSyntax else inl n
      end
  end.

(** ** Reference: the number a decimal numeral denotes *)
Definition isDigit (c : Z) : Prop := 48 ≤ c ≤ 57.
Definition decimal (l : list Z) : Z := foldl (λ n c, n * 10 + (c - 48)) 0 l.

Lemma decimal_from_le l n : Forall isDigit l → 0 ≤ n →
  n ≤ foldl (λ n c, n * 10 + (c - 48)) n l.
Proof.
  intros Hl. revert n. induction Hl as [|c l Hc Hl IH]; intros n Hn; simpl; [lia|].
  unfold isDigit in Hc. etrans; [|apply IH; lia]. lia.
Qed.

Lemma parseDigits_decimal l n u :
  Forall isDigit l → 0 ≤ n ≤ maxUint64 →
  parseDigits 10 l n u =
    let v := foldl (λ n c, n * 10 + (c - 48)) n l in
    if decide (v ≤ maxUint64) then inl (v, u) else inr ErrRange.
Proof.
  intros Hl. revert n. induction Hl as [|c l Hc Hl IH]; intros n Hn; simpl.
  { by rewrite decide_True by lia. }
  unfold isDigit in Hc. rewrite decide_False by lia.
  unfold digit. rewrite decide_True by lia. rewrite decide_False by lia.
  change (maxUint64 `div` 10) with 1844674407370955161.
  pose proof (decimal_from_le l (n * 10 + (c - 48)) Hl ltac:(lia)) as Hv.
  set (v := foldl _ _ l) in *. unfold maxUint64 in *. change (2 ^ 64) with 18446744073709551616 in *.
  case_decide as Hcut.
  { by rewrite decide_False by lia. }
  rewrite (wrapU_id 64 (n * 10)) by (unfold inU; lia).
  destruct (decide (n * 10 + (c - 48) < 18446744073709551616)) as [Hfit|Hfit].
  - rewrite !wrapU_id by (unfold inU; lia). rewrite decide_False by lia.
    by rewrite IH by lia.
  - unfold wrapU. rewrite <- (Z.mod_unique_pos (n * 10 + (c - 48)) _ 1
      (n * 10 + (c - 48) - 18446744073709551616)) by lia.
    rewrite decide_True by lia. by rewrite decide_False by lia.
Qed.

Lemma parseUint_decimal s c l :
  to_bytes s = c :: l → c ≠ 48 → Forall isDigit (c :: l) →
  parseUint s = if decide (decimal (c :: l) < 2 ^ 64) then inl (decimal (c :: l)) else inr ErrRange.
Proof.
  intros Hs Hc Hl. unfold parseUint. rewrite Hs.
  assert (basePrefix (c :: l) = (10, c :: l)) as ->.
  { inversion Hl as [|? ? Hd _]; subst. unfold isDigit in Hd.
    assert (c ∈ seqZ 49 9) as Hin by (apply elem_of_seqZ; lia).
    repeat (apply elem_of_cons in Hin as [->|Hin]; [done|]). by apply elem_of_nil in Hin. }
  rewrite parseDigits_decimal by (done || (unfold maxUint64; lia)). fold (decimal (c :: l)).
  cbv zeta. unfold maxUint64.
  destruct (decide (decimal (c :: l) < 2 ^ 64)).
  - by rewrite decide_True by lia.
  - by rewrite decide_False by lia.
Qed.

Lemma parseDigits_bound base l n u n' u' :
  2 ≤ base → 0 ≤ n < 2 ^ 64 → parseDigits base l n u = inl (n', u') → 0 ≤ n' < 2 ^ 64.
Proof.
  intros Hb. revert n u. induction l as [|c l IH]; intros n u Hn; simpl; [by intros [= <- _]|].
  case_decide; [by apply IH|]. destruct (digit c); [|done].
  repeat (case_decide; [done|]). apply IH. apply wrapU_in. lia.
Qed.

Lemma parseUint_bound s n : parseUint s = inl n → 0 ≤ n < 2 ^ 64.
Proof.
  unfold parseUint. destruct (to_bytes s) as [|c l]; [done|].
  destruct (basePrefix _) as [base ds] eqn:Hb.
  destruct (parseDigits _ _ _ _) as [[n' u]|] eqn:Hp; [|done].
  destruct (u && _); intros [= <-].
  eapply (parseDigits_bound base); [|split; [reflexivity|done]|exact Hp].
  unfold basePrefix in Hb. repeat (case_match; simplify_eq); lia.
Qed.

Example parseUint_hex : parseUint "0x1F" = inl 31. Proof. reflexivity. Qed.
Example parseUint_oct : parseUint "017" = inl 15. Proof. reflexivity. Qed.
Example parseUint_und : parseUint "1_000" = inl 1000. Proof. reflexivity. Qed.
Example parseUint_bad : parseUint "1__0" = inr ErrSyntax. Proof. reflexivity. Qed.
Example parseUint_max : parseUint "18446744073709551615" = inl maxUint64. Proof. reflexivity. Qed.
Example parseUint_over : parseUint "18446744073709551616" = inr ErrRange. Proof. reflexivity. Qed.
