(* ===== verification/Float64.v ===== *)
(** * Go's float64

    IEEE 754 binary64 as the standard library's [SpecFloat] computes it (53 bits
    of precision, exponents up to 1024, round to nearest even), and the
    conversion of a [time.Duration] to seconds. *)
From Stdlib Require Import ZArith SpecFloat.
From stdpp Require Import base numbers.
Local Open Scope Z_scope.

Abbreviation f64 := spec_float.
Definition fadd : f64 → f64 → f64 := SFadd 53 1024.
Definition fsub : f64 → f64 → f64 := SFsub 53 1024.
Definition fmul : f64 → f64 → f64 := SFmul 53 1024.
Definition fdiv : f64 → f64 → f64 := SFdiv 53 1024.
(** [m * 2^e], rounded; [float64(z)] is [flit z 0]. *)
Definition flit (m e : Z) : f64 := binary_normalize 53 1024 m e false.
Definition of_int (z : Z) : f64 := flit z 0.
(** The infinities. *)
Definition fInf (negative : bool) : f64 := S754_infinity negative.
(** [int64(a)]: truncation; what does not fit gives the least value on amd64. *)
Definition to_int64 (a : f64) : Z :=
  match a with
  | S754_zero _ => 0
  | S754_finite s m e =>
      let z := Z.shiftl (Z.pos m) e in
      let z := if s then - z else z in
      if decide (- 2 ^ 63 ≤ z < 2 ^ 63) then z else - 2 ^ 63
  | _ => - 2 ^ 63
  end.
(** Comparisons; all of them are false on a NaN. *)
Definition fltb (a b : f64) : bool := SFltb a b.
Definition fleb (a b : f64) : bool := SFleb a b.
Definition feqb (a b : f64) : bool := SFeqb a b.
Definition fgtb (a b : f64) : bool := SFltb b a.
Definition fgeb (a b : f64) : bool := SFleb b a.

(** Durations are nanoseconds in 64 bits. *)
Definition Second : Z := 1000000000.
Definition Minute : Z := 60 * Second.
Definition Hour : Z := 60 * Minute.

(** [Duration.Seconds] and [Duration.Hours]: whole and fractional part apart. *)
Definition seconds (d : Z) : f64 :=
  fadd (of_int (Z.quot d Second)) (fdiv (of_int (Z.rem d Second)) (of_int Second)).
Definition hours (d : Z) : f64 :=
  fadd (of_int (Z.quot d Hour)) (fdiv (of_int (Z.rem d Hour)) (of_int Hour)).

(** [Time.Sub] on instants in nanoseconds saturates; [Time.Since] is [Sub] of now. *)
Definition timeSub (t u : Z) : Z := Z.max (- 2 ^ 63) (Z.min (2 ^ 63 - 1) (t - u)).

Example seconds_quarter : seconds 250000000 = flit 1 (-2).
Proof. vm_compute. reflexivity. Qed.
Example hours_one : hours Hour = of_int 1.
Proof. vm_compute. reflexivity. Qed.

(** ** Order

    Without NaN, the comparisons of two numbers agree when they are swapped. *)
Definition isNaN (a : f64) : bool := match a with S754_nan => true | _ => false end.
Lemma compare_swap a b : SFcompare b a = CompOpp <$> SFcompare a b.
Proof.
  destruct a as [s|s| |s m e], b as [s'|s'| |s' m' e']; try destruct s; try destruct s'; try done;
    cbn; rewrite (Z.compare_antisym e e');
    destruct (e ?= e') eqn:He; try done; cbn; rewrite (Pos.compare_cont_antisym m m' Eq); try done;
    by rewrite CompOpp_involutive.
Qed.
Lemma compare_Some a b : isNaN a = false → isNaN b = false → ∃ c, SFcompare a b = Some c.
Proof.
  destruct a as [s|s| |s m e], b as [s'|s'| |s' m' e']; try done; intros _ _;
    try destruct s; try destruct s'; cbn; try destruct (e ?= e'); eauto.
Qed.
Lemma fleb_total a b : isNaN a = false → isNaN b = false → fleb a b = false → fltb b a = true.
Proof.
  intros Ha Hb. unfold fleb, fltb, SFleb, SFltb. rewrite (compare_swap a b).
  destruct (compare_Some a b Ha Hb) as [c ->]. by destruct c.
Qed.
Lemma fltb_fleb a b : fltb a b = true → fleb a b = true.
Proof. unfold fltb, fleb, SFltb, SFleb. by destruct (SFcompare a b) as [[]|]. Qed.
Lemma fltb_not_fleb a b : fltb a b = true → fleb b a = false.
Proof.
  unfold fltb, fleb, SFltb, SFleb. rewrite (compare_swap a b).
  by destruct (SFcompare a b) as [[]|].
Qed.
Lemma fleb_inf a : isNaN a = false → fleb a (fInf false) = true.
Proof. by destruct a as [|[]| |[]]. Qed.
(** The order is transitive: sign, exponent and mantissa are compared in turn. *)
Lemma fltb_fleb_trans a b c : fltb a b = true → fleb b c = true → fltb a c = true.
Proof.
  unfold fltb, fleb, SFltb, SFleb.
  destruct a as [s|s| |s m e], b as [s'|s'| |s' m' e'], c as [s2|s2| |s2 m2 e2];
    try destruct s; try destruct s'; try destruct s2; try done; cbn;
    repeat match goal with |- context [Pos.compare_cont Eq ?x ?y] =>
             change (Pos.compare_cont Eq x y) with (x ?= y)%positive end;
    repeat match goal with
           | |- context [Z.compare ?x ?y] => destruct (Z.compare_spec x y)
           | |- context [Pos.compare ?x ?y] => destruct (Pos.compare_spec x y)
           end; subst; cbn; try done; intros; exfalso; lia.
Qed.
