(* ===== verification/GoTime.v ===== *)
(** * Dates and durations of package time

    The calendar of [time.Time] in UTC with [Format] and [Parse] for the layout
    [UnixDate] ("Mon Jan _2 15:04:05 MST 2006"), and [Duration.String] with
    [ParseDuration].  Instants are nanoseconds since the Unix epoch.  [Parse] is modelled
    for the spelling of the layout; the local time zone is taken to be UTC.  The main
    results are the two round trips. *)
From Stdlib Require Import Ascii.
From stdpp Require Import base strings numbers list sets.
From S2P Require Import Prelude GoStrings Float64.
Local Open Scope Z_scope.

(** ** Digits *)
Definition digitChar (d : Z) : ascii := chr (48 + d).
Definition digitVal (c : ascii) : option Z :=
  let z := byteZ c in if decide (48 ≤ z ≤ 57) then Some (z - 48) else None.
Lemma digit_cases (P : Z → Prop) :
  P 0 → P 1 → P 2 → P 3 → P 4 → P 5 → P 6 → P 7 → P 8 → P 9 → ∀ d, 0 ≤ d < 10 → P d.
Proof.
  intros ?????????? d Hd. assert (d ∈ seqZ 0 10) as Hin by (apply elem_of_seqZ; lia).
  repeat (apply elem_of_cons in Hin as [->|Hin]; [done|]). by apply elem_of_nil in Hin.
Qed.
Lemma digitVal_char d : 0 ≤ d < 10 → digitVal (digitChar d) = Some d.
Proof. revert d. apply digit_cases; reflexivity. Qed.

(** [fmtInt]: a number in decimal; twenty digits are enough for 64 bits. *)
Fixpoint decimalFuel (n : nat) (v : Z) : string :=
  match n with
  | O => String (digitChar (v `mod` 10)) ""
  | S n' =>
      if decide (v < 10) then String (digitChar v) ""
      else decimalFuel n' (v `div` 10) +:+ String (digitChar (v `mod` 10)) ""
  end.
Definition fmtInt (v : Z) : string := decimalFuel 20 v.
(** [strconv.Itoa] *)
Definition itoa (z : Z) : string := if decide (z < 0) then "-" +:+ fmtInt (- z) else fmtInt z.

(** ** Durations *)
Definition Microsecond : Z := 1000.
Definition Millisecond : Z := 1000000.
Definition mu : string := String (chr 194) (String (chr 181) "").

(** [fmtFrac]: the last [prec] digits as a fraction without trailing zeros, and the rest
    of the number. *)
Fixpoint fmtFrac (prec : nat) (v : Z) (acc : string) : string * Z :=
  match prec with
  | O => (if decide (acc = "") then "" else String dot acc, v)
  | S prec' =>
      let digit := v `mod` 10 in
      fmtFrac prec' (v `div` 10)
        (if decide (acc = "" ∧ digit = 0) then "" else String (digitChar digit) acc)
  end.
Definition formatMagnitude (u : Z) : string :=
  if decide (u < Second) then
    if decide (u = 0) then "0s"
    else
      let '(prec, unit) := if decide (u < Microsecond) then (0%nat, "ns")
                           else if decide (u < Millisecond) then (3%nat, mu +:+ "s")
                           else (6%nat, "ms") in
      let '(frac, v) := fmtFrac prec u "" in
      fmtInt v +:+ frac +:+ unit
  else
    let '(frac, v) := fmtFrac 9 u "" in
    let s := fmtInt (v `mod` 60) +:+ frac +:+ "s" in
    let v := v `div` 60 in
    if decide (0 < v) then
      let m := fmtInt (v `mod` 60) +:+ "m" in
      let v := v `div` 60 in
      if decide (0 < v) then fmtInt v +:+ "h" +:+ m +:+ s else m +:+ s
    else s.
(** [Duration.String] *)
Definition formatDuration (d : Z) : string :=
  if decide (d < 0) then String "-" (formatMagnitude (- d)) else formatMagnitude d.

(** [leadingInt]: [None] on an overflow. *)
Fixpoint leadingInt (x : Z) (s : string) : option (Z * string) :=
  match s with
  | EmptyString => Some (x, s)
  | String c s' =>
      match digitVal c with
      | None => Some (x, s)
      | Some d =>
          if decide (2 ^ 63 `div` 10 < x) then None
          else if decide (2 ^ 63 < x * 10 + d) then None
          else leadingInt (x * 10 + d) s'
      end
  end.
(** [leadingFraction]: the digits that fit, the power of ten, the rest. *)
Fixpoint leadingFraction (x : Z) (scale : f64) (overflow : bool) (s : string) : Z * f64 * string :=
  match s with
  | EmptyString => (x, scale, s)
  | String c s' =>
      match digitVal c with
      | None => (x, scale, s)
      | Some d =>
          if overflow || bool_decide ((2 ^ 63 - 1) `div` 10 < x) || bool_decide (2 ^ 63 < x * 10 + d)
          then leadingFraction x scale true s'
          else leadingFraction (x * 10 + d) (fmul scale (of_int 10)) false s'
      end
  end.
Definition unitMap (u : string) : option Z :=
  if decide (u = "ns") then Some 1
  else if decide (u = "us" ∨ u = mu +:+ "s" ∨ u = String (chr 206) (String (chr 188) "s"))
  then Some Microsecond
  else if decide (u = "ms") then Some Millisecond
  else if decide (u = "s") then Some Second
  else if decide (u = "m") then Some Minute
  else if decide (u = "h") then Some Hour
  else None.
(** The bytes up to a point or a digit. *)
Fixpoint spanUnit (s : string) : string * string :=
  match s with
  | EmptyString => ("", "")
  | String c s' =>
      if decide (c = dot ∨ digitVal c ≠ None) then ("", s)
      else let '(u, r) := spanUnit s' in (String c u, r)
  end.
(** One round of the loop: the value of a number with its unit, and the rest. *)
Definition parsePart (s : string) : option (Z * string) :=
  match s with
  | EmptyString => None
  | String c _ =>
      if decide (c ≠ dot ∧ digitVal c = None) then None
      else
        '(v, s1) ← leadingInt 0 s;
        let pre := negb (bool_decide (String.length s = String.length s1)) in
        let '(f, scale, s2, post) :=
          match s1 with
          | String c1 s1' =>
              if decide (c1 = dot) then
                let '(f, scale, s2) := leadingFraction 0 (of_int 1) false s1' in
                (f, scale, s2, negb (bool_decide (String.length s1' = String.length s2)))
              else (0, of_int 1, s1, false)
          | EmptyString => (0, of_int 1, s1, false)
          end in
        if negb pre && negb post then None
        else
          let '(u, s3) := spanUnit s2 in
          if decide (u = "") then None
          else
            unit ← unitMap u;
            if decide (2 ^ 63 `div` unit < v) then None
            else
              let v := v * unit in
              let v := if decide (0 < f)
                       then v + to_int64 (fmul (of_int f) (fdiv (of_int unit) scale)) else v in
              if decide (2 ^ 63 < v) then None else Some (v, s3)
  end.
Fixpoint parseParts (fuel : nat) (s : string) (d : Z) : option Z :=
  match s with
  | EmptyString => Some d
  | _ =>
      match fuel with
      | O => None
      | S fuel' =>
          '(v, s') ← parsePart s;
          if decide (2 ^ 63 < d + v) then None else parseParts fuel' s' (d + v)
      end
  end.
(** [ParseDuration]; every round takes at least one byte. *)
Definition parseDuration (s : string) : option Z :=
  let '(neg, s) := match s with
                   | String c s' => if decide (c = "-"%char) then (true, s')
                                    else if decide (c = "+"%char) then (false, s') else (false, s)
                   | EmptyString => (false, s)
                   end in
  if decide (s = "0") then Some 0
  else if decide (s = "") then None
  else
    d ← parseParts (2 + String.length s) s 0;
    if (neg : bool) then Some (- d)
    else if decide (2 ^ 63 - 1 < d) then None else Some d.

Example duration_hms : formatDuration (Hour + 2 * Minute + 3500 * Millisecond) = "1h2m3.5s".
Proof. vm_compute. reflexivity. Qed.
Example duration_ms : formatDuration (-1500 * Microsecond) = "-1.5ms".
Proof. vm_compute. reflexivity. Qed.
Example parse_fraction : parseDuration "1h2m3.5s" = Some (Hour + 2 * Minute + 3500 * Millisecond).
Proof. vm_compute. reflexivity. Qed.
Example parse_bad : parseDuration "5" = None ∧ parseDuration "m" = None ∧ parseDuration "1x" = None.
Proof. vm_compute. done. Qed.

(** ** Durations are read back *)
(** The text does not begin with a digit or a point. *)
Definition unitFront (s : string) : Prop :=
  match s with EmptyString => False | String c _ => c ≠ dot ∧ digitVal c = None end.
(** The text is empty or begins with a digit. *)
Definition digitFront (s : string) : Prop :=
  match s with EmptyString => True | String c _ => ∃ d, digitVal c = Some d end.

Lemma leadingInt_digit x d s :
  0 ≤ d < 10 → 0 ≤ x → x * 10 + d ≤ 2 ^ 63 →
  leadingInt x (String (digitChar d) s) = leadingInt (x * 10 + d) s.
Proof.
  intros Hd Hx Hfit. cbn [leadingInt]. rewrite digitVal_char by done.
  rewrite decide_False by (change (2 ^ 63 `div` 10) with 922337203685477580; lia).
  by rewrite decide_False by lia.
Qed.
Lemma leadingInt_decimal n v s :
  0 ≤ v ≤ 2 ^ 63 → v < 10 ^ (Z.of_nat n + 1) →
  leadingInt 0 (decimalFuel n v +:+ s) = leadingInt v s.
Proof.
  revert v s. induction n as [|n IH]; intros v s Hv Hn.
  - change (10 ^ (Z.of_nat 0 + 1)) with 10 in Hn. cbn [decimalFuel].
    rewrite Z.mod_small by lia. rewrite string_app_cons, leadingInt_digit by lia. done.
  - cbn [decimalFuel]. case_decide as Hs.
    + rewrite string_app_cons, leadingInt_digit by lia. done.
    + pose proof (Z.mod_pos_bound v 10 ltac:(lia)). pose proof (Z.div_mod v 10 ltac:(lia)).
      rewrite string_app_assoc, IH.
      * rewrite string_app_cons. change ("" +:+ s) with s. rewrite leadingInt_digit by lia.
        f_equal. lia.
      * lia.
      * apply Z.div_lt_upper_bound; [lia|].
        replace (Z.of_nat (S n) + 1) with (Z.of_nat n + 1 + 1) in Hn by lia.
        rewrite Z.pow_add_r in Hn by lia. lia.
Qed.
Lemma decimalFuel_front n v :
  0 ≤ v → ∃ c s d, decimalFuel n v = String c s ∧ digitVal c = Some d.
Proof.
  revert v. induction n as [|n IH]; intros v Hv; cbn [decimalFuel].
  - eexists _, _, _. split; [done|]. apply digitVal_char. by apply Z.mod_pos_bound.
  - case_decide.
    + eexists _, _, _. split; [done|]. by apply digitVal_char.
    + destruct (IH (v `div` 10)) as (c&s&d&->&Hd); [apply Z.div_pos; lia|].
      rewrite string_app_cons. by eexists _, _, _.
Qed.
Lemma leadingInt_stop v s : unitFront s → leadingInt v s = Some (v, s).
Proof. destruct s as [|c s]; [done|]. intros [_ Hd]. cbn [leadingInt]. by rewrite Hd. Qed.
Lemma spanUnit_app u s :
  Forall (λ c, c ≠ dot ∧ digitVal c = None) (String.list_ascii_of_string u) → digitFront s →
  spanUnit (u +:+ s) = (u, s).
Proof.
  induction u as [|c u IH]; intros Hu Hs.
  - destruct s as [|c s]; [done|]. destruct Hs as [d Hd].
    change (spanUnit (String c s) = ("", String c s)). cbn [spanUnit].
    rewrite decide_True by (right; by rewrite Hd). done.
  - cbn [String.list_ascii_of_string] in Hu. apply Forall_cons in Hu as [[Hc Hd] Hu].
    rewrite string_app_cons. cbn [spanUnit]. rewrite decide_False by (intros [?|?]; done).
    by rewrite IH.
Qed.

(** A number with a unit is read as one part. *)
Lemma parsePart_int v u unit s :
  0 ≤ v → v * unit ≤ 2 ^ 63 - 1 → 0 < unit → unitMap u = Some unit → u ≠ "" →
  Forall (λ c, c ≠ dot ∧ digitVal c = None) (String.list_ascii_of_string u) → digitFront s →
  parsePart (fmtInt v +:+ u +:+ s) = Some (v * unit, s).
Proof.
  intros Hv Hfit Hpos Hu Hne Hall Hs.
  assert (unitFront (u +:+ s)) as Huf.
  { destruct u as [|c u]; [done|]. by apply Forall_cons in Hall as [? _]. }
  assert (leadingInt 0 (fmtInt v +:+ u +:+ s) = Some (v, u +:+ s)) as Hlead.
  { unfold fmtInt. rewrite leadingInt_decimal; [by apply leadingInt_stop|nia|].
    assert (2 ^ 63 < 10 ^ (Z.of_nat 20 + 1)) by (vm_compute; done). nia. }
  destruct (decimalFuel_front 20 v Hv) as (c&t&d&Hc&Hd). fold (fmtInt v) in Hc.
  rewrite Hc, string_app_cons in *. unfold parsePart.
  rewrite decide_False by (rewrite Hd; intros [_ ?]; done). rewrite Hlead. cbn [mbind option_bind].
  rewrite (bool_decide_eq_false_2 (String.length (String c (t +:+ u +:+ s)) = String.length (u +:+ s))).
  2: { rewrite <- string_app_cons, string_length_app. simpl. lia. }
  destruct (u +:+ s) as [|c1 s1] eqn:Hus; [done|]. rewrite decide_False by apply Huf.
  cbn [negb andb]. rewrite <- Hus, spanUnit_app by done. rewrite decide_False by done.
  rewrite Hu. cbn [mbind option_bind].
  rewrite decide_False by (apply Z.le_ngt, Z.div_le_lower_bound; lia).
  rewrite (decide_False (P:=0 < 0)) by lia. by rewrite decide_False by lia.
Qed.
Lemma parseParts_step fuel v u unit s d :
  0 ≤ v → 0 ≤ d → d + v * unit ≤ 2 ^ 63 - 1 → 0 < unit → unitMap u = Some unit → u ≠ "" →
  Forall (λ c, c ≠ dot ∧ digitVal c = None) (String.list_ascii_of_string u) → digitFront s →
  parseParts (S fuel) (fmtInt v +:+ u +:+ s) d = parseParts fuel s (d + v * unit).
Proof.
  intros Hv Hd Hfit Hpos Hu Hne Hall Hs.
  destruct (decimalFuel_front 20 v Hv) as (c&t&dv&Hc&_). fold (fmtInt v) in Hc.
  assert (parseParts (S fuel) (fmtInt v +:+ u +:+ s) d =
          '(v, s') ← parsePart (fmtInt v +:+ u +:+ s);
          if decide (2 ^ 63 < d + v) then None else parseParts fuel s' (d + v)) as ->.
  { by rewrite Hc. }
  rewrite (parsePart_int v u unit s) by (done || lia). cbn [mbind option_bind].
  by rewrite decide_False by lia.
Qed.

(** Whole seconds have no fraction. *)
Lemma fmtFrac_zeros n k : fmtFrac n (k * 10 ^ Z.of_nat n) "" = ("", k).
Proof.
  revert k. induction n as [|n IH]; intros k; cbn [fmtFrac].
  { by rewrite decide_True, Z.mul_1_r by done. }
  rewrite Nat2Z.inj_succ, Z.pow_succ_r by lia.
  replace (k * (10 * 10 ^ Z.of_nat n)) with (k * 10 ^ Z.of_nat n * 10) by lia.
  rewrite Z.mod_mul, Z.div_mul by lia. rewrite decide_True by done. apply IH.
Qed.
Lemma fmtInt_digitFront v s : 0 ≤ v → digitFront (fmtInt v +:+ s).
Proof.
  intros Hv. destruct (decimalFuel_front 20 v Hv) as (c&t&d&Hc&Hd). unfold fmtInt. rewrite Hc.
  by exists d.
Qed.
Lemma fmtInt_length v : 0 ≤ v → (1 ≤ String.length (fmtInt v))%nat.
Proof.
  intros Hv. destruct (decimalFuel_front 20 v Hv) as (c&t&d&Hc&_). unfold fmtInt. rewrite Hc. simpl. lia.
Qed.
Lemma unit_s : unitMap "s" = Some Second ∧ unitMap "m" = Some Minute ∧ unitMap "h" = Some Hour.
Proof. done. Qed.
Lemma unit_chars u :
  u ∈ ["s"; "m"; "h"] →
  Forall (λ c, c ≠ dot ∧ digitVal c = None) (String.list_ascii_of_string u).
Proof.
  intros Hu. repeat (apply elem_of_cons in Hu as [->|Hu]; [by repeat constructor|]).
  by apply elem_of_nil in Hu.
Qed.
(** Reading the hours, minutes or seconds at the front. *)
Lemma parseParts_unit fuel v u unit s d :
  (u, unit) ∈ [("s", Second); ("m", Minute); ("h", Hour)] →
  0 ≤ v → 0 ≤ d → d + v * unit ≤ 2 ^ 63 - 1 → digitFront s →
  parseParts (S fuel) (fmtInt v +:+ u +:+ s) d = parseParts fuel s (d + v * unit).
Proof.
  intros Hu Hv Hd Hfit Hs. rewrite !elem_of_cons, elem_of_nil in Hu.
  destruct Hu as [[= -> ->]|[[= -> ->]|[[= -> ->]|[]]]];
    (apply parseParts_step; [done..|apply unit_chars; set_solver|done]).
Qed.

(** Positive whole seconds. *)
Lemma parseParts_magnitude k fuel :
  0 < k → k * Second ≤ 2 ^ 63 - 1 → (3 ≤ fuel)%nat →
  parseParts fuel (formatMagnitude (k * Second)) 0 = Some (k * Second).
Proof.
  intros Hk Hfit Hfuel. unfold formatMagnitude. rewrite decide_False by (unfold Second; lia).
  rewrite (fmtFrac_zeros 9 k : fmtFrac 9 (k * Second) "" = _). cbv zeta.
  destruct fuel as [|[|[|fuel]]]; [lia..|].
  pose proof (Z.mod_pos_bound k 60 ltac:(lia)). pose proof (Z.div_mod k 60 ltac:(lia)).
  set (m := k `div` 60) in *. pose proof (Z.mod_pos_bound m 60 ltac:(lia)).
  pose proof (Z.div_mod m 60 ltac:(lia)). set (hh := m `div` 60) in *.
  change ("" +:+ "s") with ("s" +:+ ""). unfold Second, Minute, Hour in *.
  assert (∀ fuel d, 0 ≤ d → d + k `mod` 60 * Second ≤ 2 ^ 63 - 1 →
    parseParts (S fuel) (fmtInt (k `mod` 60) +:+ "s" +:+ "") d = Some (d + k `mod` 60 * Second)) as Hs.
  { intros f d Hd Hdfit. rewrite (parseParts_unit _ _ _ Second) by (done || set_solver || lia).
    by destruct f. }
  case_decide as Hm; [|rewrite Hs by (unfold Second; lia); f_equal; unfold Second; lia].
  assert (∀ fuel d, 0 ≤ d → d + m `mod` 60 * Minute + k `mod` 60 * Second ≤ 2 ^ 63 - 1 →
    parseParts (S (S fuel)) ((fmtInt (m `mod` 60) +:+ "m") +:+ fmtInt (k `mod` 60) +:+ "s" +:+ "") d
    = Some (d + m `mod` 60 * Minute + k `mod` 60 * Second)) as Hms.
  { intros f d Hd Hdfit. rewrite string_app_assoc.
    rewrite (parseParts_unit _ _ _ Minute)
      by (set_solver || (by apply fmtInt_digitFront; lia) || unfold Minute, Second in *; lia).
    apply Hs; unfold Minute, Second in *; lia. }
  case_decide as Hh; [|rewrite Hms by (unfold Minute, Second; lia); f_equal; unfold Minute, Second; lia].
  rewrite (parseParts_unit _ _ _ Hour).
  - rewrite Hms by (unfold Hour, Minute, Second; lia). f_equal. unfold Hour, Minute, Second. lia.
  - set_solver.
  - lia.
  - lia.
  - unfold Hour, Minute, Second. lia.
  - rewrite string_app_assoc. apply fmtInt_digitFront. lia.
Qed.

Lemma formatMagnitude_front k :
  0 ≤ k → ∃ c t d, formatMagnitude (k * Second) = String c t ∧ digitVal c = Some d.
Proof.
  intros Hk. unfold formatMagnitude. case_decide as Hs.
  { rewrite decide_True by (unfold Second in *; lia). by eexists _, _, 0. }
  rewrite (fmtFrac_zeros 9 k : fmtFrac 9 (k * Second) "" = _). cbv zeta.
  assert (∀ v s, 0 ≤ v → ∃ c t d, fmtInt v +:+ s = String c t ∧ digitVal c = Some d) as Hf.
  { intros v s Hv. destruct (decimalFuel_front 20 v Hv) as (c&t&d&Hc&Hd). unfold fmtInt.
    rewrite Hc, string_app_cons. by eexists _, _, _. }
  repeat case_decide; rewrite ?string_app_assoc; apply Hf;
    first [by apply Z.mod_pos_bound|lia].
Qed.
Lemma parseDuration_positive k :
  0 ≤ k → k * Second ≤ 2 ^ 63 - 1 →
  let s := formatMagnitude (k * Second) in
  s ≠ "" ∧ (s = "0" ∨ parseParts (2 + String.length s) s 0 = Some (k * Second)) ∧
  (s = "0" → k = 0).
Proof.
  intros Hk Hfit s. destruct (decide (k = 0)) as [->|Hne].
  { split_and!; [done|right|]; by vm_compute. }
  destruct (formatMagnitude_front k Hk) as (c&t&d&Hs&_).
  assert (∀ f, (3 ≤ f)%nat → parseParts f s 0 = Some (k * Second)) as Hp
    by (intros; apply parseParts_magnitude; lia).
  split_and!.
  - unfold s. by rewrite Hs.
  - right. apply Hp. unfold s. rewrite Hs. simpl. lia.
  - intros H0. specialize (Hp 3%nat ltac:(lia)). rewrite H0 in Hp. by vm_compute in Hp.
Qed.
(** A duration of whole seconds is read back as it was written. *)
Lemma parse_formatDuration d :
  inS 64 d → d `mod` Second = 0 → parseDuration (formatDuration d) = Some d.
Proof.
  intros Hd Hsec. unfold inS in Hd. change (2 ^ (64 - 1)) with (2 ^ 63) in Hd.
  assert (d = d `div` Second * Second) as Hk by (pose proof (Z.div_mod d Second ltac:(done)); lia).
  set (k := d `div` Second) in *. unfold formatDuration, parseDuration.
  case_decide as Hneg.
  - assert (- d = (- k) * Second) as Hm by lia. rewrite Hm.
    rewrite decide_True by done.
    destruct (parseDuration_positive (- k)) as (Hne&Hp&H0); [unfold Second in *; lia..|].
    case_decide as Hz; [specialize (H0 Hz); unfold Second in *; lia|].
    rewrite decide_False by done. destruct Hp as [Hp|Hp]; [done|]. rewrite Hp.
    cbn [mbind option_bind]. f_equal. lia.
  - rewrite Hk.
    destruct (formatMagnitude_front k) as (c&t&dg&Hs&Hdg); [unfold Second in *; lia|].
    destruct (parseDuration_positive k) as (Hne&Hp&H0); [unfold Second in *; lia..|].
    rewrite Hs in *.
    rewrite (decide_False (P:=c = "-"%char)) by (intros ->; discriminate).
    rewrite (decide_False (P:=c = "+"%char)) by (intros ->; discriminate).
    case_decide as Hz; [specialize (H0 Hz); rewrite H0; done|].
    rewrite decide_False by done. destruct Hp as [Hp|Hp]; [done|]. rewrite Hp.
    cbn [mbind option_bind]. by rewrite decide_False by lia.
Qed.

(** ** The bytes of a duration *)
Section plain_durations.
Context (c : ascii) (Hdigit : digitVal c = None).

Lemma digitChar_ne d : 0 ≤ d < 10 → bool_decide (digitChar d = c) = false.
Proof. intros Hd. apply bool_decide_eq_false. intros <-. by rewrite digitVal_char in Hdigit. Qed.
Lemma lacks_decimal n v : 0 ≤ v → lacks c (decimalFuel n v) = true.
Proof.
  revert v. induction n as [|n IH]; intros v Hv; cbn [decimalFuel].
  - cbn [lacks]. rewrite digitChar_ne by (apply Z.mod_pos_bound; lia). done.
  - case_decide.
    + cbn [lacks]. by rewrite digitChar_ne by lia.
    + rewrite lacks_app, IH by (apply Z.div_pos; lia). cbn [lacks].
      by rewrite digitChar_ne by (apply Z.mod_pos_bound; lia).
Qed.
Lemma lacks_frac n v acc :
  c ≠ dot → 0 ≤ v → lacks c acc = true →
  lacks c (fmtFrac n v acc).1 = true ∧ 0 ≤ (fmtFrac n v acc).2.
Proof.
  intros Hdot. revert v acc. induction n as [|n IH]; intros v acc Hv Hacc; cbn [fmtFrac].
  - case_decide; cbn [fst snd]; [done|]. cbn [lacks].
    by rewrite (bool_decide_eq_false_2 (dot = c)) by done.
  - apply IH; [apply Z.div_pos; lia|]. case_decide; [done|]. cbn [lacks].
    by rewrite digitChar_ne by (apply Z.mod_pos_bound; lia).
Qed.
Lemma lacks_duration d :
  c ≠ dot → Forall (λ u, lacks c u = true) ["-"; "0s"; "ns"; mu +:+ "s"; "ms"; "s"; "m"; "h"] →
  lacks c (formatDuration d) = true.
Proof.
  intros Hdot Hu. repeat rewrite Forall_cons in Hu. destruct Hu as (Hm&H0&Hns&Hus&Hms&Hs&Hmin&Hh&_).
  assert (∀ u, 0 ≤ u → lacks c (formatMagnitude u) = true) as Hmag.
  { intros u Hpos. unfold formatMagnitude.
    assert (∀ v, 0 ≤ v → lacks c (fmtInt v) = true) as Hint by (intros; by apply lacks_decimal).
    assert (∀ n, lacks c (fmtFrac n u "").1 = true ∧ 0 ≤ (fmtFrac n u "").2) as Hf
      by (intros; by apply lacks_frac).
    assert (∀ v, 0 ≤ v → 0 ≤ v `div` 60 ∧ 0 ≤ v `mod` 60) as Hdm
      by (intros v Hv; split; [apply Z.div_pos; lia|by apply Z.mod_pos_bound]).
    case_decide; [case_decide; [done|]|].
    - set (pu := if decide (u < Microsecond) then _ else _).
      assert (lacks c pu.2 = true) as Hpu by (unfold pu; repeat case_decide; done).
      destruct pu as [prec unit]. cbn [snd] in Hpu. destruct (Hf prec) as [Hfr Hv].
      destruct (fmtFrac prec u "") as [frac v]. cbn [fst snd] in *.
      by rewrite !lacks_app, Hint, Hfr, Hpu.
    - destruct (Hf 9%nat) as [Hfr Hv]. destruct (fmtFrac 9 u "") as [frac v]. cbn [fst snd] in *.
      destruct (Hdm v Hv) as [Hv1 Hv2]. destruct (Hdm _ Hv1) as [Hv3 Hv4].
      case_decide; [case_decide|]; rewrite !lacks_app, !Hint, Hfr, Hs, ?Hmin, ?Hh by done; done. }
  unfold formatDuration. case_decide; [|apply Hmag; lia].
  change (String "-" ?s) with ("-" +:+ s). rewrite lacks_app, Hm. apply Hmag. lia.
Qed.
End plain_durations.

(** ** The calendar

    [absDate] and [Date] of package time, counting days from January 1 of year 1. *)
Definition isLeap (year : Z) : bool :=
  bool_decide (year `mod` 4 = 0) &&
  (negb (bool_decide (year `mod` 100 = 0)) || bool_decide (year `mod` 400 = 0)).
Definition daysBefore : list Z := [0; 31; 59; 90; 120; 151; 181; 212; 243; 273; 304; 334; 365].
Definition daysBeforeMonth (m : Z) : Z := default 0 (daysBefore !! Z.to_nat (m - 1)).
Definition daysIn (month year : Z) : Z :=
  if isLeap year && bool_decide (month = 2) then 29
  else daysBeforeMonth (month + 1) - daysBeforeMonth month.

(** The year of a day and the day of that year, from zero. *)
Definition yearAndDay (d : Z) : Z * Z :=
  let n := d `div` 146097 in let y := 400 * n in let d := d - 146097 * n in
  let n := d `div` 36524 in let n := n - n `div` 4 in let y := y + 100 * n in let d := d - 36524 * n in
  let n := d `div` 1461 in let y := y + 4 * n in let d := d - 1461 * n in
  let n := d `div` 365 in let n := n - n `div` 4 in let y := y + n in let d := d - 365 * n in
  (y + 1, d).
(** The month and the day in it of a day of a year that is not a leap year. *)
Definition monthAndDay (day : Z) : Z * Z :=
  let month := day `div` 31 in
  let end_ := daysBeforeMonth (month + 2) in
  if decide (end_ ≤ day) then (month + 2, day - end_ + 1)
  else (month + 1, day - daysBeforeMonth (month + 1) + 1).
Definition absDate (d : Z) : Z * Z * Z :=
  let '(year, yday) := yearAndDay d in
  let '(month, day) :=
    if isLeap year then
      if decide (59 < yday) then monthAndDay (yday - 1)
      else if decide (yday = 59) then (2, 29) else monthAndDay yday
    else monthAndDay yday in
  (year, month, day).
(** The first day of a year, and the day of a date. *)
Definition daysSinceEpoch (year : Z) : Z :=
  let y := year - 1 in
  let n := y `div` 400 in let y := y - 400 * n in let d := 146097 * n in
  let n := y `div` 100 in let y := y - 100 * n in let d := d + 36524 * n in
  let n := y `div` 4 in let y := y - 4 * n in let d := d + 1461 * n in
  d + 365 * y.
Definition dayOf (year month day : Z) : Z :=
  daysSinceEpoch year + daysBeforeMonth month +
  (if isLeap year && bool_decide (3 ≤ month) then 1 else 0) + day - 1.

(** The parts of a day count: cycles of 400, 100, 4 and 1 years and a rest. *)
Lemma yearAndDay_spec d :
  ∃ a b c e r, yearAndDay d = (400 * a + 100 * b + 4 * c + e + 1, r) ∧
    d = 146097 * a + 36524 * b + 1461 * c + 365 * e + r ∧
    0 ≤ b ≤ 3 ∧ 0 ≤ c ≤ 24 ∧ 0 ≤ e ≤ 3 ∧ 0 ≤ r ≤ 365 ∧
    (r = 365 → e = 3 ∧ (c ≠ 24 ∨ b = 3)).
Proof.
  unfold yearAndDay. set (a := d `div` 146097). set (d1 := d - 146097 * a).
  assert (0 ≤ d1 < 146097) as H1 by (unfold d1, a; pose proof (Z.mod_pos_bound d 146097); pose proof (Z.div_mod d 146097); lia).
  set (b := d1 `div` 36524 - d1 `div` 36524 `div` 4). set (d2 := d1 - 36524 * b).
  assert (0 ≤ b ≤ 3 ∧ 0 ≤ d2 ≤ 36524 ∧ (b < 3 → d2 < 36524)) as (Hb&H2&H2').
  { unfold d2, b. clearbody d1. clear a. Z.div_mod_to_equations. lia. }
  set (c := d2 `div` 1461). set (d3 := d2 - 1461 * c).
  assert (0 ≤ c ≤ 24 ∧ 0 ≤ d3 < 1461 ∧ (c = 24 → b < 3 → d3 < 1460)) as (Hc&H3&H3').
  { unfold d3, c. clearbody b d2. Z.div_mod_to_equations. lia. }
  set (e := d3 `div` 365 - d3 `div` 365 `div` 4). set (r := d3 - 365 * e).
  assert (0 ≤ e ≤ 3 ∧ 0 ≤ r ≤ 365 ∧ (r = 365 → e = 3 ∧ d3 = 1460)) as (He&Hr&Hr').
  { unfold r, e. clearbody d3. Z.div_mod_to_equations. lia. }
  exists a, b, c, e, r. split_and!; [done|lia..].
Qed.
Lemma isLeap_parts a b c e :
  0 ≤ b ≤ 3 → 0 ≤ c ≤ 24 → 0 ≤ e ≤ 3 →
  isLeap (400 * a + 100 * b + 4 * c + e + 1) = bool_decide (e = 3 ∧ (c ≠ 24 ∨ b = 3)).
Proof.
  intros Hb Hc He. unfold isLeap. set (y := 400 * a + 100 * b + 4 * c + e + 1).
  assert (y `mod` 4 = (e + 1) `mod` 4) as H4.
  { unfold y. replace (400 * a + 100 * b + 4 * c + e + 1) with (e + 1 + (100 * a + 25 * b + c) * 4) by lia.
    apply Z.mod_add. lia. }
  assert (y `mod` 100 = (4 * c + e + 1) `mod` 100) as H100.
  { unfold y. replace (400 * a + 100 * b + 4 * c + e + 1) with (4 * c + e + 1 + (4 * a + b) * 100) by lia.
    apply Z.mod_add. lia. }
  assert (y `mod` 400 = (100 * b + 4 * c + e + 1) `mod` 400) as H400.
  { unfold y. replace (400 * a + 100 * b + 4 * c + e + 1) with (100 * b + 4 * c + e + 1 + a * 400) by lia.
    apply Z.mod_add. lia. }
  rewrite H4, H100, H400. clearbody y.
  repeat case_bool_decide; cbn; try done; exfalso; Z.div_mod_to_equations; lia.
Qed.
(** Months, checked day by day. *)
Lemma monthAndDay_spec day :
  0 ≤ day < 365 →
  let '(m, d) := monthAndDay day in
  1 ≤ m ≤ 12 ∧ 1 ≤ d ≤ daysBeforeMonth (m + 1) - daysBeforeMonth m ∧
  daysBeforeMonth m + d - 1 = day ∧ (day < 59 → m ≤ 2) ∧ (59 ≤ day → 3 ≤ m).
Proof.
  intros Hd. set (ok := λ day, let '(m, d) := monthAndDay day in
    bool_decide (1 ≤ m ≤ 12 ∧ 1 ≤ d ≤ daysBeforeMonth (m + 1) - daysBeforeMonth m ∧
    daysBeforeMonth m + d - 1 = day ∧ (59 ≤ day ∨ m ≤ 2) ∧ (day < 59 ∨ 3 ≤ m))).
  assert (forallb ok (seqZ 0 365) = true) as Hall by (vm_compute; reflexivity).
  rewrite forallb_forall in Hall.
  assert (ok day = true) as Hok by (apply Hall, list_elem_of_In, elem_of_seqZ; lia).
  unfold ok in Hok. destruct (monthAndDay day) as [m d]. apply bool_decide_eq_true in Hok. lia.
Qed.

(** A day is the day of its date, which is a day of its month. *)
Lemma dayOf_absDate d :
  let '(year, month, day) := absDate d in
  dayOf year month day = d ∧ 1 ≤ month ≤ 12 ∧ 1 ≤ day ≤ daysIn month year.
Proof.
  unfold absDate. destruct (yearAndDay_spec d) as (a&b&c&e&r&->&Hd&Hb&Hc&He&Hr&Hlast).
  set (year := 400 * a + 100 * b + 4 * c + e + 1).
  assert (daysSinceEpoch year + r = d) as Hy.
  { unfold daysSinceEpoch, year. cbv zeta. Z.div_mod_to_equations. lia. }
  pose proof (isLeap_parts a b c e Hb Hc He) as Hleap. fold year in Hleap.
  assert (isLeap year = true ∨ r < 365) as Hl.
  { destruct (decide (r = 365)) as [Hr5|]; [left|lia]. rewrite Hleap. apply bool_decide_eq_true. auto. }
  unfold dayOf, daysIn. destruct (isLeap year) eqn:Hisleap; cbn [andb].
  - destruct (decide (59 < r)) as [H59|H59]; [|destruct (decide (r = 59)) as [->|Hne]].
    + pose proof (monthAndDay_spec (r - 1) ltac:(lia)) as Hm. destruct (monthAndDay (r - 1)) as [m dd].
      rewrite (bool_decide_eq_true_2 (3 ≤ m)), (bool_decide_eq_false_2 (m = 2)) by lia. rewrite Hisleap. cbn [andb]. lia.
    + rewrite Hisleap, (bool_decide_eq_false_2 (3 ≤ 2)), (bool_decide_eq_true_2 (2 = 2)) by lia.
      cbn [andb]. change (daysBeforeMonth 2) with 31. lia.
    + pose proof (monthAndDay_spec r ltac:(lia)) as Hm. destruct (monthAndDay r) as [m dd].
      rewrite Hisleap, (bool_decide_eq_false_2 (3 ≤ m)) by lia. cbn [andb].
      split; [lia|]. split; [lia|]. destruct (decide (m = 2)) as [->|Hm2].
      * change (daysBeforeMonth (2 + 1)) with 59 in Hm. change (daysBeforeMonth 2) with 31 in Hm.
        rewrite bool_decide_eq_true_2 by done. lia.
      * rewrite bool_decide_eq_false_2 by done. cbn [andb]. lia.
  - pose proof (monthAndDay_spec r ltac:(destruct Hl; [done|lia])) as Hm.
    destruct (monthAndDay r) as [m dd]. rewrite Hisleap. cbn [andb]. lia.
Qed.

(** ** The layout UnixDate *)
Definition shortDayNames : list string := ["Sun"; "Mon"; "Tue"; "Wed"; "Thu"; "Fri"; "Sat"].
Definition shortMonthNames : list string :=
  ["Jan"; "Feb"; "Mar"; "Apr"; "May"; "Jun"; "Jul"; "Aug"; "Sep"; "Oct"; "Nov"; "Dec"].
(** The days from year 1 to the Unix epoch, a Thursday; January 1 of year 1 is a Monday. *)
Definition unixDays : Z := 719162.
Definition secondsOfDay : Z := 86400.

Definition pad2 (v : Z) : string := String (digitChar (v `div` 10)) (String (digitChar (v `mod` 10)) "").
Definition pad2space (v : Z) : string := if decide (v < 10) then String " " (String (digitChar v) "") else pad2 v.
Definition pad4 (v : Z) : string := pad2 (v `div` 100) +:+ pad2 (v `mod` 100).
Definition formatUnixDate (t : Z) : string :=
  let secs := t `div` Second in
  let days := secs `div` secondsOfDay + unixDays in
  let sod := secs `mod` secondsOfDay in
  let '(year, month, day) := absDate days in
  default "" (shortDayNames !! Z.to_nat ((days + 1) `mod` 7)) +:+ " " +:+
  default "" (shortMonthNames !! Z.to_nat (month - 1)) +:+ " " +:+ pad2space day +:+ " " +:+
  pad2 (sod `div` 3600) +:+ ":" +:+ pad2 (sod `div` 60 `mod` 60) +:+ ":" +:+ pad2 (sod `mod` 60) +:+
  " UTC " +:+ pad4 year.

(** [lookup]: the index of the name the text begins with, and the rest. *)
Fixpoint lookupName (names : list string) (i : Z) (s : string) : option (Z * string) :=
  match names with
  | [] => None
  | n :: names' =>
      match strip_prefix n s with
      | Some r => Some (i, r)
      | None => lookupName names' (i + 1) s
      end
  end.
(** Two digits. *)
Definition num2 (s : string) : option (Z * string) :=
  match s with
  | String a (String b r) => x ← digitVal a; y ← digitVal b; Some (10 * x + y, r)
  | _ => None
  end.
(** A day of the month: after a space one digit, otherwise two. *)
Definition num2space (s : string) : option (Z * string) :=
  match s with
  | String c (String b r) => if decide (c = " "%char) then x ← digitVal b; Some (x, r) else num2 s
  | _ => None
  end.
Definition parseUnixDate (s : string) : option Z :=
  '(_, s) ← lookupName shortDayNames 0 s;
  s ← strip_prefix " " s;
  '(month, s) ← lookupName shortMonthNames 1 s;
  s ← strip_prefix " " s;
  '(day, s) ← num2space s;
  s ← strip_prefix " " s;
  '(hour, s) ← num2 s;
  s ← strip_prefix ":" s;
  '(min, s) ← num2 s;
  s ← strip_prefix ":" s;
  '(sec, s) ← num2 s;
  s ← strip_prefix " UTC " s;
  '(y1, s) ← num2 s;
  '(y2, s) ← num2 s;
  let year := 100 * y1 + y2 in
  if decide (s = "" ∧ hour < 24 ∧ min < 60 ∧ sec < 60 ∧ 1 ≤ day ≤ daysIn month year) then
    Some (((dayOf year month day - unixDays) * secondsOfDay + hour * 3600 + min * 60 + sec) * Second)
  else None.

Example unix_epoch : formatUnixDate 0 = "Thu Jan  1 00:00:00 UTC 1970".
Proof. vm_compute. reflexivity. Qed.
Example leap_day : formatUnixDate (1709210096 * Second + 5) = "Thu Feb 29 12:34:56 UTC 2024".
Proof. vm_compute. reflexivity. Qed.
Example leap_day_back : parseUnixDate "Thu Feb 29 12:34:56 UTC 2024" = Some (1709210096 * Second).
Proof. vm_compute. reflexivity. Qed.
Example no_leap_day : parseUnixDate "Wed Feb 29 12:34:56 UTC 2023" = None.
Proof. vm_compute. reflexivity. Qed.

Lemma num2_pad2 v s : 0 ≤ v < 100 → num2 (pad2 v +:+ s) = Some (v, s).
Proof.
  intros Hv. unfold pad2. rewrite !string_app_cons. cbn [num2].
  rewrite !digitVal_char by (Z.div_mod_to_equations; lia). cbn [mbind option_bind].
  f_equal. f_equal. pose proof (Z.div_mod v 10). lia.
Qed.
Lemma num2space_pad v s : 1 ≤ v < 100 → num2space (pad2space v +:+ s) = Some (v, s).
Proof.
  intros Hv. unfold pad2space. case_decide.
  - rewrite !string_app_cons. cbn [num2space]. rewrite decide_True by done.
    by rewrite digitVal_char by lia.
  - rewrite <- (num2_pad2 v s) by lia. unfold pad2. rewrite !string_app_cons. cbn [num2space].
    rewrite decide_False; [done|]. intros Hc. apply (f_equal digitVal) in Hc.
    by rewrite digitVal_char in Hc by (Z.div_mod_to_equations; lia).
Qed.
Lemma lookup_month m s :
  1 ≤ m ≤ 12 →
  lookupName shortMonthNames 1 (default "" (shortMonthNames !! Z.to_nat (m - 1)) +:+ s) = Some (m, s).
Proof.
  intros Hm. assert (m ∈ seqZ 1 12) as Hin by (apply elem_of_seqZ; lia). clear Hm.
  repeat (apply elem_of_cons in Hin as [->|Hin]; [reflexivity|]). by apply elem_of_nil in Hin.
Qed.
Lemma lookup_day d s :
  0 ≤ d < 7 →
  lookupName shortDayNames 0 (default "" (shortDayNames !! Z.to_nat d) +:+ s) = Some (d, s).
Proof.
  intros Hd. assert (d ∈ seqZ 0 7) as Hin by (apply elem_of_seqZ; lia). clear Hd.
  repeat (apply elem_of_cons in Hin as [->|Hin]; [reflexivity|]). by apply elem_of_nil in Hin.
Qed.

(** Instants of the years 1 to 9999, which have four digits. *)
Definition validDate (t : Z) : Prop := 0 ≤ t `div` Second `div` secondsOfDay + unixDays < 3652059.
Lemma absDate_year d : 0 ≤ d < 3652059 → 1 ≤ (absDate d).1.1 ≤ 9999.
Proof.
  intros Hd. unfold absDate. destruct (yearAndDay_spec d) as (a&b&c&e&r&->&Hdd&Hb&Hc&He&Hr&_).
  set (md := if isLeap _ then _ else _). destruct md. cbn [fst]. lia.
Qed.
Lemma daysIn_max m y : 1 ≤ m ≤ 12 → daysIn m y ≤ 31.
Proof.
  intros Hm. unfold daysIn. destruct (_ && _); [lia|].
  assert (m ∈ seqZ 1 12) as Hin by (apply elem_of_seqZ; lia). clear Hm.
  repeat (apply elem_of_cons in Hin as [->|Hin]; [vm_compute; discriminate|]).
  by apply elem_of_nil in Hin.
Qed.
(** A date is read back, to the whole second. *)
Lemma parse_formatUnixDate t :
  validDate t → parseUnixDate (formatUnixDate t) = Some (t `div` Second * Second).
Proof.
  unfold validDate, formatUnixDate. intros Hv. set (secs := t `div` Second) in *.
  set (days := secs `div` secondsOfDay + unixDays) in *. set (sod := secs `mod` secondsOfDay).
  pose proof (absDate_year days Hv) as Hy. pose proof (dayOf_absDate days) as Hday.
  destruct (absDate days) as [[year month] day]. cbn [fst] in Hy. destruct Hday as (Hd&Hm&Hdm).
  pose proof (daysIn_max month year Hm).
  assert (0 ≤ sod < 86400) as Hsod by (apply Z.mod_pos_bound; done).
  assert (0 ≤ sod `div` 3600 < 24 ∧ 0 ≤ sod `div` 60 `mod` 60 < 60 ∧ 0 ≤ sod `mod` 60 < 60 ∧
          sod = sod `div` 3600 * 3600 + sod `div` 60 `mod` 60 * 60 + sod `mod` 60) as (Hh&Hmi&Hs&Hsum).
  { clearbody sod. Z.div_mod_to_equations. lia. }
  unfold parseUnixDate.
  rewrite lookup_day by (apply Z.mod_pos_bound; lia). cbn [mbind option_bind].
  rewrite strip_prefix_app. cbn [mbind option_bind].
  rewrite lookup_month by done. cbn [mbind option_bind].
  rewrite strip_prefix_app. cbn [mbind option_bind].
  rewrite num2space_pad by lia. cbn [mbind option_bind].
  do 3 (rewrite strip_prefix_app; cbn [mbind option_bind];
        rewrite num2_pad2 by lia; cbn [mbind option_bind]).
  rewrite strip_prefix_app. unfold pad4. cbn [mbind option_bind].
  rewrite num2_pad2 by (Z.div_mod_to_equations; lia). cbn [mbind option_bind].
  rewrite <- (string_app_nil (pad2 (year `mod` 100))), num2_pad2 by (apply Z.mod_pos_bound; lia).
  cbn [mbind option_bind].
  replace (100 * (year `div` 100) + year `mod` 100) with year by (apply Z.div_mod; lia).
  rewrite decide_True by (split; [done|]; lia). rewrite Hd. f_equal. f_equal.
  unfold days. pose proof (Z.div_mod secs secondsOfDay ltac:(done)) as Hdm'. fold sod in Hdm'.
  unfold secondsOfDay in *. lia.
Qed.

(** A date consists of names, digits, colons and spaces. *)
Lemma lacks_pad2 c v : digitVal c = None → 0 ≤ v < 100 → lacks c (pad2 v) = true.
Proof.
  intros Hc Hv. unfold pad2. cbn [lacks].
  by rewrite !(digitChar_ne c Hc) by (Z.div_mod_to_equations; lia).
Qed.
Lemma lacks_pad2space c v :
  digitVal c = None → c ≠ " "%char → 0 ≤ v < 100 → lacks c (pad2space v) = true.
Proof.
  intros Hc Hsp Hv. unfold pad2space. case_decide; [|by apply lacks_pad2]. cbn [lacks].
  rewrite (bool_decide_eq_false_2 (" "%char = c)) by congruence. by rewrite (digitChar_ne c Hc) by lia.
Qed.
Lemma lacks_unixDate c t :
  validDate t → digitVal c = None →
  Forall (λ u, lacks c u = true) (["" : string; " "; ":"; " UTC "] ++ shortDayNames ++ shortMonthNames) →
  lacks c (formatUnixDate t) = true.
Proof.
  unfold validDate, formatUnixDate. intros Hv Hc Hall. rewrite Forall_forall in Hall.
  set (secs := t `div` Second) in *. set (days := secs `div` secondsOfDay + unixDays) in *.
  set (sod := secs `mod` secondsOfDay).
  pose proof (absDate_year days Hv) as Hy. pose proof (dayOf_absDate days) as Hday.
  destruct (absDate days) as [[year month] day]. cbn [fst] in Hy. destruct Hday as (Hd&Hm&Hdm).
  pose proof (daysIn_max month year Hm).
  assert (0 ≤ sod < 86400) as Hsod by (apply Z.mod_pos_bound; done). clearbody sod.
  assert (∀ l i, l ⊆ ["" : string; " "; ":"; " UTC "] ++ shortDayNames ++ shortMonthNames →
            lacks c (default "" (l !! i)) = true) as Hname.
  { intros l i Hl. destruct (l !! i) as [n|] eqn:Hn; [|done]. apply Hall, Hl.
    by eapply list_elem_of_lookup_2. }
  assert (c ≠ " "%char) as Hsp.
  { intros ->. assert (lacks " "%char " " = true) as Hs by (apply Hall, elem_of_app; left; repeat constructor). done. }
  unfold pad4. rewrite !lacks_app.
  rewrite !lacks_pad2 by (done || (Z.div_mod_to_equations; lia)).
  rewrite lacks_pad2space by (done || lia).
  rewrite (Hname shortDayNames), (Hname shortMonthNames)
    by (intros x Hx; rewrite !elem_of_app; auto).
  rewrite (Hall " "), (Hall ":"), (Hall " UTC ") by (apply elem_of_app; left; repeat constructor).
  done.
Qed.
