(* ===== verification/RaftNode.v ===== *)
(** * The raft node of goraft-explore (src/goraft-explore/raft.go)

    The node sits between the raft library and the key-value store: it persists
    what the library hands out, publishes committed entries on [commitC], and
    takes snapshots.  Everything outside of raft.go (the raft library, the WAL,
    the snapshot directory, the HTTP transport, the channels) is the environment
    of the [io] monad: a call is an event, its answer comes from the environment. *)
From stdpp Require Import base gmap strings list numbers pretty.
From S2P Require Import Prelude.
Local Open Scope Z_scope.
Set Default Proof Using "Type*".

(** ** The messages of raftpb the node looks into *)
Definition EntryNormal : Z := 0.
Definition EntryConfChange : Z := 1.
Definition ConfChangeAddNode : Z := 0.
Definition ConfChangeRemoveNode : Z := 1.

Record Entry := mkEntry { Index : Z; Type_ : Z; Data : string }.
Record ConfChange := mkConfChange
  { ccID : Z; ccType : Z; ccNodeID : Z; ccContext : string }.
Definition ConfState : Type := list Z.
Record Snapshot := mkSnapshot
  { snapData : string; snapConfState : ConfState; snapIndex : Z; snapTerm : Z }.

(** The answer of [Snapshotter.Load]: [ErrNoSnapshot] is told apart by the code. *)
Inductive loadResult :=
  | Loaded (s : Snapshot)
  | ErrNoSnapshot
  | LoadError (e : error).

#[global] Instance Entry_eq_dec : EqDecision Entry.
Proof. solve_decision. Defined.
#[global] Instance Snapshot_eq_dec : EqDecision Snapshot.
Proof. solve_decision. Defined.

(** ** The node *)
Record raftNode := mkRaftNode {
  id : Z;                    (* client ID for raft session *)
  peers : list string;       (* raft peer URLs *)
  join : bool;               (* node is joining an existing cluster *)
  waldir : string;
  snapdir : string;
  lastIndex : Z;             (* index of log at start *)
  confState : ConfState;
  snapshotIndex : Z;
  appliedIndex : Z;
  snapCount : Z;
}.

Definition set_lastIndex (i : Z) (rc : raftNode) : raftNode :=
  mkRaftNode (id rc) (peers rc) (join rc) (waldir rc) (snapdir rc) i
    (confState rc) (snapshotIndex rc) (appliedIndex rc) (snapCount rc).
Definition set_confState (cs : ConfState) (rc : raftNode) : raftNode :=
  mkRaftNode (id rc) (peers rc) (join rc) (waldir rc) (snapdir rc) (lastIndex rc)
    cs (snapshotIndex rc) (appliedIndex rc) (snapCount rc).
Definition set_snapshotIndex (i : Z) (rc : raftNode) : raftNode :=
  mkRaftNode (id rc) (peers rc) (join rc) (waldir rc) (snapdir rc) (lastIndex rc)
    (confState rc) i (appliedIndex rc) (snapCount rc).
Definition set_appliedIndex (i : Z) (rc : raftNode) : raftNode :=
  mkRaftNode (id rc) (peers rc) (join rc) (waldir rc) (snapdir rc) (lastIndex rc)
    (confState rc) (snapshotIndex rc) i (snapCount rc).

Definition defaultSnapCount : Z := 10000.
Definition snapshotCatchUpEntriesN : Z := 10000.

(** The struct [newRaftNode] fills in; [startRaft] is then started in a
    goroutine of its own. *)
Definition newRaftNode (id : Z) (peers : list string) (join : bool) : raftNode :=
  mkRaftNode id peers join
    ("goraft-explore-" +:+ pretty id)
    ("goraft-explore-" +:+ pretty id +:+ "-snap")
    0 [] 0 0 defaultSnapCount.

Section RaftNode.
(** Types and functions of the raft library the node only passes on. *)
Context {Message HardState : Type}.
Context (IsEmptySnap : Snapshot → bool).
Context (unmarshalConfChange : string → ConfChange).

(** What [Node.Ready] delivers. *)
Record Ready := mkReady {
  rdHardState : HardState;
  rdEntries : list Entry;
  rdSnapshot : Snapshot;
  rdCommittedEntries : list Entry;
  rdMessages : list Message;
}.

(** The parameters of [raft.Config] the node chooses. *)
Record Config := mkConfig
  { cfgID : Z; ElectionTick : Z; HeartbeatTick : Z; MaxSizePerMsg : Z; MaxInflightMsgs : Z }.

Inductive event :=
  (* channels of the node *)
  | SelectCommit (d : option string)   (* select: commitC <- d / <-stopc *)
  | SendCommit (d : option string)     (* commitC <- d *)
  | SendError (e : error)              (* errorC <- e *)
  | CloseCommitC | CloseErrorC | CloseStopC | CloseHttpStopC | CloseHttpDoneC | RecvHttpDoneC
  | SnapshotterReady
  (* the callback into the key-value store *)
  | GetSnapshot
  (* raft.Node *)
  | NodeApplyConfChange (cc : ConfChange)
  | NodePropose (p : string) | NodeProposeConfChange (cc : ConfChange)
  | NodeTick | NodeAdvance | NodeStop | NodeStep (m : Message)
  | RestartNode (c : Config) | StartNode (c : Config) (ids : option (list Z))
  (* rafthttp.Transport *)
  | TransportStart (tid : Z) | TransportStop
  | AddPeer (nid : Z) (urls : list string) | RemovePeer (nid : Z) | TransportSend (ms : list Message)
  (* raft.MemoryStorage *)
  | NewMemoryStorage | StorageSnapshot
  | StorageApplySnapshot (s : Snapshot) | StorageSetHardState (st : HardState)
  | StorageAppend (es : list Entry)
  | StorageCreateSnapshot (i : Z) (cs : ConfState) (data : string) | StorageCompact (i : Z)
  (* wal *)
  | WalExist (dir : string) | WalCreate (dir : string) | WalOpen (dir : string) (idx term : Z)
  | WalReadAll | WalSave (st : HardState) (es : list Entry)
  | WalSaveSnapshot (idx term : Z) | WalReleaseLockTo (idx : Z) | WalClose
  (* snapshot directory and file system *)
  | SnapNew (dir : string) | SnapLoad | SnapSave (s : Snapshot)
  | FileExist (dir : string) | Mkdir (dir : string)
  (* HTTP listener *)
  | ParseHost (url : string) | Listen (host : string) | Serve | HttpStopped
  | TickerStop | GoServeRaft | GoServeChannels.

Definition response (e : event) : Type :=
  match e with
  | SelectCommit _ => bool                      (* true: delivered; false: stopc *)
  | GetSnapshot => result string
  | NodeApplyConfChange _ => ConfState
  | NodeStep _ => option error
  | StorageSnapshot => result Snapshot
  | StorageCreateSnapshot _ _ _ => result Snapshot
  | StorageCompact _ => option error
  | WalExist _ | FileExist _ | HttpStopped => bool
  | WalCreate _ | WalOpen _ _ _ | Mkdir _ => option error
  | WalReadAll => result (HardState * list Entry)
  | WalSaveSnapshot _ _ | WalReleaseLockTo _ | SnapSave _ => option error
  | SnapLoad => loadResult
  | ParseHost _ => result string
  | Listen _ => option error
  | Serve => error
  | _ => unit
  end.

Context (env : list event → ∀ e : event, response e).
Abbreviation rn := (io raftNode event).
Abbreviation do_ e := (call env e) (only parsing).

(** ** Snapshots on disk *)
Definition saveSnap (snap : Snapshot) : rn (option error) :=
  err ← do_ (WalSaveSnapshot (snapIndex snap) (snapTerm snap));
  match err with
  | Some e => mret (Some e)
  | None =>
      err ← do_ (SnapSave snap);
      match err with
      | Some e => mret (Some e)
      | None => do_ (WalReleaseLockTo (snapIndex snap))
      end
  end.

(** ** Applying committed entries *)
Definition entriesToApply (ents : list Entry) : rn (list Entry) :=
  match ents with
  | [] => mret []
  | e0 :: _ =>
      rc ← get;
      let firstIdx := Index e0 in
      if decide (firstIdx > u64 (appliedIndex rc + 1)) then
        fatal "first index of committed entry should <= progress.appliedIndex 1"
      else
        let k := u64 (u64 (appliedIndex rc - firstIdx) + 1) in
        if decide (k < Z.of_nat (length ents)) then mret (drop (Z.to_nat k) ents)
        else mret []
  end.

Definition publishNormal (e : Entry) : rn bool :=
  if decide (Data e = "") then mret true            (* ignore empty messages *)
  else do_ (SelectCommit (Some (Data e))).

Definition publishConfChange (e : Entry) : rn bool :=
  let cc := unmarshalConfChange (Data e) in
  cs ← do_ (NodeApplyConfChange cc);
  modify (set_confState cs) ;;
  if decide (ccType cc = ConfChangeAddNode) then
    if decide (ccContext cc = "") then mret true
    else do_ (AddPeer (ccNodeID cc) [ccContext cc]) ;; mret true
  else if decide (ccType cc = ConfChangeRemoveNode) then
    rc ← get;
    if decide (ccNodeID cc = u64 (id rc)) then mret false
    else do_ (RemovePeer (ccNodeID cc)) ;; mret true
  else mret true.

(** One turn of the loop of [publishEntries]; [false] is [return false]. *)
Definition publishEntry (e : Entry) : rn bool :=
  ok ← (if decide (Type_ e = EntryNormal) then publishNormal e
        else if decide (Type_ e = EntryConfChange) then publishConfChange e
        else mret true);
  if ok : bool then
    modify (set_appliedIndex (Index e)) ;;          (* after commit, update appliedIndex *)
    rc ← get;
    if decide (Index e = lastIndex rc) then do_ (SelectCommit None) else mret true
  else mret false.

Fixpoint publishEntries (ents : list Entry) : rn bool :=
  match ents with
  | [] => mret true
  | e :: ents' =>
      ok ← publishEntry e;
      if ok : bool then publishEntries ents' else mret false
  end.

(** ** Snapshots: published by the library, triggered by the node *)
Definition publishSnapshot (snapshotToSave : Snapshot) : rn unit :=
  if IsEmptySnap snapshotToSave then mret tt
  else
    rc ← get;
    if decide (snapIndex snapshotToSave ≤ appliedIndex rc) then
      fatal "snapshot index should > progress.appliedIndex + 1"
    else
      do_ (SendCommit None) ;;                      (* trigger kvstore to load snapshot *)
      modify (set_confState (snapConfState snapshotToSave)) ;;
      modify (set_snapshotIndex (snapIndex snapshotToSave)) ;;
      modify (set_appliedIndex (snapIndex snapshotToSave)).

Definition compactIndex (rc : raftNode) : Z :=
  if decide (appliedIndex rc > snapshotCatchUpEntriesN)
  then u64 (appliedIndex rc - snapshotCatchUpEntriesN) else 1.

Definition maybeTriggerSnapshot : rn unit :=
  rc ← get;
  if decide (u64 (appliedIndex rc - snapshotIndex rc) ≤ snapCount rc) then mret tt
  else
    r ← do_ GetSnapshot;
    match r with
    | inr e => panic e
    | inl data =>
        r ← do_ (StorageCreateSnapshot (appliedIndex rc) (confState rc) data);
        match r with
        | inr e => panic e
        | inl snapShot =>
            err ← saveSnap snapShot;
            match err with
            | Some e => panic e
            | None =>
                err ← do_ (StorageCompact (compactIndex rc));
                match err with
                | Some e => panic e
                | None => modify (set_snapshotIndex (appliedIndex rc))
                end
            end
        end
    end.

(** ** Start: snapshot directory, WAL replay, raft and transport *)
Definition loadSnapshot : rn (option Snapshot) :=
  r ← do_ SnapLoad;
  match r with
  | Loaded s => mret (Some s)
  | ErrNoSnapshot => mret None
  | LoadError e => fatal "raftexample: error loading snapshot"
  end.

Definition openWAL (snapshot : option Snapshot) : rn unit :=
  rc ← get;
  ex ← do_ (WalExist (waldir rc));
  (if ex : bool then mret tt
   else
     err ← do_ (Mkdir (waldir rc));
     match err with
     | Some e => fatal "raftexample: cannot create dir for wal"
     | None =>
         err ← do_ (WalCreate (waldir rc));
         match err with
         | Some e => fatal "raftexample: create wal error"
         | None => do_ WalClose
         end
     end) ;;
  let '(idx, term) :=
    match snapshot with Some s => (snapIndex s, snapTerm s) | None => (0, 0) end in
  err ← do_ (WalOpen (waldir rc) idx term);
  match err with
  | Some e => fatal "raftexample: error loading wal"
  | None => mret tt
  end.

Definition replayWAL : rn unit :=
  snapshot ← loadSnapshot;
  openWAL snapshot ;;
  r ← do_ WalReadAll;
  match r with
  | inr e => fatal "raftexample: failed to read WAL"
  | inl (st, ents) =>
      do_ NewMemoryStorage ;;
      match snapshot with Some s => do_ (StorageApplySnapshot s) | None => mret tt end ;;
      do_ (StorageSetHardState st) ;;
      do_ (StorageAppend ents) ;;
      (* send nil once lastIndex is published so client knows commit channel is current *)
      match last ents with
      | Some e => modify (set_lastIndex (Index e))
      | None => do_ (SendCommit None)
      end
  end.

(** The transport learns every peer but the node itself; peer [i] of the list
    has raft identity [i+1]. *)
Fixpoint addPeers (self : Z) (i : Z) (ps : list string) : rn unit :=
  match ps with
  | [] => mret tt
  | p :: ps' =>
      (if decide (i + 1 ≠ self) then do_ (AddPeer (u64 (i + 1)) [p]) else mret tt) ;;
      addPeers self (i + 1) ps'
  end.

Definition raftConfig (rc : raftNode) : Config :=
  mkConfig (u64 (id rc)) 10 1 (1024 * 1024) 256.

Definition startRaft : rn unit :=
  rc ← get;
  ex ← do_ (FileExist (snapdir rc));
  (if ex : bool then mret tt
   else
     err ← do_ (Mkdir (snapdir rc));
     match err with
     | Some e => fatal "raftexample: cannot create dir for snapshot"
     | None => mret tt
     end) ;;
  do_ (SnapNew (snapdir rc)) ;;
  do_ SnapshotterReady ;;
  oldwal ← do_ (WalExist (waldir rc));
  replayWAL ;;
  (if oldwal : bool then do_ (RestartNode (raftConfig rc))
   else
     let rpeers := (λ i, u64 (Z.of_nat i + 1)) <$> seq 0 (length (peers rc)) in
     do_ (StartNode (raftConfig rc) (if join rc then None else Some rpeers))) ;;
  do_ (TransportStart (u64 (id rc))) ;;
  addPeers (id rc) 0 (peers rc) ;;
  do_ GoServeRaft ;;
  do_ GoServeChannels.

(** ** Shutdown *)
Definition stopHTTP : rn unit :=
  do_ TransportStop ;; do_ CloseHttpStopC ;; do_ RecvHttpDoneC.

Definition stop : rn unit :=
  stopHTTP ;; do_ CloseCommitC ;; do_ CloseErrorC ;; do_ NodeStop.

Definition writeError (err : error) : rn unit :=
  stopHTTP ;; do_ CloseCommitC ;; do_ (SendError err) ;; do_ CloseErrorC ;; do_ NodeStop.

(** ** The event loop *)
(** What the [select] of the event loop of [serveChannels] can pick. *)
Inductive loopInput :=
  | Tick
  | ReadyC (rd : Ready)
  | TransportErrorC (e : error)
  | StopC.

(** The [Ready] case; [false] is [return]. *)
Definition handleReady (rd : Ready) : rn bool :=
  do_ (WalSave (rdHardState rd) (rdEntries rd)) ;;
  (if IsEmptySnap (rdSnapshot rd) then mret tt
   else
     saveSnap (rdSnapshot rd) ;;                    (* its error is dropped *)
     do_ (StorageApplySnapshot (rdSnapshot rd)) ;;
     publishSnapshot (rdSnapshot rd)) ;;
  do_ (StorageAppend (rdEntries rd)) ;;
  do_ (TransportSend (rdMessages rd)) ;;
  ents ← entriesToApply (rdCommittedEntries rd);
  ok ← publishEntries ents;
  if ok : bool then maybeTriggerSnapshot ;; do_ NodeAdvance ;; mret true
  else stop ;; mret false.

Definition handleInput (i : loopInput) : rn bool :=
  match i with
  | Tick => do_ NodeTick ;; mret true
  | ReadyC rd => handleReady rd
  | TransportErrorC e => writeError e ;; mret false
  | StopC => stop ;; mret false
  end.

(** The loop over the inputs the [select] picks one after the other; the
    result tells whether the loop is still running after them. *)
Fixpoint eventLoop (is_ : list loopInput) : rn bool :=
  match is_ with
  | [] => mret true
  | i :: is' =>
      go_on ← handleInput i;
      if go_on : bool then eventLoop is' else mret false
  end.

Definition serveInit : rn unit :=
  r ← do_ StorageSnapshot;
  match r with
  | inr e => panic e
  | inl snapShot =>
      modify (set_confState (snapConfState snapShot)) ;;
      modify (set_snapshotIndex (snapIndex snapShot)) ;;
      modify (set_appliedIndex (snapIndex snapShot))
  end.

(** [defer d()] of a function whose loop has no end of its own: [d] runs when
    the loop has returned ([false]) or panicked. *)
Definition onReturn (d : rn unit) (m : rn bool) : rn bool := λ s h,
  match m s h with
  | (Ret true, s', h') => (Ret true, s', h')
  | _ => deferring d m s h
  end.

Definition serveChannels (is_ : list loopInput) : rn bool :=
  serveInit ;;
  onReturn (do_ TickerStop ;; do_ WalClose) (eventLoop is_).

(** ** The proposal goroutine of [serveChannels] *)
(** What its [select] can pick: a value or the close of either channel. *)
Inductive propInput :=
  | ProposeC (prop : option string)
  | ConfChangeC (cc : option ConfChange).

Record propState := mkPropState
  { proposeOpen : bool; confChangeOpen : bool; confChangeCount : Z }.

Definition proposeStep (i : propInput) (ps : propState) : rn propState :=
  match i with
  | ProposeC None => mret (mkPropState false (confChangeOpen ps) (confChangeCount ps))
  | ProposeC (Some prop) => do_ (NodePropose prop) ;; mret ps
  | ConfChangeC None => mret (mkPropState (proposeOpen ps) false (confChangeCount ps))
  | ConfChangeC (Some cc) =>
      let n := u64 (confChangeCount ps + 1) in
      do_ (NodeProposeConfChange (mkConfChange n (ccType cc) (ccNodeID cc) (ccContext cc))) ;;
      mret (mkPropState (proposeOpen ps) (confChangeOpen ps) n)
  end.

Fixpoint proposeLoop (is_ : list propInput) (ps : propState) : rn propState :=
  if proposeOpen ps && confChangeOpen ps then
    match is_ with
    | [] => mret ps                                 (* waiting in the select *)
    | i :: is' => ps' ← proposeStep i ps; proposeLoop is' ps'
    end
  else do_ CloseStopC ;; mret ps.

(** ** The HTTP listener of the raft transport *)
Definition serveRaft : rn unit :=
  rc ← get;
  let i := i64 (id rc - 1) in
  match (if decide (0 ≤ i) then peers rc !! Z.to_nat i else None) with
  | None => panic "index out of range"
  | Some url =>
      r ← do_ (ParseHost url);
      match r with
      | inr e => fatal "raftexample: Failed parsing URL"
      | inl host =>
          err ← do_ (Listen host);
          match err with
          | Some e => fatal "raftexample: Failed to listen rafthttp"
          | None =>
              do_ Serve ;;
              stopped ← do_ HttpStopped;
              if stopped : bool then do_ CloseHttpDoneC
              else fatal "raftexample: Failed to serve rafthttp"
          end
      end
  end.

Definition Process (m : Message) : rn (option error) := do_ (NodeStep m).
Definition IsIDRemoved (nid : Z) : bool := false.
(** What the transport reports about its peers is ignored. *)
Definition ReportUnreachable (nid : Z) : rn unit := mret tt.
Definition ReportSnapshot (nid status : Z) : rn unit := mret tt.

(** ** What is published *)
(** The messages received from [commitC], in order: a [select] that took
    [stopc] has sent nothing. *)
Definition sent (h : list event) (e : event) : list (option string) :=
  match e with
  | SelectCommit d => if env h (SelectCommit d) then [d] else []
  | SendCommit d => [d]
  | _ => []
  end.
Fixpoint sentFrom (pre h : list event) : list (option string) :=
  match h with
  | [] => []
  | e :: h' => sent pre e ++ sentFrom (pre ++ [e]) h'
  end.
Definition commits (h : list event) : list (option string) := sentFrom [] h.

(** The messages the entries stand for: the data of a normal entry, and the
    nil that tells the end of the replay. *)
Definition commitsFor (lastIdx : Z) (ents : list Entry) : list (option string) :=
  ents ≫= λ e,
    (if decide (Type_ e = EntryNormal ∧ Data e ≠ "") then [Some (Data e)] else []) ++
    (if decide (Index e = lastIdx) then [None] else []).

#[local] Arguments commitsFor _ _ : simpl never.

(** The fields no operation of the event loop but the snapshots changes. *)
Definition frame (s s' : raftNode) : Prop :=
  id s' = id s ∧ lastIndex s' = lastIndex s ∧
  snapshotIndex s' = snapshotIndex s ∧ snapCount s' = snapCount s.

#[local] Instance frame_refl : Reflexive frame.
Proof. by intros s. Qed.
#[local] Instance frame_trans : Transitive frame.
Proof. intros s1 s2 s3 (?&?&?&?) (?&?&?&?). repeat split; congruence. Qed.

Lemma sentFrom_snoc pre h e :
  sentFrom pre (h ++ [e]) = sentFrom pre h ++ sent (pre ++ h) e.
Proof.
  revert pre. induction h as [|e' h IH]; intros pre; simpl.
  - by rewrite !app_nil_r.
  - by rewrite IH, <- (assoc_L (++)), <- (assoc_L (++)).
Qed.
Lemma commits_snoc h e : commits (h ++ [e]) = commits h ++ sent h e.
Proof. apply sentFrom_snoc. Qed.
Lemma commitsFor_app n l1 l2 : commitsFor n (l1 ++ l2) = commitsFor n l1 ++ commitsFor n l2.
Proof. apply bind_app. Qed.
Lemma commitsFor_cons n e l : commitsFor n (e :: l) = commitsFor n [e] ++ commitsFor n l.
Proof. apply (commitsFor_app n [e] l). Qed.

Lemma publishConfChange_spec e s h :
  wp (publishConfChange e) (λ o s' h', ∃ ok, o = Ret ok ∧ frame s s' ∧
    appliedIndex s' = appliedIndex s ∧ commits h' = commits h) s h.
Proof.
  unfold publishConfChange. wp_steps. repeat (wp_if; wp_steps);
    eexists; (split; [done|]); rewrite ?commits_snoc, ?app_nil_r; done.
Qed.

Lemma publishNormal_spec e s h :
  wp (publishNormal e) (λ o s' h', ∃ ok, o = Ret ok ∧ s' = s ∧
    commits h' = commits h ++
      (if decide (Data e = "") then [] else if ok : bool then [Some (Data e)] else [])) s h.
Proof.
  unfold publishNormal. wp_if; wp_steps; rewrite ?commits_snoc, ?app_nil_r; eauto.
Qed.

Lemma publishEntry_spec e s h :
  wp (publishEntry e) (λ o s' h', ∃ ok : bool, o = Ret ok ∧ frame s s' ∧
    (appliedIndex s' = appliedIndex s ∨ appliedIndex s' = Index e) ∧
    commits h' `prefix_of` commits h ++ commitsFor (lastIndex s) [e] ∧
    (ok → appliedIndex s' = Index e ∧
          commits h' = commits h ++ commitsFor (lastIndex s) [e])) s h.
Proof.
  unfold publishEntry. apply wp_bind.
  assert (wp (if decide (Type_ e = EntryNormal) then publishNormal e
              else if decide (Type_ e = EntryConfChange) then publishConfChange e
              else mret true)
    (λ o s' h', ∃ ok : bool, o = Ret ok ∧ frame s s' ∧ appliedIndex s' = appliedIndex s ∧
      commits h' = commits h ++
        (if ok then if decide (Type_ e = EntryNormal ∧ Data e ≠ "") then [Some (Data e)] else []
         else [])) s h) as Hcase.
  { wp_if; [|wp_if].
    - eapply wp_mono; [|apply publishNormal_spec]. intros o s' h' ([]&->&->&->);
      eexists; (split; [done|]); repeat split; f_equal; repeat case_decide; naive_solver.
    - eapply wp_mono; [|apply publishConfChange_spec]. intros o s' h' (ok&->&?&?&->).
      exists ok. rewrite decide_False by naive_solver. destruct ok; rewrite app_nil_r; auto.
    - wp_steps. exists true. rewrite decide_False by naive_solver. by rewrite app_nil_r. }
  eapply wp_mono; [|exact Hcase]. clear Hcase.
  intros o s' h' (ok&->&Hf&Ha&Hc). destruct ok; wp_steps.
  - destruct Hf as (?&Hl&?&?). wp_if; wp_steps; eexists; (split; [done|]);
      (split; [done|]); (split; [by auto|]); rewrite ?commits_snoc, Hc; unfold commitsFor;
      simpl in *; rewrite app_nil_r, <- Hl, <- ?(assoc_L (++)).
    + rewrite (decide_True (P:=Index e = _)) by done.
      destruct (env _ _); [done|]. split; [|done]. apply prefix_app, prefix_app, prefix_nil.
    + by rewrite (decide_False (P:=Index e = _)), !app_nil_r by done.
  - exists false. rewrite app_nil_r in Hc. rewrite Hc.
    split; [done|]. split; [done|]. split; [by left|]. split; [|done].
    by apply prefix_app_r.
Qed.

(** [publishEntries] publishes the entries one by one: it always comes back;
    with [true] it has sent what the entries stand for and applied the last
    one, with [false] (stopped, or the node itself removed) an initial part. *)
Lemma publishEntries_spec ents s h :
  wp (publishEntries ents) (λ o s' h', ∃ ok : bool, o = Ret ok ∧ frame s s' ∧
    commits h' `prefix_of` commits h ++ commitsFor (lastIndex s) ents ∧
    (ok → appliedIndex s' = default (appliedIndex s) (Index <$> last ents) ∧
          commits h' = commits h ++ commitsFor (lastIndex s) ents)) s h.
Proof.
  revert s h. induction ents as [|e ents IH]; intros s h; simpl.
  - wp_steps. exists true. by rewrite app_nil_r.
  - apply wp_bind. eapply wp_mono; [|apply publishEntry_spec].
    intros o s1 h1 (ok1&->&Hf1&_&Hpre1&Hok1). rewrite commitsFor_cons, (assoc_L (++)).
    destruct ok1; wp_steps.
    + destruct (Hok1 I) as [Ha1 Hc1].
      eapply wp_mono; [|apply IH]. intros o s2 h2 (ok2&->&Hf2&Hpre2&Hok2).
      replace (lastIndex s1) with (lastIndex s) in * by (symmetry; apply Hf1).
      rewrite Hc1 in *. exists ok2. split; [done|]. split; [by etrans|]. split; [done|].
      intros Hok. destruct (Hok2 Hok) as [-> ->]. split; [|done].
      rewrite last_cons. by destruct (last ents).
    + exists false. split; [done|]. split; [done|]. split; [|done]. by apply prefix_app_r.
Qed.

(** ** Which entries are applied *)
(** A run of consecutive log entries from index [i] on. *)
Fixpoint contiguous (i : Z) (ents : list Entry) : Prop :=
  match ents with
  | [] => True
  | e :: ents' => Index e = i ∧ contiguous (i + 1) ents'
  end.

Lemma contiguous_above i j ents :
  contiguous i ents → j < i → filter (λ e, j < Index e) ents = ents.
Proof.
  revert i. induction ents as [|e ents IH]; intros i; [done|]. intros [Hi Hc] Hj.
  rewrite filter_cons_True by lia. f_equal. apply (IH (i + 1)); [done|lia].
Qed.
Lemma contiguous_drop i j ents :
  contiguous i ents → i ≤ j + 1 →
  filter (λ e, j < Index e) ents = drop (Z.to_nat (j - i + 1)) ents.
Proof.
  revert i. induction ents as [|e ents IH]; intros i Hc Hj; simpl.
  { by rewrite drop_nil. }
  destruct Hc as [Hi Hc]. destruct (decide (i = j + 1)) as [->|Hne].
  - replace (Z.to_nat (j - (j + 1) + 1)) with 0%nat by lia.
    apply (contiguous_above (j + 1)); [done|lia].
  - rewrite filter_cons_False by lia. rewrite (IH (i + 1)) by (done || lia).
    by replace (Z.to_nat (j - i + 1)) with (S (Z.to_nat (j - (i + 1) + 1))) by lia.
Qed.

Lemma entriesToApply_spec lo ents s h :
  contiguous lo ents → 0 ≤ lo → lo + Z.of_nat (length ents) ≤ 2 ^ 64 →
  0 ≤ appliedIndex s < 2 ^ 64 - 1 →
  entriesToApply ents s h =
    if decide (ents ≠ [] ∧ appliedIndex s + 1 < lo)
    then (Exit "first index of committed entry should <= progress.appliedIndex 1", s, h)
    else (Ret (filter (λ e, appliedIndex s < Index e) ents), s, h).
Proof.
  intros Hc Hlo Hlen Ha. destruct ents as [|e ents].
  { rewrite decide_False by naive_solver. done. }
  assert (Index e = lo) as He by apply Hc.
  unfold entriesToApply. simpl (get ≫= _). unfold mbind, io_bind, get.
  rewrite He, (wrapU_id 64 (appliedIndex s + 1)) by (unfold inU; lia).
  destruct (decide (lo > appliedIndex s + 1)) as [Hgt|Hle].
  { rewrite decide_True by (split; [done|lia]). done. }
  rewrite (decide_False (P:=_ ∧ _)) by (intros [_ ?]; lia).
  rewrite wrapU_add_l, (wrapU_id 64) by (unfold inU; lia).
  rewrite (contiguous_drop lo) by (done || lia).
  case_decide as Hk; [done|]. unfold mret, io_ret.
  by rewrite drop_ge by (simpl; lia).
Qed.

(** ** Exactly-once delivery across batches *)
(** The indices of a node between two events: a snapshot is never ahead of
    what is applied, and at most [snapCount] entries behind. *)
Definition node_ok (s : raftNode) : Prop :=
  0 ≤ snapshotIndex s ≤ appliedIndex s ∧ appliedIndex s < 2 ^ 64 - 1 ∧
  appliedIndex s - snapshotIndex s ≤ snapCount s.

Section log.
(** The log of the cluster and its segments. *)
Context (log : Z → Entry).
Definition segment (lo n : Z) : list Entry := log <$> seqZ lo n.

(** Batches as raft hands them out, from applied index [a] to [b]: each batch
    is a segment of the log that starts at or before the next index. *)
Inductive deliverable : Z → list loopInput → Z → Prop :=
  | deliver_nil a : deliverable a [] a
  | deliver_tick a is_ b : deliverable a is_ b → deliverable a (Tick :: is_) b
  | deliver_ready a rd lo n is_ b :
      IsEmptySnap (rdSnapshot rd) = true →
      rdCommittedEntries rd = segment lo n →
      0 ≤ lo ≤ a + 1 → 0 ≤ n → lo + n < 2 ^ 64 →
      deliverable (Z.max a (lo + n - 1)) is_ b →
      deliverable a (ReadyC rd :: is_) b.

Lemma deliverable_le a is_ b : deliverable a is_ b → a ≤ b.
Proof. induction 1; lia. Qed.

Lemma length_segment lo n : 0 ≤ n → Z.of_nat (length (segment lo n)) = n.
Proof. intros. unfold segment. rewrite length_fmap, length_seqZ. lia. Qed.
Lemma segment_app lo n m : 0 ≤ n → 0 ≤ m → segment lo (n + m) = segment lo n ++ segment (lo + n) m.
Proof. intros. unfold segment. by rewrite seqZ_app, fmap_app by lia. Qed.
Lemma segment_nil lo n : n ≤ 0 → segment lo n = [].
Proof. intros. unfold segment, seqZ. by replace (Z.to_nat n) with 0%nat by lia. Qed.
Lemma segment_drop lo n k : 0 ≤ k → drop (Z.to_nat k) (segment lo n) = segment (lo + k) (n - k).
Proof.
  intros Hk. destruct (decide (k ≤ n)) as [Hn|Hn].
  - replace (segment lo n) with (segment lo (k + (n - k))) by (f_equal; lia).
    rewrite segment_app by lia. apply drop_app_length'.
    pose proof (length_segment lo k Hk). lia.
  - rewrite (segment_nil (lo + k)) by lia. apply drop_ge.
    unfold segment. rewrite length_fmap, length_seqZ. lia.
Qed.

Section consistent_log.
Context (Hlog : ∀ i, Index (log i) = i).

Lemma contiguous_segment lo n : contiguous lo (segment lo n).
Proof.
  destruct (decide (n ≤ 0)) as [Hn|Hn]; [by rewrite segment_nil|].
  revert lo. pattern n. apply natlike_ind; [..|lia].
  - intros lo. by rewrite segment_nil.
  - intros m Hm IH lo. rewrite <- Z.add_1_l, segment_app by lia.
    simpl. split; [apply Hlog|]. apply IH.
Qed.
Lemma last_segment lo n : 0 < n → Index <$> last (segment lo n) = Some (lo + n - 1).
Proof.
  intros Hn. replace n with ((n - 1) + 1) at 1 by lia. rewrite segment_app by lia.
  rewrite last_app. simpl. rewrite Hlog. f_equal. lia.
Qed.

Lemma entriesToApply_segment lo n s h :
  0 ≤ lo ≤ appliedIndex s + 1 → 0 ≤ n → lo + n < 2 ^ 64 →
  0 ≤ appliedIndex s < 2 ^ 64 - 1 →
  entriesToApply (segment lo n) s h =
    (Ret (segment (appliedIndex s + 1) (lo + n - 1 - appliedIndex s)), s, h).
Proof.
  intros Hlo Hn Hmax Ha.
  rewrite (entriesToApply_spec lo); [|apply contiguous_segment|lia| |lia].
  - rewrite decide_False by (intros [_ ?]; lia).
    rewrite (contiguous_drop lo) by (apply contiguous_segment || lia).
    rewrite segment_drop by lia. do 3 f_equal; f_equal; lia.
  - rewrite length_segment by lia. lia.
Qed.

Lemma saveSnap_spec sn s h :
  wp (saveSnap sn) (λ o s' h', (∃ err, o = Ret err) ∧ s' = s ∧ commits h' = commits h) s h.
Proof.
  unfold saveSnap. wp_steps. repeat (wp_if; wp_steps);
    rewrite ?commits_snoc, ?app_nil_r; eauto.
Qed.

Lemma maybeTriggerSnapshot_spec s h :
  0 ≤ snapCount s → 0 ≤ snapshotIndex s ≤ appliedIndex s → appliedIndex s < 2 ^ 64 - 1 →
  wp maybeTriggerSnapshot (λ o s' h',
    (∀ msg, o ≠ Exit msg) ∧ commits h' = commits h ∧ appliedIndex s' = appliedIndex s ∧
    lastIndex s' = lastIndex s ∧ snapCount s' = snapCount s ∧
    (o = Ret tt → node_ok s')) s h.
Proof.
  intros Hc Hle Hmax. unfold maybeTriggerSnapshot. wp_step. wp_step. wp_if; wp_steps.
  { repeat split; try done; try lia.
    rewrite wrapU_id in Hif by (unfold inU; lia). lia. }
  wp_if; wp_steps; [|by rewrite commits_snoc, app_nil_r].
  wp_if; wp_steps; [|by rewrite !commits_snoc, !app_nil_r].
  eapply wp_mono; [|apply saveSnap_spec]. intros o s' h1 ([err ->]&->&Hh1).
  rewrite !commits_snoc, !app_nil_r in Hh1.
  wp_if; wp_steps; [done|].
  wp_if; wp_steps; rewrite commits_snoc, app_nil_r; simpl; [done|].
  repeat split; simpl; try done; lia.
Qed.

Lemma stop_spec s h : wp stop (λ o s' h', o = Ret tt ∧ s' = s ∧ commits h' = commits h) s h.
Proof.
  unfold stop, stopHTTP. wp_steps. rewrite !commits_snoc, !app_nil_r. split; [|done].
  by destruct (env _ NodeStop).
Qed.

(** The snapshot of a batch, if there is one: the store is told to load it, and the indices
    move on to it; whether it could be saved makes no difference. *)
Definition startOf (rd : Ready) (a : Z) : Z :=
  if IsEmptySnap (rdSnapshot rd) then a else snapIndex (rdSnapshot rd).
Definition nilOf (rd : Ready) : list (option string) :=
  if IsEmptySnap (rdSnapshot rd) then [] else [None].
Definition snapshotAhead (rd : Ready) (a : Z) : Prop :=
  IsEmptySnap (rdSnapshot rd) = false → a < snapIndex (rdSnapshot rd) < 2 ^ 64 - 1.
Lemma snapshotPart_spec rd s h :
  snapshotAhead rd (appliedIndex s) → node_ok s →
  wp (if IsEmptySnap (rdSnapshot rd) then mret tt
      else saveSnap (rdSnapshot rd) ;; do_ (StorageApplySnapshot (rdSnapshot rd)) ;;
           publishSnapshot (rdSnapshot rd))
     (λ o s' h', o = Ret tt ∧ node_ok s' ∧ appliedIndex s' = startOf rd (appliedIndex s) ∧
        lastIndex s' = lastIndex s ∧ commits h' = commits h ++ nilOf rd) s h.
Proof.
  unfold snapshotAhead, startOf, nilOf. intros Hahead Hok. destruct (IsEmptySnap (rdSnapshot rd)) eqn:He.
  { wp_steps. by rewrite app_nil_r. }
  specialize (Hahead eq_refl). wp_step. eapply wp_mono; [|apply saveSnap_spec].
  intros o s1 h1 ([err ->]&->&Hc). wp_steps. unfold publishSnapshot. rewrite He. wp_steps.
  rewrite decide_False by lia. wp_steps. destruct Hok as (Hi&_&Hd). unfold node_ok. simpl.
  rewrite !commits_snoc, app_nil_r, Hc. split_and!; (done || lia).
Qed.
Lemma handleReady_any rd lo n s h :
  let a := startOf rd (appliedIndex s) in
  snapshotAhead rd (appliedIndex s) → rdCommittedEntries rd = segment lo n →
  0 ≤ lo ≤ a + 1 → 0 ≤ n → lo + n < 2 ^ 64 → node_ok s →
  wp (handleReady rd) (λ o s' h',
    (∀ msg, o ≠ Exit msg) ∧
    (o = Ret true →
       node_ok s' ∧ lastIndex s' = lastIndex s ∧
       appliedIndex s' = Z.max a (lo + n - 1) ∧
       commits h' = commits h ++ nilOf rd ++ commitsFor (lastIndex s) (segment (a + 1) (lo + n - 1 - a)))) s h.
Proof.
  intros a Hahead Hents Hlo Hn Hmax Hok0.
  unfold handleReady. wp_step. wp_step. wp_step.
  eapply wp_mono; [|by apply snapshotPart_spec].
  intros o s0 h0 (->&(Hidx&Ha&Hdist)&Ha0&Hl0&Hc0). fold a in Ha0. rewrite <- Hl0.
  rewrite commits_snoc, app_nil_r in Hc0. rewrite (assoc_L (++)), <- Hc0, <- Ha0 in *. clear Hc0.
  wp_steps. unfold wp at 1. rewrite Hents, entriesToApply_segment by lia. wp_step.
  eapply wp_mono; [|apply publishEntries_spec].
  intros o s1 h1 (ok&->&(_&Hl&Hs&Hcnt)&_&Hok).
  rewrite !commits_snoc, !app_nil_r in Hok. destruct ok.
  - destruct (Hok I) as [Ha1 Hc1]. clear Hok.
    assert (appliedIndex s1 = Z.max (appliedIndex s0) (lo + n - 1)) as Ha1'.
    { rewrite Ha1. destruct (decide (lo + n - 1 ≤ appliedIndex s0)).
      - rewrite segment_nil by lia. simpl. lia.
      - rewrite last_segment by lia. simpl. lia. }
    wp_step. eapply wp_mono; [|apply maybeTriggerSnapshot_spec; lia].
    intros [[]|msg|msg] s2 h2 (Hne&Hc2&Ha2&Hl2&_&Hok2); wp_steps; [|done|naive_solver].
    split; [done|]. intros _. split; [by apply Hok2|].
    rewrite commits_snoc, app_nil_r. repeat split; congruence.
  - wp_step. eapply wp_mono; [|apply stop_spec]. intros o s2 h2 (->&_&_). by wp_steps.
Qed.
Lemma handleReady_spec rd lo n s h :
  IsEmptySnap (rdSnapshot rd) = true → rdCommittedEntries rd = segment lo n →
  0 ≤ lo ≤ appliedIndex s + 1 → 0 ≤ n → lo + n < 2 ^ 64 → node_ok s →
  wp (handleReady rd) (λ o s' h',
    (∀ msg, o ≠ Exit msg) ∧
    (o = Ret true →
       node_ok s' ∧ lastIndex s' = lastIndex s ∧
       appliedIndex s' = Z.max (appliedIndex s) (lo + n - 1) ∧
       commits h' = commits h ++ commitsFor (lastIndex s)
         (segment (appliedIndex s + 1) (lo + n - 1 - appliedIndex s)))) s h.
Proof.
  intros Hempty Hents Hlo Hn Hmax Hok. pose proof (handleReady_any rd lo n s h) as Hany.
  unfold startOf, nilOf, snapshotAhead in Hany. rewrite Hempty in Hany. by apply Hany.
Qed.

Lemma eventLoop_spec is_ b s h :
  deliverable (appliedIndex s) is_ b → node_ok s →
  wp (eventLoop is_) (λ o s' h',
    (∀ msg, o ≠ Exit msg) ∧
    (o = Ret true →
       node_ok s' ∧ appliedIndex s' = b ∧
       commits h' = commits h ++ commitsFor (lastIndex s)
         (segment (appliedIndex s + 1) (b - appliedIndex s)))) s h.
Proof.
  intros Hd. remember (appliedIndex s) as a eqn:Ea. revert s h Ea.
  induction Hd as [a|a is_ b Hd IH|a rd lo n is_ b Hempty Hents Hlo Hn Hmax Hd IH];
    intros s h -> Hok; simpl.
  - wp_steps. split; [done|]. intros _.
    by rewrite segment_nil, app_nil_r by lia.
  - wp_steps. eapply wp_mono; [|by apply IH]. simpl.
    by rewrite commits_snoc, app_nil_r.
  - wp_step. eapply wp_mono; [|by eapply handleReady_spec].
    intros [[]|msg|msg] s1 h1 [Hne Hpost]; [|by wp_steps..].
    destruct (Hpost eq_refl) as (Hok1&Hl1&Ha1&Hc1).
    eapply wp_mono; [|by apply IH]. intros o s2 h2 [Hne2 Hpost2].
    split; [done|]. intros Ho. destruct (Hpost2 Ho) as (Hok2&Ha2&Hc2).
    split; [done|]. split; [done|]. apply deliverable_le in Hd.
    rewrite Hc2, Hc1, Hl1, <- (assoc_L (++)), <- commitsFor_app. do 2 f_equal.
    destruct (decide (lo + n - 1 ≤ appliedIndex s)).
    + rewrite (segment_nil _ (lo + n - 1 - _)) by lia. rewrite app_nil_l. f_equal; lia.
    + replace (b - appliedIndex s) with
        ((lo + n - 1 - appliedIndex s) + (b - Z.max (appliedIndex s) (lo + n - 1))) by lia.
      rewrite segment_app by lia. do 2 f_equal. lia.
Qed.
End consistent_log.
End log.

(** ** Invariants of the history *)
(** The events that are neither a step of [saveSnap] that depends on an earlier
    one nor the close of a channel. *)
Definition quiet (e : event) : Prop :=
  match e with
  | SnapSave _ | WalReleaseLockTo _
  | CloseCommitC | CloseErrorC | CloseHttpStopC | CloseStopC => False
  | _ => True
  end.

(** Every operation of the event loop short of [stop] keeps an invariant of the
    history that quiet events and [saveSnap] keep. *)
Section history.
Context (I : list event → Prop).
Context (HI : ∀ h e, quiet e → I h → I (h ++ [e])).
Abbreviation keeps := (preserves (λ (_ : raftNode) h, I h)).
Context (HsaveSnap : ∀ sn, keeps (saveSnap sn)).
Ltac keeps_solve := inv_solve; try done; try (apply HI; [exact Logic.I|done]).
#[local] Hint Resolve HsaveSnap : inv.

Lemma publishEntry_keeps e : keeps (publishEntry e).
Proof. unfold publishEntry, publishNormal, publishConfChange. keeps_solve. Qed.
#[local] Hint Resolve publishEntry_keeps : inv.
Lemma publishEntries_keeps ents : keeps (publishEntries ents).
Proof. induction ents; simpl; keeps_solve. Qed.
Lemma entriesToApply_keeps ents : keeps (entriesToApply ents).
Proof. unfold entriesToApply. keeps_solve. Qed.
Lemma publishSnapshot_keeps sn : keeps (publishSnapshot sn).
Proof. unfold publishSnapshot. keeps_solve. Qed.
Lemma maybeTriggerSnapshot_keeps : keeps maybeTriggerSnapshot.
Proof. unfold maybeTriggerSnapshot. keeps_solve. Qed.
Lemma serveInit_keeps : keeps serveInit.
Proof. unfold serveInit. keeps_solve. Qed.
#[local] Hint Resolve publishEntries_keeps entriesToApply_keeps
  publishSnapshot_keeps maybeTriggerSnapshot_keeps : inv.

(** The [Ready] case: the invariant holds at the end, or where [stop] starts. *)
Lemma handleReady_keeps rd s h (Q : outcome bool → raftNode → list event → Prop) :
  (∀ o s' h', I h' → o ≠ Ret false → Q o s' h') →
  (∀ s' h', I h' → wp (stop ;; mret false) Q s' h') →
  I h → wp (handleReady rd) Q s h.
Proof.
  intros HQ Hstop Hh. unfold handleReady.
  assert (∀ msg (s' : raftNode) h', I h' → Q (Panic msg) s' h' ∧ Q (Exit msg) s' h')
    as Hend by (intros; split; by apply HQ).
  eapply wp_bind_preserves; [keeps_solve|done| |done]; intros _ s1 h1 H1; cbv beta.
  eapply wp_bind_preserves; [keeps_solve|done| |done]; intros _ s2 h2 H2; cbv beta.
  eapply wp_bind_preserves; [keeps_solve|done| |done]; intros _ s3 h3 H3; cbv beta.
  eapply wp_bind_preserves; [keeps_solve|done| |done]; intros _ s4 h4 H4; cbv beta.
  eapply wp_bind_preserves; [keeps_solve|done| |done]; intros ents s5 h5 H5; cbv beta.
  eapply wp_bind_preserves; [keeps_solve|done| |done]; intros [] s6 h6 H6; cbv beta;
    [|by apply Hstop].
  eapply wp_bind_preserves; [keeps_solve|done| |done]; intros _ s7 h7 H7; cbv beta.
  wp_steps. apply HQ; [by apply HI|done].
Qed.
End history.

(** ** Order of effects: what a crash can leave on disk *)
(** A snapshot file is written right after its WAL record has been written,
    and the WAL lock is released right after the snapshot file was. *)
Definition durable_at (h : list event) (e : event) : Prop :=
  match e with
  | SnapSave sn => ∃ h0, h = h0 ++ [WalSaveSnapshot (snapIndex sn) (snapTerm sn)] ∧
                         env h0 (WalSaveSnapshot (snapIndex sn) (snapTerm sn)) = None
  | WalReleaseLockTo i => ∃ h0 sn, h = h0 ++ [SnapSave sn] ∧ env h0 (SnapSave sn) = None ∧
                                   snapIndex sn = i
  | _ => True
  end.
Definition durable (h : list event) : Prop :=
  ∀ h1 e h2, h = h1 ++ e :: h2 → durable_at h1 e.

Lemma durable_snoc h e : durable h → durable_at h e → durable (h ++ [e]).
Proof.
  intros Hd He h1 e' h2 Heq. destruct h2 as [|x h2 _] using rev_ind.
  - apply app_inj_tail in Heq as [-> ->]. done.
  - rewrite app_comm_cons, (assoc_L (++)) in Heq. apply app_inj_tail in Heq as [-> _].
    by apply (Hd h1 e' h2).
Qed.
Lemma durable_quiet h e : quiet e → durable h → durable (h ++ [e]).
Proof. intros He Hd. apply durable_snoc; [done|]. by destruct e. Qed.

Lemma saveSnap_durable sn : preserves (λ _ h, durable h) (saveSnap sn).
Proof.
  intros s h Hd. unfold saveSnap. wp_steps.
  wp_if; wp_steps; [by apply durable_snoc|].
  wp_if; wp_steps.
  - apply durable_snoc; [by apply durable_snoc|]. by exists h.
  - apply durable_snoc; [apply durable_snoc; [by apply durable_snoc|by exists h]|].
    by eexists _, sn.
Qed.
#[local] Hint Resolve durable_quiet saveSnap_durable : inv.
Ltac durable_solve := inv_solve; try done; try (apply durable_snoc; [done|exact Logic.I]).

Lemma stop_durable : preserves (λ _ h, durable h) stop.
Proof. unfold stop, stopHTTP. durable_solve. Qed.
#[local] Hint Resolve stop_durable : inv.
Lemma handleInput_durable i : preserves (λ _ h, durable h) (handleInput i).
Proof.
  destruct i as [|rd|e|]; simpl; unfold writeError, stopHTTP; [durable_solve| |durable_solve..].
  intros s h Hd. apply (handleReady_keeps durable); eauto with inv.
  intros s' h' Hd'. eapply wp_mono; [|eapply (preserves_bind (λ _ h, durable h))]; eauto with inv.
Qed.
#[local] Hint Resolve handleInput_durable : inv.
Lemma eventLoop_durable is_ : preserves (λ _ h, durable h) (eventLoop is_).
Proof. induction is_; simpl; durable_solve. Qed.
Lemma addPeers_durable self i ps : preserves (λ _ h, durable h) (addPeers self i ps).
Proof. revert i. induction ps; intros i; simpl; durable_solve. Qed.
#[local] Hint Resolve eventLoop_durable addPeers_durable : inv.
Lemma startRaft_durable : preserves (λ _ h, durable h) startRaft.
Proof. unfold startRaft, replayWAL, loadSnapshot, openWAL. durable_solve. Qed.

(** ** Shutdown: every channel is closed once, after the last send *)
Definition closes (e : event) : Prop :=
  match e with CloseCommitC | CloseErrorC | CloseHttpStopC => True | _ => False end.
Definition all_open (h : list event) : Prop := Forall (λ e, ¬ closes e) h.
(** The tail of the history when the loop has returned. *)
Definition shutdown (err : option error) : list event :=
  [TransportStop; CloseHttpStopC; RecvHttpDoneC; CloseCommitC] ++
  (match err with Some e => [SendError e] | None => [] end) ++ [CloseErrorC; NodeStop].

Lemma all_open_snoc h e : ¬ closes e → all_open h → all_open (h ++ [e]).
Proof. intros He Hh. by apply Forall_snoc_2. Qed.
Lemma all_open_quiet h e : quiet e → all_open h → all_open (h ++ [e]).
Proof. intros He. apply all_open_snoc. by destruct e; intros ?. Qed.
Lemma saveSnap_open sn : preserves (λ _ h, all_open h) (saveSnap sn).
Proof. unfold saveSnap. inv_solve; apply all_open_snoc; solve [intros []|done]. Qed.

Lemma handleInput_open i s h :
  all_open h →
  wp (handleInput i) (λ o s' h',
    match o with
    | Ret false => ∃ h1 err, h' = h1 ++ shutdown err ∧ all_open h1
    | _ => all_open h'
    end) s h.
Proof.
  intros Hh. destruct i as [|rd|e|]; simpl.
  - wp_steps. apply all_open_snoc; [intros []|done].
  - apply (handleReady_keeps all_open); auto using all_open_quiet, saveSnap_open.
    + by intros [[]| |].
    + intros s' h' Hh'. unfold stop, stopHTTP. wp_steps.
      exists h', None. by rewrite <- !(assoc_L (++)).
  - unfold writeError, stopHTTP. wp_steps. exists h, (Some e). by rewrite <- !(assoc_L (++)).
  - unfold stop, stopHTTP. wp_steps. exists h, None. by rewrite <- !(assoc_L (++)).
Qed.

Lemma eventLoop_open is_ s h :
  all_open h →
  wp (eventLoop is_) (λ o s' h',
    match o with
    | Ret false => ∃ h1 err, h' = h1 ++ shutdown err ∧ all_open h1
    | _ => all_open h'
    end) s h.
Proof.
  revert s h. induction is_ as [|i is_ IH]; intros s h Hh; simpl; [by wp_steps|].
  apply wp_bind. eapply wp_mono; [|by apply handleInput_open].
  intros [[]|msg|msg] s' h' Hh'; [by apply IH|by wp_steps|done..].
Qed.

(** ** Proposals *)
Definition confChangeIDs (h : list event) : list Z :=
  omap (λ e, match e with NodeProposeConfChange cc => Some (ccID cc) | _ => None end) h.

Definition closed (ps : propState) : bool := negb (proposeOpen ps && confChangeOpen ps).

Lemma proposeLoop_spec is_ ps s h :
  0 ≤ confChangeCount ps → confChangeCount ps + Z.of_nat (length is_) < 2 ^ 64 →
  wp (proposeLoop is_ ps) (λ o s' h', ∃ ps' h2, o = Ret ps' ∧
    h' = h ++ h2 ++ (if closed ps' then [CloseStopC] else []) ∧ CloseStopC ∉ h2 ∧
    confChangeCount ps ≤ confChangeCount ps' ∧
    confChangeIDs h2 =
      seqZ (confChangeCount ps + 1) (confChangeCount ps' - confChangeCount ps)) s h.
Proof.
  revert ps s h. induction is_ as [|i is_ IH]; intros ps s h H0 Hmax; simpl in *;
    destruct (proposeOpen ps && confChangeOpen ps) eqn:Hopen; wp_steps.
  1,2,4: exists ps, []; unfold closed; rewrite Hopen, Z.sub_diag; simpl;
    rewrite ?app_nil_r; repeat split; try done; apply not_elem_of_nil.
  destruct i as [[p|]|[cc|]]; simpl; wp_steps;
    (eapply wp_mono; [|apply IH; simpl; rewrite ?wrapU_id by (unfold inU; lia); lia]);
    intros o s' h' (ps'&h2&->&->&Hnot&Hle&Hids); simpl in *;
    rewrite ?wrapU_id in * by (unfold inU; lia); exists ps'.
  - exists (NodePropose p :: h2). rewrite <- (assoc_L (++)). do 2 (split; [done|]).
    split; [by apply not_elem_of_cons|done].
  - exists h2. done.
  - eexists (_ :: h2). rewrite <- (assoc_L (++)). split; [done|]. split; [done|].
    split; [by apply not_elem_of_cons|]. split; [lia|]. simpl. rewrite Hids.
    rewrite (seqZ_cons (confChangeCount ps + 1)) by lia.
    f_equal. f_equal; lia.
  - exists h2. done.
Qed.

Lemma onReturn_preserves I d m :
  preserves I d → preserves I m → preserves I (onReturn d m).
Proof.
  intros Hd Hm s h HI. pose proof (Hm s h HI) as H. unfold wp, onReturn, deferring in *.
  destruct (m s h) as [[[[]|msg|msg] s'] h']; [done| | |done];
    pose proof (Hd s' h' H) as H'; unfold wp in H';
    by destruct (d s' h') as [[[?|?|?] ?] ?].
Qed.

Lemma serveChannels_durable is_ : preserves (λ _ h, durable h) (serveChannels is_).
Proof.
  apply preserves_bind; [apply serveInit_keeps; eauto with inv|intros _].
  apply onReturn_preserves; durable_solve.
Qed.

(** ** Properties *)
(** C11: [entriesToApply] on a run of consecutive entries is exact: it ends the
    process when the run starts beyond the next index, and otherwise keeps
    exactly the entries after [appliedIndex]; the 64-bit unsigned subtraction
    never goes astray. *)
Theorem entriesToApply_exact lo ents s h :
  contiguous lo ents → 0 ≤ lo → lo + Z.of_nat (length ents) ≤ 2 ^ 64 →
  0 ≤ appliedIndex s < 2 ^ 64 - 1 →
  entriesToApply ents s h =
    if decide (ents ≠ [] ∧ appliedIndex s + 1 < lo)
    then (Exit "first index of committed entry should <= progress.appliedIndex 1", s, h)
    else (Ret (filter (λ e, appliedIndex s < Index e) ents), s, h).
Proof. apply entriesToApply_spec. Qed.



(** C10: Crash safety of snapshots: at every point of a run of the node, from
    start-up on, a snapshot file is written only right after its record is in
    the WAL, and the WAL lock is released only right after the snapshot file
    was written, so a restart never opens the WAL at an unrecorded index. *)
Theorem snapshot_recorded_before_saved is_ s h o s' h' :
  durable h → (startRaft ;; serveChannels is_) s h = (o, s', h') → durable h'.
Proof.
  apply preserves_run with (I := λ _ h, durable h).
  apply preserves_bind; [apply startRaft_durable|intros _; apply serveChannels_durable].
Qed.

(** C29: Shutdown: the loop closes no channel while it runs; when it has
    returned, each of [httpstopc], [commitC] and [errorC] was closed exactly
    once, after every message of the run, with at most the error in between. *)
Theorem channels_closed_once is_ s h o s' h' :
  all_open h → eventLoop is_ s h = (o, s', h') →
  (o = Ret false → ∃ h1 err, h' = h1 ++ shutdown err ∧ all_open h1) ∧
  (o ≠ Ret false → all_open h').
Proof.
  intros Hh Hrun. pose proof (wp_run _ _ _ _ _ _ _ (eventLoop_open is_ s h Hh) Hrun) as H.
  destruct o as [[]| |]; naive_solver.
Qed.

(** C38: Snapshots are taken on time: [maybeTriggerSnapshot] either leaves the
    node alone, at most [snapCount] entries after its last snapshot, or hands
    the callback's data to the storage as the snapshot at the applied index,
    and compacts to an index that keeps the last 10000 applied entries. *)
Theorem maybeTriggerSnapshot_on_time s h o s' h' :
  0 ≤ snapCount s → 0 ≤ snapshotIndex s ≤ appliedIndex s → appliedIndex s < 2 ^ 64 - 1 →
  maybeTriggerSnapshot s h = (o, s', h') →
  o = Ret tt →
  appliedIndex s' - snapshotIndex s' ≤ snapCount s' ∧
  (s' = s ∧ h' = h ∨
   ∃ data sn, env h GetSnapshot = inl data ∧ snapshotIndex s' = appliedIndex s ∧
     h' = h ++ [GetSnapshot; StorageCreateSnapshot (appliedIndex s) (confState s) data;
                WalSaveSnapshot (snapIndex sn) (snapTerm sn); SnapSave sn;
                WalReleaseLockTo (snapIndex sn); StorageCompact (compactIndex s)] ∧
     1 ≤ compactIndex s ∧ (compactIndex s = 1 ∨ compactIndex s + 10000 = appliedIndex s)).
Proof.
  intros Hc Hle Hmax Hrun Ho.
  pose proof (wp_run _ _ _ _ _ _ _ (maybeTriggerSnapshot_spec s h Hc Hle Hmax) Hrun)
    as (_&_&_&_&_&Hok).
  split; [by destruct (Hok Ho) as (?&?&?)|]. clear Hok.
  revert Ho. start_wp Hrun. unfold maybeTriggerSnapshot. wp_step. wp_step.
  wp_if; wp_steps; [by left|].
  wp_if; wp_steps; [|done]. wp_if; wp_steps; [|done]. unfold saveSnap. wp_steps.
  repeat (wp_if; wp_steps; try done). right. eexists _, _. split; [done|]. split; [done|].
  rewrite <- !(assoc_L (++)). split; [done|].
  unfold compactIndex, snapshotCatchUpEntriesN. case_decide; [|lia].
  rewrite wrapU_id by (unfold inU; lia). lia.
Qed.

(** Configuration changes are proposed under consecutive numbers: whatever
    arrives on the two channels, the proposals carry the numbers
    [confChangeCount+1], [confChangeCount+2], ... , and [stopc] is closed
    exactly when one of the channels was closed, once, as the last step. *)
Theorem proposals_numbered is_ ps s h :
  0 ≤ confChangeCount ps → confChangeCount ps + Z.of_nat (length is_) < 2 ^ 64 →
  ∃ ps' s' h2, proposeLoop is_ ps s h =
      (Ret ps', s', h ++ h2 ++ (if closed ps' then [CloseStopC] else [])) ∧
    CloseStopC ∉ h2 ∧
    confChangeIDs h2 =
      seqZ (confChangeCount ps + 1) (confChangeCount ps' - confChangeCount ps).
Proof.
  intros H0 Hmax. pose proof (proposeLoop_spec is_ ps s h H0 Hmax) as H. unfold wp in H.
  destruct (proposeLoop is_ ps s h) as [[o s'] h'].
  destruct H as (ps'&h2&->&->&?&_&?). by exists ps', s', h2.
Qed.
End RaftNode.

(** ** The properties at work on a small node *)
Module RaftExamples.
(** An environment in which everything succeeds and every message is taken. *)
Abbreviation event0 := (event (Message:=unit) (HardState:=unit)).
Definition env0 (h : list event0) (e : event0) : response e :=
  match e with
  | SelectCommit _ => true
  | GetSnapshot => inl "state"
  | NodeApplyConfChange _ => [1]
  | NodeStep _ => None
  | StorageSnapshot => inl (mkSnapshot "" [] 0 0)
  | StorageCreateSnapshot i cs d => inl (mkSnapshot d cs i 1)
  | StorageCompact _ => None
  | WalExist _ | FileExist _ => false
  | HttpStopped => true
  | WalCreate _ | WalOpen _ _ _ | Mkdir _ => None
  | WalReadAll => inl (tt, [])
  | WalSaveSnapshot _ _ | WalReleaseLockTo _ | SnapSave _ => None
  | SnapLoad => ErrNoSnapshot
  | ParseHost u => inl u
  | Listen _ => None
  | Serve => "http: Server closed"
  | _ => tt
  end.
Definition noSnap (s : Snapshot) : bool := bool_decide (snapIndex s = 0).
Definition noConf (s : string) : ConfChange := mkConfChange 0 0 2 "http://peer".
Definition log0 (i : Z) : Entry := mkEntry i EntryNormal "x".
Definition node0 : raftNode := newRaftNode 1 ["http://127.0.0.1:9021"] false.
Definition batch (lo n : Z) : loopInput (Message:=unit) :=
  ReadyC (mkReady tt [] (mkSnapshot "" [] 0 0) (segment log0 lo n) []).

Lemma entriesToApply_exact_witness :
  entriesToApply (Message:=unit) (HardState:=unit) [log0 3; log0 4] (set_appliedIndex 3 node0) [] =
    (Ret [log0 4], set_appliedIndex 3 node0, []).
Proof. apply (entriesToApply_exact env0 3); simpl; (done || lia). Defined.


Lemma snapshot_recorded_before_saved_witness :
  ∃ o s' h', (startRaft env0 ;; serveChannels noSnap noConf env0 [batch 1 2]) node0 [] = (o, s', h') ∧
    durable env0 h'.
Proof.
  eexists _, _, _. split; [reflexivity|].
  eapply (snapshot_recorded_before_saved noSnap noConf env0 [batch 1 2] node0 []); [|reflexivity].
  intros [] ? ?; discriminate.
Defined.

Lemma channels_closed_once_witness :
  ∃ s' h', eventLoop noSnap noConf env0 [batch 1 2; StopC] node0 [] = (Ret false, s', h') ∧
    ∃ h1 err, h' = h1 ++ shutdown err ∧ all_open h1.
Proof.
  eexists _, _. split; [reflexivity|].
  eapply (channels_closed_once noSnap noConf env0 [batch 1 2; StopC] node0 []);
    [constructor|reflexivity|reflexivity].
Defined.

Definition busyNode : raftNode := set_appliedIndex 20001 node0.
Lemma maybeTriggerSnapshot_on_time_witness :
  ∃ s' h', maybeTriggerSnapshot env0 busyNode [] = (Ret tt, s', h') ∧
    appliedIndex s' - snapshotIndex s' ≤ snapCount s' ∧ compactIndex busyNode = 10001.
Proof.
  eexists _, _. split; [reflexivity|]. split; [|reflexivity].
  refine (proj1 (maybeTriggerSnapshot_on_time env0 busyNode [] _ _ _ _ _ _ eq_refl eq_refl));
    simpl; unfold defaultSnapCount; lia.
Defined.

Lemma proposals_numbered_witness :
  ∃ ps' s' h2, proposeLoop env0
    [ConfChangeC (Some (noConf "")); ProposeC (Some "p"); ConfChangeC (Some (noConf "")); ProposeC None]
    (mkPropState true true 0) node0 [] =
      (Ret ps', s', [] ++ h2 ++ (if closed ps' then [CloseStopC] else [])) ∧
    CloseStopC ∉ h2 ∧ confChangeIDs h2 = seqZ (0 + 1) (confChangeCount ps' - 0).
Proof.
  apply (proposals_numbered env0
    [ConfChangeC (Some (noConf "")); ProposeC (Some "p"); ConfChangeC (Some (noConf "")); ProposeC None]
    (mkPropState true true 0) node0 []); simpl; lia.
Defined.
End RaftExamples.
