(* ===== verification/KvStore.v ===== *)
(** * The key-value store of goraft-explore (src/goraft-explore/kvstore.go)

    The store proposes updates to raft and applies what comes back on [commitC].
    [encoding/gob] and [encoding/json] are used as codecs; what the store relies
    on is stated by the class [KvCodecLaws]. *)
From stdpp Require Import base gmap strings list numbers countable.
From Stdlib Require Import Ascii.
From S2P Require Import Prelude RaftNode.

(** ** Codecs *)
(** [kv] of the source: what a proposal carries. *)
Record kv := mkKv { Key : string; Val : string }.

(** A Go map of strings; [None] is the nil map, which can be read but not written. *)
Abbreviation gomap := (option (gmap string string)).

(** The codecs: [gob] for a [kv], [json] for the whole map. *)
Class KvCodec := {
  gobEncode : kv → result string;
  gobDecode : string → result kv;
  jsonMarshal : gomap → result string;
  jsonUnmarshal : string → result gomap;
  (** [utf8.ValidString], on which the JSON encoder depends: it replaces bytes
      that are not UTF-8. *)
  validUtf8 : string → bool;
}.

Definition utf8_map `{KvCodec} (m : gmap string string) : Prop :=
  map_Forall (λ k v, validUtf8 k = true ∧ validUtf8 v = true) m.

Class KvCodecLaws `{KvCodec} := {
  gob_roundtrip x : ∃ s, gobEncode x = inl s ∧ s ≠ "" ∧ gobDecode s = inl x;
  json_roundtrip m : utf8_map m →
    ∃ s, jsonMarshal (Some m) = inl s ∧ jsonUnmarshal s = inl (Some m);
}.

(** ** The store *)
Record kvstore := mkKvstore { kvStore : gomap }.

Inductive kvEvent :=
  | ProposeC_send (s : string)     (* proposeC <- s *)
  | Snapshotter_Load               (* snapshotter.Load() *)
  | ErrorC_recv.                   (* <-errorC *)
Definition kvResponse (e : kvEvent) : Type :=
  match e with
  | ProposeC_send _ => unit
  | Snapshotter_Load => loadResult
  | ErrorC_recv => option error     (* None: closed *)
  end.

(** How [readCommits] stands after the messages it was given. *)
Inductive commitStatus :=
  | Returned (rest : list (option string))
  | Waiting.

Section KvStore.
Context `{KvCodec}.
Context (env : list kvEvent → ∀ e : kvEvent, kvResponse e).
Abbreviation kvio := (io kvstore kvEvent).

Definition Lookup (key : string) : kvio (string * bool) :=
  s ← get;
  match kvStore s with
  | Some m => match m !! key with
              | Some v => mret (v, true)
              | None => mret ("", false)
              end
  | None => mret ("", false)
  end.

Definition Propose (k v : string) : kvio unit :=
  match gobEncode (mkKv k v) with
  | inr e => fatal e
  | inl buf => call env (ProposeC_send buf)
  end.

Definition getSnapshot : kvio (result string) :=
  s ← get; mret (jsonMarshal (kvStore s)).

Definition recoverFromSnapshot (snapshot : string) : kvio (option error) :=
  match jsonUnmarshal snapshot with
  | inr e => mret (Some e)
  | inl store => modify (λ _, mkKvstore store) ;; mret None
  end.

(** [s.kvStore[dataKv.Key] = dataKv.Val]; a write to a nil map panics. *)
Definition setKey (x : kv) : kvio unit :=
  s ← get;
  match kvStore s with
  | None => panic "assignment to entry in nil map"
  | Some m => modify (λ _, mkKvstore (Some (<[Key x := Val x]> m)))
  end.

(** The loop over [commitC]: the messages it has received, and whether the
    channel is closed after them. *)
Fixpoint readCommits (commitC : list (option string)) (closed : bool) : kvio commitStatus :=
  match commitC with
  | [] =>
      if closed then
        err ← call env ErrorC_recv;
        match err with
        | Some e => fatal e
        | None => mret (Returned [])
        end
      else mret Waiting
  | None :: rest =>
      (* done replaying log; new data incoming OR signaled to load snapshot *)
      r ← call env Snapshotter_Load;
      match r with
      | ErrNoSnapshot => mret (Returned rest)
      | LoadError e => panic e
      | Loaded snapshot =>
          err ← recoverFromSnapshot (snapData snapshot);
          match err with
          | Some e => panic e
          | None => readCommits rest closed
          end
      end
  | Some data :: rest =>
      match gobDecode data with
      | inr e => fatal "raftexample: could not decode message"
      | inl dataKv => setKey dataKv ;; readCommits rest closed
      end
  end.

(** [newKVStore]: replay on the caller's thread, then the same loop in a
    goroutine; the result is what the constructor had read when it returned,
    [None] when it has not returned yet. *)
Definition newKVStore (commitC : list (option string)) (closed : bool) :
    kvio (option (list (option string))) :=
  modify (λ _, mkKvstore (Some ∅)) ;;
  st ← readCommits commitC closed;
  match st with
  | Returned rest => mret (Some rest)
  | Waiting => mret None
  end.

(** ** Specification: the state machine the cluster replicates *)
Definition apply_kv (m : gmap string string) (x : kv) : gmap string string :=
  <[Key x := Val x]> m.
Definition replay (m : gmap string string) (xs : list kv) : gmap string string :=
  foldl apply_kv m xs.

(** The messages [ds] carry the updates [xs]. *)
Definition carries (ds : list (option string)) (xs : list kv) : Prop :=
  Forall2 (λ d x, ∃ s, d = Some s ∧ gobDecode s = inl x) ds xs.

Lemma setKey_run x m h :
  setKey x (mkKvstore (Some m)) h = (Ret tt, mkKvstore (Some (apply_kv m x)), h).
Proof. done. Qed.

(** Applying a run of updates, whatever comes after them. *)
Lemma readCommits_replay ds xs rest closed m h :
  carries ds xs →
  readCommits (ds ++ rest) closed (mkKvstore (Some m)) h =
  readCommits rest closed (mkKvstore (Some (replay m xs))) h.
Proof.
  intros Hc. revert m. induction Hc as [|d x ds xs (s&->&Hd) Hc IH]; intros m; [done|].
  simpl. rewrite Hd. unfold mbind, io_bind. rewrite setKey_run. apply IH.
Qed.

Lemma replay_lookup_last m xs k v :
  replay m (xs ++ [mkKv k v]) !! k = Some v.
Proof. unfold replay. rewrite foldl_snoc. apply lookup_insert_eq. Qed.
Lemma replay_lookup_other m xs k :
  Forall (λ x, Key x ≠ k) xs → replay m xs !! k = m !! k.
Proof.
  revert m. induction xs as [|x xs IH]; intros m Hxs; [done|].
  inversion Hxs; subst. simpl. rewrite IH by done. unfold apply_kv. by rewrite lookup_insert_ne.
Qed.

Lemma Lookup_run m k h :
  Lookup k (mkKvstore (Some m)) h =
    (Ret (default "" (m !! k), bool_decide (is_Some (m !! k))), mkKvstore (Some m), h).
Proof. unfold Lookup, mbind, io_bind. simpl. by destruct (m !! k). Qed.

(** A nil message when a snapshot is on disk: the state of the store is the
    snapshot's, whatever was replayed before. *)
Lemma readCommits_snapshot ds xs sn m m' rest closed h :
  carries ds xs → env h Snapshotter_Load = Loaded sn → jsonUnmarshal (snapData sn) = inl (Some m') →
  readCommits (ds ++ None :: rest) closed (mkKvstore (Some m)) h =
  readCommits rest closed (mkKvstore (Some m')) (h ++ [Snapshotter_Load]).
Proof.
  intros Hc Hload Hjson. rewrite (readCommits_replay _ xs) by done.
  simpl. unfold mbind, io_bind, call. rewrite Hload.
  unfold recoverFromSnapshot. by rewrite Hjson.
Qed.

(** ** Properties *)
(** C6: The store implements the replicated state machine: on a node without a
    snapshot, [newKVStore] returns at the nil message with the replayed log
    applied to the empty map, and the goroutine it starts applies the later
    updates on top of it, in the order of the channel; neither panics nor ends
    the process on messages that decode. *)
Theorem store_refines_log ds xs ds' xs' s h :
  carries ds xs → carries ds' xs' → env h Snapshotter_Load = ErrNoSnapshot →
  newKVStore (ds ++ None :: ds') false s h =
    (Ret (Some ds'), mkKvstore (Some (replay ∅ xs)), h ++ [Snapshotter_Load]) ∧
  readCommits ds' false (mkKvstore (Some (replay ∅ xs))) (h ++ [Snapshotter_Load]) =
    (Ret Waiting, mkKvstore (Some (replay ∅ (xs ++ xs'))), h ++ [Snapshotter_Load]).
Proof.
  intros Hc Hc' Hload. split.
  - unfold newKVStore, mbind, io_bind, modify. rewrite (readCommits_replay _ xs) by done.
    simpl. unfold mbind, io_bind, call. by rewrite Hload.
  - rewrite <- (app_nil_r ds'), (readCommits_replay _ xs') by done. simpl.
    unfold replay. by rewrite foldl_app.
Qed.

(** Snapshots of the store round-trip: for a map of UTF-8 strings,
    [getSnapshot] succeeds and [recoverFromSnapshot] of its bytes restores
    exactly that map, whatever the store held before. *)
Theorem snapshot_roundtrip `{!KvCodecLaws} m s h :
  utf8_map m →
  ∃ data, getSnapshot (mkKvstore (Some m)) h = (Ret (inl data), mkKvstore (Some m), h) ∧
          recoverFromSnapshot data s h = (Ret None, mkKvstore (Some m), h).
Proof.
  intros Hm. destruct (json_roundtrip m Hm) as (data&Hmar&Hun). exists data.
  unfold getSnapshot, recoverFromSnapshot, mbind, io_bind. simpl. by rewrite Hmar, Hun.
Qed.

(** C39: A restart with a snapshot on disk loses what was replayed: the nil
    message that ends the replay makes the store load the snapshot again, so
    the updates [xs] replayed from the WAL after that snapshot are gone, and
    [newKVStore] has not returned, so the HTTP server is never started. *)
Theorem restart_with_snapshot_drops_replay ds xs sn m' s h :
  carries ds xs → env h Snapshotter_Load = Loaded sn → jsonUnmarshal (snapData sn) = inl (Some m') →
  newKVStore (ds ++ [None]) false s h = (Ret None, mkKvstore (Some m'), h ++ [Snapshotter_Load]).
Proof.
  intros Hc Hload Hjson. unfold newKVStore, mbind, io_bind, modify.
  by rewrite (readCommits_snapshot _ xs sn _ m').
Qed.
End KvStore.

(** ** A concrete codec, and the properties at work *)
Module KvExamples.
(** Any countable type as a string of binary digits. *)
Fixpoint pos_string (p : positive) : string :=
  match p with
  | xH => "1"
  | xO p => String "0"%char (pos_string p)
  | xI p => String "1"%char (pos_string p)
  end.
Fixpoint string_pos (s : string) : option positive :=
  match s with
  | String "1"%char EmptyString => Some xH
  | String "0"%char s => xO <$> string_pos s
  | String "1"%char s => xI <$> string_pos s
  | _ => None
  end.
Lemma string_pos_string p : string_pos (pos_string p) = Some p.
Proof. induction p as [p IH|p IH|]; simpl; rewrite ?IH; [by destruct p|done|done]. Qed.
Lemma pos_string_ne p : pos_string p ≠ "".
Proof. by destruct p. Qed.

Definition kvPair (x : kv) : string * string := (Key x, Val x).
Definition dec {A B} `{Countable A} (f : A → B) (s : string) : result B :=
  match string_pos s ≫= decode with Some a => inl (f a) | None => inr "decode" end.

#[export] Instance binCodec : KvCodec := {|
  gobEncode x := inl (pos_string (encode (kvPair x)));
  gobDecode := dec (λ '(k, v), mkKv k v);
  jsonMarshal m := inl (pos_string (encode m));
  jsonUnmarshal := dec (λ m, m);
  validUtf8 s := true;
|}.
#[export] Instance binCodecLaws : KvCodecLaws.
Proof.
  split.
  - intros [k v]. eexists. split; [done|]. split; [apply pos_string_ne|].
    simpl. unfold dec. rewrite string_pos_string. simpl. by rewrite decode_encode.
  - intros m _. eexists. split; [done|]. simpl. unfold dec.
    rewrite string_pos_string. simpl. by rewrite decode_encode.
Qed.

Definition msg (k v : string) : option string := Some (pos_string (encode (k, v))).
Definition envNone (h : list kvEvent) (e : kvEvent) : kvResponse e :=
  match e with
  | ProposeC_send _ => tt
  | Snapshotter_Load => ErrNoSnapshot
  | ErrorC_recv => None
  end.
Definition oldSnap : Snapshot :=
  mkSnapshot (pos_string (encode (Some ({["a" := "1"]} : gmap string string)))) [] 1 1.
Definition envSnap (h : list kvEvent) (e : kvEvent) : kvResponse e :=
  match e with
  | ProposeC_send _ => tt
  | Snapshotter_Load => Loaded oldSnap
  | ErrorC_recv => None
  end.

Lemma msg_carries k v : carries [msg k v] [mkKv k v].
Proof.
  constructor; [|constructor]. eexists. split; [done|]. simpl. unfold dec.
  rewrite string_pos_string. simpl. by rewrite decode_encode.
Qed.

Lemma store_refines_log_witness :
  newKVStore envNone ([msg "a" "1"] ++ None :: [msg "a" "2"]) false (mkKvstore None) [] =
    (Ret (Some [msg "a" "2"]), mkKvstore (Some (replay ∅ [mkKv "a" "1"])), [Snapshotter_Load]) ∧
  readCommits envNone [msg "a" "2"] false (mkKvstore (Some (replay ∅ [mkKv "a" "1"]))) [Snapshotter_Load] =
    (Ret Waiting, mkKvstore (Some (replay ∅ [mkKv "a" "1"; mkKv "a" "2"])), [Snapshotter_Load]).
Proof.
  apply (store_refines_log envNone [msg "a" "1"] [mkKv "a" "1"] [msg "a" "2"] [mkKv "a" "2"]
    (mkKvstore None) []); [apply msg_carries|apply msg_carries|reflexivity].
Defined.

Lemma snapshot_roundtrip_witness :
  ∃ data, getSnapshot (mkKvstore (Some {["k" := "v"]})) [] =
            (Ret (inl data), mkKvstore (Some {["k" := "v"]}), []) ∧
          recoverFromSnapshot data (mkKvstore None) [] =
            (Ret None, mkKvstore (Some {["k" := "v"]}), []).
Proof.
  apply (snapshot_roundtrip {["k" := "v"]} (mkKvstore None) []).
  apply map_Forall_singleton. done.
Defined.

(** The snapshot holds a=1; the update a=2 replayed after it is lost. *)
Lemma restart_with_snapshot_drops_replay_witness :
  newKVStore envSnap ([msg "a" "2"] ++ [None]) false (mkKvstore None) [] =
    (Ret None, mkKvstore (Some {["a" := "1"]}), [Snapshotter_Load]).
Proof.
  apply (restart_with_snapshot_drops_replay envSnap [msg "a" "2"] [mkKv "a" "2"] oldSnap
    {["a" := "1"]} (mkKvstore None) []); [apply msg_carries|reflexivity|].
  simpl. unfold dec. rewrite string_pos_string. simpl. by rewrite decode_encode.
Defined.
End KvExamples.
