(* ===== verification/HttpApi.v ===== *)
(** * The HTTP interface of goraft-explore (src/goraft-explore/httpapi.go)

    PUT proposes an update, GET reads the committed value, POST and DELETE propose
    a change of the cluster. *)
From stdpp Require Import base gmap strings numbers list.
From S2P Require Import Prelude GoStrings GoStrconv RaftNode KvStore.
Local Open Scope Z_scope.

(** The parts of [http.Request] the handler reads; reading the body may fail. *)
Record request := mkRequest { Method : string; RequestURI : string; Body : result string }.

(** What the handler does: calls of the store, the configuration channel, and the
    calls of [http.ResponseWriter] in order. *)
Inductive httpEvent :=
  | Kv (e : kvEvent)
  | ConfChangeC_send (cc : ConfChange)
  | WriteHeader (code : Z)
  | Write (body : string)
  | HttpError (msg : string) (code : Z)
  | HeaderSet (k v : string)
  | HeaderAdd (k v : string).
Definition projKv (e : httpEvent) : option kvEvent :=
  match e with Kv e => Some e | _ => None end.

Definition StatusNoContent : Z := 204.
Definition StatusBadRequest : Z := 400.
Definition StatusNotFound : Z := 404.
Definition StatusMethodNotAllowed : Z := 405.

Section HttpApi.
Context `{KvCodec}.
Context (env : list kvEvent → ∀ e : kvEvent, kvResponse e).
Abbreviation hio := (io kvstore httpEvent).
Abbreviation inStore m := (lift_io Kv projKv m).

(** [strconv.ParseUint(key[1:], 0, 64)]: slicing an empty URI would panic. *)
Definition nodeIdOf (key : string) : hio (Z + numError) :=
  match key with
  | EmptyString => panic "slice bounds out of range"
  | String _ k => mret (parseUint k)
  end.

Definition ServeHTTP (r : request) : hio unit :=
  let key := RequestURI r in
  if decide (Method r = "PUT") then
    match Body r with
    | inr e => emit (HttpError "Failed on PUT" StatusBadRequest)
    | inl v =>
        inStore (Propose env key v) ;;
        (* Optimistic-- no waiting for ack from raft. *)
        emit (WriteHeader StatusNoContent)
    end
  else if decide (Method r = "GET") then
    '(v, ok) ← inStore (Lookup key);
    if ok : bool then emit (Write v) else emit (HttpError "Failed to GET" StatusNotFound)
  else if decide (Method r = "POST") then
    match Body r with
    | inr e => emit (HttpError "Failed on POST" StatusBadRequest)
    | inl url =>
        n ← nodeIdOf key;
        match n with
        | inr e => emit (HttpError "Failed on POST" StatusBadRequest)
        | inl nodeId =>
            emit (ConfChangeC_send (mkConfChange 0 ConfChangeAddNode nodeId url)) ;;
            emit (WriteHeader StatusNoContent)
        end
    end
  else if decide (Method r = "DELETE") then
    n ← nodeIdOf key;
    match n with
    | inr e => emit (HttpError "Failed on DELETE" StatusBadRequest)
    | inl nodeId =>
        emit (ConfChangeC_send (mkConfChange 0 ConfChangeRemoveNode nodeId "")) ;;
        emit (WriteHeader StatusNoContent)
    end
  else
    emit (HeaderSet "Allow" "PUT") ;;
    emit (HeaderAdd "Allow" "GET") ;;
    emit (HeaderAdd "Allow" "POST") ;;
    emit (HeaderAdd "Allow" "DELETE") ;;
    emit (HttpError "Method not allowed" StatusMethodNotAllowed).

(** ** Lemmas *)
(** The calls that finish a response. *)
Definition isResponse (e : httpEvent) : bool :=
  match e with WriteHeader _ | Write _ | HttpError _ _ => true | _ => false end.
Definition isProposal (e : httpEvent) : bool :=
  match e with Kv (ProposeC_send _) | ConfChangeC_send _ => true | _ => false end.
Definition responses (h : list httpEvent) : list httpEvent := filter isResponse h.
Definition proposals (h : list httpEvent) : list httpEvent := filter isProposal h.

Lemma inStore_Lookup k s (h : list httpEvent) :
  inStore (Lookup k) s h =
    (Ret (match kvStore s ≫= (.!! k) with Some v => (v, true) | None => ("", false) end), s, h).
Proof.
  unfold lift_io, Lookup, mbind, io_bind. simpl.
  destruct (kvStore s) as [m|]; simpl; [destruct (m !! k); simpl|];
    by rewrite drop_all, app_nil_r.
Qed.
Lemma inStore_Propose k v buf s (h : list httpEvent) :
  gobEncode (mkKv k v) = inl buf →
  inStore (Propose env k v) s h = (Ret tt, s, h ++ [Kv (ProposeC_send buf)]).
Proof.
  intros Henc. unfold lift_io, Propose. rewrite Henc. simpl.
  rewrite drop_app_length. simpl. by destruct (env _ (ProposeC_send buf)).
Qed.

Lemma wp_Lookup k Q s (h : list httpEvent) :
  Q (Ret (match kvStore s ≫= (.!! k) with Some v => (v, true) | None => ("", false) end)) s h →
  wp (inStore (Lookup k)) Q s h.
Proof. unfold wp. by rewrite inStore_Lookup. Qed.
Lemma wp_Propose k v buf Q s (h : list httpEvent) :
  gobEncode (mkKv k v) = inl buf →
  Q (Ret tt) s (h ++ [Kv (ProposeC_send buf)]) → wp (inStore (Propose env k v)) Q s h.
Proof. intros Henc. unfold wp. by rewrite (inStore_Propose _ _ buf). Qed.

Lemma wp_nodeIdOf key Q s (h : list httpEvent) :
  key ≠ "" →
  (∀ n, (∀ z, n = inl z → 0 ≤ z < 2 ^ 64) → Q (Ret n) s h) → wp (nodeIdOf key) Q s h.
Proof.
  intros Hk HQ. destruct key as [|c k]; [done|]. simpl. wp_steps. apply HQ.
  intros z. apply parseUint_bound.
Qed.
Ltac done_resp := eexists; split; [by rewrite <- ?(assoc_L (++))|]; simpl; auto with lia.

(** ** Properties *)
(** Every request to a non-empty URI is answered exactly once, without
    panicking and without touching the store: what it may change goes through
    at most one proposal to raft, which precedes the answer. *)
Theorem ServeHTTP_one_response `{!KvCodecLaws} r s h :
  RequestURI r ≠ "" →
  ∃ h2, ServeHTTP r s h = (Ret tt, s, h ++ h2) ∧
    length (responses h2) = 1%nat ∧ (length (proposals h2) ≤ 1)%nat ∧
    (∃ e, last h2 = Some e ∧ isResponse e = true).
Proof.
  intros Huri.
  assert (wp (ServeHTTP r) (λ o s' h', ∃ h2, h' = h ++ h2 ∧ o = Ret tt ∧ s' = s ∧
    length (responses h2) = 1%nat ∧ (length (proposals h2) ≤ 1)%nat ∧
    (∃ e, last h2 = Some e ∧ isResponse e = true)) s h) as Hwp.
  { unfold ServeHTTP. wp_if; [|wp_if; [|wp_if; [|wp_if]]].
    - destruct (Body r) as [v|e]; wp_steps; [|done_resp; eauto 10].
      destruct (gob_roundtrip (mkKv (RequestURI r) v)) as (buf&Henc&_).
      apply (wp_Propose _ _ buf); [done|]. wp_steps. done_resp; eauto 10.
    - wp_step. apply wp_Lookup. destruct (_ ≫= _); wp_steps; done_resp; eauto 10.
    - destruct (Body r) as [url|e]; wp_steps; [|done_resp; eauto 10].
      apply wp_nodeIdOf; [done|]. intros [n|e] Hn; wp_steps; done_resp; eauto 10.
    - wp_step. apply wp_nodeIdOf; [done|]. intros [n|e] Hn; wp_steps; done_resp; eauto 10.
    - wp_steps. done_resp; eauto 10. }
  unfold wp in Hwp. destruct (ServeHTTP r s h) as [[o s'] h'].
  destruct Hwp as (h2&->&->&->&?). by exists h2.
Qed.

(** C15: Write, commit, read: a PUT of [v] under [k] is answered 204 after one
    proposal; once that proposal comes back as a committed message the store
    maps [k] to [v] and nothing else changes, and a GET of [k] answers [v]. *)
Theorem put_commit_get `{!KvCodecLaws} k v body m h :
  ∃ buf,
    ServeHTTP (mkRequest "PUT" k (inl v)) (mkKvstore (Some m)) h =
      (Ret tt, mkKvstore (Some m), h ++ [Kv (ProposeC_send buf); WriteHeader StatusNoContent]) ∧
    (∀ kh, readCommits env [Some buf] false (mkKvstore (Some m)) kh =
      (Ret Waiting, mkKvstore (Some (<[k := v]> m)), kh)) ∧
    (∀ h', ServeHTTP (mkRequest "GET" k body) (mkKvstore (Some (<[k := v]> m))) h' =
      (Ret tt, mkKvstore (Some (<[k := v]> m)), h' ++ [Write v])).
Proof.
  destruct (gob_roundtrip (mkKv k v)) as (buf&Henc&_&Hdec). exists buf. split; [|split].
  - unfold ServeHTTP. simpl. unfold mbind, io_bind. rewrite (inStore_Propose _ _ buf) by done.
    unfold emit. by rewrite <- (assoc_L (++)).
  - intros kh. simpl. by rewrite Hdec.
  - intros h'. unfold ServeHTTP. simpl. unfold mbind, io_bind. rewrite inStore_Lookup. simpl.
    by rewrite lookup_insert_eq.
Qed.

(** Node identities in POST and DELETE are read exactly: for a URI that is
    one byte followed by a decimal numeral without leading zero, the change of
    configuration that is proposed carries the number the numeral denotes when
    it fits 64 bits, and otherwise the request fails with 400 and proposes
    nothing. *)
Theorem confchange_node_id c k d l url body s h :
  to_bytes k = d :: l → d ≠ 48 → Forall isDigit (d :: l) →
  let n := decimal (d :: l) in
  ServeHTTP (mkRequest "POST" (String c k) (inl url)) s h =
    (Ret tt, s, h ++ if decide (n < 2 ^ 64)
      then [ConfChangeC_send (mkConfChange 0 ConfChangeAddNode n url); WriteHeader StatusNoContent]
      else [HttpError "Failed on POST" StatusBadRequest]) ∧
  ServeHTTP (mkRequest "DELETE" (String c k) body) s h =
    (Ret tt, s, h ++ if decide (n < 2 ^ 64)
      then [ConfChangeC_send (mkConfChange 0 ConfChangeRemoveNode n ""); WriteHeader StatusNoContent]
      else [HttpError "Failed on DELETE" StatusBadRequest]).
Proof.
  intros Hk Hd Hl n. unfold ServeHTTP. simpl. unfold mbind, io_bind, mret, io_ret.
  rewrite (parseUint_decimal k d l) by done. fold n.
  by case_decide; unfold emit; rewrite <- ?(assoc_L (++)).
Qed.
End HttpApi.

Module HttpExamples.
Import KvExamples.
Lemma ServeHTTP_one_response_witness :
  ∃ h2, ServeHTTP envNone (mkRequest "PUT" "/k" (inl "v")) (mkKvstore (Some ∅)) [] =
      (Ret tt, mkKvstore (Some ∅), [] ++ h2) ∧
    length (responses h2) = 1%nat ∧ (length (proposals h2) ≤ 1)%nat ∧
    (∃ e, last h2 = Some e ∧ isResponse e = true).
Proof.
  apply (ServeHTTP_one_response envNone (mkRequest "PUT" "/k" (inl "v")) (mkKvstore (Some ∅)) []).
  discriminate.
Defined.

Lemma put_commit_get_witness :
  ∃ buf,
    ServeHTTP envNone (mkRequest "PUT" "/k" (inl "v")) (mkKvstore (Some ∅)) [] =
      (Ret tt, mkKvstore (Some ∅), [Kv (ProposeC_send buf); WriteHeader 204]).
Proof.
  destruct (put_commit_get envNone "/k" "v" (inl "") ∅ []) as (buf&H&_). exists buf. exact H.
Defined.

Lemma confchange_node_id_witness :
  ServeHTTP envNone (mkRequest "DELETE" "/12" (inl "")) (mkKvstore (Some ∅)) [] =
    (Ret tt, mkKvstore (Some ∅),
     [ConfChangeC_send (mkConfChange 0 ConfChangeRemoveNode 12 ""); WriteHeader 204]).
Proof.
  refine (proj2 (confchange_node_id envNone _ "12" 49 [50] "" (inl "") (mkKvstore (Some ∅)) [] _ _ _));
    [reflexivity|discriminate|].
  repeat constructor; unfold isDigit; lia.
Defined.
End HttpExamples.
