(* ===== verification/RaftKv.v ===== *)
(** * The raft node and the store together (goraft-explore)

    The event loop of [serveChannels] and the goroutine of [readCommits] run in
    parallel.  [commitC] is unbuffered: a send ends when the store has received
    the message, not when it has applied it.  [getSnapshot] is called by the event
    loop and takes the mutex, so it sees the map between two updates. *)
From stdpp Require Import base gmap strings numbers list relations.
From S2P Require Import Prelude RaftNode KvStore.

Record sys := mkSys {
  published : list string;       (* messages the node has sent on commitC *)
  pending : option string;       (* received by the store, not yet applied *)
  store : gmap string string;    (* the map under the mutex *)
}.

Section RaftKv.
Context `{KvCodec}.

Inductive step : sys → sys → Prop :=
  | step_deliver d pub m :                (* commitC <- &s meets range commitC *)
      step (mkSys pub None m) (mkSys (pub ++ [d]) (Some d) m)
  | step_apply d x pub m :                (* decode, lock, assign, unlock *)
      gobDecode d = inl x →
      step (mkSys pub (Some d) m) (mkSys pub None (apply_kv m x)).

Definition updates (ds : list string) : list kv :=
  omap (λ d, match gobDecode d with inl x => Some x | inr _ => None end) ds.

(** The data [getSnapshot] returns in a state of the system. *)
Definition snapshot_of (σ : sys) : result string := jsonMarshal (Some (store σ)).

Definition lag_inv (m0 : gmap string string) (σ : sys) : Prop :=
  match pending σ with
  | None => store σ = replay m0 (updates (published σ))
  | Some d => ∃ pub, published σ = pub ++ [d] ∧ store σ = replay m0 (updates pub)
  end.

Lemma updates_snoc pub d x : gobDecode d = inl x → updates (pub ++ [d]) = updates pub ++ [x].
Proof. intros Hd. unfold updates. rewrite omap_app. simpl. by rewrite Hd. Qed.

Lemma lag_inv_step m0 σ σ' : step σ σ' → lag_inv m0 σ → lag_inv m0 σ'.
Proof.
  intros [d pub m|d x pub m Hd] Hinv; unfold lag_inv in *; simpl in *.
  - by exists pub.
  - destruct Hinv as (pub'&->&->). rewrite (updates_snoc _ _ x) by done.
    unfold replay. by rewrite foldl_snoc.
Qed.
Lemma lag_inv_reachable m0 σ : rtc step (mkSys [] None m0) σ → lag_inv m0 σ.
Proof.
  intros Hr. remember (mkSys [] None m0) as σ0 eqn:E.
  assert (lag_inv m0 σ0) as Hinv by by subst. clear E.
  induction Hr; [done|]. eauto using lag_inv_step.
Qed.


(** A snapshot can miss the last applied entry: the node may call
    [getSnapshot] after the last message was received and before it is applied;
    the snapshot it then stores under the index of that entry restores a map
    without it, so the entry is lost on recovery. *)
Theorem snapshot_misses_last_entry `{!KvCodecLaws} m0 k v h :
  utf8_map m0 → m0 !! k ≠ Some v →
  ∃ σ d data, rtc step (mkSys [] None m0) σ ∧ published σ = [d] ∧
    gobDecode d = inl (mkKv k v) ∧ snapshot_of σ = inl data ∧
    ∃ m, recoverFromSnapshot data (mkKvstore None) h = (Ret None, mkKvstore (Some m), h) ∧
         m !! k ≠ Some v ∧ replay m0 (updates (published σ)) !! k = Some v.
Proof.
  intros Hm0 Hk. destruct (gob_roundtrip (mkKv k v)) as (d&_&_&Hdec).
  destruct (json_roundtrip m0 Hm0) as (data&Hmar&Hun).
  exists (mkSys [d] (Some d) m0), d, data. split; [|split; [done|]].
  - apply rtc_once. apply (step_deliver d []).
  - split; [done|]. split; [done|]. exists m0. split; [|split; [done|]].
    + unfold recoverFromSnapshot. by rewrite Hun.
    + cbn [published]. change [d] with ([] ++ [d]).
      rewrite (updates_snoc [] d (mkKv k v)) by done. apply replay_lookup_last.
Qed.
End RaftKv.

Module RaftKvExamples.
Import KvExamples.
Definition one : sys := mkSys [pos_string (encode ("a", "1"))] (Some (pos_string (encode ("a", "1")))) ∅.

Lemma snapshot_misses_last_entry_witness :
  ∃ σ d data, rtc step (mkSys [] None ∅) σ ∧ published σ = [d] ∧
    gobDecode d = inl (mkKv "a" "1") ∧ snapshot_of σ = inl data ∧
    ∃ m, recoverFromSnapshot data (mkKvstore None) [] = (Ret None, mkKvstore (Some m), []) ∧
         m !! "a" ≠ Some "1" ∧ replay ∅ (updates (published σ)) !! "a" = Some "1".
Proof. apply (snapshot_misses_last_entry ∅ "a" "1" []); done. Defined.
End RaftKvExamples.
