(* ===== verification/Cluster.v ===== *)
(** * Replicas (goraft-explore)

    A replica is a node of RaftNode.v, from [startRaft] on, whose commit stream feeds a
    store of KvStore.v, as main.go connects them.  Several replicas, each with its own
    environment, get their batches from one log: that raft agrees on one is what the
    library promises.  A replica may be new, restarted from its write-ahead log, or new and
    brought up to date by snapshots; one that is restarted with a snapshot on disk is the
    subject of [restart_with_snapshot_drops_replay]. *)
From stdpp Require Import base gmap strings numbers list.
From S2P Require Import Prelude RaftNode KvStore HttpApi.
Local Open Scope Z_scope.
Set Default Proof Using "Type*".

Section Cluster.
Context {Message HardState : Type}.
Context (IsEmptySnap : Snapshot → bool) (unmarshalConfChange : string → ConfChange).
Context `{KvCodec}.
Abbreviation rev := (RaftNode.event (Message:=Message) (HardState:=HardState)).
Abbreviation rinput := (loopInput (Message:=Message) (HardState:=HardState)).

(** A process of the cluster: its arguments, its surroundings, what it is given. *)
Record replica := mkReplica {
  rid : Z; rpeers : list string; rjoin : bool;
  renv : list rev → ∀ e : rev, response e;
  kenv : list kvEvent → ∀ e, kvResponse e;
  inputs : list rinput;
}.
Definition runNode (r : replica) : outcome bool * raftNode * list rev :=
  (startRaft (renv r) ;; serveChannels IsEmptySnap unmarshalConfChange (renv r) (inputs r))
    (newRaftNode (rid r) (rpeers r) (rjoin r)) [].
(** [newKVStore], and the goroutine it starts when it returns. *)
Definition runStore (r : replica) (commitC : list (option string)) : io kvstore kvEvent commitStatus :=
  st ← newKVStore (kenv r) commitC false;
  match st with
  | Some rest => readCommits (kenv r) rest false
  | None => mret Waiting
  end.

(** The updates in a part of the log. *)
Definition update (e : Entry) : option kv :=
  if decide (Type_ e = EntryNormal ∧ Data e ≠ "") then
    match gobDecode (Data e) with inl x => Some x | inr _ => None end
  else None.
Definition updatesOf (ents : list Entry) : list kv := omap update ents.

(** No snapshot on the disk of the node: the snapshotter finds none, the new storage holds
    the empty one, and the entries of the write-ahead log are numbered from one on. *)
Class CleanNode (r : replica) : Prop := {
  no_file : ∀ h, renv r h SnapLoad = ErrNoSnapshot;
  storage_empty : ∀ h sn, renv r h StorageSnapshot = inl sn → snapIndex sn = 0;
  wal_indices : ∀ h st ents e, renv r h WalReadAll = inl (st, ents) → last ents = Some e → 1 ≤ Index e;
}.
(** Nor one that the store finds later. *)
Class NoSnapshot (r : replica) : Prop := {
  #[global] clean_node :: CleanNode r;
  no_file_store : ∀ h, kenv r h Snapshotter_Load = ErrNoSnapshot;
}.

(** ** Start-up *)
(** After the start: the end of the replay has been announced, or will be at an entry. *)
Definition hasEntries (r : replica) : Prop :=
  ∃ h st ents e, renv r h WalReadAll = inl (st, ents) ∧ last ents = Some e.
Definition announced (r : replica) (n : Z) (ds : list (option string)) : Prop :=
  n = 0 ∧ ds = [None] ∨ 1 ≤ n ∧ ds = [] ∧ hasEntries r.
Definition stands (r : replica) (n : Z) (ds : list (option string)) (s : raftNode) (h : list rev) : Prop :=
  lastIndex s = n ∧ snapCount s = defaultSnapCount ∧ commits (renv r) h = ds.

Lemma stands_snoc r n ds s h e :
  match e with SelectCommit _ | SendCommit _ => False | _ => True end →
  stands r n ds s h → stands r n ds s (h ++ [e]).
Proof.
  intros He (?&?&Hc). split_and!; [done..|]. rewrite commits_snoc, Hc. destruct e; try done; apply app_nil_r.
Qed.
Lemma stands_addPeers r n ds self i ps : preserves (stands r n ds) (addPeers (renv r) self i ps).
Proof.
  revert i. induction ps as [|p ps IH]; intros i; simpl; [apply preserves_ret|].
  inv_solve; intros; by apply stands_snoc.
Qed.
Lemma stands_openWAL r n ds : preserves (stands r n ds) (openWAL (renv r) None).
Proof. unfold openWAL. inv_solve; intros; by apply stands_snoc. Qed.

Lemma replayWAL_stands r `{!CleanNode r} s h :
  stands r 0 [] s h →
  wp (replayWAL (renv r)) (λ o s' h', o = Ret tt → ∃ n ds, announced r n ds ∧ stands r n ds s' h') s h.
Proof.
  intros Hs. unfold replayWAL, loadSnapshot. wp_steps. rewrite no_file. wp_steps.
  eapply wp_mono; [|apply stands_openWAL; by apply (stands_snoc r 0 [] s h SnapLoad)].
  intros [[]|msg|msg] s1 h1 Hs1; wp_steps; [|done..].
  destruct (renv r h1 WalReadAll) as [[st ents]|e] eqn:Hwal; wp_steps; [|done].
  assert (stands r 0 [] s1 ((((h1 ++ [WalReadAll]) ++ [NewMemoryStorage]) ++
            [StorageSetHardState st]) ++ [StorageAppend ents])) as (Hl&Hc&Hd)
    by by repeat (apply stands_snoc; [done|]).
  destruct (last ents) as [e|] eqn:Hlast; wp_steps; intros _.
  - exists (Index e), []. split; [|done]. right. split_and!; [by eapply wal_indices|done|by eexists _, _, _, _].
  - exists 0, [None]. split; [by left|]. split_and!; [done..|]. by rewrite commits_snoc, Hd.
Qed.
Lemma startRaft_stands r `{!CleanNode r} s h :
  stands r 0 [] s h →
  wp (startRaft (renv r)) (λ o s' h', o = Ret tt → ∃ n ds, announced r n ds ∧ stands r n ds s' h') s h.
Proof.
  intros Hs. unfold startRaft. do 4 wp_step.
  apply (wp_bind_preserves (stands r 0 [])); [|by apply stands_snoc| |done].
  { inv_solve; intros; by apply stands_snoc. }
  intros _ s1 h1 Hs1. wp_steps.
  eapply wp_mono; [|apply replayWAL_stands; by repeat (apply stands_snoc; [done|])].
  intros [[]|msg|msg] s2 h2 Hs2; [|done..]. destruct (Hs2 eq_refl) as (n&ds&Hn&Hs3).
  match goal with |- wp ?m ?Q _ _ => assert (preserves (stands r n ds) m) as Hm end.
  { pose proof (stands_addPeers r n ds). inv_solve; intros; by apply stands_snoc. }
  eapply wp_mono; [|by apply Hm]. intros o s3 h3 Hs4 _. by exists n, ds.
Qed.

(** ** The node *)
(** A loop that is still running has not run what was deferred. *)
Lemma wp_onReturn d (m : io raftNode rev bool) (Q : raftNode → list rev → Prop) s h :
  wp m (λ o s' h', o = Ret true → Q s' h') s h →
  wp (onReturn d m) (λ o s' h', o = Ret true → Q s' h') s h.
Proof.
  unfold wp, onReturn, deferring. destruct (m s h) as [[[[]|msg|msg] s'] h']; try done;
    by destruct (d s' h') as [[[?|?|?] ?] ?].
Qed.

Section log.
(** The log the cluster agrees on; its proposals are those of [Propose]. *)
Context (log : Z → Entry) (Hlog : ∀ i, Index (log i) = i).
Context (log_decodes : ∀ i, Type_ (log i) = EntryNormal → Data (log i) ≠ "" →
           ∃ x, gobDecode (Data (log i)) = inl x).

(** A replica that is still running, up to its event loop. *)
Lemma runNode_loop r `{!CleanNode r} s h (P : list (option string) → raftNode → list rev → Prop) :
  runNode r = (Ret true, s, h) →
  (∀ n ds s2 h2, announced r n ds → node_ok s2 → appliedIndex s2 = 0 → lastIndex s2 = n →
     commits (renv r) h2 = ds →
     wp (eventLoop IsEmptySnap unmarshalConfChange (renv r) (inputs r)) (λ o s' h', o = Ret true → P (commits (renv r) h') s' h') s2 h2) →
  P (commits (renv r) h) s h.
Proof.
  intros Hrun Hloop. unfold runNode in Hrun.
  enough (wp (startRaft (renv r) ;; serveChannels IsEmptySnap unmarshalConfChange (renv r) (inputs r))
    (λ o s h, o = Ret true → P (commits (renv r) h) s h)
    (newRaftNode (rid r) (rpeers r) (rjoin r)) []) as Hwp by (by eapply (wp_run _ _ _ _ _ _ _ Hwp)).
  wp_step. eapply wp_mono; [|by apply startRaft_stands].
  intros [[]|msg|msg] s1 h1 Hs1; [|done..]. destruct (Hs1 eq_refl) as (n&ds&Hn&Hl&Hcnt&Hc).
  unfold serveChannels, serveInit. wp_steps.
  destruct (renv r h1 StorageSnapshot) as [sn|e] eqn:Hsn; wp_steps; [|done].
  apply storage_empty in Hsn. apply wp_onReturn, (Hloop n ds); [done| |done|done|].
  - unfold node_ok. simpl. rewrite Hcnt. unfold defaultSnapCount. lia.
  - by rewrite commits_snoc, app_nil_r.
Qed.

(** The commit stream of a replica without snapshots: the data of the log up to the index
    [b], and one nil where the replay ends. *)
Lemma runNode_commits r `{!CleanNode r} b s h :
  deliverable IsEmptySnap log 0 (inputs r) b → runNode r = (Ret true, s, h) →
  ∃ n ds, announced r n ds ∧ commits (renv r) h = ds ++ commitsFor n (segment log 1 b).
Proof.
  intros Hd Hrun. apply (runNode_loop r s h (λ cs _ _,
    ∃ n ds, announced r n ds ∧ cs = ds ++ commitsFor n (segment log 1 b))); [done|].
  intros n ds s2 h2 Hn Hok Ha Hl Hc. rewrite <- Ha in Hd.
  eapply wp_mono; [|by apply (eventLoop_spec IsEmptySnap unmarshalConfChange (renv r) log Hlog (inputs r) b)].
  intros o s3 h3 [_ Hpost] Ho. destruct (Hpost Ho) as (_&_&Hcs). exists n, ds. split; [done|].
  rewrite Hcs, Hc, Hl, Ha. by rewrite Z.sub_0_r.
Qed.

(** ** The store *)
Definition plain (n : Z) (ents : list Entry) : Prop := Forall (λ e, Index e ≠ n) ents.
Lemma carries_updates n ents :
  plain n ents → Forall (λ e, ∃ i, e = log i) ents → carries (commitsFor n ents) (updatesOf ents).
Proof.
  intros Hn. induction Hn as [|e ents He _ IH]; intros Hents; [constructor|].
  apply Forall_cons in Hents as [[i ->] Hents]. rewrite commitsFor_cons.
  unfold carries in *. change (updatesOf (log i :: ents)) with (updatesOf ([log i] ++ ents)).
  unfold updatesOf at 1. rewrite omap_app. apply Forall2_app; [|by apply IH].
  unfold commitsFor, update. simpl. rewrite (decide_False (P:=Index _ = n)), app_nil_r by done.
  case_decide as Hd; [|constructor]. destruct (log_decodes i) as [x Hx]; [by destruct Hd..|].
  rewrite Hx. repeat constructor. by exists (Data (log i)).
Qed.
Lemma plain_segment n lo m : n < lo ∨ lo + m ≤ n → plain n (segment log lo m).
Proof.
  intros Hn. apply Forall_fmap, Forall_forall. intros i Hi%elem_of_seqZ. simpl. rewrite Hlog. lia.
Qed.
Lemma segment_of_log lo m : Forall (λ e, ∃ i, e = log i) (segment log lo m).
Proof. apply Forall_fmap, Forall_forall. intros i _. by exists i. Qed.
Hint Resolve segment_of_log : core.
(** The stream up to the announcement, at an entry of the log. *)
Lemma commitsFor_announced n : 1 ≤ n →
  ∃ ds, commitsFor n (segment log 1 n) = ds ++ [None] ∧ carries ds (updatesOf (segment log 1 n)).
Proof.
  intros Hn. assert (segment log 1 n = segment log 1 (n - 1) ++ [log n]) as ->.
  { replace n with ((n - 1) + 1) at 1 by lia. rewrite segment_app by lia. f_equal.
    by replace (1 + (n - 1)) with n by lia. }
  exists (commitsFor n (segment log 1 (n - 1)) ++ commitsFor (n - 1) [log n]).
  rewrite commitsFor_app, <- (assoc_L (++)). split.
  - f_equal. unfold commitsFor. simpl. rewrite !app_nil_r, Hlog.
    by rewrite (decide_True (P:=n = n)), (decide_False (P:=n = n - 1)), app_nil_r by lia.
  - unfold updatesOf. rewrite omap_app. apply Forall2_app; apply carries_updates.
    + apply plain_segment. lia.
    + apply segment_of_log.
    + repeat constructor. rewrite Hlog. lia.
    + repeat constructor. by exists n.
Qed.

Lemma runStore_replaying r ds xs s :
  carries ds xs → runStore r ds s [] = (Ret Waiting, mkKvstore (Some (replay ∅ xs)), []).
Proof.
  intros Hc. unfold runStore, newKVStore, mbind, io_bind, modify.
  by rewrite <- (app_nil_r ds), (readCommits_replay _ _ xs).
Qed.
Lemma runStore_replayed r `{!NoSnapshot r} ds xs ds' xs' s :
  carries ds xs → carries ds' xs' →
  runStore r (ds ++ None :: ds') s [] =
    (Ret Waiting, mkKvstore (Some (replay ∅ (xs ++ xs'))), [Snapshotter_Load]).
Proof.
  intros Hc Hc'. unfold runStore, newKVStore, mbind, io_bind, modify.
  rewrite (readCommits_replay _ _ xs) by done. simpl. unfold mbind, io_bind, call.
  rewrite no_file_store. simpl. rewrite <- (app_nil_r ds'), (readCommits_replay _ _ xs') by done.
  unfold replay. by rewrite foldl_app.
Qed.

(** What the store of a replica holds at index [b]. *)
Definition stateAt (b : Z) : gmap string string := replay ∅ (updatesOf (segment log 1 b)).
Lemma runStore_stream r `{!NoSnapshot r} n ds b s :
  announced r n ds → 0 ≤ b →
  ∃ h, runStore r (ds ++ commitsFor n (segment log 1 b)) s [] =
         (Ret Waiting, mkKvstore (Some (stateAt b)), h).
Proof.
  intros Hn Hb. destruct Hn as [[-> ->]|(Hn&->&_)].
  - eexists. apply (runStore_replayed r [] []); [constructor|].
    apply carries_updates; [|apply segment_of_log]. apply plain_segment. lia.
  - destruct (decide (n ≤ b)) as [Hle|Hlt].
    + destruct (commitsFor_announced n Hn) as (ds&Hds&Hc). unfold stateAt.
      replace b with (n + (b - n)) by lia. rewrite segment_app, commitsFor_app, Hds by lia.
      rewrite <- (assoc_L (++)). unfold updatesOf. rewrite omap_app. eexists.
      eapply (runStore_replayed r ds); [done|]. apply carries_updates; [|apply segment_of_log].
      apply plain_segment. lia.
    + eexists. apply runStore_replaying. apply carries_updates; [|apply segment_of_log].
      apply plain_segment. lia.
Qed.

(** ** Catching up by snapshots *)
(** Batches of a replica that has fallen behind: now and then one has a snapshot that is
    ahead of it, and then goes on from there.  [sns] are the snapshots, in order. *)
Inductive installable : Z → list rinput → list Snapshot → Z → Prop :=
  | inst_nil a : installable a [] [] a
  | inst_tick a is_ sns b : installable a is_ sns b → installable a (Tick :: is_) sns b
  | inst_ready a rd lo n is_ sns b :
      let a' := startOf IsEmptySnap rd a in
      snapshotAhead IsEmptySnap rd a → rdCommittedEntries rd = segment log lo n →
      0 ≤ lo ≤ a' + 1 → 0 ≤ n → lo + n < 2 ^ 64 →
      installable (Z.max a' (lo + n - 1)) is_ sns b →
      installable a (ReadyC rd :: is_)
        ((if IsEmptySnap (rdSnapshot rd) then [] else [rdSnapshot rd]) ++ sns) b.
(** What comes over the commit channel meanwhile. *)
Inductive feed : Z → list Snapshot → list (option string) → Z → Prop :=
  | feed_nil a : feed a [] [] a
  | feed_part a m sns ds b :
      0 ≤ m → feed (a + m) sns ds b → feed a sns (commitsFor 0 (segment log (a + 1) m) ++ ds) b
  | feed_snap a sn sns ds b :
      a < snapIndex sn → feed (snapIndex sn) sns ds b → feed a (sn :: sns) (None :: ds) b.

Lemma feed_ready (rd : Ready (Message:=Message) (HardState:=HardState)) a lo n sns ds b :
  let a' := startOf IsEmptySnap rd a in
  snapshotAhead IsEmptySnap rd a → feed (Z.max a' (lo + n - 1)) sns ds b →
  feed a ((if IsEmptySnap (rdSnapshot rd) then [] else [rdSnapshot rd]) ++ sns)
    ((nilOf IsEmptySnap rd ++ commitsFor 0 (segment log (a' + 1) (lo + n - 1 - a'))) ++ ds) b.
Proof.
  unfold startOf, snapshotAhead, nilOf. intros Hahead Hf.
  assert (∀ c, feed (Z.max c (lo + n - 1)) sns ds b →
    feed c sns (commitsFor 0 (segment log (c + 1) (lo + n - 1 - c)) ++ ds) b) as Hpart.
  { intros c Hc. destruct (decide (lo + n - 1 ≤ c)).
    - rewrite segment_nil by lia. by replace (Z.max c (lo + n - 1)) with c in Hc by lia.
    - apply feed_part; [lia|]. by replace (Z.max c (lo + n - 1)) with (c + (lo + n - 1 - c)) in Hc by lia. }
  destruct (IsEmptySnap (rdSnapshot rd)); [by apply Hpart|].
  rewrite <- app_assoc. simpl. apply feed_snap; [by apply Hahead|]. by apply Hpart.
Qed.
Lemma eventLoop_feed env is_ sns b s h :
  installable (appliedIndex s) is_ sns b → node_ok s → lastIndex s = 0 →
  wp (eventLoop IsEmptySnap unmarshalConfChange env is_) (λ o s' h', o = Ret true →
    ∃ ds, feed (appliedIndex s) sns ds b ∧ commits env h' = commits env h ++ ds) s h.
Proof.
  intros Hd. remember (appliedIndex s) as a eqn:Ea. revert s h Ea.
  induction Hd as [a|a is_ sns b Hd IH|a rd lo n is_ sns b a' Hahead Hents Hlo Hn Hmax Hd IH];
    intros s h -> Hok Hl; simpl.
  - wp_steps. intros _. exists []. split; [constructor|by rewrite app_nil_r].
  - wp_steps. eapply wp_mono; [|by apply IH]. simpl. by rewrite commits_snoc, app_nil_r.
  - wp_step. eapply wp_mono; [|by apply (handleReady_any IsEmptySnap unmarshalConfChange env log Hlog rd lo n)].
    intros [[]|msg|msg] s1 h1 [_ Hpost]; [|by wp_steps..].
    destruct (Hpost eq_refl) as (Hok1&Hl1&Ha1&Hc1). fold a' in Ha1, Hc1.
    eapply wp_mono; [|apply IH; [done|done|by rewrite Hl1]]. intros o s2 h2 Hpost2 Ho.
    destruct (Hpost2 Ho) as (ds&Hf&Hcs). rewrite Hcs, Hc1, Hl.
    eexists. split; [by apply feed_ready|]. by rewrite <- !app_assoc.
Qed.

(** A replica that joins with an empty disk and is sent the snapshots [sns], which hold the
    state of the cluster at their index; the store loads them as they come. *)
Class Joins (r : replica) (sns : list Snapshot) : Prop := {
  #[global] joins_clean :: CleanNode r;
  no_entries : ¬ hasEntries r;
  first_load : kenv r [] Snapshotter_Load = ErrNoSnapshot;
  later_loads : ∀ j sn, sns !! j = Some sn →
    kenv r (replicate (S j) Snapshotter_Load) Snapshotter_Load = Loaded sn;
  snapshots_true : ∀ sn, sn ∈ sns → jsonUnmarshal (snapData sn) = inl (Some (stateAt (snapIndex sn)));
}.
Lemma stateAt_app a m : 0 ≤ a → 0 ≤ m → stateAt (a + m) = replay (stateAt a) (updatesOf (segment log (a + 1) m)).
Proof.
  intros Ha Hm. unfold stateAt, replay. rewrite <- foldl_app. f_equal. unfold updatesOf. rewrite <- omap_app.
  by rewrite (Z.add_comm a 1), <- segment_app by lia.
Qed.
Lemma store_feed r sns0 `{!Joins r sns0} a sns ds b j :
  feed a sns ds b → 0 ≤ a → sns = drop j sns0 →
  ∃ h, readCommits (kenv r) ds false (mkKvstore (Some (stateAt a))) (replicate (S j) Snapshotter_Load) =
         (Ret Waiting, mkKvstore (Some (stateAt b)), h).
Proof.
  intros Hf. revert j. induction Hf as [a|a m sns ds b Hm Hf IH|a sn sns ds b Hsn Hf IH]; intros j Ha Hj.
  - by eexists.
  - rewrite (readCommits_replay _ _ (updatesOf (segment log (a + 1) m))).
    + rewrite <- stateAt_app by lia. apply IH; [lia|done].
    + apply carries_updates; [|apply segment_of_log]. apply plain_segment. lia.
  - assert (sns0 !! j = Some sn) as Hlook by (rewrite <- (Nat.add_0_r j), <- lookup_drop, <- Hj; done).
    rewrite (readCommits_snapshot _ [] [] sn _ (stateAt (snapIndex sn)) ds).
    + rewrite <- replicate_S_end. apply IH; [lia|]. rewrite (drop_S _ sn) in Hj by done. by injection Hj.
    + constructor.
    + by apply later_loads.
    + eapply snapshots_true. by eapply list_elem_of_lookup_2.
Qed.
Lemma joined_stateAt r sns `{!Joins r sns} b s h st :
  installable 0 (inputs r) sns b → runNode r = (Ret true, s, h) →
  ∃ kh, runStore r (commits (renv r) h) st [] = (Ret Waiting, mkKvstore (Some (stateAt b)), kh).
Proof.
  intros Hi Hrun.
  assert (∃ ds, feed 0 sns ds b ∧ commits (renv r) h = None :: ds) as (ds&Hf&->).
  { apply (runNode_loop r s h (λ cs _ _, ∃ ds, feed 0 sns ds b ∧ cs = None :: ds)); [done|].
    intros n ds s2 h2 Hn Hok Ha Hl Hc. rewrite <- Ha in *.
    destruct Hn as [[-> ->]|(_&_&He)]; [|by apply no_entries in He].
    eapply wp_mono; [|by apply eventLoop_feed]. intros o s3 h3 Hpost Ho.
    destruct (Hpost Ho) as (ds&Hf&->). exists ds. by rewrite Hc. }
  unfold runStore, newKVStore, mbind, io_bind, modify. cbn [readCommits]. unfold mbind, io_bind, call.
  rewrite first_load. cbn [mret io_ret]. by apply (store_feed r sns 0 sns ds b 0).
Qed.

(** ** Properties *)
(** A replica that is still running and has been given the log up to [b]: from a disk
    without a snapshot, or by snapshots too. *)
Definition upTo (r : replica) (b : Z) (h : list rev) : Prop :=
  ∃ s, runNode r = (Ret true, s, h) ∧
    (NoSnapshot r ∧ deliverable IsEmptySnap log 0 (inputs r) b ∨
     ∃ sns, Joins r sns ∧ installable 0 (inputs r) sns b).
Lemma upTo_le r b h : upTo r b h → 0 ≤ b.
Proof.
  intros (s&_&[[_ Hd]|(sns&_&Hi)]); [by eapply (deliverable_le _ (renv r))|].
  assert (∀ a is_ sns b, installable a is_ sns b → a ≤ b) as Hle; [|by eapply Hle].
  clear. induction 1 as [| |a rd lo n is_ sns b a' Hahead _ _ _ _ _ IH]; [lia|lia|].
  unfold snapshotAhead in Hahead. unfold a', startOf in IH.
  destruct (IsEmptySnap (rdSnapshot rd)); [lia|]. specialize (Hahead eq_refl). lia.
Qed.
Lemma replica_stateAt r b h st :
  upTo r b h → ∃ kh, runStore r (commits (renv r) h) st [] = (Ret Waiting, mkKvstore (Some (stateAt b)), kh).
Proof.
  intros Hr. pose proof (upTo_le r b h Hr) as Hb. destruct Hr as (s&Hrun&[[Hns Hd]|(sns&Hj&Hi)]).
  - destruct (runNode_commits r b s h Hd Hrun) as (n&ds&Hn&->). by apply runStore_stream.
  - by eapply joined_stateAt.
Qed.


Lemma stateAt_lookup b i k v :
  1 ≤ i ≤ b → update (log i) = Some (mkKv k v) →
  (∀ j x, i < j ≤ b → update (log j) = Some x → Key x ≠ k) → stateAt b !! k = Some v.
Proof.
  intros Hi Hset Hlater.
  unfold stateAt. replace b with ((i - 1) + 1 + (b - i)) by lia. rewrite !segment_app by lia.
  replace (1 + (i - 1)) with i by lia. change (segment log i 1) with [log i].
  unfold updatesOf. rewrite !omap_app. change (omap update [log i]) with
    (match update (log i) with Some x => [x] | None => [] end). rewrite Hset.
  unfold replay. rewrite foldl_app. change (foldl apply_kv ?m) with (replay m).
  rewrite replay_lookup_other; [apply replay_lookup_last|].
  apply Forall_forall. intros x (e&He&Hx)%list_elem_of_omap.
  apply list_elem_of_fmap in He as (j&->&Hj%elem_of_seqZ). apply (Hlater j); [lia|done].
Qed.
Lemma proposeLoop_one env ps prop s h :
  proposeOpen ps = true → confChangeOpen ps = true →
  proposeLoop env [ProposeC (Some prop)] ps s h = (Ret ps, s, h ++ [NodePropose (Message:=Message) (HardState:=HardState) prop]).
Proof.
  intros Ho Hc. apply wp_eq. cbn [proposeLoop]. rewrite Ho, Hc. cbn [andb proposeStep]. wp_steps.
  rewrite Ho, Hc. by wp_steps.
Qed.
Lemma get_answers env k v st body h :
  kvStore st ≫= (.!! k) = Some v →
  ServeHTTP env (mkRequest "GET" k body) st h = (Ret tt, st, h ++ [Write v]).
Proof.
  intros Hk. apply wp_eq. unfold ServeHTTP. cbn [Method RequestURI]. rewrite decide_False, decide_True by done.
  wp_step. apply wp_Lookup. rewrite Hk. by wp_steps.
Qed.

End log.
End Cluster.

Module ClusterExamples.
Import RaftExamples KvExamples.
(** a is set to 1 and to 2 in turn. *)
Definition log2 (i : Z) : Entry :=
  mkEntry i EntryNormal (pos_string (encode ("a", if Z.odd i then "1" else "2"))).
Definition part (lo n : Z) : loopInput (Message:=unit) (HardState:=unit) :=
  ReadyC (mkReady tt [] (mkSnapshot "" [] 0 0) (segment log2 lo n) []).
Definition walEnv (ents : list Entry) (h : list event0) (e : event0) : response e :=
  match e with WalReadAll => inl (tt, ents) | e' => env0 h e' end.
(** One replica is new and gets two entries, the other one has an entry in its log, gets
    it again with the next, and then two more. *)
Definition new : replica := mkReplica 1 ["http://a"; "http://b"] false (walEnv []) envNone [part 1 2].
Definition old : replica :=
  mkReplica 2 ["http://a"; "http://b"] false (walEnv [log2 1]) envNone [part 1 2; Tick; part 2 3].
(** A third one joins, is sent a snapshot at index 3, and then an entry it has already and
    the next one. *)
Definition snap3 : Snapshot := mkSnapshot (pos_string (encode (Some (stateAt log2 3)))) [] 3 1.
Definition loadSnap3 (h : list kvEvent) (e : kvEvent) : kvResponse e :=
  match e with
  | ProposeC_send _ => tt
  | Snapshotter_Load => match h with [] => ErrNoSnapshot | _ => Loaded snap3 end
  | ErrorC_recv => None
  end.
Definition joined : replica :=
  mkReplica 3 ["http://a"; "http://b"; "http://c"] true (walEnv []) loadSnap3
    [ReadyC (mkReady tt [] snap3 (segment log2 3 2) [])].
Lemma env_clean ents r :
  renv r = walEnv ents → (∀ e, last ents = Some e → 1 ≤ Index e) → CleanNode r.
Proof.
  intros Hr He. split; rewrite Hr; simpl; [done|by intros h sn [= <-]|].
  intros h st ents' e [= _ <-]. apply He.
Qed.
#[local] Instance new_clean : NoSnapshot new.
Proof. split; [by apply (env_clean [])|done]. Qed.
#[local] Instance old_clean : NoSnapshot old.
Proof. split; [|done]. apply (env_clean [log2 1]); [done|]. intros e [= <-]. simpl. lia. Qed.
#[local] Instance joined_joins : Joins log2 joined [snap3].
Proof.
  split.
  - by apply (env_clean []).
  - by intros (h&st&ents&e&[= _ <-]&He).
  - done.
  - intros [|j] sn Hj; [by injection Hj as <-|done].
  - intros sn ->%list_elem_of_singleton. simpl. unfold dec. rewrite string_pos_string. simpl.
    by rewrite decode_encode.
Qed.
Lemma log2_decodes i : gobDecode (Data (log2 i)) = inl (mkKv "a" (if Z.odd i then "1" else "2")).
Proof. simpl. unfold dec. rewrite string_pos_string. simpl. by rewrite decode_encode. Qed.
Lemma new_upTo : upTo noSnap noConf log2 new 2 (runNode noSnap noConf new).2.
Proof.
  eexists. split; [vm_compute; reflexivity|]. left. split; [apply _|].
  eapply deliver_ready with (lo := 1) (n := 2); [done|done|lia..|]. apply deliver_nil.
Qed.
Lemma old_upTo : upTo noSnap noConf log2 old 4 (runNode noSnap noConf old).2.
Proof.
  eexists. split; [vm_compute; reflexivity|]. left. split; [apply _|].
  eapply deliver_ready with (lo := 1) (n := 2); [done|done|lia..|]. apply deliver_tick.
  eapply deliver_ready with (lo := 2) (n := 3); [done|done|lia..|]. apply deliver_nil.
Qed.
Lemma joined_upTo : upTo noSnap noConf log2 joined 4 (runNode noSnap noConf joined).2.
Proof.
  eexists. split; [vm_compute; reflexivity|]. right. exists [snap3]. split; [apply _|].
  apply (inst_ready noSnap log2 0 (mkReady tt [] snap3 (segment log2 3 2) []) 3 2 [] [] 4);
    [by intros _|done|by vm_compute|lia|lia|]. apply inst_nil.
Qed.
End ClusterExamples.
