(* ===== verification/RaftServe.v ===== *)
(** * goraft-explore: listener and start (src/goraft-explore/)

    The stoppable listener (listener.go) as a transition system of [Accept], the
    goroutine that accepts and whoever closes the stop channel; [serveHttpKVAPI]
    (httpapi.go) and [main] (main.go). *)
From stdpp Require Import base strings numbers list relations.
From S2P Require Import Prelude GoStrings GoTime.
Local Open Scope Z_scope.
Set Default Proof Using "Type*".

(** ** The listener *)
Module Listener.
(** Connections are numbered. *)
Inductive acceptor := Accepting | Ended.
Record state := mkState {
  goroutine : acceptor;
  connc : option nat;                  (* both channels have room for one value *)
  errc : option error;
  stopped : bool;                      (* stopc is closed *)
  answer : option (result nat);        (* what Accept has returned *)
  keepAlive : list nat;                (* connections with keep-alive set *)
}.
Definition stoppedError : error := "server stopped".

Inductive step : state → state → Prop :=
  | step_accept s a k c :                    (* AcceptTCP returns a connection *)
      step (mkState Accepting None None s a k) (mkState Ended (Some c) None s a k)
  | step_fail s a k e :
      step (mkState Accepting None None s a k) (mkState Ended None (Some e) s a k)
  | step_stop g cc ec s a k : step (mkState g cc ec s a k) (mkState g cc ec true a k)
  | step_select_stop g cc ec k :
      step (mkState g cc ec true None k) (mkState g cc ec true (Some (inr stoppedError)) k)
  | step_select_err g cc e s k :
      step (mkState g cc (Some e) s None k) (mkState g cc None s (Some (inr e)) k)
  | step_select_conn g c ec s k :
      step (mkState g (Some c) ec s None k) (mkState g None ec s (Some (inl c)) (c :: k)).
Definition init : state := mkState Accepting None None false None [].
Definition reachable (s : state) : Prop := rtc step init s.

(** Where the result of the goroutine is. *)
Definition inv (s : state) : Prop :=
  match goroutine s with
  | Accepting => connc s = None ∧ errc s = None ∧ keepAlive s = [] ∧
                 (answer s = None ∨ answer s = Some (inr stoppedError) ∧ stopped s = true)
  | Ended =>
      (∃ c, connc s = Some c ∧ errc s = None ∧ keepAlive s = [] ∧
            (answer s = None ∨ answer s = Some (inr stoppedError) ∧ stopped s = true)) ∨
      (∃ e, connc s = None ∧ errc s = Some e ∧ keepAlive s = [] ∧
            (answer s = None ∨ answer s = Some (inr stoppedError) ∧ stopped s = true)) ∨
      (∃ c, connc s = None ∧ errc s = None ∧ answer s = Some (inl c) ∧ keepAlive s = [c]) ∨
      (∃ e, connc s = None ∧ errc s = None ∧ answer s = Some (inr e) ∧ keepAlive s = [])
  end.
Lemma inv_step_listener s s' : step s s' → inv s → inv s'.
Proof.
  unfold inv. destruct 1 as [s a k c|s a k e|[] cc ec s a k|[] cc ec k|[] cc e s k|[] c ec s k];
    simpl; intros Hi; destruct_and?; destruct_or?; try destruct Hi as (? & ? & Hi);
    destruct_and?; destruct_or?; destruct_and?; simplify_eq; eauto 20.
Qed.
Lemma inv_reachable_listener s : reachable s → inv s.
Proof.
  intros H. unfold reachable in H. assert (inv init) as Hi by (unfold inv; simpl; auto).
  revert Hi. induction H as [|s1 s2 s3 Hs _ IH]; [done|]. intros Hi. by eapply IH, inv_step_listener.
Qed.

(** [Accept] returns a connection only if the goroutine accepted it and after
    keep-alive was set on it, and on no other; a connection that was accepted is in the
    channel or was returned, never both; and "server stopped" comes only from the stop
    channel or the system. *)
Theorem accept_result s :
  reachable s →
  (∀ c, answer s = Some (inl c) → keepAlive s = [c] ∧ connc s = None ∧ goroutine s = Ended) ∧
  (∀ c, connc s = Some c → ∀ c', answer s ≠ Some (inl c')) ∧
  (∀ c, c ∈ keepAlive s → answer s = Some (inl c)) ∧
  (answer s = Some (inr stoppedError) → stopped s = true ∨ goroutine s = Ended).
Proof.
  intros Hi%inv_reachable_listener. destruct s as [g cc ec st a k]. unfold inv in Hi. simpl in *.
  destruct g; destruct_and?; destruct_or?; try destruct Hi as (? & ? & Hi);
    destruct_and?; destruct_or?; destruct_and?; simplify_eq; split_and!; intros; set_unfold;
    destruct_or?; simplify_eq; auto.
Qed.

(** A connection that is accepted while the server stops stays in the channel, open, and
    nothing takes it out. *)
Definition leaked : state := mkState Ended (Some 0%nat) None true (Some (inr stoppedError)) [].
Lemma leaked_reachable : reachable leaked.
Proof.
  unfold reachable. eapply rtc_l; [apply step_stop|]. eapply rtc_l; [apply step_select_stop|].
  eapply rtc_l; [apply (step_accept _ _ _ 0%nat)|]. apply rtc_refl.
Qed.
Lemma leaked_forever s : rtc step leaked s → s = leaked.
Proof.
  remember leaked as s0 eqn:Hs. intros H. induction H as [|s0 s1 s2 Hstep _ IH]; [done|].
  subst. assert (s1 = leaked) as Heq by (inversion Hstep; subst; done). by rewrite (IH Heq).
Qed.
Definition served : state := mkState Ended None None false (Some (inl 7%nat)) [7%nat].
Lemma served_reachable : reachable served.
Proof.
  unfold reachable. eapply rtc_l; [apply (step_accept _ _ _ 7%nat)|].
  eapply rtc_l; [apply step_select_conn|]. apply rtc_refl.
Qed.
Lemma accept_result_witness : keepAlive served = [7%nat] ∧ connc served = None ∧ goroutine served = Ended.
Proof. exact (proj1 (accept_result served served_reachable) 7%nat eq_refl). Defined.
End Listener.

(** ** The server and the start *)
Inductive event :=
  | NewRaftNode (id : Z) (peers : list string) (join : bool)
  | SnapshotterReady
  | NewKVStore
  | Listen (addr : string)              (* newStoppableListener *)
  | GoListenAndServe (addr : string)
  | ErrorC                              (* the receive from errorC *)
  | CloseProposeC
  | CloseConfChangeC.
(** What the wait for the raft node ends with: a value from errorC, its closing, or an error
    that the goroutine of the server gets from ListenAndServe meanwhile. *)
Inductive waited := NodeError (e : error) | NodeClosed | ServeError (e : error).
Definition answer (e : event) : Type :=
  match e with ErrorC => waited | Listen _ => option error | _ => unit end.

Section Serve.
Context (env : list event → ∀ e, answer e).
Abbreviation sio := (io unit event).
Abbreviation do e := (call env e).

Definition newStoppableListener (addr : string) : sio (option error) := do (Listen addr).

Definition serveHttpKVAPI (port : Z) : sio unit :=
  emit (GoListenAndServe (":" +:+ itoa port)) ;;
  w ← do ErrorC;
  match w with
  | ServeError e => fatal e             (* in the goroutine *)
  | NodeError e => fatal e
  | NodeClosed => mret tt
  end.
Definition main (id : Z) (cluster : string) (join : bool) (kvport : Z) : sio unit :=
  deferring (emit CloseProposeC) (deferring (emit CloseConfChangeC) (
    emit (NewRaftNode id (split comma cluster) join) ;;
    emit SnapshotterReady ;;
    emit NewKVStore ;;
    serveHttpKVAPI kvport)).

(** The start and the end of a node: the process ends with the error of the raft node or of
    the server, or the channels are closed, once each, when the node has ended without one. *)
Lemma node_run id cluster join kvport :
  let h := [NewRaftNode id (split comma cluster) join; SnapshotterReady; NewKVStore;
            GoListenAndServe (":" +:+ itoa kvport)] in
  main id cluster join kvport tt [] =
  match env h ErrorC with
  | NodeError e | ServeError e => (Exit e, tt, h ++ [ErrorC])
  | NodeClosed => (Ret tt, tt, h ++ [ErrorC; CloseConfChangeC; CloseProposeC])
  end.
Proof.
  cbv zeta. apply wp_eq. unfold main, serveHttpKVAPI. wp_steps. simpl app.
  destruct (env _ ErrorC); wp_steps; done.
Qed.
End Serve.
