(* ===== verification/Jojo.v ===== *)
(** * The DNS proxy jojo (src/jojo/jojo.go): upstream servers and messages

    The table of upstream servers with its list of live servers, the choice of a
    server by hash, failure counting, probing, and the pure functions on DNS
    messages.  miekg/dns and siphash are parameters. *)
From stdpp Require Import base gmap strings numbers list.
From S2P Require Import Prelude GoStrings Float64.
Local Open Scope Z_scope.

(** ** Constants *)
Definition BayesianAverageC : Z := 100.
Definition NegCacheMinTTL : Z := 600.
Definition MinTTL : Z := 60.
Definition MaxTTL : Z := 604800.
Definition MaxUint64 : Z := 2 ^ 64 - 1.       (* math.MaxUint64 *)
Definition DefaultMsgSize : Z := 4096.      (* dns.DefaultMsgSize *)
Definition MinMsgSize : Z := 512.           (* dns.MinMsgSize *)
Definition ClassINET : Z := 1.              (* dns.ClassINET *)
Definition TypeOPT : Z := 41.
Definition TypeANY : Z := 255.
Definition TypeHINFO : Z := 13.

(** ** Upstream servers *)
Record UpstreamServer := mkServer { addr : string; failures : Z; offline : bool }.

Record UpstreamServers := mkUpstream {
  servers : list UpstreamServer;
  live : list string;
}.

(** The mean round-trip time of the current period. *)
Record UpstreamRTT := mkRTT { RTT : f64; count : f64 }.

Record upstreamState := mkUp { upstream : UpstreamServers; upstreamRtt : UpstreamRTT }.

Definition parseUpstreamServers (str : string) : UpstreamServers :=
  let addrs := split comma str in
  mkUpstream ((λ a, mkServer a 0 false) <$> addrs) addrs.

Definition resetRTT (st : upstreamState) : upstreamState :=
  mkUp (upstream st) (mkRTT (of_int 0) (of_int 0)).

Definition resetUpstreamServersNoLock (st : upstreamState) : upstreamState :=
  let u := upstream st in
  if decide (length (servers u) = length (live u)) then st
  else
    resetRTT (mkUp (mkUpstream ((λ s, mkServer (addr s) 0 false) <$> servers u)
                               (addr <$> servers u)) (upstreamRtt st)).

Section Upstream.
Context (maxFailures : Z).

(** The first loop of [markFailed]: count a failure of the first server with the
    address; [true] when the function returns from within the loop. *)
Fixpoint countFailure (a : string) (ss : list UpstreamServer) : bool * list UpstreamServer :=
  match ss with
  | [] => (false, [])
  | s :: ss' =>
      if decide (addr s ≠ a) then
        let '(r, ss'') := countFailure a ss' in (r, s :: ss'')
      else if offline s then (true, ss)
      else
        let f := u64 (failures s + 1) in
        (bool_decide (f < maxFailures), mkServer (addr s) f (offline s) :: ss')
  end.

(** The second loop: take the server off line, collect the others that are live. *)
Definition takeOffline (a : string) (ss : list UpstreamServer) : UpstreamServers :=
  mkUpstream
    ((λ s, if decide (addr s = a) then mkServer (addr s) (failures s) true else s) <$> ss)
    (addr <$> filter (λ s, addr s ≠ a ∧ offline s = false) ss).

Definition markFailed (a : string) (st : upstreamState) : upstreamState :=
  let '(returned, ss) := countFailure a (servers (upstream st)) in
  let st := mkUp (mkUpstream ss (live (upstream st))) (upstreamRtt st) in
  if returned : bool then st
  else if decide (length (live (upstream st)) ≤ 1)%nat then resetUpstreamServersNoLock st
  else mkUp (takeOffline a ss) (upstreamRtt st).

(** ** Probing *)
(** [probe a]: the answer of the server to a query, [None] on an error. *)
Context (maxRTT : f64).

Fixpoint probeServers (probe : string → option Z) (ss : list UpstreamServer) :
    list UpstreamServer * list string :=
  match ss with
  | [] => ([], [])
  | s :: ss' =>
      let '(rest, lv) := probeServers probe ss' in
      if bool_decide (offline s = false ∧ failures s > 0) then (s :: rest, addr s :: lv)
      else
        match probe (addr s) with
        | Some rtt =>
            if fltb (seconds rtt) maxRTT then (mkServer (addr s) 0 false :: rest, addr s :: lv)
            else (s :: rest, lv)
        | None => (s :: rest, lv)
        end
  end.
Definition probeUpstreamServers (probe : string → option Z) (st : upstreamState) : upstreamState :=
  let '(ss, lv) := probeServers probe (servers (upstream st)) in
  resetRTT (mkUp (mkUpstream ss lv) (upstreamRtt st)).

(** ** The choice of a server *)
Definition bucket (h liveCount : Z) : Z :=
  let i := h `div` (MaxUint64 `div` liveCount) in
  if decide (liveCount ≤ i) then liveCount - 1 else i.

(** [pickUpstream] after hashing: [h] is the 64-bit hash of the name. *)
Definition pickServer (h : Z) (u : UpstreamServers) : outcome (result string) :=
  let liveCount := Z.of_nat (length (live u)) in
  if decide (liveCount ≤ 0) then Ret (inr "All upstream servers are down")
  else
    match live u !! Z.to_nat (bucket h liveCount) with
    | Some res => Ret (inl res)
    | None => Panic "index out of range"
    end.
End Upstream.

(** ** DNS messages, as far as the proxy looks into them *)
Record Question := mkQuestion { Name : string; Qtype : Z; Qclass : Z }.
Record RR := mkRR
  { rrName : string; Rrtype : Z; rrClass : Z; Ttl : Z; rrDo : bool; rdata : string }.
Record MsgHdr := mkHdr { Id : Z; Response : bool; Truncated : bool; hdrRest : Z }.
Record Msg := mkMsg {
  Hdr : MsgHdr;
  Questions : list Question;
  Answer : list RR;
  Ns : list RR;
  Extra : list RR;
  Compress : bool;
}.

Record CacheKey := mkKey { keyName : string; keyQtype : Z; DNSSEC : bool }.
Record CacheVal := mkVal { ValidUntil : Z; cached : Msg }.
Record LocalRR := mkLocal { localName : string; localRR : RR }.

#[global] Instance CacheKey_eq_dec : EqDecision CacheKey.
Proof. solve_decision. Defined.

(** [Do()] of the last OPT record. *)
Definition dnssecOf (extra : list RR) : bool :=
  foldl (λ d rr, if decide (Rrtype rr = TypeOPT) then rrDo rr else d) false extra.

(** Names are in presentation format, in which bytes outside of ASCII are escaped. *)
Definition getKey (countLabel : string → Z) (minLabels : Z) (req : Msg) : result CacheKey :=
  match Questions req with
  | [q] =>
      if decide (Qclass q ≠ ClassINET) then inr "Unsupported question class"
      else if decide (countLabel (Name q) < minLabels) then inr "Not enough labels"
      else inl (mkKey (toLower (Name q)) (Qtype q) (dnssecOf (Extra req)))
  | _ => inr "Invalid number of questions"
  end.

(** [IsEdns0] and [UDPSize] of miekg/dns as parameters. *)
Definition getMaxPayloadSize (IsEdns0 : Msg → option RR) (UDPSize : RR → Z) (req : Msg) : Z :=
  match IsEdns0 req with
  | None => MinMsgSize
  | Some opt => let n := UDPSize opt in if decide (n < MinMsgSize) then MinMsgSize else n
  end.

Definition minTtl (rrs : list RR) : Z :=
  foldl (λ ttl rr, if decide (Ttl rr < ttl) then Ttl rr else ttl) MaxTTL rrs.
Definition getMinTTL (resp : Msg) : Z :=
  match Answer resp with
  | [] => NegCacheMinTTL * Second
  | rrs =>
      let ttl := minTtl rrs in
      let ttl := if decide (ttl < MinTTL) then MinTTL else ttl in
      i64 (ttl * Second)
  end.

(** ** Invariants of the table *)
#[local] Arguments filter : simpl never.
Definition online (ss : list UpstreamServer) : list string :=
  addr <$> filter (λ s, offline s = false) ss.

(** The live list names servers of the table that are not off line, in the order
    of the table, and the addresses of the table are distinct. *)
Definition wf (u : UpstreamServers) : Prop :=
  NoDup (addr <$> servers u) ∧
  live u `sublist_of` online (servers u).

Definition flags (ss : list UpstreamServer) : list (string * bool) :=
  (λ s, (addr s, offline s)) <$> ss.

Lemma flags_addr ss ss' : flags ss = flags ss' → addr <$> ss = addr <$> ss'.
Proof. unfold flags. intros H. apply (f_equal (fmap fst)) in H. by rewrite <- !list_fmap_compose in H. Qed.
Lemma flags_online ss ss' : flags ss = flags ss' → online ss = online ss'.
Proof.
  unfold online. revert ss'. induction ss as [|s ss IH]; intros [|s' ss'] H; try done.
  injection H as Ha Ho H. rewrite !filter_cons, Ho. case_decide; simpl;
    [rewrite Ha; f_equal|]; by apply IH.
Qed.
Lemma wf_flags ss ss' lv : flags ss = flags ss' → wf (mkUpstream ss lv) → wf (mkUpstream ss' lv).
Proof.
  intros H [Hnd Hl]. split; simpl in *.
  - by rewrite <- (flags_addr _ _ H).
  - by rewrite <- (flags_online _ _ H).
Qed.

Lemma countFailure_flags mf a ss r ss' : countFailure mf a ss = (r, ss') → flags ss' = flags ss.
Proof.
  revert r ss'. induction ss as [|s ss IH]; intros r ss'; simpl; [by intros [= <- <-]|].
  case_decide.
  - destruct (countFailure mf a ss) as [r1 ss1] eqn:E. intros [= <- <-]. simpl.
    f_equal. by eapply IH.
  - destruct (offline s) eqn:Ho; intros [= <- <-]; simpl; by rewrite ?Ho.
Qed.

(** Resetting makes every server of the table live. *)
Lemma reset_all ss :
  online ((λ s, mkServer (addr s) 0 false) <$> ss) = addr <$> ss.
Proof. unfold online. induction ss as [|s ss IH]; simpl; [done|]. by f_equal. Qed.
Lemma wf_reset st : wf (upstream st) → wf (upstream (resetUpstreamServersNoLock st)).
Proof.
  intros [Hnd Hl]. unfold resetUpstreamServersNoLock. case_decide; [done|]. split; simpl.
  - by rewrite <- list_fmap_compose.
  - by rewrite reset_all.
Qed.

Lemma takeOffline_online a ss :
  online (servers (takeOffline a ss)) = live (takeOffline a ss).
Proof.
  unfold online, takeOffline. cbn [servers live]. induction ss as [|s ss IH]; [done|].
  rewrite fmap_cons, !filter_cons.
  destruct (decide (addr s = a)), (offline s) eqn:Ho; repeat case_decide; simpl in *;
    destruct_and?; try congruence; try (f_equal; exact IH); naive_solver.
Qed.
Lemma takeOffline_addr a ss : addr <$> servers (takeOffline a ss) = addr <$> ss.
Proof.
  simpl. rewrite <- list_fmap_compose. apply list_fmap_ext. intros i s _. simpl. by case_decide.
Qed.
Lemma wf_takeOffline a ss : NoDup (addr <$> ss) → wf (takeOffline a ss).
Proof.
  intros Hnd. split.
  - by rewrite takeOffline_addr.
  - by rewrite <- takeOffline_online.
Qed.
(** What is left live is what was on line, less the server. *)
Lemma takeOffline_filter a ss :
  live (takeOffline a ss) = filter (λ x, x ≠ a) (online ss).
Proof.
  unfold online. cbn [takeOffline live]. induction ss as [|s ss IH]; [done|].
  rewrite !filter_cons. destruct (offline s) eqn:Ho; repeat case_decide; destruct_and?; try naive_solver;
    rewrite ?fmap_cons, ?filter_cons; repeat case_decide; try naive_solver; by f_equal.
Qed.
Lemma elem_of_online x ss : x ∈ online ss ↔ ∃ s, s ∈ ss ∧ addr s = x ∧ offline s = false.
Proof.
  unfold online. rewrite list_elem_of_fmap. setoid_rewrite list_elem_of_filter. naive_solver.
Qed.

(** A server that is taken off line was not the only live one. *)
Lemma takeOffline_live a ss lv :
  NoDup (addr <$> ss) → lv `sublist_of` online ss → (2 ≤ length lv)%nat →
  live (takeOffline a ss) ≠ [].
Proof.
  intros Hnd Hsub Hlen Hnil.
  assert (NoDup lv) as Hlv.
  { eapply sublist_NoDup; [|exact Hsub]. eapply sublist_NoDup; [exact Hnd|].
    apply fmap_sublist, sublist_filter. }
  assert (∀ x, x ∈ lv → x = a) as Hall.
  { intros x Hx. destruct (decide (x = a)) as [->|Hne]; [done|].
    assert (x ∈ online ss) as (s&Hs&<-&Ho)%elem_of_online by by eapply elem_of_sublist.
    assert (addr s ∈ live (takeOffline a ss)) as Hin.
    { simpl. apply list_elem_of_fmap_2. by apply list_elem_of_filter. }
    rewrite Hnil in Hin. by apply elem_of_nil in Hin. }
  destruct lv as [|x [|y lv]]; simpl in Hlen; [lia..|].
  rewrite (Hall x), (Hall y) in Hlv by set_solver.
  apply NoDup_cons in Hlv as [Hni _]. set_solver.
Qed.

Lemma probeServers_spec mr probe ss ss' lv :
  probeServers mr probe ss = (ss', lv) →
  addr <$> ss' = addr <$> ss ∧ lv `sublist_of` online ss'.
Proof.
  unfold online. revert ss' lv. induction ss as [|s ss IH]; intros ss' lv; simpl; [by intros [= <- <-]|].
  destruct (probeServers mr probe ss) as [rest lv'] eqn:E.
  destruct (IH _ _ eq_refl) as [Ha Hs]. case_bool_decide as Hup.
  - intros [= <- <-]. rewrite filter_cons_True by naive_solver. rewrite !fmap_cons.
    split; [by f_equal|by apply sublist_skip].
  - assert (lv' `sublist_of` (addr <$> filter (λ s, offline s = false) (s :: rest))) as Hskip.
    { rewrite filter_cons. case_decide; [by apply sublist_cons|done]. }
    destruct (probe (addr s)) as [rtt|]; [destruct (fltb _ _)|]; intros [= <- <-];
      (split; [rewrite !fmap_cons; by f_equal|]); [|done|done].
    rewrite filter_cons_True by done. by apply sublist_skip.
Qed.

(** ** The buckets of the hash space *)
Lemma bucket_iff h n i :
  0 < n ≤ MaxUint64 → 0 ≤ h → 0 ≤ i < n →
  bucket h n = i ↔
  i * (MaxUint64 `div` n) ≤ h ∧ (i < n - 1 → h < (i + 1) * (MaxUint64 `div` n)).
Proof.
  intros Hn Hh Hi. unfold bucket. set (w := MaxUint64 `div` n).
  assert (0 < w) as Hw by (apply Z.div_str_pos; lia).
  pose proof (Z.div_mod h w ltac:(lia)) as Hq. pose proof (Z.mod_pos_bound h w Hw) as Hr.
  set (q := h `div` w) in *. case_decide; nia.
Qed.
Lemma bucket_range h n : 0 < n ≤ MaxUint64 → 0 ≤ h → 0 ≤ bucket h n < n.
Proof.
  intros Hn Hh. unfold bucket. case_decide; [lia|]. split; [|lia].
  apply Z.div_pos; [done|]. apply Z.div_str_pos. lia.
Qed.

(** The server picked is the one whose bucket the hash falls into. *)
Lemma pickServer_spec h u :
  0 ≤ h < 2 ^ 64 → live u ≠ [] → Z.of_nat (length (live u)) ≤ MaxUint64 →
  let n := Z.of_nat (length (live u)) in
  let w := MaxUint64 `div` n in
  ∃ i a, pickServer h u = Ret (inl a) ∧ live u !! i = Some a ∧
     Z.of_nat i * w ≤ h ∧ (Z.of_nat i < n - 1 → h < (Z.of_nat i + 1) * w).
Proof.
  intros Hh Hne Hmax n w. unfold pickServer. fold n.
  assert (0 < n) as Hn by (destruct (live u); [done|simpl in *; lia]).
  rewrite decide_False by lia.
  pose proof (bucket_range h n ltac:(lia) ltac:(lia)) as Hr.
  destruct (lookup_lt_is_Some_2 (live u) (Z.to_nat (bucket h n))) as [a Ha]; [lia|].
  exists (Z.to_nat (bucket h n)), a. rewrite Ha. split; [done|]. split; [done|].
  rewrite Z2Nat.id by lia. apply bucket_iff; [lia..|done].
Qed.
Lemma pickServer_live h u :
  0 ≤ h < 2 ^ 64 → live u ≠ [] → Z.of_nat (length (live u)) ≤ MaxUint64 →
  ∃ a, pickServer h u = Ret (inl a) ∧ a ∈ live u.
Proof.
  intros Hh Hne Hmax. destruct (pickServer_spec h u Hh Hne Hmax) as (i&a&Hp&Hi&_).
  exists a. split; [done|]. by eapply list_elem_of_lookup_2.
Qed.

Lemma reset_addr st :
  addr <$> servers (upstream (resetUpstreamServersNoLock st)) = addr <$> servers (upstream st).
Proof.
  unfold resetUpstreamServersNoLock. case_decide; [done|]. simpl. by rewrite <- list_fmap_compose.
Qed.
Lemma reset_live st :
  wf (upstream st) → live (upstream st) ≠ [] →
  live (upstream (resetUpstreamServersNoLock st)) ≠ [].
Proof.
  intros [_ Hl] Hne. unfold resetUpstreamServersNoLock. case_decide; [done|]. simpl.
  destruct (servers (upstream st)); [|done]. by apply sublist_nil_r in Hl.
Qed.

Lemma markFailed_spec mf a st :
  wf (upstream st) →
  wf (upstream (markFailed mf a st)) ∧
  addr <$> servers (upstream (markFailed mf a st)) = addr <$> servers (upstream st) ∧
  (live (upstream st) ≠ [] → live (upstream (markFailed mf a st)) ≠ []).
Proof.
  intros Hwf. unfold markFailed.
  destruct (countFailure mf a (servers (upstream st))) as [ret ss] eqn:Hc.
  apply countFailure_flags in Hc. pose proof (flags_addr _ _ Hc) as Haddr.
  assert (wf (mkUpstream ss (live (upstream st)))) as Hwf'.
  { destruct (upstream st) as [ss0 lv]. by apply (wf_flags ss0). }
  destruct ret; [done|]. cbn [upstream live]. case_decide as Hlen.
  - split; [by apply wf_reset|]. split; [by rewrite reset_addr|].
    intros Hne. by apply reset_live.
  - destruct Hwf' as [Hnd Hsub]. split; [by apply wf_takeOffline|].
    split; [by etrans; [apply takeOffline_addr|]|]. intros _.
    apply (takeOffline_live a ss (live (upstream st))); [done|done|lia].
Qed.
Lemma probe_spec mr probe st :
  wf (upstream st) →
  wf (upstream (probeUpstreamServers mr probe st)) ∧
  addr <$> servers (upstream (probeUpstreamServers mr probe st)) = addr <$> servers (upstream st).
Proof.
  intros [Hnd _]. unfold probeUpstreamServers.
  destruct (probeServers _ _ _) as [ss lv] eqn:E. apply probeServers_spec in E as [Ha Hs].
  split; [split|]; simpl; [by rewrite Ha|done|done].
Qed.

Lemma minTtl_spec rrs t :
  foldl (λ ttl rr, if decide (Ttl rr < ttl) then Ttl rr else ttl) t rrs ≤ t ∧
  (∀ rr, rr ∈ rrs → foldl (λ ttl rr, if decide (Ttl rr < ttl) then Ttl rr else ttl) t rrs ≤ Ttl rr) ∧
  (foldl (λ ttl rr, if decide (Ttl rr < ttl) then Ttl rr else ttl) t rrs = t ∨
   ∃ rr, rr ∈ rrs ∧
     foldl (λ ttl rr, if decide (Ttl rr < ttl) then Ttl rr else ttl) t rrs = Ttl rr).
Proof.
  revert t. induction rrs as [|rr rrs IH]; intros t; simpl.
  { repeat split; [lia|set_solver|by left]. }
  destruct (IH (if decide (Ttl rr < t) then Ttl rr else t)) as (H1&H2&H3).
  set (v := foldl _ _ rrs) in *. split; [|split].
  - case_decide; lia.
  - intros rr' [->|Hin]%elem_of_cons; [case_decide; lia|by apply H2].
  - destruct H3 as [H3|(rr'&?&?)]; [|right; exists rr'; set_solver].
    case_decide; [right; exists rr; set_solver|by left].
Qed.

(** The lifetime of a cached answer. *)
Lemma getMinTTL_spec resp :
  (Answer resp = [] → getMinTTL resp = 600 * Second) ∧
  (Answer resp ≠ [] →
     60 * Second ≤ getMinTTL resp ≤ 604800 * Second ∧
     (∀ rr, rr ∈ Answer resp → 60 ≤ Ttl rr → getMinTTL resp ≤ Ttl rr * Second) ∧
     (60 * Second < getMinTTL resp < 604800 * Second →
        ∃ rr, rr ∈ Answer resp ∧ getMinTTL resp = Ttl rr * Second)).
Proof.
  unfold getMinTTL. split; [by intros ->|]. intros Hne.
  destruct (Answer resp) as [|rr0 rrs]; [done|]. clear Hne.
  destruct (minTtl_spec (rr0 :: rrs) MaxTTL) as (H1&H2&H3). fold (minTtl (rr0 :: rrs)) in *.
  set (t := minTtl _) in *. unfold MaxTTL, MinTTL, Second in *. cbv zeta.
  rewrite wrapS_id by (first [lia | unfold inS; case_decide; lia]).
  split; [case_decide; lia|]. split.
  - intros rr Hrr Hge. specialize (H2 rr Hrr). case_decide; lia.
  - case_decide; [lia|]. destruct H3 as [H3|(rr&Hrr&H3)]; [lia|].
    intros _. exists rr. split; [done|]. by rewrite H3.
Qed.
Lemma getMinTTL_range resp : 60 * Second ≤ getMinTTL resp ≤ 604800 * Second.
Proof.
  destruct (getMinTTL_spec resp) as [H1 H2]. destruct (Answer resp).
  - rewrite H1 by done. unfold Second. lia.
  - by apply H2.
Qed.

(** Counting a failure of an on-line server of the table. *)
Lemma countFailure_app mf l1 s l2 :
  NoDup (addr <$> l1 ++ s :: l2) → offline s = false →
  countFailure mf (addr s) (l1 ++ s :: l2) =
    (bool_decide (u64 (failures s + 1) < mf),
     l1 ++ mkServer (addr s) (u64 (failures s + 1)) false :: l2).
Proof.
  intros Hnd Ho. induction l1 as [|s1 l1 IH]; simpl.
  - rewrite decide_False by (intros Hne; by apply Hne). by rewrite Ho.
  - apply NoDup_cons in Hnd as [Hni Hnd]. rewrite decide_True, IH; [done|done|].
    intros Heq. apply Hni. rewrite Heq. apply list_elem_of_fmap_2. set_solver.
Qed.
Lemma markFailed_below mf st l1 s l2 :
  NoDup (addr <$> servers (upstream st)) → servers (upstream st) = l1 ++ s :: l2 →
  offline s = false → 0 ≤ failures s → failures s + 1 < mf → mf < 2 ^ 64 →
  markFailed mf (addr s) st =
    mkUp (mkUpstream (l1 ++ mkServer (addr s) (failures s + 1) false :: l2) (live (upstream st)))
         (upstreamRtt st).
Proof.
  intros Hnd Heq Ho Hf Hlt Hmf. unfold markFailed. rewrite Heq in *.
  rewrite countFailure_app by done. rewrite wrapU_id by (unfold inU; lia).
  by rewrite bool_decide_eq_true_2 by done.
Qed.
Lemma markFailed_at mf st l1 s l2 :
  NoDup (addr <$> servers (upstream st)) → servers (upstream st) = l1 ++ s :: l2 →
  offline s = false → 0 ≤ failures s → failures s + 1 = mf → mf < 2 ^ 64 →
  (2 ≤ length (live (upstream st)))%nat →
  upstream (markFailed mf (addr s) st) =
    takeOffline (addr s) (l1 ++ mkServer (addr s) mf false :: l2).
Proof.
  intros Hnd Heq Ho Hf Hlt Hmf Hlen. unfold markFailed. rewrite Heq in *.
  rewrite countFailure_app by done. rewrite wrapU_id by (unfold inU; lia).
  rewrite bool_decide_eq_false_2 by lia. cbn [upstream live]. rewrite decide_False by lia.
  by rewrite Hlt.
Qed.
Lemma markFailed_iter mf st l1 s l2 n :
  NoDup (addr <$> servers (upstream st)) → servers (upstream st) = l1 ++ s :: l2 →
  offline s = false → 0 ≤ failures s → failures s + Z.of_nat n < mf → mf < 2 ^ 64 →
  Nat.iter n (markFailed mf (addr s)) st =
    mkUp (mkUpstream (l1 ++ mkServer (addr s) (failures s + Z.of_nat n) false :: l2)
            (live (upstream st))) (upstreamRtt st).
Proof.
  intros Hnd Heq Ho Hf. induction n as [|n IH]; intros Hlt Hmf.
  - destruct st as [[ss lv] r], s as [a f o]. simpl in *. subst. by rewrite Z.add_0_r.
  - rewrite Nat.iter_succ, IH by lia.
    set (s' := mkServer (addr s) (failures s + Z.of_nat n) false).
    change (addr s) with (addr s') at 1. rewrite (markFailed_below _ _ l1 s' l2); simpl; try done; try lia.
    + do 4 f_equal. f_equal. lia.
    + by rewrite Heq in Hnd; rewrite !fmap_app in *.
Qed.

(** ** Properties *)
(** A live server is dropped after exactly [maxFailures] counted failures:
    fewer leave the list of live servers as it is; that many take the server off
    line and leave the other on-line servers live, in order. *)
Theorem markFailed_threshold mf st s :
  wf (upstream st) → s ∈ servers (upstream st) → offline s = false → failures s = 0 →
  0 < mf < 2 ^ 64 → (2 ≤ length (live (upstream st)))%nat →
  (∀ n, Z.of_nat n < mf →
     live (upstream (Nat.iter n (markFailed mf (addr s)) st)) = live (upstream st)) ∧
  live (upstream (Nat.iter (Z.to_nat mf) (markFailed mf (addr s)) st)) =
    filter (λ a, a ≠ addr s) (online (servers (upstream st))).
Proof.
  intros [Hnd _] (l1&l2&Heq)%list_elem_of_split Ho Hf Hmf Hlen. split.
  - intros n Hn. rewrite (markFailed_iter mf st l1 s l2); [done|done|done|done|lia|lia|lia].
  - replace (Z.to_nat mf) with (S (Z.to_nat (mf - 1))) by lia. rewrite Nat.iter_succ.
    rewrite (markFailed_iter mf st l1 s l2); [|done|done|done|lia|lia|lia].
    set (s' := mkServer (addr s) (failures s + Z.of_nat (Z.to_nat (mf - 1))) false).
    change (addr s) with (addr s') at 1. rewrite (markFailed_at _ _ l1 s' l2); simpl; try done; try lia.
    2: { by rewrite Heq in Hnd; rewrite !fmap_app in *. }
    rewrite Heq. etrans; [apply takeOffline_filter|]. f_equal. apply flags_online. unfold flags.
    rewrite !fmap_app, !fmap_cons. by rewrite Ho.
Qed.

(** The table of upstream servers stays consistent: from distinct configured
    addresses on, failure marking, resets and probes keep the addresses of the
    table, keep the live list a sublist of the servers that are not off line, and
    marking a failure never empties a non-empty live list. *)
Theorem upstream_table_invariant mf mr a probe st :
  wf (upstream st) →
  wf (upstream (markFailed mf a st)) ∧ wf (upstream (resetUpstreamServersNoLock st)) ∧
  wf (upstream (probeUpstreamServers mr probe st)) ∧
  addr <$> servers (upstream (markFailed mf a st)) = addr <$> servers (upstream st) ∧
  (live (upstream st) ≠ [] → live (upstream (markFailed mf a st)) ≠ []).
Proof.
  intros Hwf. destruct (markFailed_spec mf a st Hwf) as (?&?&?).
  destruct (probe_spec mr probe st Hwf). auto using wf_reset.
Qed.

(** [pickUpstream] always answers: with an error exactly when no server is
    live, otherwise with a live server and without indexing out of range; the
    64-bit hash space is cut into equal intervals of [MaxUint64 / n] hashes, one
    for each live server, the last one taking the rest. *)
Theorem pickServer_balanced h u :
  0 ≤ h < 2 ^ 64 → Z.of_nat (length (live u)) ≤ MaxUint64 →
  let n := Z.of_nat (length (live u)) in
  let w := MaxUint64 `div` n in
  (live u = [] → pickServer h u = Ret (inr "All upstream servers are down")) ∧
  (live u ≠ [] → ∃ i a, pickServer h u = Ret (inl a) ∧ live u !! i = Some a ∧
     (Z.of_nat i * w ≤ h ∧ (Z.of_nat i < n - 1 → h < (Z.of_nat i + 1) * w))).
Proof.
  intros Hh Hmax n w. split; [|intros Hne; by apply pickServer_spec].
  intros Hnil. unfold pickServer. by rewrite Hnil.
Qed.

(** ** Examples *)
Module JojoExamples.
Definition table : upstreamState :=
  mkUp (mkUpstream [mkServer "8.8.8.8:53" 0 false; mkServer "8.8.4.4:53" 0 false;
                    mkServer "1.1.1.1:53" 0 false]
                   ["8.8.8.8:53"; "8.8.4.4:53"; "1.1.1.1:53"])
       (mkRTT (of_int 0) (of_int 0)).
Example table_parsed :
  parseUpstreamServers "8.8.8.8:53,8.8.4.4:53,1.1.1.1:53" = upstream table.
Proof. vm_compute. reflexivity. Qed.
Definition first : UpstreamServer := mkServer "8.8.8.8:53" 0 false.
(** A server that fails a probe is not live, but live again once another server is
    marked as failed: the probe leaves its flag as it is. *)
Example failed_probe_forgotten :
  let probe a := if decide (a = "8.8.4.4:53") then None else Some 1000 in
  let probed := probeUpstreamServers (flit 1 (-2)) probe table in
  live (upstream probed) = ["8.8.8.8:53"; "1.1.1.1:53"] ∧
  live (upstream (markFailed 1 "8.8.8.8:53" probed)) = ["8.8.4.4:53"; "1.1.1.1:53"].
Proof. vm_compute. split; reflexivity. Qed.

Lemma table_wf : wf (upstream table).
Proof.
  split; [by apply (bool_decide_unpack _)|]. vm_compute.
  repeat first [apply sublist_skip | apply sublist_nil].
Qed.

Lemma upstream_table_invariant_witness :
  live (upstream (markFailed 1 "8.8.8.8:53" table)) = ["8.8.4.4:53"; "1.1.1.1:53"] ∧
  wf (upstream (markFailed 1 "8.8.8.8:53" table)).
Proof.
  split; [by vm_compute|].
  exact (proj1 (upstream_table_invariant 1 (flit 1 (-2)) "8.8.8.8:53" (λ _, None) table table_wf)).
Defined.
Lemma markFailed_threshold_witness :
  live (upstream (Nat.iter (Z.to_nat 3) (markFailed 3 (addr first)) table)) =
    filter (λ a, a ≠ addr first) (online (servers (upstream table))).
Proof.
  refine (proj2 (markFailed_threshold 3 table first table_wf _ _ _ _ _)).
  - vm_compute. left.
  - reflexivity.
  - reflexivity.
  - lia.
  - by vm_compute; lia.
Defined.
Lemma pickServer_balanced_witness :
  pickServer (2 ^ 63) (upstream table) = Ret (inl "8.8.4.4:53") ∧
  ∃ i a, pickServer (2 ^ 63) (upstream table) = Ret (inl a) ∧ live (upstream table) !! i = Some a.
Proof.
  split; [by vm_compute|].
  destruct (pickServer_balanced (2 ^ 63) (upstream table)) as [_ H]; [lia|by vm_compute|].
  destruct H as (i&a&H1&H2&_); [done|]. exists i, a. exact (conj H1 H2).
Defined.
End JojoExamples.
