(* ===== verification/JojoRoute.v ===== *)
(** * The DNS proxy jojo (src/jojo/jojo.go): resolving and answering

    [syncResolve] on the table of upstream servers and the request handler
    [route].  The cache (golang-lru), the DNS clients, the response writer, the
    clock and the counter [slip], which other goroutines change, answer through
    the environment; the message functions of miekg/dns are parameters. *)
From stdpp Require Import base gmap strings numbers list.
From S2P Require Import Prelude GoStrings Float64 Jojo.
Local Open Scope Z_scope.
Set Default Proof Using "Type*".

(** ** One query to an upstream server *)
Module Sync.
(** What [Exchange] of a client returns. *)
Record exchange := mkExchange { xmsg : option Msg; xrtt : Z; xerr : option error }.

Inductive event :=
  | UdpExchange (req : Msg) (a : string)
  | TcpExchange (req : Msg) (a : string).

Section Sync.
Context (maxFailures : Z) (maxRTT : f64).
(** [siphash.Hash] under the secret key of the process. *)
Context (siphash : string → Z).
Context (env : list event → event → exchange).
Abbreviation sio := (io upstreamState event).

Definition pickUpstream (req : Msg) : sio (result string) :=
  match Questions req with
  | [] => panic "index out of range"
  | q :: _ =>
      let h := siphash (toLower (Name q)) in
      st ← get;
      match pickServer h (upstream st) with
      | Ret r => mret r
      | Panic msg => panic msg
      | Exit msg => fatal msg
      end
  end.

Definition addRTT (rtt : Z) (st : upstreamState) : upstreamState :=
  mkUp (upstream st)
    (mkRTT (fadd (RTT (upstreamRtt st)) (seconds rtt)) (fadd (count (upstreamRtt st)) (of_int 1))).
Definition meanRTT (st : upstreamState) : f64 :=
  fdiv (RTT (upstreamRtt st)) (fadd (count (upstreamRtt st)) (of_int BayesianAverageC)).

(** Whether the answer over UDP calls for another try over TCP. *)
Definition retryTcp (x : exchange) : bool :=
  bool_decide (xerr x ≠ None) ||
  match xmsg x with Some resolved => Truncated (Hdr resolved) | None => false end.

Definition syncResolve (req : Msg) : sio (option Msg * Z * option error) :=
  p ← pickUpstream req;
  match p with
  | inr err => mret (None, 0, Some err)
  | inl a =>
      udp ← call env (UdpExchange req a);
      x ← (if retryTcp udp then call env (TcpExchange req a) else mret udp);
      match xerr x with
      | Some err =>
          modify (markFailed maxFailures a) ;;
          mret (None, 0, Some err)
      | None =>
          modify (addRTT (xrtt x)) ;;
          st ← get;
          (if fgtb (meanRTT st) maxRTT then modify (markFailed maxFailures a) else mret tt) ;;
          mret (xmsg x, xrtt x, None)
      end
  end.

Lemma pickUpstream_run req q qs a st h :
  Questions req = q :: qs →
  pickServer (siphash (toLower (Name q))) (upstream st) = Ret (inl a) →
  pickUpstream req st h = (Ret (inl a), st, h).
Proof. intros Hq Hp. unfold pickUpstream, mbind, io_bind. rewrite Hq. simpl. by rewrite Hp. Qed.

(** A query goes to one live server: over UDP, and over TCP again exactly when
    that failed or the answer was truncated.  The last answer decides: an error is
    returned and counted against the server, an answer is returned and its
    round-trip time counted, against the server if the mean is now too long; either way the table stays well-formed, keeps its
    servers and keeps a live one. *)
Theorem syncResolve_spec req st h :
  Questions req ≠ [] → wf (upstream st) → live (upstream st) ≠ [] →
  Z.of_nat (length (live (upstream st))) ≤ MaxUint64 →
  (∀ name, 0 ≤ siphash name < 2 ^ 64) →
  ∃ a o st' ev, a ∈ live (upstream st) ∧
    let udp := env h (UdpExchange req a) in
    let tcp := env (h ++ [UdpExchange req a]) (TcpExchange req a) in
    let x := if retryTcp udp then tcp else udp in
    syncResolve req st h = (Ret o, st', h ++ ev) ∧
    ev = UdpExchange req a :: (if retryTcp udp then [TcpExchange req a] else []) ∧
    o = match xerr x with Some err => (None, 0, Some err) | None => (xmsg x, xrtt x, None) end ∧
    (xerr x ≠ None → st' = markFailed maxFailures a st) ∧
    (xerr x = None → st' = let st1 := addRTT (xrtt x) st in
                           if fgtb (meanRTT st1) maxRTT then markFailed maxFailures a st1 else st1) ∧
    wf (upstream st') ∧ live (upstream st') ≠ [] ∧
    addr <$> servers (upstream st') = addr <$> servers (upstream st).
Proof.
  intros Hq Hwf Hne Hmax Hsip. destruct (Questions req) as [|q qs] eqn:HQ; [done|].
  destruct (pickServer_live (siphash (toLower (Name q))) (upstream st)) as (a&Hp&Ha);
    [by apply Hsip|done|done|].
  exists a. unfold syncResolve, mbind, io_bind. rewrite (pickUpstream_run req q qs a) by done.
  cbn [call]. set (udp := env h (UdpExchange req a)).
  set (tcp := env (h ++ [UdpExchange req a]) (TcpExchange req a)).
  set (x := if retryTcp udp then tcp else udp).
  assert ((if retryTcp udp then call env (TcpExchange req a) else mret udp) st
            (h ++ [UdpExchange req a]) =
          (Ret x, st, h ++ UdpExchange req a ::
                       (if retryTcp udp then [TcpExchange req a] else []))) as Hx.
  { unfold x. destruct (retryTcp udp); simpl; [by rewrite <- app_assoc|done]. }
  rewrite Hx. clear Hx. destruct (xerr x) as [err|] eqn:Herr.
  - destruct (markFailed_spec maxFailures a st Hwf) as (?&?&?).
    do 3 eexists. split; [done|]. split; [done|]. split_and!; auto; done.
  - cbn [modify get]. destruct (fgtb _ _) eqn:Hslow; cbn.
    + destruct (markFailed_spec maxFailures a (addRTT (xrtt x) st) Hwf) as (?&?&?).
      do 3 eexists. split; [done|]. split; [done|]. split_and!; auto; done.
    + do 3 eexists. split; [done|]. split; [done|]. split_and!; auto; done.
Qed.
End Sync.
End Sync.

(** ** The request handler *)
Inductive event :=
  | CacheGet (k : CacheKey)
  | CacheAdd (k : CacheKey) (v : CacheVal)
  | Now
  | LoadSlip
  | CasSlip (old new : Z)
  | ResolverRing (req : Msg)      (* resolveViaResolverThreads *)
  | RemoteIsTCP
  | WriteMsg (m : Msg)
  | HandleFailed (m : Msg)
  | Close.
Definition response (e : event) : Type :=
  match e with
  | CacheGet _ => option CacheVal
  | Now | LoadSlip => Z
  | CasSlip _ _ | RemoteIsTCP => bool
  | ResolverRing _ => result (option Msg)
  | _ => unit
  end.

(** What the handler relies on of the resolver threads: a response without an error is
    a message, and it has the identifier of the request.  JojoServe.v shows that the
    threads keep this promise. *)
Class Resolver (env : list event → ∀ e, response e) : Prop :=
  resolver_replies : ∀ h req,
    match env h (ResolverRing req) with
    | inl (Some m) => Id (Hdr m) = Id (Hdr req)
    | inl None => False
    | inr _ => True
    end.

Section Route.
Context (minLabels : Z) (localRRS : list LocalRR).
(** The functions of miekg/dns. *)
Context (CountLabel : string → Z) (IsEdns0 : Msg → option RR) (UDPSize : RR → Z).
Context (SetEdns0 : Msg → Z → bool → Msg) (SetRcode : Msg → Z → Msg).
Context (Copy : Msg → Msg) (packedLen : Msg → Z).
Context (env : list event → ∀ e, response e).

(** The state is the request, which [resolve] changes in place. *)
Abbreviation rio := (io Msg event).
Abbreviation do e := (call env e).

Definition RcodeRefused : Z := 5.
Definition newMsg : Msg := mkMsg (mkHdr 0 false false 0) [] [] [] [] false.
Definition setId (id : Z) (m : Msg) : Msg :=
  mkMsg (mkHdr id (Response (Hdr m)) (Truncated (Hdr m)) (hdrRest (Hdr m)))
        (Questions m) (Answer m) (Ns m) (Extra m) (Compress m).
Definition setQuestions (qs : list Question) (m : Msg) : Msg :=
  mkMsg (Hdr m) qs (Answer m) (Ns m) (Extra m) (Compress m).
Definition setExtra (ex : list RR) (m : Msg) : Msg :=
  mkMsg (Hdr m) (Questions m) (Answer m) (Ns m) ex (Compress m).
Definition setCompress (m : Msg) : Msg :=
  mkMsg (Hdr m) (Questions m) (Answer m) (Ns m) (Extra m) true.

Definition resolve (dnssec : bool) : rio (result Msg) :=
  modify (λ req, setExtra (filter (λ rr, Rrtype rr ≠ TypeOPT) (Extra req)) req) ;;
  modify (λ req, SetEdns0 req DefaultMsgSize dnssec) ;;
  req ← get;
  r ← do (ResolverRing req);
  match r with
  | inr err => mret (inr err)
  | inl None => panic "nil pointer dereference"
  | inl (Some resolved) => mret (inl (setCompress resolved))
  end.

Definition truncatedResp (hdr : MsgHdr) : Msg :=
  mkMsg (mkHdr (Id hdr) true true (hdrRest hdr)) [] [] [] [] false.
Definition emptyResp (hdr : MsgHdr) : Msg :=
  mkMsg (mkHdr (Id hdr) true (Truncated hdr) (hdrRest hdr)) [] [] [] [] false.
Definition sendTruncated (hdr : MsgHdr) : rio unit :=
  isTCP ← do RemoteIsTCP;
  if isTCP : bool then emit (HandleFailed (emptyResp hdr))
  else emit (WriteMsg (truncatedResp hdr)).

Definition failWithRcode (rCode : Z) : rio unit :=
  r ← get;
  emit (WriteMsg (SetRcode r rCode)).

(** An answer made by the proxy itself. *)
Definition ownAnswer (id : Z) (rr : RR) : Msg :=
  mkMsg (mkHdr id true false 0) [] [rr] [] [] false.
Definition hinfo (name : string) : RR :=
  mkRR name TypeHINFO ClassINET 86400 false
    "ANY is not supported any more;See draft-jabley-dnsop-refuse-any".
Definition handleSpecialNames : rio bool :=
  req ← get;
  match Questions req with
  | [] => panic "index out of range"
  | question :: _ =>
      let nameLC := toLower (Name question) in
      match list_find (λ l, nameLC = localName l) localRRS with
      | Some (_, l) =>
          emit (WriteMsg (ownAnswer (Id (Hdr req)) (localRR l))) ;; mret true
      | None =>
          if decide (Qtype question ≠ TypeANY) then mret false
          else
            emit (WriteMsg (ownAnswer (Id (Hdr req)) (hinfo (Name question)))) ;; mret true
      end
  end.

(** [resp.Copy()] with the identifier and the question of the request. *)
Definition fromCache (v : CacheVal) (req : Msg) : Msg :=
  setQuestions (Questions req) (setId (Id (Hdr req)) (Copy (cached v))).

(** The last part of [route]: send the response, truncated when it is too long. *)
Definition reply (maxPayloadSize : Z) (resp : Msg) : rio unit :=
  if decide (maxPayloadSize < u16 (packedLen resp)) then sendTruncated (Hdr resp)
  else emit (WriteMsg resp).

(** Drop every other query while requests slip: [true] when this one is. *)
Definition slipped : rio bool :=
  slipValue ← do LoadSlip;
  if decide (0 < slipValue ∧ slipValue `mod` 2 = 0) then
    do (CasSlip slipValue (u32 (slipValue + 1))) ;;
    (if decide (slipValue `mod` 4 = 0) then
       req ← get; sendTruncated (Hdr req)
     else emit Close) ;;
    mret true
  else mret false.

(** [remaining > 0] for the cached value. *)
Definition fresh (now : Z) (v : CacheVal) : bool :=
  bool_decide (0 < i64 (- timeSub now (ValidUntil v))).

(** No fresh cached response: ask upstream, fall back on a stale one. *)
Definition resolveAndReply (key : CacheKey) (maxPayloadSize : Z) (cacheVal : option CacheVal) :
    rio unit :=
  s ← slipped;
  if s : bool then mret tt
  else
    r ← resolve (DNSSEC key);
    match r with
    | inl resp =>
        now ← do Now;
        do (CacheAdd key (mkVal (now + getMinTTL resp) resp)) ;;
        reply maxPayloadSize resp
    | inr _ =>
        match cacheVal with
        | None => emit Close
        | Some v => req ← get; reply maxPayloadSize (fromCache v req)
        end
    end.

Definition route : rio unit :=
  req ← get;
  match getKey CountLabel minLabels req with
  | inr _ => failWithRcode RcodeRefused
  | inl key =>
      special ← handleSpecialNames;
      if special : bool then mret tt
      else
        let maxPayloadSize := getMaxPayloadSize IsEdns0 UDPSize req in
        cacheVal ← do (CacheGet key);
        hit ← match cacheVal with
              | None => mret None
              | Some v =>
                  now ← do Now;
                  if fresh now v then mret (Some (fromCache v req)) else mret None
              end;
        match hit with
        | Some resp => reply maxPayloadSize resp
        | None => resolveAndReply key maxPayloadSize cacheVal
        end
  end.

(** ** Lemmas *)
Definition isReply (e : event) : bool :=
  match e with WriteMsg _ | HandleFailed _ | Close => true | _ => false end.
Definition replies (h : list event) : list event := filter isReply h.
(** A reply is for the request with the identifier [id]; closing the connection
    answers no one else either. *)
Definition repliesTo (id : Z) (e : event) : Prop :=
  match e with
  | WriteMsg m | HandleFailed m => Id (Hdr m) = id
  | Close => True
  | _ => False
  end.

(** [answered id h]: the postcondition of a handler started in history [h]. *)
Definition answered (id : Z) (h : list event) (o : outcome unit) (_ : Msg) (h' : list event) : Prop :=
  o = Ret tt ∧ ∃ e, repliesTo id e ∧ last h' = Some e ∧ replies h' = replies h ++ [e].

(** No one handles these names but the upstream servers. *)
Definition ordinary (req : Msg) : Prop :=
  ∃ q qs, Questions req = q :: qs ∧ Qtype q ≠ TypeANY ∧
          Forall (λ l, toLower (Name q) ≠ localName l) localRRS.

Lemma answered_emit id h0 h e s :
  repliesTo id e → replies h = replies h0 → answered id h0 (Ret tt) s (h ++ [e]).
Proof.
  intros He Hr. split; [done|]. exists e. split; [done|]. split; [by rewrite last_snoc|].
  unfold replies in *. rewrite filter_app, Hr. f_equal. destruct e; done.
Qed.
Lemma replies_snoc h e : isReply e = false → replies (h ++ [e]) = replies h.
Proof.
  intros He. unfold replies. rewrite filter_app. simpl. rewrite filter_cons_False, filter_nil, app_nil_r; [done|].
  intros H. by rewrite He in H.
Qed.

Lemma wp_sendTruncated h0 hdr s h :
  replies h = replies h0 → wp (sendTruncated hdr) (answered (Id hdr) h0) s h.
Proof.
  intros Hr. unfold sendTruncated. wp_steps. wp_if; wp_steps; apply answered_emit; try done;
    by rewrite replies_snoc.
Qed.
Lemma wp_reply id h0 n resp s h :
  Id (Hdr resp) = id → replies h = replies h0 → wp (reply n resp) (answered id h0) s h.
Proof.
  intros <- Hr. unfold reply. wp_if; [by apply wp_sendTruncated|]. wp_steps.
  by apply answered_emit.
Qed.
Lemma fromCache_Id v req : Id (Hdr (fromCache v req)) = Id (Hdr req).
Proof. done. Qed.

Lemma ordinary_special req s h Q :
  ordinary req → s = req → Q (Ret false) s h → wp handleSpecialNames Q s h.
Proof.
  intros (q&qs&Hq&Hany&Hloc) -> HQ. unfold handleSpecialNames. wp_steps. rewrite Hq.
  destruct (list_find _ localRRS) as [[i l]|] eqn:E.
  - apply list_find_Some in E as (Hl&Heq&_). rewrite Forall_lookup in Hloc. by destruct (Hloc _ _ Hl).
  - by rewrite decide_True by done.
Qed.

Section Answers.
(** What miekg/dns documents: an error reply, a copy and the added OPT record keep
    the identifier. *)
Context (SetRcode_Id : ∀ r c, Id (Hdr (SetRcode r c)) = Id (Hdr r)).
Context (SetEdns0_Hdr : ∀ r n d, Hdr (SetEdns0 r n d) = Hdr r).
Context `{!Resolver env}.

(** A step that may have answered already: it says so, or left all as it was. *)
Definition maybeAnswered (req : Msg) (h0 : list event) (o : outcome bool) (s : Msg)
    (h : list event) : Prop :=
  o = Ret true ∧ answered (Id (Hdr req)) h0 (Ret tt) s h ∨
  o = Ret false ∧ s = req ∧ replies h = replies h0.

Lemma wp_special h0 req h :
  replies h = replies h0 → (∃ q qs, Questions req = q :: qs) →
  wp handleSpecialNames (maybeAnswered req h0) req h.
Proof.
  intros Hr (q&qs&Hq). unfold handleSpecialNames. wp_steps. rewrite Hq.
  destruct (list_find _ _) as [[i l]|]; [|case_decide]; wp_steps; [left|by right|left];
    (split; [done|]); by apply answered_emit.
Qed.
Lemma wp_slipped h0 req h :
  replies h = replies h0 → wp slipped (maybeAnswered req h0) req h.
Proof.
  intros Hr. unfold slipped. wp_steps. wp_if; wp_steps.
  2: { right. by rewrite replies_snoc. }
  case_decide; wp_steps.
  - eapply wp_mono; [|apply (wp_sendTruncated h0); by rewrite !replies_snoc].
    intros o s h' [-> He]. wp_steps. by left.
  - left. split; [done|]. apply answered_emit; [done|]. by rewrite !replies_snoc.
Qed.
Lemma wp_resolve h0 d req h :
  replies h = replies h0 →
  wp (resolve d) (λ o s h', Hdr s = Hdr req ∧ replies h' = replies h0 ∧
        ((∃ m, o = Ret (inl m) ∧ Id (Hdr m) = Id (Hdr req)) ∨ ∃ err, o = Ret (inr err))) req h.
Proof.
  intros Hr. unfold resolve. wp_steps. set (req' := SetEdns0 _ _ _).
  assert (Hdr req' = Hdr req) as Hh by (unfold req'; by rewrite SetEdns0_Hdr).
  pose proof (resolver_replies h req') as Hres. destruct (env h (ResolverRing req')) as [[m|]|err] eqn:E;
    [|done|]; wp_steps; (split; [done|]); (split; [by rewrite replies_snoc|]).
  - left. eexists. split; [done|]. simpl. by rewrite Hres, Hh.
  - right. by eexists.
Qed.

Lemma wp_resolveAndReply h0 key n cv req h :
  replies h = replies h0 →
  wp (resolveAndReply key n cv) (answered (Id (Hdr req)) h0) req h.
Proof.
  intros Hr. unfold resolveAndReply. wp_steps. eapply wp_mono; [|by apply (wp_slipped h0)].
  intros o s h1 [[-> Ha]|(->&->&Hr1)]; [by wp_steps|].
  wp_steps. eapply wp_mono; [|by apply (wp_resolve h0)].
  intros o s h2 (Hh&Hr2&[(m&->&Hm)|(err&->)]); wp_steps.
  - apply wp_reply; [done|]. by rewrite !replies_snoc.
  - destruct cv as [v|]; wp_steps.
    + apply wp_reply; [|done]. by rewrite fromCache_Id, Hh.
    + by apply answered_emit.
Qed.

Lemma wp_route req h : wp route (answered (Id (Hdr req)) h) req h.
Proof.
  unfold route. wp_steps. destruct (getKey _ _ req) as [key|err] eqn:Hkey.
  2: { unfold failWithRcode. wp_steps. apply answered_emit; [|done]. apply SetRcode_Id. }
  assert (∃ q qs, Questions req = q :: qs) as Hq.
  { unfold getKey in Hkey. destruct (Questions req) as [|q [|? ?]]; [done| |done]. by exists q, []. }
  wp_steps. eapply wp_mono; [|by apply wp_special].
  intros o s h1 [[-> Ha]|(->&->&Hr)]; [by wp_steps|].
  wp_steps. destruct (env h1 (CacheGet key)) as [v|]; [|wp_steps].
  - wp_steps. destruct (fresh _ v); wp_steps.
    + apply wp_reply; [done|]. by rewrite !replies_snoc.
    + apply wp_resolveAndReply. by rewrite !replies_snoc.
  - apply wp_resolveAndReply. by rewrite replies_snoc.
Qed.

(** Every request is answered exactly once: [route] returns, its last action
    is the one call that writes a message, reports a failure or closes the
    connection, and a message it writes carries the identifier of the request,
    whatever the cache, the resolver threads, the clock and the other goroutines
    do. *)
Theorem route_answers_once req h :
  ∃ req' h' e, route req h = (Ret tt, req', h') ∧ repliesTo (Id (Hdr req)) e ∧
    last h' = Some e ∧ replies h' = replies h ++ [e].
Proof.
  pose proof (wp_route req h) as Hwp. unfold wp in Hwp. destruct (route req h) as [[o s'] h'].
  destruct Hwp as (->&e&?&?&?). by exists s', h', e.
Qed.
End Answers.

(** The events of sending a response: directly, or only its header marked as
    truncated when it is longer than the client takes. *)
Definition sends (n : Z) (resp : Msg) (h ev : list event) : Prop :=
  if decide (n < u16 (packedLen resp)) then
    ev = [RemoteIsTCP;
          if env h RemoteIsTCP : bool then HandleFailed (emptyResp (Hdr resp))
          else WriteMsg (truncatedResp (Hdr resp))]
  else ev = [WriteMsg resp].

Lemma reply_run n resp s h :
  ∃ ev, reply n resp s h = (Ret tt, s, h ++ ev) ∧ sends n resp h ev.
Proof.
  unfold reply, sends, sendTruncated. case_decide; [|by eexists].
  unfold mbind, io_bind. simpl. destruct (env h RemoteIsTCP); simpl; rewrite <- app_assoc;
    by eexists.
Qed.
Lemma special_run req h : ordinary req → handleSpecialNames req h = (Ret false, req, h).
Proof.
  intros Ho. assert (wp handleSpecialNames (λ o s h', (o, s, h') = (Ret false, req, h)) req h) as Hw.
  { by apply (ordinary_special req). }
  unfold wp in Hw. by destruct (handleSpecialNames req h) as [[??]?].
Qed.
Lemma fresh_spec now v : now < ValidUntil v < now + 2 ^ 63 → fresh now v = true.
Proof.
  intros Hv. apply bool_decide_eq_true. unfold timeSub.
  rewrite wrapS_id; unfold inS; lia.
Qed.
Lemma stale_spec now v : ValidUntil v ≤ now < ValidUntil v + 2 ^ 63 → fresh now v = false.
Proof.
  intros Hv. apply bool_decide_eq_false. unfold timeSub.
  rewrite wrapS_id; unfold inS; lia.
Qed.

(** C25: A cached response that is still valid is served without a query: the only
    calls before the reply are the look-up and the clock, the request is not
    changed, and the reply is the cached message under the identifier and with the
    question of this request. *)
Theorem route_cache_hit key v req h :
  getKey CountLabel minLabels req = inl key → ordinary req →
  env h (CacheGet key) = Some v →
  (let now := env (h ++ [CacheGet key]) Now in now < ValidUntil v < now + 2 ^ 63) →
  ∃ ev, route req h = (Ret tt, req, h ++ [CacheGet key; Now] ++ ev) ∧
    sends (getMaxPayloadSize IsEdns0 UDPSize req) (fromCache v req) (h ++ [CacheGet key; Now]) ev ∧
    Id (Hdr (fromCache v req)) = Id (Hdr req) ∧
    Questions (fromCache v req) = Questions req ∧
    Answer (fromCache v req) = Answer (Copy (cached v)).
Proof.
  intros Hkey Ho Hget Hnow.
  destruct (reply_run (getMaxPayloadSize IsEdns0 UDPSize req) (fromCache v req) req
              (h ++ [CacheGet key; Now])) as (ev&Hrun&Hs).
  exists ev. split; [|by auto]. unfold route, mbind, io_bind. simpl. rewrite Hkey.
  rewrite special_run by done. rewrite Hget, fresh_spec by done. simpl.
  rewrite <- app_assoc. cbn [app]. by rewrite Hrun, <- app_assoc.
Qed.

(** Neither in the cache nor still valid there. *)
Definition notFresh (key : CacheKey) (h : list event) : Prop :=
  match env h (CacheGet key) with
  | None => True
  | Some v => let now := env (h ++ [CacheGet key]) Now in
              ValidUntil v ≤ now < ValidUntil v + 2 ^ 63
  end.
(** The calls up to the query. *)
Definition lookedUp (key : CacheKey) (h : list event) : list event :=
  match env h (CacheGet key) with
  | None => h ++ [CacheGet key]
  | Some _ => h ++ [CacheGet key; Now]
  end.
(** The request as it is sent upstream. *)
Definition upstreamReq (key : CacheKey) (req : Msg) : Msg :=
  SetEdns0 (setExtra (filter (λ rr, Rrtype rr ≠ TypeOPT) (Extra req)) req)
    DefaultMsgSize (DNSSEC key).

Lemma route_not_fresh key req h :
  getKey CountLabel minLabels req = inl key → ordinary req → notFresh key h →
  route req h = resolveAndReply key (getMaxPayloadSize IsEdns0 UDPSize req)
                  (env h (CacheGet key)) req (lookedUp key h).
Proof.
  intros Hkey Ho Hnf. unfold route, mbind, io_bind. simpl. rewrite Hkey.
  rewrite special_run by done. unfold notFresh, lookedUp in *.
  destruct (env h (CacheGet key)) as [v|]; simpl; [|done].
  rewrite stale_spec by done. simpl. by rewrite <- app_assoc.
Qed.
Lemma resolveAndReply_run key n cv req h :
  (let s := env h LoadSlip in s = 0 ∨ s `mod` 2 = 1) →
  resolveAndReply key n cv req h =
    (let q := ResolverRing (upstreamReq key req) in
     let h1 := h ++ [LoadSlip] in let h2 := h1 ++ [q] in
     match env h1 q with
     | inl (Some m) =>
         reply n (setCompress m) (upstreamReq key req)
           (h2 ++ [Now; CacheAdd key (mkVal (env h2 Now + getMinTTL (setCompress m)) (setCompress m))])
     | inl None => (Panic "nil pointer dereference", upstreamReq key req, h2)
     | inr _ =>
         match cv with
         | None => (Ret tt, upstreamReq key req, h2 ++ [Close])
         | Some v => reply n (fromCache v (upstreamReq key req)) (upstreamReq key req) h2
         end
     end).
Proof.
  intros Hs. unfold resolveAndReply, slipped, resolve, mbind, io_bind. simpl in *.
  rewrite decide_False by lia. simpl. fold (upstreamReq key req).
  destruct (env _ (ResolverRing _)) as [[m|]|err]; simpl; [|done|by destruct cv].
  by rewrite <- (app_assoc _ [Now]).
Qed.

(** C24: A request without a valid cached response is resolved: when no query is to
    be dropped, exactly one query goes to the resolver threads, with the client's
    OPT records replaced by the proxy's own.  A response is cached under the key of
    the request, valid from now for between one minute and one week, and sent; on
    a failure the expired response is sent if there is one, and otherwise the
    connection is closed. *)
Theorem route_resolves key req h :
  getKey CountLabel minLabels req = inl key → ordinary req → notFresh key h →
  (let s := env (lookedUp key h) LoadSlip in s = 0 ∨ s `mod` 2 = 1) →
  let q := ResolverRing (upstreamReq key req) in
  let h1 := lookedUp key h ++ [LoadSlip] in
  let n := getMaxPayloadSize IsEdns0 UDPSize req in
  match env h1 q with
  | inl (Some m) =>
      ∃ now until ev,
        let h2 := h1 ++ [q; Now; CacheAdd key (mkVal until (setCompress m))] in
        route req h = (Ret tt, upstreamReq key req, h2 ++ ev) ∧ now = env (h1 ++ [q]) Now ∧
        now + 60 * Second ≤ until ≤ now + 604800 * Second ∧ sends n (setCompress m) h2 ev
  | inl None => route req h = (Panic "nil pointer dereference", upstreamReq key req, h1 ++ [q])
  | inr _ =>
      match env h (CacheGet key) with
      | None => route req h = (Ret tt, upstreamReq key req, h1 ++ [q; Close])
      | Some v => ∃ ev, route req h = (Ret tt, upstreamReq key req, h1 ++ [q] ++ ev) ∧
                        sends n (fromCache v (upstreamReq key req)) (h1 ++ [q]) ev
      end
  end.
Proof.
  intros Hkey Ho Hnf Hs q h1 n. rewrite (route_not_fresh key) by done.
  rewrite resolveAndReply_run by done. cbv zeta. fold q h1 n.
  destruct (env h1 q) as [[m|]|err].
  - exists (env (h1 ++ [q]) Now), (env (h1 ++ [q]) Now + getMinTTL (setCompress m)).
    rewrite <- app_assoc. cbn [app].
    destruct (reply_run n (setCompress m) (upstreamReq key req)
      (h1 ++ [q; Now; CacheAdd key (mkVal (env (h1 ++ [q]) Now + getMinTTL (setCompress m))
                                      (setCompress m))])) as (ev&Hev&Hsend).
    exists ev. rewrite Hev. split; [done|]. split; [done|]. split; [|done].
    pose proof (getMinTTL_range (setCompress m)). lia.
  - done.
  - destruct (env h (CacheGet key)) as [v|]; [|by rewrite <- app_assoc].
    destruct (reply_run n (fromCache v (upstreamReq key req)) (upstreamReq key req) (h1 ++ [q]))
      as (ev&Hev&Hsend).
    exists ev. rewrite Hev. by rewrite <- app_assoc.
Qed.
End Route.

(** ** Examples *)
Module RouteExamples.
Definition question : Question := mkQuestion "www.Example.org." 1 ClassINET.
Definition request : Msg := mkMsg (mkHdr 4711 false false 0) [question] [] [] [] false.
Definition answerRR : RR := mkRR "www.example.org." 1 ClassINET 300 false "192.0.2.1".
Definition answer (id : Z) : Msg := mkMsg (mkHdr id true false 0) [question] [answerRR] [] [] false.
Definition key : CacheKey := mkKey "www.example.org." 1 false.

(** Simple versions of the functions of miekg/dns. *)
Definition countLabel (_ : string) : Z := 3.
Definition noEdns0 (_ : Msg) : option RR := None.
Definition udpSize (_ : RR) : Z := 512.
Definition addOpt (m : Msg) (n : Z) (d : bool) : Msg :=
  setExtra (Extra m ++ [mkRR "." TypeOPT n 0 d ""]) m.
Definition rcode (m : Msg) (c : Z) : Msg :=
  mkMsg (mkHdr (Id (Hdr m)) true false c) (Questions m) [] [] [] false.
Definition len (_ : Msg) : Z := 64.

(** An environment: [cv] is what the cache holds, [up] what upstream says. *)
Definition env (cv : option CacheVal) (up : Msg → result (option Msg))
    (_ : list event) (e : event) : response e :=
  match e with
  | CacheGet _ => cv
  | Now => 1000
  | LoadSlip => 0
  | CasSlip _ _ => true
  | RemoteIsTCP => false
  | ResolverRing m => up m
  | CacheAdd _ _ | WriteMsg _ | HandleFailed _ | Close => tt
  end.
Definition replies_ok (m : Msg) : result (option Msg) := inl (Some (answer (Id (Hdr m)))).
Abbreviation run e := (route 2 [] countLabel noEdns0 udpSize addOpt rcode (λ m, m) len e request []).

Lemma request_ordinary : ordinary [] request.
Proof. by exists question, []. Qed.

#[local] Instance resolver_ok : Resolver (env None replies_ok).
Proof. by intros h req. Qed.
Lemma route_answers_once_witness :
  ∃ req' h' e, run (env None replies_ok) = (Ret tt, req', h') ∧ repliesTo 4711 e ∧
    last h' = Some e ∧ replies h' = [e].
Proof.
  exact (route_answers_once 2 [] countLabel noEdns0 udpSize addOpt rcode (λ m, m) len
           (env None replies_ok) (λ _ _, eq_refl) (λ _ _ _, eq_refl) request []).
Defined.
Lemma route_cache_hit_witness :
  ∃ ev, run (env (Some (mkVal 2000 (answer 17))) replies_ok) =
          (Ret tt, request, [CacheGet key; Now] ++ ev).
Proof.
  destruct (route_cache_hit 2 [] countLabel noEdns0 udpSize addOpt rcode (λ m, m) len
      (env (Some (mkVal 2000 (answer 17))) replies_ok) key (mkVal 2000 (answer 17)) request [])
    as (ev&Hrun&_).
  - by vm_compute.
  - exact request_ordinary.
  - reflexivity.
  - simpl. lia.
  - by exists ev.
Defined.
Lemma route_resolves_witness :
  run (env None (λ _, inr "Evicted")) =
    (Ret tt, upstreamReq addOpt key request,
     [CacheGet key; LoadSlip; ResolverRing (upstreamReq addOpt key request); Close]).
Proof.
  refine (route_resolves 2 [] countLabel noEdns0 udpSize addOpt rcode (λ m, m) len
            (env None (λ _, inr "Evicted")) key request [] _ request_ordinary _ _).
  - by vm_compute.
  - exact I.
  - by left.
Defined.

(** Upstream answers a truncated message over UDP and in full over TCP. *)
Definition exchanges (_ : list Sync.event) (e : Sync.event) : Sync.exchange :=
  match e with
  | Sync.UdpExchange m _ =>
      Sync.mkExchange (Some (mkMsg (mkHdr (Id (Hdr m)) true true 0) [] [] [] [] false)) 5 None
  | Sync.TcpExchange m _ => Sync.mkExchange (Some (answer (Id (Hdr m)))) 9 None
  end.
Lemma syncResolve_spec_witness :
  ∃ a o st' ev, a ∈ live (upstream JojoExamples.table) ∧
    Sync.syncResolve 100 (flit 1 (-2)) (λ _, 0) exchanges request JojoExamples.table [] =
      (Ret o, st', [] ++ ev).
Proof.
  destruct (Sync.syncResolve_spec 100 (flit 1 (-2)) (λ _, 0) exchanges request JojoExamples.table [])
    as (a&o&st'&ev&Ha&Hrun&_).
  - done.
  - exact JojoExamples.table_wf.
  - done.
  - by vm_compute.
  - intros. lia.
  - exists a, o, st', ev. exact (conj Ha Hrun).
Defined.
End RouteExamples.
