(* ===== verification/JojoQueue.v ===== *)
(** * The DNS proxy jojo (src/jojo/jojo.go): the ring of queued requests

    [resolveViaResolverThreads] and [resolverThread] as a transition system: each
    client goroutine and each resolver thread is at one of the points where it can
    block, the ring is a buffered channel, the response channels are unbuffered. *)
From stdpp Require Import base list numbers relations sets gmap.
From S2P Require Import Prelude.

(** What is sent on a response channel. *)
Inductive response := Evicted | TooOld | Resolved (ok : bool).


(** A goroutine in [resolveViaResolverThreads]; its number names its request. *)
Inductive client :=
  | CTry                  (* before the [select] *)
  | CEvict                (* in [old := <-resolverRing] *)
  | CSend (old : nat)     (* in [old.responseChan <- evictedResponse] *)
  | CWait                 (* in [response := <-responseChan] *)
  | CDone (r : response).

(** A goroutine in [resolverThread]. *)
Inductive worker :=
  | WIdle                              (* in [queuedRequest := <-resolverRing] *)
  | WHave (r : nat)                    (* has received a request *)
  | WSend (r : nat) (resp : response)  (* in [responseChan <- response] *)
  | WClose (r : nat) (old : bool).     (* before [close(responseChan)] *)

#[local] Instance response_eq_dec : EqDecision response.
Proof. solve_decision. Defined.
#[local] Instance client_eq_dec : EqDecision client.
Proof. solve_decision. Defined.
#[local] Instance worker_eq_dec : EqDecision worker.
Proof. solve_decision. Defined.

Record state := mkState {
  ring : list nat;
  clients : list client;
  workers : list worker;
  closed : list nat;      (* response channels, in the order they are closed *)
  slip : Z;
}.

Section Queue.
(** [maxClients], the capacity of the ring and the number of resolver threads; the
    model is of a positive number, where the ring is a buffered channel. *)
Context (cap : nat).

Inductive step : state → state → Prop :=
  (** [case resolverRing <- queuedRequest] *)
  | step_enqueue ring cs ws cl sl c :
      cs !! c = Some CTry → length ring < cap →
      step (mkState ring cs ws cl sl) (mkState (ring ++ [c]) (<[c := CWait]> cs) ws cl sl)
  (** [default] *)
  | step_full ring cs ws cl sl c :
      cs !! c = Some CTry → cap ≤ length ring →
      step (mkState ring cs ws cl sl) (mkState ring (<[c := CEvict]> cs) ws cl sl)
  | step_evict ring cs ws cl sl c old :
      cs !! c = Some CEvict →
      step (mkState (old :: ring) cs ws cl sl) (mkState ring (<[c := CSend old]> cs) ws cl sl)
  (** the evicted client receives; then [queued == false] *)
  | step_evicted ring cs ws cl sl c old :
      cs !! c = Some (CSend old) → cs !! old = Some CWait →
      step (mkState ring cs ws cl sl)
           (mkState ring (<[c := CTry]> (<[old := CDone Evicted]> cs)) ws cl sl)
  | step_take ring cs ws cl sl w r :
      ws !! w = Some WIdle →
      step (mkState (r :: ring) cs ws cl sl) (mkState ring cs (<[w := WHave r]> ws) cl sl)
  | step_too_old ring cs ws cl sl w r :
      ws !! w = Some (WHave r) →
      step (mkState ring cs ws cl sl) (mkState ring cs (<[w := WSend r TooOld]> ws) cl sl)
  | step_resolve ring cs ws cl sl w r ok :
      ws !! w = Some (WHave r) →
      step (mkState ring cs ws cl sl) (mkState ring cs (<[w := WSend r (Resolved ok)]> ws) cl sl)
  | step_respond ring cs ws cl sl w r resp :
      ws !! w = Some (WSend r resp) → cs !! r = Some CWait →
      step (mkState ring cs ws cl sl)
           (mkState ring (<[r := CDone resp]> cs)
              (<[w := WClose r (match resp with TooOld => true | _ => false end)]> ws) cl sl)
  (** [close]; a request that was too old counts as a slip *)
  | step_close ring cs ws cl sl w r old :
      ws !! w = Some (WClose r old) →
      step (mkState ring cs ws cl sl)
           (mkState ring cs (<[w := WIdle]> ws) (cl ++ [r])
              (if old : bool then wrapU 32 (sl + 1) else sl))
  (** a new request *)
  | step_client ring cs ws cl sl :
      step (mkState ring cs ws cl sl) (mkState ring (cs ++ [CTry]) ws cl sl).

Definition init : state := mkState [] [] (replicate cap WIdle) [] 0.
Definition reachable (s : state) : Prop := rtc step init s.

(** The requests some goroutine or the ring has to answer. *)
Definition evicting (c : client) : option nat :=
  match c with CSend old => Some old | _ => None end.
Definition working (w : worker) : option nat :=
  match w with WHave r | WSend r _ => Some r | _ => None end.
Definition closing (w : worker) : option nat :=
  match w with WClose r _ => Some r | _ => None end.
Definition held (s : state) : list nat :=
  ring s ++ omap evicting (clients s) ++ omap working (workers s).
Definition closes (s : state) : list nat := closed s ++ omap closing (workers s).

(** Every request is held once exactly while its client waits; the ring does not
    overflow; channels are closed once, after the response. *)
Record inv (s : state) : Prop := {
  inv_held : NoDup (held s);
  inv_wait : ∀ r, r ∈ held s ↔ clients s !! r = Some CWait;
  inv_ring : length (ring s) ≤ cap;
  inv_close : NoDup (closes s);
  inv_done : ∀ r, r ∈ closes s → ∃ resp, clients s !! r = Some (CDone resp);
}.

(** ** Lemmas *)
(** Replacing one element of a list under [omap]. *)
Lemma omap_update {A B} (f : A → option B) l i y :
  l !! i = Some y → ∃ k, omap f l ≡ₚ option_list (f y) ++ k ∧
    ∀ x, omap f (<[i := x]> l) ≡ₚ option_list (f x) ++ k.
Proof.
  intros Hi. exists (omap f (take i l) ++ omap f (drop (S i) l)).
  assert (∀ x, omap f (take i l ++ x :: drop (S i) l) ≡ₚ
               option_list (f x) ++ omap f (take i l) ++ omap f (drop (S i) l)) as H.
  { intros x. rewrite omap_app. cbn [omap]. simpl. destruct (f x); simpl;
      [by rewrite Permutation_middle|done]. }
  split.
  - rewrite <- (take_drop_middle l i y Hi) at 1. apply H.
  - intros x. rewrite insert_take_drop by (by eapply lookup_lt_Some). apply H.
Qed.

(** The two halves of the invariant, on the lists of requests. *)
Definition waits (l : list nat) (cs : list client) : Prop :=
  NoDup l ∧ ∀ r, r ∈ l ↔ cs !! r = Some CWait.
Definition dones (l : list nat) (cs : list client) : Prop :=
  NoDup l ∧ ∀ r, r ∈ l → ∃ resp, cs !! r = Some (CDone resp).

#[local] Instance waits_proper : Proper ((≡ₚ) ==> (=) ==> iff) waits.
Proof. intros l k Hlk cs ? <-. unfold waits. by setoid_rewrite Hlk. Qed.
#[local] Instance dones_proper : Proper ((≡ₚ) ==> (=) ==> iff) dones.
Proof. intros l k Hlk cs ? <-. unfold dones. by setoid_rewrite Hlk. Qed.

Lemma waits_keep l cs c x y :
  waits l cs → cs !! c = Some x → x ≠ CWait → y ≠ CWait → waits l (<[c := y]> cs).
Proof.
  intros [Hnd Hw] Hc Hx Hy. split; [done|]. intros r. rewrite Hw.
  destruct (decide (r = c)) as [->|Hne]; [|by rewrite list_lookup_insert_ne].
  rewrite list_lookup_insert_eq by (by eapply lookup_lt_Some). naive_solver congruence.
Qed.
Lemma waits_add l cs c x :
  waits l cs → cs !! c = Some x → x ≠ CWait → waits (c :: l) (<[c := CWait]> cs).
Proof.
  intros [Hnd Hw] Hc Hx. split.
  - constructor; [|done]. rewrite Hw. naive_solver congruence.
  - intros r. rewrite elem_of_cons, Hw. destruct (decide (r = c)) as [->|Hne].
    + rewrite list_lookup_insert_eq by (by eapply lookup_lt_Some). naive_solver.
    + rewrite list_lookup_insert_ne by done. naive_solver.
Qed.
Lemma waits_del l cs c y :
  waits (c :: l) cs → y ≠ CWait → waits l (<[c := y]> cs).
Proof.
  intros [Hnd Hw] Hy. apply NoDup_cons in Hnd as [Hni Hnd]. split; [done|]. intros r.
  assert (cs !! c = Some CWait) as Hc by (apply Hw; left).
  destruct (decide (r = c)) as [->|Hne].
  - rewrite list_lookup_insert_eq by (by eapply lookup_lt_Some). naive_solver congruence.
  - rewrite list_lookup_insert_ne by done. rewrite <- Hw, elem_of_cons. naive_solver.
Qed.
Lemma waits_snoc l cs y : waits l cs → y ≠ CWait → waits l (cs ++ [y]).
Proof.
  intros [Hnd Hw] Hy. split; [done|]. intros r. rewrite Hw. split.
  - intros Hr. by apply lookup_app_l_Some.
  - rewrite lookup_app_Some. intros [Hr|[_ Hr]]; [done|].
    apply list_lookup_singleton_Some in Hr. naive_solver.
Qed.
Lemma dones_keep l cs c x y :
  dones l cs → cs !! c = Some x → (∀ r, x ≠ CDone r) → dones l (<[c := y]> cs).
Proof.
  intros [Hnd Hd] Hc Hx. split; [done|]. intros r Hr. destruct (Hd r Hr) as [resp Hresp].
  exists resp. rewrite list_lookup_insert_ne; [done|]. naive_solver congruence.
Qed.
Lemma dones_add l cs c x resp :
  dones l cs → cs !! c = Some x → (∀ r, x ≠ CDone r) → dones (c :: l) (<[c := CDone resp]> cs).
Proof.
  intros [Hnd Hd] Hc Hx. split.
  - constructor; [|done]. intros Hin. destruct (Hd c Hin). naive_solver congruence.
  - intros r [->|Hr]%elem_of_cons.
    + exists resp. rewrite list_lookup_insert_eq; [done|by eapply lookup_lt_Some].
    + by eapply (proj2 (dones_keep _ _ _ _ _ (conj Hnd Hd) Hc Hx)).
Qed.
Lemma dones_snoc l cs y : dones l cs → dones l (cs ++ [y]).
Proof.
  intros [Hnd Hd]. split; [done|]. intros r Hr. destruct (Hd r Hr) as [resp Hresp].
  exists resp. by apply lookup_app_l_Some.
Qed.

Lemma inv_split s :
  inv s ↔ waits (held s) (clients s) ∧ length (ring s) ≤ cap ∧ dones (closes s) (clients s).
Proof. split; [intros []|intros ([]&?&[])]; by split. Qed.

(** How a step of one goroutine changes what it holds. *)
Lemma held_client rg cs ws cl sl c x :
  cs !! c = Some x → ∃ k, held (mkState rg cs ws cl sl) ≡ₚ option_list (evicting x) ++ rg ++ k ∧
    ∀ rg' y cl' sl', held (mkState rg' (<[c := y]> cs) ws cl' sl') ≡ₚ option_list (evicting y) ++ rg' ++ k.
Proof.
  intros Hc. destruct (omap_update evicting cs c x Hc) as (k&Hk&Hk').
  exists (k ++ omap working ws). unfold held. simpl. split; [rewrite Hk|intros rg' y cl' sl'; rewrite Hk'];
    solve_Permutation.
Qed.
Lemma held_worker ws w x :
  ws !! w = Some x → ∃ k,
    (∀ rg cs cl sl, held (mkState rg cs ws cl sl) ≡ₚ
       option_list (working x) ++ rg ++ omap evicting cs ++ k) ∧
    ∀ y rg cs cl sl, held (mkState rg cs (<[w := y]> ws) cl sl) ≡ₚ
      option_list (working y) ++ rg ++ omap evicting cs ++ k.
Proof.
  intros Hw. destruct (omap_update working ws w x Hw) as (k&Hk&Hk').
  exists k. unfold held. simpl. split; intros; [rewrite Hk|rewrite Hk']; solve_Permutation.
Qed.
Lemma closes_worker rg cs ws cl sl w x :
  ws !! w = Some x → ∃ k, closes (mkState rg cs ws cl sl) ≡ₚ option_list (closing x) ++ cl ++ k ∧
    ∀ rg' cs' y cl' sl', closes (mkState rg' cs' (<[w := y]> ws) cl' sl') ≡ₚ
      option_list (closing y) ++ cl' ++ k.
Proof.
  intros Hw. destruct (omap_update closing ws w x Hw) as (k&Hk&Hk').
  exists k. unfold closes. simpl. split; [rewrite Hk|intros; rewrite Hk']; solve_Permutation.
Qed.
(** A client that does not evict holds nothing. *)
Lemma held_client_none rg cs ws cl sl c x y :
  cs !! c = Some x → evicting x = None → evicting y = None →
  held (mkState rg (<[c := y]> cs) ws cl sl) ≡ₚ held (mkState rg cs ws cl sl).
Proof.
  intros Hc Hx Hy. destruct (held_client rg cs ws cl sl c x Hc) as (k&Hk&Hk').
  by rewrite Hk, Hk', Hx, Hy.
Qed.

Lemma inv_init : inv init.
Proof.
  assert (∀ (f : worker → option nat), f WIdle = None → omap f (replicate cap WIdle) = []) as H.
  { intros f Hf. induction cap as [|n IH]; simpl; [done|]. by rewrite Hf. }
  apply inv_split. unfold init, held, closes. simpl. rewrite !H by done. repeat split; try constructor;
    rewrite ?elem_of_nil; try done; try lia. all: intros ?; try done; set_solver.
Qed.
(** Steps of a worker that keep the request it holds, or hand over the ring's. *)
Lemma waits_worker ws w x y rg rg' cs cl sl cl' sl' :
  waits (held (mkState rg cs ws cl sl)) cs → ws !! w = Some x →
  option_list (working x) ++ rg ≡ₚ option_list (working y) ++ rg' →
  waits (held (mkState rg' cs (<[w := y]> ws) cl' sl')) cs.
Proof.
  intros Hh Hw Heq. destruct (held_worker ws w x Hw) as (k&Hk&Hk').
  rewrite Hk' . rewrite Hk in Hh. by rewrite app_assoc, <- Heq, <- app_assoc.
Qed.
Lemma dones_worker rg cs ws cl sl w x y rg' cl' sl' :
  dones (closes (mkState rg cs ws cl sl)) cs → ws !! w = Some x →
  option_list (closing x) ++ cl ≡ₚ option_list (closing y) ++ cl' →
  dones (closes (mkState rg' cs (<[w := y]> ws) cl' sl')) cs.
Proof.
  intros Hd Hw Heq. destruct (closes_worker rg cs ws cl sl w x Hw) as (k&Hk&Hk').
  rewrite Hk'. rewrite Hk in Hd. by rewrite app_assoc, <- Heq, <- app_assoc.
Qed.

Lemma inv_enqueue rg cs ws cl sl c :
  cs !! c = Some CTry → waits (held (mkState rg cs ws cl sl)) cs →
  waits (held (mkState (rg ++ [c]) (<[c := CWait]> cs) ws cl sl)) (<[c := CWait]> cs).
Proof.
  intros Hc Hh. destruct (held_client rg cs ws cl sl c CTry) as (k&Hk&Hk'); [done|].
  rewrite Hk'. rewrite Hk in Hh. simpl in *.
  rewrite <- (app_assoc rg). cbn [app]. rewrite <- Permutation_middle. by eapply waits_add.
Qed.
Lemma inv_evict rg cs ws cl sl c old :
  cs !! c = Some CEvict → waits (held (mkState (old :: rg) cs ws cl sl)) cs →
  waits (held (mkState rg (<[c := CSend old]> cs) ws cl sl)) (<[c := CSend old]> cs).
Proof.
  intros Hc Hh. destruct (held_client (old :: rg) cs ws cl sl c CEvict) as (k&Hk&Hk'); [done|].
  rewrite Hk'. rewrite Hk in Hh. by eapply waits_keep.
Qed.
Lemma inv_evicted rg cs ws cl sl c old :
  cs !! c = Some (CSend old) → cs !! old = Some CWait →
  waits (held (mkState rg cs ws cl sl)) cs →
  waits (held (mkState rg (<[c := CTry]> (<[old := CDone Evicted]> cs)) ws cl sl))
        (<[c := CTry]> (<[old := CDone Evicted]> cs)).
Proof.
  intros Hc Ho Hh. assert (c ≠ old) as Hne by congruence.
  rewrite list_insert_insert_ne by done.
  destruct (held_client rg cs ws cl sl c (CSend old)) as (k&Hk&Hk'); [done|].
  rewrite (held_client_none _ (<[c := CTry]> cs) _ _ _ old CWait) by
    (try done; by rewrite list_lookup_insert_ne).
  rewrite Hk'. rewrite Hk in Hh. simpl in *. apply waits_del; [|done].
  by eapply waits_keep.
Qed.
Lemma inv_respond rg cs ws cl sl w r resp old :
  ws !! w = Some (WSend r resp) → cs !! r = Some CWait →
  waits (held (mkState rg cs ws cl sl)) cs → dones (closes (mkState rg cs ws cl sl)) cs →
  waits (held (mkState rg (<[r := CDone resp]> cs) (<[w := WClose r old]> ws) cl sl))
        (<[r := CDone resp]> cs) ∧
  dones (closes (mkState rg (<[r := CDone resp]> cs) (<[w := WClose r old]> ws) cl sl))
        (<[r := CDone resp]> cs).
Proof.
  intros Hw Hr Hh Hd. split.
  - rewrite (held_client_none _ cs _ _ _ r CWait) by done.
    destruct (held_worker ws w _ Hw) as (k&Hk&Hk').
    rewrite Hk'. rewrite Hk in Hh. simpl in *. by apply waits_del.
  - destruct (closes_worker rg cs ws cl sl w _ Hw) as (k&Hk&Hk').
    rewrite Hk'. rewrite Hk in Hd. simpl in *. by eapply dones_add.
Qed.

Lemma inv_step s s' : step s s' → inv s → inv s'.
Proof.
  intros Hstep (Hh&Hr&Hd)%inv_split. apply inv_split. destruct Hstep; simpl in *.
  - split; [by apply inv_enqueue|]. rewrite length_app. simpl. split; [lia|by eapply dones_keep].
  - split; [|split; [done|by eapply dones_keep]].
    rewrite held_client_none by done. by eapply waits_keep.
  - split; [by apply inv_evict|]. split; [lia|by eapply dones_keep].
  - split; [by apply inv_evicted|]. split; [done|].
    eapply (dones_keep _ _ c (CSend old)); [by eapply dones_keep| |done].
    rewrite list_lookup_insert_ne; [done|congruence].
  - split; [by eapply waits_worker|]. split; [lia|by eapply dones_worker].
  - split; [by eapply waits_worker|]. split; [done|by eapply dones_worker].
  - split; [by eapply waits_worker|]. split; [done|by eapply dones_worker].
  - by destruct (inv_respond ring0 cs ws cl sl w r resp
      (match resp with TooOld => true | _ => false end)).
  - split; [by eapply waits_worker|]. split; [done|]. eapply dones_worker; [done|done|].
    simpl. by rewrite (Permutation_app_comm cl).
  - split; [|split; [done|by apply dones_snoc]].
    unfold held in *. simpl in *. rewrite omap_app. cbn [omap]. simpl. rewrite app_nil_r.
    by apply waits_snoc.
Qed.
Lemma inv_reachable s : reachable s → inv s.
Proof.
  intros H. unfold reachable in H. assert (inv init) as Hi by apply inv_init. revert Hi.
  induction H as [|s1 s2 s3 Hs _ IH]; [done|]. intros Hi. by eapply IH, inv_step.
Qed.
Lemma workers_step s s' : step s s' → length (workers s') = length (workers s).
Proof. intros []; simpl; by rewrite ?length_insert. Qed.
Lemma workers_reachable s : reachable s → length (workers s) = cap.
Proof.
  intros H. unfold reachable in H. assert (length (workers init) = cap) as Hi by apply length_replicate.
  revert Hi. induction H as [|s1 s2 s3 Hs _ IH]; [done|]. intros Hi. apply IH.
  by rewrite (workers_step _ _ Hs).
Qed.

(** A step of the goroutines at hand, without a new request. *)
Definition runs (s : state) : Prop :=
  ∃ s', step s s' ∧ length (clients s') = length (clients s).
Definition unfinished (c : client) : bool :=
  match c with CDone _ => false | _ => true end.
(** The clients left wait for something to evict, the resolver threads for
    something to resolve. *)
Definition stalled (s : state) : Prop :=
  ring s = [] ∧ Forall (λ w, w = WIdle) (workers s) ∧
  Forall (λ c, unfinished c → c = CEvict) (clients s).

Ltac run_step := eexists; split; [by econstructor|]; simpl; by rewrite ?length_insert.

Lemma worker_runs s w x : inv s → workers s !! w = Some x → x ≠ WIdle → runs s.
Proof.
  intros [_ Hw _ _ _] Hx Hne. destruct s as [rg cs ws cl sl], x as [|r|r resp|r old]; simpl in *; [done|..].
  - run_step.
  - assert (cs !! r = Some CWait).
    { apply Hw. unfold held. simpl. rewrite !elem_of_app. right; right.
      apply list_elem_of_omap. exists (WSend r resp). split; [|done]. by eapply list_elem_of_lookup_2. }
    run_step.
  - run_step.
Qed.
Lemma evictor_runs s c old : inv s → clients s !! c = Some (CSend old) → runs s.
Proof.
  intros [_ Hw _ _ _] Hc. destruct s as [rg cs ws cl sl]; simpl in *.
  assert (cs !! old = Some CWait).
  { apply Hw. unfold held. simpl. rewrite !elem_of_app. right; left.
    apply list_elem_of_omap. exists (CSend old). split; [|done]. by eapply list_elem_of_lookup_2. }
  run_step.
Qed.
Lemma ring_runs s : inv s → 0 < length (workers s) → ring s ≠ [] → runs s.
Proof.
  intros Hinv Hlen Hne. destruct (workers s !! 0) as [x|] eqn:Hx.
  2: { apply lookup_ge_None in Hx. lia. }
  destruct x as [|r|r resp|r old]; try (by eapply worker_runs).
  destruct s as [[|r rg] cs ws cl sl]; simpl in *; [done|]. run_step.
Qed.
Lemma client_runs s c x :
  inv s → 0 < length (workers s) → clients s !! c = Some x → unfinished x →
  (x = CEvict → ring s ≠ []) → runs s.
Proof.
  intros Hinv Hlen Hx Hu Hev. destruct x as [| |old| |r].
  - destruct s as [rg cs ws cl sl]; simpl in *.
    destruct (decide (length rg < cap)); [run_step|].
    eexists. split; [apply (step_full rg cs ws cl sl c); [done|lia]|]. simpl. by rewrite length_insert.
  - by apply ring_runs, Hev.
  - by eapply evictor_runs.
  - pose proof Hinv as [_ Hw _ _ _]. apply Hw in Hx. unfold held in Hx.
    rewrite !elem_of_app, !list_elem_of_omap in Hx. destruct Hx as [Hr|[(y&Hy&Hc)|(y&Hy&Hc)]].
    + apply ring_runs; [done|done|]. intros Hnil. rewrite Hnil in Hr. by apply elem_of_nil in Hr.
    + apply list_elem_of_lookup_1 in Hy as [i Hi]. destruct y as [| |o| |]; try done.
      by eapply evictor_runs.
    + apply list_elem_of_lookup_1 in Hy as [i Hi]. eapply worker_runs; [done|done|by intros ->].
  - done.
Qed.

(** ** Properties *)
(** C7: The ring never loses or duplicates a request: in every reachable state a
    request is in the ring or held by exactly one goroutine if and only if its
    client waits for the response, so every client gets at most one response and
    no sender finds its receiver gone; the ring stays within its capacity; a
    response channel is closed at most once, and only after the response. *)
Theorem ring_ownership s :
  reachable s →
  NoDup (held s) ∧ (∀ r, r ∈ held s ↔ clients s !! r = Some CWait) ∧
  length (ring s) ≤ cap ∧ NoDup (closed s) ∧
  (∀ r, r ∈ closed s → ∃ resp, clients s !! r = Some (CDone resp)).
Proof.
  intros [H1 H2 H3 H4 H5]%inv_reachable. unfold closes in *. split_and!; try done.
  - by apply NoDup_app in H4 as [? _].
  - intros r Hr. apply H5, elem_of_app. by left.
Qed.

(** C28: The queue only stalls in one way: as long as a request is unanswered, some
    goroutine can take a step, or else the ring is empty, every resolver thread is
    idle and every unanswered client is waiting to evict a request. *)
Theorem ring_progress s :
  0 < cap → reachable s →
  (∃ c x, clients s !! c = Some x ∧ unfinished x) → runs s ∨ stalled s.
Proof.
  intros Hcap Hr (c&x&Hc&Hu). pose proof (inv_reachable s Hr) as Hinv.
  pose proof (workers_reachable s Hr) as Hlen.
  destruct (decide (ring s = [])) as [Hnil|Hne]; [|left; apply ring_runs; [done|lia|done]].
  destruct (decide (Forall (λ w, w = WIdle) (workers s))) as [Hidle|Hbusy].
  2: { left. apply not_Forall_Exists, Exists_exists in Hbusy; [|apply _].
       destruct Hbusy as (y&Hy&Hne). apply list_elem_of_lookup_1 in Hy as [i Hi].
       by eapply worker_runs. }
  destruct (decide (Forall (λ c, unfinished c → c = CEvict) (clients s))) as [He|He]; [by right|].
  left. apply not_Forall_Exists, Exists_exists in He; [|apply _].
  destruct He as (y&Hy&Hne). apply list_elem_of_lookup_1 in Hy as [i Hi].
  destruct (decide (y = CEvict)) as [|Hy]; [by destruct Hne|].
  eapply (client_runs s i y); [done|lia|done| |done].
  destruct y; try done. by destruct Hne.
Qed.
End Queue.

(** ** The stall happens *)
Module QueueExamples.
(** One resolver thread, two clients: the second finds the ring full and goes to
    evict; meanwhile the thread takes and answers the first request. *)
Definition stall : state :=
  mkState [] [CDone (Resolved true); CEvict] [WIdle] [0] 0.

Lemma stall_reachable : reachable 1 stall.
Proof.
  unfold reachable, init. simpl.
  do 2 (eapply rtc_l; [apply step_client|]); simpl.
  eapply rtc_l; [apply (step_enqueue 1 _ _ _ _ _ 0); [done|simpl; lia]|]; simpl.
  eapply rtc_l; [apply (step_full 1 _ _ _ _ _ 1); [done|simpl; lia]|]; simpl.
  eapply rtc_l; [by apply (step_take 1 _ _ _ _ _ 0)|]; simpl.
  eapply rtc_l; [by apply (step_resolve 1 _ _ _ _ _ 0 0 true)|]; simpl.
  eapply rtc_l; [by apply (step_respond 1 _ _ _ _ _ 0 0 (Resolved true))|]; simpl.
  eapply rtc_l; [by apply (step_close 1 _ _ _ _ _ 0 0 false)|]; simpl.
  apply rtc_refl.
Qed.

(** The stall is real: a client that found the ring full can be left waiting
    for a request to evict although the ring is empty and every resolver thread
    is idle, and nothing happens until another request arrives. *)
Theorem ring_stalls :
  ∃ s, reachable 1 s ∧ stalled s ∧ clients s !! 1 = Some CEvict ∧ ¬ runs 1 s.
Proof.
  exists stall. split; [apply stall_reachable|]. split; [|split; [done|]].
  - split; [done|]. split; repeat constructor; intros H; by destruct H.
  - intros (s'&Hs&Hlen). inversion Hs; subst; simpl in *; try lia;
      repeat match goal with
      | H : [_] !! ?i = Some _ |- _ => apply list_lookup_singleton_Some in H as [? ?]; subst
      | H : [_; _] !! ?i = Some _ |- _ => destruct i as [|[|]]; simpl in *
      end; try done; rewrite ?length_app in *; simpl in *; lia.
Qed.

Lemma ring_ownership_witness : reachable 1 stall ∧ NoDup (held stall).
Proof. split; [exact stall_reachable|]. exact (proj1 (ring_ownership 1 stall stall_reachable)). Defined.
Lemma ring_progress_witness : runs 1 stall ∨ stalled stall.
Proof.
  apply (ring_progress 1 stall); [lia|exact stall_reachable|]. by exists 1, CEvict.
Defined.
End QueueExamples.
