(* ===== verification/JojoServe.v ===== *)
(** * The DNS proxy jojo (src/jojo/): threads, local records, start-up

    The resolver thread that serves the ring, composed with [syncResolve] below it and
    [route] above it; the vacuum thread; the file of local records; capabilities and the
    start of the proxy.  Exchanges with servers and the operating system answer through
    the environment; [dns.NewRR] is a parameter. *)
From stdpp Require Import base gmap strings numbers list.
From S2P Require Import Prelude GoStrings Float64 Jojo JojoRoute.
Local Open Scope Z_scope.
Set Default Proof Using "Type*".

(** ** The threads *)
Module Threads.
Record QueuedResponse := mkResponse { resolved : option Msg; rtt : Z; err : option error }.
Record QueuedRequest := mkQueued { ts : Z; queued : Msg }.
Definition VacuumPeriod : Z := 60.

Inductive event :=
  | Now
  | Exchange (e : Sync.event)
  | Respond (r : QueuedResponse)
  | CloseChan
  | AddSlip
  | Sleep (d : Z)
  | StoreSlip (v : Z)
  | ProbeAll                       (* one Exchange for each server that is probed *)
  | MemAlloc
  | CachePurge.
Definition answer (e : event) : Type :=
  match e with
  | Now | MemAlloc => Z
  | Exchange _ => Sync.exchange
  | ProbeAll => string → option Z
  | _ => unit
  end.
Definition isExchange (e : event) : option Sync.event :=
  match e with Exchange x => Some x | _ => None end.

Section Threads.
Context (maxFailures : Z) (maxRTT : f64) (memSize : Z).
Context (siphash : string → Z).
Context (env : list event → ∀ e, answer e).
(** The exchanges of the clients depend on the exchanges so far. *)
Context (exchange : list Sync.event → Sync.event → Sync.exchange).
Abbreviation tio := (io upstreamState event).
Abbreviation do e := (call env e).

Definition resolveQuery (req : Msg) : tio (option Msg * Z * option error) :=
  lift_io Exchange isExchange (Sync.syncResolve maxFailures maxRTT siphash exchange req).

(** One round of [resolverThread], for the request it has received. *)
Definition resolverRound (q : QueuedRequest) : tio unit :=
  now ← do Now;
  if fgtb (seconds (timeSub now (ts q))) maxRTT then
    emit (Respond (mkResponse None 0 (Some "Request too old"))) ;;
    emit CloseChan ;;
    emit AddSlip
  else
    '(m, t, e) ← resolveQuery (queued q);
    emit (Respond (mkResponse m t e)) ;;
    emit CloseChan.

(** What [resolveViaResolverThreads] makes of the response to its request. *)
Definition ofResponse (r : QueuedResponse) : result (option Msg) :=
  match err r with
  | Some e => inr e
  | None => inl (resolved r)
  end.
Definition evictedResponse : QueuedResponse := mkResponse None 0 (Some "Evicted").

Definition resetUpstreamServers : tio unit := modify resetUpstreamServersNoLock.

(** One round of [vacuumThread]. *)
Definition vacuumRound : tio unit :=
  emit (Sleep (VacuumPeriod * Second)) ;;
  emit (StoreSlip 0) ;;
  probe ← do ProbeAll;
  modify (probeUpstreamServers maxRTT probe) ;;
  alloc ← do MemAlloc;
  if decide (memSize < alloc) then emit CachePurge else mret tt.
Fixpoint vacuumThread (rounds : nat) : tio unit :=
  match rounds with
  | O => fatal "signal: interrupt"
  | S n => vacuumRound ;; vacuumThread n
  end.

(** ** From the clients to the handler

    What miekg/dns documents of [Exchange]: without an error there is a reply, and its
    identifier is that of the query. *)
Class DnsClient : Prop :=
  client_replies : ∀ h e,
    let req := match e with Sync.UdpExchange r _ | Sync.TcpExchange r _ => r end in
    Sync.xerr (exchange h e) = None →
    ∃ m, Sync.xmsg (exchange h e) = Some m ∧ Id (Hdr m) = Id (Hdr req).

(** A message that one of the [configured] servers has sent in answer to [req]. *)
Definition fromUpstream (configured : list string) (req m : Msg) : Prop :=
  ∃ h e a, a ∈ configured ∧ (e = Sync.UdpExchange req a ∨ e = Sync.TcpExchange req a) ∧
    Sync.xerr (exchange h e) = None ∧ Sync.xmsg (exchange h e) = Some m.

(** A table of the configured servers. *)
Definition serves (configured : list string) (st : upstreamState) : Prop :=
  wf (upstream st) ∧ addr <$> servers (upstream st) = configured.

Lemma pickServer_in h u a : pickServer h u = Ret (inl a) → a ∈ live u.
Proof.
  unfold pickServer. repeat case_decide; try done. destruct (_ !! _) as [b|] eqn:Hb; [|done].
  intros [= ->]. by eapply list_elem_of_lookup_2.
Qed.
Lemma live_configured configured st a : serves configured st → a ∈ live (upstream st) → a ∈ configured.
Proof.
  intros [[_ Hl] <-] Ha. eapply elem_of_submseteq in Ha; [|by apply sublist_submseteq].
  unfold online in Ha. apply list_elem_of_fmap in Ha as (s&->&[_ Hs]%list_elem_of_filter).
  by apply list_elem_of_fmap_2.
Qed.
Lemma serves_markFailed configured a st :
  serves configured st → serves configured (markFailed maxFailures a st).
Proof.
  intros [Hwf Hs]. destruct (markFailed_spec maxFailures a st Hwf) as (?&?&_). by split; [|congruence].
Qed.
Lemma live_length configured st :
  serves configured st → (length (live (upstream st)) ≤ length configured)%nat.
Proof.
  intros [[_ Hl] <-]. rewrite length_fmap. apply sublist_length in Hl. unfold online in Hl.
  rewrite length_fmap in Hl. etrans; [exact Hl|]. apply length_filter.
Qed.

Section Responses.
Context (configured : list string) `{!DnsClient}.
Context (siphash_range : ∀ name, 0 ≤ siphash name < 2 ^ 64).
Context (configured_count : Z.of_nat (length configured) ≤ MaxUint64).

Lemma pickServer_serves name st :
  serves configured st →
  (∃ a, pickServer (siphash name) (upstream st) = Ret (inl a) ∧ a ∈ configured) ∨
  ∃ e, pickServer (siphash name) (upstream st) = Ret (inr e).
Proof.
  intros Hst. destruct (decide (live (upstream st) = [])) as [Hn|Hne].
  { right. unfold pickServer. rewrite Hn. simpl. by eexists. }
  left. pose proof (live_length _ _ Hst).
  destruct (pickServer_live (siphash name) (upstream st)) as (a&Hp&Ha); [done|done|lia|].
  exists a. split; [done|]. by apply (live_configured _ st).
Qed.
Lemma wp_syncResolve req st h :
  Questions req ≠ [] → serves configured st →
  wp (Sync.syncResolve maxFailures maxRTT siphash exchange req)
     (λ o st' _, serves configured st' ∧ ∃ m t e, o = Ret (m, t, e) ∧
        (e = None → ∃ m', m = Some m' ∧ fromUpstream configured req m')) st h.
Proof.
  intros Hq Hst. unfold Sync.syncResolve, Sync.pickUpstream. wp_steps.
  destruct (Questions req) as [|q qs]; [done|]. wp_steps.
  destruct (pickServer_serves (toLower (Name q)) st Hst) as [(a&->&Ha)|[e ->]]; wp_steps.
  2: { split; [done|]. eexists _, _, _. by split. }
  match goal with |- wp _ ?Q _ _ => set (post := Q) end.
  assert (∀ hx e h1, e = Sync.UdpExchange req a ∨ e = Sync.TcpExchange req a →
            post (Ret (exchange hx e)) st h1) as Hrest.
  { intros hx e h1 He. unfold post. destruct (Sync.xerr (exchange hx e)) as [err'|] eqn:Hx; wp_steps.
    { split; [by apply serves_markFailed|]. eexists _, _, _. by split. }
    assert (∃ m', Sync.xmsg (exchange hx e) = Some m' ∧ fromUpstream configured req m') as Hm.
    { destruct (client_replies hx e Hx) as (m&Hm&_). exists m. split; [done|]. by exists hx, e, a. }
    wp_if; wp_steps; (split; [|by eexists _, _, _]); [apply serves_markFailed|]; exact Hst. }
  destruct (Sync.retryTcp _); wp_steps; apply Hrest; auto.
Qed.

(** A response for [q] and the events around it. *)
Definition noResponse (e : event) : Prop := match e with Respond _ => False | _ => True end.
Definition responded (q : QueuedRequest) (h h' : list event) : Prop :=
  ∃ k r z, h' = h ++ k ++ [Respond r; CloseChan] ++ z ∧
    Forall noResponse k ∧ (z = [] ∨ z = [AddSlip]) ∧
    (err r = None → ∃ m, resolved r = Some m ∧ fromUpstream configured (queued q) m).
Lemma wp_resolverRound q st h :
  Questions (queued q) ≠ [] → serves configured st →
  wp (resolverRound q) (λ o st' h', o = Ret tt ∧ serves configured st' ∧ responded q h h') st h.
Proof.
  intros Hq Hst. unfold resolverRound. wp_steps. wp_if; wp_steps.
  - split_and!; [done..|]. exists [Now], (mkResponse None 0 (Some "Request too old")), [AddSlip].
    rewrite <- !app_assoc. split_and!; [done|by repeat constructor|by right|done].
  - unfold resolveQuery. eapply wp_mono; [|apply wp_lift_io, wp_syncResolve; done].
    intros o st' h' [(Hst'&m&t&e&->&Hm) [k ->]]. wp_steps. split_and!; [done..|].
    exists ([Now] ++ (Exchange <$> k)), (mkResponse m t e), [].
    rewrite <- !app_assoc. split_and!; [done| |by left|done].
    apply Forall_app_2; [by repeat constructor|]. by apply Forall_fmap, Forall_true.
Qed.

(** The responses a client of the ring can get for [req]: it is evicted, or a thread
    serves it, whatever the table, the clock and the exchanges are by then. *)
Definition possible (req : Msg) (r : QueuedResponse) : Prop :=
  r = evictedResponse ∨
  Questions req ≠ [] ∧
  ∃ t st h o st' k, serves configured st ∧
    resolverRound (mkQueued t req) st h = (o, st', h ++ k) ∧ Respond r ∈ k.
Lemma possible_upstream req r :
  possible req r → err r = None → ∃ m, resolved r = Some m ∧ fromUpstream configured req m.
Proof.
  intros [->|(Hq&t&st&h&o&st'&k&Hst&Hrun&Hin)]; [done|].
  pose proof (wp_resolverRound (mkQueued t req) st h Hq Hst) as Hwp. unfold wp in Hwp.
  rewrite Hrun in Hwp. destruct Hwp as (_&_&k1&r1&z&Hk&Hno&Hz&Hr).
  apply app_inv_head in Hk as ->. enough (r = r1) as -> by exact Hr.
  rewrite Forall_forall in Hno. rewrite !elem_of_app, !elem_of_cons in Hin.
  destruct Hin as [Hin|[[[= ->]|[[=]|Hn]]|Hin]]; [|done| |].
  - by destruct (Hno _ Hin).
  - by apply elem_of_nil in Hn.
  - destruct Hz as [-> | ->]; [by apply elem_of_nil in Hin|].
    apply list_elem_of_singleton in Hin. done.
Qed.

(** The promise of JojoRoute.v is kept by threads over such clients. *)
Definition ringAnswers (renv : list JojoRoute.event → ∀ e, response e) : Prop :=
  ∀ h req, ∃ r, possible req r ∧ renv h (ResolverRing req) = ofResponse r.
#[export] Instance ring_resolver renv : ringAnswers renv → Resolver renv.
Proof.
  intros Hring h req. destruct (Hring h req) as (r&Hp&->). unfold ofResponse.
  destruct (err r) as [e|] eqn:He; [done|].
  destruct (possible_upstream req r Hp He) as (m&->&h0&e&a&_&Hea&Hx&Hm).
  destruct (client_replies h0 e Hx) as (m'&Hm'&Hid). rewrite Hm in Hm'. injection Hm' as <-.
  rewrite Hid. by destruct Hea as [-> | ->].
Qed.
End Responses.

(** ** The table over time *)
Inductive activity := Serve (q : QueuedRequest) | Tidy.
Fixpoint activities (l : list activity) : tio unit :=
  match l with
  | [] => mret tt
  | Serve q :: l' => resolverRound q ;; activities l'
  | Tidy :: l' => vacuumRound ;; activities l'
  end.
Definition requests (l : list activity) : list QueuedRequest :=
  omap (λ a, match a with Serve q => Some q | Tidy => None end) l.
Definition responses (h : list event) : list QueuedResponse :=
  omap (λ e, match e with Respond r => Some r | _ => None end) h.
(** A response that is an error, or a message from a configured server. *)
Definition fitting (configured : list string) (q : QueuedRequest) (r : QueuedResponse) : Prop :=
  err r = None → ∃ m, resolved r = Some m ∧ fromUpstream configured (queued q) m.

Lemma responses_app h k : responses (h ++ k) = responses h ++ responses k.
Proof. apply omap_app. Qed.
Lemma responded_responses configured q h h' :
  responded configured q h h' → ∃ r, responses h' = responses h ++ [r] ∧ fitting configured q r.
Proof.
  intros (k&r&z&->&Hk&Hz&Hr). exists r. split; [|exact Hr]. rewrite !responses_app. f_equal.
  assert (responses k = []) as ->.
  { induction Hk as [|e k He _ IH]; [done|]. by destruct e. }
  by destruct Hz as [-> | ->].
Qed.
Lemma wp_vacuumRound configured st h :
  serves configured st →
  wp vacuumRound (λ o st' h', o = Ret tt ∧ serves configured st' ∧ responses h' = responses h) st h.
Proof.
  intros [Hwf Hs]. unfold vacuumRound. wp_steps.
  match goal with |- context [env ?h' ProbeAll] => set (probe := env h' ProbeAll) end.
  assert (serves configured (probeUpstreamServers maxRTT probe st)) as Hst.
  { destruct (probe_spec maxRTT probe st Hwf). by split; [|congruence]. }
  case_decide; wp_steps; (split_and!; [done|exact Hst|]); by rewrite !responses_app, !app_nil_r.
Qed.

Lemma wp_activities configured `{!DnsClient} l st h :
  (∀ name, 0 ≤ siphash name < 2 ^ 64) → Z.of_nat (length configured) ≤ MaxUint64 →
  Forall (λ q, Questions (queued q) ≠ []) (requests l) → serves configured st →
  wp (activities l) (λ o st' h', o = Ret tt ∧ serves configured st' ∧
      ∃ rs, responses h' = responses h ++ rs ∧ Forall2 (fitting configured) (requests l) rs) st h.
Proof.
  intros Hsip Hmax. revert st h. induction l as [|[q|] l IH]; intros st h Hq Hst; cbn [activities].
  - wp_steps. split_and!; [done|done|]. exists []. by rewrite app_nil_r.
  - change (requests (Serve q :: l)) with (q :: requests l) in *. apply Forall_cons in Hq as [Hq Hl].
    wp_steps. eapply wp_mono; [|by apply wp_resolverRound].
    intros o st1 h1 (->&Hst1&Hr). apply responded_responses in Hr as (r&Hr&Hf).
    eapply wp_mono; [|by apply IH]. intros o st2 h2 (->&Hst2&rs&Hrs&HF).
    split_and!; [done|done|]. exists (r :: rs). rewrite Hrs, Hr, <- app_assoc. split; [done|].
    by constructor.
  - wp_steps. eapply wp_mono; [|by apply wp_vacuumRound].
    intros o st1 h1 (->&Hst1&Hr). rewrite <- Hr. by apply IH.
Qed.
Lemma online_fresh addrs : online ((λ a, mkServer a 0 false) <$> addrs) = addrs.
Proof. induction addrs as [|a addrs IH]; [done|]. unfold online in *. simpl. by f_equal. Qed.
Lemma serves_parsed str rtt0 :
  NoDup (split comma str) → serves (split comma str) (mkUp (parseUpstreamServers str) rtt0).
Proof.
  intros Hnd. unfold serves, wf, parseUpstreamServers. cbn [upstream servers live].
  rewrite <- list_fmap_compose, list_fmap_id. split_and!; [done| |done].
  by rewrite online_fresh.
Qed.

End Threads.
End Threads.

(** ** The proxy: handler, ring, threads and clients together *)
Section Proxy.
Context (maxFailures : Z) (maxRTT : f64) (siphash : string → Z).
Context (tenv : list Threads.event → ∀ e, Threads.answer e).
Context (exchange : list Sync.event → Sync.event → Sync.exchange) `{!Threads.DnsClient exchange}.
Context (configured : list string).
Context (siphash_range : ∀ name, 0 ≤ siphash name < 2 ^ 64).
Context (configured_count : Z.of_nat (length configured) ≤ MaxUint64).
Context (minLabels : Z) (localRRS : list LocalRR).
Context (CountLabel : string → Z) (IsEdns0 : Msg → option RR) (UDPSize : RR → Z).
Context (SetEdns0 : Msg → Z → bool → Msg) (SetRcode : Msg → Z → Msg).
Context (Copy : Msg → Msg) (packedLen : Msg → Z).
Context (env : list event → ∀ e, response e).
Context (ring : Threads.ringAnswers maxFailures maxRTT siphash tenv exchange configured env).
(** The handler of the proxy, on the answers of the ring. *)
Definition handler : io Msg event unit :=
  route minLabels localRRS CountLabel IsEdns0 UDPSize SetEdns0 SetRcode Copy packedLen env.

Section Once.
Context (SetRcode_Id : ∀ r c, Id (Hdr (SetRcode r c)) = Id (Hdr r)).
Context (SetEdns0_Hdr : ∀ r n d, Hdr (SetEdns0 r n d) = Hdr r).

(** The whole proxy answers every request exactly once, under its identifier: this
    follows from the DNS clients returning replies to their queries, through the
    resolver threads and the ring, whose evictions and time-outs are errors to the
    handler. *)
Theorem proxy_answers_once req h :
  ∃ req' h' e, handler req h = (Ret tt, req', h') ∧ repliesTo (Id (Hdr req)) e ∧
    last h' = Some e ∧ replies h' = replies h ++ [e].
Proof.
  assert (Resolver env) as Hres by by eapply Threads.ring_resolver.
  pose proof (wp_route minLabels localRRS CountLabel IsEdns0 UDPSize SetEdns0 SetRcode Copy packedLen
                env SetRcode_Id SetEdns0_Hdr req h) as Hwp.
  unfold wp in Hwp. unfold handler. destruct (route _ _ _ _ _ _ _ _ _ _ req h) as [[o s'] h']. destruct Hwp as (->&e&?&?&?).
  by exists s', h', e.
Qed.
End Once.
End Proxy.

(** ** Start-up *)
Module Start.
(** The capability set of a [CapNetBindService]; a new one has none. *)
Record CapNetBindService := mkCap { set_ : option Z }.
Record flags := mkFlags {
  address : string; upstreamServersStr : string; cacheSize : Z; memSizeMB : Z;
  maxFailures : Z; debug : bool; maxClients : Z; maxRTT : f64; localRRSFile : string;
}.
(** The variables of the package that [main] sets, the table of servers apart. *)
Record globals := mkGlobals {
  localRRS : list LocalRR; k1 : Z; k2 : Z; ringSize : Z; globalTimeout : Z; memSize : Z;
}.

Inductive event :=
  | OpenFile (file : string)            (* the lines of the scanner *)
  | CloseFile
  | RandRead (n : nat)
  | NewARC (n : Z)
  | Vacuum (e : Threads.event)
  | GoResolverThread
  | HandleFunc
  | HandleRemove
  | ResolveUDPAddr (a : string)
  | ListenUDP
  | SetBuffers (n : Z)
  | ResolveTCPAddr (a : string)
  | ListenTCP
  | GoServe (net : string)
  | Shutdown (net : string)
  | Println (s : string)
  | CapDup
  | CapGetFlag
  | CapSetFlag
  | CapSetProc (set : option Z)
  | Serving (g : globals).
Definition answer (e : event) : Type :=
  match e with
  | OpenFile _ => result (list string)
  | RandRead _ => list Z * option error
  | Vacuum e => Threads.answer e
  | ResolveUDPAddr _ | ListenUDP | ResolveTCPAddr _ | ListenTCP => option error
  | CapDup => result Z
  | CapGetFlag => bool * option error
  | CapSetFlag | CapSetProc _ => option error
  | _ => unit
  end.
Definition MaxUDPBufferSize : Z := 16 * 1024 * 1024.
Definition isVacuum (e : event) : option Threads.event :=
  match e with Vacuum x => Some x | _ => None end.

Section Start.
Context (NewRR : string → result (option RR)).
Context (env : list event → ∀ e, answer e) (tenv : list Threads.event → ∀ e, Threads.answer e).
Abbreviation mio := (io upstreamState event).
Abbreviation do e := (call env e).

Definition randUint64 : mio Z :=
  '(buf, err) ← do (RandRead 8);
  if decide (err ≠ None ∨ length buf ≠ 8%nat) then fatal "RNG failure"
  else mret (le_value buf).

(** The records of the lines, with the names in lower case. *)
Fixpoint scanRRS (lines : list string) (rrs : list LocalRR) : mio (list LocalRR) :=
  match lines with
  | [] => mret rrs
  | s :: lines' =>
      match NewRR s with
      | inr _ => fatal "failed to parse RR"
      | inl None => scanRRS lines' rrs
      | inl (Some rr) => scanRRS lines' (rrs ++ [mkLocal (toLower (rrName rr)) rr])
      end
  end.
Definition parseLocalRRSFile (file : string) : mio (list LocalRR) :=
  if decide (file = "") then mret []
  else
    r ← do (OpenFile file);
    match r with
    | inr e => fatal e
    | inl lines => deferring (emit CloseFile) (scanRRS lines [])
    end.

(** [AddCap] has a value receiver: the set it stores is lost when it returns. *)
Definition AddCap (capabilities : CapNetBindService) : mio (option error) :=
  dup ← do CapDup;
  match dup with
  | inr e => mret (Some e)
  | inl dupCapabilities =>
      '(on, err) ← do CapGetFlag;
      if negb on then
        mret (Some (default "insufficient privilege to bind to low ports" err))
      else
        err ← do CapSetFlag;
        match err with
        | Some e => mret (Some ("unable to set capability: " +:+ e))
        | None =>
            err ← do (CapSetProc (Some dupCapabilities));
            match err with
            | Some e => mret (Some ("unable to raise capabilities: " +:+ e))
            | None => mret None
            end
        end
  end.
Definition RemoveCap (capabilities : CapNetBindService) : mio unit :=
  err ← do (CapSetProc (set_ capabilities));
  match err with Some e => fatal e | None => mret tt end.
(** The interface of the two kinds of capabilities; the raw ones do nothing yet. *)
Class Capable (A : Type) := { addCap : A → mio (option error); removeCap : A → mio unit }.
Record CapRaw := mkCapRaw { rawSet : option Z }.
Definition rawAddCap (capabilities : CapRaw) : mio (option error) := mret None.
Definition rawRemoveCap (capabilities : CapRaw) : mio unit := mret tt.
#[export] Instance netBind_capability : Capable CapNetBindService :=
  {| addCap := AddCap; removeCap := RemoveCap |}.
#[export] Instance raw_capability : Capable CapRaw :=
  {| addCap := rawAddCap; removeCap := rawRemoveCap |}.

Definition orFatal (e : event) (get : answer e → option error) : mio unit :=
  r ← do e;
  match get r with Some e => fatal e | None => mret tt end.
Fixpoint goThreads (n : nat) : mio unit :=
  match n with O => mret tt | S n' => emit GoResolverThread ;; goThreads n' end.
Definition main (f : flags) (rounds : nat) : mio unit :=
  let memSize := u64 (memSizeMB f * (1024 * 1024)) in
  if decide (cacheSize f < 2) then fatal "Cache size too small"
  else
    rrs ← parseLocalRRSFile (localRRSFile f);
    emit (NewARC (cacheSize f)) ;;
    modify (λ st, mkUp (parseUpstreamServers (upstreamServersStr f)) (upstreamRtt st)) ;;
    k1 ← randUint64;
    k2 ← randUint64;
    let timeout := to_int64 (fmul (fmul (maxRTT f) (of_int 3)) (of_int 1000000000)) in
    emit (Serving (mkGlobals rrs k1 k2 (maxClients f) timeout memSize)) ;;
    lift_io Vacuum isVacuum (
      probe ← call tenv Threads.ProbeAll;
      modify (probeUpstreamServers (maxRTT f) probe)) ;;
    goThreads (Z.to_nat (maxClients f)) ;;
    emit HandleFunc ;;
    deferring (emit HandleRemove) (deferring (emit (Shutdown "udp")) (
      orFatal (ResolveUDPAddr (address f)) (λ r, r) ;;
      let capNetBind := mkCap None in
      err ← AddCap capNetBind;
      match err with
      | Some e => fatal e
      | None =>
          deferring (RemoveCap capNetBind) (
            orFatal ListenUDP (λ r, r) ;;
            emit (SetBuffers MaxUDPBufferSize) ;;
            deferring (emit (Shutdown "tcp")) (
              orFatal (ResolveTCPAddr (address f)) (λ r, r) ;;
              orFatal ListenTCP (λ r, r) ;;
              emit (GoServe "udp") ;;
              emit (GoServe "tcp") ;;
              emit (Println "Ready") ;;
              lift_io Vacuum isVacuum (Threads.vacuumThread (maxRTT f) memSize tenv rounds)))
      end)).

(** ** Local records *)
(** The records of a file all of whose lines are records, comments or empty. *)
Fixpoint recordsOf (lines : list string) : option (list RR) :=
  match lines with
  | [] => Some []
  | s :: lines' =>
      match NewRR s with
      | inr _ => None
      | inl None => recordsOf lines'
      | inl (Some rr) => cons rr <$> recordsOf lines'
      end
  end.
Definition localOf (rr : RR) : LocalRR := mkLocal (toLower (rrName rr)) rr.
Lemma scanRRS_run lines recs rrs st h :
  recordsOf lines = Some recs →
  scanRRS lines rrs st h = (Ret (rrs ++ (localOf <$> recs)), st, h).
Proof.
  revert recs rrs. induction lines as [|s lines IH]; intros recs rrs; simpl.
  { intros [= <-]. by rewrite app_nil_r. }
  destruct (NewRR s) as [[rr|]|e]; [|by apply IH|done].
  intros (recs'&Hr&->)%fmap_Some. rewrite (IH recs') by done. by rewrite <- app_assoc.
Qed.
Lemma parse_run file lines recs st h :
  file ≠ "" → env h (OpenFile file) = inl lines → recordsOf lines = Some recs →
  parseLocalRRSFile file st h = (Ret (localOf <$> recs), st, h ++ [OpenFile file; CloseFile]).
Proof.
  intros Hf Ho Hr. apply wp_eq. unfold parseLocalRRSFile. rewrite decide_False by done. wp_steps.
  rewrite Ho. wp_steps. unfold wp at 1. rewrite (scanRRS_run lines recs) by done. wp_steps.
  by rewrite <- app_assoc.
Qed.
Lemma find_local name recs i rr :
  list_find (λ r, toLower (rrName r) = toLower name) recs = Some (i, rr) →
  list_find (λ l, toLower name = localName l) (localOf <$> recs) = Some (i, localOf rr).
Proof.
  rewrite !list_find_Some. intros (Hi&Hn&Hb). rewrite list_lookup_fmap, Hi. split_and!; [done|done|].
  intros j l Hj Hlt. rewrite list_lookup_fmap in Hj. apply fmap_Some in Hj as (r&Hr&->).
  intros Heq. by apply (Hb j r).
Qed.

(** C35: A record of the file of local records is served for its name, in whatever case
    the file or the request spells it: the handler writes the first such record and does
    nothing else, neither looking into the cache nor asking a server.  The type that was
    asked for plays no role. *)
Theorem local_record_answered file lines recs st h minLabels CountLabel IsEdns0 UDPSize SetEdns0
    SetRcode Copy packedLen renv req key q i rr hr :
  file ≠ "" → env h (OpenFile file) = inl lines → recordsOf lines = Some recs →
  getKey CountLabel minLabels req = inl key → Questions req = [q] →
  list_find (λ r, toLower (rrName r) = toLower (Name q)) recs = Some (i, rr) →
  ∃ rrs, parseLocalRRSFile file st h = (Ret rrs, st, h ++ [OpenFile file; CloseFile]) ∧
    route minLabels rrs CountLabel IsEdns0 UDPSize SetEdns0 SetRcode Copy packedLen renv req hr
    = (Ret tt, req, hr ++ [WriteMsg (ownAnswer (Id (Hdr req)) rr)]).
Proof.
  intros Hf Ho Hr Hkey Hq Hfind. exists (localOf <$> recs). split; [by apply (parse_run _ lines)|].
  apply wp_eq. unfold route. wp_steps. rewrite Hkey. unfold handleSpecialNames. wp_steps.
  rewrite Hq. rewrite (find_local (Name q) recs i rr) by done. by wp_steps.
Qed.
End Start.
End Start.

Module ServeExamples.
Import RouteExamples.
(** The servers answer every query. *)
Definition configured : list string := ["8.8.8.8:53"; "8.8.4.4:53"].
Definition zeroRTT : UpstreamRTT := mkRTT (of_int 0) (of_int 0).
#[local] Instance exchanges_reply : Threads.DnsClient exchanges.
Proof. intros h e req Hx. destruct e; eexists; by split. Qed.
Definition tenv (_ : list Threads.event) (e : Threads.event) : Threads.answer e :=
  match e with
  | Threads.Now | Threads.MemAlloc => 0
  | Threads.Exchange x => exchanges [] x
  | Threads.ProbeAll => λ _, Some 5
  | _ => tt
  end.
(** What the threads answer for a request that has just been queued. *)
Definition responseTo (m : Msg) : option Threads.QueuedResponse :=
  head (Threads.responses
    (Threads.resolverRound 100 (flit 1 (-2)) (λ _, 0) tenv exchanges (Threads.mkQueued 0 m)
      (mkUp (parseUpstreamServers "8.8.8.8:53,8.8.4.4:53") zeroRTT) []).2).
Definition ringEnvOf (cv : option CacheVal) : list event → ∀ e, response e :=
  env cv (λ m, Threads.ofResponse (match Questions m with
                                     | [] => Threads.evictedResponse
                                     | _ => default Threads.evictedResponse (responseTo m) end)).
Abbreviation ringEnv := (ringEnvOf None).
Lemma ringEnv_ring cv :
  Threads.ringAnswers 100 (flit 1 (-2)) (λ _, 0) tenv exchanges configured (ringEnvOf cv).
Proof.
  intros h req. destruct (Questions req) as [|q qs] eqn:Hq.
  { exists Threads.evictedResponse. split; [by left|]. simpl. by rewrite Hq. }
  destruct (Threads.resolverRound 100 (flit 1 (-2)) (λ _, 0) tenv exchanges (Threads.mkQueued 0 req)
      (mkUp (parseUpstreamServers "8.8.8.8:53,8.8.4.4:53") zeroRTT) []) as [[o st'] k] eqn:Hrun.
  assert (Threads.serves configured (mkUp (parseUpstreamServers "8.8.8.8:53,8.8.4.4:53") zeroRTT)) as Hs.
  { apply (Threads.serves_parsed "8.8.8.8:53,8.8.4.4:53").
    apply (bool_decide_unpack _). vm_compute. exact I. }
  assert (∃ r, Threads.responses k = [r]) as [r Hk].
  { destruct (wp_run _ _ _ _ _ _ _
      (Threads.wp_resolverRound 100 (flit 1 (-2)) (λ _, 0) tenv exchanges configured
         ltac:(intros; lia) ltac:(vm_compute; discriminate) (Threads.mkQueued 0 req) _ []
         ltac:(simpl; by rewrite Hq) Hs) Hrun) as (_&_&Hr).
    apply Threads.responded_responses in Hr as (r&Hr&_). by exists r. }
  exists r. split.
  - right. split; [by rewrite Hq|]. exists 0, (mkUp (parseUpstreamServers "8.8.8.8:53,8.8.4.4:53") zeroRTT), [], o, st', k.
    split_and!; [exact Hs|exact Hrun|].
    assert (r ∈ Threads.responses k) as (e&He&Hr)%list_elem_of_omap by (rewrite Hk; by left).
    destruct e; try discriminate. injection Hr as ->. exact He.
  - cbn [ringEnvOf env]. rewrite Hq. unfold responseTo. rewrite Hrun. cbn [snd]. by rewrite Hk.
Qed.

Lemma proxy_answers_once_witness :
  ∃ req' h' e,
    route 2 [] countLabel noEdns0 udpSize addOpt rcode (λ m, m) len ringEnv request []
    = (Ret tt, req', h') ∧ repliesTo 4711 e ∧ last h' = Some e ∧ replies h' = [e].
Proof.
  exact (proxy_answers_once 100 (flit 1 (-2)) (λ _, 0) tenv exchanges configured
           ltac:(intros; lia) ltac:(vm_compute; discriminate) 2 [] countLabel noEdns0 udpSize addOpt
           rcode (λ m, m) len ringEnv (ringEnv_ring None) (λ _ _, eq_refl) (λ _ _ _, eq_refl) request []).
Defined.

(** A file with a comment and a record. *)
Definition newRR (s : string) : result (option RR) :=
  if decide (s = "; local") then inl None
  else inl (Some (mkRR s 1 ClassINET 60 false "10.0.0.1")).
Definition senv (h : list Start.event) (e : Start.event) : Start.answer e :=
  match e with
  | Start.OpenFile _ => inl ["; local"; "WWW.example.org."]
  | Start.RandRead n => (replicate n 1, None)
  | Start.Vacuum x => tenv [] x
  | Start.ResolveUDPAddr _ | Start.ListenUDP | Start.ResolveTCPAddr _ | Start.ListenTCP => None
  | Start.CapDup => inl 7
  | Start.CapGetFlag => (true, None)
  | Start.CapSetFlag | Start.CapSetProc _ => None
  | _ => tt
  end.
Lemma local_record_answered_witness :
  ∃ rrs, Start.parseLocalRRSFile newRR senv "rrs" (mkUp (parseUpstreamServers "") zeroRTT) []
         = (Ret rrs, mkUp (parseUpstreamServers "") zeroRTT, [Start.OpenFile "rrs"; Start.CloseFile]) ∧
    route 2 rrs countLabel noEdns0 udpSize addOpt rcode (λ m, m) len ringEnv request []
    = (Ret tt, request, [WriteMsg (ownAnswer 4711 (mkRR "WWW.example.org." 1 ClassINET 60 false "10.0.0.1"))]).
Proof.
  refine (Start.local_record_answered newRR senv "rrs" ["; local"; "WWW.example.org."] _ _ [] 2
            countLabel noEdns0 udpSize addOpt rcode (λ m, m) len ringEnv request key question 0 _ []
            _ _ _ _ _ _);
    [discriminate|reflexivity|vm_compute; reflexivity|vm_compute; reflexivity|reflexivity|
     vm_compute; reflexivity].
Defined.
(** The start: two threads, and the set of capabilities that is dropped is none. *)
Definition flags : Start.flags :=
  Start.mkFlags ":53" "8.8.8.8:53,8.8.4.4:53" 1024 2 100 false 2 (flit 1 (-2)) "".
Example start_timeout :
  let '(o, st, h) := Start.main newRR senv tenv flags 1 (mkUp (mkUpstream [] []) zeroRTT) [] in
  o = Exit "signal: interrupt" ∧ live (upstream st) = configured ∧
  Start.Serving (Start.mkGlobals [] 72340172838076673 72340172838076673 2 750000000 2097152) ∈ h.
Proof. vm_compute. split_and!; [reflexivity..|]. repeat constructor. Qed.
End ServeExamples.
