(* ===== verification/JojoProxy.v ===== *)
(** * The DNS proxy jojo (src/jojo/): many requests at the same time

    The server runs [route] in a goroutine of its own for every request, and all of them
    share the cache.  A family of handlers, each with its request and its environment,
    stands for every interleaving: all that one handler sees of the others is what the
    cache returns. *)
From stdpp Require Import base gmap strings numbers list.
From S2P Require Import Prelude GoStrings Float64 Jojo JojoRoute JojoServe.
Local Open Scope Z_scope.
Set Default Proof Using "Type*".

(** What a request adds to the cache. *)
Definition adds (h : list event) : list (CacheKey * CacheVal) :=
  omap (λ e, match e with CacheAdd k v => Some (k, v) | _ => None end) h.
Lemma adds_snoc h e :
  match e with CacheAdd _ _ => False | _ => True end → adds (h ++ [e]) = adds h.
Proof. unfold adds. rewrite omap_app. destruct e; try done; intros _; by rewrite app_nil_r. Qed.

Lemma fresh_before now v : fresh now v = true → now < ValidUntil v.
Proof.
  intros Hf%bool_decide_eq_true. unfold timeSub in Hf.
  destruct (decide (now < ValidUntil v)) as [|Hn]; [done|exfalso].
  revert Hf. rewrite wrapS_id; unfold inS; lia.
Qed.

Section Handlers.
Context (maxFailures : Z) (maxRTT : f64) (siphash : string → Z).
Context (tenv : list Threads.event → ∀ e, Threads.answer e).
Context (exchange : list Sync.event → Sync.event → Sync.exchange) `{!Threads.DnsClient exchange}.
Context (configured : list string).
Context (siphash_range : ∀ name, 0 ≤ siphash name < 2 ^ 64).
Context (configured_count : Z.of_nat (length configured) ≤ MaxUint64).
Context (minLabels : Z) (localRRS : list LocalRR).
Context (CountLabel : string → Z) (IsEdns0 : Msg → option RR) (UDPSize : RR → Z).
Context (SetEdns0 : Msg → Z → bool → Msg) (SetRcode : Msg → Z → Msg).
Context (Copy : Msg → Msg) (packedLen : Msg → Z).

(** The handlers: their requests and what they get to see. *)
Context {I : Type} (reqs : I → Msg) (env : I → list event → ∀ e, response e).
Context (ring : ∀ i, Threads.ringAnswers maxFailures maxRTT siphash tenv exchange configured (env i)).

Definition serve (i : I) : io Msg event unit :=
  handler minLabels localRRS CountLabel IsEdns0 UDPSize SetEdns0 SetRcode Copy packedLen (env i).
(** All that the handler of a request does. *)
Definition done_by (i : I) : list event := (serve i (reqs i) []).2.

(** [kv] is what handler [i] has received from a configured server for its own request:
    kept under the key of the request, for as long as the message says from then on. *)
Definition received (i : I) (kv : CacheKey * CacheVal) : Prop :=
  getKey CountLabel minLabels (reqs i) = inl kv.1 ∧
  ∃ h m, kv.2 = mkVal (env i h Now + getMinTTL (setCompress m)) (setCompress m) ∧
    Threads.fromUpstream exchange configured (upstreamReq SetEdns0 kv.1 (reqs i)) m.

(** Where the one reply to a request comes from; [stored] says what the cache holds. *)
Inductive provenance (stored : CacheKey → CacheVal → Prop) (i : I) : event → Prop :=
  | p_close : provenance stored i Close
  | p_refused e :
      getKey CountLabel minLabels (reqs i) = inr e →
      provenance stored i (WriteMsg (SetRcode (reqs i) RcodeRefused))
  | p_local q qs l :
      Questions (reqs i) = q :: qs → l ∈ localRRS → toLower (Name q) = localName l →
      provenance stored i (WriteMsg (ownAnswer (Id (Hdr (reqs i))) (localRR l)))
  | p_any q qs :
      Questions (reqs i) = q :: qs → Qtype q = TypeANY →
      provenance stored i (WriteMsg (ownAnswer (Id (Hdr (reqs i))) (hinfo (Name q))))
  | p_truncated hdr : provenance stored i (WriteMsg (truncatedResp hdr))
  | p_failed hdr : provenance stored i (HandleFailed (emptyResp hdr))
  | p_upstream key v :
      received i (key, v) → provenance stored i (WriteMsg (cached v))
  | p_cached key v h m :
      getKey CountLabel minLabels (reqs i) = inl key → stored key v →
      env i h Now < ValidUntil v →
      m = setQuestions (Questions (reqs i)) (setId (Id (Hdr (reqs i))) (cached v)) →
      provenance stored i (WriteMsg m)
  | p_stale key v h e m :
      getKey CountLabel minLabels (reqs i) = inl key → stored key v →
      env i h (ResolverRing (upstreamReq SetEdns0 key (reqs i))) = inr e →
      Answer m = Answer (cached v) → Ns m = Ns (cached v) → Extra m = Extra (cached v) →
      provenance stored i (WriteMsg m).

(** ** One handler *)
(** Nothing has been answered yet, and what was added was received. *)
Definition waiting (i : I) (h : list event) : Prop :=
  replies h = [] ∧ Forall (received i) (adds h).
Section Handler.
Context (stored : CacheKey → CacheVal → Prop) (i : I).
Definition finished (o : outcome unit) (_ : Msg) (h : list event) : Prop :=
  o = Ret tt ∧ (∃ e, provenance stored i e ∧ replies h = [e]) ∧ Forall (received i) (adds h).

Lemma waiting_snoc h e :
  isReply e = false → match e with CacheAdd k v => received i (k, v) | _ => True end →
  waiting i h → waiting i (h ++ [e]).
Proof.
  intros He Ha [Hr Hadds]. split; [by rewrite replies_snoc|]. unfold adds. rewrite omap_app.
  apply Forall_app_2; [done|]. destruct e; try constructor; [done|constructor].
Qed.
Lemma finished_emit h e s :
  isReply e = true → provenance stored i e → waiting i h → finished (Ret tt) s (h ++ [e]).
Proof.
  intros He Hp [Hr Hadds]. split; [done|]. split.
  - exists e. split; [done|]. unfold replies in *. rewrite filter_app, Hr. by destruct e.
  - rewrite adds_snoc; [done|]. by destruct e.
Qed.

Lemma finished_truncated hdr s h :
  waiting i h → wp (sendTruncated (env i) hdr) finished s h.
Proof.
  intros Hw. unfold sendTruncated. wp_steps.
  wp_if; wp_steps; (apply finished_emit; [done|constructor|by apply waiting_snoc]).
Qed.
Lemma finished_reply n m s h :
  provenance stored i (WriteMsg m) → waiting i h → wp (reply packedLen (env i) n m) finished s h.
Proof.
  intros Hp Hw. unfold reply. wp_if; [by apply finished_truncated|]. wp_steps. by apply finished_emit.
Qed.

(** A step that has finished says so, or nothing has changed. *)
Definition maybeFinished (o : outcome bool) (s : Msg) (h : list event) : Prop :=
  o = Ret true ∧ finished (Ret tt) s h ∨ o = Ret false ∧ s = reqs i ∧ waiting i h.
Lemma finished_special h :
  Questions (reqs i) ≠ [] → waiting i h →
  wp (handleSpecialNames localRRS) maybeFinished (reqs i) h.
Proof.
  intros Hq Hw. unfold handleSpecialNames. wp_steps. destruct (Questions (reqs i)) as [|q qs] eqn:HQ; [done|].
  destruct (list_find _ _) as [[n l]|] eqn:Hf; [|case_decide as Hany]; wp_steps; [left|by right|left];
    (split; [done|]); apply finished_emit; try done.
  - apply list_find_Some in Hf as (Hl&Hn&_). eapply p_local; [done| |done]. by eapply list_elem_of_lookup_2.
  - eapply p_any; [done|]. by destruct (decide (Qtype q = TypeANY)).
Qed.
Lemma finished_slipped h : waiting i h → wp (slipped (env i)) maybeFinished (reqs i) h.
Proof.
  intros Hw. unfold slipped. wp_steps. wp_if; wp_steps.
  2: { right. split_and!; [done..|]. by apply waiting_snoc. }
  case_decide; wp_steps.
  - eapply wp_mono; [|apply finished_truncated; by do 2 (apply waiting_snoc; [done..|])].
    intros o s h' Hf. pose proof Hf as [-> _]. wp_steps. by left.
  - left. split; [done|]. apply finished_emit; [done|constructor|]. by do 2 (apply waiting_snoc; [done..|]).
Qed.

(** What miekg/dns documents: a copy is equal to the original. *)
Context (Copy_same : ∀ m, Copy m = m).
Lemma finished_resolve key n cv h :
  getKey CountLabel minLabels (reqs i) = inl key →
  match cv with Some v => stored key v | None => True end → waiting i h →
  wp (resolveAndReply SetEdns0 Copy packedLen (env i) key n cv) finished (reqs i) h.
Proof.
  intros Hkey Hcv Hw. unfold resolveAndReply. wp_steps. eapply wp_mono; [|by apply finished_slipped].
  intros o s h1 [[-> Hf]|(->&->&Hw1)]; wp_steps; [done|]. unfold resolve. wp_steps.
  fold (upstreamReq SetEdns0 key (reqs i)). set (up := upstreamReq SetEdns0 key (reqs i)).
  destruct (ring i h1 up) as (r&Hp&Hr).
  assert (waiting i (h1 ++ [ResolverRing up])) as Hw2 by by apply waiting_snoc.
  destruct (env i h1 (ResolverRing up)) as [[m|]|e] eqn:He; wp_steps.
  - assert (Threads.fromUpstream exchange configured up m) as Hm.
    { unfold Threads.ofResponse in Hr. destruct (Threads.err r) eqn:Herr; [done|].
      eapply Threads.possible_upstream in Herr as (m'&Hm'&?); [|done..]. congruence. }
    assert (∀ h', received i (key, mkVal (env i h' Now + getMinTTL (setCompress m)) (setCompress m)))
      as Hrec by (intros h'; split; [done|]; by exists h', m).
    apply finished_reply; [exact (p_upstream _ _ _ _ (Hrec []))|].
    apply waiting_snoc; [done|apply Hrec|by apply waiting_snoc].
  - exfalso. unfold Threads.ofResponse in Hr. destruct (Threads.err r) eqn:Herr; [done|].
    eapply Threads.possible_upstream in Herr as (m'&Hm'&?); [|done..]. congruence.
  - destruct cv as [v|]; wp_steps; [|by apply finished_emit; [|constructor|]].
    apply finished_reply; [|done]. unfold fromCache. rewrite Copy_same.
    by eapply p_stale.
Qed.
Lemma wp_serve :
  (∀ h key v, env i h (CacheGet key) = Some v → stored key v) →
  wp (serve i) finished (reqs i) [].
Proof.
  intros Hstored. assert (waiting i []) as Hnil by by split. unfold serve, handler, route. wp_steps.
  destruct (getKey CountLabel minLabels (reqs i)) as [key|e] eqn:Hkey.
  2: { unfold failWithRcode. wp_steps. apply finished_emit; [done|by eapply p_refused|done]. }
  assert (Questions (reqs i) ≠ []) as Hq by (intros Hq; unfold getKey in Hkey; by rewrite Hq in Hkey).
  wp_steps. eapply wp_mono; [|by apply finished_special].
  intros o s h1 [[-> Hf]|(->&->&Hw)]; wp_steps; [done|].
  assert (waiting i (h1 ++ [CacheGet key])) as Hw1 by by apply waiting_snoc.
  destruct (env i h1 (CacheGet key)) as [v|] eqn:Hget; wp_steps; [|by apply finished_resolve].
  apply Hstored in Hget. destruct (fresh _ v) eqn:Hfresh; wp_steps.
  - apply finished_reply; [|by apply waiting_snoc]. unfold fromCache. rewrite Copy_same.
    eapply p_cached; [done|done| |done]. by apply fresh_before.
  - apply finished_resolve; [done..|]. by apply waiting_snoc.
Qed.
End Handler.

(** ** All of them *)
Section Family.
(** What the libraries document: a copy is equal to the original, an error reply and an
    added OPT record keep the identifier, and the cache returns for a key only what has
    been added under that key, by one of the handlers. *)
Context (Copy_same : ∀ m, Copy m = m).
Context (SetRcode_Id : ∀ r c, Id (Hdr (SetRcode r c)) = Id (Hdr r)).
Context (SetEdns0_Hdr : ∀ r n d, Hdr (SetEdns0 r n d) = Hdr r).
Context (cache_adds : ∀ i h key v, env i h (CacheGet key) = Some v →
           ∃ j, CacheAdd key v ∈ done_by j).

(** Only genuine answers get into the cache. *)
Lemma added_received i key v : CacheAdd key v ∈ done_by i → received i (key, v).
Proof.
  intros Hin. pose proof (wp_serve (λ _ _, True) i Copy_same (λ _ _ _ _, Logic.I)) as Hwp.
  unfold wp in Hwp. unfold done_by in Hin. destruct (serve i (reqs i) []) as [[o s] h].
  destruct Hwp as (_&_&Hadds). rewrite Forall_forall in Hadds. apply Hadds.
  apply list_elem_of_omap. by exists (CacheAdd key v).
Qed.

End Family.
End Handlers.

Module ProxyExamples.
Import RouteExamples ServeExamples.
#[local] Instance exchanges_reply_all : Threads.DnsClient exchanges.
Proof. intros h e req Hx. destruct e; eexists; by split. Qed.
(** Two requests for the same name: [false] is resolved, [true] finds its answer. *)
Definition two (i : bool) : Msg :=
  if i then mkMsg (mkHdr 4712 false false 0) [mkQuestion "WWW.example.org." 1 ClassINET] [] [] [] false
  else request.
Definition kept : CacheVal :=
  mkVal (1000 + getMinTTL (setCompress (RouteExamples.answer 4711))) (setCompress (RouteExamples.answer 4711)).
Definition twoEnv (i : bool) : list event → ∀ e, response e := λ h e,
  match e with
  | CacheGet k => if decide (i = true ∧ k = key) then Some kept else None
  | e' => ringEnv h e'
  end.
Abbreviation serveTwo := (serve 2 [] countLabel noEdns0 udpSize addOpt rcode (λ m, m) len twoEnv).
Abbreviation twoDone := (done_by 2 [] countLabel noEdns0 udpSize addOpt rcode (λ m, m) len two twoEnv).
Example second_from_cache :
  twoDone true = [CacheGet key; Now;
    WriteMsg (setQuestions (Questions (two true)) (setId 4712 (setCompress (RouteExamples.answer 4711))))].
Proof. vm_compute. reflexivity. Qed.
End ProxyExamples.
