(* ===== verification/JojoProbe.v ===== *)
(** * jojo: a probe of the upstream servers while requests fail (src/jojo/jojo.go)

    [probeUpstreamServers] takes the lock only to begin and to end: while it waits for
    answers, resolver threads go on marking servers as failed, in the same array.  The
    probe is a transition system of its reads, its exchanges and its unlocked writes;
    [markFailed], which holds the lock, is one step. *)
From stdpp Require Import base strings numbers list relations.
From S2P Require Import Prelude Float64 Jojo.
Local Open Scope Z_scope.

(** [At i acc]: before the server with index [i]; [Asking]: waiting for the answer of the
    server that was read; [Resetting]: before [resetRTT]. *)
Inductive phase :=
  | Idle
  | At (i : nat) (acc : list string)
  | Asking (i : nat) (server : string) (acc : list string)
  | Resetting.
Record state := mkState { table : upstreamState; probing : phase }.

Definition setServer (i : nat) (s : UpstreamServer) (st : upstreamState) : upstreamState :=
  mkUp (mkUpstream (<[i := s]> (servers (upstream st))) (live (upstream st))) (upstreamRtt st).
Definition setLive (lv : list string) (st : upstreamState) : upstreamState :=
  mkUp (mkUpstream (servers (upstream st)) lv) (upstreamRtt st).
(** A server that is not asked. *)
Definition assumed (s : UpstreamServer) : bool := bool_decide (offline s = false ∧ failures s > 0).

Section Probe.
Context (maxFailures : Z).

Inductive step : state → state → Prop :=
  | step_begin st : step (mkState st Idle) (mkState st (At 0 []))
  | step_assume st i acc s :
      servers (upstream st) !! i = Some s → assumed s = true →
      step (mkState st (At i acc)) (mkState st (At (S i) (acc ++ [addr s])))
  | step_ask st i acc s :
      servers (upstream st) !! i = Some s → assumed s = false →
      step (mkState st (At i acc)) (mkState st (Asking i (addr s) acc))
  | step_good st i a acc :             (* an answer in time *)
      step (mkState st (Asking i a acc))
           (mkState (setServer i (mkServer a 0 false) st) (At (S i) (acc ++ [a])))
  | step_bad st i a acc :              (* an error, or an answer too late *)
      step (mkState st (Asking i a acc)) (mkState st (At (S i) acc))
  | step_end st i acc :
      (length (servers (upstream st)) ≤ i)%nat →
      step (mkState st (At i acc)) (mkState (setLive acc st) Resetting)
  | step_reset st : step (mkState st Resetting) (mkState (resetRTT st) Idle)
  | step_mark st p a : step (mkState st p) (mkState (markFailed maxFailures a st) p).

(** ** What survives the race *)
Definition ofTable (addrs : list string) (p : phase) : Prop :=
  match p with
  | At i acc => acc `sublist_of` take i addrs
  | Asking i a acc => acc `sublist_of` take i addrs ∧ addrs !! i = Some a
  | _ => True
  end.
Record inv (addrs : list string) (s : state) : Prop := {
  inv_addrs : addr <$> servers (upstream (table s)) = addrs;
  inv_live : live (upstream (table s)) `sublist_of` addrs;
  inv_probe : ofTable addrs (probing s);
}.

Lemma sublist_snoc_take (addrs acc : list string) i a :
  acc `sublist_of` take i addrs → addrs !! i = Some a → (acc ++ [a]) `sublist_of` take (S i) addrs.
Proof. intros Ha Hi. rewrite (take_S_r _ _ _ Hi). by apply sublist_app. Qed.
Lemma sublist_take_S (addrs acc : list string) i :
  acc `sublist_of` take i addrs → acc `sublist_of` take (S i) addrs.
Proof.
  intros Ha. etrans; [done|]. replace i with (i `min` S i)%nat at 1 by lia.
  rewrite <- take_take. apply sublist_take.
Qed.

(** Marking, on any table whose live list names servers of it. *)
Lemma mark_addrs a st :
  addr <$> servers (upstream (markFailed maxFailures a st)) = addr <$> servers (upstream st).
Proof.
  unfold markFailed. destruct (countFailure maxFailures a (servers (upstream st))) as [r ss] eqn:Hc.
  apply countFailure_flags, flags_addr in Hc. destruct r; [done|]. case_decide.
  - by rewrite reset_addr.
  - etrans; [apply takeOffline_addr|done].
Qed.
Lemma mark_live a st :
  live (upstream st) `sublist_of` (addr <$> servers (upstream st)) →
  live (upstream (markFailed maxFailures a st)) `sublist_of` (addr <$> servers (upstream st)).
Proof.
  intros Hl. unfold markFailed.
  destruct (countFailure maxFailures a (servers (upstream st))) as [r ss] eqn:Hc.
  apply countFailure_flags, flags_addr in Hc. destruct r; [done|]. case_decide.
  - unfold resetUpstreamServersNoLock. case_decide; [done|]. simpl. by rewrite <- Hc.
  - simpl. rewrite <- Hc. apply fmap_sublist, sublist_filter.
Qed.
Lemma setServer_addrs addrs i a st :
  addr <$> servers (upstream st) = addrs → addrs !! i = Some a →
  addr <$> servers (upstream (setServer i (mkServer a 0 false) st)) = addrs.
Proof. intros <- Hi. simpl. rewrite list_fmap_insert. by apply list_insert_id. Qed.

Lemma inv_step_probe addrs s s' : step s s' → inv addrs s → inv addrs s'.
Proof.
  intros Hstep [Ha Hl Hp]. destruct Hstep as [st|st i acc s Hs Has|st i acc s Hs Has|st i a acc|st i a acc
    |st i acc Hlen|st|st p a]; simpl in *; split; simpl; try done.
  - apply sublist_snoc_take; [done|]. rewrite <- Ha, list_lookup_fmap, Hs. done.
  - split; [done|]. rewrite <- Ha, list_lookup_fmap, Hs. done.
  - destruct Hp as [_ Hi]. by apply setServer_addrs.
  - destruct Hp as [Hp Hi]. by apply sublist_snoc_take.
  - destruct Hp as [Hp _]. by apply sublist_take_S.
  - etrans; [done|]. apply sublist_take.
  - by rewrite mark_addrs.
  - rewrite <- Ha in *. by apply mark_live.
Qed.
Lemma inv_reachable_probe addrs s s' : rtc step s s' → inv addrs s → inv addrs s'.
Proof. induction 1 as [|s1 s2 s3 Hs _ IH]; [done|]. intros Hi. by eapply IH, inv_step_probe. Qed.

(** C19: However probes and failures interleave, from the table that was configured on: the
    table keeps its servers, the live list names servers of the table, in its order and
    so without repeating one, and picking a server for a name answers without indexing
    out of range, with one of the configured servers or with the error that all are
    down. *)
Theorem probe_race_safe str rtt s h :
  rtc step (mkState (mkUp (parseUpstreamServers str) rtt) Idle) s → 0 ≤ h < 2 ^ 64 →
  let addrs := live (parseUpstreamServers str) in
  let u := upstream (table s) in
  Z.of_nat (length addrs) ≤ MaxUint64 →
  addr <$> servers u = addrs ∧ live u `sublist_of` addrs ∧
  (pickServer h u = Ret (inr "All upstream servers are down") ∨
   ∃ a, pickServer h u = Ret (inl a) ∧ a ∈ addrs).
Proof.
  intros Hr Hh addrs u Hn.
  assert (inv addrs s) as [Ha Hl _].
  { eapply inv_reachable_probe; [done|]. split; simpl; [|done|done].
    unfold addrs, parseUpstreamServers. simpl. rewrite <- list_fmap_compose. by apply list_fmap_id. }
  split; [done|]. split; [done|].
  destruct (decide (live u = [])) as [Hnil|Hne].
  { left. unfold pickServer. by rewrite Hnil. }
  right. destruct (pickServer_spec h u) as (i&a&Hpick&Hi&_); [done|done| |].
  - apply sublist_length in Hl. fold u in Hl. lia.
  - exists a. split; [done|]. eapply elem_of_sublist; [by eapply list_elem_of_lookup_2|done].
Qed.
End Probe.

(** ** What does not

    Without a race marking never empties the live list.  Here the server a answers its
    probe and fails right after, so that the end of the probe makes it live although it is
    off line; when then b fails, no server is left, until the next probe. *)
Module ProbeExamples.
Definition rtt : UpstreamRTT := mkRTT (of_int 0) (of_int 0).
Definition start : state := mkState (mkUp (parseUpstreamServers "a,b") rtt) Idle.
Definition both : upstreamState :=
  mkUp (mkUpstream [mkServer "a" 1 true; mkServer "b" 0 false] ["a"; "b"]) rtt.
Definition empty : upstreamState :=
  mkUp (mkUpstream [mkServer "a" 1 true; mkServer "b" 1 true] []) rtt.
Lemma race_stale : rtc (step 1) start (mkState both Resetting).
Proof.
  eapply rtc_l; [apply step_begin|]. eapply rtc_l; [by eapply (step_ask _ _ 0)|].
  eapply rtc_l; [apply step_good|]. eapply rtc_l; [apply (step_mark _ _ _ "a")|].
  eapply rtc_l; [by eapply (step_ask _ _ 1)|]. eapply rtc_l; [apply step_good|].
  eapply rtc_l; [apply step_end; vm_compute; lia|]. apply rtc_refl.
Qed.
Lemma race_empties : rtc (step 1) start (mkState empty Resetting).
Proof. eapply rtc_r; [apply race_stale|]. exact (step_mark 1 both Resetting "b"). Qed.
Lemma probe_race_safe_witness :
  addr <$> servers (upstream empty) = ["a"; "b"] ∧
  pickServer 7 (upstream empty) = Ret (inr "All upstream servers are down").
Proof.
  destruct (probe_race_safe 1 "a,b" rtt _ 7 race_empties ltac:(lia) ltac:(vm_compute; discriminate))
    as (Ha&_&_).
  split; [exact Ha|reflexivity].
Defined.
End ProbeExamples.
