(* ===== verification/Dhcp.v ===== *)
(** * The DHCP server opendhcpd (src/opendhcpd/)

    The lease table, the choice of a free address, the handling of the message
    types, the construction of the handler and the choice of the local address.
    The packet functions of krolaw/dhcp4 are parameters; the clock, the random
    number generator and Go's unspecified order of ranging over a map answer
    through the environment. *)
From stdpp Require Import base gmap fin_maps strings numbers list.
From S2P Require Import Prelude Float64.
Local Open Scope Z_scope.
Set Default Proof Using "Type*".

(** ** Addresses: [net.IP] is a slice of bytes *)
Definition IP : Type := list Z.
Definition v4InV6Prefix : IP := [0; 0; 0; 0; 0; 0; 0; 0; 0; 0; 255; 255].
Definition IPv4zero : IP := v4InV6Prefix ++ [0; 0; 0; 0].
Definition IPv4bcast : IP := v4InV6Prefix ++ [255; 255; 255; 255].
Definition IPv6loopback : IP := replicate 15 0 ++ [1].

(** [IP.To4]: [None] is [nil]. *)
Definition To4 (ip : IP) : option IP :=
  if decide (length ip = 4%nat) then Some ip
  else if decide (length ip = 16%nat ∧ take 12 ip = v4InV6Prefix) then Some (drop 12 ip)
  else None.
(** [IP.Equal]: an IPv4 address equals its form in IPv6. *)
Definition ipEqual (a b : IP) : bool :=
  if decide (length a = length b) then bool_decide (a = b)
  else if decide (length a = 4%nat ∧ length b = 16%nat) then
    bool_decide (take 12 b = v4InV6Prefix ∧ drop 12 b = a)
  else if decide (length a = 16%nat ∧ length b = 4%nat) then
    bool_decide (take 12 a = v4InV6Prefix ∧ drop 12 a = b)
  else false.

Definition byteAt (ip : IP) (i : nat) : Z := default 0 (ip !! i).
Definition IsLoopback (ip : IP) : bool :=
  match To4 ip with
  | Some ip4 => bool_decide (byteAt ip4 0 = 127)
  | None => ipEqual ip IPv6loopback
  end.
Definition IsMulticast (ip : IP) : bool :=
  match To4 ip with
  | Some ip4 => bool_decide (Z.land (byteAt ip4 0) 240 = 224)
  | None => bool_decide (length ip = 16%nat ∧ byteAt ip 0 = 255)
  end.
Definition IsLinkLocalUnicast (ip : IP) : bool :=
  match To4 ip with
  | Some ip4 => bool_decide (byteAt ip4 0 = 169 ∧ byteAt ip4 1 = 254)
  | None => bool_decide (length ip = 16%nat ∧ byteAt ip 0 = 254 ∧ Z.land (byteAt ip 1) 192 = 128)
  end.
Definition IsUnspecified (ip : IP) : bool :=
  ipEqual ip IPv4zero || ipEqual ip (replicate 16 0).
Definition IsGlobalUnicast (ip : IP) : bool :=
  bool_decide (length ip = 4%nat ∨ length ip = 16%nat) &&
  negb (ipEqual ip IPv4bcast) && negb (IsUnspecified ip) && negb (IsLoopback ip) &&
  negb (IsMulticast ip) && negb (IsLinkLocalUnicast ip).

(** ** helper.go *)
(** A network interface: its flags and its addresses ([None] for an address that
    is neither an [IPNet] nor an [IPAddr]). *)
Record Interface := mkInterface { Flags : Z; Addrs : result (list (option IP)) }.
Definition FlagUp : Z := 1.
Definition FlagLoopback : Z := 4.

Fixpoint firstUnicast (addrs : list (option IP)) : option IP :=
  match addrs with
  | [] => None
  | a :: addrs =>
      let ip := default [] a in
      if IsGlobalUnicast ip then Some ip else firstUnicast addrs
  end.
Fixpoint localipLoop (nifs : list Interface) : result IP :=
  match nifs with
  | [] => inr "valid IP address not found for all network interfaces"
  | nif :: nifs =>
      match Addrs nif with
      | inr err => inr err
      | inl addrs =>
          if decide (Z.land (Flags nif) FlagUp = 0 ∨ Z.land (Flags nif) FlagLoopback ≠ 0)
          then localipLoop nifs
          else match firstUnicast addrs with
               | Some ip => inl ip
               | None => localipLoop nifs
               end
      end
  end.
Definition Localip (Interfaces : result (list Interface)) : result IP :=
  match Interfaces with
  | inr err => inr err
  | inl nifs => localipLoop nifs
  end.

(** ** Data *)
Record lease := mkLease { nic : string; expiry : Z }.
Definition Options : Type := gmap Z IP.

Record dhcpCtx := mkCtx {
  bindIP : IP; routerIP : IP; dnsIP : IP; subnetMask : IP; startIP : IP;
  numLeaseMax : Z; ctxLeaseDuration : Z; domainName : IP;
}.
Record Handler := mkHandler {
  ip : IP;
  options : Options;
  start : IP;
  leaseRange : Z;
  leaseDuration : Z;
  leases : gmap Z lease;
}.
Definition setLeases (l : gmap Z lease) (h : Handler) : Handler :=
  mkHandler (ip h) (options h) (start h) (leaseRange h) (leaseDuration h) l.

(** Option codes and message types of dhcp4. *)
Definition OptionSubnetMask : Z := 1.
Definition OptionRouter : Z := 3.
Definition OptionDomainNameServer : Z := 6.
Definition OptionDomainName : Z := 15.
Definition OptionRequestedIPAddress : Z := 50.
Definition OptionServerIdentifier : Z := 54.
Definition OptionParameterRequestList : Z := 55.
Inductive MessageType := Discover | Offer | Request | Decline | ACK | NAK | Release | Inform.
#[global] Instance MessageType_eq_dec : EqDecision MessageType.
Proof. solve_decision. Defined.

(** The fields of a packet the server reads; [CHAddr] is the printed address. *)
Record Packet := mkPacket { CIAddr : IP; CHAddr : string }.
(** The arguments of [dhcp.ReplyPacket]. *)
Record Reply := mkReply {
  replyTo : Packet; mt : MessageType; serverId : IP; yIAddr : option IP;
  duration : Z; replyOptions : list (Z * IP);
}.

Definition newDHCPv4Handler (io : dhcpCtx) : Handler :=
  mkHandler (bindIP io)
    (<[OptionSubnetMask := subnetMask io]> (<[OptionRouter := routerIP io]>
      (<[OptionDomainNameServer := dnsIP io]> (<[OptionDomainName := domainName io]> ∅))))
    (startIP io) (numLeaseMax io) (ctxLeaseDuration io) ∅.

(** ** dhcp_handler.go *)
Section New.
(** [net.ParseIP] with [To4], and the trimming of the domain name to its first and
    last letter or digit. *)
Context (ParseIP4 : string → option IP) (trimName : string → IP).

Definition New (local : result IP) (startS router netmask dns : string) (max leaseSec : Z)
    (domain : string) : result Handler :=
  match local with
  | inr err => inr err
  | inl l =>
      let l := default [] (To4 l) in
      match ParseIP4 startS with
      | None => inr "failed to parse start IP address"
      | Some si =>
      match ParseIP4 router with
      | None => inr "failed to parse default gateway IP address"
      | Some r =>
      match ParseIP4 dns with
      | None => inr "failed to parse DNS IP address"
      | Some d =>
      match ParseIP4 netmask with
      | None => inr "failed to parse netmask IP address"
      | Some sm =>
          if decide (leaseSec ≤ 0) then
            inr "lease duration must be > 0 seconds. ideally, keep it above 7200 seconds"
          else
            let ld := i64 (leaseSec * Second) in
            let dn := trimName domain in
            if decide (dn = []) then
              inr "invalid domain name was provided. ideally, use non-unicode (for now) domain names"
            else inl (newDHCPv4Handler (mkCtx l r d sm si max ld dn))
      end end end end
  end.
End New.

(** ** dhcp_internal.go *)
Inductive event := Now | Intn (n : Z) | RangeLeases (m : gmap Z lease).
Definition answer (e : event) : Type :=
  match e with Now | Intn _ => Z | RangeLeases _ => list (Z * lease) end.

Section Server.
(** The functions of dhcp4. *)
Context (IPAdd : IP → Z → IP) (IPRange : IP → IP → Z).
Context (SelectOrderOrAll : Options → option IP → list (Z * IP)).
Context (env : list event → ∀ e, answer e).
Abbreviation dio := (io Handler event).

(** No lease of the number, or one that expired before [now]. *)
Definition freeAt (now : Z) (m : gmap Z lease) (i : Z) : bool :=
  match m !! i with None => true | Some l => bool_decide (expiry l < now) end.
(** The inner loop: the first free number of [i, i + n). *)
Fixpoint scan (now : Z) (m : gmap Z lease) (i : Z) (n : nat) : option Z :=
  match n with
  | O => None
  | S n => if freeAt now m i then Some i else scan now m (i + 1) n
  end.
Definition freeLease : dio Z :=
  h ← get;
  now ← call env Now;
  if decide (leaseRange h ≤ 0) then panic "invalid argument to Intn"
  else
    b ← call env (Intn (leaseRange h));
    match scan now (leases h) b (Z.to_nat (leaseRange h - b)) with
    | Some i => mret i
    | None =>
        match scan now (leases h) 0 (Z.to_nat b) with
        | Some i => mret i
        | None => mret (-1)
        end
    end.

(** The first lease of the client in the order of the range. *)
Definition findNic (c : string) (l : list (Z * lease)) : option Z :=
  (λ '(_, (i, _)), i) <$> list_find (λ '(i, v), nic v = c) l.

Definition offer (p : Packet) (opts : Options) (h : Handler) (free : Z) : Reply :=
  mkReply p Offer (ip h) (Some (IPAdd (start h) free)) (leaseDuration h)
    (SelectOrderOrAll (options h) (opts !! OptionParameterRequestList)).
Definition ack (p : Packet) (opts : Options) (h : Handler) (reqIP : IP) : Reply :=
  mkReply p ACK (ip h) (Some reqIP) (leaseDuration h)
    (SelectOrderOrAll (options h) (opts !! OptionParameterRequestList)).
Definition nak (p : Packet) (h : Handler) : Reply := mkReply p NAK (ip h) None 0 [].

Definition reqIPOf (p : Packet) (opts : Options) : IP :=
  default (CIAddr p) (opts !! OptionRequestedIPAddress).

(** Whether the request may have the lease number. *)
Definition mayLease (p : Packet) (m : gmap Z lease) (n : Z) : bool :=
  match m !! n with None => true | Some l => bool_decide (nic l = CHAddr p) end.

Definition serveDiscover (p : Packet) (opts : Options) : dio (option Reply) :=
  h ← get;
  l ← call env (RangeLeases (leases h));
  match findNic (CHAddr p) l with
  | Some free => mret (Some (offer p opts h free))
  | None =>
      free ← freeLease;
      if decide (free = -1) then mret None else mret (Some (offer p opts h free))
  end.

Definition serveRequest (p : Packet) (opts : Options) : dio (option Reply) :=
  h ← get;
  let reqIP := reqIPOf p opts in
  if bool_decide (is_Some (opts !! OptionServerIdentifier)) &&
     negb (ipEqual (default [] (opts !! OptionServerIdentifier)) (ip h))
  then mret None
  else if decide (length reqIP = 4%nat ∧ ipEqual reqIP IPv4zero = false) then
    let leaseNum := IPRange (start h) reqIP - 1 in
    if decide (0 ≤ leaseNum < leaseRange h ∧ mayLease p (leases h) leaseNum = true) then
      now ← call env Now;
      modify (λ h, setLeases (<[leaseNum := mkLease (CHAddr p) (now + leaseDuration h)]> (leases h)) h) ;;
      mret (Some (ack p opts h reqIP))
    else mret (Some (nak p h))
  else mret (Some (nak p h)).

Definition serveRelease (p : Packet) : dio (option Reply) :=
  h ← get;
  l ← call env (RangeLeases (leases h));
  (match findNic (CHAddr p) l with
   | Some i => modify (λ h, setLeases (delete i (leases h)) h)
   | None => mret tt
   end) ;;
  mret None.

Definition ServeDHCP (p : Packet) (msgType : MessageType) (opts : Options) : dio (option Reply) :=
  match msgType with
  | Discover => serveDiscover p opts
  | Request => serveRequest p opts
  | Release | Decline => serveRelease p
  | _ => mret None
  end.

(** Packets handled one after the other; a panic ends the process. *)
Fixpoint serveAll (ps : list (Packet * MessageType * Options)) : dio (list (option Reply)) :=
  match ps with
  | [] => mret []
  | (p, t, opts) :: ps =>
      r ← ServeDHCP p t opts;
      rs ← serveAll ps;
      mret (r :: rs)
  end.

(** ** Lemmas *)
(** Lease numbers are those of the range. *)
Definition inv (s : Handler) : Prop :=
  ∀ i l, leases s !! i = Some l → 0 ≤ i < leaseRange s.
(** The configuration, which no packet changes. *)
Definition config (s : Handler) : IP * Options * IP * Z * Z :=
  (ip s, options s, start s, leaseRange s, leaseDuration s).
(** The leases of clients other than [c] are the same. *)
Definition keepsOthers (c : string) (m m' : gmap Z lease) : Prop :=
  ∀ i l, nic l ≠ c → m !! i = Some l → m' !! i = Some l.

Section Laws.
(** [rand.Intn] is below its argument; ranging over a map visits its entries. *)
Context (Intn_bound : ∀ h n, 0 < n → 0 ≤ env h (Intn n) < n).
Context (Range_all : ∀ h m, env h (RangeLeases m) ≡ₚ map_to_list m).

Lemma findNic_Some c h m i :
  findNic c (env h (RangeLeases m)) = Some i → ∃ l, m !! i = Some l ∧ nic l = c.
Proof.
  unfold findNic. intros (k&Hk&Heq)%fmap_Some. destruct k as [n [j l]].
  apply list_find_Some in Hk as (Hn&Hc&_). simplify_eq/=. exists l. split; [|done].
  apply elem_of_map_to_list. rewrite <- Range_all. by eapply list_elem_of_lookup_2.
Qed.
Lemma findNic_None c h m i l :
  findNic c (env h (RangeLeases m)) = None → m !! i = Some l → nic l ≠ c.
Proof.
  unfold findNic. rewrite fmap_None, list_find_None, Forall_forall. intros Hall Hl.
  apply (Hall (i, l)). rewrite Range_all. by apply elem_of_map_to_list.
Qed.

Lemma scan_Some now m i n j :
  scan now m i n = Some j → i ≤ j < i + Z.of_nat n ∧ freeAt now m j = true.
Proof.
  revert i. induction n as [|n IH]; intros i; simpl; [done|].
  destruct (freeAt now m i) eqn:E; [intros [= <-]; split; [lia|done]|].
  intros [??]%IH. split; [lia|done].
Qed.
Lemma scan_None now m i n j :
  scan now m i n = None → i ≤ j < i + Z.of_nat n → freeAt now m j = false.
Proof.
  revert i. induction n as [|n IH]; intros i; simpl; [lia|].
  destruct (freeAt now m i) eqn:E; [done|]. intros Hs Hj.
  destruct (decide (j = i)) as [->|]; [done|]. apply (IH (i + 1)); [done|lia].
Qed.

Lemma freeLease_run s h :
  0 < leaseRange s →
  ∃ i, freeLease s h = (Ret i, s, h ++ [Now; Intn (leaseRange s)]) ∧
    (i = -1 ∧ (∀ j, 0 ≤ j < leaseRange s → freeAt (env h Now) (leases s) j = false) ∨
     0 ≤ i < leaseRange s ∧ freeAt (env h Now) (leases s) i = true).
Proof.
  intros Hr. unfold freeLease, mbind, io_bind. simpl. rewrite decide_False by lia.
  rewrite <- app_assoc. simpl. pose proof (Intn_bound (h ++ [Now]) _ Hr) as Hb.
  set (b := env _ (Intn _)) in *. set (now := env h Now).
  destruct (scan now (leases s) b _) as [i|] eqn:E1.
  { exists i. split; [done|]. right. apply scan_Some in E1 as [??]. split; [lia|done]. }
  destruct (scan now (leases s) 0 _) as [i|] eqn:E2.
  { exists i. split; [done|]. right. apply scan_Some in E2 as [??]. split; [lia|done]. }
  exists (-1). split; [done|]. left. split; [done|]. intros j Hj.
  destruct (decide (j < b)); [eapply scan_None in E2|eapply scan_None in E1]; try done; lia.
Qed.

(** What a packet leaves behind, and what an acknowledgement means. *)
Definition served (p : Packet) (s : Handler) (o : outcome (option Reply)) (s' : Handler)
    (_ : list event) : Prop :=
  (inv s → inv s') ∧ config s' = config s ∧ keepsOthers (CHAddr p) (leases s) (leases s') ∧
  (∀ r, o = Ret (Some r) → mt r = ACK →
     ∃ a l, yIAddr r = Some a ∧ leases s' !! (IPRange (start s) a - 1) = Some l ∧
            nic l = CHAddr p ∧ duration r = leaseDuration s).

Lemma served_same p s h o : (∀ r, o = Ret (Some r) → mt r ≠ ACK) → served p s o s h.
Proof. intros Ho. split; [done|]. split; [done|]. split; [by intros ???|]. intros r Hr Hm. by destruct (Ho r Hr). Qed.

Lemma wp_serveDiscover p opts s h : wp (serveDiscover p opts) (served p s) s h.
Proof.
  unfold serveDiscover. wp_steps. wp_if; wp_steps; [apply served_same; naive_solver|].
  unfold freeLease. wp_steps. wp_if; wp_steps; [by apply served_same|].
  destruct (scan _ _ _ _); [|destruct (scan _ _ _ _)]; wp_steps; case_decide; wp_steps;
    apply served_same; naive_solver.
Qed.
Lemma wp_serveRequest p opts s h : wp (serveRequest p opts) (served p s) s h.
Proof.
  unfold serveRequest. wp_steps. wp_if; wp_steps; [by apply served_same|].
  wp_if; [|wp_steps; apply served_same; naive_solver].
  wp_if; [|wp_steps; apply served_same; naive_solver]. wp_steps.
  set (n := IPRange _ _ - 1) in *. destruct Hif1 as [Hn Hmay]. split_and!.
  - intros Hinv i l. unfold setLeases. simpl. rewrite lookup_insert_Some. intros [[<- _]|[_ Hl]]; [done|].
    by apply (Hinv i l).
  - done.
  - intros i l Hne Hl. simpl. destruct (decide (i = n)) as [->|]; [|by rewrite lookup_insert_ne].
    unfold mayLease in Hmay. rewrite Hl in Hmay. by apply bool_decide_eq_true in Hmay.
  - intros r [= <-] _. do 2 eexists. split; [done|]. fold n. simpl. by rewrite lookup_insert_eq.
Qed.
Lemma wp_serveRelease p s h : wp (serveRelease p) (served p s) s h.
Proof.
  unfold serveRelease. wp_steps. destruct (findNic _ _) as [i|] eqn:E; wp_steps; [|by apply served_same].
  apply findNic_Some in E as (l&Hl&Hnic). split_and!.
  - intros Hinv j k. simpl. rewrite lookup_delete_Some. intros [_ Hk]. by apply (Hinv j k).
  - done.
  - intros j k Hne Hk. simpl. apply lookup_delete_Some. split; [|done]. intros ->. congruence.
  - by intros r [=].
Qed.
Lemma wp_ServeDHCP p t opts s h : wp (ServeDHCP p t opts) (served p s) s h.
Proof.
  destruct t; simpl; auto using wp_serveDiscover, wp_serveRequest, wp_serveRelease;
    wp_steps; by apply served_same.
Qed.

(** An acknowledged address, by its lease number. *)
Definition ackedNumber (s : Handler) (r : option Reply) : option Z :=
  match r with
  | Some r => if decide (mt r = ACK) then (λ a, IPRange (start s) a - 1) <$> yIAddr r else None
  | None => None
  end.

Lemma config_start s s' : config s' = config s → start s' = start s.
Proof. unfold config. by intros [= _ _ -> _ _]. Qed.

(** The lease of a client who sends none of the packets. *)
Lemma wp_serveAll ps i l s h :
  inv s → leases s !! i = Some l → Forall (λ '(p, _, _), CHAddr p ≠ nic l) ps →
  wp (serveAll ps) (λ o s' _,
    inv s' ∧ config s' = config s ∧ leases s' !! i = Some l ∧
    ∀ rs r, o = Ret rs → r ∈ rs → ackedNumber s r ≠ Some i) s h.
Proof.
  revert s h. induction ps as [|[[p t] opts] ps IH]; intros s h Hinv Hl Hps; cbn [serveAll].
  { wp_steps. split_and!; try done. intros rs r [= <-] Hr. by apply elem_of_nil in Hr. }
  apply Forall_cons in Hps as [Hp Hps]. wp_steps. eapply wp_mono; [|apply wp_ServeDHCP].
  intros o s1 h1 (Hi&Hc&Hk&Ha). specialize (Hi Hinv).
  assert (leases s1 !! i = Some l) as Hl1 by (by apply Hk).
  destruct o as [r|msg|msg]; [|by split_and!..]. wp_steps.
  eapply wp_mono; [|by apply IH].
  intros o s2 h2 (Hi2&Hc2&Hl2&Hr2). rewrite Hc in Hc2.
  destruct o as [rs|msg|msg]; [|by split_and!..]. wp_steps. split_and!; try done.
  intros ? r' [= <-] [->|Hin]%elem_of_cons.
  - destruct r as [r|]; [|done]. simpl. case_decide as Hm; [|done].
    destruct (Ha r eq_refl Hm) as (a&l'&Hy&Hla&Hn&_). rewrite Hy. simpl. intros [= Heq].
    rewrite Heq in Hla. congruence.
  - unfold ackedNumber. rewrite <- (config_start _ _ Hc). by eapply Hr2.
Qed.

(** C5: Leases are exclusive: while a client sends nothing, no sequence of packets of
    other clients, of whatever types and options, removes or changes its lease or
    gets its address acknowledged to someone else, even if its lease has expired;
    the table keeps to the range and the configuration is never changed. *)
Theorem lease_exclusive ps i l s h o s' h' :
  inv s → leases s !! i = Some l → Forall (λ '(p, _, _), CHAddr p ≠ nic l) ps →
  serveAll ps s h = (o, s', h') →
  inv s' ∧ config s' = config s ∧ leases s' !! i = Some l ∧
  ∀ rs r, o = Ret rs → r ∈ rs → ackedNumber s r ≠ Some i.
Proof. intros Hinv Hl Hps Hrun. by apply (wp_run _ _ _ _ _ _ _ (wp_serveAll ps i l s h Hinv Hl Hps) Hrun). Qed.

(** The address search is complete wherever it starts: [freeLease] returns a
    number of the range without an unexpired lease, and -1 only when every number
    of the range has one. *)
Theorem freeLease_complete s h :
  0 < leaseRange s →
  ∃ i, freeLease s h = (Ret i, s, h ++ [Now; Intn (leaseRange s)]) ∧
    (i = -1 ∧ (∀ j, 0 ≤ j < leaseRange s → freeAt (env h Now) (leases s) j = false) ∨
     0 ≤ i < leaseRange s ∧ freeAt (env h Now) (leases s) i = true).
Proof. apply freeLease_run. Qed.

Section Handshake.
(** The addresses of the range: four bytes, not 0.0.0.0, numbered from one. *)
Context (s : Handler).
Context (Range_Add : ∀ i, 0 ≤ i < leaseRange s →
  length (IPAdd (start s) i) = 4%nat ∧ ipEqual (IPAdd (start s) i) IPv4zero = false ∧
  IPRange (start s) (IPAdd (start s) i) = i + 1).

Lemma serveRequest_offered p i opts h :
  0 ≤ i < leaseRange s →
  opts !! OptionRequestedIPAddress = Some (IPAdd (start s) i) →
  opts !! OptionServerIdentifier = None →
  serveRequest p opts s h =
    if mayLease p (leases s) i then
      (Ret (Some (ack p opts s (IPAdd (start s) i))),
       setLeases (<[i := mkLease (CHAddr p) (env h Now + leaseDuration s)]> (leases s)) s, h ++ [Now])
    else (Ret (Some (nak p s)), s, h).
Proof.
  intros Hi H50 H54. destruct (Range_Add i Hi) as (Hlen&Hz&Hr).
  unfold serveRequest, mbind, io_bind, reqIPOf. cbn [get]. rewrite H54, H50.
  rewrite bool_decide_eq_false_2 by (by intros [? [=]]). cbn [andb from_option id]. cbv zeta. unfold id.
  rewrite decide_True by done. rewrite Hr. replace (i + 1 - 1) with i by lia.
  destruct (mayLease p (leases s) i); [rewrite decide_True by (split; [lia|done]); done|].
  rewrite decide_False; [done|]. by intros [_ [=]].
Qed.
Lemma request_offered p i h1 :
  0 ≤ i < leaseRange s →
  ∃ r2 s2 h2,
    serveRequest p (<[OptionRequestedIPAddress := IPAdd (start s) i]> ∅) s h1 = (Ret (Some r2), s2, h2) ∧
    (mt r2 = ACK ↔ ∀ l, leases s !! i = Some l → nic l = CHAddr p) ∧
    (mt r2 = NAK ↔ ∃ l, leases s !! i = Some l ∧ nic l ≠ CHAddr p).
Proof.
  intros Hi. rewrite (serveRequest_offered p i) by done. unfold mayLease.
  destruct (leases s !! i) as [l|]; [case_bool_decide as Hn|]; do 3 eexists; (split; [done|]);
    simpl; split; naive_solver.
Qed.

End Handshake.
End Laws.
End Server.

Section NewLemmas.
Context (ParseIP4 : string → option IP) (trimName : string → IP).
Context (IPAdd : IP → Z → IP) (IPRange : IP → IP → Z).
Context (SelectOrderOrAll : Options → option IP → list (Z * IP)).
Context (env : list event → ∀ e, answer e).

(** [New] accepts exactly the configurations whose addresses parse, with a
    positive lease time and a domain name, and takes the size of the range as it
    is: a handler with a range that is not positive panics in [rand.Intn] on the
    first discover message. *)
Theorem New_unchecked_range local start router netmask dns max leaseSec domain p opts h :
  ((∃ s, New ParseIP4 trimName local start router netmask dns max leaseSec domain = inl s) ↔
   (∃ l, local = inl l) ∧ is_Some (ParseIP4 start) ∧ is_Some (ParseIP4 router) ∧
   is_Some (ParseIP4 dns) ∧ is_Some (ParseIP4 netmask) ∧ 0 < leaseSec ∧ trimName domain ≠ []) ∧
  ∀ s, New ParseIP4 trimName local start router netmask dns max leaseSec domain = inl s →
    leases s = ∅ ∧ leaseRange s = max ∧
    (max ≤ 0 → env h (RangeLeases ∅) = [] →
     ServeDHCP IPAdd IPRange SelectOrderOrAll env p Discover opts s h =
       (Panic "invalid argument to Intn", s, h ++ [RangeLeases ∅; Now])).
Proof.
  unfold New, newDHCPv4Handler. split.
  - destruct local as [l|]; [|naive_solver].
    destruct (ParseIP4 start), (ParseIP4 router), (ParseIP4 dns), (ParseIP4 netmask);
      repeat case_decide; unfold is_Some; naive_solver lia.
  - intros s Hs. repeat (case_match; try done). simplify_eq/=.
    split; [done|]. split; [done|]. intros Hmax Hr.
    unfold serveDiscover, freeLease, mbind, io_bind. cbn [get call leases]. rewrite Hr.
    cbn. rewrite decide_True by done. by rewrite <- app_assoc.
Qed.
End NewLemmas.

(** ** Examples *)
Module DhcpExamples.
(** Addresses as numbers in base 256, for ranges within the last byte. *)
Definition ipAdd (a : IP) (n : Z) : IP := take 3 a ++ [byteAt a 3 + n].
Definition ipRange (a b : IP) : Z := byteAt b 3 - byteAt a 3 + 1.
Definition env (_ : list event) (e : event) : answer e :=
  match e with Now => 100 | Intn n => 1 `mod` n | RangeLeases m => map_to_list m end.
Definition selectAll (o : Options) (_ : option IP) : list (Z * IP) := map_to_list o.

(** Two addresses; the second one carries an expired lease of [cli1]. *)
Definition server : Handler :=
  mkHandler [192; 168; 0; 1] ∅ [192; 168; 0; 10] 2 3600 (<[1 := mkLease "cli1" 50]> ∅).
Definition cli2 : Packet := mkPacket [0; 0; 0; 0] "cli2".

Lemma env_Intn : ∀ h n, 0 < n → 0 ≤ env h (Intn n) < n.
Proof. intros h n Hn. apply Z.mod_pos_bound. done. Qed.
Lemma env_Range : ∀ h m, env h (RangeLeases m) ≡ₚ map_to_list m.
Proof. done. Qed.
Lemma server_inv : inv server.
Proof.
  intros i l Hl. unfold server in *. cbn [leases leaseRange] in *.
  apply lookup_insert_Some in Hl as [[<- _]|[_ Hl]]; [lia|]. by rewrite lookup_empty in Hl.
Qed.
Lemma server_addr i : 0 ≤ i < leaseRange server →
  length (ipAdd (start server) i) = 4%nat ∧ ipEqual (ipAdd (start server) i) IPv4zero = false ∧
  ipRange (start server) (ipAdd (start server) i) = i + 1.
Proof.
  simpl. intros Hi. assert (i = 0 ∨ i = 1) as [->| ->] by lia; by vm_compute.
Qed.

Example expired_refused :
  (ServeDHCP ipAdd ipRange selectAll env cli2 Request
     (<[OptionRequestedIPAddress := [192; 168; 0; 11]]> ∅) server []).1.1 =
  Ret (Some (nak cli2 server)).
Proof. by vm_compute. Qed.

Lemma lease_exclusive_witness :
  let ps := [(cli2, Discover, ∅); (cli2, Request, <[OptionRequestedIPAddress := [192; 168; 0; 11]]> ∅)] in
  leases (serveAll ipAdd ipRange selectAll env ps server []).1.2 !! 1 = Some (mkLease "cli1" 50).
Proof.
  intros ps. destruct (serveAll ipAdd ipRange selectAll env ps server []) as [[o s'] h'] eqn:E.
  refine (proj1 (proj2 (proj2 (lease_exclusive ipAdd ipRange selectAll env env_Intn env_Range ps 1
            (mkLease "cli1" 50) server [] o s' h' server_inv _ _ E)))).
  - reflexivity.
  - repeat constructor; by intros [=].
Defined.
Lemma freeLease_complete_witness :
  ∃ i, freeLease env server [] = (Ret i, server, [Now; Intn 2]).
Proof.
  destruct (freeLease_complete env env_Intn env_Range server [])
    as (i&Hi&_); [by vm_compute|]. exists i. exact Hi.
Defined.
Lemma New_unchecked_range_witness :
  ∃ s, New (λ _, Some [10; 0; 0; 1]) (λ _, [97]) (inl [10; 0; 0; 9]) "" "" "" "" 0 3600 "a" = inl s ∧
    ServeDHCP ipAdd ipRange selectAll env cli2 Discover ∅ s [] =
      (Panic "invalid argument to Intn", s, [RangeLeases ∅; Now]).
Proof.
  destruct (New_unchecked_range (λ _, Some [10; 0; 0; 1]) (λ _, [97]) ipAdd ipRange selectAll env
              (inl [10; 0; 0; 9]) "" "" "" "" 0 3600 "a" cli2 ∅ []) as [_ H].
  eexists. split; [reflexivity|]. refine (proj2 (proj2 (H _ eq_refl)) _ _); [lia|reflexivity].
Defined.
End DhcpExamples.
