(* ===== verification/DhcpCli.v ===== *)
(** * opendhcpd: the command line (src/opendhcpd/opendhcpd.go)

    The two commands, in the foreground and as a daemon, over the handler of Dhcp.v.
    urfave/cli is an interface: it finds the command and the values of its flags. *)
From stdpp Require Import base strings numbers list sets.
From S2P Require Import Prelude GoStrings GoTime Dhcp.
Local Open Scope Z_scope.
Set Default Proof Using "Type*".

(** The flags of both commands and the commands, each with its short name. *)
Definition cliFlags : list (string * string) :=
  [("dhcp_start", "s"); ("dhcp_range", "r"); ("default_gw", "g"); ("dns_resolver", "d");
   ("subnet_mask", "m"); ("lease_duration_sec", "l"); ("domain_name", "n")].
Definition Commands : list (string * string) := [("run-server", "rs"); ("background", "bg")].

(** ** urfave/cli *)
(** [Parse]: the command that the arguments name and the values of its flags, by their
    long names; [toInt]: what [c.Int] makes of a value. *)
Class Cli := {
  Parse : list string → option (string * (string → string));
  toInt : string → Z;
}.
Definition flagArgs (pairs : list (string * string)) : list string :=
  pairs ≫= λ '(a, v), ["-" +:+ a; v].
(** Commands and flags can be given by their short names, every flag is followed by its
    value, and [c.Int] gives a 64-bit integer, the one that was printed. *)
Class CliLaws `{Cli} := {
  Parse_short prog name alias pairs :
    (name, alias) ∈ Commands → NoDup pairs.*1 → (∀ a, a ∈ pairs.*1 → a ∈ cliFlags.*2) →
    ∃ c, Parse (prog :: alias :: flagArgs pairs) = Some (name, c) ∧
      ∀ n a v, (n, a) ∈ cliFlags → (a, v) ∈ pairs → c n = v;
  toInt_range v : inS 64 (toInt v);
  toInt_itoa n : inS 64 n → toInt (itoa n) = n;
}.

Inductive event :=
  | LocalIP
  | ListenAndServe (h : Handler)
  | Reborn (args : list string)
  | LogInfo (s : string)
  | Release
  | Help.
Definition answer (e : event) : Type :=
  match e with
  | LocalIP => result IP
  | ListenAndServe _ => option error
  | Reborn _ => result bool               (* whether there is a process, for the parent *)
  | _ => unit
  end.

Section Cli.
Context `{Cli}.
Context (ParseIP4 : string → option IP) (trimName : string → IP).
Context (env : list event → ∀ e, answer e).
Abbreviation cio := (io unit event).
Abbreviation do e := (call env e).

Definition Start (d : Handler) : cio (option error) := do (ListenAndServe d).

(** The action of run-server. *)
Definition runServer (c : string → string) : cio unit :=
  l ← do LocalIP;
  match New ParseIP4 trimName l (c "dhcp_start") (c "default_gw") (c "subnet_mask") (c "dns_resolver")
          (toInt (c "dhcp_range")) (toInt (c "lease_duration_sec")) (c "domain_name") with
  | inr err => fatal err
  | inl d =>
      err ← Start d;
      match err with
      | Some err => fatal err
      | None => panic "invalid memory address or nil pointer dereference"
      end
  end.

(** The arguments that the daemon is started with. *)
Definition daemonArgs (c : string → string) : list string :=
  let s := c "dhcp_start" in
  let g := c "default_gw" in
  let m := c "subnet_mask" in
  let d := c "dns_resolver" in
  let r := toInt (c "dhcp_range") in
  let l := toInt (c "lease_duration_sec") in
  let n := c "domain_name" in
  ["opendhcpd"; "rs"; "-s"; s; "-r"; itoa r; "-g"; g; "-d"; d; "-m"; m; "-l"; itoa l; "-n"; n].
(** The action of background. *)
Definition background (c : string → string) : cio unit :=
  reb ← do (Reborn (daemonArgs c));
  match reb with
  | inr err => fatal ("unable to daemonize opendhcpd: " +:+ err)
  | inl true => emit (LogInfo "failed")
  | inl false => deferring (emit Release) (emit (LogInfo "opendhcpd daemon started"))
  end.

Definition main (args : list string) : cio unit :=
  match Parse args with
  | None => emit Help
  | Some (name, c) =>
      if decide (name = "run-server") then runServer c
      else if decide (name = "background") then background c
      else emit Help
  end.

(** ** The daemon *)
(** The values that the server is made from. *)
Definition serverArgs (c : string → string) :=
  (c "dhcp_start", c "default_gw", c "subnet_mask", c "dns_resolver",
   (toInt (c "dhcp_range"), toInt (c "lease_duration_sec"), c "domain_name")).
Lemma runServer_args c c' : serverArgs c = serverArgs c' → runServer c = runServer c'.
Proof. unfold serverArgs, runServer. intros [= -> -> -> -> -> -> ->]. done. Qed.

Section Laws.
Context `{!CliLaws}.

(** A member of a list that is written out. *)
Ltac in_list := apply list_elem_of_In; simpl; repeat first [left; reflexivity|right].
Lemma daemon_parses c :
  ∃ c', Parse (daemonArgs c) = Some ("run-server", c') ∧ serverArgs c' = serverArgs c.
Proof.
  set (pairs := [("s", c "dhcp_start"); ("r", itoa (toInt (c "dhcp_range"))); ("g", c "default_gw");
    ("d", c "dns_resolver"); ("m", c "subnet_mask"); ("l", itoa (toInt (c "lease_duration_sec")));
    ("n", c "domain_name")]).
  destruct (Parse_short "opendhcpd" "run-server" "rs" pairs) as (c'&Hp&Hc).
  - in_list.
  - apply (bool_decide_unpack _). vm_compute. exact I.
  - intros a Ha. apply list_elem_of_In in Ha. simpl in Ha.
    repeat destruct Ha as [<-|Ha]; [in_list..|done].
  - exists c'. split; [exact Hp|]. unfold serverArgs.
    rewrite (Hc "dhcp_start" "s" (c "dhcp_start")), (Hc "default_gw" "g" (c "default_gw")),
      (Hc "subnet_mask" "m" (c "subnet_mask")), (Hc "dns_resolver" "d" (c "dns_resolver")),
      (Hc "dhcp_range" "r" (itoa (toInt (c "dhcp_range")))),
      (Hc "lease_duration_sec" "l" (itoa (toInt (c "lease_duration_sec")))),
      (Hc "domain_name" "n" (c "domain_name"));
      try in_list.
    by rewrite !toInt_itoa by apply toInt_range.
Qed.

Definition quiet (e : event) : Prop :=
  match e with LogInfo _ | Release => True | _ => False end.
Lemma wp_background c s h :
  wp (background c) (λ _ s' h', s' = s ∧ ∃ k, h' = h ++ Reborn (daemonArgs c) :: k ∧ Forall quiet k) s h.
Proof.
  unfold background. wp_steps. destruct (env h (Reborn (daemonArgs c))) as [[]|err]; wp_steps;
    (split; [done|]); rewrite <- ?app_assoc; eexists; (split; [done|]); by repeat constructor.
Qed.

(** C23: The daemon is the server that was asked for: the process that background starts
    in its only call to the operating system does, from its arguments, exactly what
    run-server does with the options that background was given, whatever they are. *)
Theorem daemon_runs_server c s h :
  (∃ o k, background c s h = (o, s, h ++ Reborn (daemonArgs c) :: k) ∧ Forall quiet k) ∧
  main (daemonArgs c) s h = runServer c s h.
Proof.
  split.
  - destruct (background c s h) as [[o s'] h'] eqn:Hrun.
    destruct (wp_run _ _ _ _ _ _ _ (wp_background c s h) Hrun) as (->&k&->&Hk). by exists o, k.
  - destruct (daemon_parses c) as (c'&Hp&Hc). unfold main. rewrite Hp. rewrite decide_True by done.
    by rewrite (runServer_args _ _ Hc).
Qed.
End Laws.
End Cli.

Module CliExamples.
(** A small command-line parser. *)
Fixpoint valueOf (key : string) (args : list string) : string :=
  match args with
  | f :: v :: args' => if decide (f = key) then v else valueOf key args'
  | _ => ""
  end.
Definition flagValue (args : list string) (n : string) : string :=
  match list_find (λ '(n', _), n' = n) cliFlags with
  | Some (_, (_, a)) => valueOf ("-" +:+ a) args
  | None => ""
  end.
Definition parse (args : list string) : option (string * (string → string)) :=
  match args with
  | _ :: cmd :: rest =>
      match list_find (λ '(_, a), a = cmd) Commands with
      | Some (_, (name, _)) => Some (name, flagValue rest)
      | None => None
      end
  | _ => None
  end.
Definition minus : Ascii.ascii := chr 45.
Definition magnitude (s : string) : Z := match leadingInt 0 s with Some (v, _) => v | None => 0 end.
Definition number (s : string) : Z :=
  i64 match s with
      | String c s' => if decide (c = minus) then - magnitude s' else magnitude s
      | EmptyString => 0
      end.
#[local] Instance smallCli : Cli := {| Parse := parse; toInt := number |}.

Lemma magnitude_fmtInt v : 0 ≤ v ≤ 2 ^ 63 → magnitude (fmtInt v) = v.
Proof.
  intros Hv. unfold magnitude. rewrite <- (string_app_nil (fmtInt v)). unfold fmtInt.
  rewrite leadingInt_decimal; [done|done|].
  assert (2 ^ 63 < 10 ^ (Z.of_nat 20 + 1)) by (vm_compute; done). lia.
Qed.
Lemma number_itoa n : inS 64 n → number (itoa n) = n.
Proof.
  intros Hn. rewrite <- (wrapS_id 64 n) at 2 by done. unfold number, itoa. f_equal.
  unfold inS in Hn. change (64 - 1) with 63 in Hn. case_decide as Hneg.
  - change ("-" +:+ fmtInt (- n)) with (String minus (fmtInt (- n))).
    cbv iota beta. rewrite decide_True by done. rewrite magnitude_fmtInt by lia. lia.
  - destruct (decimalFuel_front 20 n) as (c&t&d&Hc&Hd); [lia|]. fold (fmtInt n) in Hc. rewrite Hc.
    rewrite decide_False by (intros ->; discriminate Hd). rewrite <- Hc. apply magnitude_fmtInt. lia.
Qed.
Lemma valueOf_pairs pairs a v : NoDup pairs.*1 → (a, v) ∈ pairs → valueOf ("-" +:+ a) (flagArgs pairs) = v.
Proof.
  induction pairs as [|[a' v'] pairs IH]; simpl; intros Hnd Hin; [by apply elem_of_nil in Hin|].
  apply NoDup_cons in Hnd as [Hni Hnd]. apply elem_of_cons in Hin as [[= <- <-]|Hin].
  { by rewrite decide_True. }
  rewrite decide_False; [by apply IH|]. intros [= Heq]. apply Hni.
  change (a' = a) in Heq. subst a'. apply (list_elem_of_fmap_2 fst _ _ Hin).
Qed.
#[local] Instance smallCli_laws : CliLaws.
Proof.
  split.
  - intros prog name alias pairs Hcmd Hnd Hsub. exists (flagValue (flagArgs pairs)). split.
    + apply list_elem_of_In in Hcmd. simpl in Hcmd. destruct Hcmd as [[= <- <-]|[[= <- <-]|[]]]; done.
    + intros n a v Hf Hv. rewrite <- (valueOf_pairs pairs a v) by done. apply list_elem_of_In in Hf.
      simpl in Hf. repeat (destruct Hf as [[= <- <-]|Hf]; [done|]). done.
  - intros v. by apply wrapS_in.
  - apply number_itoa.
Qed.

Definition options : string → string := flagValue
  ["-s"; "192.168.1.10"; "-r"; "50"; "-g"; "192.168.1.1"; "-m"; "255.255.255.0"; "-d"; "8.8.8.8";
   "-l"; "7200"; "-n"; "example.org"].
Definition env (_ : list event) (e : event) : answer e :=
  match e return answer e with
  | LocalIP => inl [192; 168; 1; 2]
  | ListenAndServe _ => Some "interrupted"
  | Reborn _ => inl true
  | _ => tt
  end.
Lemma daemon_runs_server_witness :
  main (λ _, Some [192; 168; 1; 10]) (λ _, [101]) env (daemonArgs options) tt [] =
  runServer (λ _, Some [192; 168; 1; 10]) (λ _, [101]) env options tt [].
Proof. exact (proj2 (daemon_runs_server (λ _, Some [192; 168; 1; 10]) (λ _, [101]) env options tt [])). Defined.
Example daemon_serves :
  (main (λ _, Some [192; 168; 1; 10]) (λ _, [101]) env (daemonArgs options) tt []).1.1 = Exit "interrupted".
Proof. vm_compute. reflexivity. Qed.
End CliExamples.
