(* ===== verification/Vanishling.v ===== *)
(** * The vanishing file store vanishling (src/vanishling/)

    The journal of expiry dates (ttl/journal.go), the cleaner that deletes expired
    files (ttl/cleaner.go) and the HTTP service (core/file_service.go) over a file
    system with faults: every system call may fail when the environment says so,
    and otherwise acts on the map of files.  Dates and durations are the texts of
    GoTime.v.  Handlers run in one piece. *)
From stdpp Require Import base gmap strings numbers list.
From S2P Require Import Prelude GoStrings Float64 GoTime.
Local Open Scope Z_scope.
Set Default Proof Using "Type*".

(** ** cfg/config.go *)
Definition DefaultStoragePath : string := "/tmp/vanishling/uploads".
Definition DefaultLogPath : string := "/tmp/vanishling/log".
Definition DefaultLogFile : string := "entries.journal".
Definition DefaultFileTTL : Z := Minute * 5.
Definition DefaultFileIdHeader : string := "x-file-id".
Definition DefaultTTLHeader : string := "x-ttl".
Definition DefaultMaxJournalSize : Z := 1024 * 1024 * 1024 * 1024.
Definition DefaultMaxTTLHours : Z := 1.

(** [filepath.Join(dir, name)] for a clean directory and a name without a
    separator and without [..]: an empty name and [.] name the directory. *)
Definition pathJoin (dir name : string) : string :=
  if decide (name = "" ∨ name = ".") then dir else dir +:+ String slash name.

(** ** State and calls *)
Record service := mkService {
  files : gmap string string;
  peerAddr : string;
  fileName : string;
  hashed : string;      (* what was written to the hash so far; it is never reset *)
  fileTTL : Z;          (* of the journaler, shared by all requests *)
}.
Definition updFiles (f : gmap string string → gmap string string) (s : service) : service :=
  mkService (f (files s)) (peerAddr s) (fileName s) (hashed s) (fileTTL s).
Definition setPeerAddr (a : string) (s : service) : service :=
  mkService (files s) a (fileName s) (hashed s) (fileTTL s).
Definition putFileName (n : string) (s : service) : service :=
  mkService (files s) (peerAddr s) n (hashed s) (fileTTL s).
Definition hashMore (b : string) (s : service) : service :=
  mkService (files s) (peerAddr s) (fileName s) (hashed s +:+ b) (fileTTL s).
Definition SetFileTTL (t : Z) (s : service) : service :=
  mkService (files s) (peerAddr s) (fileName s) (hashed s) t.
Definition GetFileTTL (s : service) : Z := fileTTL s.

Inductive event :=
  (* system calls: [Some e] is a failure *)
  | MkdirAll (p : string)
  | OpenExcl (p : string)        (* O_CREATE|O_EXCL *)
  | OpenCreate (p : string)      (* O_CREATE *)
  | Close (p : string)
  | Remove (p : string)
  | Stat (p : string)
  | ReadFile (p : string)
  | Truncate (p : string)
  | Write (p data : string)      (* [Some (n, e)]: [n] bytes written, then [e] *)
  | Now | NowString | NewV4 | Statfs
  (* reading the uploaded file *)
  | CopyUpload                   (* [Some (n, e)]: [n] bytes copied, then [e] *)
  | ReadUpload
  (* the response *)
  | HeaderAdd (k v : string)
  | WriteHeader (code : Z)
  | WriteBody (b : string).
Definition answer (e : event) : Type :=
  match e with
  | MkdirAll _ | OpenExcl _ | OpenCreate _ | Close _ | Remove _ | Stat _ | ReadFile _
  | Truncate _ | ReadUpload => option error
  | Write _ _ | CopyUpload => option (nat * error)
  | Now => Z
  | NowString | NewV4 => string
  | Statfs => Z * Z * Z
  | _ => unit
  end.

Section Vanishling.
Context (env : list event → ∀ e, answer e).
(** highwayhash: the 32 bytes of the sum of what was written. *)
Context (highwayhash : string → list Z).
Abbreviation vio := (io service event).
Abbreviation do e := (call env e).

(** ** System calls on the map of files *)
Definition stat (p : string) : vio (option error) :=
  e ← do (Stat p); s ← get;
  mret (match e with
        | Some e => Some e
        | None => match files s !! p with Some _ => None | None => Some "no such file" end
        end).
Definition readFile (p : string) : vio (result string) :=
  e ← do (ReadFile p); s ← get;
  mret (match e with
        | Some e => inr e
        | None => match files s !! p with Some b => inl b | None => inr "no such file" end
        end).
Definition openExcl (p : string) : vio (option error) :=
  e ← do (OpenExcl p); s ← get;
  match e, files s !! p with
  | Some e, _ => mret (Some e)
  | None, Some _ => mret (Some "file exists")
  | None, None => modify (updFiles (<[p := ""]>)) ;; mret None
  end.
Definition openCreate (p : string) : vio (option error) :=
  e ← do (OpenCreate p); s ← get;
  match e, files s !! p with
  | Some e, _ => mret (Some e)
  | None, Some _ => mret None
  | None, None => modify (updFiles (<[p := ""]>)) ;; mret None
  end.
(** Appending: the files written to are new or opened with [O_APPEND]. *)
Definition writeFile (p data : string) : vio (option error) :=
  e ← do (Write p data);
  let '(d, err) := match e with Some (n, e) => (String.substring 0 n data, Some e)
                              | None => (data, None) end in
  modify (updFiles (alter (λ b, b +:+ d) p)) ;;
  mret err.
Definition remove (p : string) : vio (option error) :=
  e ← do (Remove p); s ← get;
  match e, files s !! p with
  | Some e, _ => mret (Some e)
  | None, None => mret (Some "no such file")
  | None, Some _ => modify (updFiles (delete p)) ;; mret None
  end.
Definition truncate (p : string) : vio (option error) :=
  e ← do (Truncate p); s ← get;
  match e, files s !! p with
  | Some e, _ => mret (Some e)
  | None, None => mret (Some "no such file")
  | None, Some _ => modify (updFiles (<[p := ""]>)) ;; mret None
  end.

(** ** ttl/journal.go *)
Definition lsfPath : string := pathJoin DefaultLogPath DefaultLogFile.

Definition NewJournaler : vio (option error) :=
  e ← do (MkdirAll DefaultLogPath);
  match e with
  | Some e => mret (Some e)
  | None =>
      e ← do (MkdirAll DefaultStoragePath);
      match e with
      | Some e => mret (Some e)
      | None =>
          st ← stat lsfPath;
          match st with
          | None => mret None
          | Some _ => do (MkdirAll DefaultLogPath)
          end
      end
  end.

Definition journalLine (exp ttl : Z) (f : string) : string :=
  formatUnixDate exp +:+ String comma (formatDuration ttl +:+ String comma (f +:+ String newline "")).
Definition CommitJournal (ttl : Z) (storageDir upFile : string) : vio (option error) :=
  e ← openCreate lsfPath;
  match e with
  | Some e => mret (Some e)
  | None =>
      deferring (do (Close lsfPath) ;; mret tt) (
        let f := pathJoin storageDir upFile in
        if decide (f = "") then mret (Some "empty file name")
        else
          now ← do Now;
          w ← writeFile lsfPath (journalLine (now + ttl) ttl f);
          mret ((λ e, "less than zero bytes were written to journal") <$> w))
  end.

(** ** ttl/cleaner.go *)
Definition NewCleaner : vio unit :=
  do (MkdirAll DefaultLogPath) ;; do (MkdirAll DefaultStoragePath) ;; mret tt.

(** The loop over the lines of the journal. *)
Fixpoint deleteEntries (entries : list string) : vio (option error) :=
  match entries with
  | [] => mret None
  | e :: entries =>
      match split comma e with
      | [date; dur; fp] =>
          st ← stat fp;
          match st with
          | Some _ => deleteEntries entries
          | None =>
              match parseUnixDate date with
              | None => mret (Some "failed to parse UNIX date in log entry")
              | Some expirationDate =>
                  match parseDuration dur with
                  | None => mret (Some "invalid ttl in log entry")
                  | Some ttl =>
                      now ← do Now;
                      if decide (0 < timeSub now expirationDate) then
                        r ← remove fp;
                        match r with
                        | Some _ => mret (Some "failed deletion")
                        | None => deleteEntries entries
                        end
                      else deleteEntries entries
                  end
              end
          end
      | _ => deleteEntries entries
      end
  end.

Definition deleteFunc : vio (option error) :=
  e ← openCreate lsfPath;
  match e with
  | Some e => mret (Some e)
  | None =>
      r ← readFile lsfPath;
      match r with
      | inr e => mret (Some e)
      | inl byteEntries =>
          err ← deleteEntries (split newline byteEntries);
          match err with
          | Some e => mret (Some e)
          | None =>
              c ← do (Close lsfPath);
              match c with
              | Some e => mret (Some e)
              | None =>
                  st ← stat lsfPath;
                  match st with
                  | Some e => mret (Some e)
                  | None =>
                      s ← get;
                      let size := Z.of_nat (String.length (default "" (files s !! lsfPath))) in
                      if decide (DefaultMaxJournalSize < size) then truncate lsfPath
                      else mret None
                  end
              end
          end
      end
  end.

(** [IsDiskFull]: an empty [Statfs] result divides zero by zero, which is not more
    than ninety percent. *)
Definition isFull (st : Z * Z * Z) : bool :=
  let '(blocks, bfree, bsize) := st in
  let all := u64 (blocks * u64 bsize) in
  let free := u64 (bfree * u64 bsize) in
  let used := u64 (all - free) in
  fgtb (fmul (fdiv (of_int used) (of_int all)) (of_int 100)) (of_int 90).
Definition IsDiskFull : vio bool := st ← do Statfs; mret (isFull st).

(** ** core/file_service.go *)
(** The parts of a request the service reads. *)
Record multipart := mkMultipart { Filename : string; Size : Z; content : string }.
Record request := mkRequest {
  Method : string;
  RemoteAddr : string;
  Header : string → string;
  ParseMultipartForm : option error;
  FormFile : result multipart;
}.
Definition StatusOK : Z := 200.
Definition StatusBadRequest : Z := 400.
Definition StatusInternalServerError : Z := 500.

Definition setPeer (r : request) : vio unit :=
  modify (setPeerAddr (let a := Header r "X-Real-IP" in
                       if decide (a = "") then RemoteAddr r else a)).

Definition setFileName (fn : string) (fs : Z) : vio (option error) :=
  s ← get;
  if decide (fn = "") then mret (Some (peerAddr s +:+ ": invalid file name"))
  else if contains ".." fn || contains "/" fn then
    mret (Some (peerAddr s +:+ ": invalid file name"))
  else if decide (fs = 0) then mret (Some (peerAddr s +:+ ": zero byte file uploaded"))
  else modify (putFileName fn) ;; mret None.

Definition ensureDirWritable (storagePath : string) : vio (option error) :=
  ns ← do NewV4;
  let p := pathJoin storagePath ns in
  do (MkdirAll storagePath) ;;
  e ← openExcl p;
  match e with
  | Some e => mret (Some e)
  | None => do (Close p) ;; remove p ;; mret None
  end.

Definition hashFile (storagePath : string) (f : multipart) : vio (result string) :=
  e ← ensureDirWritable storagePath;
  match e with
  | Some e => mret (inr e)
  | None =>
      t ← do NowString;
      modify (hashMore t) ;;
      c ← do CopyUpload;
      match c with
      | Some (n, e) => modify (hashMore (String.substring 0 n (content f))) ;; mret (inr e)
      | None =>
          modify (hashMore (content f)) ;;
          s ← get;
          let sum := hexEncode (highwayhash (hashed s)) in
          let p := pathJoin storagePath sum in
          o ← openExcl p;
          match o with
          | Some e => mret (inr e)
          | None =>
              deferring (do (Close p) ;; mret tt) (
                r ← do ReadUpload;
                match r with
                | Some e => mret (inr e)
                | None =>
                    w ← writeFile p (content f);
                    match w with
                    | Some e => mret (inr e)
                    | None =>
                        (* [n <= 0] without an error: the empty name, no error *)
                        if decide (content f = "") then mret (inl "") else mret (inl sum)
                    end
                end)
          end
      end
  end.

(** The lifetime asked for, or the default when there is none, it does not parse
    or it is longer than an hour. *)
Definition requestedTTL (h : string) : Z :=
  if decide (h = "") then DefaultFileTTL
  else match parseDuration h with
       | Some t => if fgtb (hours t) (of_int DefaultMaxTTLHours) then DefaultFileTTL else t
       | None => DefaultFileTTL
       end.

Definition upload (storagePath : string) (r : request) : vio unit :=
  full ← IsDiskFull;
  if full : bool then emit (WriteHeader StatusInternalServerError)
  else
    setPeer r ;;
    match ParseMultipartForm r with
    | Some _ => emit (WriteHeader StatusBadRequest)
    | None =>
        match FormFile r with
        | inr _ => emit (WriteHeader StatusBadRequest)
        | inl f =>
            e ← setFileName (Filename f) (Size f);
            match e with
            | Some _ => emit (WriteHeader StatusBadRequest)
            | None =>
                hf ← hashFile storagePath f;
                match hf with
                | inr _ => emit (WriteHeader StatusBadRequest)
                | inl hashedFileName =>
                    emit (HeaderAdd DefaultFileIdHeader hashedFileName) ;;
                    emit (WriteHeader StatusOK) ;;
                    modify (SetFileTTL (requestedTTL (Header r DefaultTTLHeader))) ;;
                    s ← get;
                    CommitJournal (GetFileTTL s) DefaultStoragePath hashedFileName ;;
                    mret tt
                end
            end
        end
    end.

Definition download (storagePath : string) (r : request) : vio unit :=
  setPeer r ;;
  let fileHash := Header r DefaultFileIdHeader in
  if decide (fileHash = "") then emit (WriteHeader StatusBadRequest)
  else if contains ".." fileHash || contains "/" fileHash then emit (WriteHeader StatusBadRequest)
  else
    b ← readFile (pathJoin storagePath fileHash);
    match b with
    | inr _ => emit (WriteHeader StatusBadRequest)
    | inl fileBytes => emit (WriteHeader StatusOK) ;; emit (WriteBody fileBytes)
    end.

Definition ServeHTTP (storagePath : string) (r : request) : vio unit :=
  let reqMethod := toUpper (Method r) in
  if decide (reqMethod = "POST" ∨ reqMethod = "PUT") then upload storagePath r
  else if decide (reqMethod = "GET") then download storagePath r
  else emit (WriteHeader StatusBadRequest).

(** ** Lemmas *)
Definition status (e : event) : option Z :=
  match e with WriteHeader c => Some c | _ => None end.
Definition statuses (h : list event) : list Z := omap status h.

Lemma statuses_snoc h e : statuses (h ++ [e]) = statuses h ++ option_list (status e).
Proof. unfold statuses. rewrite omap_app. simpl. by destruct (status e). Qed.

(** Calls that write no status and leave the other files alone. *)
Definition quiet (p : string) (b : option string) (h0 : list event) (s : service) (h : list event) : Prop :=
  files s !! p = b ∧ h0 `prefix_of` h ∧ statuses h = statuses h0.

Lemma quiet_call p b h0 s h e : status e = None → quiet p b h0 s h → quiet p b h0 s (h ++ [e]).
Proof.
  intros He (?&?&?). split; [done|]. split; [by apply prefix_app_r|].
  by rewrite statuses_snoc, He, app_nil_r.
Qed.

Section Quiet.
Context (p : string) (b : option string) (h0 : list event).
Abbreviation I := (quiet p b h0).
Ltac quiet := inv_solve; first
  [ by apply quiet_call
  | match goal with H : quiet _ _ _ _ _ |- _ => destruct H end; split; simpl;
    rewrite ?lookup_insert_ne, ?lookup_delete_ne, ?lookup_alter_ne; by auto ].

Lemma quiet_openCreate q : q ≠ p → preserves I (openCreate q).
Proof. intros Hq. unfold openCreate. quiet. Qed.
Lemma quiet_openExcl q : q ≠ p → preserves I (openExcl q).
Proof. intros Hq. unfold openExcl. quiet. Qed.
Lemma quiet_writeFile q d : q ≠ p → preserves I (writeFile q d).
Proof. intros Hq. unfold writeFile. quiet. Qed.
Lemma quiet_remove q : q ≠ p → preserves I (remove q).
Proof. intros Hq. unfold remove. quiet. Qed.
Lemma quiet_CommitJournal t d f : p ≠ lsfPath → preserves I (CommitJournal t d f).
Proof.
  intros Hp. unfold CommitJournal.
  repeat match goal with
  | |- preserves _ (openCreate _) => by apply quiet_openCreate
  | |- preserves _ (writeFile _ _) => by apply quiet_writeFile
  | |- _ => inv_step
  | |- _ => by apply quiet_call
  end.
Qed.
End Quiet.

(** After opening a new file. *)
Lemma wp_openExcl p Q s h :
  (∀ e, Q (Ret (Some e)) s (h ++ [OpenExcl p])) →
  (files s !! p = None → Q (Ret None) (updFiles (<[p := ""]>) s) (h ++ [OpenExcl p])) →
  wp (openExcl p) Q s h.
Proof.
  intros He Ho. unfold openExcl. wp_steps. destruct (env h (OpenExcl p)); [wp_steps; apply He|].
  destruct (files s !! p); wp_steps; auto.
Qed.

Lemma wp_remove p Q s h :
  (∀ e s', Q (Ret e) s' (h ++ [Remove p])) → wp (remove p) Q s h.
Proof.
  intros Hq. unfold remove. wp_steps. destruct (env h (Remove p)); [wp_steps; apply Hq|].
  destruct (files s !! p); wp_steps; apply Hq.
Qed.
(** [silent]: returned, without a status. *)
Definition silent (sts : list Z) (h : list event) : Prop := statuses h = sts.
Lemma silent_snoc sts h e : status e = None → silent sts h → silent sts (h ++ [e]).
Proof. intros He Hh. unfold silent. by rewrite statuses_snoc, He, app_nil_r. Qed.
#[local] Hint Resolve silent_snoc : go.

Lemma wp_ensureDirWritable sts storagePath s h :
  silent sts h →
  wp (ensureDirWritable storagePath) (λ o _ h', silent sts h' ∧ ∃ e, o = Ret e) s h.
Proof.
  intros Hs. unfold ensureDirWritable. wp_steps. apply wp_openExcl; intros; wp_steps.
  - split; [|by eexists]. auto 10 with go.
  - apply wp_remove. intros e s'. wp_steps. split; [|by eexists]. auto 10 with go.
Qed.

(** What a successful [hashFile] has stored. *)
Definition stored (storagePath : string) (f : multipart) (id : string) (s : service) : Prop :=
  content f ≠ "" →
  (∃ b, id = hexEncode (highwayhash b)) ∧ files s !! pathJoin storagePath id = Some (content f).

Ltac failed := split; [auto 10 with go|]; eexists; split; [reflexivity|exact Logic.I].
Lemma wp_hashFile sts storagePath f s h :
  silent sts h →
  wp (hashFile storagePath f) (λ o s' h', silent sts h' ∧
    ∃ r, o = Ret r ∧ match r with inl id => stored storagePath f id s' | inr _ => True end) s h.
Proof.
  intros Hs. unfold hashFile. wp_steps. eapply wp_mono; [|by apply (wp_ensureDirWritable sts)].
  intros o s1 h1 (Hs1&e&->). destruct e as [e|]; wp_steps; [failed|].
  wp_if; [destruct p as [n e]|]; wp_steps; [failed|].
  set (sum := hexEncode _). apply wp_openExcl; intros; wp_steps; [failed|].
  wp_if; wp_steps; [failed|]. unfold writeFile. wp_steps.
  destruct (env _ (Write _ _)) as [[n e]|]; wp_steps; [failed|].
  case_decide; wp_steps; split; auto 10 with go; eexists; (split; [done|]); [by intros ?|].
  intros _. split; [by eexists|]. simpl. by rewrite lookup_alter_eq, lookup_insert_eq.
Qed.

Lemma wp_CommitJournal_ret t d f s h :
  wp (CommitJournal t d f) (λ o _ _, ∃ e, o = Ret e) s h.
Proof.
  unfold CommitJournal, openCreate, writeFile. wp_steps.
  destruct (env h (OpenCreate lsfPath)); [|destruct (files s !! lsfPath)]; wp_steps; eauto;
    case_decide; wp_steps; eauto; destruct (env _ (Write _ _)) as [[??]|]; wp_steps; eauto.
Qed.

Section Store.
(** highwayhash sums are bytes, 32 of them. *)
Context (sum_bytes : ∀ b, Forall (λ z, 0 ≤ z < 256) (highwayhash b) ∧ length (highwayhash b) = 32%nat).

Lemma id_safe b :
  let id := hexEncode (highwayhash b) in
  id ≠ "" ∧ contains ".." id = false ∧ contains "/" id = false.
Proof.
  destruct (sum_bytes b) as [Hb Hl]. split_and!.
  - intros H0. destruct (highwayhash b); done.
  - apply (lacks_contains dot); [by apply hexEncode_lacks|done].
  - apply (lacks_contains slash); [by apply hexEncode_lacks|done].
Qed.
Lemma upload_path_not_journal id : pathJoin DefaultStoragePath id ≠ lsfPath.
Proof.
  unfold pathJoin. case_decide as Hd; [by vm_compute|]. intros Heq. vm_compute in Heq.
  by injection Heq.
Qed.

(** The postcondition of [upload]. *)
Definition uploaded (r : request) (h0 : list event) (o : outcome unit) (s : service) (h : list event) : Prop :=
  o = Ret tt ∧ ∃ code, statuses h = statuses h0 ++ [code] ∧
    (code = StatusOK → ∃ f id, FormFile r = inl f ∧ HeaderAdd DefaultFileIdHeader id ∈ h ∧
                               stored DefaultStoragePath f id s).
Lemma uploaded_fail r h0 s h code :
  code ≠ StatusOK → silent (statuses h0) h → uploaded r h0 (Ret tt) s (h ++ [WriteHeader code]).
Proof.
  intros Hc Hs. split; [done|]. exists code. split; [|done]. by rewrite statuses_snoc, Hs.
Qed.
Lemma wp_upload r s h : wp (upload DefaultStoragePath r) (uploaded r h) s h.
Proof.
  assert (silent (statuses h) (h ++ [Statfs])) as Hs0 by by apply silent_snoc.
  unfold upload, IsDiskFull, setPeer. wp_steps. wp_if; [wp_steps; by apply uploaded_fail|]. wp_steps.
  wp_if; [wp_steps; by apply uploaded_fail|]. destruct (FormFile r) as [f|] eqn:Hf;
    [|wp_steps; by apply uploaded_fail].
  unfold setFileName. wp_steps. repeat (wp_if; [wp_steps; by apply uploaded_fail|]). wp_steps.
  eapply wp_mono; [|by apply (wp_hashFile (statuses h))].
  intros o s1 h1 (Hs1&res&->&Hres). destruct res as [id|e]; wp_steps; [|by apply uploaded_fail].
  set (h2 := (h1 ++ _) ++ _). set (s2 := SetFileTTL _ s1).
  set (p := pathJoin DefaultStoragePath id).
  eapply wp_mono; [|apply wp_and; [apply wp_CommitJournal_ret|]].
  2: { apply (quiet_CommitJournal p (files s1 !! p) h2); [apply upload_path_not_journal|done]. }
  intros o s3 h3 [[e ->] (Hfile&[ev ->]&Hst)]. wp_steps. split; [done|]. exists StatusOK. split.
  - unfold silent in Hs1. rewrite Hst. unfold h2. by rewrite !statuses_snoc, Hs1, app_nil_r.
  - intros _. exists f, id. split; [done|]. split; [unfold h2; set_solver|].
    intros Hne. destruct (Hres Hne) as [? Hstored]. split; [done|]. fold p. by rewrite Hfile.
Qed.

Lemma download_run r s h id b :
  Header r DefaultFileIdHeader = id →
  id ≠ "" → contains ".." id = false → contains "/" id = false →
  files s !! pathJoin DefaultStoragePath id = Some b →
  env h (ReadFile (pathJoin DefaultStoragePath id)) = None →
  ∃ s', download DefaultStoragePath r s h =
    (Ret tt, s', h ++ [ReadFile (pathJoin DefaultStoragePath id); WriteHeader StatusOK; WriteBody b]) ∧
    files s' = files s.
Proof.
  intros Hid Hne Hdd Hsl Hb He. unfold download, readFile, setPeer, mbind, io_bind. simpl.
  rewrite Hid, decide_False, Hdd, Hsl by done. simpl. rewrite He, Hb. simpl.
  rewrite <- !app_assoc. by eexists.
Qed.

(** C13: Files come back as they were sent: an upload answers with exactly one status,
    and when that is 200 it has sent an identifier under which every later download
    from the resulting files answers 200 with exactly the uploaded bytes, whatever
    failed or was stored before. *)
Theorem upload_download r s h o s' h' f :
  upload DefaultStoragePath r s h = (o, s', h') → FormFile r = inl f → content f ≠ "" →
  o = Ret tt ∧ ∃ code, statuses h' = statuses h ++ [code] ∧
  (code = StatusOK → ∃ id, HeaderAdd DefaultFileIdHeader id ∈ h' ∧
     ∀ r2 s2 h2, Header r2 DefaultFileIdHeader = id → files s2 = files s' →
       env h2 (ReadFile (pathJoin DefaultStoragePath id)) = None →
       ∃ s3, download DefaultStoragePath r2 s2 h2 =
         (Ret tt, s3, h2 ++ [ReadFile (pathJoin DefaultStoragePath id); WriteHeader StatusOK;
                             WriteBody (content f)]) ∧ files s3 = files s').
Proof.
  intros Hrun Hf Hne. destruct (wp_run _ _ _ _ _ _ _ (wp_upload r s h) Hrun) as (->&code&Hst&Hok).
  split; [done|]. exists code. split; [done|]. intros Hcode.
  destruct (Hok Hcode) as (f'&id&Hf'&Hin&Hstored). rewrite Hf in Hf'. injection Hf' as <-.
  destruct (Hstored Hne) as [[b ->] Hfile]. exists (hexEncode (highwayhash b)). split; [done|].
  intros r2 s2 h2 Hr2 Hs2 He. destruct (id_safe b) as (?&?&?). rewrite <- Hs2 in *.
  by apply download_run.
Qed.
End Store.

(** The files a download reads, directly inside of the storage directory. *)
Definition inside (storagePath p : string) : Prop :=
  ∃ name, lacks slash name = true ∧ contains ".." name = false ∧ name ≠ "" ∧
          p = pathJoin storagePath name.
(** Answered with one status, having read at most the given file. *)
Definition downloaded (storagePath : string) (m : gmap string string) (h : list event)
    (o : outcome unit) (s' : service) (h' : list event) : Prop :=
  o = Ret tt ∧ files s' = m ∧
  ∃ ev code, h' = h ++ ev ∧ statuses ev = [code] ∧ ∀ p, ReadFile p ∈ ev → inside storagePath p.

Lemma downloaded_intro storagePath m h s h' ev code :
  files s = m → h' = h ++ ev → statuses ev = [code] →
  Forall (λ e, match e with ReadFile p => inside storagePath p | _ => True end) ev →
  downloaded storagePath m h (Ret tt) s h'.
Proof.
  intros Hf Hh Hst Hev. split; [done|]. split; [done|]. exists ev, code. split; [done|]. split; [done|].
  intros p Hp. rewrite Forall_forall in Hev. by apply (Hev (ReadFile p)).
Qed.

(** C31: Downloads are confined: whatever the identifier, [download] changes no file
    and answers with exactly one status; it only reads files directly inside of
    the storage directory. *)
Theorem download_confined storagePath r s h o s' h' :
  download storagePath r s h = (o, s', h') → downloaded storagePath (files s) h o s' h'.
Proof.
  intros Hrun. start_wp Hrun. unfold download, readFile, setPeer. wp_steps.
  set (id := Header r DefaultFileIdHeader) in *.
  wp_if; [wp_steps; eapply downloaded_intro; [done|reflexivity|reflexivity|]; by repeat constructor|].
  wp_if; [wp_steps; eapply downloaded_intro; [done|reflexivity|reflexivity|]; by repeat constructor|].
  apply orb_false_iff in Hif0 as [Hdd Hsl]. wp_steps.
  assert (inside storagePath (pathJoin storagePath id)) as Hin.
  { exists id. split; [by apply contains_char|done]. }
  destruct (env h _) as [e|]; [|destruct (files _ !! _) as [b|]]; wp_steps;
    rewrite <- !app_assoc; (eapply downloaded_intro; [done|reflexivity|reflexivity|]);
    repeat constructor; done.
Qed.

(** ** The journal and the cleaner *)
Record entry := mkEntry { expires : Z; ttl : Z; path : string }.
Definition lineOf (e : entry) : string :=
  formatUnixDate (expires e) +:+ String comma (formatDuration (ttl e) +:+ String comma (path e)).
Definition journalOf (es : list entry) : string :=
  foldr (λ e j, lineOf e +:+ String newline j) "" es.
(** The expiry date as the journal keeps it, in whole seconds. *)
Definition wholeSeconds (t : Z) : Z := t `div` Second * Second.
(** A path that can be an item of a line. *)
Definition plain (p : string) : Prop := lacks comma p = true ∧ lacks newline p = true.
(** An entry whose date has a year of four digits and whose lifetime is of whole
    seconds. *)
Definition timely (e : entry) : Prop :=
  validDate (expires e) ∧ inS 64 (ttl e) ∧ ttl e `mod` Second = 0.
Definition readable (e : entry) : Prop := plain (path e) ∧ timely e.

Lemma journalLine_of e : journalLine (expires e) (ttl e) (path e) = lineOf e +:+ String newline "".
Proof.
  unfold journalLine, lineOf. by rewrite !string_app_assoc, !string_app_cons, !string_app_assoc,
    !string_app_cons.
Qed.
Lemma journalOf_snoc es e :
  journalOf (es ++ [e]) = journalOf es +:+ journalLine (expires e) (ttl e) (path e).
Proof.
  rewrite journalLine_of. induction es as [|e' es IH]; [done|].
  change (journalOf ((e' :: es) ++ [e])) with (lineOf e' +:+ String newline (journalOf (es ++ [e]))).
  change (journalOf (e' :: es)) with (lineOf e' +:+ String newline (journalOf es)).
  by rewrite IH, string_app_assoc, string_app_cons.
Qed.

Section Cleaner.
Lemma date_plain t : validDate t → plain (formatUnixDate t).
Proof. intros Ht. split; apply lacks_unixDate; (done || by repeat constructor). Qed.
Lemma dur_plain d : plain (formatDuration d).
Proof. split; apply lacks_duration; (done || by repeat constructor). Qed.

Lemma split_lineOf e : readable e →
  split comma (lineOf e) = [formatUnixDate (expires e); formatDuration (ttl e); path e].
Proof.
  intros [[Hc _] [Hd _]]. unfold lineOf. rewrite split_cons by by apply date_plain.
  rewrite split_cons by apply dur_plain. by rewrite split_lacks.
Qed.
Lemma split_journalOf es : Forall readable es →
  split newline (journalOf es) = (lineOf <$> es) ++ [""].
Proof.
  intros Hes. induction Hes as [|e es [[Hc Hn] [Hd _]] _ IH]; [done|]. simpl. rewrite split_cons, IH; [done|].
  unfold lineOf. rewrite lacks_app. simpl. rewrite lacks_app. simpl.
  rewrite (proj2 (date_plain _ Hd)), (proj2 (dur_plain _)), Hn. done.
Qed.
(** What the cleaner reads from a line. *)
Lemma parse_line e : readable e →
  parseUnixDate (formatUnixDate (expires e)) = Some (wholeSeconds (expires e)) ∧
  parseDuration (formatDuration (ttl e)) = Some (ttl e).
Proof.
  intros (_&Hd&Ht&Hs). split; [by apply parse_formatUnixDate|by apply parse_formatDuration].
Qed.

(** No call fails, and the clock stays within two instants. *)
Section NoFaults.
Context (t0 t1 : Z).
Context (no_faults : ∀ h e, match e return answer e → Prop with
  | Stat _ | Remove _ | OpenCreate _ | ReadFile _ | Close _ => λ a, a = None
  | Now => λ now, t0 ≤ now ≤ t1
  | _ => λ _, True
  end (env h e)).

(** What the loop leaves of the files. *)
Definition cleaned (es : list entry) (m m' : gmap string string) : Prop :=
  m' ⊆ m ∧
  (∀ e, e ∈ es → wholeSeconds (expires e) < t0 → m' !! path e = None) ∧
  (∀ p, (∀ e, e ∈ es → path e = p → t1 ≤ wholeSeconds (expires e)) → m' !! p = m !! p).

Lemma cleaned_keep e es m m' :
  (wholeSeconds (expires e) < t0 → m !! path e = None) → cleaned es m m' → cleaned (e :: es) m m'.
Proof.
  intros He (Hsub&Hdel&Hkeep). split; [done|]. split.
  - intros e' [->|Hin]%elem_of_cons Hlt; [|by apply Hdel].
    destruct (m' !! path e) eqn:E; [|done]. by rewrite (lookup_weaken _ _ _ _ E Hsub) in He; specialize (He Hlt).
  - intros p Hp. apply Hkeep. intros e' He'. apply Hp. by right.
Qed.
Lemma cleaned_delete e es m m' :
  wholeSeconds (expires e) < t1 → cleaned es (delete (path e) m) m' → cleaned (e :: es) m m'.
Proof.
  intros He (Hsub&Hdel&Hkeep). assert (m' ⊆ m) as Hm by (etrans; [done|apply delete_subseteq]).
  split; [done|]. split.
  - intros e' [->|Hin]%elem_of_cons Hlt; [|by apply Hdel].
    destruct (m' !! path e) eqn:E; [|done]. apply (lookup_weaken _ _ _ _ E) in Hsub.
    by rewrite lookup_delete_eq in Hsub.
  - intros p Hp. destruct (decide (path e = p)) as [Heq|Hne].
    + specialize (Hp e (list_elem_of_here _ _) Heq). lia.
    + rewrite Hkeep, lookup_delete_ne; [done|done|]. intros e' He'. apply Hp. by right.
Qed.

Lemma wp_deleteEntries es s h :
  Forall readable es →
  wp (deleteEntries ((lineOf <$> es) ++ [""]))
     (λ o s' _, o = Ret None ∧ cleaned es (files s) (files s')) s h.
Proof.
  intros Hes. revert s h. induction Hes as [|e es He _ IH]; intros s h.
  { cbn. wp_steps. split; [done|]. split; [done|]. split; [|done].
    intros e He. by apply elem_of_nil in He. }
  cbn [fmap list_fmap app deleteEntries]. rewrite split_lineOf by done. unfold stat. wp_steps.
  pose proof (no_faults h (Stat (path e))) as Hst. simpl in Hst. rewrite Hst.
  destruct (files s !! path e) as [b|] eqn:Hb.
  2: { eapply wp_mono; [|apply IH]. intros o s' h' [-> Hc]. split; [done|]. by apply cleaned_keep. }
  destruct (parse_line e He) as [-> ->]. wp_steps.
  set (h1 := h ++ _). pose proof (no_faults h1 Now) as Hnow. simpl in Hnow.
  wp_if.
  - unfold remove. wp_steps. pose proof (no_faults (h1 ++ [Now]) (Remove (path e))) as Hrm. simpl in Hrm.
    rewrite Hrm, Hb. wp_steps. eapply wp_mono; [|apply IH]. intros o s' h' [-> Hc].
    split; [done|]. unfold timeSub in *. apply cleaned_delete; [lia|done].
  - eapply wp_mono; [|apply IH]. intros o s' h' [-> Hc]. split; [done|].
    apply cleaned_keep; [|done]. unfold timeSub in *. lia.
Qed.

(** A pass leaves a cleaned file system; the journal is emptied when it has grown too long. *)
Lemma wp_deleteFunc_any es s h :
  Forall (λ e, readable e ∧ path e ≠ lsfPath) es →
  files s !! lsfPath = Some (journalOf es) →
  wp deleteFunc (λ o s' h', ∃ m, cleaned es (files s) m ∧
    (∀ p, p ≠ lsfPath → files s' !! p = m !! p) ∧
    (DefaultMaxJournalSize < Z.of_nat (String.length (journalOf es)) ∧ Truncate lsfPath ∈ h' ∨
     o = Ret None ∧ files s' = m)) s h.
Proof.
  intros Hes Hj.
  unfold deleteFunc, openCreate, readFile. wp_steps.
  pose proof (no_faults h (OpenCreate lsfPath)) as H1. simpl in H1. rewrite H1, Hj. wp_steps.
  match goal with |- context [env ?h0 (ReadFile lsfPath)] =>
    pose proof (no_faults h0 (ReadFile lsfPath)) as H2 end. simpl in H2. rewrite H2, Hj. wp_steps.
  rewrite split_journalOf by (eapply Forall_impl; [exact Hes|]; by intros e [? _]).
  eapply wp_mono; [|apply wp_deleteEntries; eapply Forall_impl; [exact Hes|]; by intros e [? _]].
  intros o s1 h1 [-> Hc]. wp_steps.
  assert (files s1 !! lsfPath = Some (journalOf es)) as Hj1.
  { destruct Hc as (_&_&Hk). rewrite Hk; [done|]. intros e He Heq. rewrite Forall_forall in Hes.
    by destruct (Hes e He) as [_ []]. }
  pose proof (no_faults h1 (Close lsfPath)) as H3. simpl in H3. rewrite H3. unfold stat. wp_steps.
  pose proof (no_faults (h1 ++ [Close lsfPath]) (Stat lsfPath)) as H4. simpl in H4. rewrite H4, Hj1.
  wp_steps. rewrite Hj1. cbn [from_option]. unfold id.
  case_decide; [|wp_steps; exists (files s1); by auto]. unfold truncate. wp_steps. rewrite Hj1.
  destruct (env _ (Truncate lsfPath)); wp_steps; exists (files s1); (split; [done|]);
    (split; [intros; simpl; by rewrite ?lookup_insert_ne|left; split; [done|apply elem_of_app; right; by left]]).
Qed.
Lemma wp_deleteFunc es s h :
  Forall (λ e, readable e ∧ path e ≠ lsfPath) es →
  files s !! lsfPath = Some (journalOf es) →
  Z.of_nat (String.length (journalOf es)) ≤ DefaultMaxJournalSize →
  wp deleteFunc (λ o s' _, o = Ret None ∧ files s' !! lsfPath = Some (journalOf es) ∧
    cleaned es (files s) (files s')) s h.
Proof.
  intros Hes Hj Hlen. eapply wp_mono; [|by apply wp_deleteFunc_any].
  intros o s' h' (m&Hc&_&[[? _]|[-> ->]]); [lia|]. split_and!; [done| |done].
  destruct Hc as (_&_&Hk). rewrite Hk; [done|]. intros e He Heq. rewrite Forall_forall in Hes.
  by destruct (Hes e He) as [_ []].
Qed.

(** C12: Files vanish when their time is up, and not before: when no call fails, one
    pass of the cleaner over a journal removes every file whose expiry date, in
    whole seconds, lies before the pass, removes no file without an entry or with
    only later expiry dates, and keeps the journal.  The entries have lifetimes of whole
    seconds and dates before the year 10000. *)
Theorem cleaner_removes_expired es s h :
  Forall (λ e, readable e ∧ path e ≠ lsfPath) es →
  files s !! lsfPath = Some (journalOf es) →
  Z.of_nat (String.length (journalOf es)) ≤ DefaultMaxJournalSize →
  ∃ s' h', deleteFunc s h = (Ret None, s', h') ∧
    files s' !! lsfPath = Some (journalOf es) ∧
    (∀ e, e ∈ es → wholeSeconds (expires e) < t0 → files s' !! path e = None) ∧
    (∀ p, (∀ e, e ∈ es → path e = p → t1 ≤ wholeSeconds (expires e)) → files s' !! p = files s !! p).
Proof.
  intros Hes Hj Hlen. pose proof (wp_deleteFunc es s h Hes Hj Hlen) as Hwp. unfold wp in Hwp.
  destruct (deleteFunc s h) as [[o s'] h']. destruct Hwp as (->&?&_&?&?). by exists s', h'.
Qed.
End NoFaults.

(** The items of a line, as the cleaner takes them. *)
Definition items (l : string) : option (option Z * option Z * string) :=
  match split comma l with [d; u; p] => Some (parseUnixDate d, parseDuration u, p) | _ => None end.
Lemma items_journalOf es : Forall readable es →
  omap items (split newline (journalOf es)) =
    (λ e, (Some (wholeSeconds (expires e)), Some (ttl e), path e)) <$> es.
Proof.
  intros Hes. rewrite split_journalOf by done. rewrite omap_app. simpl. rewrite app_nil_r.
  induction Hes as [|e es He _ IH]; [done|]. simpl. unfold items at 1.
  rewrite split_lineOf by done. destruct (parse_line e He) as [-> ->]. f_equal. exact IH.
Qed.

(** Journal entries are read back as they were written: when [CommitJournal]
    reports no error, the journal is the old one with one more entry, the one for
    the file that expires the lifetime after now, and the cleaner's splitting of
    the new journal yields the items of exactly these entries.  Lifetimes are of whole
    seconds, and dates before the year 10000. *)
Theorem journal_roundtrip es t dir f s h s' h' :
  files s !! lsfPath = Some (journalOf es) →
  Forall readable es → plain (pathJoin dir f) →
  (∀ h0, timely (mkEntry (env h0 Now + t) t (pathJoin dir f))) →
  CommitJournal t dir f s h = (Ret None, s', h') →
  ∃ h0, let es' := es ++ [mkEntry (env h0 Now + t) t (pathJoin dir f)] in
    files s' !! lsfPath = Some (journalOf es') ∧
    omap items (split newline (journalOf es')) =
    (λ e, (Some (wholeSeconds (expires e)), Some (ttl e), path e)) <$> es'.
Proof.
  intros Hj Hes Hp Ht Hrun. remember (Ret None) as o eqn:Ho. revert Ho. start_wp Hrun.
  unfold CommitJournal, openCreate, writeFile. wp_steps.
  destruct (env h (OpenCreate lsfPath)); [by wp_steps|]. rewrite Hj. wp_steps.
  wp_if; [by wp_steps|]. wp_steps. destruct (env _ (Write _ _)) as [[n e]|]; wp_steps; [done|].
  intros _. eexists. cbv zeta. split.
  - simpl. rewrite lookup_alter_eq, Hj. simpl. by rewrite journalOf_snoc.
  - apply items_journalOf. apply Forall_snoc_2; [done|]. split; [done|]. apply Ht.
Qed.
End Cleaner.
End Vanishling.

(** ** Examples *)
Module VanishlingExamples.
(** Nothing fails; the clock stands still. *)
Definition env (now : Z) (_ : list event) (e : event) : answer e :=
  match e with
  | MkdirAll _ | OpenExcl _ | OpenCreate _ | Close _ | Remove _ | Stat _ | ReadFile _
  | Truncate _ | ReadUpload => None
  | Write _ _ | CopyUpload => None
  | Now => now
  | NowString => "now"
  | NewV4 => "uuid"
  | Statfs => (1000, 500, 4096)
  | HeaderAdd _ _ | WriteHeader _ | WriteBody _ => tt
  end.
Definition hash (_ : string) : list Z := replicate 32 171.
Lemma hash_bytes b : Forall (λ z, 0 ≤ z < 256) (hash b) ∧ length (hash b) = 32%nat.
Proof. split; [|done]. repeat constructor; lia. Qed.

Definition fileA : entry := mkEntry (10 * Second) (10 * Second) "/tmp/vanishling/uploads/a".
Definition fileB : entry := mkEntry (90 * Second) (90 * Second) "/tmp/vanishling/uploads/b".
Definition start : service :=
  mkService (<[lsfPath := journalOf [fileA; fileB]]> (<[path fileA := "A"]> (<[path fileB := "B"]> ∅)))
    "" "" "" 0.
Definition note : multipart := mkMultipart "note.txt" 5 "hello".
Definition put : request := mkRequest "PUT" "10.0.0.1" (λ _, "") None (inl note).
Definition get (id : string) : request := mkRequest "GET" "10.0.0.1" (λ _, id) None (inr "").

Example upload_accepted :
  statuses (upload (env 0) hash DefaultStoragePath put start []).2 = [StatusOK].
Proof. vm_compute. reflexivity. Qed.
Lemma upload_download_witness :
  (upload (env 0) hash DefaultStoragePath put start []).1.1 = Ret tt.
Proof.
  destruct (upload (env 0) hash DefaultStoragePath put start []) as [[o s'] h'] eqn:E.
  destruct (upload_download (env 0) hash hash_bytes put start [] o s' h' note E eq_refl)
    as (Ho&code&Hst&_); [discriminate|]. exact Ho.
Defined.
Lemma download_confined_witness :
  downloaded DefaultStoragePath (files start) []
    (download (env 0) DefaultStoragePath (get "../../etc/passwd") start []).1.1
    (download (env 0) DefaultStoragePath (get "../../etc/passwd") start []).1.2
    (download (env 0) DefaultStoragePath (get "../../etc/passwd") start []).2.
Proof.
  destruct (download (env 0) DefaultStoragePath (get "../../etc/passwd") start []) as [[o s'] h'] eqn:E.
  exact (download_confined (env 0) DefaultStoragePath (get "../../etc/passwd") start [] o s' h' E).
Defined.
Lemma entries_plain : Forall (λ e, readable e ∧ path e ≠ lsfPath) [fileA; fileB].
Proof. repeat constructor; by vm_compute. Qed.

(** At 60 seconds the first of two files is gone and the second still there. *)
Lemma cleaner_removes_expired_witness :
  ∃ s' h', deleteFunc (env (60 * Second)) start [] = (Ret None, s', h') ∧
    files s' !! path fileA = None ∧ files s' !! path fileB = Some "B".
Proof.
  destruct (cleaner_removes_expired (env (60 * Second)) (60 * Second) (60 * Second))
    with (es := [fileA; fileB]) (s := start) (h := @nil event) as (s'&h'&Hrun&_&Hdel&Hkeep).
  - intros h []; simpl; done.
  - exact entries_plain.
  - reflexivity.
  - by vm_compute.
  - exists s', h'. split; [exact Hrun|]. split; [apply (Hdel fileA); [left|by vm_compute]|].
    rewrite Hkeep; [reflexivity|]. intros e [->|[->|He]%elem_of_cons]%elem_of_cons; [|by vm_compute|].
    + by vm_compute.
    + inversion He.
Defined.
Lemma journal_roundtrip_witness :
  ∃ h0, files (CommitJournal (env 7) (10 * Second) DefaultStoragePath "c" start []).1.2 !! lsfPath =
    Some (journalOf ([fileA; fileB] ++ [mkEntry (env 7 h0 Now + 10 * Second) (10 * Second) (pathJoin DefaultStoragePath "c")])).
Proof.
  destruct (CommitJournal (env 7) (10 * Second) DefaultStoragePath "c" start []) as [[o s'] h'] eqn:E.
  assert (o = Ret None) as ->.
  { assert ((CommitJournal (env 7) (10 * Second) DefaultStoragePath "c" start []).1.1 = Ret None) as Ho
      by (vm_compute; reflexivity). rewrite E in Ho. exact Ho. }
  destruct (journal_roundtrip (env 7) [fileA; fileB] (10 * Second) DefaultStoragePath "c" start [] s' h')
    as (h0&Hj&_); [reflexivity| | | |exact E|exists h0; exact Hj].
  - repeat constructor; by vm_compute.
  - by vm_compute.
  - intros h0. repeat constructor; by vm_compute.
Defined.
End VanishlingExamples.
