(* ===== verification/VanishlingServer.v ===== *)
(** * vanishling as a server (src/vanishling/)

    The cleaner's loop (ttl/cleaner.go), the construction of the service
    (core/file_service.go, [New]), the health check and the start (main.go), over the
    handlers of Vanishling.v; and the requests as they run side by side, which share a
    WaitGroup and the journaler's lifetime field, as a transition system. *)
From stdpp Require Import base gmap strings numbers list relations.
From S2P Require Import Prelude GoStrings Float64 GoTime Vanishling.
Local Open Scope Z_scope.
Set Default Proof Using "Type*".

(** ** The cleaner's loop and the start *)
Definition DefaultHHSeed : string :=
  "000102030405060708090A0B0C0D0E0FF0E0D0C0B0A090807060504030201000".
Definition DefaultLogCleanerInterval : Z := Second * 5.

(** [hex.DecodeString] *)
Definition hexVal (c : Ascii.ascii) : option Z :=
  let z := byteZ c in
  if decide (48 ≤ z ≤ 57) then Some (z - 48)
  else if decide (97 ≤ z ≤ 102) then Some (z - 87)
  else if decide (65 ≤ z ≤ 70) then Some (z - 55)
  else None.
Fixpoint hexDecode (s : string) : option (list Z) :=
  match s with
  | EmptyString => Some []
  | String a (String b s') =>
      x ← hexVal a; y ← hexVal b; l ← hexDecode s'; Some (16 * x + y :: l)
  | String _ EmptyString => None
  end.

(** What wakes the cleaner: its ticker, or the end of the context. *)
Inductive wake := Tick | CtxDone.
Inductive event :=
  | Fs (e : Vanishling.event)
  | HighwayhashNew (key : list Z)       (* minio/highwayhash *)
  | GoCleaner
  | StopTicker
  | SetGlobalLevel (debug : bool)
  | LogFatal (e : error)                (* an event that is built and never sent *)
  | Handle (pattern : string)
  | ListenAndServe (addr : string)
  | CancelContext
  | Goodbye.
Definition answer (e : event) : Type :=
  match e with
  | Fs e => Vanishling.answer e
  | HighwayhashNew _ => option error
  | ListenAndServe _ => option error
  | _ => unit
  end.
Definition isFs (e : event) : option Vanishling.event :=
  match e with Fs x => Some x | _ => None end.

Section Server.
Context (env : list event → ∀ e, answer e).
Context (fsenv : list Vanishling.event → ∀ e, Vanishling.answer e).
Context (highwayhash : string → list Z).
Abbreviation sio := (io service event).
Abbreviation vio := (io service Vanishling.event).
Abbreviation do e := (call env e).
Abbreviation inFs m := (lift_io Fs isFs m).

(** [Cleaner.Start]: on the wake-ups that arrive before the process is interrupted. *)
Fixpoint Start (ws : list wake) : vio bool :=
  match ws with
  | [] => fatal "signal: interrupt"
  | CtxDone :: _ => mret true
  | Tick :: ws' => deleteFunc fsenv ;; Start ws'
  end.

(** [core.New]; the cleaner runs on its own from here on. *)
Definition New (seed : string) : sio (option error) :=
  match hexDecode seed with
  | None => mret (Some "cannot decode hex key")
  | Some hhSeed =>
      err ← do (HighwayhashNew hhSeed);
      match err with
      | Some e => mret (Some e)
      | None =>
          inFs (NewCleaner fsenv) ;;
          emit GoCleaner ;;
          err ← inFs (NewJournaler fsenv);
          mret err
      end
  end.

(** [delete]: only notes who asked. *)
Definition delete_ (r : request) : vio unit := setPeer r.

(** The health check, and the multiplexer of main. *)
Definition healthCheck (r : request) : vio unit := emit (WriteHeader StatusOK).
Definition mux (path : string) (r : request) : vio unit :=
  if decide (path = "/ping" ∨ path = "/health") then healthCheck r
  else ServeHTTP fsenv highwayhash DefaultStoragePath r.

(** The errors of [New] and [ListenAndServe] are put into fatal log events that are never
    sent, and the program goes on. *)
Definition main (listenAddr : string) (debug : bool) : sio unit :=
  emit (SetGlobalLevel false) ;;
  (if debug then emit (SetGlobalLevel true) else mret tt) ;;
  deferring (emit CancelContext) (
    err ← New DefaultHHSeed;
    match err with Some e => emit (LogFatal e) | None => mret tt end ;;
    emit (Handle "/ping") ;;
    emit (Handle "/health") ;;
    emit (Handle "/") ;;
    err ← do (ListenAndServe listenAddr);
    match err with Some e => emit (LogFatal e) | None => mret tt end ;;
    emit Goodbye).

(** ** Vanishing, as a client sees it *)
Section NoFaults.
Context (t0 t1 : Z).
Context (no_faults : ∀ h e, match e return Vanishling.answer e → Prop with
  | Stat _ | Remove _ | OpenCreate _ | ReadFile _ | Close _ => λ a, a = None
  | Now => λ now, t0 ≤ now ≤ t1
  | _ => λ _, True
  end (fsenv h e)).

(** A request for the file with the identifier [id]. *)
Definition asksFor (id : string) (r : request) : Prop :=
  toUpper (Method r) = "GET" ∧ Header r DefaultFileIdHeader = id ∧
  id ≠ "" ∧ contains ".." id = false ∧ contains "/" id = false.
(** The events of a download that finds the file, or does not. *)
Definition found (id b : string) : list Vanishling.event :=
  [ReadFile (pathJoin DefaultStoragePath id); WriteHeader StatusOK; WriteBody b].
Definition notFound (id : string) : list Vanishling.event :=
  [ReadFile (pathJoin DefaultStoragePath id); WriteHeader StatusBadRequest].

Lemma wp_request id r s h :
  asksFor id r →
  wp (mux "/" r) (λ o _ h', o = Ret tt ∧
    h' = h ++ match files s !! pathJoin DefaultStoragePath id with
              | Some b => found id b | None => notFound id end) s h.
Proof.
  intros (Hm&Hid&Hne&Hdd&Hsl). unfold mux. rewrite decide_False by (intros [?|?]; done).
  unfold ServeHTTP. rewrite Hm, decide_False by (intros [?|?]; done). rewrite decide_True by done.
  unfold download, setPeer, readFile. wp_steps. rewrite Hid, decide_False, Hdd, Hsl by done.
  cbn [orb]. wp_steps. pose proof (no_faults h (ReadFile (pathJoin DefaultStoragePath id))) as Hr.
  simpl in Hr. rewrite Hr. cbn [files setPeerAddr].
  destruct (files s !! _) as [b|]; wp_steps; (split; [done|]); by rewrite <- !app_assoc.
Qed.

(** Files vanish for their clients when their time is up and not before: after a pass of
    the cleaner over the journal, a request for a file whose lifetime is over is answered
    with 400 and nothing else, and a file whose entries all expire later is still served
    with its content, as long as no system call fails. *)
Theorem expired_not_served es s id r :
  Forall (λ e, readable e ∧ path e ≠ lsfPath) es →
  files s !! lsfPath = Some (journalOf es) →
  Z.of_nat (String.length (journalOf es)) ≤ DefaultMaxJournalSize →
  asksFor id r →
  let p := pathJoin DefaultStoragePath id in
  wp (Start [Tick; CtxDone] ;; mux "/" r) (λ o _ h,
    o = Ret tt ∧ ∃ h0,
    ((∃ e, e ∈ es ∧ path e = p ∧ wholeSeconds (expires e) < t0) → h = h0 ++ notFound id) ∧
    (∀ b, files s !! p = Some b → (∀ e, e ∈ es → path e = p → t1 ≤ wholeSeconds (expires e)) →
          h = h0 ++ found id b)) s [].
Proof.
  intros Hes Hj Hlen Hr p. cbn [Start]. wp_steps.
  eapply wp_mono; [|by apply (wp_deleteFunc fsenv t0 t1 no_faults es)].
  intros o s1 h1 (->&_&_&Hdel&Hkeep). wp_steps.
  eapply wp_mono; [|by apply wp_request]. intros o s2 h2 (->&->). split; [done|]. exists h1. split.
  - intros (e&He&Hp&Hexp). specialize (Hdel e He Hexp). rewrite Hp in Hdel. fold p. by rewrite Hdel.
  - intros b Hb Hlate. fold p. by rewrite Hkeep, Hb.
Qed.
End NoFaults.
End Server.

(** ** Requests side by side

    [ServeHTTP] adds one to the shared WaitGroup, starts the handler and waits for the
    group.  An upload that has stored its file writes the lifetime it was asked for into
    the journaler and then reads it back for the journal entry. *)
Module Concurrent.
Inductive phase :=
  | Running                          (* the handler has not yet stored the file *)
  | Stored                           (* stored, status written *)
  | TtlSet                           (* after SetFileTTL *)
  | Finished (entry : option Z).     (* after Done; the lifetime in the journal, if any *)
Record client := mkClient { asked : Z; handler : phase; returned : bool }.
Record state := mkState { wg : nat; fileTTL : Z; clients : list client }.

Definition finished (c : client) : bool :=
  match handler c with Finished _ => true | _ => false end.
Definition to (p : phase) (c : client) : client := mkClient (asked c) p (returned c).

Inductive step : state → state → Prop :=
  | step_arrive w t cs ttl :
      step (mkState w t cs) (mkState (S w) t (cs ++ [mkClient ttl Running false]))
  | step_refuse w t cs i c :         (* a download, or an upload that is not accepted *)
      cs !! i = Some c → handler c = Running →
      step (mkState (S w) t cs) (mkState w t (<[i := to (Finished None) c]> cs))
  | step_store w t cs i c :
      cs !! i = Some c → handler c = Running →
      step (mkState w t cs) (mkState w t (<[i := to Stored c]> cs))
  | step_setTTL w t cs i c :
      cs !! i = Some c → handler c = Stored →
      step (mkState w t cs) (mkState w (asked c) (<[i := to TtlSet c]> cs))
  | step_commit w t cs i c :
      cs !! i = Some c → handler c = TtlSet →
      step (mkState (S w) t cs) (mkState w t (<[i := to (Finished (Some t)) c]> cs))
  | step_return t cs i c :           (* Wait returns at zero *)
      cs !! i = Some c →
      step (mkState 0 t cs) (mkState 0 t (<[i := mkClient (asked c) (handler c) true]> cs)).
Definition reachable (s : state) : Prop := rtc step (mkState 0 0 []) s.

(** The clients whose lifetime has been written to the journaler. *)
Definition hasSet (c : client) : Prop :=
  match handler c with TtlSet | Finished (Some _) => True | _ => False end.
(** One of them asked for [t]. *)
Definition askedBy (cs : list client) (t : Z) : Prop :=
  ∃ j c, cs !! j = Some c ∧ hasSet c ∧ asked c = t.
Definition running (cs : list client) : nat := length (filter (λ c, finished c = false) cs).

Record inv (s : state) : Prop := {
  inv_wg : wg s = running (clients s);
  inv_returned : ∀ i c, clients s !! i = Some c → returned c = true → finished c = true;
  inv_ttl : (∃ t, askedBy (clients s) t) → askedBy (clients s) (fileTTL s);
  inv_entry : ∀ i c t, clients s !! i = Some c → handler c = Finished (Some t) →
                askedBy (clients s) t;
}.

Lemma running_insert cs i c c' :
  cs !! i = Some c →
  (running (<[i := c']> cs) + (if finished c then 0 else 1)
   = running cs + (if finished c' then 0 else 1))%nat.
Proof.
  unfold running. revert i. induction cs as [|x cs IH]; intros [|i] Hi; simplify_eq/=.
  - rewrite !filter_cons. destruct (finished c) eqn:E1, (finished c') eqn:E2;
      repeat case_decide; simpl; done || lia.
  - specialize (IH i Hi). rewrite !filter_cons. case_decide; simpl; lia.
Qed.
(** A lifetime that was asked for stays so when a client moves on. *)
Lemma askedBy_insert cs i c c' t :
  cs !! i = Some c → asked c' = asked c → (hasSet c → hasSet c') →
  askedBy cs t → askedBy (<[i := c']> cs) t.
Proof.
  intros Hi Ha Hs (j&d&Hj&Hd&<-). destruct (decide (i = j)) as [->|Hne].
  - rewrite Hi in Hj. injection Hj as ->. exists j, c'.
    rewrite list_lookup_insert_eq by by eapply lookup_lt_Some. auto.
  - exists j, d. by rewrite list_lookup_insert_ne.
Qed.
Lemma askedBy_insert_inv cs i c c' t :
  cs !! i = Some c → asked c' = asked c → (hasSet c' → hasSet c) →
  askedBy (<[i := c']> cs) t → askedBy cs t.
Proof.
  intros Hi Ha Hs (j&d&Hj&Hd&<-). destruct (decide (i = j)) as [->|Hne].
  - rewrite list_lookup_insert_eq in Hj by by eapply lookup_lt_Some. injection Hj as <-.
    exists j, c. auto.
  - rewrite list_lookup_insert_ne in Hj by done. by exists j, d.
Qed.
Lemma askedBy_snoc cs c t : askedBy cs t → askedBy (cs ++ [c]) t.
Proof. intros (j&d&Hj&Hd&Ht). exists j, d. split; [by apply lookup_app_l_Some|done]. Qed.
(** A client of the new list is the changed one or an old one. *)
Lemma lookup_changed (cs : list client) i j c c' d :
  cs !! i = Some c → <[i := c']> cs !! j = Some d → d = c' ∨ cs !! j = Some d.
Proof.
  intros Hi Hj. destruct (decide (i = j)) as [->|Hne].
  - rewrite list_lookup_insert_eq in Hj by by eapply lookup_lt_Some. left. congruence.
  - rewrite list_lookup_insert_ne in Hj by done. by right.
Qed.

(** A client that moves on without setting a lifetime. *)
Lemma inv_move w w' t cs i c c' :
  inv (mkState w t cs) → cs !! i = Some c →
  asked c' = asked c → (hasSet c' ↔ hasSet c) →
  (w' + (if finished c then 0 else 1) = w + (if finished c' then 0 else 1))%nat →
  (returned c' = true → finished c' = true) →
  (∀ t', handler c' = Finished (Some t') → askedBy cs t') →
  inv (mkState w' t (<[i := c']> cs)).
Proof.
  intros [Hw Hr Ht He] Hi Ha Hs Hn Hret Hent. simpl in *. split; simpl.
  - pose proof (running_insert cs i c c' Hi). lia.
  - intros j d Hj. destruct (lookup_changed _ _ _ _ _ _ Hi Hj) as [->|Hold]; [done|by apply (Hr j)].
  - intros [t' Hask]. apply (askedBy_insert cs i c); [done|done|by apply Hs|]. apply Ht.
    exists t'. by apply (askedBy_insert_inv cs i c c'); [..|apply Hs|].
  - intros j d t' Hj Hd. apply (askedBy_insert cs i c); [done|done|by apply Hs|].
    destruct (lookup_changed _ _ _ _ _ _ Hi Hj) as [->|Hold]; [by apply Hent|by apply (He j d)].
Qed.
Lemma inv_arrive w t cs ttl :
  inv (mkState w t cs) → inv (mkState (S w) t (cs ++ [mkClient ttl Running false])).
Proof.
  intros [Hw Hr Ht He]. simpl in *.
  assert (∀ j d, (cs ++ [mkClient ttl Running false]) !! j = Some d →
            cs !! j = Some d ∨ d = mkClient ttl Running false) as Hold.
  { intros j d [Hj|[_ Hj]]%lookup_app_Some; [by left|right].
    by apply list_lookup_singleton_Some in Hj as [_ <-]. }
  split; simpl.
  - unfold running in *. rewrite filter_app, length_app, <- Hw. simpl. lia.
  - intros j d Hj. destruct (Hold j d Hj) as [Hd| ->]; [by apply (Hr j)|done].
  - intros (t'&j&d&Hj&Hd&Ha). apply askedBy_snoc, Ht.
    destruct (Hold j d Hj) as [Hd'| ->]; [|done]. by exists t', j, d.
  - intros j d t' Hj Hd. apply askedBy_snoc.
    destruct (Hold j d Hj) as [Hd'| ->]; [|done]. by apply (He j d).
Qed.
Lemma inv_setTTL w t cs i c :
  inv (mkState w t cs) → cs !! i = Some c → handler c = Stored →
  inv (mkState w (asked c) (<[i := to TtlSet c]> cs)).
Proof.
  intros [Hw Hr Ht He] Hi Hc. simpl in *.
  assert (finished c = false) as Hf by (unfold finished; by rewrite Hc).
  split; simpl.
  - pose proof (running_insert cs i c (to TtlSet c) Hi) as Hn. rewrite Hf in Hn. simpl in Hn. lia.
  - intros j d Hj. destruct (lookup_changed _ _ _ _ _ _ Hi Hj) as [->|Hold]; [|by apply (Hr j)].
    simpl. intros Hret. specialize (Hr i c Hi Hret). congruence.
  - intros _. exists i, (to TtlSet c). rewrite list_lookup_insert_eq by by eapply lookup_lt_Some. done.
  - intros j d t' Hj Hd. apply (askedBy_insert cs i c); [done|done|done|].
    destruct (lookup_changed _ _ _ _ _ _ Hi Hj) as [->|Hold]; [done|by apply (He j d)].
Qed.
Lemma running_zero cs i c : running cs = 0%nat → cs !! i = Some c → finished c = true.
Proof.
  intros H0 Hi. destruct (finished c) eqn:Hf; [done|].
  assert (c ∈ filter (λ c, finished c = false) cs) as Hin
    by (apply list_elem_of_filter; split; [done|by eapply list_elem_of_lookup_2]).
  unfold running in H0. apply length_zero_iff_nil in H0. rewrite H0 in Hin. by apply elem_of_nil in Hin.
Qed.
Lemma inv_step_concurrent s s' : step s s' → inv s → inv s'.
Proof.
  destruct 1 as [w t cs ttl|w t cs i c Hi Hc|w t cs i c Hi Hc|w t cs i c Hi Hc|w t cs i c Hi Hc|t cs i c Hi];
    intros Hinv.
  - by apply inv_arrive.
  - apply (inv_move (S w) w t cs i c); [done|done|done| | | |done];
      unfold hasSet, finished; simpl; rewrite ?Hc; [done|lia|done].
  - apply (inv_move w w t cs i c); [done|done|done| | | |done];
      unfold hasSet, finished; simpl; rewrite ?Hc; [done|lia|].
    intros Hret. apply (inv_returned _ Hinv i c) in Hret; [|done]. unfold finished in Hret. by rewrite Hc in Hret.
  - by apply (inv_setTTL w t cs i c).
  - apply (inv_move (S w) w t cs i c); [done|done|done| | | |];
      unfold hasSet, finished; simpl; rewrite ?Hc; [done|lia|done|].
    intros t' [= <-]. apply (inv_ttl _ Hinv). exists (asked c), i, c. unfold hasSet. by rewrite Hc.
  - pose proof (running_zero cs i c (eq_sym (inv_wg _ Hinv)) Hi) as Hf.
    apply (inv_move 0 0 t cs i c); [done|done|done|done|done|done|].
    simpl. intros t' Ht'. by apply (inv_entry _ Hinv i c).
Qed.
Lemma inv_reachable_concurrent s : reachable s → inv s.
Proof.
  intros H. unfold reachable in H. assert (inv (mkState 0 0 [])) as Hi.
  { split; simpl; [done|done|by intros (t&j&c&Hj&_)|done]. }
  revert Hi. induction H as [|s1 s2 s3 Hs _ IH]; [done|]. intros Hi. by eapply IH, inv_step_concurrent.
Qed.

(** C34: However requests run side by side: [ServeHTTP] has returned for a request only when
    its handler is done, so that no handler uses the connection of a request that is
    over; the WaitGroup counts exactly the handlers that run; and the lifetime that an
    upload gets in the journal is one that an upload has asked for, although not
    necessarily this one. *)
Theorem requests_side_by_side s i c :
  reachable s → clients s !! i = Some c →
  wg s = running (clients s) ∧ (returned c = true → finished c = true) ∧
  (∀ t, handler c = Finished (Some t) →
     ∃ j c', clients s !! j = Some c' ∧ hasSet c' ∧ asked c' = t).
Proof.
  intros [Hw Hr _ He]%inv_reachable_concurrent Hi. split_and!; [done|by apply (Hr i)|].
  intros t Ht. exact (He i c t Hi Ht).
Qed.

(** Two uploads: the file of the first one, which asked for an hour, gets the minute of the
    second one. *)
Definition mixed : state :=
  mkState 1 Minute [mkClient Hour (Finished (Some Minute)) false; mkClient Minute TtlSet false].
Lemma mixed_reachable : reachable mixed.
Proof.
  unfold reachable.
  eapply rtc_l; [apply (step_arrive _ _ _ Hour)|]. eapply rtc_l; [apply (step_arrive _ _ _ Minute)|].
  eapply rtc_l; [by apply (step_store _ _ _ 0)|]. eapply rtc_l; [by apply (step_store _ _ _ 1)|].
  eapply rtc_l; [by apply (step_setTTL _ _ _ 0)|]. eapply rtc_l; [by apply (step_setTTL _ _ _ 1)|].
  eapply rtc_l; [by apply (step_commit _ _ _ 0)|]. apply rtc_refl.
Qed.
Lemma requests_side_by_side_witness :
  ∃ j c', clients mixed !! j = Some c' ∧ hasSet c' ∧ asked c' = Minute.
Proof.
  exact (proj2 (proj2 (requests_side_by_side mixed 0 _ mixed_reachable eq_refl)) Minute eq_refl).
Defined.
End Concurrent.

Module ServerExamples.
Import VanishlingExamples.
(** The first of two files is gone after 60 seconds. *)
Definition nothing (h : list event) (e : event) : answer e :=
  match e with
  | Fs e => env 0 [] e
  | HighwayhashNew _ => Some "bad key"
  | ListenAndServe _ => None
  | _ => tt
  end.
Definition pass : io service Vanishling.event unit :=
  Start (env (60 * Second)) [Tick; CtxDone] ;; mux (env (60 * Second)) hash "/" (VanishlingExamples.get "a").
Lemma a_asked : asksFor "a" (VanishlingExamples.get "a").
Proof. repeat split; done. Qed.
Lemma clock_stands h e : match e return Vanishling.answer e → Prop with
  | Stat _ | Remove _ | OpenCreate _ | ReadFile _ | Close _ => λ a, a = None
  | Now => λ now, 60 * Second ≤ now ≤ 60 * Second
  | _ => λ _, True
  end (env (60 * Second) h e).
Proof. by destruct e. Qed.
Lemma journal_short : Z.of_nat (String.length (journalOf [fileA; fileB])) ≤ DefaultMaxJournalSize.
Proof. by vm_compute. Qed.
Lemma expired_not_served_witness : ∃ h0, (pass start []).2 = h0 ++ notFound "a".
Proof.
  destruct (pass start []) as [[o s] h] eqn:E.
  destruct (wp_run _ _ _ _ _ _ _ (expired_not_served (env (60 * Second)) hash (60 * Second)
    (60 * Second) clock_stands [fileA; fileB] start "a" (VanishlingExamples.get "a")
    entries_plain eq_refl journal_short a_asked) E) as (_&h0&Hgone&_).
  exists h0. apply Hgone. exists fileA. split; [left|]. split; by vm_compute.
Defined.
(** A key that is refused does not stop the start. *)
Example fatal_goes_on :
  last (main nothing (env 0) "127.0.0.1:8080" false start []).2 = Some CancelContext ∧
  ListenAndServe "127.0.0.1:8080" ∈ (main nothing (env 0) "127.0.0.1:8080" false start []).2.
Proof. vm_compute. split; [reflexivity|]. repeat constructor. Qed.
Example seed_decodes : length <$> hexDecode DefaultHHSeed = Some 32%nat.
Proof. vm_compute. reflexivity. Qed.
End ServerExamples.
