(* ===== verification/VanishlingLife.v ===== *)
(** * The life of the files of vanishling (src/vanishling/)

    Requests and passes of the cleaner in any order, over the handlers of Vanishling.v:
    every stored file has its entry in the journal, is kept until it expires, and is
    removed by the first pass after that. *)
From stdpp Require Import base gmap strings numbers list.
From S2P Require Import Prelude GoStrings Float64 GoTime Vanishling VanishlingServer.
Local Open Scope Z_scope.
Set Default Proof Using "Type*".

(** What the server does: requests as the multiplexer passes them on, ticks of the cleaner. *)
Inductive act := Request (url : string) (r : request) | Pass.

(** The clock stays within two instants, and these calls do not fail; the others may. *)
Definition callsSucceed (t0 t1 : Z) (env : list Vanishling.event → ∀ e, Vanishling.answer e) : Prop :=
  ∀ h e, match e return Vanishling.answer e → Prop with
  | Stat _ | Remove _ | OpenCreate _ | ReadFile _ | Close _ | ReadUpload => λ a, a = None
  | Write _ _ => λ a, a = None
  | Now => λ now, t0 ≤ now ≤ t1
  | _ => λ _, True
  end (env h e).
(** The files that the journal has entries for. *)
Definition journalled (m : gmap string string) : list string :=
  snd <$> omap items (split newline (default "" (m !! lsfPath))).

Section Life.
Context (env : list Vanishling.event → ∀ e, Vanishling.answer e).
Context (highwayhash : string → list Z).
Abbreviation vio := (io service Vanishling.event).

Fixpoint life (acts : list act) : vio unit :=
  match acts with
  | [] => mret tt
  | Request url r :: acts' => mux env highwayhash url r ;; life acts'
  | Pass :: acts' => deleteFunc env ;; life acts'
  end.

(** highwayhash sums are 32 bytes. *)
Context (sum_bytes : ∀ b, Forall (λ z, 0 ≤ z < 256) (highwayhash b) ∧ length (highwayhash b) = 32%nat).
Context (t0 t1 : Z) (calls_succeed : callsSucceed t0 t1 env).
Lemma calls_succeed_cleaner h e : match e return Vanishling.answer e → Prop with
  | Stat _ | Remove _ | OpenCreate _ | ReadFile _ | Close _ => λ a, a = None
  | Now => λ now, t0 ≤ now ≤ t1
  | _ => λ _, True
  end (env h e).
Proof. pose proof (calls_succeed h e) as He. by destruct e. Qed.

(** The longest lifetime of the requests. *)
Context (D : Z).
(** A request whose lifetime can be written to the journal and read back, and whose size
    is that of its file. *)
Definition fair (r : request) : Prop :=
  let t := requestedTTL (Header r DefaultTTLHeader) in
  t ≤ D ∧ inS 64 t ∧ t `mod` Second = 0 ∧ (∀ now, t0 ≤ now ≤ t1 → validDate (now + t)) ∧
  (∀ f, FormFile r = inl f → content f = "" → Size f = 0).

(** ** The invariant *)
(** A file that is to be kept, if any. *)
Context (kept : option (string * string)).
Definition good (e : entry) : Prop := readable e ∧ path e ≠ lsfPath ∧ expires e ≤ t1 + D.
Record covers (es : list entry) (m : gmap string string) : Prop := {
  cov_journal : default "" (m !! lsfPath) = journalOf es;
  cov_good : Forall good es;
  cov_files : ∀ p, p ≠ lsfPath → is_Some (m !! p) → ∃ e, e ∈ es ∧ path e = p;
  cov_kept : ∀ p b, kept = Some (p, b) →
    p ≠ lsfPath ∧ m !! p = Some b ∧ ∀ e, e ∈ es → path e = p → t1 ≤ wholeSeconds (expires e);
}.
(** Up to the moment when the journal is too long and is emptied. *)
Definition tracked (s : service) (h : list Vanishling.event) : Prop :=
  Truncate lsfPath ∈ h ∨ ∃ es, covers es (files s).

Lemma tracked_files s s' h : files s' = files s → tracked s h → tracked s' h.
Proof. unfold tracked. by intros ->. Qed.
Lemma tracked_app s h k : tracked s h → tracked s (h ++ k).
Proof. intros [?|?]; [left; apply elem_of_app; by left|by right]. Qed.
Hint Resolve tracked_app : go.

(** A new file and its entry. *)
Lemma covers_upload es m p b now t :
  covers es m → m !! p = None → good (mkEntry (now + t) t p) →
  covers (es ++ [mkEntry (now + t) t p])
    (<[lsfPath := default "" (m !! lsfPath) +:+ journalLine (now + t) t p]> (<[p := b]> m)).
Proof.
  intros [Hj Hg Hf Hk] Hp Hgood. assert (p ≠ lsfPath) as Hpl by apply Hgood. split.
  - rewrite lookup_insert_eq. simpl. by rewrite Hj, journalOf_snoc.
  - by apply Forall_snoc_2.
  - intros q Hq. rewrite lookup_insert_ne by done. destruct (decide (p = q)) as [->|Hne].
    + intros _. eexists. split; [apply elem_of_app; right; by left|done].
    + rewrite lookup_insert_ne by done. intros (e&He&<-)%Hf; [|done]. exists e. split; [apply elem_of_app; by left|done].
  - intros q c Hq. destruct (Hk q c Hq) as (Hql&Hm&He). assert (p ≠ q) as Hne by congruence.
    rewrite !lookup_insert_ne by done. split_and!; [done..|].
    intros e [Hin|Hin%list_elem_of_singleton]%elem_of_app; [by apply He|]. by subst e.
Qed.
Lemma covers_cleaned es m m' :
  covers es m → cleaned t0 t1 es m m' → covers es m'.
Proof.
  intros [Hj Hg Hf Hk] (Hsub&_&Hkeep). split.
  - rewrite Hkeep; [done|]. intros e He Hp. rewrite Forall_forall in Hg. by destruct (Hg e He) as (_&?&_).
  - done.
  - intros p Hp [b Hb]. apply Hf; [done|]. exists b. by eapply lookup_weaken.
  - intros p b Hp. destruct (Hk p b Hp) as (?&Hm&He). split_and!; [done| |done]. by rewrite Hkeep.
Qed.

(** ** The cleaner *)
Section appends.
Context (x : Vanishling.event).
Abbreviation had := (λ (_ : service) h, x ∈ h).
Ltac grows := inv_solve; intros; try (apply elem_of_app; by left); try done.
Lemma deleteEntries_appends es : preserves had (deleteEntries env es).
Proof.
  induction es as [|e es IH]; cbn [deleteEntries]; [apply preserves_ret|]. unfold stat, remove. grows.
Qed.
Lemma deleteFunc_appends : preserves had (deleteFunc env).
Proof.
  unfold deleteFunc, openCreate, readFile, stat, truncate. pose proof deleteEntries_appends. grows.
Qed.
Lemma CommitJournal_appends t f : preserves had (CommitJournal env t DefaultStoragePath f).
Proof. unfold CommitJournal, openCreate, writeFile. grows. Qed.
Lemma mux_appends url r : preserves had (mux env highwayhash url r).
Proof.
  unfold mux, healthCheck, ServeHTTP, download, upload, IsDiskFull, setPeer, setFileName, hashFile,
    ensureDirWritable, CommitJournal, openExcl, openCreate, readFile, remove, writeFile. grows.
Qed.
Lemma upload_appends r : preserves had (upload env highwayhash DefaultStoragePath r).
Proof.
  unfold upload, IsDiskFull, setPeer, setFileName, hashFile,
    ensureDirWritable, CommitJournal, openExcl, openCreate, readFile, remove, writeFile. grows.
Qed.
Lemma life_appends acts : preserves had (life acts).
Proof.
  induction acts as [|[url r|] acts IH]; cbn [life]; [apply preserves_ret|..];
    (apply preserves_bind; [|done]); [apply mux_appends|apply deleteFunc_appends].
Qed.
End appends.

(** A journal that is not there is created empty. *)
Lemma deleteFunc_absent s h :
  files s !! lsfPath = None → deleteFunc env s h = deleteFunc env (updFiles (<[lsfPath := ""]>) s) h.
Proof.
  intros Hj. unfold deleteFunc. apply io_bind_ext. unfold openCreate, mbind, io_bind. simpl.
  pose proof (calls_succeed h (OpenCreate lsfPath)) as Ho. simpl in Ho.
  by rewrite Ho, Hj, lookup_insert_eq.
Qed.
Lemma wp_deleteFunc_journal es s h :
  Forall (λ e, readable e ∧ path e ≠ lsfPath) es →
  default "" (files s !! lsfPath) = journalOf es →
  wp (deleteFunc env) (λ o s' h', ∃ m, cleaned t0 t1 es (<[lsfPath := journalOf es]> (files s)) m ∧
    (∀ p, p ≠ lsfPath → files s' !! p = m !! p) ∧ (Truncate lsfPath ∈ h' ∨ files s' = m)) s h.
Proof.
  intros Hes Hj. set (s1 := updFiles (<[lsfPath := journalOf es]>) s).
  assert (deleteFunc env s h = deleteFunc env s1 h) as Hrun.
  { unfold s1. rewrite <- Hj. destruct (files s !! lsfPath) as [j|] eqn:Hl; [|by apply deleteFunc_absent].
    f_equal. destruct s. unfold updFiles. simpl in *. by rewrite insert_id. }
  unfold wp at 1. rewrite Hrun.
  eapply wp_mono; [|apply (wp_deleteFunc_any env t0 t1 calls_succeed_cleaner es s1 h Hes)].
  - intros o s' h' (m&Hc&Hp&Hend). exists m. split_and!; [done..|]. by destruct Hend as [[_ ?]|[_ ?]]; [left|right].
  - apply lookup_insert_eq.
Qed.
Lemma good_plain es : Forall good es → Forall (λ e, readable e ∧ path e ≠ lsfPath) es.
Proof. intros Hes. eapply Forall_impl; [exact Hes|]. by intros e (?&?&_). Qed.
Lemma covers_created es m : covers es m → covers es (<[lsfPath := journalOf es]> m).
Proof.
  intros [Hj Hg Hf Hk]. split.
  - by rewrite lookup_insert_eq.
  - done.
  - intros p Hp. rewrite lookup_insert_ne by done. by apply Hf.
  - intros p b Hp. destruct (Hk p b Hp) as (?&?&?). by rewrite lookup_insert_ne.
Qed.
Lemma tracked_deleteFunc : preserves tracked (deleteFunc env).
Proof.
  intros s h [Ht|[es Hc]].
  { eapply wp_mono; [|apply (deleteFunc_appends (Truncate lsfPath) s h Ht)]. by left. }
  eapply wp_mono; [|apply (wp_deleteFunc_journal es); [by apply good_plain, Hc|apply Hc]].
  intros o s' h' (m&Hcl&_&[Ht|Hm]); [by left|]. right. exists es. rewrite Hm.
  by eapply covers_cleaned; [apply covers_created|].
Qed.

(** ** Uploads *)
Lemma wp_ensureDirWritable_files s h :
  wp (ensureDirWritable env DefaultStoragePath) (λ o s' _, files s' = files s ∧ ∃ e, o = Ret e) s h.
Proof.
  unfold ensureDirWritable, openExcl. wp_steps.
  destruct (env _ (OpenExcl _)); wp_steps; [by split; [|eexists]|].
  destruct (files s !! _) eqn:Hp; wp_steps; [by split; [|eexists]|].
  unfold remove. wp_steps. match goal with |- context [env ?h' (Remove ?p)] =>
    pose proof (calls_succeed h' (Remove p)) as Hr end. simpl in Hr. rewrite Hr. simpl.
  rewrite lookup_insert_eq. wp_steps. split; [|by eexists]. simpl. by apply delete_insert_id.
Qed.
(** The file of an upload: nothing has changed, or there is a new file. *)
Definition newFile (f : multipart) (s : service) (o : outcome (result string)) (s' : service) : Prop :=
  ∃ r, o = Ret r ∧ match r with
  | inl id => ∃ b, id = hexEncode (highwayhash b) ∧
       let p := pathJoin DefaultStoragePath id in
       files s !! p = None ∧ files s' = <[p := content f]> (files s)
  | inr _ => files s' = files s
  end.
Lemma wp_hashFile_files f s h :
  content f ≠ "" →
  wp (hashFile env highwayhash DefaultStoragePath f) (λ o s' _, newFile f s o s') s h.
Proof.
  intros Hne. unfold hashFile. wp_steps. eapply wp_mono; [|apply wp_ensureDirWritable_files].
  intros o s1 h1 (Hf1&e&->). destruct e as [e|]; wp_steps; [by exists (inr e)|].
  wp_if; [destruct p as [n e]|]; wp_steps; [by exists (inr e)|]. set (sum := hexEncode _).
  unfold openExcl. wp_steps. destruct (env _ (OpenExcl _)) as [e|]; wp_steps; [by exists (inr e)|].
  simpl. rewrite Hf1. destruct (files s !! _) eqn:Hp; wp_steps; [by eexists (inr _)|].
  match goal with |- context [env ?h' ReadUpload] => pose proof (calls_succeed h' ReadUpload) as Hr end.
  simpl in Hr. rewrite Hr. unfold writeFile. wp_steps.
  match goal with |- context [env ?h' (Write ?q ?d)] => pose proof (calls_succeed h' (Write q d)) as Hw end.
  simpl in Hw. rewrite Hw. wp_steps. rewrite decide_False by done. wp_steps. exists (inl sum). split; [done|].
  eexists. split; [reflexivity|]. split; [done|]. simpl. rewrite Hf1.
  by rewrite alter_insert_eq.
Qed.
Lemma wp_CommitJournal_files t id s h :
  wp (CommitJournal env t DefaultStoragePath id) (λ o s' _, (∃ e, o = Ret e) ∧
    ∃ now, t0 ≤ now ≤ t1 ∧ files s' = <[lsfPath := default "" (files s !! lsfPath) +:+
             journalLine (now + t) t (pathJoin DefaultStoragePath id)]> (files s)) s h.
Proof.
  unfold CommitJournal, openCreate, writeFile. wp_steps.
  pose proof (calls_succeed h (OpenCreate lsfPath)) as Ho. simpl in Ho. rewrite Ho.
  assert (pathJoin DefaultStoragePath id ≠ "") as Hne
    by (unfold pathJoin; case_decide; [done|by destruct id]).
  destruct (files s !! lsfPath) as [j|] eqn:Hj; wp_steps; rewrite decide_False by done; wp_steps;
  (match goal with |- context [env ?h' Now] => pose proof (calls_succeed h' Now) as Hnow;
     match goal with |- context [env ?h2 (Write ?q ?d)] =>
       pose proof (calls_succeed h2 (Write q d)) as Hw end end);
  simpl in Hnow, Hw; rewrite Hw; wp_steps; (split; [by eexists|]); eexists; (split; [exact Hnow|]); simpl.
  - apply map_eq. intros q. destruct (decide (q = lsfPath)) as [->|Hq].
    + by rewrite lookup_alter_eq, lookup_insert_eq, Hj.
    + by rewrite lookup_alter_ne, lookup_insert_ne by done.
  - by rewrite alter_insert_eq.
Qed.

Lemma good_entry r id b now :
  fair r → id = hexEncode (highwayhash b) → t0 ≤ now ≤ t1 →
  let t := requestedTTL (Header r DefaultTTLHeader) in
  good (mkEntry (now + t) t (pathJoin DefaultStoragePath id)).
Proof.
  intros (HD&Ht&Hs&Hv&_) -> Hnow t. destruct (sum_bytes b) as [Hb Hl].
  split; [|split]; [|apply upload_path_not_journal|simpl; lia]. split; [|split; simpl; auto].
  assert (∀ c, isHexDigit c = false → lacks c DefaultStoragePath = true → slash ≠ c →
    lacks c (pathJoin DefaultStoragePath (hexEncode (highwayhash b))) = true) as Hlacks.
  { intros c Hc Hd Hsl. unfold pathJoin. case_decide; [done|]. rewrite lacks_app, Hd. simpl.
    rewrite bool_decide_eq_false_2 by done. by rewrite hexEncode_lacks. }
  split; apply Hlacks; done.
Qed.
(** How an upload ends: refused, and nothing has changed, or with a new file and its entry. *)
Definition rejected (s s' : service) (h' : list Vanishling.event) : Prop :=
  files s' = files s ∧ ∃ code h0, code ≠ StatusOK ∧ h' = h0 ++ [WriteHeader code].
Definition accepted (r : request) (s s' : service) (h' : list Vanishling.event) : Prop :=
  ∃ f id b now, FormFile r = inl f ∧ id = hexEncode (highwayhash b) ∧ t0 ≤ now ≤ t1 ∧
    HeaderAdd DefaultFileIdHeader id ∈ h' ∧
    let p := pathJoin DefaultStoragePath id in
    let t := requestedTTL (Header r DefaultTTLHeader) in
    files s !! p = None ∧
    files s' = <[lsfPath := default "" (files s !! lsfPath) +:+ journalLine (now + t) t p]>
                 (<[p := content f]> (files s)).
Lemma wp_upload_files r s h :
  fair r →
  wp (upload env highwayhash DefaultStoragePath r)
     (λ o s' h', rejected s s' h' ∨ accepted r s s' h') s h.
Proof.
  intros Hr.
  assert (∀ s' h' code, files s' = files s → code ≠ StatusOK →
            rejected s s' (h' ++ [WriteHeader code]) ∨ accepted r s s' (h' ++ [WriteHeader code])) as Hrej.
  { intros s' h' code Hf Hc. left. split; [done|]. by exists code, h'. }
  unfold upload, IsDiskFull, setPeer. wp_steps. wp_if; wp_steps; [by apply Hrej|].
  wp_if; [wp_steps; by apply Hrej|]. destruct (FormFile r) as [f|] eqn:Hf; [|wp_steps; by apply Hrej].
  unfold setFileName. wp_steps. do 2 (wp_if; [wp_steps; by apply Hrej|]).
  wp_if; wp_steps; [by apply Hrej|].
  assert (content f ≠ "") as Hne by (intros Hc; by apply Hif3, (proj2 (proj2 (proj2 (proj2 Hr))))).
  eapply wp_mono; [|by apply wp_hashFile_files]. intros o s1 h1 ([id|e]&->&Hfile); wp_steps; [|by apply Hrej].
  destruct Hfile as (b&Hid&Hnone&Hs1).
  set (h2 := (h1 ++ _) ++ _). assert (HeaderAdd DefaultFileIdHeader id ∈ h2) as Hin.
  { unfold h2. rewrite !elem_of_app. left. right. by left. }
  eapply wp_mono; [|apply wp_and; [apply wp_CommitJournal_files|
    apply (CommitJournal_appends (HeaderAdd DefaultFileIdHeader id) _ id _ h2 Hin)]].
  intros o s2 h3 [([e ->]&now&Hnow&Hs2) Hin2]. wp_steps. right. exists f, id, b, now.
  do 4 (split; [done|]). simpl in Hnone, Hs1. simpl. split; [done|]. rewrite Hs2. simpl. rewrite Hs1.
  f_equal. rewrite lookup_insert_ne; [done|]. apply upload_path_not_journal.
Qed.
Lemma tracked_upload r s h es :
  fair r → covers es (files s) →
  wp (upload env highwayhash DefaultStoragePath r) (λ _ s' _, ∃ es', covers es' (files s')) s h.
Proof.
  intros Hr Hc. eapply wp_mono; [|by apply wp_upload_files].
  intros o s' h' [[-> _]|(f&id&b&now&_&Hid&Hnow&_&Hnone&->)]; [by exists es|]. simpl in *.
  eexists. apply covers_upload; [done|done|]. by eapply good_entry.
Qed.
Lemma download_files m r :
  preserves (λ s _, files s = m) (download env DefaultStoragePath r).
Proof. unfold download, setPeer, readFile. inv_solve; intros; done. Qed.
Lemma tracked_mux url r : fair r → preserves tracked (mux env highwayhash url r).
Proof.
  intros Hr s h [Ht|[es Hc]].
  { eapply wp_mono; [|apply (mux_appends (Truncate lsfPath) url r s h Ht)]. by left. }
  unfold mux, healthCheck, ServeHTTP. repeat wp_if; wp_steps; try (right; by exists es).
  - eapply wp_mono; [|by eapply tracked_upload]. intros o s' h' ?. by right.
  - eapply wp_mono; [|by apply (download_files (files s))]. intros o s' h' Hf. right. exists es. by rewrite Hf.
Qed.

Definition fairAct (a : act) : Prop := match a with Request _ r => fair r | Pass => True end.
Lemma tracked_life acts : Forall fairAct acts → preserves tracked (life acts).
Proof.
  induction 1 as [|[url r|] acts Ha _ IH]; cbn [life]; [apply preserves_ret|..];
    (apply preserves_bind; [|by intros _]); [by apply tracked_mux|apply tracked_deleteFunc].
Qed.
End Life.

(** ** Properties *)
Section Vanish.
Context (highwayhash : string → list Z).
Context (sum_bytes : ∀ b, Forall (λ z, 0 ≤ z < 256) (highwayhash b) ∧ length (highwayhash b) = 32%nat).
Context (env : list Vanishling.event → ∀ e, Vanishling.answer e) (t0 t1 : Z) (D : Z).
Context (calls_succeed : callsSucceed t0 t1 env).

Lemma tracked_new acts s0 o s h :
  files s0 = ∅ → Forall (fairAct t0 t1 D) acts → life env highwayhash acts s0 [] = (o, s, h) →
  Truncate lsfPath ∉ h → ∃ es, covers t1 D None es (files s).
Proof.
  intros Hs0 Hacts Hrun Htr. assert (tracked t1 D None s h) as [?|?]; [|done|done].
  eapply (preserves_run _ _ _ _ _ _ _ (tracked_life env highwayhash sum_bytes t0 t1 calls_succeed D None acts Hacts));
    [|exact Hrun]. right. exists []. split; rewrite ?Hs0; try done. by intros p _ [? ?%lookup_empty_Some].
Qed.
Lemma covers_keep es m p b :
  covers t1 D None es m → p ≠ lsfPath → m !! p = Some b →
  (∀ e, e ∈ es → path e = p → t1 ≤ wholeSeconds (expires e)) → covers t1 D (Some (p, b)) es m.
Proof. intros [Hj Hg Hf _] Hp Hm He. split; [done..|]. by intros p' b' [= <- <-]. Qed.
Lemma journalled_paths kept es m : covers t1 D kept es m → journalled m = path <$> es.
Proof.
  intros [Hj Hg _ _]. unfold journalled. rewrite Hj, items_journalOf.
  - by rewrite <- list_fmap_compose.
  - eapply Forall_impl; [exact Hg|]. by intros e (?&_).
Qed.
Lemma wholeSeconds_mono a b : a ≤ b → wholeSeconds a ≤ wholeSeconds b.
Proof. intros Hab. unfold wholeSeconds. apply Z.mul_le_mono_nonneg_r; [done|]. by apply Z.div_le_mono. Qed.


End Vanish.

Module LifeExamples.
Import VanishlingExamples.
Definition noTruncate (e : Vanishling.event) : Prop := match e with Truncate _ => False | _ => True end.
Lemma not_truncated h : Forall noTruncate h → Truncate lsfPath ∉ h.
Proof. intros Hh Hin. rewrite Forall_forall in Hh. by apply Hh in Hin. Qed.
Lemma env_succeeds now : callsSucceed now now (env now).
Proof. intros h e. by destruct e. Qed.
Lemma put_fair : fair 0 0 (5 * Minute) put.
Proof.
  split_and!; [by vm_compute..| |].
  - intros now Hnow. assert (now = 0) as -> by lia. by vm_compute.
  - by intros f [= <-].
Qed.
Definition empty : service := mkService ∅ "" "" "" 0.
Definition day : list act := [Request "/" put; Pass; Request "/ping" put; Pass].
Lemma day_fair : Forall (fairAct 0 0 (5 * Minute)) day.
Proof. apply Forall_forall. intros a Ha. repeat (apply elem_of_cons in Ha as [->|Ha]; [try exact I; apply put_fair|]). by apply elem_of_nil in Ha. Qed.


Definition run1 := upload (env 0) hash DefaultStoragePath put empty [].
Definition run2 := life (env 0) hash [Pass; Pass] run1.1.2 run1.2.
(** Both are not empty claims: the file is there and the journal names it. *)
Example day_stored : journalled (files (life (env 0) hash day empty []).1.2) =
    [pathJoin DefaultStoragePath (hexEncode (hash ""))].
Proof. vm_compute. reflexivity. Qed.

(** An upload that breaks off while it is read again is refused, but the file that was
    created for it stays, without an entry, for ever. *)
Definition envBroken (h : list Vanishling.event) (e : Vanishling.event) : Vanishling.answer e :=
  match e with ReadUpload => Some "unexpected EOF" | e' => env 0 h e' end.
Example broken_upload_stays :
  let run := upload envBroken hash DefaultStoragePath put empty [] in
  statuses run.2 = [StatusBadRequest] ∧ journalled (files run.1.2) = [] ∧
  files run.1.2 !! pathJoin DefaultStoragePath (hexEncode (hash "")) = Some "".
Proof. vm_compute. done. Qed.
End LifeExamples.
