(* ===== verification/Ldap.v ===== *)
(** * The LDAP password changer (src/ldap-explore/main.go)

    The form handler, the check of the user against the directory and the change of
    the password, and the start of the program.  The directory answers through the
    environment; the strength score of zxcvbn is a parameter. *)
From stdpp Require Import base strings numbers list.
From S2P Require Import Prelude GoStrings.
Local Open Scope Z_scope.
Set Default Proof Using "Type*".

(** ** Data *)
Record LdapConfig := mkConfig {
  LdapURI : string; BindDN : string; BindPW : string; BaseDN : string; SearchDN : string;
}.
Record ldapPasswdUser := mkUser {
  username : string; currentPasswd : string; newPasswd : string; ldapUserDN : string;
}.
Definition newLdapPasswdUser (u c n : string) : ldapPasswdUser := mkUser u c n "".
Definition setUserDN (dn : string) (u : ldapPasswdUser) : ldapPasswdUser :=
  mkUser (username u) (currentPasswd u) (newPasswd u) dn.

Record request := mkRequest {
  Method : string; Form : string → string; XForwardedFor : string; RemoteAddr : string;
}.

Inductive event :=
  | Dial (uri : string)
  | StartTLS
  | Bind (dn pw : string)
  | Search (base filter : string)
  | CloseConn
  | PasswordModify (dn current new : string)
  | WriteHeader (code : Z)
  | WriteBody (b : string).
Definition answer (e : event) : Type :=
  match e with
  | Dial _ | StartTLS | Bind _ _ | PasswordModify _ _ _ => option error
  | Search _ _ => result (list string)     (* the DNs of the entries *)
  | _ => unit
  end.

Definition StatusOK : Z := 200.
Definition errPasswordReuse : error := "Old password reused".
Definition errWeakPasswordUsed : error := "Weak password provided".
Definition errInvalidUser : error := "Invalid User".
Definition errPasswordDontMatch : error := "New passwords do not match".

Section Ldap.
Context (config : LdapConfig).
(** [fmt.Sprintf(config.SearchDN, username)], the score of [zxcvbn], the page of
    the form. *)
Context (Sprintf : string → string → string) (PasswordStrength : string → Z).
Context (passwdChangeHTML : string).
Context (env : list event → ∀ e, answer e).
Abbreviation lio := (io ldapPasswdUser event).
Abbreviation do e := (call env e).

Definition respond (body : string) : lio unit :=
  emit (WriteHeader StatusOK) ;; emit (WriteBody body).

Definition bootstrapLdapClient : lio (option error) :=
  e ← do (Dial (LdapURI config));
  match e with
  | Some e => mret (Some e)
  | None =>
      e ← do StartTLS;
      match e with
      | Some e => mret (Some e)
      | None =>
          e ← do (Bind (BindDN config) (BindPW config));
          mret ((λ _, "failed to bind with ldap") <$> e)
      end
  end.

Definition isValidLDAPUser : lio (bool * option error) :=
  e ← bootstrapLdapClient;
  match e with
  | Some e => mret (false, Some e)
  | None =>
      deferring (emit CloseConn) (
        ldu ← get;
        res ← do (Search (BaseDN config) (Sprintf (SearchDN config) (username ldu)));
        match res with
        | inr _ => mret (false, Some "error occurred when searching")
        | inl [userDN] =>
            e ← do (Bind userDN (currentPasswd ldu));
            match e with
            | Some _ => mret (false, Some "invalid user")
            | None =>
                e ← do (Bind (BindDN config) (BindPW config));
                match e with
                | Some e => mret (false, Some e)
                | None =>
                    if decide (userDN ≠ "") then
                      modify (setUserDN userDN) ;; mret (true, None)
                    else mret (false, Some errInvalidUser)
                end
            end
        | inl _ => mret (false, Some errInvalidUser)
        end)
  end.

Definition changeLdapPasswd : lio (option error) :=
  e ← bootstrapLdapClient;
  match e with
  | Some e => mret (Some e)
  | None =>
      deferring (emit CloseConn) (
        ldu ← get;
        do (PasswordModify (ldapUserDN ldu) (currentPasswd ldu) (newPasswd ldu)))
  end.

Definition changePassword : lio unit :=
  '(_, err) ← isValidLDAPUser;
  match err with
  | Some _ => respond errInvalidUser
  | None =>
      err ← changeLdapPasswd;
      match err with
      | Some e => respond e
      | None => respond "Your password has been modified"
      end
  end.

Definition getRemoteIP (req : request) : string :=
  if decide (XForwardedFor req = "") then RemoteAddr req else XForwardedFor req.

Definition checkPasswdLen (current new1 new : string) : lio bool :=
  if decide (current = new1 ∨ current = new) then respond errPasswordReuse ;; mret false
  else if decide (new1 ≠ new) then respond errPasswordDontMatch ;; mret false
  else mret true.

Definition checkStrength (new : string) : lio (bool * Z) :=
  let score := PasswordStrength new in
  if decide (score < 3) then respond errWeakPasswordUsed ;; mret (false, -1)
  else mret (true, score).

(** The state is the user object made from the form. *)
Definition changePasswordHandleFunc (req : request) : lio unit :=
  if decide (toLower (Method req) = "post") then
    let user := Form req "username" in
    let current := Form req "currentpass" in
    let new1 := Form req "newpass1" in
    let new := Form req "newpass2" in
    ok ← checkPasswdLen current new1 new;
    if ok : bool then
      '(ok, score) ← checkStrength new;
      if ok : bool then
        modify (λ _, newLdapPasswdUser user current new) ;;
        changePassword
      else mret tt
    else mret tt
  else respond passwdChangeHTML.

(** ** Lemmas *)
(** Neither a change nor a part of the response. *)
Definition preliminary (e : event) : bool :=
  match e with PasswordModify _ _ _ | WriteHeader _ | WriteBody _ => false | _ => true end.
(** The directory accepted the password for the user. *)
Definition authenticated (h : list event) (dn pw : string) : Prop :=
  ∃ h1 h2, h = h1 ++ Bind dn pw :: h2 ∧ env h1 (Bind dn pw) = None.
Lemma authenticated_app h k dn pw : authenticated h dn pw → authenticated (h ++ k) dn pw.
Proof. intros (h1&h2&->&He). exists h1, (h2 ++ k). by rewrite <- app_assoc. Qed.

Lemma wp_bootstrap s h :
  Forall preliminary h →
  wp bootstrapLdapClient (λ o s' h', s' = s ∧ Forall preliminary h' ∧
    ∃ ev r, o = Ret r ∧ h' = h ++ ev) s h.
Proof.
  intros Hh. unfold bootstrapLdapClient. wp_steps.
  wp_if; wp_steps; [|wp_if; wp_steps]; (split; [done|]);
    (split; [repeat (apply Forall_snoc_2; [|done]); done|]);
    do 2 eexists; (split; [done|]); rewrite <- ?app_assoc; done.
Qed.
Lemma wp_isValid s h :
  Forall preliminary h →
  wp isValidLDAPUser (λ o s' h', Forall preliminary h' ∧
    ∃ b err, o = Ret (b, err) ∧
      (err = None → currentPasswd s' = currentPasswd s ∧ newPasswd s' = newPasswd s ∧
         ldapUserDN s' ≠ "" ∧ authenticated h' (ldapUserDN s') (currentPasswd s))) s h.
Proof.
  intros Hh. unfold isValidLDAPUser. wp_steps. eapply wp_mono; [|by apply wp_bootstrap].
  intros o s1 h1 (->&Hh1&ev&r&->&_).
  destruct r as [e|]; wp_steps; [split; [done|]; by do 2 eexists|].
  destruct (env h1 _) as [[|dn [|? ?]]|err]; wp_steps;
    try (split; [by repeat (apply Forall_snoc_2; [|done])|]; by do 2 eexists).
  wp_if; wp_steps; [split; [by repeat (apply Forall_snoc_2; [|done])|]; by do 2 eexists|].
  wp_if; wp_steps; [split; [by repeat (apply Forall_snoc_2; [|done])|]; by do 2 eexists|].
  wp_if; wp_steps; (split; [by repeat (apply Forall_snoc_2; [|done])|]); do 2 eexists; (split; [done|]);
    [|done].
  intros _. split; [done|]. split; [done|]. split; [done|]. do 2 apply authenticated_app.
  eexists _, []. by split.
Qed.

(** The request asked for a change that the form checks let pass. *)
Definition acceptable (req : request) : Prop :=
  toLower (Method req) = "post" ∧ Form req "newpass1" = Form req "newpass2" ∧
  Form req "newpass2" ≠ Form req "currentpass" ∧ 3 ≤ PasswordStrength (Form req "newpass2").
(** The end of a request that changed nothing. *)
Definition refused (h : list event) : Prop :=
  ∃ pre body, h = pre ++ [WriteHeader StatusOK; WriteBody body] ∧ Forall preliminary pre.
(** The end of a request that asked the directory for the change, once, after the
    directory had accepted the current password for the same user. *)
Definition changed (req : request) (h : list event) : Prop :=
  ∃ pre dn body,
    let modify := PasswordModify dn (Form req "currentpass") (Form req "newpass2") in
    h = pre ++ [modify; CloseConn; WriteHeader StatusOK; WriteBody body] ∧
    Forall preliminary pre ∧ dn ≠ "" ∧ authenticated pre dn (Form req "currentpass") ∧
    body = match env pre modify with
           | None => "Your password has been modified"
           | Some e => e
           end.

Lemma refused_respond pre body :
  Forall preliminary pre → refused ((pre ++ [WriteHeader StatusOK]) ++ [WriteBody body]).
Proof. intros Hp. exists pre, body. by rewrite <- app_assoc. Qed.
Lemma wp_changePassword req s h :
  Forall preliminary h →
  currentPasswd s = Form req "currentpass" → newPasswd s = Form req "newpass2" →
  wp changePassword (λ o _ h', o = Ret tt ∧ (refused h' ∨ changed req h')) s h.
Proof.
  intros Hh Hc Hn. unfold changePassword, respond. wp_steps. eapply wp_mono; [|by apply wp_isValid].
  intros o s1 h1 (Hh1&b&err&->&Hok). destruct err as [e|]; wp_steps.
  { split; [done|]. left. by apply refused_respond. }
  destruct (Hok eq_refl) as (Hc1&Hn1&Hdn&Hauth). unfold changeLdapPasswd. wp_steps.
  eapply wp_mono; [|by apply wp_bootstrap]. intros o s2 h2 (->&Hh2&ev&r&->&->).
  destruct r as [e|]; wp_steps; [split; [done|]; left; by apply refused_respond|].
  rewrite Hc1, Hn1, Hc, Hn. set (m := PasswordModify _ _ _). wp_if; wp_steps.
  all: split; [done|]; right; eexists (h1 ++ ev), (ldapUserDN s1), _; cbv zeta; fold m.
  all: rewrite <- !app_assoc; split; [done|]; split; [done|]; split; [done|].
  all: split; [apply authenticated_app; by rewrite <- Hc|].
  all: by rewrite Hcase.
Qed.

(** C9: A password is only changed for who knows it: every request is answered once,
    with status 200, and either asks the directory for no change, or passed the
    checks of the form (the new password entered twice, different from the current
    one, with a score of three or more) and asks for exactly one change, after the
    directory accepted the current password for that user; the answer reports
    success exactly when the directory did. *)
Theorem password_change_authenticated req s :
  ∃ s' h, changePasswordHandleFunc req s [] = (Ret tt, s', h) ∧
    (refused h ∨ acceptable req ∧ changed req h).
Proof.
  assert (wp (changePasswordHandleFunc req)
    (λ o _ h, o = Ret tt ∧ (refused h ∨ acceptable req ∧ changed req h)) s []) as Hwp.
  2: { unfold wp in Hwp. destruct (changePasswordHandleFunc req s []) as [[o s'] h].
       destruct Hwp as [-> ?]. by exists s', h. }
  assert (∀ body, refused (([] ++ [WriteHeader StatusOK]) ++ [WriteBody body])) as Href.
  { intros body. by apply refused_respond. }
  unfold changePasswordHandleFunc, checkPasswdLen, checkStrength, respond.
  wp_if; [|wp_steps; split; [done|]; left; apply Href]. wp_steps.
  wp_if; [wp_steps; split; [done|]; left; apply Href|].
  wp_if; [wp_steps; split; [done|]; left; apply Href|]. wp_steps.
  wp_if; [wp_steps; split; [done|]; left; apply Href|]. wp_steps.
  eapply wp_mono; [|by apply (wp_changePassword req)].
  intros o s' h [-> [?|?]]; split; auto. right. split; [|done].
  apply Decidable.not_or in Hif0 as [? ?]. apply dec_stable in Hif1.
  split; [done|]. split; [done|]. split; [congruence|lia].
Qed.
End Ldap.

(** ** The start of the program *)
Module Start.
Definition listenAddress : string := "0.0.0.0:8081".
Inductive event :=
  | OpenConf (name : string)
  | ReadAll
  | CloseConf
  | Logf (s : string)
  | ListenAndServe (addr : string).
Definition answer (e : event) : Type :=
  match e with
  | OpenConf _ => option error
  | ReadAll => result string
  | ListenAndServe _ => error
  | _ => unit
  end.

Section Start.
(** [json.Unmarshal] into the configuration there is; JSON's null makes the pointer nil. *)
Context (Unmarshal : string → option LdapConfig → result (option LdapConfig)).
Context (env : list event → ∀ e, answer e).
(** The global variable [config]. *)
Abbreviation sio := (io (option LdapConfig) event).
Abbreviation do e := (call env e).

Definition loadConfig : sio (result (option LdapConfig)) :=
  r ← do ReadAll;
  match r with
  | inr err => mret (inr err)
  | inl buf =>
      config ← get;
      match Unmarshal buf config with
      | inr err => mret (inr err)
      | inl config => modify (λ _, config) ;; mret (inl config)
      end
  end.
Definition init : sio unit :=
  err ← do (OpenConf "conf.json");
  match err with
  | Some err => fatal err
  | None =>
      deferring (emit CloseConf) (
        r ← loadConfig;
        match r with
        | inr err => modify (λ _, None) ;; fatal err
        | inl config => modify (λ _, config)
        end)
  end.
Definition main : sio unit :=
  emit (Logf ("running http server at " +:+ listenAddress)) ;;
  err ← do (ListenAndServe listenAddress);
  fatal err.

(** The server listens only after a configuration was read, with exactly what is in the
    file, over an empty one; otherwise the process ends before. *)
Lemma start_run :
  (init ;; main) (Some (mkConfig "" "" "" "" "")) [] =
  let h1 := [OpenConf "conf.json"] in
  match env [] (OpenConf "conf.json") with
  | Some err => (Exit err, Some (mkConfig "" "" "" "" ""), h1)
  | None =>
      match env h1 ReadAll with
      | inr err => (Exit err, None, h1 ++ [ReadAll])
      | inl buf =>
          match Unmarshal buf (Some (mkConfig "" "" "" "" "")) with
          | inr err => (Exit err, None, h1 ++ [ReadAll])
          | inl config =>
              let h := h1 ++ [ReadAll; CloseConf; Logf ("running http server at " +:+ listenAddress)] in
              (Exit (env h (ListenAndServe listenAddress)), config, h ++ [ListenAndServe listenAddress])
          end
      end
  end.
Proof.
  apply wp_eq. unfold init, loadConfig, main. cbv zeta. wp_steps.
  destruct (env [] (OpenConf "conf.json")) as [err|]; wp_steps; [done|]. simpl app.
  destruct (env _ ReadAll) as [buf|err]; wp_steps; [|done].
  destruct (Unmarshal buf _) as [config|err]; wp_steps; done.
Qed.
End Start.
End Start.
