(* ===== verification/Kafka.v ===== *)
(** * The Kafka restarter (src/kafka-rolling-restarter/main.go)

    The polling loop: three Prometheus queries, two sums in float64, the decision and
    the call of systemctl.  The Prometheus API, systemd and the clock answer through
    the environment.  The loop may poll forever, so it runs for a number of rounds;
    the theorem holds for every number. *)
From stdpp Require Import base strings numbers list.
From S2P Require Import Prelude GoStrings Float64.
Local Open Scope Z_scope.
Set Default Proof Using "Type*".

(** ** Constants *)
Definition controllersSum : f64 := of_int 1.
Definition keyMetricsSum : f64 := of_int 0.
Definition quoted (s : string) : string := String (chr 34) (s +:+ String (chr 34) EmptyString).
Definition rulesQuery : string :=
  "sum(rate(prometheus_http_requests_total{code=" +:+ quoted "200" +:+ ",handler=" +:+
  quoted "/rules" +:+ "}[1m]))> 0".
Definition underReplicatedPartitionQuery : string := rulesQuery.
Definition inSyncReplicatedQuery : string := rulesQuery.
Definition sumActiveControllerCountQuery : string := rulesQuery.
Definition prometheusQueryRangePollInterval : Z := 5 * Second.
Definition prometheusQueryRangeStartAt : Z := - Minute * 2.
Definition preStartSleepDuration : Z := Second * 5.

(** A matrix: the sample values of each series. *)
Definition Matrix : Type := list (list f64).
Record Range := mkRange { Start : Z; End : Z; Step : Z }.
Record queryAnswer := mkAnswer {
  value : option Matrix;     (* [None]: a result that is not a matrix *)
  warnings : list string;
  qerr : option error;
}.

Inductive event :=
  | NewClient (url : string)
  | QueryRange (q : string) (r : Range)
  | Systemctl (args : list string)
  | Sleep (d : Z)
  | Now.
Definition answer (e : event) : Type :=
  match e with
  | NewClient _ | Systemctl _ => option error
  | QueryRange _ _ => queryAnswer
  | Now => Z
  | Sleep _ => unit
  end.

Section Kafka.
Context (env : list event → ∀ e, answer e).
(** The state is the time range of the client. *)
Abbreviation kio := (io Range event).
Abbreviation do e := (call env e).

Definition setTimeRange (s e step : Z) : kio unit := modify (λ _, mkRange s e step).

Definition newPromQueryClient (url : string) : kio unit :=
  e ← do (NewClient url);
  match e with
  | Some _ => fatal "exit status 1"
  | None =>
      s ← do Now;
      e ← do Now;
      modify (λ _, mkRange (s + prometheusQueryRangeStartAt) e Minute)
  end.

(** What [promQueryRange] makes of an answer: warnings give no matrix and the nil
    error. *)
Definition matrixOf (a : queryAnswer) : result Matrix :=
  match qerr a with
  | Some e => inr e
  | None =>
      match warnings a with
      | _ :: _ => inl []
      | [] => match value a with
              | Some m => inl m
              | None => inr "could not type assert to model.Matrix"
              end
      end
  end.
Definition promQueryRange (q : string) : kio (result Matrix) :=
  r ← get;
  a ← do (QueryRange q r);
  mret (matrixOf a).

Definition sumMatrix (sum : f64) (m : Matrix) : f64 :=
  foldl (λ sum x, foldl fadd sum x) sum m.
Definition getKeyMetricsSum (urp isr : Matrix) : f64 := sumMatrix (sumMatrix (of_int 0) urp) isr.
Definition getActiveControllerSum (acc : Matrix) : f64 := sumMatrix (of_int 0) acc.

Definition isRestartRequired (a k : f64) : bool := feqb k keyMetricsSum && feqb a controllersSum.

Definition restart (serviceName : string) : kio (option error) :=
  do (Systemctl ["restart " +:+ serviceName]).

(** [queried q k]: the query, or the end of the process on an error. *)
Definition queried (q : string) : kio Matrix :=
  r ← promQueryRange q;
  match r with
  | inl m => mret m
  | inr _ => fatal "exit status 1"
  end.

(** One round: [true] when the service was restarted and the loop is left. *)
Definition round (restartKafkaService : bool) : kio bool :=
  urp ← queried underReplicatedPartitionQuery;
  isr ← queried inSyncReplicatedQuery;
  acc ← queried sumActiveControllerCountQuery;
  let activeControllerSum := fadd (of_int 0) (getActiveControllerSum acc) in
  let keySum := fadd (of_int 0) (getKeyMetricsSum urp isr) in
  let wait : kio bool :=
    do (Sleep prometheusQueryRangePollInterval) ;;
    s ← do Now;
    e ← do Now;
    setTimeRange (s + prometheusQueryRangeStartAt) e Minute ;;
    mret false in
  if isRestartRequired activeControllerSum keySum then
    if restartKafkaService then
      e ← restart "kafka-server.service";
      match e with
      | Some _ => fatal "exit status 1"
      | None => mret true
      end
    else
      do (Sleep Minute) ;; wait
  else wait.

(** [rounds] rounds of the loop; [false] when it is still polling then. *)
Fixpoint loop (restartKafkaService : bool) (rounds : nat) : kio bool :=
  match rounds with
  | O => mret false
  | S n =>
      restarted ← round restartKafkaService;
      if restarted : bool then mret true else loop restartKafkaService n
  end.
Definition main (url : string) (restartKafkaService : bool) (rounds : nat) : kio bool :=
  do (Sleep preStartSleepDuration) ;;
  newPromQueryClient url ;;
  loop restartKafkaService rounds.

(** ** Lemmas *)
Definition isRestart (e : event) : bool := match e with Systemctl _ => true | _ => false end.
Definition quiet (h : list event) : Prop := Forall (λ e, isRestart e = false) h.

(** The history ends with the round that restarts the service. *)
Definition restarted (flag : bool) (h : list event) : Prop :=
  ∃ h1 r urp isr acc,
    let q1 := QueryRange underReplicatedPartitionQuery r in
    let q2 := QueryRange inSyncReplicatedQuery r in
    let q3 := QueryRange sumActiveControllerCountQuery r in
    h = h1 ++ [q1; q2; q3; Systemctl ["restart kafka-server.service"]] ∧ flag = true ∧ quiet h1 ∧
    matrixOf (env h1 q1) = inl urp ∧ matrixOf (env (h1 ++ [q1]) q2) = inl isr ∧
    matrixOf (env (h1 ++ [q1; q2]) q3) = inl acc ∧
    isRestartRequired (fadd (of_int 0) (getActiveControllerSum acc))
                      (fadd (of_int 0) (getKeyMetricsSum urp isr)) = true.

(** After a run: no restart yet, or it was the last thing done. *)
Definition safe (flag : bool) (o : outcome bool) (_ : Range) (h : list event) : Prop :=
  match o with
  | Ret false => quiet h
  | Ret true => restarted flag h
  | Exit _ => quiet h ∨ restarted flag h
  | Panic _ => False
  end.

Lemma quiet_snoc h e : isRestart e = false → quiet h → quiet (h ++ [e]).
Proof. intros He Hh. by apply Forall_snoc_2. Qed.
#[local] Hint Resolve quiet_snoc : go.

Lemma wp_round flag s h : quiet h → wp (round flag) (safe flag) s h.
Proof.
  intros Hh. unfold round, queried, promQueryRange, setTimeRange. wp_steps.
  do 3 (wp_if; wp_steps; [|left; auto with go]).
  wp_if; [|wp_steps; simpl; auto 10 with go].
  destruct flag; [|wp_steps; simpl; auto 10 with go].
  unfold restart. wp_steps.
  match goal with |- wp _ _ _ ?h' => assert (restarted true h') as Hr end.
  { rewrite <- !app_assoc in *. eexists h, s, _, _, _. cbv zeta. rewrite <- ?app_assoc. by split_and!. }
  wp_if; wp_steps; [by right|exact Hr].
Qed.
Lemma wp_loop flag n s h : quiet h → wp (loop flag n) (safe flag) s h.
Proof.
  revert s h. induction n as [|n IH]; intros s h Hh; cbn [loop]; [by wp_steps|].
  wp_steps. eapply wp_mono; [|by apply wp_round].
  intros [[]|msg|msg] s' h' Ho; simpl in *; [by wp_steps|by apply IH|done|done].
Qed.

End Kafka.

Module KafkaExamples.
(** The metrics are not zero, but come with a warning: the service is restarted. *)
Definition isQuery (e : event) : bool := match e with QueryRange _ _ => true | _ => false end.
Definition env (h : list event) (e : event) : answer e :=
  match e with
  | NewClient _ | Systemctl _ => None
  | QueryRange _ _ =>
      if decide (length (filter isQuery h) < 2)%nat
      then mkAnswer (Some [[of_int 7]]) ["partial response"] None
      else mkAnswer (Some [[of_int 1]]) [] None
  | Now => 0
  | Sleep _ => tt
  end.
Example restart_despite_warning :
  (main env "http://127.0.0.1:9090" true 1 (mkRange 0 0 0) []).1.1 = Ret true.
Proof. vm_compute. reflexivity. Qed.
End KafkaExamples.
