(* ===== verification/Dockerfile.v ===== *)
(** * The Dockerfile generator (src/dockerfile/)

    The client for the Docker API and the command that prints the Dockerfile of a
    local or pulled image from its history.  The API answers through the environment;
    the body of a pull is the sequence of its JSON messages up to its end.  The log is
    not kept. *)
From stdpp Require Import base strings numbers list sets.
From Stdlib Require Import Ascii.
From S2P Require Import Prelude GoStrings.
Local Open Scope Z_scope.
Set Default Proof Using "Type*".

(** ** Data *)
Inductive Level := DebugLevel | InfoLevel | WarnLevel | ErrorLevel | FatalLevel.

(** models.go *)
Record DockerImagePullEvent := mkPullEvent {
  Status : string; Error : string; Progress : string; Current : Z; Total : Z;
}.
Record DockerImageClient := mkClient {
  imageName : string; imageId : string; repo : string; dockerfile : string;
}.
Definition set_imageName (x : string) (d : DockerImageClient) :=
  mkClient x (imageId d) (repo d) (dockerfile d).
Definition set_imageId (x : string) (d : DockerImageClient) :=
  mkClient (imageName d) x (repo d) (dockerfile d).
Definition set_dockerfile (x : string) (d : DockerImageClient) :=
  mkClient (imageName d) (imageId d) (repo d) x.

(** What the API returns: images with their tags, layers newest first. *)
Record ImageSummary := mkImage { ID : string; RepoTags : list string }.
Record HistoryItem := mkItem { CreatedBy : string; Tags : list string }.
(** A JSON message of a pull: [null], or an object that may leave fields out. *)
Inductive message :=
  | Null
  | Object (status err progress : option string) (current total : option Z).
Record body := mkBody { messages : list message; failure : option error }.

Inductive event :=
  | SetGlobalLevel (l : Level)
  | NewEnvClient
  | ImageList
  | ImageHistory (id : string)
  | ImagePull (ref : string)
  | CloseBody
  | Usage
  | Printf (s : string).
Definition answer (e : event) : Type :=
  match e with
  | NewEnvClient => option error
  | ImageList => result (list ImageSummary)
  | ImageHistory _ => result (list HistoryItem)
  | ImagePull _ => result (option body)
  | _ => unit
  end.

Definition errLocalImageNotFound : error :=
  "tried listing the image name but could not find any image".

(** ** Reconstruction *)
Definition reservedInstructions : list string :=
  ["ENV"; "EXPOSE"; "ARG"; "LABEL"; "USER"; "EXPOSE"; "CMD"; "MAINTAINER"; "ENTRYPOINT";
   "STOPSIGNAL"; "COPY"; "VOLUME"; "WORKDIR"; "ONBUILD"; "HEALTHCHECK"; "SHELL"].
(** A backslash, a line feed and four spaces. *)
Definition continuation : string := String (chr 92) (String newline "    ").
Definition cleaner : list (string * string) :=
  [("/bin/sh -c #(nop) ", ""); ("/bin/sh -c", "RUN /bin/sh -c"); ("&&", continuation +:+ "&&")].
Definition trimInstructions (steps : string) : string :=
  foldl (λ steps e, replaceAll steps (" " +:+ e) e) steps reservedInstructions.
Definition cleanStep (history : string) : string := trimInstructions (replacer cleaner 0 history).

(** The loop over [imageHistory[i]] from [i = n - 1] down to 0. *)
Fixpoint traverse (imageHistory : list HistoryItem) (n : nat) (df : string) : string :=
  match n with
  | O => df
  | S i =>
      traverse imageHistory i
        (match imageHistory !! i with
         | Some item =>
             if decide (CreatedBy item = "") then df
             else df +:+ cleanStep (CreatedBy item) +:+ String newline ""
         | None => df
         end)
  end.
Definition lastTag (imageHistory : list HistoryItem) : string :=
  foldl (λ t ih, match Tags ih with [] => t | tag :: _ => tag end) "" imageHistory.
Definition findImage (repo name : string) (imageList : list ImageSummary) : option string :=
  ID <$> List.find (λ image,
    existsb (λ i, negb (bool_decide (i = "")) &&
                  (bool_decide (i = repo +:+ name) || bool_decide (i = name)))
            (RepoTags image)) imageList.

(** [json.Decode] into an event that already has values keeps the fields the message
    leaves out. *)
Definition decode (m : message) (ev : DockerImagePullEvent) : option DockerImagePullEvent :=
  match m with
  | Null => None
  | Object s e p c t =>
      Some (mkPullEvent (default (Status ev) s) (default (Error ev) e) (default (Progress ev) p)
                        (default (Current ev) c) (default (Total ev) t))
  end.

(** ** What Docker records

    The documented form of a layer's [CreatedBy]: the command of a RUN, or an
    instruction that only changes metadata after a marker; files are copied with one
    space after it, other instructions have two.  A shell command is given by its
    parts between [&&]. *)
Inductive instruction :=
  | Meta (e args : string)
  | File (e args : string)
  | Run (cmd : string) (more : list string).
Definition chain (sep : string) (more : list string) : string :=
  foldr (λ p r, sep +:+ p +:+ r) "" more.
Definition recorded (i : instruction) : string :=
  match i with
  | Meta e args => "/bin/sh -c #(nop) " +:+ " " +:+ e +:+ " " +:+ args
  | File e args => "/bin/sh -c #(nop) " +:+ e +:+ " " +:+ args
  | Run cmd more => "/bin/sh -c" +:+ " " +:+ cmd +:+ chain "&&" more
  end.
(** The line of the Dockerfile. *)
Definition written (i : instruction) : string :=
  match i with
  | Meta e args | File e args => e +:+ " " +:+ args
  | Run cmd more => "RUN /bin/sh -c" +:+ " " +:+ cmd +:+ chain (continuation +:+ "&&") more
  end.
(** Text in which no pattern of the reconstruction occurs. *)
Definition noInstruction (t : string) : Prop :=
  Forall (λ e, contains (String " " e) t = false) reservedInstructions.
Definition plain (t : string) : Prop := noInstruction t ∧ untouched cleaner t.
Definition recordable (i : instruction) : Prop :=
  match i with
  | Meta e args => e ∈ reservedInstructions ∧ plain (String " " args)
  | File e args => e ∈ ["ADD"; "COPY"] ∧ plain (String " " args)
  | Run cmd more =>
      hasPrefix "#(nop) " cmd = false ∧
      Forall (λ t, plain t ∧ lacks "&" t = true) (String " " cmd :: more)
  end.
(** The history, newest layer first, from the instructions and tags of the layers in
    the order in which they were made; [None] is a layer without a command. *)
Definition layersOf (steps : list (option instruction * list string)) : list HistoryItem :=
  (λ s, mkItem (from_option recorded "" s.1) s.2) <$> reverse steps.
Definition wellRecorded (steps : list (option instruction * list string)) : Prop :=
  Forall (λ s, from_option recordable True s.1) steps.
(** The tag of the oldest tagged layer, if there is one. *)
Definition oldestTag (steps : list (option instruction * list string)) : string :=
  default "" (head (omap (λ s, head s.2) steps)).
Definition linesOf (ls : list string) : string :=
  foldr (λ l r, l +:+ String newline r) "" ls.

(** ** Lemmas *)
Lemma trim_none s : noInstruction s → trimInstructions s = s.
Proof.
  unfold noInstruction, trimInstructions. induction 1 as [|e es He _ IH]; [done|]. cbn [foldl].
  unfold replaceAll. rewrite replacer_untouched; [exact IH|]. by constructor.
Qed.
(** Instructions have no spaces and none is the beginning of another. *)
Lemma reserved_lacks e : e ∈ reservedInstructions → lacks " " e = true.
Proof.
  revert e. apply Forall_forall. repeat constructor.
Qed.
Lemma noInstruction_word w t : lacks " " w = true → noInstruction t → noInstruction (w +:+ t).
Proof. intros Hw Ht. apply (Forall_impl _ _ _ Ht). intros e He. by rewrite contains_skip. Qed.
Lemma reserved_prefix e0 e :
  e0 ∈ reservedInstructions → e ∈ reservedInstructions → e0 ≠ e → hasPrefix e0 e = false.
Proof.
  intros H0 He Hne.
  assert (forallb (λ a, forallb (λ b, bool_decide (a = b) || negb (hasPrefix a b))
                          reservedInstructions) reservedInstructions = true) as Hall
    by (vm_compute; reflexivity).
  rewrite forallb_forall in Hall. specialize (Hall e0 ltac:(by apply list_elem_of_In)).
  rewrite forallb_forall in Hall. specialize (Hall e ltac:(by apply list_elem_of_In)).
  rewrite bool_decide_eq_false_2 in Hall by done. by apply negb_true_iff.
Qed.

(** One round of the trimming on an instruction with or without its space. *)
Section trim_rounds.
Context (e t : string).
Hypothesis He : e ∈ reservedInstructions.
Hypothesis Ht : noInstruction (String " " t).

Lemma trim_text x : x ∈ reservedInstructions → contains (String " " x) (String " " t) = false.
Proof. intros Hx. exact (proj1 (Forall_forall _ _) Ht x Hx). Qed.
Lemma trim_done x : x ∈ reservedInstructions →
  replaceAll (e +:+ String " " t) (" " +:+ x) x = e +:+ String " " t.
Proof.
  intros Hx. apply replacer_untouched. constructor; [|done]. cbn [fst].
  change (" " +:+ x) with (String " " x).
  rewrite contains_skip by by apply reserved_lacks. by apply trim_text.
Qed.
Lemma trim_hit :
  replaceAll (String " " (e +:+ String " " t)) (" " +:+ e) e = e +:+ String " " t.
Proof.
  unfold replaceAll. change (String " " (e +:+ String " " t)) with ((" " +:+ e) +:+ String " " t).
  rewrite (replacer_match _ _ e); [f_equal; apply replacer_untouched; constructor; [|done]|done|].
  - by apply trim_text.
  - cbn [find_pair]. rewrite (proj2 (hasPrefix_spec _ _)); [done|by eexists].
Qed.
Lemma trim_other x : x ∈ reservedInstructions → x ≠ e →
  replaceAll (String " " (e +:+ String " " t)) (" " +:+ x) x = String " " (e +:+ String " " t).
Proof.
  intros Hx Hne. apply replacer_untouched. constructor; [|done].
  change (contains (String " " x) (String " " (e +:+ String " " t)) = false). cbn [contains].
  rewrite contains_skip, trim_text, hasPrefix_cons, hasPrefix_sep, reserved_prefix
    by (done || by apply reserved_lacks).
  by rewrite andb_false_r.
Qed.
(** The instruction behind a space loses the space, and nothing else changes. *)
Lemma trim_instruction :
  trimInstructions (String " " (e +:+ String " " t)) = e +:+ String " " t.
Proof.
  unfold trimInstructions. set (f := λ s x, replaceAll s (" " +:+ x) x).
  assert (∀ l, l ⊆ reservedInstructions → foldl f (e +:+ String " " t) l = e +:+ String " " t)
    as Hrest.
  { induction l as [|x l IH]; intros Hl; [done|]. cbn [foldl]. unfold f at 2.
    rewrite trim_done by set_solver. apply IH. set_solver. }
  assert (∀ l, l ⊆ reservedInstructions → e ∈ l →
            foldl f (String " " (e +:+ String " " t)) l = e +:+ String " " t) as Hall;
    [|by apply Hall].
  induction l as [|x l IH]; intros Hl Hin; [by apply elem_of_nil in Hin|]. cbn [foldl].
  unfold f at 2. destruct (decide (x = e)) as [->|Hne].
  - rewrite trim_hit. apply Hrest. set_solver.
  - rewrite trim_other by set_solver. apply IH; set_solver.
Qed.
End trim_rounds.

(** A word before text without patterns of the cleaner. *)
Lemma untouched_word w t :
  lacks "/" w = true → lacks "&" w = true → untouched cleaner t → untouched cleaner (w +:+ t).
Proof.
  intros Hs Ha. unfold untouched, cleaner. rewrite !Forall_cons. cbn [fst].
  intros (H1&H2&H3&_). split_and!; [by rewrite contains_skip..|done].
Qed.
(** The marker of a metadata instruction is dropped. *)
Lemma clean_marker t :
  untouched cleaner t → cleanStep ("/bin/sh -c #(nop) " +:+ t) = trimInstructions t.
Proof.
  intros Ht. unfold cleanStep. rewrite (replacer_match _ _ ""); [|done|done].
  by rewrite replacer_untouched.
Qed.
(** A RUN: the shell is kept, each [&&] begins a new line. *)
Lemma clean_chain t more :
  Forall (λ t, plain t ∧ lacks "&" t = true) (t :: more) →
  replacer cleaner 0 (t +:+ chain "&&" more) = t +:+ chain (continuation +:+ "&&") more.
Proof.
  revert t. induction more as [|p more IH]; intros t [[[_ Ht] Ha] Hm]%Forall_cons; cbn [chain foldr].
  - by rewrite string_app_nil, replacer_untouched.
  - change ("&&" +:+ p +:+ ?r) with (String "&" (String "&" (p +:+ r))).
    rewrite replacer_pass; [f_equal|done|].
    + change (String "&" (String "&" (p +:+ ?r))) with ("&&" +:+ (p +:+ r)).
      rewrite (replacer_match _ _ (continuation +:+ "&&")); [|done|done].
      f_equal. by apply IH.
    + unfold untouched, cleaner in *. rewrite !Forall_cons in *. cbn [fst] in *.
      destruct Ht as (H1&H2&H3&_).
      split_and!; [done|by left|done|by left|done|right; by eexists|done].
Qed.
Lemma noInstruction_chain t more :
  Forall (λ t, plain t ∧ lacks "&" t = true) (t :: more) →
  noInstruction (t +:+ chain (continuation +:+ "&&") more).
Proof.
  revert t. induction more as [|p more IH]; intros t [[[Ht _] _] Hm]%Forall_cons; cbn [chain foldr].
  - by rewrite string_app_nil.
  - specialize (IH p Hm). apply Forall_forall. intros e He.
    assert (lacks (chr 92) e = true ∧ lacks newline e = true ∧ lacks "&" e = true ∧
            contains (String " " e) "    " = false) as (H1&H2&H3&H4).
    { revert e He. apply Forall_forall. repeat constructor. }
    pose proof (proj1 (Forall_forall _ _) Ht e He) as Hte.
    pose proof (proj1 (Forall_forall _ _) IH e He) as Hpe. cbn beta in Hte, Hpe.
    change ((continuation +:+ "&&") +:+ p +:+ ?r) with
      (String (chr 92) ("" +:+ String newline ("    " +:+ String "&" ("" +:+ String "&" (p +:+ r))))).
    unfold chain in Hpe. rewrite !contains_sep by done. rewrite Hte, Hpe, H4. reflexivity.
Qed.

Lemma run_skip e s :
  e ∈ reservedInstructions →
  contains (String " " e) ("RUN /bin/sh -c" +:+ s) = contains (String " " e) s.
Proof.
  intros He. revert s. revert He.
  refine (proj1 (Forall_forall (λ e, ∀ s, contains (String " " e) ("RUN /bin/sh -c" +:+ s)
                                          = contains (String " " e) s) _) _ e).
  repeat constructor.
Qed.
(** The line of every recordable instruction is restored. *)
Lemma cleanStep_recorded i : recordable i → cleanStep (recorded i) = written i.
Proof.
  destruct i as [e args|e args|cmd more]; cbn [recordable recorded written].
  - intros [He [Hi Hu]]. rewrite clean_marker; [by apply trim_instruction|].
    change (" " +:+ e +:+ " " +:+ args) with ((" " +:+ e) +:+ String " " args).
    assert (lacks "/" e = true ∧ lacks "&" e = true) as [H1 H2].
    { revert e He. apply Forall_forall. repeat constructor. }
    by apply untouched_word.
  - intros [He [Hi Hu]]. change (e +:+ " " +:+ args) with (e +:+ String " " args).
    assert (lacks " " e = true ∧ lacks "/" e = true ∧ lacks "&" e = true) as (H1&H2&H3).
    { revert e He. apply Forall_forall. repeat constructor. }
    rewrite clean_marker by by apply untouched_word. apply trim_none. by apply noInstruction_word.
  - intros [Hm Hall]. unfold cleanStep.
    rewrite (replacer_match _ _ "RUN /bin/sh -c"); [|done|].
    + change (" " +:+ cmd +:+ ?r) with (String " " cmd +:+ r).
      rewrite clean_chain by done. apply trim_none.
      pose proof (noInstruction_chain _ _ Hall) as Hn.
      apply Forall_forall. intros e He.
      pose proof (proj1 (Forall_forall _ _) Hn e He) as Hc. cbn beta in Hc.
      by rewrite run_skip.
    + apply Forall_cons in Hall as [_ Hmore]. cbn [find_pair cleaner].
      assert (hasPrefix "/bin/sh -c #(nop) " ("/bin/sh -c" +:+ " " +:+ cmd +:+ chain "&&" more)
              = hasPrefix "#(nop) " (cmd +:+ chain "&&" more)) as -> by reflexivity.
      assert (hasPrefix "#(nop) " (cmd +:+ chain "&&" more) = false) as ->.
      { destruct more as [|p more]; [by rewrite string_app_nil|].
        change (chain "&&" (p :: more)) with (String "&" (String "&" (p +:+ chain "&&" more))).
        by rewrite hasPrefix_sep. }
      reflexivity.
Qed.
Section Dockerfile.
Context (env : list event → ∀ e, answer e).
Abbreviation dio := (io DockerImageClient event).
Abbreviation do e := (call env e).

Definition levelOf (loglevel : string) : Level :=
  let l := toLower loglevel in
  if decide (l = "debug") then DebugLevel
  else if decide (l = "warn") then WarnLevel
  else if decide (l = "info") then InfoLevel
  else if decide (l = "error") then ErrorLevel
  else if decide (l = "fatal") then FatalLevel
  else InfoLevel.
Definition newDockerImageClient (r loglevel : string) : dio unit :=
  emit (SetGlobalLevel (levelOf loglevel)) ;;
  e ← do NewEnvClient;
  match e with
  | Some _ => fatal "exit status 1"
  | None => modify (λ _, mkClient "" "" (r +:+ "/") "")
  end.

Definition getImageIdByName : dio (result string) :=
  r ← do ImageList;
  match r with
  | inr e => mret (inr e)
  | inl imageList =>
      d ← get;
      match findImage (repo d) (imageName d) imageList with
      | Some id => mret (inl id)
      | None => mret (inr errLocalImageNotFound)
      end
  end.

Definition getBaseImageTagByImageId (imageId : string) : dio (result string) :=
  r ← do (ImageHistory imageId);
  match r with
  | inr e => mret (inr e)
  | inl imageHistory => mret (inl (lastTag imageHistory))
  end.

Definition dockerFile (base : string) : dio (result string) :=
  d ← get;
  r ← do (ImageHistory (imageId d));
  match r with
  | inr e => mret (inr e)
  | inl imageHistory =>
      mret (inl (traverse imageHistory (length imageHistory)
                          ("FROM " +:+ base +:+ String newline "")))
  end.

(** The loop over the messages; a [null] leaves a nil event behind. *)
Fixpoint pullLoop (ms : list message) (fail : option error) (ev : DockerImagePullEvent) :
    dio (option error) :=
  match ms with
  | [] =>
      match fail with
      | Some e => mret (Some e)
      | None => emit (Printf (String newline "")) ;; mret None
      end
  | m :: ms' =>
      match decode m ev with
      | None => panic "invalid memory address or nil pointer dereference"
      | Some ev' =>
          if decide (Progress ev' = "") then pullLoop ms' fail ev'
          else
            emit (Printf (String (chr 13) (String.concat "" (replicate 55 " ")))) ;;
            emit (Printf (String (chr 13) (Progress ev'))) ;;
            pullLoop ms' fail ev'
      end
  end.
Definition pullImage : dio (option error) :=
  d ← get;
  if decide (repo d = "") then mret (Some "invalid repo")
  else if decide (imageName d = "") then mret (Some "invalid image name")
  else
    let canonicalRepo := repo d +:+ imageName d in
    r ← do (ImagePull canonicalRepo);
    match r with
    | inr e => mret (Some e)
    | inl None =>
        mret (Some ("error occurred when trying to pull image tag '" +:+ canonicalRepo +:+ "'"))
    | inl (Some i) =>
        deferring (emit CloseBody)
          (pullLoop (messages i) (failure i) (mkPullEvent "" "" "" 0 0))
    end.

(** ** The command (main.go)

    The source also calls a package [imageClient] that it does not import; the call
    has no effect on what follows and is left out. *)
Record options := mkOptions {
  imageIdOpt : string; imageNameOpt : string; imageRepo : string; loglevelOpt : string;
}.
(** The value of a call, the end of the process on an error. *)
Definition orFatal {A} (r : result A) : dio A :=
  match r with inl a => mret a | inr _ => fatal "exit status 1" end.
Definition valueOr (r : result string) : string := match r with inl a => a | inr _ => "" end.

Definition selectByName (name : string) : dio unit :=
  modify (set_imageName name) ;;
  r ← getImageIdByName;
  modify (set_imageId (valueOr r)) ;;
  if decide (valueOr r = "") then
    e ← pullImage;
    match e with Some _ => fatal "exit status 1" | None => mret tt end
  else mret tt.
Definition selectById (id : string) : dio unit :=
  r ← getBaseImageTagByImageId id;
  modify (set_imageName (valueOr r)) ;;
  if decide (valueOr r = "") then fatal "exit status 1"
  else modify (set_imageId id).
Definition main (o : options) : dio unit :=
  if decide (imageNameOpt o = "" ∧ imageIdOpt o = "") then
    emit Usage ;; fatal "exit status 127"
  else
    newDockerImageClient (imageRepo o) (loglevelOpt o) ;;
    (if decide (imageNameOpt o = "") then selectById (imageIdOpt o)
     else selectByName (imageNameOpt o)) ;;
    r ← getImageIdByName;
    id ← orFatal r;
    modify (set_imageId id) ;;
    r ← getBaseImageTagByImageId id;
    bi ← orFatal r;
    r ← dockerFile bi;
    df ← orFatal r;
    modify (set_dockerfile df) ;;
    emit (Printf df).

(** ** Lemmas *)
Lemma recorded_nonempty i : recorded i ≠ "".
Proof. by destruct i. Qed.
Lemma linesOf_app a b : linesOf (a ++ b) = linesOf a +:+ linesOf b.
Proof.
  induction a as [|l a IH]; [done|]. cbn [linesOf foldr app]. fold (linesOf (a ++ b)).
  rewrite IH, string_app_assoc, string_app_cons. done.
Qed.
Lemma traverse_layers steps df k :
  wellRecorded steps →
  traverse (layersOf steps ++ k) (length steps) df
  = df +:+ linesOf (written <$> omap fst steps).
Proof.
  revert df k. induction steps as [|i steps IH]; intros df k Hs; cbn [length traverse].
  { by rewrite string_app_nil. }
  apply Forall_cons in Hs as [Hi Hs].
  assert (layersOf (i :: steps) ++ k
          = layersOf steps ++ mkItem (from_option recorded "" i.1) i.2 :: k) as ->.
  { unfold layersOf. by rewrite reverse_cons, fmap_app, <- app_assoc. }
  rewrite list_lookup_middle by (unfold layersOf; by rewrite length_fmap, length_reverse).
  cbn [CreatedBy]. rewrite IH by done. destruct i as [[i|] tags]; [|done]. cbn [from_option fst] in *.
  rewrite decide_False by apply recorded_nonempty. rewrite cleanStep_recorded by done.
  change (omap fst ((Some i, tags) :: steps)) with (i :: omap fst steps).
  cbn [fmap list_fmap linesOf foldr]. by rewrite !string_app_assoc.
Qed.

Lemma lastTag_layers steps : lastTag (layersOf steps) = oldestTag steps.
Proof.
  unfold oldestTag. induction steps as [|[i tags] steps IH]; [done|].
  unfold layersOf, lastTag in *. rewrite reverse_cons, fmap_app, foldl_app. cbn [fmap list_fmap foldl Tags snd].
  destruct tags as [|t tags]; [exact IH|]. done.
Qed.
(** [dockerFile] restores the instructions from the layers. *)
Lemma steps_restored steps base d h :
  wellRecorded steps →
  env h (ImageHistory (imageId d)) = inl (layersOf steps) →
  dockerFile base d h
  = (Ret (inl ("FROM " +:+ base +:+ String newline (linesOf (written <$> omap fst steps)))),
     d, h ++ [ImageHistory (imageId d)]).
Proof.
  intros Hs Henv. unfold dockerFile, mbind, io_bind, get, call. rewrite Henv. unfold mret, io_ret.
  assert (length (layersOf steps) = length steps) as ->
    by (unfold layersOf; by rewrite length_fmap, length_reverse).
  rewrite <- (app_nil_r (layersOf steps)), traverse_layers by done.
  by rewrite !string_app_assoc, string_app_cons.
Qed.

(** What is found: an image with the wanted name among its tags. *)
Lemma findImage_Some r n imgs id :
  findImage r n imgs = Some id →
  ∃ img tag, img ∈ imgs ∧ ID img = id ∧ tag ∈ RepoTags img ∧ tag ≠ "" ∧ (tag = r +:+ n ∨ tag = n).
Proof.
  unfold findImage. intros (img&[Hin Ht]%find_some&->)%fmap_Some.
  apply existsb_exists in Ht as (tag&Htag&Ht).
  exists img, tag. rewrite !list_elem_of_In. split_and!; [done..| |].
  - intros ->. by simpl in Ht.
  - apply andb_true_iff in Ht as [_ Ht]. apply orb_true_iff in Ht as [Ht|Ht];
      apply bool_decide_eq_true in Ht; auto.
Qed.

(** The client after an image was selected. *)
Definition selected (o : options) (d : DockerImageClient) : Prop :=
  repo d = imageRepo o +:+ "/" ∧
  (imageNameOpt o ≠ "" → imageName d = imageNameOpt o) ∧ imageName d ≠ "".

Lemma wp_pullLoop ms fail ev d h :
  wp (pullLoop ms fail ev) (λ _ d' _, d' = d) d h.
Proof.
  revert ev h. induction ms as [|m ms IH]; intros ev h; cbn [pullLoop].
  - destruct fail; by wp_steps.
  - destruct (decode m ev); [|by wp_steps]. wp_if; [apply IH|wp_steps; apply IH].
Qed.
Lemma wp_pullImage d h : wp pullImage (λ _ d' _, d' = d) d h.
Proof.
  unfold pullImage. wp_steps. wp_if; [by wp_steps|]. wp_if; [by wp_steps|]. wp_steps.
  destruct (env h (ImagePull (repo d +:+ imageName d))) as [[i|]|e]; wp_steps; [|done|done].
  eapply wp_mono; [|apply wp_pullLoop]. intros [?|?|?] d' h' ->; by wp_steps.
Qed.
Lemma wp_selectById o id d h :
  imageNameOpt o = "" → repo d = imageRepo o +:+ "/" →
  wp (selectById id) (λ out d' _, out = Ret tt → selected o d') d h.
Proof.
  intros Ho Hr. unfold selectById, getBaseImageTagByImageId. wp_steps.
  destruct (env h (ImageHistory id)) as [l|e]; wp_steps; case_decide; wp_steps;
    (discriminate || (intros _; unfold selected; by split_and!)).
Qed.
Lemma wp_selectByName o d h :
  imageNameOpt o ≠ "" → repo d = imageRepo o +:+ "/" →
  wp (selectByName (imageNameOpt o)) (λ out d' _, out = Ret tt → selected o d') d h.
Proof.
  intros Ho Hr. unfold selectByName, getImageIdByName. wp_steps.
  assert (∀ r h', wp (if decide (valueOr r = "")
                      then e ← pullImage; match e with Some _ => fatal "exit status 1" | None => mret tt end
                      else mret tt) (λ out d' _, out = Ret tt → selected o d')
                     (set_imageId (valueOr r) (set_imageName (imageNameOpt o) d)) h') as Hpull.
  { intros r h'. wp_if; wp_steps; [|done]. eapply wp_mono; [|apply wp_pullImage].
    intros [[e|]|?|?] d' h2 ->; wp_steps; done. }
  destruct (env h ImageList) as [imgs|e]; wp_steps; [|exact (Hpull (inr e) _)].
  destruct (findImage _ _ imgs) as [id|]; wp_steps; [exact (Hpull (inl id) _)|].
  exact (Hpull (inr errLocalImageNotFound) _).
Qed.


(** What is on the screen at the end, and where it comes from. *)
Definition printedFor (o : options) (d : DockerImageClient) (h : list event) : Prop :=
  ∃ h1 imgs layers layers',
    let h2 := h1 ++ [ImageList] in
    let h3 := h2 ++ [ImageHistory (imageId d)] in
    h = h3 ++ [ImageHistory (imageId d); Printf (dockerfile d)] ∧
    selected o d ∧
    env h1 ImageList = inl imgs ∧
    findImage (repo d) (imageName d) imgs = Some (imageId d) ∧
    env h2 (ImageHistory (imageId d)) = inl layers ∧
    env h3 (ImageHistory (imageId d)) = inl layers' ∧
    dockerfile d = traverse layers' (length layers')
                     ("FROM " +:+ lastTag layers +:+ String newline "").

(** When the command succeeds, the last thing it did was to print the Dockerfile made
    from the history of an image of the local list that has the selected name, with or
    without the repository, among its tags; the base image is the tag of the oldest
    tagged layer. *)
Theorem printed_is_of_named_image o d0 :
  wp (main o) (λ out d h, out = Ret tt →
    printedFor o d h ∧
    ∃ imgs img tag, env (take (length h - 4) h) ImageList = inl imgs ∧ img ∈ imgs ∧
      ID img = imageId d ∧ tag ∈ RepoTags img ∧
      (tag = imageRepo o +:+ "/" +:+ imageName d ∨ tag = imageName d)) d0 [].
Proof.
  eapply (wp_mono _ (λ out d h, out = Ret tt → printedFor o d h)).
  { intros out d h Hp Hout. specialize (Hp Hout). split; [exact Hp|].
    destruct Hp as (h1&imgs&l&l'&->&(Hr&_&_)&Hi&Hf&_).
    rewrite !length_app. simpl. rewrite <- !app_assoc, take_app_length' by lia.
    apply findImage_Some in Hf as (img&tag&?&?&?&_&Htag). exists imgs, img, tag.
    rewrite Hr, string_app_assoc in Htag. done. }
  unfold main. wp_if; [by wp_steps|]. wp_steps. unfold newDockerImageClient. wp_steps.
  wp_if; wp_steps; [done|].
  match goal with |- wp ?m _ ?d ?h =>
    assert (wp m (λ out d' _, out = Ret tt → selected o d') d h) as Hsel
      by (case_decide; [by apply wp_selectById|by apply wp_selectByName])
  end.
  eapply wp_mono; [|exact Hsel]. clear Hsel. intros [[]|?|?] d1 h1 Hsel; [|done..].
  specialize (Hsel eq_refl). unfold getImageIdByName, getBaseImageTagByImageId, dockerFile, orFatal.
  wp_steps. destruct (env h1 ImageList) as [imgs|] eqn:Hi; wp_steps; [|done].
  destruct (findImage _ _ imgs) as [id|] eqn:Hf; wp_steps; [|done].
  destruct (env _ (ImageHistory id)) as [l|] eqn:Hl; wp_steps; [|done].
  destruct (env _ (ImageHistory (imageId (set_imageId id d1)))) as [l'|] eqn:Hl'; wp_steps; [|done].
  intros _. exists h1, imgs, l, l'. cbv zeta.
  split; [by rewrite <- !app_assoc|]. by split_and!.
Qed.

End Dockerfile.

Module DockerfileExamples.
(** Two images; the second one is built on the first. *)
Definition baseLayers : list HistoryItem :=
  [mkItem "/bin/sh -c #(nop)  CMD [bash]" ["ubuntu:focal"]; mkItem "/bin/sh -c #(nop) ADD file:1 in / " []].
Definition appLayers : list HistoryItem :=
  mkItem "/bin/sh -c apt-get update && apt-get install -y git" ["app:1"] :: baseLayers.
Definition env (h : list event) (e : event) : answer e :=
  match e with
  | ImageList => inl [mkImage "b" ["ubuntu:focal"]; mkImage "a" ["app:1"]]
  | ImageHistory id => inl (if decide (id = "a") then appLayers else baseLayers)
  | NewEnvClient => None
  | ImagePull _ => inl None
  | _ => tt
  end.
Definition client : DockerImageClient := mkClient "" "" "" "".
Definition run (o : options) : string := dockerfile (main env o client []).1.2.

(** The Dockerfile of the named image, its FROM line naming the oldest tagged layer. *)
Example by_name :
  run (mkOptions "" "app:1" "" "")
  = linesOf ["FROM ubuntu:focal"; "ADD file:1 in / "; "CMD [bash]";
             "RUN /bin/sh -c apt-get update " +:+ continuation +:+ "&& apt-get install -y git"].
Proof. vm_compute. reflexivity. Qed.
(** Given by its identifier, the image is replaced by the one it is built on. *)
Example by_id_prints_base :
  run (mkOptions "a" "" "" "") = linesOf ["FROM ubuntu:focal"; "ADD file:1 in / "; "CMD [bash]"].
Proof. vm_compute. reflexivity. Qed.
(** Without a repository the name is pulled with a slash before it. *)
Example pull_without_repo :
  last (main env (mkOptions "" "debian" "" "") client []).2 = Some (ImagePull "/debian").
Proof. vm_compute. reflexivity. Qed.
(** The application image in the documented form. *)
Definition appSteps : list (option instruction * list string) :=
  [(Some (File "ADD" "file:1 in / "), []);
   (Some (Meta "CMD" "[bash]"), ["ubuntu:focal"]);
   (Some (Run "apt-get update " [" apt-get install -y git"]), ["app:1"])].
(** A word that is the name of an instruction loses the space before it. *)
Example run_loses_space :
  cleanStep "/bin/sh -c echo USER" = "RUN /bin/sh -c echoUSER".
Proof. vm_compute. reflexivity. Qed.
End DockerfileExamples.
