(* ===== verification/Hci.v ===== *)
(** * The Bluetooth scanner (src/hciscan/)

    The table of devices, the scan loop with its listing every five seconds and the
    goroutine that looks at beacons.  BlueZ answers through the environment.  The loop
    reads a list of inputs, the ticks and discoveries that arrive before the process is
    interrupted.  The order in which Go ranges over a map is a parameter. *)
From stdpp Require Import base strings numbers list gmap sorting.
From S2P Require Import Prelude GoStrings Float64.
Local Open Scope Z_scope.
Set Default Proof Using "Type*".

(** ** Data *)
Record bluetoothDev := mkDev { addr : string; alias : string; rssi : Z }.
(** Entries of the table are made by [update] and are not nil. *)
Record hciScan := mkScan {
  adapterID : string; beacon : bool; uniqDevices : gmap string bluetoothDev;
}.
Definition New (adapterID : string) (beacon : bool) : hciScan := mkScan adapterID beacon ∅.

Inductive discoveryType := DeviceAdded | DeviceRemoved.
Record DeviceDiscovered := mkDiscovered { Path : string; Type_ : discoveryType }.
(** The properties of a BlueZ device. *)
Record Device1 := mkDevice1 { Address : string; Alias : string; Name : string; RSSI : Z }.

Inductive frame := UID | TLM | URL | OtherFrame.
Record BeaconEddystone := mkEddystone {
  Frame : frame; edUID : string; InstanceUID : string; edURL : string;
  CalibratedTxPower : Z; TLMTemperature : f64; TLMBatteryVoltage : Z;
  TLMLastRebootedTime : Z; TLMAdvertisingPDU : Z;
}.
Record BeaconIBeacon := mkIBeacon {
  ProximityUUID : string; MeasuredPower : Z; Major : Z; Minor : Z;
}.
(** A beacon as it stands after its device has changed. *)
Record Beacon := mkBeacon {
  Device : Device1; BType : string;
  Eddystone : option BeaconEddystone; IBeacon : option BeaconIBeacon;
}.

Inductive message :=
  | DevRemoved (path : string)
  | FlushCachedDevices
  | StartDiscovery
  | NotABeacon
  | FoundBeacon (type name : string)
  | EddystoneUID (uid instance : string) (power : Z)
  | EddystoneTLM (temp : f64) (batt reboot pdu power : Z)
  | EddystoneURL (url : string) (power : Z)
  | IBeaconFound (uuid : string) (power major minor : Z).
Inductive event :=
  | GetAdapter (id : string)
  | FlushDevices
  | Discover
  | CancelDiscovery
  | ApiExit
  | NewDevice1 (path : string)
  | GoHandleBeacon (dev : Device1)
  | NewBeacon (dev : Device1)
  | WatchDeviceChanges
  | BeaconUpdated
  | BeaconState
  | Info (s : string)
  | InfoDevice (addr alias : string) (rssi : Z) (distance : f64)
  | Debug (m : message)
  | LogError (e : error).
Definition answer (e : event) : Type :=
  match e with
  | GetAdapter _ | FlushDevices | Discover | ApiExit | NewBeacon _ | WatchDeviceChanges => option error
  | NewDevice1 _ => result (option Device1)
  | BeaconUpdated => bool
  | BeaconState => Beacon
  | _ => unit
  end.

(** What the loop receives: a tick, or a discovery, nil once the channel is closed. *)
Inductive input := Tick | Discovery (ev : option DeviceDiscovered).

Section Hci.
Context (env : list event → ∀ e, answer e).
(** The order of [range] over a map, which may differ each time. *)
Context (range : list event → gmap string bluetoothDev → list (string * bluetoothDev)).
(** [math.Pow] *)
Context (Pow : f64 → f64 → f64).
Abbreviation hio := (io hciScan event).
Abbreviation do e := (call env e).

Definition update (addr alias : string) (rssi : Z) : hio unit :=
  modify (λ hci, mkScan (adapterID hci) (beacon hci)
                        (<[addr := mkDev addr alias rssi]> (uniqDevices hci))).

Definition store (ev : DeviceDiscovered) : hio (option error) :=
  (match Type_ ev with
   | DeviceRemoved => emit (Debug (DevRemoved (Path ev)))
   | DeviceAdded => mret tt
   end) ;;
  r ← do (NewDevice1 (Path ev));
  match r with
  | inr e => mret (Some e)
  | inl None => mret (Some ("[new dev] " +:+ Path ev +:+ ": not found"))
  | inl (Some dev) =>
      update (Address dev) (Alias dev) (RSSI dev) ;;
      emit (GoHandleBeacon dev) ;;
      mret None
  end.

(** The goroutine of a device. *)
Definition reportEddystone (ed : BeaconEddystone) : hio unit :=
  match Frame ed with
  | UID => emit (Debug (EddystoneUID (edUID ed) (InstanceUID ed) (CalibratedTxPower ed)))
  | TLM => emit (Debug (EddystoneTLM (TLMTemperature ed) (TLMBatteryVoltage ed)
                          (TLMLastRebootedTime ed) (TLMAdvertisingPDU ed) (CalibratedTxPower ed)))
  | URL => emit (Debug (EddystoneURL (edURL ed) (CalibratedTxPower ed)))
  | OtherFrame => mret tt
  end.
Definition handleBeacon (dev : Device1) : hio (option error) :=
  err ← do (NewBeacon dev);
  match err with
  | Some e => mret (Some e)
  | None =>
      err ← do WatchDeviceChanges;
      match err with
      | Some e => mret (Some e)
      | None =>
          isBeacon ← do BeaconUpdated;
          if negb isBeacon then emit (Debug NotABeacon) ;; mret None
          else
            b ← do BeaconState;
            let name := if decide (Alias (Device b) = "") then Name (Device b)
                        else Alias (Device b) in
            emit (Debug (FoundBeacon (BType b) name)) ;;
            match Eddystone b with Some ed => reportEddystone ed | None => mret tt end ;;
            match IBeacon b with
            | Some ib => emit (Debug (IBeaconFound (ProximityUUID ib) (MeasuredPower ib)
                                        (Major ib) (Minor ib)))
            | None => mret tt
            end ;;
            mret None
      end
  end.
Definition goHandleBeacon (dev : Device1) : hio unit :=
  err ← handleBeacon dev;
  match err with Some e => emit (LogError e) | None => mret tt end.

(** ** The scan *)
Definition sortHCIAddresses : hio (list string) := λ hci h,
  (Ret (merge_sort String.le ((λ kv, addr kv.2) <$> range h (uniqDevices hci))), hci, h).

(** The distance in metres, [10 ^ ((-69 - rssi) / 20)]. *)
Definition distanceMt (rssi : Z) : f64 :=
  Pow (of_int 10) (fdiv (fsub (of_int (-69)) (of_int rssi)) (fmul (of_int 10) (of_int 2))).
Fixpoint listDevices (ks : list string) : hio unit :=
  match ks with
  | [] => mret tt
  | k :: ks' =>
      hci ← get;
      match uniqDevices hci !! k with
      | Some dev =>
          emit (InfoDevice (addr dev) (alias dev) (rssi dev) (distanceMt (rssi dev)))
      | None => mret tt
      end ;;
      listDevices ks'
  end.
Definition onTick : hio unit :=
  emit (Info "Bluetooth Devices") ;;
  ks ← sortHCIAddresses;
  listDevices ks ;;
  emit (Info "").

Fixpoint loop (inputs : list input) : hio (option error) :=
  match inputs with
  | [] => fatal "signal: interrupt"
  | Tick :: inputs' => onTick ;; loop inputs'
  | Discovery None :: _ => mret None
  | Discovery (Some ev) :: inputs' =>
      (* the error is put into a log event that is never sent *)
      store ev ;; loop inputs'
  end.

Definition Scan (inputs : list input) : hio (option error) :=
  deferring (do ApiExit ;; mret tt) (
    hci ← get;
    err ← do (GetAdapter (adapterID hci));
    match err with
    | Some e => mret (Some e)
    | None =>
        emit (Debug FlushCachedDevices) ;;
        err ← do FlushDevices;
        match err with
        | Some e => mret (Some e)
        | None =>
            emit (Debug StartDiscovery) ;;
            err ← do Discover;
            match err with
            | Some e => mret (Some e)
            | None => deferring (emit CancelDiscovery) (loop inputs)
            end
        end
    end).

Definition main (adapterID : string) (inputs : list input) : hio unit :=
  modify (λ _, New adapterID false) ;;
  err ← Scan inputs;
  match err with Some e => emit (LogError e) | None => mret tt end.

(** ** What BlueZ has reported

    The abstract state of the scanner: every device that a call of [NewDevice1] has
    returned so far, in order. *)
Definition report (h : list event) (e : event) : list Device1 :=
  match e return answer e → list Device1 with
  | NewDevice1 _ => λ r, match r with inl (Some dev) => [dev] | _ => [] end
  | _ => λ _, []
  end (env h e).
Fixpoint reportedFrom (pre h : list event) : list Device1 :=
  match h with
  | [] => []
  | e :: h' => report pre e ++ reportedFrom (pre ++ [e]) h'
  end.
Definition reported (h : list event) : list Device1 := reportedFrom [] h.
(** The last report of an address. *)
Definition latest (a : string) (devs : list Device1) : option Device1 :=
  last (filter (λ d, Address d = a) devs).

Lemma reported_snoc h e : reported (h ++ [e]) = reported h ++ report h e.
Proof.
  unfold reported. assert (∀ pre, reportedFrom pre (h ++ [e])
                                  = reportedFrom pre h ++ report (pre ++ h) e) as Haux; [|apply Haux].
  induction h as [|x h IH]; intros pre; cbn [reportedFrom app].
  - by rewrite !app_nil_r.
  - by rewrite IH, <- !app_assoc.
Qed.
Lemma latest_snoc a devs d :
  latest a (devs ++ [d]) = if decide (Address d = a) then Some d else latest a devs.
Proof.
  unfold latest. rewrite filter_app, filter_cons, filter_nil. case_decide; [by rewrite last_snoc|].
  by rewrite app_nil_r.
Qed.
Lemma latest_reported a devs : is_Some (latest a devs) ↔ a ∈ Address <$> devs.
Proof.
  unfold latest. rewrite last_is_Some, list_elem_of_fmap. split.
  - intros Hne. destruct (filter _ devs) as [|d l] eqn:Hf; [done|].
    assert (d ∈ filter (λ d, Address d = a) devs) as Hd by (rewrite Hf; left).
    apply list_elem_of_filter in Hd as [<- Hd]. eauto.
  - intros (d&->&Hd) Hf. assert (d ∈ filter (λ d', Address d' = Address d) devs) as Hin
      by by apply list_elem_of_filter. rewrite Hf in Hin. by apply elem_of_nil in Hin.
Qed.

(** The table holds the last report of every address, under that address. *)
Definition entryOf (d : Device1) : bluetoothDev := mkDev (Address d) (Alias d) (RSSI d).
Definition tableOf (devs : list Device1) (m : gmap string bluetoothDev) : Prop :=
  ∀ a, m !! a = entryOf <$> latest a devs.
Definition inSync (hci : hciScan) (h : list event) : Prop :=
  tableOf (reported h) (uniqDevices hci).

Lemma tableOf_insert devs m d :
  tableOf devs m →
  tableOf (devs ++ [d]) (<[Address d := mkDev (Address d) (Alias d) (RSSI d)]> m).
Proof.
  intros Hm a. rewrite latest_snoc, lookup_insert. case_decide; [done|]. apply Hm.
Qed.
Lemma inSync_quiet hci h e :
  report h e = [] → inSync hci h → inSync hci (h ++ [e]).
Proof. intros He. unfold inSync. by rewrite reported_snoc, He, app_nil_r. Qed.
#[local] Hint Resolve inSync_quiet : go.
Lemma tableOf_addr devs m k d : tableOf devs m → m !! k = Some d → addr d = k.
Proof.
  intros Hm. rewrite Hm. intros (d1&Hl&->)%fmap_Some. unfold latest in Hl.
  apply last_Some_elem_of, list_elem_of_filter in Hl as [<- _]. done.
Qed.

(** ** The listing, from the reports alone *)
Definition addressesOf (devs : list Device1) : list string :=
  merge_sort String.le (remove_dups (Address <$> devs)).
Definition listing (devs : list Device1) : list event :=
  omap (λ a, (λ d, InfoDevice (Address d) (Alias d) (RSSI d) (distanceMt (RSSI d)))
             <$> latest a devs) (addressesOf devs).

Hypothesis range_all : ∀ h m, range h m ≡ₚ map_to_list m.

Lemma range_addresses devs m h :
  tableOf devs m → (λ kv, addr kv.2) <$> range h m ≡ₚ remove_dups (Address <$> devs).
Proof.
  intros Hm. rewrite range_all.
  assert ((λ kv, addr kv.2) <$> map_to_list m = (map_to_list m).*1) as ->.
  { apply list_fmap_ext. intros i [k d] Hin. apply list_elem_of_lookup_2, elem_of_map_to_list in Hin.
    by apply (tableOf_addr devs m). }
  apply NoDup_Permutation; [apply NoDup_fst_map_to_list|apply NoDup_remove_dups|].
  intros a. rewrite elem_of_remove_dups, <- latest_reported, list_elem_of_fmap. split.
  - intros ([k d]&->&Hin%elem_of_map_to_list). rewrite Hm in Hin. simpl.
    by apply fmap_Some in Hin as (d1&->&_).
  - intros [d1 Hd]. exists (a, entryOf d1). split; [done|].
    apply elem_of_map_to_list. by rewrite Hm, Hd.
Qed.
(** The sorted addresses do not depend on the order of the map. *)
Lemma wp_sortHCIAddresses hci h Q :
  inSync hci h → Q (Ret (addressesOf (reported h))) hci h → wp sortHCIAddresses Q hci h.
Proof.
  intros Hs HQ. unfold wp, sortHCIAddresses.
  assert (merge_sort String.le ((λ kv, addr kv.2) <$> range h (uniqDevices hci))
          = addressesOf (reported h)) as ->; [|done].
  apply (Sorted_unique String.le); [apply (Sorted_merge_sort String.le)..|].
  unfold addressesOf. rewrite !merge_sort_Permutation. by apply range_addresses.
Qed.
Lemma wp_listDevices devs ks hci h :
  tableOf devs (uniqDevices hci) →
  wp (listDevices ks) (λ o hci' h', o = Ret tt ∧ hci' = hci ∧
    h' = h ++ omap (λ a, (λ d, InfoDevice (Address d) (Alias d) (RSSI d) (distanceMt (RSSI d)))
                         <$> latest a devs) ks) hci h.
Proof.
  intros Hm. revert h. induction ks as [|k ks IH]; intros h; cbn [listDevices].
  - wp_steps. by rewrite app_nil_r.
  - wp_steps. rewrite Hm. destruct (latest k devs) as [d|] eqn:Hl; cbn [fmap option_fmap option_map];
      wp_steps; (eapply wp_mono; [|apply IH]); intros o hci' h' (->&->&->); split_and!; [done..| |done|done|];
      cbn [omap list_omap]; rewrite Hl; [by rewrite <- app_assoc|done].
Qed.
Definition block (devs : list Device1) : list event :=
  [Info "Bluetooth Devices"] ++ listing devs ++ [Info ""].
Lemma wp_onTick hci h :
  inSync hci h →
  wp onTick (λ o hci' h', o = Ret tt ∧ hci' = hci ∧ h' = h ++ block (reported h)) hci h.
Proof.
  intros Hs. unfold onTick. wp_steps. apply wp_sortHCIAddresses; [by apply inSync_quiet|]. wp_steps.
  eapply wp_mono; [|apply wp_listDevices; exact Hs]. intros o hci' h' (->&->&->). wp_steps.
  split_and!; [done..|]. unfold block, listing.
  by rewrite reported_snoc, app_nil_r, <- !app_assoc.
Qed.

(** Events that are no calls of [NewDevice1]. *)
Lemma reported_quiet h k :
  Forall (λ e, ∀ h, report h e = []) k → reported (h ++ k) = reported h.
Proof.
  revert h. induction k as [|e k IH]; intros h Hk; [by rewrite app_nil_r|].
  apply Forall_cons in Hk as [He Hk].
  by rewrite cons_middle, app_assoc, IH, reported_snoc, He, app_nil_r.
Qed.
Lemma inSync_block hci h : inSync hci h → inSync hci (h ++ block (reported h)).
Proof.
  unfold inSync. rewrite reported_quiet; [done|]. unfold block, listing.
  rewrite !Forall_app, !Forall_singleton. split_and!; [done| |done].
  apply Forall_forall. intros e (a&_&(d&_&->)%fmap_Some)%list_elem_of_omap. done.
Qed.
Lemma wp_store ev hci h :
  inSync hci h → wp (store ev) (λ o hci' h', (∃ r, o = Ret r) ∧ inSync hci' h') hci h.
Proof.
  intros Hs. unfold store. wp_steps.
  match goal with |- wp _ ?Q _ _ => set (post := Q) end.
  assert (∀ h, inSync hci h → post (Ret tt) hci h) as Hrest.
  { clear h Hs. intros h Hs. unfold post. wp_steps. unfold update.
    destruct (env h (NewDevice1 (Path ev))) as [[dev|]|e] eqn:Hd; wp_steps; (split; [by eexists|]).
    2-3: apply inSync_quiet; [unfold report; by rewrite Hd|done].
    apply inSync_quiet; [done|]. unfold inSync. rewrite reported_snoc. cbn [report uniqDevices].
    rewrite Hd. by apply tableOf_insert. }
  destruct (Type_ ev); wp_steps; apply Hrest; auto with go.
Qed.

Lemma wp_scanLoop inputs hci h :
  inSync hci h →
  wp (loop (inputs ++ [Tick]))
     (λ o hci' h', match o with
                   | Exit _ => Discovery None ∉ inputs ∧ ∃ h1, h' = h1 ++ block (reported h1)
                   | Ret None => Discovery None ∈ inputs
                   | _ => False
                   end) hci h.
Proof.
  revert hci h. induction inputs as [|[|[ev|]] inputs IH]; intros hci h Hs; cbn [app loop]; wp_steps.
  - eapply wp_mono; [|by apply wp_onTick]. intros o hci' h' (->&->&->). wp_steps.
    split; [by intros ?%elem_of_nil|eauto].
  - eapply wp_mono; [|by apply wp_onTick]. intros o hci' h' (->&->&->).
    eapply wp_mono; [|by apply IH, inSync_block].
    intros [[]|?|?] ? ?; rewrite ?elem_of_cons; naive_solver.
  - eapply wp_mono; [|by apply wp_store]. intros o hci' h' ([r ->]&Hs').
    eapply wp_mono; [|by apply IH].
    intros [[]|?|?] ? ?; rewrite ?elem_of_cons; naive_solver.
  - by left.
Qed.

(** C22: Whatever BlueZ answers, a scan that is interrupted after a tick has just listed
    the devices: one line for every address reported so far, in ascending order of the
    addresses, each with the alias and signal strength of the last report, whatever
    order Go gives to the map.  A scan that ends by itself has cancelled the discovery
    and left the API. *)
Theorem scan_lists_latest id b inputs :
  wp (Scan (inputs ++ [Tick]))
     (λ o hci h, match o with
                 | Exit _ => Discovery None ∉ inputs ∧ ∃ h1, h = h1 ++ block (reported h1)
                 | Ret None => Discovery None ∈ inputs ∧ ∃ h1, h = h1 ++ [CancelDiscovery; ApiExit]
                 | Ret (Some _) => last h = Some ApiExit ∧ Forall (λ e, ∀ h, report h e = []) h
                 | Panic _ => False
                 end) (New id b) [].
Proof.
  unfold Scan. wp_steps. wp_if; wp_steps; [by repeat constructor|].
  wp_if; wp_steps; [by repeat constructor|].
  wp_if; wp_steps; [by repeat constructor|].
  eapply wp_mono; [|apply wp_scanLoop].
  - intros [[e|]|?|?] hci' h'; [done| |done|done]. wp_steps. intros Hin. split; [done|].
    exists h'. by rewrite <- app_assoc.
  - repeat (apply inSync_quiet; [done|]). intros a. exact (lookup_empty a).
Qed.
End Hci.

Module HciExamples.
(** Two devices; the first one is reported again, as removed, and stays in the list. *)
Definition env (h : list event) (e : event) : answer e :=
  match e with
  | NewDevice1 p =>
      if decide (p = "/a") then inl (Some (mkDevice1 "AA:01" "phone" "p" (-69 - Z.of_nat (length h))))
      else if decide (p = "/b") then inl (Some (mkDevice1 "AA:00" "watch" "w" (-80)))
      else inr "no such device"
  | GetAdapter _ | FlushDevices | Discover | ApiExit | NewBeacon _ | WatchDeviceChanges => None
  | BeaconUpdated => true
  | BeaconState =>
      mkBeacon (mkDevice1 "AA:00" "" "w" (-80)) "ibeacon" None (Some (mkIBeacon "u" (-59) 1 2))
  | _ => tt
  end.
Definition range (_ : list event) (m : gmap string bluetoothDev) := map_to_list m.
Definition pow (_ y : f64) : f64 := y.
Definition inputs : list input :=
  [Discovery (Some (mkDiscovered "/a" DeviceAdded)); Discovery (Some (mkDiscovered "/b" DeviceAdded));
   Discovery (Some (mkDiscovered "/c" DeviceAdded)); Discovery (Some (mkDiscovered "/a" DeviceRemoved))].
Example listed :
  drop 13 (Scan env range pow (inputs ++ [Tick]) (New "hci0" false) []).2
  = [Info "Bluetooth Devices"; InfoDevice "AA:00" "watch" (-80) (distanceMt pow (-80));
     InfoDevice "AA:01" "phone" (-80) (distanceMt pow (-80)); Info ""].
Proof. vm_compute. reflexivity. Qed.
Lemma scan_lists_latest_witness :
  Discovery None ∉ inputs ∧
  ∃ h1, snd (Scan env range pow (inputs ++ [Tick]) (New "hci0" false) [])
        = h1 ++ block pow (reported env h1).
Proof.
  exact (wp_run _ _ _ _ (Exit "signal: interrupt") _ _
           (scan_lists_latest env range pow (λ h m, reflexivity _) "hci0" false inputs)
           ltac:(vm_compute; reflexivity)).
Defined.
Example beacon_named :
  (handleBeacon env (mkDevice1 "AA:00" "" "w" (-80)) (New "hci0" false) []).2
  = [NewBeacon (mkDevice1 "AA:00" "" "w" (-80)); WatchDeviceChanges; BeaconUpdated; BeaconState;
     Debug (FoundBeacon "ibeacon" "w"); Debug (IBeaconFound "u" (-59) 1 2)].
Proof. vm_compute. reflexivity. Qed.
End HciExamples.
