(* ===== verification/Gobpf.v ===== *)
(** * The chown tracer (src/gobpf-explore/main.go)

    The two kernel probes of the embedded BPF program over their hash table, the event
    as it lies in memory and on the perf buffer, and the Go side that decodes and prints
    it.  The kernel delivers calls and returns of [fchownat] of many threads in any
    order; BPF loading answers through the environment. *)
From stdpp Require Import base strings numbers list gmap.
From S2P Require Import Prelude GoStrings.
Local Open Scope Z_scope.
Set Default Proof Using "Type*".

(** ** The event: [chown_event_t] in the kernel, [chownEvent] in Go *)
Record chownEvent := mkEvent {
  Pid : Z; Uid : Z; Gid : Z; ReturnValue : Z; Filename : list Z;
}.
Definition zeroEvent : chownEvent := mkEvent 0 0 0 0 (replicate 20 0).
(** The type: three [uint32], an [int32] and twenty bytes. *)
Definition wellTyped (e : chownEvent) : Prop :=
  inU 32 (Pid e) ∧ inU 32 (Uid e) ∧ inU 32 (Gid e) ∧ inS 32 (ReturnValue e) ∧
  length (Filename e) = 20%nat ∧ Forall isByte (Filename e).

(** The memory of the event: 36 bytes without padding. *)
Definition memory (e : chownEvent) : list Z :=
  le_bytes 4 (Pid e) ++ le_bytes 4 (Uid e) ++ le_bytes 4 (Gid e) ++
  le_bytes 4 (ReturnValue e `mod` 2 ^ 32) ++ Filename e.

(** ** The kernel side

    A probe sees the thread ([bpf_get_current_pid_tgid]), the arguments, and what it
    could read of the name: twenty bytes, or nothing when the address faults. *)
Inductive probe :=
  | Call (pid_tgid : Z) (uid gid : Z) (filename : option (list Z))
  | Return (pid_tgid : Z) (rc : Z).
Definition hashSize : Z := 10240.
Abbreviation bpfState := (gmap Z chownEvent).

(** [chowncall.update]: a new key is refused when the table is full. *)
Definition hash_update (k : Z) (v : chownEvent) (m : bpfState) : bpfState :=
  match m !! k with
  | Some _ => <[k := v]> m
  | None => if decide (Z.of_nat (size m) < hashSize) then <[k := v]> m else m
  end.
Definition kprobe__sys_fchownat (pid uid gid : Z) (filename : option (list Z)) (m : bpfState) :
    bpfState :=
  let event := mkEvent (u32 (Z.shiftr pid 32)) (u32 uid) (u32 gid) 0
                       (default (replicate 20 0) filename) in
  hash_update pid event m.
Definition kretprobe__sys_fchownat (pid rc : Z) (m : bpfState) : bpfState * list (list Z) :=
  let ret := wrapS 32 rc in
  match m !! pid with
  | None => (m, [])
  | Some e =>
      let event := mkEvent (Pid e) (Uid e) (Gid e) ret (Filename e) in
      (delete pid m, [memory event])
  end.
(** One probe: the new table and what was submitted to the perf buffer. *)
Definition fire (p : probe) (m : bpfState) : bpfState * list (list Z) :=
  match p with
  | Call pid uid gid filename => (kprobe__sys_fchownat pid uid gid filename m, [])
  | Return pid rc => kretprobe__sys_fchownat pid rc m
  end.
Fixpoint kernel (ps : list probe) (m : bpfState) : list (list Z) :=
  match ps with
  | [] => []
  | p :: ps' => (fire p m).2 ++ kernel ps' (fire p m).1
  end.

(** ** The Go side *)
(** [binary.Read] into the event: short data is an error and leaves it unchanged. *)
Definition decode (data : list Z) : result chownEvent :=
  if decide (length data < 36)%nat then
    inr (if decide (data = []) then "EOF" else "unexpected EOF")
  else
    let word i := le_value (take 4 (drop i data)) in
    inl (mkEvent (word 0%nat) (word 4%nat) (word 8%nat) (wrapS 32 (word 12%nat))
                 (take 20 (drop 16 data))).
(** [C.GoString]: the bytes up to the first zero, which is looked for past the end of
    the array, in the memory behind it. *)
Fixpoint untilZero (bs : list Z) : list Z :=
  match bs with
  | [] => []
  | b :: bs' => if decide (b = 0) then [] else b :: untilZero bs'
  end.
Definition GoString (bs : list Z) : string := of_bytes (untilZero bs).

Inductive line :=
  | Called (uid gid pid : Z) (filename : string) (ret : Z)
  | DecodeFailed (err : error).
(** One round of the goroutine; [behind] is the memory behind the event. *)
Definition receive (behind data : list Z) (event : chownEvent) : chownEvent * line :=
  match decode data with
  | inr err => (event, DecodeFailed err)
  | inl event =>
      (event, Called (Uid event) (Gid event) (Pid event) (GoString (Filename event ++ behind))
                     (ReturnValue event))
  end.
Fixpoint goroutine (behind : list Z) (input : list (list Z)) (event : chownEvent) : list line :=
  match input with
  | [] => []
  | data :: input' =>
      let '(event, l) := receive behind data event in
      l :: goroutine behind input' event
  end.

(** ** Bytes and words *)
Lemma word_at (pre : list Z) z rest i :
  inU 32 z → length pre = i → le_value (take 4 (drop i (pre ++ le_bytes 4 z ++ rest))) = z.
Proof.
  intros Hz Hi. rewrite drop_app_length' by done.
  rewrite take_app_length' by done. by apply le_bytes_value.
Qed.
(** The memory of an event, with anything behind it, decodes to the event. *)
Lemma decode_memory e pad : wellTyped e → decode (memory e ++ pad) = inl e.
Proof.
  intros (Hp&Hu&Hg&Hr&Hl&Hb). destruct e as [p u g r f]; cbn [Pid Uid Gid ReturnValue Filename] in *.
  unfold decode, memory; cbn [Pid Uid Gid ReturnValue Filename]. rewrite decide_False.
  2: { rewrite !length_app, !le_bytes_length. lia. }
  assert (inU 32 (r `mod` 2 ^ 32)) as Hr' by (apply Z.mod_pos_bound; lia).
  set (bp := le_bytes 4 p). set (bu := le_bytes 4 u). set (bg := le_bytes 4 g).
  assert (length (bp ++ bu ++ bg) = 12%nat) as H12 by reflexivity.
  f_equal. rewrite <- !app_assoc. f_equal.
  - apply (word_at [] p); done.
  - apply (word_at bp u); [done|apply le_bytes_length].
  - rewrite (app_assoc bp). apply (word_at (bp ++ bu) g); [done|reflexivity].
  - rewrite (app_assoc bp), (app_assoc (bp ++ bu)). rewrite (word_at _ (r `mod` 2 ^ 32)) by done.
    unfold wrapS, inS in *. rewrite Zplus_mod_idemp_l, Z.mod_small; lia.
  - rewrite (app_assoc bp), (app_assoc (bp ++ bu)), (app_assoc ((bp ++ bu) ++ bg)).
    rewrite drop_app_length' by reflexivity. by rewrite take_app_length'.
Qed.

(** ** The pipeline

    A trace of probes, whose arguments have the types of the kernel. *)
Definition probeOk (p : probe) : Prop :=
  match p with
  | Call _ _ _ (Some name) => length name = 20%nat ∧ Forall isByte name ∧ 0 ∈ name
  | _ => True
  end.
Definition thread (p : probe) : Z := match p with Call t _ _ _ | Return t _ => t end.
(** The call a thread is in after a trace. *)
Definition inCall (t : Z) (ps : list probe) : option probe :=
  match last (filter (λ p, thread p = t) ps) with
  | Some (Call t u g f) => Some (Call t u g f)
  | _ => None
  end.
(** The threads that are in a call. *)
Definition busy (ps : list probe) : list Z :=
  filter (λ t, is_Some (inCall t ps)) (remove_dups (thread <$> ps)).

(** What should be printed: a line for every return of a thread that is in a call. *)
Definition lineOf (c : option probe) (rc : Z) : list line :=
  match c with
  | Some (Call t u g f) =>
      [Called (u32 u) (u32 g) (u32 (Z.shiftr t 32)) (GoString (default [0] f)) (wrapS 32 rc)]
  | _ => []
  end.
Fixpoint expectedFrom (pre ps : list probe) : list line :=
  match ps with
  | [] => []
  | p :: ps' =>
      match p with Return t rc => lineOf (inCall t pre) rc | Call _ _ _ _ => [] end
      ++ expectedFrom (pre ++ [p]) ps'
  end.
Definition expected (ps : list probe) : list line := expectedFrom [] ps.

Lemma inCall_snoc t ps p :
  inCall t (ps ++ [p]) =
  if decide (thread p = t) then match p with Call _ _ _ _ => Some p | Return _ _ => None end
  else inCall t ps.
Proof.
  unfold inCall. rewrite filter_app, filter_cons, filter_nil. case_decide.
  - rewrite last_snoc. by destruct p.
  - by rewrite app_nil_r.
Qed.

(** The entry a call leaves in the table. *)
Definition entryOf (p : probe) : chownEvent :=
  match p with
  | Call t u g f =>
      mkEvent (u32 (Z.shiftr t 32)) (u32 u) (u32 g) 0 (default (replicate 20 0) f)
  | Return _ _ => zeroEvent
  end.
Definition tracks (ps : list probe) (m : bpfState) : Prop := ∀ t, m !! t = entryOf <$> inCall t ps.

Lemma tracks_size ps m : tracks ps m → size m = length (busy ps).
Proof.
  intros Hm. rewrite <- (size_dom (D:=gset Z) m).
  assert (dom m =@{gset Z} list_to_set (busy ps)) as ->.
  { apply set_eq. intros t. rewrite elem_of_dom, elem_of_list_to_set, Hm, fmap_is_Some.
    unfold busy. rewrite list_elem_of_filter, elem_of_remove_dups.
    split; [|by intros []]. intros Ht. split; [done|]. unfold inCall in Ht.
    destruct (last _) as [p|] eqn:Hl; [|by destruct Ht].
    apply last_Some_elem_of, list_elem_of_filter in Hl as [<- Hin].
    by apply list_elem_of_fmap_2. }
  apply size_list_to_set. unfold busy. apply NoDup_filter, NoDup_remove_dups.
Qed.
Lemma tracks_fire ps p m :
  tracks ps m → Z.of_nat (length (busy ps)) < hashSize → tracks (ps ++ [p]) (fire p m).1.
Proof.
  intros Hm Hroom t. rewrite inCall_snoc. rewrite <- (tracks_size _ m) in Hroom by done.
  destruct p as [t' u g f|t' rc]; cbn [fire fst thread].
  - unfold kprobe__sys_fchownat, hash_update. rewrite decide_True by done.
    destruct (m !! t'); rewrite lookup_insert; case_decide; auto.
  - unfold kretprobe__sys_fchownat. destruct (m !! t') eqn:Ht; cbn [fst].
    + rewrite lookup_delete. case_decide; auto.
    + case_decide; subst; auto.
Qed.

(** A terminated name is printed as it is, whatever lies behind the array. *)
Lemma untilZero_app name behind : 0 ∈ name → untilZero (name ++ behind) = untilZero name.
Proof.
  induction name as [|b name IH]; [by intros ?%elem_of_nil|]. simpl. case_decide; [done|].
  rewrite elem_of_cons. intros [|]; [congruence|]. f_equal. by apply IH.
Qed.
Lemma GoString_call f behind :
  probeOk (Call 0 0 0 f) → GoString (default (replicate 20 0) f ++ behind) = GoString (default [0] f).
Proof.
  unfold GoString. destruct f as [name|]; cbn [default from_option id].
  - intros (_&_&Hz). by rewrite untilZero_app.
  - intros _. done.
Qed.
Lemma entry_wellTyped t u g f rc :
  probeOk (Call t u g f) →
  wellTyped (mkEvent (u32 (Z.shiftr t 32)) (u32 u) (u32 g) (wrapS 32 rc)
                     (default (replicate 20 0) f)).
Proof.
  intros Hf. unfold wellTyped; cbn [Pid Uid Gid ReturnValue Filename].
  split_and!; [by apply wrapU_in..|by apply wrapS_in| |]; destruct f as [name|]; simpl.
  - apply Hf.
  - done.
  - apply Hf.
  - by repeat constructor.
Qed.


(** The table has room at every moment of a trace. *)
Definition roomy (ps : list probe) : Prop :=
  ∀ pre, pre `prefix_of` ps → Z.of_nat (length (busy pre)) < hashSize.
(** What arrives on the channel: the submitted bytes, which perf may pad. *)
Definition padded : list (list Z) → list (list Z) → Prop := Forall2 (λ d d', ∃ pad, d' = d ++ pad).

Lemma inCall_Some t ps c :
  inCall t ps = Some c → c ∈ ps ∧ ∃ u g f, c = Call t u g f.
Proof.
  unfold inCall. destruct (last _) as [p|] eqn:Hl; [|done].
  apply last_Some_elem_of, list_elem_of_filter in Hl as [Ht Hin].
  destruct p as [t' u g f|]; [|done]. intros [= <-]. simpl in Ht. subst. eauto 10.
Qed.
Lemma receive_return pre t rc m behind data pad ev :
  tracks pre m → Forall probeOk pre → (fire (Return t rc) m).2 = [data] →
  ∃ ev', receive behind (data ++ pad) ev = (ev', hd (DecodeFailed "") (lineOf (inCall t pre) rc)) ∧
         length (lineOf (inCall t pre) rc) = 1%nat.
Proof.
  intros Hm Hok. cbn [fire]. unfold kretprobe__sys_fchownat. rewrite Hm.
  destruct (inCall t pre) as [c|] eqn:Hc; [|done].
  apply inCall_Some in Hc as (Hin&u&g&f&->).
  pose proof (proj1 (Forall_forall _ _) Hok _ Hin) as Hp.
  cbn [fmap option_fmap option_map snd entryOf Pid Uid Gid Filename]. intros [= <-].
  eexists. unfold receive. rewrite decode_memory by by apply entry_wellTyped.
  cbn [Pid Uid Gid ReturnValue Filename lineOf hd].
  rewrite GoString_call by exact Hp. done.
Qed.
Lemma goroutine_kernel behind ps pre m input ev :
  tracks pre m → Forall probeOk (pre ++ ps) → roomy (pre ++ ps) →
  padded (kernel ps m) input → goroutine behind input ev = expectedFrom pre ps.
Proof.
  revert pre m input ev. induction ps as [|p ps IH]; intros pre m input ev Hm Hok Hroom Hin.
  { by inversion Hin. }
  cbn [kernel expectedFrom] in *.
  assert (tracks (pre ++ [p]) (fire p m).1) as Hm'.
  { apply tracks_fire; [done|]. apply Hroom. by apply prefix_app_r. }
  rewrite cons_middle, app_assoc in Hok, Hroom.
  apply Forall2_app_inv_l in Hin as (i1&i2&H1&H2&->).
  pose proof (λ ev, IH (pre ++ [p]) (fire p m).1 i2 ev Hm' Hok Hroom H2) as IH'.
  destruct p as [t u g f|t rc].
  - apply Forall2_nil_inv_l in H1 as ->. apply IH'.
  - destruct (fire (Return t rc) m).2 as [|data [|]] eqn:Hf.
    + apply Forall2_nil_inv_l in H1 as ->.
      assert (inCall t pre = None) as ->; [|apply IH'].
      cbn [fire] in Hf. unfold kretprobe__sys_fchownat in Hf. rewrite Hm in Hf.
      by destruct (inCall t pre).
    + apply Forall2_cons_inv_l in H1 as (d'&i'&[pad ->]&Hn&->).
      apply Forall2_nil_inv_l in Hn as ->.
      destruct (receive_return pre t rc m behind data pad ev) as (ev'&Hr&Hl);
        [done|by apply Forall_app in Hok as [[? _]%Forall_app _]|done|].
      cbn [app goroutine]. rewrite Hr.
      destruct (lineOf (inCall t pre) rc) as [|l [|]]; [done| |done]. simpl. f_equal. apply IH'.
    + exfalso. cbn [fire] in Hf. unfold kretprobe__sys_fchownat in Hf. by destruct (m !! t).
Qed.


(** ** The command *)
Inductive event :=
  | NewModule
  | LoadKprobe (name : string)
  | AttachKprobe (sys : string) (fd : Z)
  | AttachKretprobe (sys : string) (fd : Z)
  | NewTable (name : string)
  | InitPerfMap
  | Notify
  | GoReceive
  | PerfStart
  | WaitSignal
  | PerfStop
  | ModuleClose
  | Stderr (s : string).
Definition answer (e : event) : Type :=
  match e with
  | LoadKprobe _ => result Z
  | AttachKprobe _ _ | AttachKretprobe _ _ | InitPerfMap => option error
  | _ => unit
  end.
Section Main.
Context (env : list event → ∀ e, answer e).
Abbreviation bio := (io unit event).
Abbreviation do e := (call env e).

Definition failed {A} (what : string) (e : error) : bio A :=
  emit (Stderr ("Failed to " +:+ what +:+ ": " +:+ e)) ;; fatal "exit status 1".
Definition load (name : string) : bio Z :=
  r ← do (LoadKprobe name);
  match r with inl fd => mret fd | inr e => failed ("load " +:+ name) e end.
Definition main : bio unit :=
  emit NewModule ;;
  deferring (emit ModuleClose) (
    chownKprobe ← load "kprobe__sys_fchownat";
    err ← do (AttachKprobe "sys_fchownat" chownKprobe);
    match err with
    | Some e => failed "attach kprobe__sys_fchownat" e
    | None =>
        chownKretprobe ← load "kretprobe__sys_fchownat";
        err ← do (AttachKretprobe "sys_fchownat" chownKretprobe);
        match err with
        | Some e => failed "attach kretprobe__sys_fchownat" e
        | None =>
            emit (NewTable "chown_events") ;;
            err ← do InitPerfMap;
            match err with
            | Some e => failed "init perf map" e
            | None =>
                emit Notify ;; emit GoReceive ;; emit PerfStart ;; emit WaitSignal ;; emit PerfStop
            end
        end
    end).
End Main.

Module GobpfExamples.
Definition name (s : string) : list Z := to_bytes s ++ replicate (20 - String.length s) 0.
(** Two threads of one process, the second one calling while the first is in its call. *)
Definition trace : list probe :=
  [Call (7 * 2 ^ 32 + 8) 1000 100 (Some (name "/tmp/a")); Call (7 * 2 ^ 32 + 9) 0 (-1) None;
   Return (7 * 2 ^ 32 + 8) (-13); Return (7 * 2 ^ 32 + 9) (-14); Return 5 0].
Lemma roomy_short ps : Z.of_nat (length ps) < hashSize → roomy ps.
Proof.
  intros Hlen pre Hpre. apply prefix_length in Hpre.
  assert (length (busy pre) ≤ length pre)%nat; [|lia]. unfold busy.
  etrans; [apply length_filter|]. rewrite <- (length_fmap thread pre).
  generalize (thread <$> pre). induction l as [|t l IH]; simpl; [done|]. case_decide; simpl; lia.
Qed.
(** A name of twenty bytes or more runs into the memory behind the event. *)
Example name_overread :
  goroutine (to_bytes "secret" ++ [0]) (kernel [Call 0 0 0 (Some (replicate 20 97)); Return 0 0] ∅) zeroEvent
  = [Called 0 0 0 "aaaaaaaaaaaaaaaaaaaasecret" 0].
Proof. vm_compute. reflexivity. Qed.
End GobpfExamples.
