(* ===== verification/Vault.v ===== *)
(** * The KeePass importer (src/vault-secrets/)

    The command that reads a KeePass export and writes a secret for each entry to Vault.
    All secrets are written from one map, which every round updates in place; it is the
    state of the program.  The environment, the file with its CSV reader and Vault answer
    through the environment of the model. *)
From stdpp Require Import base strings numbers list gmap.
From S2P Require Import Prelude GoStrings.
Set Default Proof Using "Type*".

(** ** Data *)
Record keepassEntry := mkEntry {
  group : string; title : string; username : string; password : string; url : string; notes : string;
}.
Abbreviation secretMap := (gmap string string).

Inductive event :=
  | Getenv (name : string)
  | NewVaultClient
  | SetToken (token : string)
  | Open (file : string)
  | ReadAll
  | Write (path : string) (data : secretMap).
Definition answer (e : event) : Type :=
  match e with
  | Getenv _ => string
  | NewVaultClient | Open _ | Write _ _ => option error
  | ReadAll => result (list (list string))
  | SetToken _ => unit
  end.

Section Vault.
Context (env : list event → ∀ e, answer e).
Abbreviation vio := (io secretMap event).
Abbreviation do e := (call env e).

(** vault_client/client.go *)
Definition NewClient (token : string) : vio (option error) :=
  err ← do NewVaultClient;
  match err with
  | Some e => mret (Some ("err: " +:+ e))
  | None => emit (SetToken token) ;; mret None
  end.

Definition getenvOrFatal (name : string) : vio string :=
  x ← do (Getenv name);
  if decide (x = "") then fatal (name +:+ " env variable is empty") else mret x.

(** The loop over the records; an index past the end of a record panics. *)
Fixpoint toEntries (records : list (list string)) : vio (list keepassEntry) :=
  match records with
  | [] => mret []
  | (g :: t :: u :: p :: l :: n :: _) :: records' =>
      entries ← toEntries records';
      mret (mkEntry g t u p l n :: entries)
  | _ :: _ => panic "index out of range"
  end.

Definition fill (e : keepassEntry) (secret : secretMap) : secretMap :=
  <["Notes" := notes e]> (<["URL" := url e]> (<["Password" := password e]>
    (<["Username" := username e]> (<["Title" := title e]> (<["Group" := group e]> secret))))).
Definition writeEntry (e : keepassEntry) : vio unit :=
  modify (fill e) ;;
  secret ← get;
  err ← do (Write ("cubbyhole/" +:+ title e) secret);
  match err with
  | Some _ => fatal "exit status 1"
  | None => modify (delete "Password")
  end.
Fixpoint writeEntries (i : nat) (entries : list keepassEntry) : vio unit :=
  match entries with
  | [] => mret tt
  | e :: entries' =>
      (if decide (i = 0) then mret tt else writeEntry e) ;;
      writeEntries (S i) entries'
  end.

Definition main : vio unit :=
  vaultToken ← getenvOrFatal "VAULT_TOKEN";
  getenvOrFatal "VAULT_ADDR" ;;
  err ← NewClient vaultToken;
  match err with
  | Some _ => fatal "exit status 1"
  | None =>
      err ← do (Open "test-keepassdb.csv");
      match err with
      | Some _ => fatal "exit status 1"
      | None =>
          r ← do ReadAll;
          match r with
          | inr _ => fatal "exit status 1"
          | inl records =>
              entries ← toEntries records;
              modify (λ _, ∅) ;;
              writeEntries 0 entries
          end
      end
  end.

(** ** What is written *)
(** The secret of an entry, with no field of another one. *)
Definition secretOf (e : keepassEntry) : secretMap :=
  {[ "Group" := group e; "Title" := title e; "Username" := username e;
     "Password" := password e; "URL" := url e; "Notes" := notes e ]}.
Definition writeOf (e : keepassEntry) : event := Write ("cubbyhole/" +:+ title e) (secretOf e).
Definition isWrite (e : event) : bool := match e with Write _ _ => true | _ => false end.
Definition writes (h : list event) : list event := filter isWrite h.
(** The entries of the export: the records after the header. *)
Definition entryOf (r : list string) : option keepassEntry :=
  match r with
  | g :: t :: u :: p :: l :: n :: _ => Some (mkEntry g t u p l n)
  | _ => None
  end.
Definition imported (records : list (list string)) : list keepassEntry := tail (omap entryOf records).

(** The keys that an earlier round leaves behind are all overwritten. *)
Definition leftovers (m : secretMap) : Prop :=
  dom m ⊆ ({["Group"; "Title"; "Username"; "URL"; "Notes"]} : gset string).
Lemma fill_leftovers e m : leftovers m → fill e m = secretOf e.
Proof.
  intros Hm. apply map_eq. intros k. unfold fill, secretOf.
  rewrite !lookup_insert, lookup_singleton.
  do 6 (case_decide; [subst; reflexivity|]).
  apply not_elem_of_dom. intros Hk%Hm. set_solver.
Qed.
Lemma leftovers_after e m : leftovers m → leftovers (delete "Password" (fill e m)).
Proof.
  unfold leftovers, fill. intros Hm. rewrite dom_delete_L, !dom_insert_L. set_solver.
Qed.

Lemma wp_toEntries records m h :
  wp (toEntries records) (λ o m' h', m' = m ∧ h' = h ∧
    match o with
    | Ret entries => entries = omap entryOf records ∧ Forall (λ r, 6 ≤ length r) records
    | Panic _ => Exists (λ r, length r < 6) records
    | Exit _ => False
    end) m h.
Proof.
  induction records as [|r records IH]; cbn [toEntries]; [by wp_steps|].
  destruct (decide (length r < 6)) as [Hr|Hr].
  { repeat (destruct r as [|? r]; [wp_steps; split_and!; [done|done|by left]|]). simpl in Hr. lia. }
  destruct r as [|g [|t [|u [|p [|l [|n r]]]]]]; simpl in Hr; try lia. wp_steps.
  eapply wp_mono; [|exact IH]. intros [es|?|?] m' h' (->&->&Ho); wp_steps; [|by split_and!; [..|right]|done].
  destruct Ho as [-> Hall]. split_and!; [done..|]. constructor; [simpl; lia|done].
Qed.
Lemma writes_snoc h e : writes (h ++ [e]) = writes h ++ (if isWrite e then [e] else []).
Proof. unfold writes. rewrite filter_app. f_equal. by destruct e. Qed.

(** A later round: the secrets written so far are a part of those of the entries. *)
Lemma wp_writeEntries entries i m h :
  i ≠ 0 → leftovers m →
  wp (writeEntries i entries) (λ o m' h', h `prefix_of` h' ∧
    match o with
    | Ret _ => writes h' = writes h ++ (writeOf <$> entries) ∧ leftovers m'
    | Exit _ => ∃ k, k < length entries ∧ writes h' = writes h ++ (writeOf <$> take (S k) entries)
    | Panic _ => False
    end) m h.
Proof.
  revert i m h. induction entries as [|e entries IH]; intros i m h Hi Hm; cbn [writeEntries].
  { wp_steps. by rewrite app_nil_r. }
  wp_steps. rewrite decide_False by done. unfold writeEntry. wp_steps.
  rewrite fill_leftovers by done.
  assert (writes (h ++ [Write ("cubbyhole/" +:+ title e) (secretOf e)]) = writes h ++ [writeOf e]) as Hw
    by apply writes_snoc.
  wp_if; wp_steps.
  - split; [by apply prefix_app_r|]. exists 0. split; [simpl; lia|]. exact Hw.
  - eapply wp_mono; [|apply IH; [done|]].
    + intros o m' h' [Hpre Ho]. split; [etrans; [|exact Hpre]; by apply prefix_app_r|]. revert Ho.
      destruct o as [[]|?|?]; [|done|]; rewrite Hw.
      * by rewrite <- app_assoc.
      * intros (k&Hk&Hh). exists (S k). rewrite <- app_assoc in Hh. split; [simpl; lia|done].
    + rewrite <- (fill_leftovers e m) by done. by apply leftovers_after.
Qed.

End Vault.

Module VaultExamples.
(** Two entries with the same title: the second one is written over the first. *)
Definition env (h : list event) (e : event) : answer e :=
  match e with
  | Getenv _ => "x"
  | ReadAll => inl [["Group"; "Title"; "Username"; "Password"; "URL"; "Notes"];
                    ["g"; "mail"; "u1"; "p1"; "l1"; "n1"]; ["g"; "mail"; "u2"; "p2"; ""; ""]]
  | NewVaultClient | Open _ | Write _ _ => None
  | SetToken _ => tt
  end.
Example same_path :
  (λ e, match e with Write p d => Some (p, d !! "Username", d !! "URL") | _ => None end)
    <$> writes (main env ∅ []).2
  = [Some ("cubbyhole/mail", Some "u1", Some "l1"); Some ("cubbyhole/mail", Some "u2", Some "")].
Proof. vm_compute. reflexivity. Qed.
End VaultExamples.
