(* ===== verification/Statfs.v ===== *)
(** * The disk usage command (src/statfs-explore/)

    [diskCalc] chooses a unit for the size of a file system and converts to it, in
    float64.  The system call answers through the environment; the text of the numbers
    is not modelled. *)
From stdpp Require Import base strings numbers list sets.
From S2P Require Import Prelude Float64.
Local Open Scope Z_scope.
Set Default Proof Using "Type*".

(** The sizes of the [Statfs_t] the code reads: [uint64], [int64], [uint64]. *)
Record Statfs_t := mkStatfs { Blocks : Z; Bsize : Z; Bavail : Z }.
Record diskSize := mkDiskSize {
  total : f64; available : f64; statfs : Statfs_t; unit_ : f64; unitStr : string;
}.
(** Constants are exact. *)
Definition KByte : f64 := of_int 1024.
Definition MByte : f64 := of_int (1024 * 1024).
Definition GByte : f64 := of_int (1024 * 1024 * 1024).
Definition TByte : f64 := of_int (1024 * 1024 * 1024 * 1024).

Inductive event :=
  | Statfs (path : string)
  | Dump (d : diskSize)
  | PrintSpace (what path : string) (size : f64) (unitStr : string).
Definition answer (e : event) : Type :=
  match e with Statfs _ => result Statfs_t | _ => unit end.

Section Statfs.
Context (env : list event → ∀ e, answer e).
(** The state is the global [totalSizeBytes]. *)
Abbreviation sio := (io f64 event).
Abbreviation do e := (call env e).

Definition chooseUnit (totalSizeBytes : f64) : f64 * string :=
  if fgeb totalSizeBytes KByte && fleb totalSizeBytes MByte then (KByte, "KB")
  else if fgeb totalSizeBytes MByte && fleb totalSizeBytes GByte then (MByte, "MB")
  else if fgeb totalSizeBytes GByte && fleb totalSizeBytes TByte then (GByte, "GB")
  else if fgeb totalSizeBytes TByte then (TByte, "TB")
  else (of_int 0, "").
Definition diskCalc (path : string) : sio (result diskSize) :=
  r ← do (Statfs path);
  match r with
  | inr e => mret (inr e)
  | inl s =>
      let totalSizeBytes := fmul (of_int (Blocks s)) (of_int (Bsize s)) in
      modify (λ _, totalSizeBytes) ;;
      let '(unit, unitStr) := chooseUnit totalSizeBytes in
      mret (inl (mkDiskSize (fdiv totalSizeBytes unit)
                            (fdiv (fmul (of_int (Bavail s)) (of_int (Bsize s))) unit)
                            s unit unitStr))
  end.
Definition main (path : string) (debug : bool) : sio () :=
  r ← diskCalc path;
  match r with
  | inr e => fatal e
  | inl d =>
      (if debug then emit (Dump d) else mret tt) ;;
      emit (PrintSpace "total space" path (total d) (unitStr d)) ;;
      emit (PrintSpace "available space" path (available d) (unitStr d))
  end.
End Statfs.

(** The units, with the size from which on each is used and the size up to which. *)
Definition units : list (string * f64 * f64) :=
  [("KB", KByte, MByte); ("MB", MByte, GByte); ("GB", GByte, TByte);
   ("TB", TByte, fInf false)].

(** The unit is the one in whose range the size lies: between the unit and the next
    larger one, terabytes having no upper end.  A size below one kilobyte has no unit at
    all: the sizes are divided by zero and the unit is printed as the empty string. *)
Theorem unit_in_range size :
  isNaN size = false →
  let '(unit, name) := chooseUnit size in
  (∃ upper, (name, unit, upper) ∈ units ∧ fleb unit size = true ∧ fleb size upper = true) ∨
  (fltb size KByte = true ∧ name = "" ∧ unit = of_int 0).
Proof.
  intros Hn. unfold chooseUnit.
  assert (∀ u, isNaN u = false → fleb size u = false → fleb u size = true) as Hup
    by (intros u Hu Hle; by apply fltb_fleb, fleb_total).
  assert (∀ u, fltb size KByte = true → fleb KByte u = true → fleb u size = false) as Hlow
    by (intros u H1 H2; apply fltb_not_fleb; by eapply fltb_fleb_trans).
  unfold fgeb. change SpecFloat.SFleb with fleb.
  destruct (fleb KByte size) eqn:HK.
  2: { apply fleb_total in HK; [|done|done]. rewrite !Hlow by done. by right. }
  destruct (fleb size MByte) eqn:HM.
  { left. exists MByte. split; [set_solver|done]. }
  rewrite (Hup MByte) by done. destruct (fleb size GByte) eqn:HG.
  { left. exists GByte. rewrite Hup by done. split; [set_solver|done]. }
  rewrite (Hup GByte) by done. destruct (fleb size TByte) eqn:HT.
  { left. exists TByte. rewrite Hup by done. split; [set_solver|done]. }
  rewrite (Hup TByte) by done. left. exists (fInf false). rewrite Hup by done.
  split; [set_solver|]. split; [done|]. by apply fleb_inf.
Qed.

Module StatfsExamples.
Lemma unit_in_range_witness :
  fleb MByte (of_int 3000000) = true ∧ fleb (of_int 3000000) GByte = true.
Proof.
  destruct (unit_in_range (of_int 3000000) ltac:(vm_compute; reflexivity)) as [(u&_&_)|(H&_)].
  - split; vm_compute; reflexivity.
  - vm_compute in H. discriminate.
Defined.
Definition env (s : Statfs_t) (_ : list event) (e : event) : answer e :=
  match e with Statfs _ => inl s | _ => tt end.
(** Ten blocks of 512 KB, five of them free. *)
Example printed_mb :
  (main (env (mkStatfs 10 524288 5)) "/" false (of_int 0) []).2
  = [Statfs "/"; PrintSpace "total space" "/" (of_int 5) "MB";
     PrintSpace "available space" "/" (flit 5 (-1)) "MB"].
Proof. vm_compute. reflexivity. Qed.
(** An empty file system, /proc for example: zero divided by zero. *)
Example empty_is_nan :
  option_map isNaN (match (diskCalc (env (mkStatfs 0 4096 0)) "/proc" (of_int 0) []).1.1 with
                    | Ret (inl d) => Some (total d) | _ => None end) = Some true.
Proof. vm_compute. reflexivity. Qed.
End StatfsExamples.
