(* ===== verification/Slices.v ===== *)
(** * Slice algorithms (src/slice-delete/main.go, src/list-intersect/fast/fast.go)

    Go slices as windows on a backing array that the functions write to: removing an
    element in three ways, and the intersection of two lists. *)
From stdpp Require Import base strings numbers list sorting.
From S2P Require Import Prelude.
Local Open Scope Z_scope.

(** ** Slices *)
(** A slice of length [len] at the start of its backing array [arr]. *)
Record slice := mkSlice { arr : list Z; len : nat }.
Definition view (s : slice) : list Z := take (len s) (arr s).
Definition okSlice (s : slice) : Prop := (len s ≤ length (arr s))%nat.
(** [s[:n]] for [n] within the length. *)
Definition truncTo (n : nat) (s : slice) : slice := mkSlice (arr s) n.
Definition inRange (i : Z) (s : slice) : bool := bool_decide (0 ≤ i < Z.of_nat (len s)).
(** [s[i]] and [s[i] = v]. *)
Definition index (s : slice) (i : Z) : outcome Z :=
  match (if inRange i s then arr s !! Z.to_nat i else None) with
  | Some v => Ret v
  | None => Panic "index out of range"
  end.
Definition store (s : slice) (i v : Z) : outcome slice :=
  if inRange i s then Ret (mkSlice (<[Z.to_nat i := v]> (arr s)) (len s))
  else Panic "index out of range".
Definition obind {A B} (f : A → outcome B) (o : outcome A) : outcome B :=
  match o with Ret a => f a | Panic m => Panic m | Exit m => Exit m end.
#[local] Instance outcome_bind : MBind outcome := @obind.
(** [copy(s[i:], s[j:])] for [i ≤ j] within the length: move down, keep the rest. *)
Definition copyDown (s : slice) (i j : nat) : slice :=
  let moved := drop j (view s) in
  mkSlice (take i (arr s) ++ moved ++ drop (i + length moved) (arr s)) (len s).

(** ** slice-delete/main.go *)
Definition vFastRemoveAt (i : Z) (src : slice) : outcome slice :=
  v ← index src (Z.of_nat (len src) - 1);
  src ← store src i v;
  src ← store src (Z.of_nat (len src) - 1) 0;
  Ret (truncTo (len src - 1) src).

Definition okRemoveAt (i : Z) (src : slice) : outcome slice :=
  if decide (0 ≤ i ∧ i + 1 ≤ Z.of_nat (len src)) then
    let src := copyDown src (Z.to_nat i) (Z.to_nat (i + 1)) in
    src ← store src (Z.of_nat (len src) - 1) 0;
    Ret (truncTo (len src - 1) src)
  else Panic "slice bounds out of range".

(** The loop of [slowRemoveAt] from position [pos] on. *)
Fixpoint appendOthers (i pos : Z) (items : list Z) : list Z :=
  match items with
  | [] => []
  | item :: items =>
      if decide (pos ≠ i) then item :: appendOthers i (pos + 1) items
      else appendOthers i (pos + 1) items
  end.
Definition slowRemoveAt (i : Z) (src : slice) : result (list Z) :=
  if decide (i < 0 ∨ Z.of_nat (len src) < i) then inr "invalid index"
  else inl (appendOthers i 0 (view src)).

(** What main logs: the list and the three results of removing its third element. *)
Definition main : outcome (list (list Z)) :=
  let src := mkSlice [1; 2; 3; 4; 5] 5 in
  match slowRemoveAt 2 src with
  | inr err => Panic err
  | inl x =>
      src1 ← okRemoveAt 2 (mkSlice [1; 2; 3; 4; 5] 5);
      src2 ← vFastRemoveAt 2 (mkSlice [1; 2; 3; 4; 5] 5);
      Ret [view src; x; view src1; view src2]
  end.

(** ** list-intersect/fast/fast.go *)
(** [high = high[:j+copy(high[j:], high[j+1:])]] *)
Definition dropAt (j : nat) (high : slice) : slice :=
  truncTo (len high - 1) (copyDown high j (j + 1)).
(** The loop over [low], whose rest is [l :: low]; [low] is the rest after [l], so
    its head is [low[f1]].  The lists do not share an array. *)
Fixpoint intersectLoop (low : list Z) (high : slice) (inter : list Z) : list Z * slice :=
  match low with
  | [] => (inter, high)
  | l :: low =>
      match list_find (λ h, l = h) (view high) with
      | None => intersectLoop low high inter
      | Some (j, h) =>
          let done := match low !! 0%nat, view high !! (j + 1)%nat with
                      | Some x, Some y => bool_decide (x ≠ y)
                      | _, _ => false
                      end in
          let high := dropAt j high in
          let inter := inter ++ [h] in
          if done then (inter, high) else intersectLoop low high inter
      end
  end.
(** The result, and the longer argument as the caller finds it afterwards. *)
Definition intersection (a b : slice) : list Z * slice :=
  let '(low, high) := if decide (len b < len a)%nat then (b, a) else (a, b) in
  intersectLoop (view low) high [].

(** main: the numbers up to [r1], intersected with those from [r2] down to one; what it
    prints of the result, the number of elements and the sorted elements. *)
Fixpoint countUp (i : Z) (rounds : nat) (o : list Z) : list Z :=
  match rounds with O => o | S n => countUp (i + 1) n (o ++ [i]) end.
Fixpoint countDown (z : Z) (rounds : nat) (o : list Z) : list Z :=
  match rounds with O => o | S n => countDown (z - 1) n (o ++ [z]) end.
Definition fromList (l : list Z) : slice := mkSlice l (length l).
Definition fastMain (r1 r2 : Z) : nat * list Z :=
  let o1 := countUp 0 (Z.to_nat (r1 + 1)) [] in       (* for i := 0; i <= r1; i++ *)
  let o2 := countDown r2 (Z.to_nat r2) [] in          (* for z := r2; z > 0; z-- *)
  let l1 := (intersection (fromList o1) (fromList o2)).1 in
  (length l1, merge_sort Z.le l1).

(** ** Lemmas *)
(** The list without its element at [i]. *)
Definition without (i : nat) (l : list Z) : list Z := take i l ++ drop (S i) l.

Lemma view_length s : okSlice s → length (view s) = len s.
Proof. intros H. unfold view. rewrite length_take. unfold okSlice in *. lia. Qed.
Lemma without_delete i l : without i l = delete i l.
Proof. unfold without. by rewrite delete_take_drop. Qed.
Lemma appendOthers_skip i pos l : i < pos → appendOthers i pos l = l.
Proof.
  revert pos. induction l as [|x l IH]; intros pos Hp; simpl; [done|].
  rewrite decide_True by lia. f_equal. apply IH. lia.
Qed.
Lemma appendOthers_spec i pos l :
  0 ≤ pos ≤ i → appendOthers i pos l = without (Z.to_nat (i - pos)) l.
Proof.
  revert pos. induction l as [|x l IH]; intros pos Hp; simpl.
  { unfold without. by rewrite take_nil, drop_nil. }
  case_decide as Hd.
  - rewrite IH by lia. replace (Z.to_nat (i - pos)) with (S (Z.to_nat (i - (pos + 1)))) by lia. done.
  - assert (pos = i) as -> by lia. rewrite Z.sub_diag. rewrite appendOthers_skip by lia.
    done.
Qed.

Lemma copyDown_view s i :
  okSlice s → (i < len s)%nat →
  arr (copyDown s i (i + 1)) = without i (view s) ++ drop (len s - 1) (arr s).
Proof.
  intros Hok Hi. unfold copyDown, without. simpl. rewrite <- app_assoc. f_equal.
  - unfold view. rewrite take_take. f_equal. lia.
  - replace (i + 1)%nat with (S i) by lia. f_equal. f_equal.
    rewrite length_drop, view_length by done. lia.
Qed.
Lemma without_length i l : (i < length l)%nat → length (without i l) = (length l - 1)%nat.
Proof. intros H. unfold without. rewrite length_app, length_take, length_drop. lia. Qed.
Lemma dropAt_view s j : okSlice s → (j < len s)%nat → view (dropAt j s) = without j (view s).
Proof.
  intros Hok Hj. unfold dropAt, view at 1. cbn [len truncTo arr]. rewrite copyDown_view by done.
  rewrite take_app_length'; [done|]. rewrite without_length, view_length by (rewrite ?view_length; done).
  done.
Qed.
Lemma dropAt_ok s j : okSlice s → (j < len s)%nat → okSlice (dropAt j s).
Proof.
  intros Hok Hj. unfold okSlice. cbn [dropAt len truncTo arr]. rewrite copyDown_view by done.
  rewrite length_app, without_length, view_length by (rewrite ?view_length; done). lia.
Qed.
Lemma without_Permutation l j h : l !! j = Some h → l ≡ₚ h :: without j l.
Proof.
  intros Hj. unfold without. rewrite <- (take_drop_middle l j h Hj) at 1. by rewrite Permutation_middle.
Qed.

Lemma intersectLoop_spec low high inter :
  okSlice high →
  ∃ more, (intersectLoop low high inter).1 = inter ++ more ∧ more `sublist_of` low ∧
    more ++ view (intersectLoop low high inter).2 ≡ₚ view high.
Proof.
  revert high inter. induction low as [|l low IH]; intros high inter Hok; cbn [intersectLoop].
  { exists []. by rewrite app_nil_r. }
  destruct (list_find _ (view high)) as [[j h]|] eqn:E.
  - apply list_find_Some in E as (Hj&<-&_). pose proof (lookup_lt_Some _ _ _ Hj) as Hlt.
    rewrite view_length in Hlt by done. pose proof (without_Permutation _ _ _ Hj) as Hperm.
    rewrite <- dropAt_view in Hperm by done.
    destruct (match low !! 0%nat with Some _ => _ | None => _ end).
    + exists [l]. split; [done|]. split; [apply sublist_skip, sublist_nil_l|]. simpl. by symmetry.
    + destruct (IH (dropAt j high) (inter ++ [l])) as (more&Heq&Hsub&Hp); [by apply dropAt_ok|].
      exists (l :: more). split; [by rewrite Heq, <- app_assoc|]. split; [by apply sublist_skip|].
      simpl. rewrite Hperm. by apply Permutation_skip.
  - destruct (IH high inter Hok) as (more&?&?&?). exists more. split; [done|]. split; [|done].
    by apply sublist_cons.
Qed.

Lemma slow_spec i src :
  okSlice src → 0 ≤ i ≤ Z.of_nat (len src) →
  slowRemoveAt i src = inl (without (Z.to_nat i) (view src)).
Proof.
  intros Hok Hi. unfold slowRemoveAt. rewrite decide_False by lia.
  rewrite appendOthers_spec by lia. by rewrite Z.sub_0_r.
Qed.
(** Zero the last place and cut it off. *)
Lemma eraseLast_spec s :
  okSlice s → (0 < len s)%nat →
  ∃ s', (src ← store s (Z.of_nat (len s) - 1) 0; Ret (truncTo (len src - 1) src)) = Ret s' ∧
    view s' = take (len s - 1) (arr s) ∧ arr s' !! (len s - 1)%nat = Some 0.
Proof.
  intros Hok Hlt. unfold store, inRange. rewrite bool_decide_eq_true_2 by lia.
  eexists. split; [reflexivity|]. unfold view, okSlice in *. cbn [truncTo len arr].
  replace (Z.to_nat (Z.of_nat (len s) - 1)) with (len s - 1)%nat by lia. split.
  - by rewrite take_insert_ge.
  - rewrite list_lookup_insert_eq; [done|lia].
Qed.
Lemma ok_spec i src :
  okSlice src → 0 ≤ i < Z.of_nat (len src) →
  ∃ s, okRemoveAt i src = Ret s ∧ view s = without (Z.to_nat i) (view src) ∧
       arr s !! (len src - 1)%nat = Some 0.
Proof.
  intros Hok Hi. unfold okRemoveAt. rewrite decide_True by lia.
  replace (Z.to_nat (i + 1)) with (Z.to_nat i + 1)%nat by lia.
  set (s1 := copyDown src (Z.to_nat i) (Z.to_nat i + 1)).
  assert (arr s1 = without (Z.to_nat i) (view src) ++ drop (len src - 1) (arr src)) as Harr.
  { apply copyDown_view; [done|lia]. }
  assert (length (without (Z.to_nat i) (view src)) = (len src - 1)%nat) as Hw.
  { rewrite without_length; rewrite view_length by done; lia. }
  destruct (eraseLast_spec s1) as (s&Hs&Hv&Hz).
  - unfold okSlice in *. rewrite Harr, length_app, Hw, length_drop. cbn [len s1 copyDown]. lia.
  - cbn [len s1 copyDown]. lia.
  - exists s. split; [exact Hs|]. split; [|exact Hz]. rewrite Hv, Harr. cbn [len s1 copyDown].
    by rewrite <- Hw, take_app_length.
Qed.
Lemma take_insert_last (l : list Z) i m v :
  (i ≤ m)%nat → l !! m = Some v →
  take m (<[i := v]> l) ≡ₚ without i (take (S m) l).
Proof.
  intros Hi Hv. rewrite (take_S_r l m v Hv). pose proof (lookup_lt_Some _ _ _ Hv) as Hlt.
  assert (length (take m l) = m) as Hm by (rewrite length_take; lia).
  destruct (decide (i = m)) as [->|Hne].
  - rewrite take_insert_ge by lia. unfold without. rewrite take_app_length' by done.
    by rewrite drop_ge, app_nil_r by (rewrite length_app, Hm; simpl; lia).
  - rewrite take_insert_lt by lia. unfold without. rewrite take_app_le, drop_app_le by lia.
    rewrite insert_take_drop by lia. rewrite app_assoc. by rewrite <- Permutation_middle, Permutation_cons_append.
Qed.
Lemma index_in s i v : 0 ≤ i < Z.of_nat (len s) → arr s !! Z.to_nat i = Some v → index s i = Ret v.
Proof. intros Hi Hv. unfold index, inRange. by rewrite bool_decide_eq_true_2, Hv by done. Qed.
Lemma store_in s i v :
  0 ≤ i < Z.of_nat (len s) → store s i v = Ret (mkSlice (<[Z.to_nat i := v]> (arr s)) (len s)).
Proof. intros Hi. unfold store, inRange. by rewrite bool_decide_eq_true_2. Qed.
Lemma vFast_spec i src :
  okSlice src → 0 ≤ i < Z.of_nat (len src) →
  ∃ s, vFastRemoveAt i src = Ret s ∧ view s ≡ₚ without (Z.to_nat i) (view src) ∧
       arr s !! (len src - 1)%nat = Some 0.
Proof.
  intros Hok Hi. unfold vFastRemoveAt.
  destruct (lookup_lt_is_Some_2 (arr src) (len src - 1)) as [v Hv]; [unfold okSlice in *; lia|].
  rewrite (index_in src _ v);
    [|lia|by replace (Z.to_nat (Z.of_nat (len src) - 1)) with (len src - 1)%nat by lia].
  cbn [mbind outcome_bind obind]. rewrite store_in by lia. cbn [mbind outcome_bind obind].
  set (s1 := mkSlice _ _).
  destruct (eraseLast_spec s1) as (s&Hs&Hp&Hz).
  - unfold okSlice, s1 in *. simpl. by rewrite length_insert.
  - simpl. lia.
  - exists s. split; [exact Hs|]. split; [|exact Hz]. rewrite Hp. unfold view. simpl.
    rewrite (take_insert_last _ _ (len src - 1)) by (done || lia).
    by replace (S (len src - 1)) with (len src) by lia.
Qed.
Lemma outside_spec i src :
  okSlice src → ¬ (0 ≤ i < Z.of_nat (len src)) →
  okRemoveAt i src = Panic "slice bounds out of range" ∧
  vFastRemoveAt i src = Panic "index out of range".
Proof.
  intros Hok Hi. unfold okRemoveAt. rewrite decide_False by lia. split; [done|].
  unfold vFastRemoveAt. destruct (index src (Z.of_nat (len src) - 1)) as [v|m|m] eqn:E.
  - unfold mbind, outcome_bind, obind, store, inRange. by rewrite bool_decide_eq_false_2.
  - unfold index in E. destruct (if inRange _ _ then _ else _); [done|]. by injection E as <-.
  - unfold index in E. by destruct (if inRange _ _ then _ else _).
Qed.

(** ** Properties *)
(** C30: The three removals agree: on an index within the slice [okRemoveAt] and
    [slowRemoveAt] yield the list without that element and [vFastRemoveAt] the same
    elements with the last one moved into the gap; those that work in place leave a
    zero in the last place of the array.  Outside of the slice the
    in-place ones panic; [slowRemoveAt] fails, except that the length itself is taken
    as an index and nothing is removed. *)
Theorem removals_agree i src :
  okSlice src →
  let n := Z.of_nat (len src) in
  (0 ≤ i < n →
     slowRemoveAt i src = inl (delete (Z.to_nat i) (view src)) ∧
     (∃ s, okRemoveAt i src = Ret s ∧ view s = delete (Z.to_nat i) (view src) ∧
           arr s !! (len src - 1)%nat = Some 0) ∧
     (∃ s, vFastRemoveAt i src = Ret s ∧ view s ≡ₚ delete (Z.to_nat i) (view src) ∧
           arr s !! (len src - 1)%nat = Some 0)) ∧
  (¬ (0 ≤ i < n) →
     okRemoveAt i src = Panic "slice bounds out of range" ∧
     vFastRemoveAt i src = Panic "index out of range" ∧
     slowRemoveAt i src = (if decide (i = n) then inl (view src) else inr "invalid index")).
Proof.
  intros Hok n. rewrite <- !without_delete. split.
  - intros Hi. split; [apply slow_spec; [done|lia]|]. split; [by apply ok_spec|by apply vFast_spec].
  - intros Hi. destruct (outside_spec i src Hok Hi) as [-> ->]. split; [done|]. split; [done|].
    case_decide as Hd.
    + rewrite slow_spec by (done || lia). unfold without. f_equal. subst.
      rewrite take_ge, drop_ge, app_nil_r by (rewrite view_length by done; lia). done.
    + unfold slowRemoveAt. by rewrite decide_True by lia.
Qed.

(** The intersection is sound: its elements, in the order of the shorter list, are
    elements of the shorter list, and together with what is left of the longer one
    they are exactly the longer one, so that no element is taken twice. *)
Theorem intersection_sound a b :
  okSlice a → okSlice b →
  let '(low, high) := if decide (len b < len a)%nat then (b, a) else (a, b) in
  let '(inter, high') := intersection a b in
  inter `sublist_of` view low ∧ inter ++ view high' ≡ₚ view high.
Proof.
  intros Ha Hb. unfold intersection. case_decide.
  - destruct (intersectLoop_spec (view b) a [] Ha) as (more&Heq&Hsub&Hp).
    destruct (intersectLoop _ _ _) as [inter high']. simpl in *. by subst.
  - destruct (intersectLoop_spec (view a) b [] Hb) as (more&Heq&Hsub&Hp).
    destruct (intersectLoop _ _ _) as [inter high']. simpl in *. by subst.
Qed.

(** ** The main of list-intersect/fast *)
Lemma countUp_seqZ i n o : countUp i n o = o ++ seqZ i (Z.of_nat n).
Proof.
  revert i o. induction n as [|n IH]; intros i o; cbn [countUp]; [by rewrite app_nil_r|].
  rewrite IH, <- app_assoc. f_equal. rewrite (seqZ_cons i) by lia. simpl. f_equal. f_equal; lia.
Qed.
Definition downFrom (z : Z) (n : nat) : list Z := (λ i, z - i) <$> seqZ 0 (Z.of_nat n).
Lemma countDown_downFrom z n o : countDown z n o = o ++ downFrom z n.
Proof.
  revert z o. induction n as [|n IH]; intros z o; cbn [countDown]; [by rewrite app_nil_r|].
  rewrite IH, <- app_assoc. f_equal. unfold downFrom. rewrite (seqZ_cons 0 (Z.of_nat (S n))) by lia. simpl.
  rewrite Z.sub_0_r. f_equal. replace (Z.pred (Z.of_nat (S n))) with (Z.of_nat n) by lia.
  apply list_eq. intros i. rewrite !list_lookup_fmap.
  destruct (decide (i < n)%nat).
  - rewrite !lookup_seqZ_lt by lia. simpl. f_equal. lia.
  - rewrite !lookup_seqZ_ge by lia. done.
Qed.
Lemma downFrom_length z n : length (downFrom z n) = n.
Proof. unfold downFrom. rewrite length_fmap, length_seqZ. lia. Qed.
Lemma downFrom_lookup z n i : (i < n)%nat → downFrom z n !! i = Some (z - Z.of_nat i).
Proof. intros Hi. unfold downFrom. rewrite list_lookup_fmap, lookup_seqZ_lt by lia. simpl. f_equal. Qed.
Lemma downFrom_without z n : without n (downFrom z (S n)) = downFrom z n.
Proof.
  apply list_eq. intros i. unfold without. rewrite drop_ge, app_nil_r by (rewrite downFrom_length; lia).
  destruct (decide (i < n)%nat).
  - rewrite lookup_take_lt by done. by rewrite !downFrom_lookup by lia.
  - rewrite lookup_take_ge by lia. symmetry. apply lookup_ge_None. rewrite downFrom_length. lia.
Qed.
Lemma find_lowest z n k :
  z - Z.of_nat n = k → list_find (λ h, k = h) (downFrom z (S n)) = Some (n, k).
Proof.
  intros Hk. apply list_find_Some. split; [rewrite downFrom_lookup by lia; f_equal; lia|]. split; [done|].
  intros j y Hj Hlt. rewrite downFrom_lookup in Hj by lia. injection Hj as <-. lia.
Qed.
(** Counting up while the longer list counts down: each number is found at its end. *)
Lemma intersectLoop_down n z m high inter :
  okSlice high → view high = downFrom z m → (n ≤ m)%nat →
  (intersectLoop (seqZ (z - Z.of_nat m + 1) (Z.of_nat n)) high inter).1 =
    inter ++ seqZ (z - Z.of_nat m + 1) (Z.of_nat n).
Proof.
  revert m high inter. induction n as [|n IH]; intros m high inter Hok Hv Hn; [by rewrite app_nil_r|].
  destruct m as [|m]; [lia|]. set (k := z - Z.of_nat (S m) + 1).
  rewrite (seqZ_cons k) by lia. replace (Z.pred (Z.of_nat (S n))) with (Z.of_nat n) by lia.
  cbn [intersectLoop]. rewrite Hv, (find_lowest z m k) by (unfold k; lia).
  assert (downFrom z (S m) !! (m + 1)%nat = None) as ->.
  { apply lookup_ge_None. rewrite downFrom_length. lia. }
  assert (len high = S m) as Hlen by (rewrite <- (view_length high Hok), Hv; apply downFrom_length).
  assert ((intersectLoop (seqZ (Z.succ k) (Z.of_nat n)) (dropAt m high) (inter ++ [k])).1 =
          (inter ++ [k]) ++ seqZ (Z.succ k) (Z.of_nat n)) as Hrec.
  { replace (Z.succ k) with (z - Z.of_nat m + 1) by (unfold k; lia). apply IH; [|..|lia].
    - apply dropAt_ok; [done|lia].
    - rewrite dropAt_view, Hv by (done || lia). apply downFrom_without. }
  rewrite <- app_assoc in Hrec. by destruct (seqZ (Z.succ k) _ !! 0%nat).
Qed.

Lemma seqZ_sorted m n : StronglySorted Z.le (seqZ m n).
Proof.
  destruct (decide (n ≤ 0)) as [Hn|Hn]; [unfold seqZ; replace (Z.to_nat n) with 0%nat by lia; constructor|].
  revert m. pattern n. apply natlike_ind; [..|lia]; [constructor|].
  intros k Hk IH m. rewrite seqZ_cons by lia. rewrite Z.pred_succ. constructor; [apply IH|].
  apply Forall_forall. intros x Hx%elem_of_seqZ. lia.
Qed.

(** The main of list-intersect/fast prints what it is meant to, in spite of the early end
    of the search: all numbers that both lists have. *)
Theorem fastMain_prints r1 r2 :
  0 ≤ r1 < r2 → fastMain r1 r2 = (Z.to_nat r1, seqZ 1 r1).
Proof.
  intros Hr. unfold fastMain. rewrite countUp_seqZ, countDown_downFrom. cbn [app].
  assert ((intersection (fromList (seqZ 0 (Z.of_nat (Z.to_nat (r1 + 1)))))
            (fromList (downFrom r2 (Z.to_nat r2)))).1 = seqZ 1 r1) as ->.
  { unfold intersection. rewrite decide_False.
    2: { unfold fromList. cbn [len]. rewrite downFrom_length, length_seqZ. lia. }
    replace (Z.of_nat (Z.to_nat (r1 + 1))) with (r1 + 1) by lia.
    unfold view at 1, fromList. cbn [arr len]. rewrite firstn_all, (seqZ_cons 0) by lia.
    change (Z.succ 0) with 1. replace (Z.pred (r1 + 1)) with r1 by lia. cbn [intersectLoop].
    assert (view (mkSlice (downFrom r2 (Z.to_nat r2)) (length (downFrom r2 (Z.to_nat r2))))
            = downFrom r2 (Z.to_nat r2)) as Hv by (unfold view; apply firstn_all).
    rewrite Hv. assert (list_find (λ h, 0 = h) (downFrom r2 (Z.to_nat r2)) = None) as ->.
    { apply list_find_None, Forall_lookup. intros i x Hx. pose proof (lookup_lt_Some _ _ _ Hx) as Hi.
      rewrite downFrom_length in Hi. rewrite downFrom_lookup in Hx by done. injection Hx as <-. lia. }
    pose proof (intersectLoop_down (Z.to_nat r1) r2 (Z.to_nat r2) (fromList (downFrom r2 (Z.to_nat r2))) []
                  (le_n _) Hv ltac:(lia)) as Hl.
    replace (r2 - Z.of_nat (Z.to_nat r2) + 1) with 1 in Hl by lia.
    by replace (Z.of_nat (Z.to_nat r1)) with r1 in Hl by lia. }
  rewrite length_seqZ. f_equal. apply (StronglySorted_unique Z.le).
  - apply StronglySorted_merge_sort; apply _.
  - apply seqZ_sorted.
  - apply merge_sort_Permutation.
Qed.

Module SliceExamples.
Example main_logs : main = Ret [[1; 2; 3; 4; 5]; [1; 2; 4; 5]; [1; 2; 4; 5]; [1; 2; 5; 4]].
Proof. reflexivity. Qed.
Definition whole (l : list Z) : slice := mkSlice l (length l).
Lemma removals_agree_witness :
  slowRemoveAt 2 (whole [1; 2; 3; 4; 5]) = inl [1; 2; 4; 5] ∧
  ∃ s, okRemoveAt 2 (whole [1; 2; 3; 4; 5]) = Ret s ∧ view s = [1; 2; 4; 5].
Proof.
  destruct (removals_agree 2 (whole [1; 2; 3; 4; 5]) (le_n _)) as [H _].
  destruct H as (H1&(s&H2&H3&_)&_); [simpl; lia|]. split; [exact H1|]. exists s. by split.
Defined.
(** The search stops at the first difference of the elements that follow a match. *)
Example intersection_incomplete : (intersection (whole [1; 3]) (whole [1; 2; 3])).1 = [1].
Proof. reflexivity. Qed.
Lemma fastMain_prints_witness : fastMain 1000 10000000 = (1000%nat, seqZ 1 1000).
Proof. exact (fastMain_prints 1000 10000000 ltac:(lia)). Defined.
(** The caller's array is written to. *)
Example intersection_writes : arr (intersection (whole [2]) (whole [1; 2; 3])).2 = [1; 3; 3].
Proof. reflexivity. Qed.
Lemma intersection_sound_witness :
  let '(inter, high') := intersection (whole [1; 2]) (whole [2; 1; 1]) in
  inter `sublist_of` [1; 2] ∧ inter ++ view high' ≡ₚ [2; 1; 1].
Proof.
  exact (intersection_sound (whole [1; 2]) (whole [2; 1; 1]) (le_n _) (le_n _)).
Defined.
End SliceExamples.
