(* ===== verification/Cgo.v ===== *)
(** * Programs that hand memory to C (src/msanfoo/, src/cgo-explore/gc-protect/,
    src/list-intersect/cgo-list-intersect/)

    Memory is a map of blocks of cells; a cell may be indeterminate, and a block that was
    freed is gone.  What C leaves undefined ends the run: reading an indeterminate value,
    which the memory sanitizer of msanfoo reports, and touching memory outside of a block. *)
From stdpp Require Import base gmap strings numbers list.
From S2P Require Import Prelude.
Local Open Scope Z_scope.

(** ** Memory *)
Abbreviation cell := (option Z).
Abbreviation ptr := (option nat).          (* None is NULL *)
Record mem := mkMem { blocks : gmap nat (list cell); fresh : nat }.

Inductive event :=
  | Malloc (bytes : Z)                     (* true: it succeeds *)
  | PrintPointers (p q : ptr)
  | PrintHello (s : list Z)                (* printf of Hello and a C string *)
  | PrintSets (x y : list cell).           (* fmt.Printf of two structs *)
Definition answer (e : event) : Type := match e with Malloc _ => bool | _ => unit end.

Definition segfault : string := "SIGSEGV".
Definition uninitialised : string := "MemorySanitizer: use-of-uninitialized-value".

Section C.
Context (env : list event → ∀ e, answer e).
Abbreviation cio := (io mem event).

(** A block of the given cells, allocated by Go. *)
Definition alloc (cells : list cell) : cio ptr :=
  m ← get;
  modify (λ m, mkMem (<[fresh m := cells]> (blocks m)) (S (fresh m))) ;;
  mret (Some (fresh m)).
Definition malloc (bytes : Z) (cells : nat) : cio ptr :=
  ok ← call env (Malloc bytes);
  if ok : bool then alloc (replicate cells None) else mret None.
Definition block (p : ptr) : cio (list cell) :=
  m ← get;
  match p ≫= (λ b, blocks m !! b) with
  | Some cells => mret cells
  | None => fatal segfault
  end.
Definition setBlock (p : ptr) (cells : list cell) : cio unit :=
  modify (λ m, match p with
               | Some b => mkMem (<[b := cells]> (blocks m)) (fresh m)
               | None => m end).
Definition load (p : ptr) (i : nat) : cio cell :=
  cells ← block p;
  match cells !! i with Some c => mret c | None => fatal segfault end.
Definition store (p : ptr) (i : nat) (v : cell) : cio unit :=
  cells ← block p;
  if decide (i < length cells)%nat then setBlock p (<[i := v]> cells) else fatal segfault.
(** The value of a cell where the program depends on it. *)
Definition value (c : cell) : cio Z :=
  match c with Some v => mret v | None => fatal uninitialised end.
Definition memcpy (p q : ptr) (n : nat) : cio unit :=
  src ← block q; dst ← block p;
  if decide (n ≤ length src ∧ n ≤ length dst)%nat
  then setBlock p (take n src ++ drop n dst) else fatal segfault.
Definition free (p : ptr) : cio unit :=
  match p with
  | None => mret tt
  | Some b => m ← get;
      match blocks m !! b with
      | Some _ => modify (λ m, mkMem (delete b (blocks m)) (fresh m))
      | None => fatal "free(): invalid pointer"
      end
  end.

(** ** msanfoo/main.go *)
Definition f (p : ptr) (n : nat) : cio unit :=
  q ← malloc (4 * Z.of_nat n) n;
  memcpy p q n ;;
  free q.
Definition g (p : ptr) (n : nat) : cio unit :=
  c ← load p 4; v ← value c;
  if decide (v ≠ 1) then fatal "abort" else mret tt.
Definition msanMain : cio unit :=
  a ← alloc (replicate 10 (Some 0));
  f a 10 ;;
  store a 4 (Some 1) ;;
  g a 10.

(** ** cgo-explore/gc-protect/main.go *)
(** [printf] of a string: the characters up to the terminating zero. *)
Fixpoint cstring (cells : list cell) : cio (list Z) :=
  match cells with
  | [] => fatal segfault                   (* behind the end of the block *)
  | c :: cells => v ← value c;
      if decide (v = 0) then mret [] else s ← cstring cells; mret (v :: s)
  end.
(** [myFunc] and [myCharPtrFunc] differ only in the type of their parameter. *)
Definition myFunc (c : ptr) : cio unit :=
  cells ← block c; s ← cstring cells; emit (PrintHello s).
Definition myCharPtrFunc (c : ptr) : cio unit := myFunc c.
Definition bytesOf (s : string) : list cell :=
  (λ c, Some (Z.of_nat (Ascii.nat_of_ascii c))) <$> String.list_ascii_of_string s.
Definition gcMain : cio unit :=
  msg ← alloc (bytesOf "world!");
  myFunc msg ;;
  buff ← alloc (bytesOf "world2!");
  myCharPtrFunc buff ;;
  myFunc buff.

(** ** list-intersect/cgo-list-intersect/main.go *)
(** An [intset]: its size, then the elements. *)
Definition newset (size : Z) : cio ptr :=
  set ← malloc (u64 (8 + u64 (4 * u64 (size - 1)))) (S (Z.to_nat size));
  match set with
  | Some _ => store set 0 (Some size)
  | None => mret tt
  end ;;
  mret set.
Definition sizeOf (x : ptr) : cio Z := c ← load x 0; value c.
(** [for (int i = 0; i < x->size; i++) body], for at most [fuel] rounds. *)
Fixpoint forBelow (fuel : nat) (i : Z) (x : ptr) (body : cio unit) : cio unit :=
  match fuel with
  | O => fatal "out of fuel"
  | S n => size ← sizeOf x;
      if decide (i < size) then body ;; forBelow n (i + 1) x body else mret tt
  end.
(** It computes nothing, and has no return statement: the result is indeterminate. *)
Definition intersect (fuel : nat) (x y : ptr) : cio (list cell) :=
  forBelow fuel 0 x (forBelow fuel 0 y (mret tt)) ;;
  emit (PrintPointers x y) ;;
  mret [None; None].
Definition cgoMain (fuel : nat) : cio unit :=
  s1 ← newset 10;
  s2 ← newset 5;
  intersect fuel s1 s2 ;;
  free s1 ;;
  free s2 ;;
  x ← block s1; y ← block s2;              (* fmt.Printf follows the pointers *)
  emit (PrintSets (take 2 x) (take 2 y)).

(** ** Lemmas *)
Lemma block_run b cells m h :
  blocks m !! b = Some cells → block (Some b) m h = (Ret cells, m, h).
Proof. intros Hb. unfold block, mbind, io_bind. simpl. by rewrite Hb. Qed.
Lemma load_run b i c cells m h :
  blocks m !! b = Some cells → cells !! i = Some c → load (Some b) i m h = (Ret c, m, h).
Proof.
  intros Hb Hi. unfold load, mbind, io_bind. rewrite (block_run b cells) by done. by rewrite Hi.
Qed.

(** Memory whose next block is not in use. *)
Definition memOk (m : mem) : Prop := ∀ b, (fresh m ≤ b)%nat → blocks m !! b = None.

Lemma f_run b n cells m h :
  memOk m → (b < fresh m)%nat → blocks m !! b = Some cells → length cells = n →
  f (Some b) n m h =
    if env h (Malloc (4 * Z.of_nat n))
    then (Ret tt, mkMem (<[b := replicate n None]> (blocks m)) (S (fresh m)), h ++ [Malloc (4 * Z.of_nat n)])
    else (Exit segfault, m, h ++ [Malloc (4 * Z.of_nat n)]).
Proof.
  intros Hok Hlt Hb Hn. apply wp_eq. unfold f, malloc, alloc, memcpy, block. wp_steps.
  wp_if; wp_steps; [|done]. simpl. rewrite lookup_insert_eq. wp_steps.
  simpl. rewrite lookup_insert_ne, Hb by lia. wp_steps.
  rewrite decide_True by (rewrite length_replicate; lia). unfold setBlock, free. wp_steps. simpl.
  rewrite lookup_insert_ne, lookup_insert_eq by lia. wp_steps. simpl.
  rewrite take_ge by (rewrite length_replicate; lia). rewrite drop_ge, app_nil_r by lia.
  do 3 f_equal. rewrite insert_insert_ne by lia. rewrite delete_insert_id; [done|].
  rewrite lookup_insert_ne by lia. by apply Hok.
Qed.
Lemma g_run b n cells c m h :
  blocks m !! b = Some cells → cells !! 4%nat = Some c →
  g (Some b) n m h = (match c with
                      | None => Exit uninitialised
                      | Some v => if decide (v ≠ 1) then Exit "abort" else Ret tt end, m, h).
Proof.
  intros Hb Hc. unfold g, mbind, io_bind. rewrite (load_run b 4 c cells) by done.
  destruct c as [v|]; simpl; [by case_decide|done].
Qed.

Lemma cstring_run (l : list Z) m h :
  cstring (Some <$> l) m h =
    (match list_find (λ v, v = 0) l with Some (k, _) => Ret (take k l) | None => Exit segfault end, m, h).
Proof.
  induction l as [|v l IH]; [done|]. rewrite fmap_cons. apply wp_eq. cbn [cstring value]. wp_steps.
  cbn [list_find]. case_decide; wp_steps; [done|].
  eapply wp_of_run; [exact IH|]. by destruct (list_find _ l) as [[k y]|].
Qed.

Lemma forBelow_run fuel i b size body cells m h :
  blocks m !! b = Some cells → cells !! 0%nat = Some (Some size) →
  body m h = (Ret tt, m, h) → Z.max 0 (size - i) < Z.of_nat fuel →
  forBelow fuel i (Some b) body m h = (Ret tt, m, h).
Proof.
  intros Hb Hc Hbody. revert i. induction fuel as [|fuel IH]; intros i Hi; [lia|].
  cbn [forBelow]. unfold sizeOf, mbind, io_bind. rewrite (load_run b 0 (Some size) cells) by done. simpl.
  case_decide; [|done]. rewrite Hbody. apply IH. lia.
Qed.
Definition setBytes (size : Z) : Z := u64 (8 + u64 (4 * u64 (size - 1))).
Definition newSet (size : Z) (m : mem) : mem :=
  mkMem (<[fresh m := Some size :: replicate (Z.to_nat size) None]> (blocks m)) (S (fresh m)).
Lemma newset_run size m h :
  newset size m h =
    (if env h (Malloc (setBytes size)) then (Ret (Some (fresh m)), newSet size m, h ++ [Malloc (setBytes size)])
     else (Ret None, m, h ++ [Malloc (setBytes size)])).
Proof.
  apply wp_eq. unfold newset, malloc, alloc. wp_steps. fold (setBytes size). wp_if; wp_steps; [|done].
  unfold store. wp_steps. eapply wp_of_run; [apply block_run; apply lookup_insert_eq|]. cbv beta iota.
  rewrite decide_True by (rewrite length_replicate; lia). unfold setBlock, newSet. wp_steps. simpl.
  by rewrite insert_insert_eq.
Qed.
Lemma wp_newset size Q m h :
  Q (Ret (Some (fresh m))) (newSet size m) (h ++ [Malloc (setBytes size)]) →
  Q (Ret None) m (h ++ [Malloc (setBytes size)]) → wp (newset size) Q m h.
Proof. intros H1 H2. unfold wp. rewrite newset_run. by destruct (env _ _). Qed.
(** The loops come to their end and have changed nothing. *)
Lemma intersect_run fuel b1 b2 n1 n2 c1 c2 m h :
  blocks m !! b1 = Some c1 → c1 !! 0%nat = Some (Some n1) →
  blocks m !! b2 = Some c2 → c2 !! 0%nat = Some (Some n2) →
  Z.max 0 (Z.max n1 n2) < Z.of_nat fuel →
  intersect fuel (Some b1) (Some b2) m h =
    (Ret [None; None], m, h ++ [PrintPointers (Some b1) (Some b2)]).
Proof.
  intros Hb1 Hc1 Hb2 Hc2 Hf. unfold intersect, mbind, io_bind.
  rewrite (forBelow_run fuel 0 b1 n1 _ c1); [done|done|done| |lia].
  apply (forBelow_run fuel 0 b2 n2 _ c2); [done|done|done|lia].
Qed.

Lemma intersect_null_l fuel y m h : intersect (S fuel) None y m h = (Exit segfault, m, h).
Proof. done. Qed.
Lemma intersect_null_r fuel b n c m h :
  blocks m !! b = Some c → c !! 0%nat = Some (Some n) → 0 < n →
  intersect (S fuel) (Some b) None m h = (Exit segfault, m, h).
Proof.
  intros Hb Hc Hn. apply wp_eq. unfold intersect. cbn [forBelow]. wp_steps. unfold sizeOf at 1. wp_steps.
  eapply wp_of_run; [exact (load_run b 0 _ c m h Hb Hc)|]. cbv beta iota. cbn [value]. wp_steps. rewrite decide_True by done.
  by wp_steps.
Qed.

(** ** Properties *)
(** The assignment in main is what makes the test in [g] defined: [f] leaves the whole slice
    indeterminate, so that without it the sanitizer reports the read in [g]; with it, [g]
    returns for a one and aborts for any other value, whatever else is in the slice. *)
Theorem msan_assignment b n cells m h :
  memOk m → (b < fresh m)%nat → blocks m !! b = Some cells → length cells = n → (4 < n)%nat →
  env h (Malloc (4 * Z.of_nat n)) = true →
  let m1 := mkMem (<[b := replicate n None]> (blocks m)) (S (fresh m)) in
  let h1 := h ++ [Malloc (4 * Z.of_nat n)] in
  (f (Some b) n ;; g (Some b) n) m h = (Exit uninitialised, m1, h1) ∧
  ∀ v, (f (Some b) n ;; store (Some b) 4 (Some v) ;; g (Some b) n) m h =
    (if decide (v ≠ 1) then Exit "abort" else Ret tt,
     mkMem (<[b := <[4%nat := Some v]> (replicate n None)]> (blocks m)) (S (fresh m)), h1).
Proof.
  intros Hok Hlt Hb Hn H4 Henv m1 h1.
  assert (f (Some b) n m h = (Ret tt, m1, h1)) as Hf by (rewrite (f_run b n cells), Henv by done; done).
  assert (blocks m1 !! b = Some (replicate n None)) as Hb1 by apply lookup_insert_eq. split.
  - unfold mbind, io_bind. rewrite Hf. rewrite (g_run b n (replicate n None) None); [done|done|].
    by apply lookup_replicate_2.
  - intros v. apply wp_eq. wp_step. eapply wp_of_run; [exact Hf|]. wp_steps.
    unfold store. wp_steps. eapply wp_of_run; [exact (block_run b _ m1 h1 Hb1)|]. cbv beta iota.
    rewrite (decide_True (P:=(4 < length _)%nat)) by (rewrite length_replicate; lia).
    unfold setBlock. wp_steps.
    eapply wp_of_run.
    + eapply (g_run b n (<[4%nat := Some v]> (replicate n None)) (Some v)); [apply lookup_insert_eq|].
      apply list_lookup_insert_eq. by rewrite length_replicate.
    + simpl. by rewrite insert_insert_eq.
Qed.

(** A slice of bytes is a C string only up to a zero in it: with one, [myFunc] prints what is
    before it; without, it reads on behind the slice.  Go adds no zero to the bytes of a
    string, so that main depends on the memory behind its slices. *)
Theorem myFunc_needs_zero b l m h :
  blocks m !! b = Some (Some <$> l) →
  myFunc (Some b) m h =
    match list_find (λ v, v = 0) l with
    | Some (k, _) => (Ret tt, m, h ++ [PrintHello (take k l)])
    | None => (Exit segfault, m, h)
    end.
Proof.
  intros Hb. apply wp_eq. unfold myFunc. wp_steps. eapply wp_of_run; [exact (block_run b _ m h Hb)|]. cbv beta iota. wp_steps.
  eapply wp_of_run; [apply cstring_run|]. by destruct (list_find _ l) as [[k v]|].
Qed.

(** The program never gets to print its sets: a set that could not be allocated is read in
    [intersect], and otherwise the sets are freed before [Printf] follows the pointers to
    them.  The loops of [intersect] end, with the fuel for the larger size, and compute
    nothing. *)
Theorem cgoMain_touches_freed fuel :
  (11 ≤ fuel)%nat → ∃ m h, cgoMain fuel (mkMem ∅ 0) [] = (Exit segfault, m, h) ∧
    ∀ x y, PrintSets x y ∉ h.
Proof.
  intros Hf. set (m0 := mkMem ∅ 0).
  enough (wp (cgoMain fuel) (λ o _ h, o = Exit segfault ∧ ∀ x y, PrintSets x y ∉ h) m0 []) as Hwp.
  { unfold wp in Hwp. destruct (cgoMain fuel m0 []) as [[o m] h]. destruct Hwp as [-> ?]. eauto. }
  destruct fuel as [|fuel]; [lia|].
  assert (∀ k x y, Forall (λ e, match e with PrintSets _ _ => False | _ => True end) k → PrintSets x y ∉ k)
    as Hno by (intros k x y Hk Hin; rewrite Forall_forall in Hk; by apply Hk in Hin).
  unfold cgoMain. wp_steps. apply wp_newset; wp_steps; apply wp_newset; wp_steps.
  - eapply wp_of_run; [apply (intersect_run _ 0 1 10 5 (Some 10 :: replicate 10 None) (Some 5 :: replicate 5 None)); [done..|lia]|]. cbv beta iota. unfold free. wp_steps.
    split; [done|]. intros x y. apply Hno. by repeat constructor.
  - eapply wp_of_run; [by apply (intersect_null_r _ 0 10 (Some 10 :: replicate 10 None))|].
    split; [done|]. intros x y. apply Hno. by repeat constructor.
  - eapply wp_of_run; [apply intersect_null_l|]. split; [done|]. intros x y. apply Hno. by repeat constructor.
  - eapply wp_of_run; [apply intersect_null_l|]. split; [done|]. intros x y. apply Hno. by repeat constructor.
Qed.
End C.

Module CgoExamples.
Definition allocates (b : bool) (_ : list event) (e : event) : answer e :=
  match e with Malloc _ => b | _ => tt end.
Example msanMain_runs :
  msanMain (allocates true) (mkMem ∅ 0) [] =
    (Ret tt, mkMem {[0%nat := <[4%nat := Some 1]> (replicate 10 None)]} 2, [Malloc 40]).
Proof. reflexivity. Qed.
Example msanMain_no_memory : (msanMain (allocates false) (mkMem ∅ 0) []).1.1 = Exit segfault.
Proof. reflexivity. Qed.
Lemma msan_assignment_witness :
  (f (allocates true) (Some 0%nat) 5 ;; g (Some 0%nat) 5) (mkMem {[0%nat := replicate 5 (Some 0)]} 1) [] =
    (Exit uninitialised, mkMem {[0%nat := replicate 5 None]} 2, [Malloc 20]).
Proof.
  refine (proj1 (msan_assignment (allocates true) 0 5 (replicate 5 (Some 0))
            (mkMem {[0%nat := replicate 5 (Some 0)]} 1) [] _ _ _ _ _ _)); try reflexivity; [|simpl; lia|lia].
  intros b Hb. simpl in *. apply lookup_singleton_ne. lia.
Defined.
(** Neither string of main ends in a zero. *)
Example gcMain_overreads : (gcMain (mkMem ∅ 0) []).1.1 = Exit segfault.
Proof. reflexivity. Qed.
Lemma myFunc_needs_zero_witness :
  myFunc (Some 0%nat) (mkMem {[0%nat := [Some 104; Some 105; Some 0; Some 7]]} 1) [] =
    (Ret tt, mkMem {[0%nat := [Some 104; Some 105; Some 0; Some 7]]} 1, [PrintHello [104; 105]]).
Proof. exact (myFunc_needs_zero 0 [104; 105; 0; 7] (mkMem {[0%nat := [Some 104; Some 105; Some 0; Some 7]]} 1) [] eq_refl). Defined.
Lemma cgoMain_touches_freed_witness :
  ∃ m h, cgoMain (allocates true) 11 (mkMem ∅ 0) [] = (Exit segfault, m, h) ∧ ∀ x y, PrintSets x y ∉ h.
Proof. exact (cgoMain_touches_freed (allocates true) 11 (le_n _)). Defined.
End CgoExamples.
