(* ===== verification/Tools.v ===== *)
(** * Small programs (src/sys-lock/ with its package singlefile, src/allocate-mem/,
    src/leakybucket/test_server/, src/dlv-testing/, src/dyn-dispatch/)

    A module for each.  The host-wide lock is a transition system of processes over the
    abstract socket names of the kernel; the others are single runs. *)
From stdpp Require Import base gmap strings numbers list relations.
From S2P Require Import Prelude.
Local Open Scope Z_scope.
Set Default Proof Using "Type*".

(** ** sys-lock *)
Module SysLock.
(** The address [lock] listens on, [path.Join] of a name and a plain key. *)
Definition socketName (key : string) : string := "@singlefile/" +:+ key.

(** The kernel: which process listens on which abstract name. *)
Abbreviation kernel := (gmap string nat).
(** [net.ListenUnix] by process [pid]. *)
Definition listen (pid : nat) (name : string) (k : kernel) : kernel * option error :=
  match k !! name with
  | Some _ => (k, Some "bind: address already in use")
  | None => (<[name := pid]> k, None)
  end.
(** The unlock function: [Close] of the listener, which is nil after a failure. *)
Definition unlock (l : option string) (k : kernel) : kernel * option error :=
  match l with
  | Some name => (delete name k, None)
  | None => (k, Some "invalid argument")
  end.
(** [singlefile.Lock]: the listener and the error. *)
Definition Lock (pid : nat) (key : string) (k : kernel) : kernel * option string * option error :=
  if decide (key = "") then (k, None, Some "key must not be empty")
  else match listen pid (socketName key) k with
       | (k', None) => (k', Some (socketName key), None)
       | (k', Some e) => (k', None, Some e)
       end.
(** At the end of a process the kernel closes its sockets. *)
Definition exit (pid : nat) (k : kernel) : kernel := filter (λ nv, nv.2 ≠ pid) k.

(** *** main, as one of many processes *)
Definition key : string := "xyzzy".
Inductive pc :=
  | Start                        (* before the first Lock *)
  | Locked                       (* before the second one *)
  | Sleeping                     (* both locks taken: time.Sleep *)
  | Woken                        (* the deferred calls *)
  | Ended (msg : string).        (* log.Fatalf, or the return of main *)
Record sys := mkSys { sockets : kernel; procs : gmap nat pc }.

Inductive step : sys → sys → Prop :=
  | step_spawn k ps pid :
      ps !! pid = None → step (mkSys k ps) (mkSys k (<[pid := Start]> ps))
  | step_lock k ps pid k' l e :
      ps !! pid = Some Start → Lock pid key k = (k', l, e) →
      step (mkSys k ps)
        (match e with
         | None => mkSys k' (<[pid := Locked]> ps)
         | Some _ => mkSys (exit pid k') (<[pid := Ended "could not aquire singlefile lock"]> ps)
         end)
  | step_relock k ps pid k' l e :
      ps !! pid = Some Locked → Lock pid key k = (k', l, e) →
      step (mkSys k ps)
        (match e with
         | None => mkSys k' (<[pid := Sleeping]> ps)
         | Some _ => mkSys (exit pid k') (<[pid := Ended "relock failed"]> ps)
         end)
  | step_wake k ps pid :
      ps !! pid = Some Sleeping → step (mkSys k ps) (mkSys k (<[pid := Woken]> ps))
  | step_return k ps pid :       (* reUnlock and unlock, then the end of the process *)
      ps !! pid = Some Woken →
      step (mkSys k ps)
        (mkSys (exit pid (unlock (Some (socketName key)) k).1) (<[pid := Ended ""]> ps)).
Definition reachable (s : sys) : Prop := rtc step (mkSys ∅ ∅) s.

(** ** Lemmas *)
(** The socket is bound exactly while a process is between its two calls of [Lock]. *)
Record inv (s : sys) : Prop := {
  inv_bound : ∀ pid, sockets s !! socketName key = Some pid ↔ procs s !! pid = Some Locked;
  inv_awake : ∀ pid p, procs s !! pid = Some p → p ≠ Sleeping ∧ p ≠ Woken ∧ p ≠ Ended "";
}.
Lemma exit_lookup pid k n : exit pid k !! n = (v ← k !! n; if decide (v = pid) then None else Some v).
Proof.
  unfold exit. rewrite map_lookup_filter. destruct (k !! n) as [v|]; [|done]. simpl.
  by case_decide; case_guard; simpl in *.
Qed.
Lemma Lock_bound pid k q : k !! socketName key = Some q → Lock pid key k = (k, None, Some "bind: address already in use").
Proof. intros Hk. unfold Lock, listen. by rewrite decide_False, Hk. Qed.
Lemma Lock_free pid k :
  k !! socketName key = None → Lock pid key k = (<[socketName key := pid]> k, Some (socketName key), None).
Proof. intros Hk. unfold Lock, listen. by rewrite decide_False, Hk. Qed.
Lemma awake_insert (ps : gmap nat pc) pid p :
  (∀ q r, ps !! q = Some r → r ≠ Sleeping ∧ r ≠ Woken ∧ r ≠ Ended "") →
  p ≠ Sleeping ∧ p ≠ Woken ∧ p ≠ Ended "" →
  ∀ q r, <[pid := p]> ps !! q = Some r → r ≠ Sleeping ∧ r ≠ Woken ∧ r ≠ Ended "".
Proof. intros Hps Hp q r [[_ <-]|[_ Hr]]%lookup_insert_Some; [done|by eapply Hps]. Qed.

Lemma inv_step_lock s s' : step s s' → inv s → inv s'.
Proof.
  intros Hs [Hb Ha]. destruct Hs as [k ps pid Hp|k ps pid k' l e Hp HL|k ps pid k' l e Hp HL|k ps pid Hp|k ps pid Hp];
    simpl in *.
  - split; simpl; [|by apply awake_insert]. intros q. rewrite Hb, lookup_insert_Some.
    split; [intros Hq; right; split; [congruence|done]|]. by intros [[_ ?]|[_ ?]].
  - assert (∃ o, k !! socketName key = o) as [[q|] Hk] by by eexists.
    + rewrite (Lock_bound pid k q) in HL by done. injection HL as <- <- <-.
      assert (q ≠ pid) as Hne by (intros ->; apply Hb in Hk; congruence).
      split; simpl; [|by apply awake_insert]. intros r. rewrite exit_lookup, Hk. simpl.
      rewrite decide_False, lookup_insert_Some, <- Hb, Hk by done. naive_solver.
    + rewrite Lock_free in HL by done. injection HL as <- <- <-.
      split; simpl; [|by apply awake_insert]. intros r. rewrite lookup_insert_eq, lookup_insert_Some, <- Hb, Hk.
      naive_solver.
  - assert (k !! socketName key = Some pid) as Hk by by apply Hb.
    rewrite (Lock_bound pid k pid) in HL by done. injection HL as <- <- <-.
    split; simpl; [|by apply awake_insert]. intros r. rewrite exit_lookup, Hk. simpl.
    rewrite decide_True, lookup_insert_Some, <- Hb, Hk by done. naive_solver.
  - by destruct (Ha _ _ Hp).
  - by destruct (Ha _ _ Hp) as (_&?&_).
Qed.
Lemma inv_reachable_lock s : reachable s → inv s.
Proof.
  intros Hr. unfold reachable in Hr. remember (mkSys ∅ ∅) as s0 eqn:E.
  assert (inv s0) as Hi by (subst; by split). clear E. induction Hr; eauto using inv_step_lock.
Qed.

(** C17: The lock excludes, itself too: however many processes run the program and however they
    interleave, at most one is between its calls of [Lock] at a time, and it is the one
    that listens; but since no process ever gets the second lock, none reaches its sleep or
    the deferred unlocks, and every one that ends has failed.  The lock it leaves behind
    is free again. *)
Theorem lock_excludes s :
  reachable s →
  (∀ p q, procs s !! p = Some Locked → procs s !! q = Some Locked → p = q) ∧
  (∀ p st, procs s !! p = Some st → st ≠ Sleeping ∧ st ≠ Woken ∧ st ≠ Ended "") ∧
  (∀ p, procs s !! p = Some Locked → ∃ s', step s s' ∧
     procs s' !! p = Some (Ended "relock failed") ∧ sockets s' !! socketName key = None).
Proof.
  intros [Hb Ha]%inv_reachable_lock. split_and!; [|done|].
  - intros p q Hp%Hb Hq%Hb. congruence.
  - intros p Hp. destruct s as [k ps]. simpl in *. pose proof Hp as Hk. apply Hb in Hk.
    eexists. split; [eapply (step_relock k ps p _ None (Some _)); [done|by eapply Lock_bound]|].
    simpl. split; [apply lookup_insert_eq|]. rewrite exit_lookup, Hk. simpl. by rewrite decide_True.
Qed.

(** Two processes: the second one fails while the first holds the lock. *)
Definition two : sys :=
  mkSys {[socketName key := 1%nat]} (<[2%nat := Ended "could not aquire singlefile lock"]> (<[1%nat := Locked]> ∅)).
Lemma two_reachable : reachable two.
Proof.
  unfold reachable. eapply rtc_l; [by apply (step_spawn _ _ 1)|].
  eapply rtc_l; [by eapply (step_lock _ _ 1)|]. eapply rtc_l; [by apply (step_spawn _ _ 2)|].
  eapply rtc_l; [by eapply (step_lock _ _ 2)|].
  match goal with |- rtc step ?a _ => assert (a = two) as -> by reflexivity end. apply rtc_refl.
Qed.
Lemma lock_excludes_witness :
  ∃ s', step two s' ∧ procs s' !! 1%nat = Some (Ended "relock failed") ∧ sockets s' !! socketName key = None.
Proof. exact (proj2 (proj2 (lock_excludes two two_reachable)) 1%nat eq_refl). Defined.
End SysLock.

(** ** allocate-mem *)
Module AllocateMem.
(** The allocator of cznic/memory hands out byte slices; a slice is known by its address. *)
Record bytes := mkBytes { addr : Z; data : list Z; capacity : Z }.
Inductive event :=
  | Calloc (n : Z)
  | LogBytes (b : list Z) (len cap : Z)
  | Free (b : Z).
Definition answer (e : event) : Type :=
  match e with Calloc _ => result bytes | Free _ => option error | LogBytes _ _ _ => unit end.

Section Main.
Context (env : list event → ∀ e, answer e).
(** [copy(dst, src)] *)
Definition copy (dst src : list Z) : list Z := take (length dst) src ++ drop (length src) dst.
Definition hello : list Z :=
  (λ c, Z.of_nat (Ascii.nat_of_ascii c)) <$> String.list_ascii_of_string "hello world".
Definition main : io unit event unit :=
  r ← call env (Calloc (Z.of_nat (length hello)));
  match r with
  | inr e => panic e
  | inl b =>
      let d := copy (data b) hello in
      emit (LogBytes d (Z.of_nat (length d)) (capacity b)) ;;
      err ← call env (Free (addr b));
      match err with Some e => panic e | None => mret tt end
  end.

(** What is logged is the greeting, if the allocator gives a slice of the length it was asked
    for, and what is freed is what was allocated. *)
Lemma copy_same_length dst src : length dst = length src → copy dst src = src.
Proof. intros Hl. unfold copy. rewrite Hl, firstn_all. rewrite drop_ge by lia. apply app_nil_r. Qed.
Lemma allocate_run b :
  env [] (Calloc 11) = inl b → length (data b) = 11%nat →
  main tt [] =
    (match env [Calloc 11; LogBytes hello 11 (capacity b)] (Free (addr b)) with
     | Some e => Panic e | None => Ret tt end,
     tt, [Calloc 11; LogBytes hello 11 (capacity b); Free (addr b)]).
Proof.
  intros Hc Hl. unfold main, mbind, io_bind. cbn [call]. change (Z.of_nat (length hello)) with 11.
  rewrite Hc. rewrite copy_same_length by done. simpl. by destruct (env _ (Free _)).
Qed.
End Main.
End AllocateMem.

(** ** leakybucket/test_server *)
Module TestServer.
Inductive event :=
  | Handle (pattern : string)
  | ListenAndServe (a : string)
  | RangeHeader                    (* the order in which Go runs through the map *)
  | Fprint (s : string).
(** The handlers: the headers of a request are a map to lists of values. *)
Section Handlers.
Context (order : gmap string (list string) → list (string * list string)).

Definition hello : io unit event unit := emit (Fprint ("hello" +:+ String (Ascii.ascii_of_nat 10) "")).
Definition headerLine (name h : string) : string :=
  name +:+ ": " +:+ h +:+ String (Ascii.ascii_of_nat 10) "".
Fixpoint printValues (name : string) (hs : list string) : io unit event unit :=
  match hs with [] => mret tt | h :: hs => emit (Fprint (headerLine name h)) ;; printValues name hs end.
Fixpoint printHeaders (l : list (string * list string)) : io unit event unit :=
  match l with [] => mret tt | (name, hs) :: l => printValues name hs ;; printHeaders l end.
Definition headers (header : gmap string (list string)) : io unit event unit :=
  emit RangeHeader ;; printHeaders (order header).
Definition main : io unit event unit :=
  emit (Handle "/hello") ;; emit (Handle "/headers") ;; emit (ListenAndServe ":8090").

(** What was printed. *)
Definition printed (h : list event) : list string :=
  omap (λ e, match e with Fprint s => Some s | _ => None end) h.
Definition linesOf (l : list (string * list string)) : list string :=
  l ≫= λ '(name, hs), headerLine name <$> hs.

Lemma printValues_run name hs h :
  printValues name hs tt h = (Ret tt, tt, h ++ (Fprint ∘ headerLine name <$> hs)).
Proof.
  revert h. induction hs as [|x hs IH]; intros h; [by rewrite app_nil_r|].
  cbn [printValues]. unfold mbind, io_bind. cbn [emit]. by rewrite IH, <- app_assoc.
Qed.
Lemma printHeaders_run l h : printHeaders l tt h = (Ret tt, tt, h ++ (Fprint <$> linesOf l)).
Proof.
  revert h. induction l as [|[name hs] l IH]; intros h; [by rewrite app_nil_r|].
  cbn [printHeaders]. unfold mbind, io_bind. rewrite printValues_run, IH, <- app_assoc.
  unfold linesOf. simpl. by rewrite fmap_app, <- list_fmap_compose.
Qed.
Lemma printed_lines h ls : printed (h ++ (Fprint <$> ls)) = printed h ++ ls.
Proof.
  unfold printed. rewrite omap_app. f_equal. induction ls as [|x ls IH]; [done|]. simpl. by f_equal.
Qed.

(** The headers page has every value of every header of the request exactly once, whatever
    the order in which the map is run through. *)
Theorem headers_complete header h :
  order header ≡ₚ map_to_list header →
  ∃ h', headers header tt h = (Ret tt, tt, h') ∧
    ∃ ls, printed h' = printed h ++ ls ∧ ls ≡ₚ linesOf (map_to_list header).
Proof.
  intros Ho. eexists. split; [unfold headers, mbind, io_bind; simpl; apply printHeaders_run|].
  eexists. rewrite printed_lines. split.
  - f_equal. unfold printed. rewrite omap_app. apply app_nil_r.
  - unfold linesOf. by rewrite Ho.
Qed.
End Handlers.
Lemma headers_complete_witness :
  ∃ h', headers map_to_list {["Accept" := ["a"; "b"]]} tt [] = (Ret tt, tt, h') ∧
    ∃ ls, printed h' = ls ∧ ls ≡ₚ linesOf [("Accept", ["a"; "b"])].
Proof.
  destruct (headers_complete map_to_list {["Accept" := ["a"; "b"]]} [] (reflexivity _)) as (h'&Hrun&ls&Hp&Hl).
  exists h'. split; [exact Hrun|]. exists ls. split; [exact Hp|].
  rewrite Hl, map_to_list_singleton. reflexivity.
Defined.
End TestServer.

(** ** dlv-testing *)
Module DlvTesting.
Inductive event := Stat (p : string) | Println (s : string).
Definition answer (e : event) : Type := match e with Stat _ => option error | _ => unit end.
Definition main (env : list event → ∀ e, answer e) : io unit event unit :=
  err ← call env (Stat "/tmp/file");
  match err with
  | Some e => fatal e
  | None => emit (Println "finished")
  end.
Example main_finishes (env : list event → ∀ e, answer e) :
  env [] (Stat "/tmp/file") = None → main env tt [] = (Ret tt, tt, [Stat "/tmp/file"; Println "finished"]).
Proof. intros He. unfold main, mbind, io_bind. simpl. by rewrite He. Qed.
End DlvTesting.

(** ** dyn-dispatch *)
Module DynDispatch.
(** The interface, its two implementations, and a value of either behind it. *)
Class Sleeper (A : Type) := Sleep : A → list string.
Inductive Cat := mkCat.
Inductive Dog := mkDog.
#[export] Instance Cat_Sleeper : Sleeper Cat := λ _, [].
#[export] Instance Dog_Sleeper : Sleeper Dog := λ _, [].
Inductive dyn := Dyn (A : Type) (impl : Sleeper A) (x : A).
Definition sleepDyn (d : dyn) : list string := match d with Dyn A impl x => @Sleep A impl x end.
Definition pets : list dyn := [Dyn Cat _ mkCat; Dyn Dog _ mkDog].
Definition main : list string := pets ≫= sleepDyn.
Example main_quiet : main = [].
Proof. reflexivity. Qed.
End DynDispatch.
