(* ===== verification/Bloom.v ===== *)
(** * The Bloom filter (src/bloomfilter-explore/main.go)

    The filter over three hash objects that are written to, read and reset.  FNV-1
    and FNV-1a are computed as in hash/fnv; murmur3 is a parameter. *)
From stdpp Require Import base strings numbers list.
From S2P Require Import Prelude GoStrings.
Local Open Scope Z_scope.

(** ** Hash objects *)
(** A [hash.Hash64]: its function of all bytes written since the last reset. *)
Record Hash64 := mkHash { sumOf : list Z → Z; written : list Z }.
Definition hashWrite (b : list Z) (h : Hash64) : Hash64 := mkHash (sumOf h) (written h ++ b).
Definition Sum64 (h : Hash64) : Z := sumOf h (written h).
Definition hashReset (h : Hash64) : Hash64 := mkHash (sumOf h) [].

Definition fnvOffset : Z := 14695981039346656037.
Definition fnvPrime : Z := 1099511628211.
Definition fnv1 (bs : list Z) : Z := foldl (λ h b, Z.lxor (u64 (h * fnvPrime)) b) fnvOffset bs.
Definition fnv1a (bs : list Z) : Z := foldl (λ h b, u64 (Z.lxor h b * fnvPrime)) fnvOffset bs.

(** ** The filter *)
Record BloomFilter := mkBloom {
  bitset : list bool;
  k : nat;
  n : Z;
  m : Z;
  hashFuncs : list Hash64;
}.

Section Bloom.
Context (murmur3 : list Z → Z).

Definition New (size : Z) : BloomFilter :=
  mkBloom (replicate (Z.to_nat size) false) 3 0 size
    [mkHash murmur3 []; mkHash fnv1 []; mkHash fnv1a []].

(** The sums, and the hash objects after the resets. *)
Definition hashValues (item : list Z) (bf : BloomFilter) : list Z * BloomFilter :=
  let fs := hashWrite item <$> hashFuncs bf in
  (Sum64 <$> fs, mkBloom (bitset bf) (k bf) (n bf) (m bf) (hashReset <$> fs)).

(** [uint(hashes[i]) % bf.m] *)
Definition position (hashes : list Z) (i : nat) (bf : BloomFilter) : outcome nat :=
  match hashes !! i with
  | None => Panic "index out of range"
  | Some h =>
      if decide (m bf = 0) then Panic "integer divide by zero"
      else
        let p := h `mod` m bf in
        if decide (p < Z.of_nat (length (bitset bf))) then Ret (Z.to_nat p)
        else Panic "index out of range"
  end.

Definition setBit (p : nat) (bf : BloomFilter) : BloomFilter :=
  mkBloom (<[p := true]> (bitset bf)) (k bf) (n bf) (m bf) (hashFuncs bf).
(** The loop of [Add] from [i] on, with [c] rounds to go. *)
Fixpoint addLoop (hashes : list Z) (i c : nat) (bf : BloomFilter) : outcome BloomFilter :=
  match c with
  | O => Ret bf
  | S c =>
      match position hashes i bf with
      | Ret p => addLoop hashes (S i) c (setBit p bf)
      | Panic msg => Panic msg
      | Exit msg => Exit msg
      end
  end.
Definition Add (item : list Z) (bf : BloomFilter) : outcome BloomFilter :=
  let '(hashes, bf) := hashValues item bf in
  match addLoop hashes 0 (k bf) bf with
  | Ret bf => Ret (mkBloom (bitset bf) (k bf) (u64 (n bf + 1)) (m bf) (hashFuncs bf))
  | Panic msg => Panic msg
  | Exit msg => Exit msg
  end.

Fixpoint testLoop (hashes : list Z) (i c : nat) (bf : BloomFilter) : outcome bool :=
  match c with
  | O => Ret true
  | S c =>
      match position hashes i bf with
      | Ret p => if decide (bitset bf !! p = Some true) then testLoop hashes (S i) c bf else Ret false
      | Panic msg => Panic msg
      | Exit msg => Exit msg
      end
  end.
Definition TestIsPresent (item : list Z) (bf : BloomFilter) : outcome bool * BloomFilter :=
  let '(hashes, bf) := hashValues item bf in
  (testLoop hashes 0 (k bf) bf, bf).

(** Items added one after the other. *)
Fixpoint addAll (items : list (list Z)) (bf : BloomFilter) : outcome BloomFilter :=
  match items with
  | [] => Ret bf
  | item :: items =>
      match Add item bf with
      | Ret bf => addAll items bf
      | Panic msg => Panic msg
      | Exit msg => Exit msg
      end
  end.

(** The three answers that main prints. *)
Definition main : outcome (list bool) :=
  match addAll (replicate 20 (to_bytes "hello")) (New 20) with
  | Ret bf =>
      match TestIsPresent (to_bytes "hello") bf with
      | (Ret b1, bf) =>
          match TestIsPresent (to_bytes "world") bf with
          | (Ret b2, bf) =>
              match TestIsPresent (to_bytes "hi") bf with
              | (Ret b3, _) => Ret [b1; b2; b3]
              | (Panic msg, _) => Panic msg
              | (Exit msg, _) => Exit msg
              end
          | (Panic msg, _) => Panic msg
          | (Exit msg, _) => Exit msg
          end
      | (Panic msg, _) => Panic msg
      | (Exit msg, _) => Exit msg
      end
  | Panic msg => Panic msg
  | Exit msg => Exit msg
  end.

(** ** Lemmas *)
(** The filter between calls: the hash objects are reset, the sizes agree. *)
Record wf (bf : BloomFilter) : Prop := {
  wf_hash : hashFuncs bf = [mkHash murmur3 []; mkHash fnv1 []; mkHash fnv1a []];
  wf_k : k bf = 3%nat;
  wf_m : 0 < m bf;
  wf_size : Z.of_nat (length (bitset bf)) = m bf;
}.
Definition sums (item : list Z) : list Z := [murmur3 item; fnv1 item; fnv1a item].
Definition bitOf (h : Z) (bf : BloomFilter) : nat := Z.to_nat (h `mod` m bf).
(** The bits of an item are set. *)
Definition present (item : list Z) (bf : BloomFilter) : Prop :=
  ∀ h, h ∈ sums item → bitset bf !! bitOf h bf = Some true.

Lemma hashValues_wf item bf : wf bf → hashValues item bf = (sums item, bf).
Proof. intros [Hf _ _ _]. unfold hashValues. destruct bf; simpl in *. by subst. Qed.
Lemma position_wf hashes i h bf :
  wf bf → hashes !! i = Some h → position hashes i bf = Ret (bitOf h bf).
Proof.
  intros [_ _ Hm Hs] Hh. unfold position, bitOf. rewrite Hh, decide_False by lia.
  pose proof (Z.mod_pos_bound h (m bf) Hm). by rewrite decide_True by lia.
Qed.
Lemma setBit_wf p bf : wf bf → wf (setBit p bf).
Proof. intros [Hf Hk Hm Hs]. split; simpl; [done|done|done|]. by rewrite length_insert. Qed.
Lemma bitOf_lt h bf : wf bf → (bitOf h bf < length (bitset bf))%nat.
Proof. intros [_ _ Hm Hs]. unfold bitOf. pose proof (Z.mod_pos_bound h (m bf) Hm). lia. Qed.
Lemma setBit_mono p bf q : bitset bf !! q = Some true → bitset (setBit p bf) !! q = Some true.
Proof.
  intros Hq. simpl. destruct (decide (p = q)) as [->|]; [|by rewrite list_lookup_insert_ne].
  apply list_lookup_insert_eq. by eapply lookup_lt_Some.
Qed.

(** The filter grows to one with the item; nothing set is cleared. *)
Definition grows (bf bf' : BloomFilter) : Prop :=
  wf bf' ∧ m bf' = m bf ∧ ∀ q, bitset bf !! q = Some true → bitset bf' !! q = Some true.
Lemma grows_setBit p bf : wf bf → grows bf (setBit p bf).
Proof. intros Hwf. split; [by apply setBit_wf|]. split; [done|]. intros q. apply setBit_mono. Qed.
Lemma grows_trans a b c : grows a b → grows b c → grows a c.
Proof. intros (_&Hm&Hb) (?&Hm'&Hb'). split; [done|]. split; [congruence|]. auto. Qed.
Lemma present_grows item bf bf' : grows bf bf' → present item bf → present item bf'.
Proof. intros (_&Hm&Hb) Hp h Hh. unfold bitOf. rewrite Hm. by apply Hb, Hp. Qed.

Lemma Add_spec item bf :
  wf bf → ∃ bf', Add item bf = Ret bf' ∧ grows bf bf' ∧ present item bf' ∧ n bf' = u64 (n bf + 1).
Proof.
  intros Hwf. unfold Add. rewrite hashValues_wf, (wf_k _ Hwf) by done. cbn [addLoop].
  pose proof (setBit_wf (bitOf (murmur3 item) bf) bf Hwf) as Hwf1. set (b1 := setBit _ bf) in *.
  pose proof (setBit_wf (bitOf (fnv1 item) bf) b1 Hwf1) as Hwf2. set (b2 := setBit _ b1) in *.
  rewrite (position_wf _ _ (murmur3 item)) by done. fold b1.
  rewrite (position_wf _ _ (fnv1 item)) by done. change (bitOf (fnv1 item) b1) with (bitOf (fnv1 item) bf).
  fold b2. rewrite (position_wf _ _ (fnv1a item)) by done.
  change (bitOf (fnv1a item) b2) with (bitOf (fnv1a item) bf).
  set (b3 := setBit _ b2). eexists. split; [done|].
  assert (grows bf b3) as Hg.
  { eapply grows_trans; [by apply (grows_setBit (bitOf (murmur3 item) bf))|].
    eapply grows_trans; [by apply (grows_setBit (bitOf (fnv1 item) bf))|by apply grows_setBit]. }
  split; [|split; [|done]].
  - destruct Hg as ([Hf Hk Hm Hs]&?&?). split; [by split|done].
  - intros h Hh. unfold sums in Hh. change (bitset b3 !! bitOf h bf = Some true).
    assert (∀ h' b, wf b → m b = m bf → bitset (setBit (bitOf h' bf) b) !! bitOf h' bf = Some true) as Hset.
    { intros h' b Hb Hm. simpl. apply list_lookup_insert_eq. pose proof (bitOf_lt h' b Hb) as Hl.
      unfold bitOf in *. by rewrite Hm in Hl. }
    repeat (apply elem_of_cons in Hh as [->|Hh]); [| | |by apply elem_of_nil in Hh].
    + by apply setBit_mono, setBit_mono, Hset.
    + by apply setBit_mono, Hset.
    + by apply Hset.
Qed.
Lemma Test_spec item bf :
  wf bf → ∃ b, TestIsPresent item bf = (Ret b, bf) ∧ (b = true ↔ present item bf).
Proof.
  intros Hwf. unfold TestIsPresent. rewrite hashValues_wf, (wf_k _ Hwf) by done. cbn [testLoop].
  rewrite (position_wf _ _ (murmur3 item)) by done.
  rewrite (position_wf _ _ (fnv1 item)), (position_wf _ _ (fnv1a item)) by done.
  unfold present, sums. setoid_rewrite elem_of_cons. setoid_rewrite elem_of_cons.
  setoid_rewrite list_elem_of_singleton.
  repeat case_decide; eexists; (split; [done|]); split; naive_solver.
Qed.

Lemma New_wf size : 0 < size → wf (New size).
Proof. intros Hs. split; [done|done|done|]. simpl. rewrite length_replicate. lia. Qed.
Lemma addAll_spec items bf :
  wf bf → ∃ bf', addAll items bf = Ret bf' ∧ grows bf bf' ∧
    (∀ item, item ∈ items → present item bf') ∧ n bf' = foldl (λ c _, u64 (c + 1)) (n bf) items.
Proof.
  revert bf. induction items as [|item items IH]; intros bf Hwf; simpl.
  { exists bf. split; [done|]. split; [done|]. split; [|done]. intros x Hx. by apply elem_of_nil in Hx. }
  destruct (Add_spec item bf Hwf) as (b1&->&Hg1&Hp1&Hn1).
  destruct (IH b1 (proj1 Hg1)) as (b2&->&Hg2&Hp2&Hn2).
  exists b2. split; [done|]. split; [by eapply grows_trans|]. split; [|by rewrite <- Hn1].
  intros x [->|Hx]%elem_of_cons; [by eapply present_grows|by apply Hp2].
Qed.

(** C26: The filter has no false negatives: after any sequence of additions to a new
    filter of positive size, none of which panics, the test answers yes for every
    item added, and in general exactly when the three bits of the item are set; an
    empty filter holds nothing, and the test changes nothing. *)
Theorem no_false_negatives size items :
  0 < size →
  ∃ bf, addAll items (New size) = Ret bf ∧
    (∀ item, item ∈ items → TestIsPresent item bf = (Ret true, bf)) ∧
    (∀ item, ∃ b, TestIsPresent item bf = (Ret b, bf) ∧ (b = true ↔ present item bf)) ∧
    (items = [] → ∀ item, TestIsPresent item bf = (Ret false, bf)).
Proof.
  intros Hs. destruct (addAll_spec items (New size) (New_wf size Hs)) as (bf&Hadd&(Hwf&Hm&_)&Hp&_).
  exists bf. split; [done|]. split; [|split].
  - intros item Hi. destruct (Test_spec item bf Hwf) as (b&->&Hb). by rewrite (proj2 Hb (Hp item Hi)).
  - intros item. by apply Test_spec.
  - intros -> item. simpl in Hadd. injection Hadd as <-.
    destruct (Test_spec item (New size) Hwf) as (b&->&Hb). destruct b; [|done].
    destruct Hb as [Hb _]. specialize (Hb eq_refl (murmur3 item) (list_elem_of_here _ _)).
    simpl in Hb. apply lookup_replicate in Hb as [? _]. done.
Qed.
(** The first answer is yes whatever murmur3 computes; the others may be false positives. *)
Lemma main_found : ∃ b2 b3, main = Ret [true; b2; b3].
Proof.
  destruct (addAll_spec (replicate 20 (to_bytes "hello")) (New 20) (New_wf 20 ltac:(lia)))
    as (bf&Hadd&(Hwf&_&_)&Hp&_).
  unfold main. rewrite Hadd. destruct (Test_spec (to_bytes "hello") bf Hwf) as (b1&->&Hb1).
  destruct (Test_spec (to_bytes "world") bf Hwf) as (b2&->&_).
  destruct (Test_spec (to_bytes "hi") bf Hwf) as (b3&->&_). exists b2, b3.
  rewrite (proj2 Hb1); [done|]. apply Hp. apply elem_of_replicate. by split.
Qed.
End Bloom.

Module BloomExamples.
Definition bytes (s : string) : list Z := to_bytes s.
Example fnv_values : fnv1 (bytes "a") = 12638153115695167422 ∧ fnv1a (bytes "a") = 12638187200555641996.
Proof. vm_compute. done. Qed.
Lemma no_false_negatives_witness :
  ∃ bf, addAll [bytes "hello"] (New fnv1 20) = Ret bf ∧ TestIsPresent (bytes "hello") bf = (Ret true, bf).
Proof.
  destruct (no_false_negatives fnv1 20 [bytes "hello"]) as (bf&H1&H2&_); [lia|].
  exists bf. split; [exact H1|]. apply H2. left.
Defined.
End BloomExamples.
