(* ===== verification/Aes.v ===== *)
(** * Block-wise encryption (src/aes-explore/aes-exploration-00.go)

    The key, the padding, the loops over blocks, base64 and main, with crypto/aes behind an
    interface: a block cipher whose decryption undoes its encryption. *)
From stdpp Require Import base strings numbers list.
From S2P Require Import Prelude.
Local Open Scope Z_scope.
Set Default Proof Using "Type*".

Abbreviation bytes := (list Z).
Definition aesKeyLen : nat := 32.
Definition BlockSize : nat := 16.

(** What [aes.NewCipher] gives for a key: the two directions on one block. *)
Class BlockCipher := {
  Encrypt : bytes → bytes → bytes;
  Decrypt : bytes → bytes → bytes;
}.
Class BlockCipherLaws `{BlockCipher} := {
  Encrypt_length key b : length b = BlockSize → length (Encrypt key b) = BlockSize;
  Decrypt_Encrypt key b : length b = BlockSize → Decrypt key (Encrypt key b) = b;
}.

(** ** Keys *)
(** [getAESKey] from the two reads of the random source: the bytes of the second one
    are all overwritten. *)
Definition getAESKey (seed key : result bytes) : result bytes :=
  match seed with
  | inr e => inr "could not get 256-bit data"
  | inl seed =>
      match key with
      | inr e => inr "could not get 256-bit data"
      | inl aesKey =>
          inl (imap (λ i _, Z.lxor (Z.of_nat i `mod` 256) (default 0 (seed !! i))) aesKey)
      end
  end.

Section Aes.
Context `{BlockCipher}.

(** [aes.NewCipher] fails on other lengths. *)
Definition validKey (key : bytes) : bool :=
  bool_decide (length key = 16%nat ∨ length key = 24%nat ∨ length key = 32%nat).

(** The loop over blocks, [fuel] of them at most; slicing past the end panics. *)
Fixpoint blocks (f : bytes → bytes) (fuel : nat) (src : bytes) : outcome bytes :=
  match src, fuel with
  | [], _ => Ret []
  | _, O => Panic "out of fuel"
  | _, S fuel =>
      if decide (length src < BlockSize)%nat then Panic "slice bounds out of range"
      else match blocks f fuel (drop BlockSize src) with
           | Ret out => Ret (f (take BlockSize src) ++ out)
           | Panic msg => Panic msg
           | Exit msg => Exit msg
           end
  end.

Definition padSize (n : nat) : nat := n + (aesKeyLen - n `mod` aesKeyLen).
(** [copy] into a zeroed array of the padded size. *)
Definition pad (plainText : bytes) : bytes :=
  plainText ++ replicate (padSize (length plainText) - length plainText) 0.

Definition aesEncrypt (aesKey plainText : bytes) : outcome (result bytes) :=
  if validKey aesKey then
    let padded := pad plainText in
    match blocks (Encrypt aesKey) (length padded) padded with
    | Ret out => Ret (inl out)
    | Panic msg => Panic msg
    | Exit msg => Exit msg
    end
  else Ret (inr "NewCipher").

Definition aesDecrypt (aesKey cipherText : bytes) : outcome (result bytes) :=
  if validKey aesKey then
    match blocks (Decrypt aesKey) (length cipherText) cipherText with
    | Ret out => Ret (inl out)
    | Panic msg => Panic msg
    | Exit msg => Exit msg
    end
  else Ret (inr "NewCipher").

(** ** Base64 and main *)
(** The alphabet of [base64.StdEncoding]. *)
Definition base64Char (v : Z) : Z :=
  if decide (v < 26) then 65 + v else if decide (v < 52) then 97 + (v - 26)
  else if decide (v < 62) then 48 + (v - 52) else if decide (v = 62) then 43 else 47.
Definition padChar : Z := 61.
Fixpoint base64Encode (src : bytes) : bytes :=
  match src with
  | a :: b :: c :: rest =>
      base64Char (a `div` 4) :: base64Char ((a `mod` 4) * 16 + b `div` 16) ::
      base64Char ((b `mod` 16) * 4 + c `div` 64) :: base64Char (c `mod` 64) :: base64Encode rest
  | [a; b] => [base64Char (a `div` 4); base64Char ((a `mod` 4) * 16 + b `div` 16);
               base64Char ((b `mod` 16) * 4); padChar]
  | [a] => [base64Char (a `div` 4); base64Char ((a `mod` 4) * 16); padChar; padChar]
  | [] => []
  end.
Definition EncodedLen (n : nat) : nat := (n + 2) `div` 3 * 4.
(** The encoding written into an array of its length. *)
Definition getBase64 (val : bytes) : bytes :=
  let aesKeyBase64 := replicate (EncodedLen (length val)) 0 in
  let encoded := base64Encode val in
  encoded ++ drop (length encoded) aesKeyBase64.

Inductive line :=
  | PlainText (b : bytes)
  | KeyBase64 (b : bytes) | Key (b : bytes)
  | CipherBase64 (b : bytes) | Cipher (b : bytes)
  | DecryptedText (b : bytes) | Decrypted (b : bytes).
Inductive event := Printf (l : line) | ReadRandom.
Definition answer (e : event) : Type :=
  match e with ReadRandom => result bytes | _ => unit end.

Section Main.
Context (env : list event → ∀ e, answer e).
Abbreviation aio := (io unit event).
Abbreviation do e := (call env e).
Definition runOutcome {A} (o : outcome A) : aio A :=
  match o with Ret a => mret a | Panic msg => panic msg | Exit msg => fatal msg end.
Definition orFatal {A} (r : result A) : aio A :=
  match r with inl a => mret a | inr err => fatal err end.
Definition main (plainText : bytes) : aio unit :=
  emit (Printf (PlainText plainText)) ;;
  seed ← do ReadRandom;
  key ← match seed with inl _ => do ReadRandom | inr e => mret (inr e) end;
  aesKey ← orFatal (getAESKey seed key);
  emit (Printf (KeyBase64 (getBase64 aesKey))) ;;
  emit (Printf (Key aesKey)) ;;
  r ← runOutcome (aesEncrypt aesKey plainText);
  cipherText ← orFatal r;
  emit (Printf (CipherBase64 (getBase64 cipherText))) ;;
  emit (Printf (Cipher cipherText)) ;;
  r ← runOutcome (aesDecrypt aesKey cipherText);
  decPlainText ← orFatal r;
  emit (Printf (DecryptedText decPlainText)) ;;
  emit (Printf (Decrypted decPlainText)).
End Main.

(** ** Lemmas *)
Lemma EncodedLen_step n : EncodedLen (S (S (S n))) = (4 + EncodedLen n)%nat.
Proof.
  unfold EncodedLen. replace (S (S (S n)) + 2)%nat with (n + 2 + 1 * 3)%nat by lia.
  rewrite Nat.div_add by lia. lia.
Qed.
(** The array has exactly the room that the encoding needs. *)
Lemma base64Encode_length src : length (base64Encode src) = EncodedLen (length src).
Proof.
  assert (∀ n src, length src ≤ n → length (base64Encode src) = EncodedLen (length src))%nat as Hlen.
  { clear src. induction n as [|n IH]; intros [|a [|b [|c src]]] Hn; try done; simpl in Hn; [lia|].
    cbn [base64Encode length]. rewrite EncodedLen_step, IH by lia. lia. }
  by apply (Hlen (length src)).
Qed.
Lemma getBase64_encoded val : getBase64 val = base64Encode val.
Proof.
  unfold getBase64. rewrite base64Encode_length, drop_ge; [by rewrite app_nil_r|].
  by rewrite length_replicate.
Qed.
Lemma pad_length p : ∃ c, length (pad p) = (c * BlockSize)%nat ∧ (length p < length (pad p))%nat ∧
  (length (pad p) ≤ length p + 32)%nat ∧ (2 | c)%nat.
Proof.
  unfold pad, padSize, aesKeyLen, BlockSize. rewrite length_app, length_replicate.
  set (n := length p). pose proof (Nat.mod_upper_bound n 32 ltac:(lia)) as Hm.
  pose proof (Nat.div_mod_eq n 32) as Hd. exists (2 * (n `div` 32 + 1))%nat. split_and!; [lia..|].
  exists (n `div` 32 + 1)%nat. lia.
Qed.

(** Decrypting block by block undoes encrypting block by block. *)
Lemma blocks_inverse (f g : bytes → bytes) c src fuel fuel' :
  (∀ b, length b = BlockSize → length (f b) = BlockSize ∧ g (f b) = b) →
  length src = (c * BlockSize)%nat → (c ≤ fuel)%nat → (c ≤ fuel')%nat →
  ∃ out, blocks f fuel src = Ret out ∧ length out = length src ∧ blocks g fuel' out = Ret src.
Proof.
  intros Hfg. revert src fuel fuel'. induction c as [|c IH]; intros src fuel fuel' Hlen Hf Hf'.
  { destruct src; [|done]. exists []. destruct fuel, fuel'; done. }
  destruct fuel as [|fuel], fuel' as [|fuel']; [lia..|].
  assert (length (take BlockSize src) = BlockSize) as Ht by (rewrite length_take; lia).
  destruct (Hfg _ Ht) as [Hl Hg].
  destruct (IH (drop BlockSize src) fuel fuel') as (out&Hout&Hlo&Hback); [rewrite length_drop; lia|lia|lia|].
  exists (f (take BlockSize src) ++ out). split_and!.
  - destruct src as [|x src]; [simpl in Hlen; unfold BlockSize in Hlen; lia|].
    cbn [blocks]. rewrite decide_False by lia. by rewrite Hout.
  - rewrite length_app, Hl, Hlo, length_drop. lia.
  - assert (∃ x l, f (take BlockSize src) ++ out = x :: l) as (x&l&Hx).
    { destruct (f (take BlockSize src)); [done|]. by do 2 eexists. }
    rewrite Hx. cbn [blocks]. rewrite <- Hx. rewrite decide_False by (rewrite length_app; lia).
    rewrite drop_app_length', take_app_length' by done. rewrite Hback, Hg. by rewrite take_drop.
Qed.

Section Laws.
Context `{!BlockCipherLaws} (env : list event → ∀ e, answer e).
Abbreviation main := (main env).

Lemma encrypt_decrypts key p :
  validKey key = true → ∃ c z, aesEncrypt key p = Ret (inl c) ∧ length c = length (pad p) ∧
    aesDecrypt key c = Ret (inl (p ++ replicate z 0)) ∧ (1 ≤ z ≤ 32)%nat.
Proof.
  unfold aesEncrypt, aesDecrypt. intros ->. destruct (pad_length p) as (c&Hc&Hlt&Hle&_).
  assert (c ≤ length (pad p))%nat as Hfuel by (unfold BlockSize in *; lia).
  destruct (blocks_inverse (Encrypt key) (Decrypt key) c (pad p) (length (pad p)) (length (pad p)))
    as (out&Hout&Hlo&Hback); [|done|done|done|].
  { intros b Hb. split; [by apply Encrypt_length|by apply Decrypt_Encrypt]. }
  rewrite Hout. exists out, (padSize (length p) - length p)%nat. split; [done|]. split; [done|].
  rewrite Hlo, Hback. split; [done|]. unfold pad in *. rewrite length_app, length_replicate in *. lia.
Qed.

(** Encryption is undone by decryption up to the padding: with a key of a legal
    length both return without a panic, and the result is the plain text followed by
    between one and thirty-two zero bytes, which are not removed; with another key
    both fail. *)
Theorem decrypt_encrypt key p :
  (validKey key = true → ∃ c z, aesEncrypt key p = Ret (inl c) ∧ length c = length (pad p) ∧
     aesDecrypt key c = Ret (inl (p ++ replicate z 0)) ∧ (1 ≤ z ≤ 32)%nat) ∧
  (validKey key = false → aesEncrypt key p = Ret (inr "NewCipher") ∧
     aesDecrypt key p = Ret (inr "NewCipher")).
Proof.
  split; [apply encrypt_decrypts|]. unfold aesEncrypt, aesDecrypt. by intros ->.
Qed.

(** What main prints last is the plain text and at most thirty-two zero bytes; with a
    random source that works it never fails. *)
Lemma main_decrypts plainText :
  (∀ h, ∃ b, env h ReadRandom = inl b ∧ length b = aesKeyLen) →
  ∃ h z, main plainText tt [] = (Ret tt, tt, h ++ [Printf (Decrypted (plainText ++ replicate z 0))]) ∧
    (1 ≤ z ≤ 32)%nat.
Proof.
  intros Hr. destruct (Hr [Printf (PlainText plainText)]) as (seed&Hs&Hls).
  destruct (Hr [Printf (PlainText plainText); ReadRandom]) as (key&Hk&Hlk).
  set (k := imap (λ i _, Z.lxor (Z.of_nat i `mod` 256) (default 0 (seed !! i))) key).
  assert (validKey k = true) as Hv.
  { unfold validKey. apply bool_decide_eq_true. right. right. unfold k. by rewrite length_imap. }
  destruct (encrypt_decrypts k plainText Hv) as (c&z&He&_&Hd&Hz).
  eexists _, z. split; [|done]. apply wp_eq. unfold main, orFatal, runOutcome. wp_steps. simpl app.
  rewrite Hs. wp_steps. simpl app. rewrite Hk. unfold getAESKey. fold k. wp_steps. rewrite He. wp_steps. rewrite Hd. wp_steps.
  reflexivity.
Qed.
End Laws.
End Aes.

Module AesExamples.
Example base64_example : getBase64 [104; 101; 108; 108; 111] = [97; 71; 86; 115; 98; 71; 56; 61].
Proof. reflexivity. Qed.
(** A toy cipher: add the first byte of the key. *)
#[local] Instance shiftCipher : BlockCipher := {
  Encrypt key b := (λ x, x + default 0 (head key)) <$> b;
  Decrypt key b := (λ x, x - default 0 (head key)) <$> b;
}.
#[local] Instance shiftCipher_laws : BlockCipherLaws.
Proof.
  split.
  - intros key b Hb. simpl. by rewrite length_fmap.
  - intros key b _. simpl. rewrite <- list_fmap_compose. rewrite <- (list_fmap_id b) at 2.
    apply list_fmap_ext. intros i x _. simpl. lia.
Qed.
Lemma decrypt_encrypt_witness :
  ∃ c z, aesEncrypt (replicate 32 7) [104; 101] = Ret (inl c) ∧
    aesDecrypt (replicate 32 7) c = Ret (inl ([104; 101] ++ replicate z 0)).
Proof.
  destruct (decrypt_encrypt (replicate 32 7) [104; 101]) as [H _].
  destruct H as (c&z&H1&_&H2&_); [reflexivity|]. exists c, z. exact (conj H1 H2).
Defined.
End AesExamples.
