(* ===== verification/LeakyBucket.v ===== *)
(** * The leaky bucket (src/leakybucket/main.go)

    The ticking producer, the rate-limited client and the debug printer as a transition
    system over the bucket: the producer hands the slots of a tick to the client on an
    unbuffered channel, the client spends each slot on one request and passes its count
    on to the printer.  A single request and main are programs. *)
From stdpp Require Import base strings numbers list relations.
From S2P Require Import Prelude.
Local Open Scope Z_scope.

Record bucketState := mkBucket {
  dynamicCapacity : Z;
  maxCapacity : Z;
  leak : Z;
  counter : Z;
}.
Definition newLeakyBucket (capacity l : Z) : outcome bucketState :=
  if decide (capacity < l) then Exit "can't leak more than the dynamic capacity of the bucket"
  else Ret (mkBucket capacity capacity l 0).
Definition refill (b : bucketState) : bucketState :=
  mkBucket (maxCapacity b) (maxCapacity b) (leak b) (counter b).
(** A tick: refill an empty bucket, take the slots out. *)
Definition takeSlots (b : bucketState) : bucketState :=
  let b := if decide (dynamicCapacity b ≤ 0) then refill b else b in
  mkBucket (i64 (dynamicCapacity b - leak b)) (maxCapacity b) (leak b) (counter b).
(** A request: [atomic.AddUint64(&b.counter, 1)]. *)
Definition countRequest (b : bucketState) : bucketState :=
  mkBucket (dynamicCapacity b) (maxCapacity b) (leak b) (u64 (counter b + 1)).

(** ** Producer, client and debug printer

    [sending]: the producer is in [b.ready <- b.leak], holding the lock; [slots]: what is
    left of the client's loop; [pending]: the client is in [b.counterCh <- ...];
    [seen] and [dumped]: what the debug printer has received and dumped the bucket at;
    [ended]: a failed request has ended the process, or the printer has panicked;
    [ticks] and [requests] count what happened. *)
Record state := mkState {
  bucket : bucketState; sending : bool; slots : Z; pending : option Z;
  seen : list Z; dumped : list Z; ended : bool; ticks : Z; requests : Z;
}.
Section Run.
Context (enableDebug : bool) (at_ : Z).

(** One value in the loop of [debug]: the bucket is dumped at every [at]-th request. *)
Definition debug (c : Z) (dumps : list Z) : option (list Z) :=
  if decide (at_ = 0) then None                        (* division by zero *)
  else Some (if decide (c `mod` at_ = 0) then if enableDebug then dumps ++ [c] else dumps else dumps).

Inductive step : state → state → Prop :=
  | step_tick b sl p se d t r :
      step (mkState b false sl p se d false t r) (mkState (takeSlots b) true sl p se d false (t + 1) r)
  | step_ready b se d t r :
      step (mkState b true 0 None se d false t r)
           (mkState b false (Z.max 0 (leak b)) None se d false t r)
  | step_fetch b sn sl se d t r :                      (* fetchRequest returns *)
      1 ≤ sl →
      step (mkState b sn sl None se d false t r)
           (mkState (countRequest b) sn (sl - 1) (Some (counter (countRequest b))) se d false t (r + 1))
  | step_fetch_exit b sn sl se d t r :                 (* os.Exit(127) in fetchRequest *)
      1 ≤ sl →
      step (mkState b sn sl None se d false t r) (mkState b sn sl None se d true t r)
  | step_debug b sn sl c se d d' t r :
      debug c d = Some d' →
      step (mkState b sn sl (Some c) se d false t r)
           (mkState b sn sl None (se ++ [c]) d' false t r)
  | step_debug_panic b sn sl c se d t r :
      debug c d = None →
      step (mkState b sn sl (Some c) se d false t r)
           (mkState b sn sl (Some c) se d true t r).
End Run.
Definition start (b : bucketState) : state := mkState b false 0 None [] [] false 0 0.

(** ** The rhythm of the bucket *)
(** The number of ticks between refills. *)
Definition period (capacity l : Z) : Z := (capacity + l - 1) `div` l.
Definition capacityAfter (capacity l t : Z) : Z :=
  if decide (t = 0) then capacity else capacity - l * (1 + (t - 1) `mod` period capacity l).

Section Rhythm.
Context (capacity l : Z) (Hl : 0 < l ≤ capacity) (Hmax : capacity < 2 ^ 63).
Context (enableDebug : bool) (at_ : Z).

Lemma period_bounds : 1 ≤ period capacity l ∧ l * (period capacity l - 1) < capacity ≤ l * period capacity l.
Proof.
  unfold period. pose proof (Z.div_mod (capacity + l - 1) l ltac:(lia)) as Hd.
  pose proof (Z.mod_pos_bound (capacity + l - 1) l ltac:(lia)) as Hm.
  set (q := (capacity + l - 1) `div` l) in *. split; nia.
Qed.
Lemma mod_next t : 1 ≤ t →
  let k := period capacity l in
  t `mod` k = if decide ((t - 1) `mod` k = k - 1) then 0 else (t - 1) `mod` k + 1.
Proof.
  intros Ht k. destruct period_bounds as [Hk _]. fold k in Hk.
  pose proof (Z.div_mod (t - 1) k ltac:(lia)) as Hd. pose proof (Z.mod_pos_bound (t - 1) k ltac:(lia)) as Hm.
  case_decide as He.
  - symmetry. apply (Z.mod_unique_pos _ _ ((t - 1) `div` k + 1)); nia.
  - symmetry. apply (Z.mod_unique_pos _ _ ((t - 1) `div` k)); nia.
Qed.
Lemma capacity_bounds t : 0 ≤ t → - l < capacityAfter capacity l t ≤ capacity.
Proof.
  intros Ht. unfold capacityAfter. case_decide; [lia|]. destruct period_bounds as (Hk&H1&H2).
  pose proof (Z.mod_pos_bound (t - 1) (period capacity l) ltac:(lia)). nia.
Qed.
Lemma capacity_next t : 0 ≤ t →
  capacityAfter capacity l (t + 1) =
    (if decide (capacityAfter capacity l t ≤ 0) then capacity else capacityAfter capacity l t) - l.
Proof.
  intros Ht. destruct period_bounds as (Hk&H1&H2).
  unfold capacityAfter at 1. rewrite decide_False by lia. replace (t + 1 - 1) with t by lia.
  unfold capacityAfter. destruct (decide (t = 0)) as [->|Hne].
  - rewrite decide_False by lia. rewrite Z.mod_0_l by lia. lia.
  - rewrite mod_next by lia. pose proof (Z.mod_pos_bound (t - 1) (period capacity l) ltac:(lia)).
    set (r := (t - 1) `mod` period capacity l) in *. repeat case_decide; nia.
Qed.

(** ** The invariant *)
Record inv (s : state) : Prop := {
  inv_max : maxCapacity (bucket s) = capacity;
  inv_leak : leak (bucket s) = l;
  inv_ticks : 0 ≤ ticks s ∧ 0 ≤ slots s ∧ 0 ≤ requests s;
  inv_dyn : dynamicCapacity (bucket s) = capacityAfter capacity l (ticks s);
  inv_slots : requests s + slots s + (if sending s then l else 0) = ticks s * l;
  inv_counter : counter (bucket s) = u64 (requests s);
  inv_pending : requests s = Z.of_nat (length (seen s)) + (if pending s then 1 else 0);
  inv_current : ∀ c, pending s = Some c → c = counter (bucket s);
  inv_seen : seen s = (λ i, u64 (Z.of_nat i + 1)) <$> seq 0 (length (seen s));
  inv_dumped : dumped s = if enableDebug then filter (λ c, c `mod` at_ = 0) (seen s) else [];
}.
Lemma inv_start : inv (start (mkBucket capacity capacity l 0)).
Proof. split; simpl; try done. by destruct enableDebug. Qed.
Lemma takeSlots_dyn b t :
  maxCapacity b = capacity → leak b = l → 0 ≤ t → dynamicCapacity b = capacityAfter capacity l t →
  dynamicCapacity (takeSlots b) = capacityAfter capacity l (t + 1).
Proof.
  intros Hm Hlk Ht Hd. pose proof (capacity_bounds (t + 1) ltac:(lia)) as Hb.
  rewrite capacity_next in * by lia. unfold takeSlots. rewrite <- Hd in *.
  case_decide; cbn [dynamicCapacity refill leak]; rewrite ?Hm, ?Hlk in *;
    (rewrite wrapS_id; [done|lia|unfold inS; lia]).
Qed.
Lemma debug_filter c se d :
  d = (if enableDebug then filter (λ c, c `mod` at_ = 0) se else []) → ∀ d',
  debug enableDebug at_ c d = Some d' →
  d' = if enableDebug then filter (λ c, c `mod` at_ = 0) (se ++ [c]) else [].
Proof.
  intros -> d'. unfold debug. case_decide; [done|]. intros [= <-]. destruct enableDebug; [|by case_decide].
  rewrite filter_app, filter_cons, filter_nil. case_decide; [done|]. by rewrite app_nil_r.
Qed.
Lemma seen_snoc se : ∀ c r,
  se = ((λ i, u64 (Z.of_nat i + 1)) <$> seq 0 (length se)) → c = u64 r → r = Z.of_nat (length se) + 1 →
  se ++ [c] = ((λ i, u64 (Z.of_nat i + 1)) <$> seq 0 (length (se ++ [c]))).
Proof.
  intros c r Hse -> ->. rewrite length_app, seq_app, fmap_app. simpl. by rewrite <- Hse.
Qed.
Lemma bucket_inv_step s s' : step enableDebug at_ s s' → inv s → inv s'.
Proof.
  intros Hstep [Hm Hlk (Ht&Hs&Hr) Hd Hsl Hc Hp Hcur Hseen Hdump].
  destruct Hstep; simpl in *; split; simpl; rewrite ?length_app; try done; try (simpl; lia).
  - unfold takeSlots. by case_decide.
  - unfold takeSlots. by case_decide.
  - by apply takeSlots_dyn.
  - unfold takeSlots. by case_decide.
  - intros c Hpc. rewrite (Hcur c Hpc). unfold takeSlots. by case_decide.
  - rewrite Hc. apply wrapU_add_l.
  - by intros ? [= <-].
  - rewrite <- length_app. eapply seen_snoc; [done| |done]. by rewrite (Hcur _ eq_refl).
  - by eapply debug_filter.
Qed.
Lemma bucket_inv_reachable s :
  rtc (step enableDebug at_) (start (mkBucket capacity capacity l 0)) s → inv s.
Proof.
  intros H. pose proof inv_start as Hi. revert Hi.
  induction H as [|s1 s2 s3 Hs _ IH]; [done|]. intros Hi. by eapply IH, bucket_inv_step.
Qed.
End Rhythm.

(** C27: The rate is limited by the ticks: in every interleaving the requests made, the
    slots the client still has and the slots being handed over are exactly the ticks
    times the leak; the counter is the number of requests modulo 2^64.  The capacity
    follows a fixed rhythm: it is refilled every [ceil(capacity / leak)] ticks and
    stays above minus the leak, so between refills up to that many times the leak,
    and not at most the capacity, flows out.  The debug printer receives the counts
    one, two, ... of the requests, each once and at most one of them behind, and dumps
    the bucket at exactly the multiples of [at] among them. *)
Theorem rate_limited capacity l enableDebug at_ b s :
  newLeakyBucket capacity l = Ret b → 0 < l → capacity < 2 ^ 63 →
  rtc (step enableDebug at_) (start b) s →
  requests s + slots s + (if sending s then l else 0) = ticks s * l ∧
  requests s ≤ ticks s * l ∧ counter (bucket s) = u64 (requests s) ∧
  dynamicCapacity (bucket s) = capacityAfter capacity l (ticks s) ∧
  - l < dynamicCapacity (bucket s) ≤ capacity ∧
  (∃ n, seen s = ((λ i, u64 (Z.of_nat i + 1)) <$> seq 0 n) ∧
        requests s - 1 ≤ Z.of_nat n ≤ requests s) ∧
  dumped s = (if enableDebug then filter (λ c, c `mod` at_ = 0) (seen s) else []).
Proof.
  unfold newLeakyBucket. case_decide as Hd; [done|]. intros [= <-] Hl Hmax Hr.
  destruct (bucket_inv_reachable capacity l ltac:(lia) Hmax enableDebug at_ s Hr)
    as [_ _ (Ht&Hs&Hq) Hdyn Hsl Hc Hp _ Hseen Hdump].
  split; [done|]. split; [destruct (sending s); lia|]. split; [done|]. split; [done|].
  rewrite Hdyn. split; [apply capacity_bounds; lia|]. split; [|done].
  exists (length (seen s)). split; [done|]. destruct (pending s); lia.
Qed.

(** ** One request, and the start *)
Inductive event :=
  | Get (url : string)
  | Log (e : error)
  | BodyClose
  | CloseIdleConnections
  | PrintDot
  | GoClient (url : string)
  | GoProcess (interval : Z)
  | GoDebug (at_ : Z)
  | Wait (counter : Z).
Definition answer (e : event) : Type :=
  match e with Get _ | BodyClose => option error | _ => unit end.

Section Main.
Context (env : list event → ∀ e, answer e).
Abbreviation bio := (io unit event).
Abbreviation do e := (call env e).

Definition fetchRequest (url : string) : bio unit :=
  err ← do (Get url);
  match err with
  | Some e => emit (Log e) ;; fatal "exit status 127"
  | None =>
      err ← do BodyClose;
      match err with Some e => emit (Log e) | None => mret tt end ;;
      emit CloseIdleConnections ;;
      emit PrintDot
  end.

(** [Done] acts on the copies of the wait group that the goroutines were given, so that
    the counter main waits for stays at two. *)
Definition main : bio unit :=
  match newLeakyBucket 10 4 with
  | Exit msg => fatal msg
  | Panic msg => panic msg
  | Ret rl =>
      emit (GoClient "http://freenas.ssi.local") ;;
      emit (GoProcess (500 * 1000000)) ;;
      emit (GoDebug 1024) ;;
      emit (Wait 2)
  end.

(** A request ends the process exactly if it fails, and the body of every response is
    closed before the dot is printed. *)
Lemma fetchRequest_run url s h :
  fetchRequest url s h =
  match env h (Get url) with
  | Some e => (Exit "exit status 127", s, h ++ [Get url; Log e])
  | None =>
      (Ret tt, s, h ++ [Get url; BodyClose] ++
         match env (h ++ [Get url]) BodyClose with Some e => [Log e] | None => [] end ++
         [CloseIdleConnections; PrintDot])
  end.
Proof.
  apply wp_eq. unfold fetchRequest. wp_steps. destruct (env h (Get url)); wp_steps.
  { by rewrite <- app_assoc. }
  destruct (env _ BodyClose); wp_steps; by rewrite <- !app_assoc.
Qed.
End Main.

Module BucketExamples.
Definition full : bucketState := mkBucket 10 10 4 0.
(** Three ticks take twelve slots out of a bucket of ten. *)
Example overdrawn : dynamicCapacity (takeSlots (takeSlots (takeSlots full))) = -2.
Proof. vm_compute. reflexivity. Qed.
Lemma one_request :
  rtc (step true 1024) (start full) (mkState (countRequest (takeSlots full)) false 3 (Some 1) [] [] false 1 1).
Proof.
  eapply rtc_l; [apply step_tick|]. eapply rtc_l; [apply step_ready|].
  eapply rtc_l; [apply step_fetch; vm_compute; done|]. apply rtc_refl.
Qed.
Lemma rate_limited_witness :
  newLeakyBucket 10 4 = Ret full ∧
  - 4 < dynamicCapacity (countRequest (takeSlots full)) ≤ 10.
Proof.
  split; [reflexivity|].
  exact (proj1 (proj2 (proj2 (proj2 (proj2
    (rate_limited 10 4 true 1024 full _ eq_refl ltac:(lia) ltac:(lia) one_request)))))).
Defined.
End BucketExamples.
