(* ===== verification/Goroutines.v ===== *)
(** * Programs of a few goroutines (src/atomic-counters/, src/recover-explore/,
    src/timer-explorer/, src/runtime-foo/)

    Each program is a transition system whose steps are the statements of its
    goroutines, in any interleaving. *)
From stdpp Require Import base gmap strings numbers list relations sets.
From S2P Require Import Prelude.
Local Open Scope Z_scope.

(** ** atomic-counters/main.go

    [x = atomic.AddInt64(&x, d)] is two steps: the addition, which is atomic, and the
    assignment of its result, which is not part of it. *)
Module Counters.
(** [inc], [dec]: the result that the goroutine has yet to assign; [incs], [decs] count
    the additions; [printed] is what the ticking goroutine has printed. *)
Record state := mkState {
  x : Z; inc : option Z; dec : option Z; printed : list Z; incs : Z; decs : Z;
}.
Definition delta : Z := 1024.
Inductive step : state → state → Prop :=
  | step_inc_add v d p i k :
      step (mkState v None d p i k) (mkState (i64 (v + delta)) (Some (i64 (v + delta))) d p (i + 1) k)
  | step_inc_store v r d p i k :
      step (mkState v (Some r) d p i k) (mkState r None d p i k)
  | step_dec_add v c p i k :
      step (mkState v c None p i k) (mkState (i64 (v - delta)) c (Some (i64 (v - delta))) p i (k + 1))
  | step_dec_store v c r p i k :
      step (mkState v c (Some r) p i k) (mkState r c None p i k)
  | step_print v c d p i k :
      step (mkState v c d p i k) (mkState v c d (p ++ [v]) i k).
Definition init : state := mkState 0 None None [0] 0 0.
Definition reachable (s : state) : Prop := rtc step init s.

(** A value that the additions so far can have produced. *)
Definition within (i k v : Z) : Prop := (delta | v) ∧ - (delta * k) ≤ v ≤ delta * i.
Record inv (s : state) : Prop := {
  inv_counts : 0 ≤ incs s ∧ 0 ≤ decs s;
  inv_x : within (incs s) (decs s) (x s);
  inv_inc : ∀ r, inc s = Some r → within (incs s) (decs s) r;
  inv_dec : ∀ r, dec s = Some r → within (incs s) (decs s) r;
  inv_printed : Forall (within (incs s) (decs s)) (printed s);
}.
(** Fewer additions than would overflow: with 2^52 of each the sum stays in range. *)
Definition early (s : state) : Prop := incs s < 2 ^ 52 ∧ decs s < 2 ^ 52.

Lemma within_mono i i' k k' v : i ≤ i' → k ≤ k' → within i k v → within i' k' v.
Proof. unfold within, delta. intros ?? [? ?]. split; [done|lia]. Qed.
Lemma within_inc i k v :
  0 ≤ i → 0 ≤ k → i + 1 < 2 ^ 52 → k < 2 ^ 52 → within i k v → within (i + 1) k (i64 (v + delta)).
Proof.
  unfold within, delta. intros Hi Hk Hbi Hbk [[q ->] Hv].
  rewrite wrapS_id; [|done|unfold inS; lia]. split; [exists (q + 1); lia|lia].
Qed.
Lemma within_dec i k v :
  0 ≤ i → 0 ≤ k → i < 2 ^ 52 → k + 1 < 2 ^ 52 → within i k v → within i (k + 1) (i64 (v - delta)).
Proof.
  unfold within, delta. intros Hi Hk Hbi Hbk [[q ->] Hv].
  rewrite wrapS_id; [|done|unfold inS; lia]. split; [exists (q - 1); lia|lia].
Qed.
Lemma inv_step_counters s s' : step s s' → early s' → inv s → inv s'.
Proof.
  unfold early. intros Hstep He [[Hi Hk] Hx Hinc Hdec Hp].
  assert (∀ i i' k k' l, i ≤ i' → k ≤ k' → Forall (within i k) l → Forall (within i' k') l) as Hmono.
  { intros. eapply Forall_impl; [done|]. intros ?. by apply within_mono. }
  destruct Hstep; simpl in *; destruct He as [Hei Hek]; split; simpl; eauto with lia;
    try (by apply within_inc); try (by apply within_dec);
    try (by intros ? [= <-]; apply within_inc); try (by intros ? [= <-]; apply within_dec);
    try (by eapply Hmono; [| |done]; lia);
    try (intros r Hr; eapply within_mono; [| |by eauto]; lia).
  by apply Forall_snoc_2.
Qed.
Lemma step_counts s s' : step s s' → incs s ≤ incs s' ∧ decs s ≤ decs s'.
Proof. destruct 1; simpl; lia. Qed.
Lemma inv_reachable_counters s : reachable s → early s → inv s.
Proof.
  unfold reachable. intros H. assert (inv init → early s → inv s) as Hgo.
  { induction H as [|s1 s2 s3 Hs Hr IH]; [done|]. intros Hi He.
    assert (incs s2 ≤ incs s3 ∧ decs s2 ≤ decs s3) as [??].
    { clear -Hr. induction Hr as [|? ? ? Hs _ IH]; [done|]. apply step_counts in Hs. lia. }
    apply IH; [|done]. eapply inv_step_counters; [done| |done]. unfold early in *. lia. }
  apply Hgo. split; simpl; try done; unfold within, delta.
  - split; [by exists 0|lia].
  - constructor; [|constructor]. split; [by exists 0|lia].
Qed.

(** Whatever the interleaving, the counter, what the goroutines are about to assign
    and everything printed are multiples of 1024, no higher than all the increments and
    no lower than all the decrements together, as long as there were fewer than 2^52 of
    each. *)
Theorem counter_bounds s :
  reachable s → early s →
  within (incs s) (decs s) (x s) ∧ Forall (within (incs s) (decs s)) (printed s).
Proof. intros Hr He. by destruct (inv_reachable_counters s Hr He). Qed.

(** The assignments lose updates: after an increment and a decrement, both completed, the
    counter can hold either of them alone. *)
Lemma update_lost : reachable (mkState 1024 None None [0] 1 1) ∧ reachable (mkState (-1024) None None [0] 1 1).
Proof.
  split; unfold reachable.
  - eapply rtc_l; [apply step_inc_add|]. eapply rtc_l; [apply step_dec_add|].
    eapply rtc_l; [apply step_dec_store|]. eapply rtc_l; [apply step_inc_store|]. apply rtc_refl.
  - eapply rtc_l; [apply step_dec_add|]. eapply rtc_l; [apply step_inc_add|].
    eapply rtc_l; [apply step_inc_store|]. eapply rtc_l; [apply step_dec_store|]. apply rtc_refl.
Qed.
Lemma counter_bounds_witness : within 1 1 1024.
Proof. exact (proj1 (counter_bounds _ (proj1 update_lost) ltac:(split; vm_compute; done))). Defined.
End Counters.

(** ** timer-explorer/main.go

    The timer fires once; the goroutine deletes the file, says so and wakes main, which
    ends the program. *)
Module Timer.
Record DeleterUploadEvent := mkDeleter { file : string }.
Definition newDeleterService (f : string) : DeleterUploadEvent := mkDeleter f.
(** What the deleting function prints, and the loop after it. *)
Definition fn (e : DeleterUploadEvent) : string := file e +:+ " deleted".
Definition fnDone (e : DeleterUploadEvent) : string := "fn done for file: " +:+ file e.

(** [OnTimer]: in the select, with [fired] for a timer whose one value was received. *)
Inductive phase := OnTimer (fired : bool) | Fired | Reporting | Sending.
Inductive mainPhase := OnFinch | Awake | Finished.
Record state := mkState { deleter : phase; mainAt : mainPhase; output : list string }.
Section Timer.
Context (e : DeleterUploadEvent).
Inductive step : state → state → Prop :=
  | step_timer m out : step (mkState (OnTimer false) m out) (mkState Fired m out)
  | step_fn m out : step (mkState Fired m out) (mkState Reporting m (out ++ [fn e]))
  | step_report m out : step (mkState Reporting m out) (mkState Sending m (out ++ [fnDone e]))
  | step_finch out : step (mkState Sending OnFinch out) (mkState (OnTimer true) Awake out)
  | step_main d out : step (mkState d Awake out) (mkState d Finished (out ++ ["Timer stopped"])).
Definition start : state := mkState (OnTimer false) OnFinch [].

(** The output at every point of the program. *)
Definition expected (d : phase) (m : mainPhase) : option (list string) :=
  match d, m with
  | OnTimer false, OnFinch | Fired, OnFinch => Some []
  | Reporting, OnFinch => Some [fn e]
  | Sending, OnFinch => Some [fn e; fnDone e]
  | OnTimer true, Awake => Some [fn e; fnDone e]
  | OnTimer true, Finished => Some [fn e; fnDone e; "Timer stopped"]
  | _, _ => None
  end.
Lemma expected_step s s' :
  step s s' → expected (deleter s) (mainAt s) = Some (output s) →
  expected (deleter s') (mainAt s') = Some (output s').
Proof.
  destruct 1 as [m out|m out|m out|out|d out]; simpl; intros H;
    try (destruct m; [injection H as <-|discriminate H..]; reflexivity); [done|].
  destruct d as [[]| | |]; try discriminate H. by injection H as <-.
Qed.
(** The program ends with the file deleted, once: in every reachable state the output is
    the expected one, and until main has finished something can happen, of which there
    are five steps. *)
Lemma deleted_once s :
  rtc step start s →
  expected (deleter s) (mainAt s) = Some (output s) ∧ (mainAt s = Finished ∨ ∃ s', step s s').
Proof.
  intros H. assert (expected (deleter s) (mainAt s) = Some (output s)) as He.
  { assert (expected (deleter start) (mainAt start) = Some (output start)) as H0 by done.
    revert H0. induction H as [|s1 s2 s3 Hs _ IH]; [done|]. intros Hi. by eapply IH, expected_step. }
  split; [done|]. destruct s as [[[]| | |] [] out]; simpl in *; try done; auto; right;
    eexists; constructor.
Qed.
Lemma at_most_five n s : nsteps step n start s → (n ≤ 5)%nat.
Proof.
  set (left := λ s : state, (match deleter s with OnTimer false => 4 | Fired => 3 | Reporting => 2
    | Sending => 1 | OnTimer true => 0 end + match mainAt s with Finished => 0 | _ => 1 end)%nat).
  assert (∀ a b, step a b → S (left b) ≤ left a)%nat as Hdec.
  { unfold left. destruct 1 as [[]|[]|[]| |[[]| | |]]; simpl; lia. }
  assert (nsteps step n start s → n + left s ≤ left start)%nat as Hn.
  { generalize start. induction n as [|n IH]; intros s0 H; inversion H; subst; [lia|].
    specialize (Hdec _ _ ltac:(eassumption)). specialize (IH _ ltac:(eassumption)). lia. }
  intros H. specialize (Hn H). unfold left in Hn. simpl in Hn. lia.
Qed.
End Timer.
End Timer.

(** ** recover-explore/main.go

    The wait group is the state; a deferred function that recovers sees the panic and
    turns it into a return. *)
Module Recover.
Inductive event := Println (s : string) | Dump (counter : Z).
Abbreviation rio := (io Z event).
(** [defer func() { recover() ... }()] around the rest of the function. *)
Definition recovering (d : option string → rio unit) (m : rio unit) : rio unit := λ s h,
  match m s h with
  | (Ret _, s', h') => d None s' h'
  | (Panic msg, s', h') => d (Some msg) s' h'
  | (Exit msg, s', h') => (Exit msg, s', h')
  end.
Definition Done : rio unit :=
  c ← get;
  if decide (c - 1 < 0) then panic "sync: negative WaitGroup counter" else modify (λ c, c - 1).
Definition doPanic : rio unit :=
  recovering (λ err,
    match err with
    | Some e => emit (Println ("the code just panicked: " +:+ e))
    | None => mret tt
    end ;;
    c ← get; emit (Dump c) ;; Done) (
  emit (Println "hello i will panic") ;;
  panic "hello i panic'ed").
Definition dontPanic : rio unit := deferring Done (emit (Println "hello i do not panic")).
(** The goroutines one after the other, in the order of the scheduler; [Wait] returns
    when the counter is zero, and a program that waits for ever ends with an error. *)
Definition main (panicFirst : bool) : rio unit :=
  modify (λ c, c + 2) ;;
  (if panicFirst then doPanic ;; dontPanic else dontPanic ;; doPanic) ;;
  c ← get;
  if decide (c = 0) then mret tt else fatal "all goroutines are asleep - deadlock!".
(** The panic ends one goroutine, not the program: main returns in either order. *)
Lemma main_returns first : ∃ h, main first 0 [] = (Ret tt, 0, h).
Proof. destruct first; by eexists. Qed.
End Recover.

(** ** runtime-foo/main.go

    The ticking goroutine writes to random keys of a map below its size. *)
Module RuntimeFoo.
Inductive event := Intn (n : Z) | PrintDone | LockOSThread | GC | UnlockOSThread.
Definition answer (e : event) : Type := match e with Intn _ => Z | _ => unit end.
Section Foo.
Context (env : list event → ∀ e, answer e).
Abbreviation fio := (io (gmap Z string) event).
(** The loop from [e] on, for at most [fuel] rounds. *)
Fixpoint fill (fuel : nat) (e : Z) : fio unit :=
  mem ← get;
  if decide (e < Z.of_nat (size mem)) then
    match fuel with
    | O => fatal "out of fuel"
    | S fuel' =>
        if decide (e ≤ 0) then panic "invalid argument to Intn"
        else
          k ← call env (Intn e);
          modify <[k := "hello"]> ;;
          fill fuel' (e + 1)
    end
  else mret tt.
Definition tick (fuel : nat) : fio unit := fill fuel 0 ;; emit PrintDone.
(** The other goroutine, for a number of rounds. *)
Fixpoint collect (rounds : nat) : fio unit :=
  match rounds with
  | O => mret tt
  | S n => emit LockOSThread ;; emit GC ;; emit UnlockOSThread ;; collect n
  end.
Fixpoint ticks (fuel n : nat) : fio unit :=
  match n with O => mret tt | S n' => tick fuel ;; ticks fuel n' end.
(** The map stays empty, which is why the loop never gets to ask for a number below zero;
    with a single entry the first tick would panic. *)
Lemma ticks_idle fuel n h : ticks fuel n ∅ h = (Ret tt, ∅, h ++ replicate n PrintDone).
Proof.
  revert h. induction n as [|n IH]; intros h; [by rewrite app_nil_r|]. cbn [ticks replicate].
  assert (tick fuel ∅ h = (Ret tt, ∅, h ++ [PrintDone])) as Ht.
  { unfold tick. destruct fuel; reflexivity. }
  unfold mbind, io_bind. rewrite Ht, IH. by rewrite <- app_assoc.
Qed.
Lemma tick_panics fuel mem h :
  mem ≠ ∅ → tick (S fuel) mem h = (Panic "invalid argument to Intn", mem, h).
Proof.
  intros Hne. apply wp_eq. unfold tick. cbn [fill]. wp_steps.
  rewrite decide_True; [wp_steps; by rewrite decide_True by lia|].
  assert (size mem ≠ 0%nat) by by apply map_size_non_empty_iff. lia.
Qed.
End Foo.
End RuntimeFoo.
