(* ===== verification/Clients.v ===== *)
(** * Small clients and servers (src/backoff-exponential/, src/tls-handshake-go/,
    src/pebble-foo/, src/cdoh/, src/leakybucket-uber/, src/interfaces-explore/,
    src/io-explore1/, src/tracing/, src/tracing2/)

    Each module is one program; the libraries they call answer through the
    environment. *)
From stdpp Require Import base gmap strings numbers list.
From S2P Require Import Prelude GoStrings Float64 GoTime LeakyBucket.
Local Open Scope Z_scope.
Set Default Proof Using "Type*".

(** ** backoff-exponential/main.go *)
Module Backoff.
Definition msg : string := "hello world!" +:+ String newline "".
(** [backoff.Stop] *)
Definition Stop : Z := -1.
Inductive event :=
  | Dial (addr : string)
  | NextBackOff
  | Reset
  | PrintError (e : error) (t : Z)
  | Sleep (t : Z)
  | Write (b : string)
  | PrintWrote (n : Z)
  | Close.
Definition answer (e : event) : Type :=
  match e with
  | Dial _ => option error            (* the connection of the round, or an error *)
  | NextBackOff => Z
  | Write _ => Z * option error
  | _ => unit
  end.
Section Backoff.
Context (env : list event → ∀ e, answer e).
Abbreviation bio := (io unit event).
Abbreviation do e := (call env e).

(** One round of the loop: whether main goes on. *)
Definition round : bio bool :=
  err ← do (Dial "127.0.0.1:2222");
  match err with
  | Some e =>
      t ← do NextBackOff;
      (if decide (t = Stop) then emit Reset else mret tt) ;;
      emit (PrintError e t) ;;
      emit (Sleep t) ;;
      mret true                       (* the connection is nil *)
  | None =>
      '(n, err) ← do (Write msg);
      match err with
      | Some _ => mret false
      | None =>
          emit (PrintWrote n) ;;
          emit Close ;;
          mret true
      end
  end.
(** The loop, interrupted after some rounds. *)
Fixpoint main (rounds : nat) : bio unit :=
  match rounds with
  | O => fatal "signal: interrupt"
  | S n => on ← round; if on : bool then main n else mret tt
  end.

(** The number of connections that are open after the events. *)
Fixpoint openFrom (pre h : list event) : Z :=
  match h with
  | [] => 0
  | e :: h' =>
      match e with
      | Dial a => match env pre (Dial a) with Some _ => 0 | None => 1 end
      | Close => -1
      | _ => 0
      end + openFrom (pre ++ [e]) h'
  end.
Definition openConns (h : list event) : Z := openFrom [] h.
Lemma openFrom_app pre a b : openFrom pre (a ++ b) = openFrom pre a + openFrom (pre ++ a) b.
Proof.
  revert pre. induction a as [|e a IH]; intros pre; simpl; [by rewrite app_nil_r|].
  rewrite IH, <- app_assoc. simpl. lia.
Qed.
Lemma open_snoc h e :
  openConns (h ++ [e]) = openConns h +
    match e with Dial a => match env h (Dial a) with Some _ => 0 | None => 1 end | Close => -1 | _ => 0 end.
Proof. unfold openConns. rewrite openFrom_app. simpl. lia. Qed.

Lemma wp_dialRound s h :
  openConns h = 0 →
  wp round (λ o _ h', ∃ on, o = Ret on ∧ openConns h' = if on : bool then 0 else 1) s h.
Proof.
  intros Ho. unfold round. wp_steps. destruct (env h (Dial _)) as [e|] eqn:Hd; wp_steps.
  - wp_if; wp_steps; (eexists; split; [done|]); rewrite !open_snoc, Hd; lia.
  - destruct (env _ (Write msg)) as [n [e|]]; wp_steps; (eexists; split; [done|]);
      rewrite !open_snoc, Hd; lia.
Qed.
(** A connection is open only during the round that dialled it: between rounds none
    is, however often dialling failed before; when main returns, which it does only
    after a failed write, the connection of that write has not been closed. *)
Theorem one_connection n s :
  wp (main n) (λ o _ h, match o with
    | Ret _ => openConns h = 1
    | Exit _ => openConns h = 0
    | Panic _ => False
    end) s [].
Proof.
  assert (∀ h, openConns h = 0 → wp (main n) (λ o _ h', match o with
    | Ret _ => openConns h' = 1 | Exit _ => openConns h' = 0 | Panic _ => False end) s h) as H;
    [|by apply H].
  revert s. induction n as [|n IH]; intros s h Ho; cbn [main]; wp_steps; [done|].
  eapply wp_mono; [|by apply wp_dialRound]. intros o s' h' (on&->&Hon). destruct on; wp_steps; [by apply IH|done].
Qed.
End Backoff.

(** The library says that it stops: the program sleeps for minus one nanosecond, which
    returns at once. *)
Example stop_sleeps :
  let env (_ : list event) (e : event) : answer e :=
    match e return answer e with
    | Dial _ => Some "refused" | NextBackOff => Stop | Write _ => (0, None) | _ => tt
    end in
  (main env 1 tt []).2 = [Dial "127.0.0.1:2222"; NextBackOff; Reset; PrintError "refused" (-1); Sleep (-1)].
Proof. reflexivity. Qed.
End Backoff.

(** ** tls-handshake-go/server/main.go and client/main.go *)
Module Tls.
Definition VersionSSL30 : Z := 768.
Definition VersionTLS10 : Z := 769.
Definition VersionTLS11 : Z := 770.
Definition VersionTLS12 : Z := 771.
Definition VersionTLS13 : Z := 772.
Definition DeprecatedTlsVersionWait : Z := 15 * Second.

(** The fields of [tls.Config] that the programs set; the others have their zero value. *)
Record Config := mkConfig {
  MinVersion : Z; MaxVersion : Z; CurvePreferences : list string; PreferServerCipherSuites : bool;
  CipherSuites : list string; ServerName : string; RootCAs : option string; InsecureSkipVerify : bool;
}.
Definition serverConfig : Config :=
  mkConfig VersionSSL30 VersionTLS13 ["P-521"; "P-384"; "P-256"] true
    ["TLS_ECDHE_RSA_WITH_AES_256_GCM_SHA384"; "TLS_ECDHE_RSA_WITH_AES_256_CBC_SHA";
     "TLS_RSA_WITH_AES_256_GCM_SHA384"; "TLS_RSA_WITH_AES_256_CBC_SHA"]
    "localhost.localdomain" None false.
Definition clientConfig (roots : string) : Config :=
  mkConfig 0 0 [] true [] "localhost.localdomain" (Some roots) false.

Inductive event :=
  | Println (s : string)
  | Sleep (d : Z)
  | AppendCertsFromPEM
  | Get (url : string) (c : Config)
  | ReadAll
  | CloseBody
  | AddHeader (k v : string)
  | WriteBody (b : string)
  | ListenAndServeTLS (addr : string) (c : Config).
Definition answer (e : event) : Type :=
  match e with
  | AppendCertsFromPEM => bool
  | Get _ _ => option error
  | ReadAll => result string
  | ListenAndServeTLS _ _ => error
  | _ => unit
  end.
Abbreviation tio := (io unit event).
Definition when (b : bool) (m : tio unit) : tio unit := if b then m else mret tt.
Abbreviation isV v w := (bool_decide (v = w)).

(** [VerifyConnection] of the server and of the client; both accept. *)
Definition serverVerifyConnection (v : Z) : tio (option error) :=
  when (isV v VersionSSL30)
    (emit (Println "Negotiated SSL Version: 3.0") ;; emit (Sleep DeprecatedTlsVersionWait)) ;;
  when (isV v VersionTLS10)
    (emit (Println "Negotiated TLS Version: 1.0") ;; emit (Sleep DeprecatedTlsVersionWait)) ;;
  when (isV v VersionTLS11)
    (emit (Println "Negotiated TLS Version: 1.1") ;; emit (Sleep DeprecatedTlsVersionWait)) ;;
  when (isV v VersionTLS12)
    (emit (Println "Negotiated TLS Version: 1.2") ;; emit (Sleep DeprecatedTlsVersionWait)) ;;
  when (isV v VersionTLS13) (emit (Println "Negotiated TLS Version: 1.3")) ;;
  mret None.
Definition clientVerifyConnection (v : Z) : tio (option error) :=
  when (isV v VersionTLS10) (emit (Println "Negotiated TLS Version: 1.0")) ;;
  when (isV v VersionTLS11) (emit (Println "Negotiated TLS Version: 1.1")) ;;
  when (isV v VersionTLS12) (emit (Println "Negotiated TLS Version: 1.2")) ;;
  when (isV v VersionTLS13) (emit (Println "Negotiated TLS Version: 1.3")) ;;
  when (isV v VersionSSL30) (emit (Println "Negotiated SSL Version: 3.0")) ;;
  mret None.

Section Main.
Context (env : list event → ∀ e, answer e).
Abbreviation do e := (call env e).
Definition handle : tio unit :=
  emit (AddHeader "Strict-Transport-Security" "max-age=63072000; includeSubDomains") ;;
  emit (WriteBody ("This is an example server." +:+ String newline "")).
Definition serverMain : tio unit :=
  err ← do (ListenAndServeTLS ":1443" serverConfig);
  fatal err.
Definition clientMain (rootPEM : string) : tio unit :=
  ok ← do AppendCertsFromPEM;
  if negb ok then panic "failed to parse root certificate"
  else
    err ← do (Get "https://localhost.localdomain:1443/" (clientConfig rootPEM));
    match err with
    | Some e => fatal ("Failed to get URL: " +:+ e)
    | None =>
        deferring (emit CloseBody) (
          r ← do ReadAll;
          match r with
          | inr e => fatal ("Failed to get body: " +:+ e)
          | inl b => emit (Println ("body: " +:+ b))
          end)
    end.
End Main.

Definition versions : list Z := [VersionSSL30; VersionTLS10; VersionTLS11; VersionTLS12; VersionTLS13].
Definition linesOf (h : list event) : list string :=
  omap (λ e, match e with Println s => Some s | _ => None end) h.
Definition waits (h : list event) : list Z :=
  omap (λ e, match e with Sleep d => Some d | _ => None end) h.
(** Both ends of a connection report the same version in the same words, once, and accept
    it; the server makes the client wait for fifteen seconds for every version below TLS
    1.3, TLS 1.2 among them; a version they do not know they pass in silence. *)
Lemma verify_agree v :
  (serverVerifyConnection v tt []).1.1 = Ret None ∧ (clientVerifyConnection v tt []).1.1 = Ret None ∧
  linesOf (serverVerifyConnection v tt []).2 = linesOf (clientVerifyConnection v tt []).2 ∧
  length (linesOf (serverVerifyConnection v tt []).2) = (if decide (v ∈ versions) then 1%nat else 0%nat) ∧
  waits (serverVerifyConnection v tt []).2 =
    if decide (VersionSSL30 ≤ v < VersionTLS13) then [15 * Second] else [].
Proof.
  destruct (decide (v ∈ versions)) as [Hv|Hv].
  - repeat (apply elem_of_cons in Hv as [->|Hv]; [done|]). by apply elem_of_nil in Hv.
  - assert (∀ w, w ∈ versions → isV v w = false) as Hne
      by (intros w Hw; apply bool_decide_eq_false; by intros ->).
    unfold serverVerifyConnection, clientVerifyConnection.
    rewrite !Hne by (repeat (first [left|right])). simpl. split_and!; try done.
    rewrite decide_False; [done|]. intros Hr. apply Hv. unfold versions.
    assert (v = 768 ∨ v = 769 ∨ v = 770 ∨ v = 771) as Hc
      by (unfold VersionSSL30, VersionTLS13 in Hr; lia).
    destruct Hc as [->|[->|[->| ->]]]; repeat (first [left|right]).
Qed.
End Tls.

(** ** pebble-foo/main.go *)
Module Pebble.
Inductive event :=
  | Open (name : string) (mem : bool)
  | Set_ (key value : string) (sync : bool)
  | Get (key : string)
  | PrintKV (key value : string)
  | CloserClose
  | CloseDB
  | PrintRule
  | Sleep (d : Z).
Definition answer (e : event) : Type :=
  match e with
  | Open _ _ | Set_ _ _ _ | CloserClose | CloseDB => option error
  | Get _ => result string
  | _ => unit
  end.
Section Pebble.
Context (env : list event → ∀ e, answer e).
Abbreviation pio := (io unit event).
Abbreviation do e := (call env e).
Definition orFatal (err : option error) : pio unit :=
  match err with Some e => fatal e | None => mret tt end.
Definition key (i : nat) : string := "hello " +:+ fmtInt (Z.of_nat i).

(** The loop from [i] on, with [n] rounds to go. *)
Fixpoint loop (sync : bool) (i n : nat) : pio unit :=
  match n with
  | O => mret tt
  | S n' =>
      err ← do (Set_ (key i) "world" sync);
      orFatal err ;;
      r ← do (Get (key i));
      match r with
      | inr e => fatal e
      | inl value =>
          emit (PrintKV (key i) value) ;;
          err ← do CloserClose;
          orFatal err ;;
          loop sync (S i) n'
      end
  end.
Definition closeDB : pio unit := err ← do CloseDB; orFatal err.
Definition memBasedPebble : pio unit :=
  err ← do (Open "memfs-demo" true);
  orFatal err ;;
  deferring closeDB (loop false 0 1000).
Definition fileBasedPebble : pio unit :=
  err ← do (Open "disk-demo" false);
  orFatal err ;;
  deferring closeDB (loop true 0 1000).
Definition main : pio unit :=
  fileBasedPebble ;;
  emit PrintRule ;;
  emit (Sleep (5 * Second)) ;;
  memBasedPebble.

(** What pebble documents: a get returns the value that was set last; and nothing fails. *)
Fixpoint lastSet (k : string) (h : list event) : option string :=
  match h with
  | [] => None
  | e :: h' =>
      match lastSet k h' with
      | Some v => Some v
      | None => match e with Set_ k' v _ => if decide (k' = k) then Some v else None | _ => None end
      end
  end.
Class Store : Prop := {
  Get_last h k v : lastSet k h = Some v → env h (Get k) = inl v;
  no_error h e : match e return answer e → Prop with
                 | Open _ _ | Set_ _ _ _ | CloserClose | CloseDB => λ r, r = None
                 | _ => λ _, True
                 end (env h e);
}.
Context `{!Store}.

(** The events of one round, and of one database. *)
Definition roundEvents (sync : bool) (i : nat) : list event :=
  [Set_ (key i) "world" sync; Get (key i); PrintKV (key i) "world"; CloserClose].
Definition dbEvents (name : string) (mem : bool) : list event :=
  Open name mem :: (seq 0 1000 ≫= roundEvents (negb mem)) ++ [CloseDB].

Lemma lastSet_snoc h k v sync : lastSet k (h ++ [Set_ k v sync]) = Some v.
Proof. induction h as [|e h IH]; simpl; [by rewrite decide_True|by rewrite IH]. Qed.
Lemma no_errors h :
  (∀ n m, env h (Open n m) = None) ∧ (∀ k v s, env h (Set_ k v s) = None) ∧
  env h CloserClose = None ∧ env h CloseDB = None.
Proof.
  split_and!; intros; [exact (no_error h (Open _ _))|exact (no_error h (Set_ _ _ _))|
    exact (no_error h CloserClose)|exact (no_error h CloseDB)].
Qed.
Lemma loop_run sync i n s h :
  loop sync i n s h = (Ret tt, s, h ++ (seq i n ≫= roundEvents sync)).
Proof.
  revert i h. induction n as [|n IH]; intros i h; [by rewrite app_nil_r|].
  cbn [loop]. apply wp_eq. wp_steps. rewrite (proj1 (proj2 (no_errors _))). unfold orFatal at 1. wp_steps.
  rewrite (Get_last _ _ "world") by apply lastSet_snoc. wp_steps.
  rewrite (proj1 (proj2 (proj2 (no_errors _)))). unfold orFatal at 1. wp_steps.
  eapply wp_of_run; [apply IH|]. by rewrite <- !app_assoc.
Qed.
Lemma db_run name mem s h :
  (err ← do (Open name mem); orFatal err ;; deferring closeDB (loop (negb mem) 0 1000)) s h =
  (Ret tt, s, h ++ dbEvents name mem).
Proof.
  apply wp_eq. wp_steps. rewrite (proj1 (no_errors _)). unfold orFatal at 1. wp_steps.
  eapply wp_of_run; [apply loop_run|]. unfold closeDB. wp_steps.
  rewrite (proj2 (proj2 (proj2 (no_errors _)))). unfold orFatal. wp_steps.
  unfold dbEvents. by rewrite <- !app_assoc.
Qed.
(** Over a store that keeps what it is given, main prints every key with its value, in
    order, on disk and then in memory, and closes both databases. *)
Lemma pebble_run :
  main tt [] = (Ret tt, tt, dbEvents "disk-demo" false ++ [PrintRule; Sleep (5 * Second)] ++
                            dbEvents "memfs-demo" true).
Proof.
  apply wp_eq. unfold main. wp_steps.
  eapply wp_of_run; [apply (db_run "disk-demo" false)|]. wp_steps.
  eapply wp_of_run; [apply (db_run "memfs-demo" true)|]. by rewrite <- !app_assoc.
Qed.
End Pebble.
End Pebble.

(** ** cdoh/main.go *)
Module Cdoh.
Inductive event :=
  | Usage
  | LookupA (host fqdn : string)
  | LookupAAAA (host fqdn : string)
  | PrintRecord (fqdn : string) (ttl : Z) (ip : string).
(** Addresses and their time to live. *)
Definition answer (e : event) : Type :=
  match e with LookupA _ _ | LookupAAAA _ _ => result (list string * Z) | _ => unit end.
Section Cdoh.
Context (env : list event → ∀ e, answer e).
Abbreviation cio := (io unit event).
Abbreviation do e := (call env e).
(** One lookup: the first address is printed, as an A record in both cases. *)
Definition printFirst (fqdn : string) (r : result (list string * Z)) : cio unit :=
  match r with
  | inr e => panic e
  | inl ([], _) => panic "index out of range [0] with length 0"
  | inl (a :: _, ttl) => emit (PrintRecord fqdn ttl a)
  end.
Definition main (fqdnAddr resolverAddr : string) : cio unit :=
  if decide (fqdnAddr = "" ∨ resolverAddr = "") then emit Usage ;; fatal "exit status 255"
  else
    a4 ← do (LookupA resolverAddr fqdnAddr);
    printFirst fqdnAddr a4 ;;
    a6 ← do (LookupAAAA resolverAddr fqdnAddr);
    printFirst fqdnAddr a6.
(** main returns exactly when both lookups have an address; a name without an address of
    the first kind is never asked for the second. *)
Lemma cdoh_run fqdn host :
  fqdn ≠ "" → host ≠ "" →
  main fqdn host tt [] =
  match env [] (LookupA host fqdn) with
  | inl (a :: _, t4) =>
      let h := [LookupA host fqdn; PrintRecord fqdn t4 a] in
      match env h (LookupAAAA host fqdn) with
      | inl (b :: _, t6) => (Ret tt, tt, h ++ [LookupAAAA host fqdn; PrintRecord fqdn t6 b])
      | inl ([], _) => (Panic "index out of range [0] with length 0", tt, h ++ [LookupAAAA host fqdn])
      | inr e => (Panic e, tt, h ++ [LookupAAAA host fqdn])
      end
  | inl ([], _) => (Panic "index out of range [0] with length 0", tt, [LookupA host fqdn])
  | inr e => (Panic e, tt, [LookupA host fqdn])
  end.
Proof.
  intros Hf Hh. apply wp_eq. unfold main. rewrite decide_False by tauto. wp_steps.
  destruct (env [] (LookupA host fqdn)) as [[[|a r4] t4]|e]; cbn [printFirst]; wp_steps; [done| |done].
  simpl app. destruct (env _ (LookupAAAA host fqdn)) as [[[|b r6] t6]|e]; cbn [printFirst]; wp_steps; done.
Qed.
End Cdoh.
End Cdoh.

(** ** leakybucket-uber/main.go *)
Module Uber.
Inductive event :=
  | Now
  | Take
  | Println (i d : Z)
  | Http (e : LeakyBucket.event).
Definition answer (e : event) : Type :=
  match e with Now | Take => Z | Http e => LeakyBucket.answer e | _ => unit end.
Section Uber.
Context (env : list event → ∀ e, answer e).
Abbreviation uio := (io unit event).
Abbreviation do e := (call env e).
Definition fetchRequest (url : string) : uio unit :=
  err ← do (Http (LeakyBucket.Get url));
  match err : option error with
  | Some e => emit (Http (Log e)) ;; fatal "exit status 127"
  | None =>
      err ← do (Http BodyClose);
      match err : option error with Some e => emit (Http (Log e)) | None => mret tt end ;;
      emit (Http CloseIdleConnections) ;;
      emit (Http PrintDot)
  end.
(** The endless loop, interrupted after some rounds. *)
Fixpoint loop (url : string) (rounds : nat) (i prev : Z) : uio unit :=
  match rounds with
  | O => fatal "signal: interrupt"
  | S n =>
      now ← do Take;
      emit (Println i (timeSub now prev)) ;;
      fetchRequest url ;;
      loop url n (i64 (i + 1)) now
  end.
Definition main (args : list string) (rounds : nat) : uio unit :=
  match args !! 1%nat with
  | None => panic "index out of range [1]"
  | Some httpUrl => prev ← do Now; loop httpUrl rounds 0 prev
  end.

(** The surplus of turns over requests. *)
Definition weight (e : event) : Z :=
  match e with Take => 1 | Http (LeakyBucket.Get _) => -1 | _ => 0 end.
Definition surplus (h : list event) : Z := foldr (λ e n, weight e + n) 0 h.
Lemma surplus_snoc h e : surplus (h ++ [e]) = surplus h + weight e.
Proof. unfold surplus. induction h as [|e' h IH]; simpl in *; lia. Qed.
Lemma wp_fetchRequest url s h :
  wp (fetchRequest url) (λ _ _ h', surplus h' = surplus h - 1) s h.
Proof.
  unfold fetchRequest. wp_steps. destruct (env h _) as [e|]; wp_steps;
    [|destruct (env _ (Http BodyClose)) as [e|]; wp_steps]; rewrite !surplus_snoc; simpl; lia.
Qed.
(** Every request has waited for its own turn with the limiter, and no turn goes unused:
    their numbers agree whenever the loop is interrupted, and when a request fails. *)
Lemma one_turn_each args rounds s : wp (main args rounds) (λ _ _ h, surplus h = 0) s [].
Proof.
  unfold main. destruct (args !! 1%nat) as [url|]; wp_steps; [|done].
  assert (∀ rounds i prev s h, surplus h = 0 → wp (loop url rounds i prev) (λ _ _ h, surplus h = 0) s h)
    as Hl; [|by apply Hl].
  clear. intros rounds. induction rounds as [|n IH]; intros i prev s h Hh; cbn [loop]; wp_steps; [done|].
  eapply wp_mono; [|apply wp_fetchRequest]. intros o s' h' Hs. rewrite !surplus_snoc in Hs. simpl in Hs.
  destruct o; [apply IH|..]; lia.
Qed.
End Uber.
End Uber.

(** ** interfaces-explore/notifier.go and notifier_mock.go *)
Module Notifier.
Record Contact := mkContact { Name : string; Ph : string }.
Record Message := mkMessage { Address : string; ShopName : string; contact : Contact }.
Definition nl : string := String newline "".
Definition bar : string := "==================================".
(** [String] of a message. *)
Definition String_ (m : Message) : string :=
  bar +:+ nl +:+ "Address: " +:+ Address m +:+ nl +:+ "Shop name: " +:+ ShopName m +:+ nl +:+
  "Contact Name: " +:+ Name (contact m) +:+ nl +:+
  "Contact Phone Number: " +:+ Ph (contact m) +:+ nl +:+ bar.

Inductive event := Printf (s : string).
Abbreviation nio := (io unit event).
Definition send (m : Message) : nio (option error) :=
  emit (Printf ("sent notification to: " +:+ nl +:+ String_ m +:+ nl)) ;; mret None.
(** The two interfaces, and their implementation by messages. *)
Class notifier (A : Type) := Notify : A → nio unit.
Class FakeNotifier (A : Type) := NotifyFake : A → nio unit.
#[export] Instance Message_Notify : notifier Message := λ m, send m ;; mret tt.
#[export] Instance Message_NotifyFake : FakeNotifier Message := λ m,
  emit (Printf ("sent fake notification to " +:+ nl +:+ String_ m +:+ nl +:+ "without calling send()")).
Definition main : nio unit := Notify (mkMessage "ba" "sdf" (mkContact "ab" "123789899")).

(** A message without line breaks can be read back from its text. *)
Definition plain (m : Message) : Prop :=
  Forall (λ w, lacks newline w = true) [Address m; ShopName m; Name (contact m); Ph (contact m)].
Lemma String_lines m :
  plain m →
  split newline (String_ m) =
    [bar; "Address: " +:+ Address m; "Shop name: " +:+ ShopName m; "Contact Name: " +:+ Name (contact m);
     "Contact Phone Number: " +:+ Ph (contact m); bar].
Proof.
  intros Hp. rewrite <- (split_join newline [bar; "Address: " +:+ Address m; "Shop name: " +:+ ShopName m;
    "Contact Name: " +:+ Name (contact m); "Contact Phone Number: " +:+ Ph (contact m); bar]); [|done|].
  - done.
  - unfold plain in Hp. rewrite !Forall_cons in Hp. destruct Hp as (H1&H2&H3&H4&_).
    rewrite !Forall_cons, !lacks_app, H1, H2, H3, H4. by vm_compute.
Qed.
Lemma String_injective m m' : plain m → plain m' → String_ m = String_ m' → m = m'.
Proof.
  intros Hp Hp' Heq. pose proof (f_equal (split newline) Heq) as Hl.
  rewrite !String_lines in Hl by done. destruct m as [a s [n p]], m' as [a' s' [n' p']].
  cbn [Address ShopName contact Name Ph] in Hl. injection Hl as H1 H2 H3 H4.
  by repeat match goal with H : ?w +:+ ?x = _ |- _ => apply (inj _) in H end; subst.
Qed.
End Notifier.

(** ** io-explore1/main.go

    The destination is opened without truncating it. *)
Module IoCopy.
Abbreviation bytes := (list Z).
(** The destination: its content and the position of the next write. *)
Record file := mkFile { content : bytes; offset : nat }.
Definition writeAt (b : bytes) (f : file) : file :=
  mkFile (take (offset f) (content f) ++ b ++ drop (offset f + length b) (content f))
    (offset f + length b).
Inductive event :=
  | OpenSrc | OpenDest
  | Read                              (* by io.Copy, of at most 32 KB *)
  | WriteDest (b : bytes)
  | WriteStdout (b : bytes)
  | Sync | CloseSrc | CloseDest.
Definition answer (e : event) : Type :=
  match e with
  | OpenSrc | OpenDest => option error
  | WriteDest _ | WriteStdout _ => nat * option error     (* the bytes written *)
  | _ => unit
  end.
(** What is left to read: the chunks, then the end of the file or an error. *)
Record source := mkSource { chunks : list bytes; readError : option error }.

Section Copy.
Context (env : list event → ∀ e, answer e).
Abbreviation cio := (io file event).
Abbreviation do e := (call env e).

(** [Write] of the multi-writer: the file, then the standard output; the number of bytes
    that counts is that of the last write. *)
Definition multiWrite (b : bytes) : cio (nat * option error) :=
  '(n, err) ← do (WriteDest b);
  modify (writeAt (take n b)) ;;
  match err with
  | Some e => mret (n, Some e)
  | None =>
      if decide (n ≠ length b) then mret (n, Some "short write")
      else
        '(n, err) ← do (WriteStdout b);
        match err with
        | Some e => mret (n, Some e)
        | None =>
            if decide (n ≠ length b) then mret (n, Some "short write")
            else mret (length b, None)
        end
  end.
Fixpoint ioCopy (cs : list bytes) (last : option error) (written : Z) : cio (Z * option error) :=
  emit Read ;;
  match cs with
  | [] => mret (written, last)
  | c :: cs' =>
      '(n, err) ← multiWrite c;
      let written := i64 (written + Z.of_nat n) in
      match err with
      | Some e => mret (written, Some e)
      | None =>
          if decide (n ≠ length c) then mret (written, Some "short write")
          else ioCopy cs' last written
      end
  end.
Definition Copy (src : source) : cio (Z * option error) :=
  '(n, err) ← ioCopy (chunks src) (readError src) 0;
  match err with
  | Some e => mret (0, Some e)
  | None => mret (n, None)
  end.
Definition main (src : source) : cio unit :=
  err ← do OpenSrc;
  match err with
  | Some e => fatal e
  | None =>
      err ← do OpenDest;
      match err with
      | Some e => fatal e
      | None =>
          Copy src ;;                 (* its result is not looked at *)
          emit Sync ;;
          deferring (emit CloseSrc) (deferring (emit CloseDest) (mret tt))
      end
  end.

(** Calls that do what they are asked. *)
Class Works : Prop := {
  opens h : env h OpenSrc = None ∧ env h OpenDest = None;
  writes h b : env h (WriteDest b) = (length b, None) ∧ env h (WriteStdout b) = (length b, None);
}.
Context `{!Works}.

(** The destination after [b] was written over the start of [old]. *)
Definition over (b old : bytes) : file := mkFile (b ++ drop (length b) old) (length b).
Lemma writeAt_over b c old : writeAt c (over b old) = over (b ++ c) old.
Proof.
  unfold writeAt, over. cbn [content offset]. rewrite take_app_length, !length_app.
  f_equal. rewrite <- app_assoc. do 2 f_equal. rewrite drop_app_ge by lia.
  rewrite drop_drop. f_equal. lia.
Qed.
Lemma wp_ioCopy cs last n b old h :
  wp (ioCopy cs last n) (λ o f' _, (∃ n', o = Ret (n', last)) ∧ f' = over (b ++ concat cs) old) (over b old) h.
Proof.
  revert n b h. induction cs as [|c cs IH]; intros n b h; cbn [ioCopy concat]; wp_steps.
  { split; [by eexists|]. by rewrite app_nil_r. }
  unfold multiWrite. wp_steps. rewrite (proj1 (writes _ _)). wp_steps. rewrite decide_False by lia. wp_steps.
  rewrite (proj2 (writes _ _)). wp_steps. rewrite decide_False by lia. wp_steps. rewrite decide_False by lia.
  rewrite firstn_all, writeAt_over, app_assoc. apply IH.
Qed.
(** After main the destination starts with the source; what the destination held
    beyond the length of the source is still there, so that it is a copy exactly if the
    destination was not longer before.  Reading may fail: the beginning is then still
    written, and main does not notice. *)
Theorem copy_over src old h0 :
  ∃ f h, main src (mkFile old 0) h0 = (Ret tt, f, h) ∧
    let b := concat (chunks src) in
    content f = b ++ drop (length b) old ∧ (content f = b ↔ (length old ≤ length b)%nat).
Proof.
  assert (wp (main src) (λ o f _, o = Ret tt ∧ f = over (concat (chunks src)) old) (over [] old) h0) as Hwp.
  { unfold main, Copy. wp_steps. rewrite (proj1 (opens _)). wp_steps. rewrite (proj2 (opens _)). wp_steps.
    eapply wp_mono; [|apply (wp_ioCopy _ _ _ [])]. intros o f' h' [[n ->] ->]. wp_steps.
    destruct (readError src); wp_steps; done. }
  change (over [] old) with (mkFile old 0) in Hwp. unfold wp in Hwp.
  destruct (main src (mkFile old 0) h0) as [[o f] h]. destruct Hwp as [-> ->]. do 2 eexists.
  split; [done|]. cbv zeta. split; [done|]. cbn [content over].
  split.
  - intros Heq%(f_equal length). rewrite length_app, length_drop in Heq. lia.
  - intros Hle. by rewrite drop_ge, app_nil_r.
Qed.
End Copy.

Definition workingEnv (_ : list event) (e : event) : answer e :=
  match e return answer e with
  | OpenSrc | OpenDest => None
  | WriteDest b | WriteStdout b => (length b, None)
  | _ => tt
  end.
#[local] Instance workingEnv_works : Works workingEnv.
Proof. by split. Qed.
(** Three bytes over five: the last two stay. *)
Lemma copy_over_witness :
  ∃ f h, main workingEnv (mkSource [[1; 2]; [3]] None) (mkFile [9; 9; 9; 8; 7] 0) [] = (Ret tt, f, h) ∧
    content f = [1; 2; 3; 8; 7].
Proof.
  destruct (copy_over workingEnv (mkSource [[1; 2]; [3]] None) [9; 9; 9; 8; 7] []) as (f&h&Hrun&Hc&_).
  exists f, h. exact (conj Hrun Hc).
Defined.
End IoCopy.

(** ** tracing/main.go and tracing2/main.go *)
Module Tracing.
Inductive event :=
  | Now
  | Println (s : string)
  | NewTicker (d : Z)                 (* with the goroutine that prints dots *)
  | Sleep (d : Z)
  | LogTrace (elapsed : Z).
Definition answer (e : event) : Type := match e with Now => Z | _ => unit end.
Section Tracing.
Context (env : list event → ∀ e, answer e).
Abbreviation tio := (io unit event).
Abbreviation do e := (call env e).
Definition trace (start : Z) : tio unit :=
  now ← do Now;
  emit (LogTrace (timeSub now start)).
(** The argument of the deferred call is evaluated where it is deferred. *)
Definition work2 (traceFn : Z → tio unit) : tio unit :=
  s ← do Now;
  deferring (traceFn s) (
    emit (Println "working..") ;;
    emit (NewTicker (500 * Millisecond)) ;;
    emit (Sleep (5 * Second))).
Definition main2 : tio unit := work2 trace ;; emit (Println "done").
Definition work : tio unit :=
  s ← do Now;
  deferring (trace s) (
    emit (Println "working..") ;;
    emit (NewTicker (1 * Second)) ;;
    emit (Sleep (5 * Second))).
Definition main : tio unit := work ;; emit (Println "done").

(** A clock that moves on by at least the time slept. *)
Class Clock : Prop := {
  clock_range h : 0 ≤ env h Now < 2 ^ 63;
  clock_sleeps h k k' d : env h Now + d ≤ env (h ++ k ++ Sleep d :: k') Now;
}.
Definition traceOf (ticker d : Z) : list event :=
  [Now; Println "working.."; NewTicker ticker; Sleep (5 * Second); Now; LogTrace d; Println "done"].
(** Both programs log the time that the work took, at least the five seconds slept, before
    they say that they are done; they differ in the dots only. *)
Lemma traced `{!Clock} :
  (∃ d, 5 * Second ≤ d ∧ main tt [] = (Ret tt, tt, traceOf (1 * Second) d)) ∧
  (∃ d, 5 * Second ≤ d ∧ main2 tt [] = (Ret tt, tt, traceOf (500 * Millisecond) d)).
Proof.
  assert (∀ t, 5 * Second ≤ timeSub (env [Now; Println "working.."; NewTicker t; Sleep (5 * Second)] Now)
                             (env [] Now)) as Ht.
  { intros t. pose proof (clock_sleeps [] [Now; Println "working.."; NewTicker t] [] (5 * Second)) as Hs.
    simpl app in Hs. pose proof (clock_range []). pose proof (clock_range
      [Now; Println "working.."; NewTicker t; Sleep (5 * Second)]). unfold timeSub. lia. }
  split; eexists; (split; [apply Ht|reflexivity]).
Qed.
End Tracing.
End Tracing.
